(* ===== verification/_CoqProject ===== *)
-Q . S2P
Prelude.v
GoString.v
Runes.v
Json.v
JsonText.v
DepGraph.v
DepStore.v
Prog.v
Rely.v
Ledger.v
Escalation.v
HostIncidents.v
Policy.v
Notify.v
Dispatch.v
Scheduler.v
EscalationSystem.v
Uptime.v
UptimeIncidents.v
Detector.v
UptimeSafety.v
Maintenance.v
Environment.v
Chbatch.v
Batcher.v
Groups.v
Quota.v
Cardinality.v
Secretbox.v
Alert.v
Netguard.v
AlertBudget.v
Trace.v
Normalize.v
Detect.v
Scrub.v
Fingerprint.v
Issue.v
PerfIssue.v
Ingest.v
Org.v
Invite.v
Password.v
Auth.v
Login.v
Keys.v
Unmarshal.v
Envelope.v
Sentry.v
Handler.v
