(* ===== verification/Prelude.v ===== *)
(** * A verification development of gotcha

    gotcha is a self-hosted service for error tracking, tracing, uptime
    monitoring and host metrics, written in Go over PostgreSQL and ClickHouse.
    This library models the parts of it that decide something -- who gets in,
    who is notified, when and how often, what is counted, dropped or kept --
    and proves what makes them correct.  It is one file per component; this one
    holds what all share.

    ** How the program is modelled

    Several replicas of the service run the same handlers over the same
    tables.  A handler is a [prog] (file Prog): a tree of statements, each one
    atomic step on the shared state.  A SQL statement is such a step, so is a
    critical section under a mutex ([locked], file Environment) and a reading
    of a clock; a statement may fail before it took effect ([FLost]) or have
    only its reply lost ([FLostReply]); [Fork] is a goroutine.  A transaction
    is one step, which is what the isolation level and the row locks of the
    source give it.  Five logics conclude from the statements of one program
    to all runs of the whole:
    - [wp] (Prog): tokens and potential, for what may happen at most once;
    - [holds] (Ledger): amounts that processes hold and the state records, for
      what has to balance;
    - [rg] (Rely): rely-guarantee, for invariants of any number of processes;
    - [ensures] (Environment): one program run to its end while others act,
      for what is true when it returns;
    - [does] (Handler): what a program did besides what it returns, whatever
      it met, for accounts of one request.
    A process may also crash between two statements, which is how a context
    that is cancelled and a replica that dies are covered.  A component's
    tables are a record [T]; programs are written over any state [D] with
    [Has T D], so that components compose.  The fields that no table has --
    logs of what was delivered, applied, granted, meant -- are ghosts: they are
    written by the statements and read only by theorems.

    [time.Time] and [time.Duration] are counts of nanoseconds, a Go string is
    the string of its bytes, a map is a [gmap], and the order in which Go's
    [range] visits a map is a parameter wherever the code depends on it.

    ** The files

    - Prelude: errors, faults, the sequential handler monad, time, lists, sums
      over maps.  Prog, Rely, Environment, Ledger: programs and their logics.
    - DepGraph and DepStore: [internal/depsuppress].  The walks over the edges
      carry a fuel proved sufficient for every snapshot; the store keeps the
      explicit edges acyclic; the cache of snapshots is bounded in staleness.
    - Escalation, Policy, Dispatch, Scheduler: [internal/escalation].  Claims
      per channel and step, the ladders, the payloads, the scheduler.  The
      scheduler is proved against the interfaces [SourceLaw], [NotifyLaw] and
      [SchedulerLaw]; EscalationSystem discharges them for the host incidents
      of HostIncidents ([internal/host/incident.go]) and the queue of Notify.
    - Notify: [internal/notify], redaction, outbox and worker.
    - Uptime, UptimeIncidents, Detector, UptimeSafety, Maintenance:
      [internal/uptime].  Monitor state and consensus of regions, the check
      queue and the runner, the incident table, the detector and what its
      notifications may say, maintenance windows over Go's calendar.
    - Groups: [internal/incidentgroup], incidents grouped under their root.
    - Chbatch and Batcher: [internal/chbatch] and [internal/event/batcher.go],
      the buffer to ClickHouse and the isolation of rows it refuses.
    - Quota and Cardinality: the limits of [internal/ingest].
    - Secretbox, Alert, AlertBudget: [internal/secretbox] and
      [internal/alert], secrets at rest and their rotation, rules and channels,
      the notification budget with its digest.
    - Netguard: [internal/netguard], the filter of outgoing connections.
    - GoString, Runes, Json, JsonText, Unmarshal: Go's strings and UTF-8 and
      [encoding/json] - the values, their text both ways, decoding into the
      types of a program, numbers as binary64 ([SpecFloat]).
    - Keys, Envelope, Sentry, Handler, Ingest: the way in of [internal/ingest].
      Keys, their scopes and their cache; the parser of envelopes; the parsers
      of events and transactions; the handlers of the SDKs' endpoints over a
      record of what they call; the pipeline of workers with its bounded
      queues, budget of bytes and shutdown.
    - Trace, Normalize, Detect, PerfIssue: [internal/trace].  Sampling and
      spans, the normal forms of their descriptions, the detectors of
      performance problems against their definitions, and the issues made of
      what they find.
    - Scrub: [internal/scrub], secrets and personal data in JSON, messages, URLs
      and SQL.
    - Fingerprint and Issue: [internal/fingerprint] and [internal/issue].  What
      events belong together, the issues with their counters and merges,
      search and the pages of an export.
    - Org and Invite: [internal/org], members, teams, the last owner,
      invitations.
    - Password, Auth, Login: [internal/auth], [internal/org/sso.go] and the
      handlers of [internal/web] that open a session.  Hashes, accounts,
      sessions, the first administrator, password resets; passwords,
      registration, providers and single sign-on.
    ** What the theorems show

    - Nobody gets in without a reason: sessions, logins, memberships,
      administrators and invitations each go back to a fact that justifies
      them, and a key that was revoked is honoured no longer than its cache
      allows.  There is one first administrator, and an organisation keeps an
      owner.
    - What comes in is bounded and read back as it was written: envelopes,
      events and transactions within their limits on any bytes, and a round
      trip for envelopes and passwords.
    - Nothing is said twice: a step of a ladder reaches a channel at most once
      per lease, a queue row is sent at most once per attempt, the result of a
      check is applied at most once, an incident is open at most once.
    - Nothing is lost or miscounted: the item of a request is charged, taken,
      refunded or counted lost; every task of the pipeline and every event
      added is stored, judged bad or accounted dropped; issues count their
      events, an export has every issue once; quotas implement a meter; refused
      notifications are pending, reported or counted lost; a secret survives
      key rotation.
    - Nothing is shown that should not be: scrubbing masks what it promises,
      normal forms hide literals, redaction is by default; notifications are
      justified: never inside a window of maintenance or below a parent that is
      down, never beyond the operator's perimeter.
    - Decisions are right: graph walks, detectors, search, consensus, windows,
      address filters and fingerprints equal their reference definitions.
    - Progress: fair rotation, draining at shutdown, bounded retries.

    ** Bounds and fuel

    Every fuel is proved enough, or what it bounds is left to the schedule:
    [walk_fuel] and [bfs_fuel] by a measure on unvisited nodes, [days_fuel] by
    the length of the range, [is_blocked] by two levels of recursion,
    [sha_blocks] by the number of words, [sql_loop] and [maybe_json] by the
    length of the text, the nesting of URLs by [maxURLNestDepth] as in the
    source, [json_value] by twice the length and two, [int_root] by the bits
    of its number, [export_pages] by the number of identifiers, [parse_items]
    by the bytes of the body.  How often a worker ticks, a lock is polled or a
    request waits is a number the theorems quantify over.  Recursion on a batch
    is by Equations on its length.  Integers are [Z]; where the code relies on a
    width it is written out ([fits_int4], [wrap64] and the [Duration] product of
    Escalation, the [uint8] of addresses, binary64 in the parsers).  Counters
    of [int4] columns that only grow by one are left unbounded.

    ** Not modelled

    - The web interface (internal/web but for the ways in, its templates, the
      charts), the JSON and OpenAPI surfaces, documentation, themes and
      translations: presentation over the operations modelled here.  The
      catalogue of translations is the parameter [Catalogue].
    - Storage and queries of logs, traces, metrics and profiles, their
      evaluators and service level objectives, the files of exports, purges,
      the agent: they move data between protocols and ClickHouse or compare
      the aggregates it computes.  ClickHouse is the parameter [judge] of
      Batcher.
    - The handlers of OTLP, logs, pprof and deployments; CORS and headers.
    - Migrations; the cookie that carries a session, its signature, and the
      HTTP clients of the OAuth providers.
    - slog lines, self-metrics other than the counters of Handler, and
      WaitGroup bookkeeping, which no decision reads.  Cancellation of a
      context is a crash or a fault.
    - Purges of escalation rows while an incident is open: the retention of
      the source excludes them.
    - Rate limiters, whose tokens are binary64 values: parameters of Handler.
    - Third-party code and code of packages left out is a parameter with its
      documented laws: NaCl's box, argon2, the zone database, the drivers and
      the folding of [citext], the decompressors, the parsers of [net/mail],
      [net/url], UUIDs, RFC 3339 and profiles, the conversion of a number too
      large for [int64], the network checks and senders. *)
From stdpp Require Import base tactics list gmap strings sorting.
From Stdlib Require Import ZArith Lia OrdersEx.

#[global] Set Default Goal Selector "!".

Create HintDb gotcha.

Declare Scope go_scope.
Delimit Scope go_scope with go.

(** ** Errors

    A Go function returning [(T, error)] becomes a [result]; the error is a
    value of the component's own error type. *)
Inductive result (E A : Type) : Type :=
| Ok (a : A)
| Err (e : E).
Arguments Ok {E A} a.
Arguments Err {E A} e.

Definition is_ok {E A} (r : result E A) : bool :=
  match r with Ok _ => true | Err _ => false end.

(** ** SQL statements and their failures

    The services keep their state in PostgreSQL and every statement of the
    source is one atomic step on that state.  A statement may also fail: the
    error comes back either before the statement took effect ([FLost]) or
    after it did, when only the reply was lost ([FLostReply]).  A run is
    driven by the list of the faults its statements meet in order; when the
    list is exhausted no further statement fails.  All theorems about
    handlers quantify over that list. *)
Inductive fault := FNone | FLost | FLostReply.

Record sys (D : Type) := Sys { db : D; faults : list fault }.
Arguments Sys {D} _ _.
Arguments db {D} _.
Arguments faults {D} _.

(** The state monad handlers run in. *)
Definition M (D A : Type) : Type := sys D -> A * sys D.

#[global] Instance M_ret {D} : MRet (M D) := fun A a s => (a, s).
#[global] Instance M_bind {D} : MBind (M D) :=
  fun A B k m s => let '(a, s') := m s in k a s'.

(** A Go call whose error is handled at once: [h] is the error branch. *)
Notation "'try:' x ← c 'orelse' h ; k" :=
  (mbind (fun r => match r with Ok x => k | Err _ => h end) c)
  (at level 20, x name, c at level 100, h at level 100, k at level 200, only parsing) : go_scope.
(** The same when the branch needs the error value. *)
Notation "'tryE:' x ← c 'catch' e => h ; k" :=
  (mbind (fun r => match r with Ok x => k | Err e => h end) c)
  (at level 20, x name, e name, c at level 100, h at level 100, k at level 200, only parsing) : go_scope.

(** One SQL statement: a state transformer returning a value, subject to a
    fault. *)
Definition sql {D E A} (e : E) (q : D -> A * D) : M D (result E A) :=
  fun s =>
    match faults s with
    | FLost :: fs => (Err e, Sys (db s) fs)
    | FLostReply :: fs => (Err e, Sys (snd (q (db s))) fs)
    | FNone :: fs => let '(a, d) := q (db s) in (Ok a, Sys d fs)
    | [] => let '(a, d) := q (db s) in (Ok a, Sys d [])
    end.

(** A query does not change the state. *)
Definition query {D E A} (e : E) (q : D -> A) : M D (result E A) :=
  sql e (fun d => (q d, d)).

(** [if err := c; err != nil { return err }] *)
Notation "'chk:' c ; k" :=
  (mbind (fun r => match r with Ok _ => k | Err e => mret (Err e) end) c)
  (at level 20, c at level 100, k at level 200, only parsing) : go_scope.

(** A transaction: [BEGIN], the body, then [COMMIT].  An error of the body
    rolls the state back; the commit is itself a statement, and when only its
    reply is lost the effects stay although the caller sees an error. *)
Definition transaction {D E A} (e : E) (body : M D (result E A)) : M D (result E A) :=
  fun s =>
    match sql e (fun d => (tt, d)) s with
    | (Err e, s1) => (Err e, s1)
    | (Ok _, s1) =>
        match body s1 with
        | (Err e', s2) => (Err e', Sys (db s1) (faults s2))
        | (Ok a, s2) =>
            match faults s2 with
            | FLost :: fs => (Err e, Sys (db s1) fs)
            | FLostReply :: fs => (Err e, Sys (db s2) fs)
            | FNone :: fs => (Ok a, Sys (db s2) fs)
            | [] => (Ok a, s2)
            end
        end
    end.

(** In-process state (a field of a Go struct, read and written under its
    mutex) lives in the same state; reading and writing it cannot fail. *)
Definition gets {D A} (f : D -> A) : M D A := fun s => (f (db s), s).
Definition modify {D} (f : D -> D) : M D () := fun s => (tt, Sys (f (db s)) (faults s)).

Definition run {D A} (m : M D A) (d : D) (fs : list fault) : A * sys D :=
  m (Sys d fs).

(** Reduce the monadic plumbing of a handler. *)
Ltac unfold_monad := unfold run, mbind, M_bind, mret, M_ret, query, sql, gets, modify in *.

(** ** Time

    [time.Time] and [time.Duration] are counts of nanoseconds. *)
Definition second : Z := 1000000000.
Definition minute : Z := (60 * second)%Z.
Definition hour : Z := (60 * minute)%Z.

(** Two's complement wrap-around of an [int64]. *)
Definition wrap64 (z : Z) : Z := ((z + 2 ^ 63) mod 2 ^ 64 - 2 ^ 63)%Z.

Lemma wrap64_range z : (- 2 ^ 63 <= wrap64 z < 2 ^ 63)%Z.
Proof. unfold wrap64. pose proof (Z.mod_pos_bound (z + 2 ^ 63) (2 ^ 64) ltac:(lia)). lia. Qed.

Lemma wrap64_id z : (- 2 ^ 63 <= z < 2 ^ 63)%Z -> wrap64 z = z.
Proof. intros Hz. unfold wrap64. rewrite Z.mod_small; lia. Qed.

(** ** Small generic definitions *)

(** [x == *p] for a pointer [p] that may be nil. *)
Definition ptr_is `{EqDecision A} (p : option A) (x : A) : bool :=
  match p with Some y => bool_decide (y = x) | None => false end.

Definition is_nil {A} (p : option A) : bool := negb (bool_decide (is_Some p)).

Lemma ptr_is_true `{EqDecision A} (p : option A) x : ptr_is p x = true <-> p = Some x.
Proof. destruct p as [y|]; simpl; [rewrite bool_decide_eq_true|]; naive_solver. Qed.

(** ** Transitive closure *)
Section closure.
Context {A : Type} (R : relation A).

Lemma tc_step_rtc x y z : R x y -> rtc R y z -> tc R x z.
Proof.
  intros Hxy Hyz. revert x Hxy. induction Hyz; intros; [by apply tc_once|].
  eapply tc_l; eauto.
Qed.

Lemma tc_inv_first x z : tc R x z -> exists y, R x y /\ rtc R y z.
Proof. induction 1 as [x y H|x y z H ? _]; exists y; [|eauto using tc_rtc]; by split; [|constructor]. Qed.

(** A set that holds [x] and is closed under [R] holds all that [x] reaches. *)
Lemma rtc_closed (P : A -> Prop) x y :
  (forall a b, P a -> R a b -> P b) -> P x -> rtc R x y -> P y.
Proof. intros Hc Hx Hr. induction Hr; eauto. Qed.
End closure.

Lemma list_to_set_size_le `{Countable A} (l : list A) :
  size (list_to_set l : gset A) <= length l.
Proof.
  induction l as [|x l IH]; [done|].
  rewrite list_to_set_cons, size_union_alt, size_singleton. simpl.
  assert (size (list_to_set l ∖ {[x]} : gset A) <= size (list_to_set l : gset A)); [|lia].
  apply subseteq_size. set_solver.
Qed.

Lemma size_difference_insert `{Countable A} (U V : gset A) x :
  x ∈ U -> x ∉ V -> S (size (U ∖ ({[x]} ∪ V))) <= size (U ∖ V).
Proof.
  intros HU HV.
  assert (size (U ∖ ({[x]} ∪ V)) < size (U ∖ V)); [|lia].
  apply subset_size. split; [set_solver|].
  intros Hsub. specialize (Hsub x). set_solver.
Qed.

(** ** Orders used by [sort.Slice] and by comparisons of Go strings *)

(** [a < b] on Go strings: bytewise lexicographic order. *)
Definition go_string_lt (a b : string) : bool := String.ltb a b.

Lemma go_string_lt_spec a b : go_string_lt a b = true <-> String_as_OT.lt a b.
Proof.
  unfold go_string_lt, String.ltb, String_as_OT.lt.
  change String.compare with String_as_OT.compare.
  destruct (String_as_OT.compare a b); naive_solver.
Qed.

Lemma go_string_lt_trans a b c :
  go_string_lt a b = true -> go_string_lt b c = true -> go_string_lt a c = true.
Proof. rewrite !go_string_lt_spec. apply String_as_OT.lt_strorder. Qed.

Lemma go_string_lt_irrefl a : go_string_lt a a = false.
Proof.
  apply not_true_is_false. rewrite go_string_lt_spec.
  apply (@irreflexivity _ _ (StrictOrder_Irreflexive (StrictOrder := String_as_OT.lt_strorder))).
Qed.

Lemma go_string_lt_total a b :
  go_string_lt a b = true \/ a = b \/ go_string_lt b a = true.
Proof.
  rewrite !go_string_lt_spec. destruct (String_as_OT.compare_spec a b) as [H|H|H]; auto.
Qed.

(** ** Occurrences *)
Definition times `{EqDecision A} (x : A) (l : list A) : nat :=
  length (List.filter (fun y => bool_decide (y = x)) l).

Lemma times_app `{EqDecision A} (x : A) l l' : times x (l ++ l') = times x l + times x l'.
Proof. unfold times. by rewrite List.filter_app, length_app. Qed.

Lemma times_cons `{EqDecision A} (x y : A) l : times x (y :: l) = (if decide (y = x) then 1 else 0) + times x l.
Proof. unfold times. simpl. destruct (decide (y = x)); [by rewrite bool_decide_true|by rewrite bool_decide_false]. Qed.

Lemma times_pos `{EqDecision A} (x : A) l : x ∈ l <-> 0 < times x l.
Proof.
  induction l as [|y l IH]; [rewrite elem_of_nil; unfold times; simpl; lia|].
  rewrite elem_of_cons, IH, times_cons. destruct (decide (y = x)) as [->|]; [split; [lia|by left]|].
  split; [intros [->|]; [done|lia]|right; lia].
Qed.

(** ** Lengths of list comprehensions *)
Lemma length_omap_le {A B} (f : A -> option B) (l : list A) : (length (omap f l) <= length l)%nat.
Proof. induction l as [|x l IH]; csimpl; [lia|]. destruct (f x); csimpl; lia. Qed.

Lemma length_filter_le {A} (f : A -> bool) (l : list A) : (length (List.filter f l) <= length l)%nat.
Proof. induction l as [|x l IH]; csimpl; [lia|]. destruct (f x); csimpl; lia. Qed.
#[export] Hint Resolve length_omap_le length_filter_le : gotcha.

Lemma in_reverse_inv {A} (x : A) (l : list A) : x ∈ reverse l -> x ∈ l.
Proof. by rewrite elem_of_reverse. Qed.

(** Rewriting under list comprehensions with permutations. *)
#[global] Instance filter_perm {A} (f : A -> bool) : Proper (Permutation ==> Permutation) (List.filter f).
Proof.
  induction 1 as [|x l l' _ IH|x y l|l l' l'' _ IH _ IH']; simpl;
    [done|by destruct (f x); rewrite IH|by destruct (f x), (f y); try done; apply perm_swap|by rewrite IH].
Qed.
#[global] Instance map_perm {A B} (f : A -> B) : Proper (Permutation ==> Permutation) (map f).
Proof. intros l l'. apply Permutation_map. Qed.

(** ** Inverting successful runs of handlers *)
Section ok_inversion.
Context {D E : Type}.
Implicit Types s : sys D.

Lemma try_ok {A B} (c : M D (result E A)) (k : A -> M D (result E B)) s b s' :
  mbind (fun r => match r with Ok x => k x | Err e => mret (Err e) end) c s = (Ok b, s') ->
  exists a s1, c s = (Ok a, s1) /\ k a s1 = (Ok b, s').
Proof. unfold mbind, M_bind. destruct (c s) as [[a|e] s1]; [eauto|by intros [=]]. Qed.

Lemma bind_inv {A B} (c : M D A) (k : A -> M D B) s b s' :
  mbind k c s = (b, s') -> exists a s1, c s = (a, s1) /\ k a s1 = (b, s').
Proof. unfold mbind, M_bind. destruct (c s) as [a s1]; eauto. Qed.

Lemma mret_ok {A} (r r' : A) s s' : (mret r : M D A) s = (r', s') -> r = r' /\ s' = s.
Proof. by intros [= -> ->]. Qed.

Lemma sql_ok {A} (e : E) (q : D -> A * D) s a s' :
  sql e q s = (Ok a, s') -> q (db s) = (a, db s').
Proof. unfold sql. destruct (faults s) as [|[] fs], (q (db s)); by intros [= -> <-]. Qed.

Lemma query_ok {A} (e : E) (q : D -> A) s a s' :
  query e q s = (Ok a, s') -> a = q (db s) /\ db s' = db s.
Proof. intros H%sql_ok. by simplify_eq. Qed.

(** A read-only statement never changes the state, whatever the fault. *)
Lemma query_db {A} (e : E) (q : D -> A) s : db (query e q s).2 = db s.
Proof. unfold query, sql. by destruct (faults s) as [|[] ?]. Qed.

(** A transaction leaves the state as it was or applies its whole body. *)
Lemma transaction_cases {A} (e : E) (body : M D (result E A)) s r s' :
  transaction e body s = (r, s') ->
  db s' = db s \/
  exists s1 a s2, db s1 = db s /\ body s1 = (Ok a, s2) /\ db s' = db s2.
Proof.
  unfold transaction. intros H.
  destruct (sql e (fun d => (tt, d)) s) as [[[]|e0] s1] eqn:Hbegin.
  - apply sql_ok in Hbegin. destruct (body s1) as [[a|e1] s2] eqn:Hb.
    + destruct (faults s2) as [|[] fs]; injection H as <- <-; simpl;
        [right|right|left; congruence|right]; exists s1, a, s2; split_and!; congruence.
    + simplify_eq. left. simpl. congruence.
  - left. unfold sql in Hbegin. destruct (faults s) as [|[] ?]; by simplify_eq.
Qed.

Lemma transaction_ok {A} (e : E) (body : M D (result E A)) s a s' :
  transaction e body s = (Ok a, s') ->
  exists s1 s2, db s1 = db s /\ body s1 = (Ok a, s2) /\ db s' = db s2.
Proof.
  unfold transaction. intros H.
  destruct (sql e (fun d => (tt, d)) s) as [[[]|e0] s1] eqn:Hbegin; [|done].
  apply sql_ok in Hbegin. destruct (body s1) as [[b|e1] s2] eqn:Hb; [|done].
  exists s1, s2. destruct (faults s2) as [|[] fs]; simplify_eq/=; split_and!; congruence.
Qed.
End ok_inversion.

Lemma StronglySorted_lookup_lt {A} (R : relation A) (l : list A) i j x y :
  StronglySorted R l -> l !! i = Some x -> l !! j = Some y -> i < j -> R x y.
Proof.
  intros Hs. revert i j. induction Hs as [|z l Hs IH Hall]; intros [|i] [|j] Hx Hy Hij; simplify_eq/=; try lia.
  - rewrite Forall_forall in Hall. by eapply Hall, list_elem_of_lookup_2.
  - eapply IH; [done|done|lia].
Qed.

(** A list sorted by distinct integer keys is determined by its elements. *)
Lemma sorted_by_key_unique {A} (f : A -> Z) (l1 l2 : list A) :
  StronglySorted (fun a b => (f a <= f b)%Z) l1 -> StronglySorted (fun a b => (f a <= f b)%Z) l2 ->
  NoDup (map f l1) -> l1 ≡ₚ l2 -> l1 = l2.
Proof.
  intros H1 H2 Hnd Hp. eapply StronglySorted_unique_strong; [|exact H1|exact H2|exact Hp].
  intros x y Hx Hy Hxy Hyx. rewrite <- Hp in Hy. simpl in Hxy, Hyx. assert (f x = f y) as Hf by lia. clear -Hnd Hx Hy Hf.
  apply NoDup_ListNoDup in Hnd. apply list_elem_of_In in Hx, Hy.
  induction l1 as [|z l IH]; [done|]. simpl in *. inversion Hnd; subst.
  destruct Hx as [->|Hx], Hy as [->|Hy]; [done| | |auto]; exfalso.
  - apply H1. rewrite Hf. by apply in_map.
  - apply H1. rewrite <- Hf. by apply in_map.
Qed.

(** ** Sums over finite maps *)
Section map_sum.
Context `{Countable K} {A : Type} (f : A -> Z).
Local Open Scope Z_scope.

Definition map_sum (m : gmap K A) : Z := map_fold (fun _ a n => f a + n) 0 m.

Lemma map_sum_empty : map_sum ∅ = 0.
Proof. apply map_fold_empty. Qed.

Lemma map_sum_insert k a m : m !! k = None -> map_sum (<[k := a]> m) = f a + map_sum m.
Proof. intros Hk. unfold map_sum. rewrite map_fold_insert_L; [done|lia|done]. Qed.

Lemma map_sum_delete k a m : m !! k = Some a -> map_sum (delete k m) = map_sum m - f a.
Proof.
  intros Hk. rewrite <- (insert_id m k a Hk) at 2. rewrite <- insert_delete_eq, map_sum_insert by apply lookup_delete_eq. lia.
Qed.

Lemma map_sum_update k a b m : m !! k = Some a -> map_sum (<[k := b]> m) = map_sum m - f a + f b.
Proof.
  intros Hk. rewrite <- insert_delete_eq, map_sum_insert by apply lookup_delete_eq. rewrite (map_sum_delete k a) by done. lia.
Qed.

Lemma map_sum_nonneg m : (forall a, 0 <= f a) -> 0 <= map_sum m.
Proof. intros Hf. apply (map_fold_weak_ind (fun n _ => 0 <= n)); [done|]. intros k a m' n _ Hn. specialize (Hf a). lia. Qed.
End map_sum.
Arguments map_sum : simpl never.

(** Turn a successful run [H : m s = (Ok b, s')] into the facts of its calls. *)
Ltac go_ok H :=
  lazymatch type of H with
  | mbind (fun r => match r with Ok _ => _ | Err e => mret (Err e) end) _ _ = (Ok _, _) =>
      let H1 := fresh H in
      apply try_ok in H as (? & ? & H1 & H); go_ok H1; go_ok H
  | mbind _ _ _ = _ =>
      let H1 := fresh H in
      apply bind_inv in H as (? & ? & H1 & H); go_ok H1; go_ok H
  | mret _ _ = _ => apply mret_ok in H as [? ?]; try discriminate; simplify_eq
  | query _ _ _ = (Ok _, _) => apply query_ok in H as [? ?]; simplify_eq
  | _ => idtac
  end.
