(* ===== verification/GoString.v ===== *)
(** Strings of Go: bytes, runes, and what the source uses of [strings] and
    [unicode/utf8].

    A Go string is the [string] of its bytes; algorithms that walk over it
    work on its [chars].  Tables of Unicode are the parameter [Unicode]. *)
From stdpp Require Import base tactics list sets strings.
From Stdlib Require Import ZArith Lia Ascii.
From S2P Require Import Prelude.

Open Scope Z_scope.

(** ** Bytes *)

Definition byte_of (c : ascii) : Z := Z.of_N (N_of_ascii c).
Definition char_of (b : Z) : ascii := ascii_of_N (Z.to_N b).

Abbreviation bytes := (list Z).
Abbreviation chars := (list ascii).

Definition to_bytes (s : string) : bytes := map byte_of (String.list_ascii_of_string s).
Definition of_bytes (l : bytes) : string := String.string_of_list_ascii (map char_of l).
Definition chars_of (s : string) : chars := String.list_ascii_of_string s.
Definition text (l : chars) : string := String.string_of_list_ascii l.

Definition is_digit (c : ascii) : bool := (48 <=? byte_of c) && (byte_of c <=? 57).
Definition is_hex (c : ascii) : bool := is_digit c || (97 <=? byte_of c) && (byte_of c <=? 102).
Definition is_upper (c : ascii) : bool := (65 <=? byte_of c) && (byte_of c <=? 90).
Definition is_lower (c : ascii) : bool := (97 <=? byte_of c) && (byte_of c <=? 122).
Definition is_ascii (c : ascii) : bool := byte_of c <? 128.

Definition lower_char (c : ascii) : ascii := if is_upper c then char_of (byte_of c + 32) else c.
Definition upper_char (c : ascii) : ascii := if is_lower c then char_of (byte_of c - 32) else c.

(** ** Searching and splitting *)

Fixpoint CutPrefix (p s : string) : option string :=
  match p, s with
  | EmptyString, _ => Some s
  | String a p, String b s => if Ascii.eqb a b then CutPrefix p s else None
  | _, _ => None
  end.

Definition HasPrefix (s p : string) : bool := negb (is_nil (CutPrefix p s)).

(** The rest of [l] after the prefix [p]. *)
Fixpoint strip (p l : chars) : option chars :=
  match p, l with
  | [], _ => Some l
  | a :: p, b :: l => if Ascii.eqb a b then strip p l else None
  | _, _ => None
  end.

Fixpoint index (c : ascii) (l : chars) : option nat :=
  match l with
  | [] => None
  | x :: l => if Ascii.eqb x c then Some O else match index c l with Some n => Some (S n) | None => None end
  end.

Definition last_index (c : ascii) (l : chars) : option nat :=
  match index c (rev l) with Some n => Some (length l - 1 - n)%nat | None => None end.

(** [strings.Index] *)
Fixpoint index_sub (p l : chars) : option nat :=
  match strip p l with
  | Some _ => Some O
  | None => match l with [] => None | _ :: l => match index_sub p l with Some n => Some (S n) | None => None end end
  end.

Definition contains (p l : chars) : bool := negb (is_nil (index_sub p l)).

(** [strings.Split] at a single byte. *)
Fixpoint split_on (c : ascii) (l : chars) : list chars :=
  match l with
  | [] => [[]]
  | x :: l => if Ascii.eqb x c then [] :: split_on c l
              else match split_on c l with f :: fs => (x :: f) :: fs | [] => [[x]] end
  end.

(** [strings.Join] *)
Fixpoint join (sep : chars) (ps : list chars) : chars :=
  match ps with
  | [] => []
  | [p] => p
  | p :: ps => p ++ sep ++ join sep ps
  end.

(** ** Runes *)

Definition RuneError : Z := 65533.

Definition continuation (lo hi : Z) (c : ascii) : bool := (lo <=? byte_of c) && (byte_of c <=? hi).
Definition low6 (c : ascii) : Z := Z.land (byte_of c) 63.

(** [utf8.DecodeRune]: the first rune and the bytes it takes. *)
Definition decode_rune (l : chars) : Z * nat :=
  match l with
  | [] => (RuneError, O)
  | a :: r =>
      let x := byte_of a in
      if x <? 128 then (x, 1%nat)
      else if (x <? 194) || (244 <? x) then (RuneError, 1%nat)
      else match r with
           | [] => (RuneError, 1%nat)
           | b :: r =>
               let lo := if x =? 224 then 160 else if x =? 240 then 144 else 128 in
               let hi := if x =? 237 then 159 else if x =? 244 then 143 else 191 in
               if negb (continuation lo hi b) then (RuneError, 1%nat)
               else if x <? 224 then (64 * Z.land x 31 + low6 b, 2%nat)
               else match r with
                    | [] => (RuneError, 1%nat)
                    | c :: r =>
                        if negb (continuation 128 191 c) then (RuneError, 1%nat)
                        else if x <? 240 then (4096 * Z.land x 15 + 64 * low6 b + low6 c, 3%nat)
                        else match r with
                             | [] => (RuneError, 1%nat)
                             | d :: _ =>
                                 if negb (continuation 128 191 d) then (RuneError, 1%nat)
                                 else (262144 * Z.land x 7 + 4096 * low6 b + 64 * low6 c + low6 d, 4%nat)
                             end
                    end
           end
  end.

(** [utf8.AppendRune] *)
Definition encode_rune (r : Z) : chars :=
  let tail n := char_of (Z.lor 128 (Z.land (Z.shiftr r n) 63)) in
  if (0 <=? r) && (r <? 128) then [char_of r]
  else if (0 <=? r) && (r <? 2048) then [char_of (Z.lor 192 (Z.shiftr r 6)); tail 0]
  else if (r <? 0) || (1114111 <? r) || ((55296 <=? r) && (r <=? 57343)) then map char_of [239; 191; 189]
  else if r <? 65536 then [char_of (Z.lor 224 (Z.shiftr r 12)); tail 6; tail 0]
  else [char_of (Z.lor 240 (Z.shiftr r 18)); tail 12; tail 6; tail 0].

(** The runes of [l], each with its bytes; [skip] bytes belong to the rune
    before. *)
Fixpoint rune_spans (skip : nat) (l : chars) : list (Z * chars) :=
  match l with
  | [] => []
  | _ :: r =>
      match skip with
      | S skip => rune_spans skip r
      | O => let '(x, n) := decode_rune l in (x, take n l) :: rune_spans (n - 1) r
      end
  end.

(** [[]rune(s)], and back. *)
Definition runes (l : chars) : list Z := map fst (rune_spans 0 l).
Definition of_runes (rs : list Z) : chars := flat_map encode_rune rs.

Definition RuneCount (l : chars) : nat := length (rune_spans 0 l).

Class Unicode := {
  rune_lower : Z -> Z;
  rune_upper : Z -> Z;
  letter_or_number : Z -> bool }.

Section unicode.
Context `{Unicode}.

(** [strings.ToLower] and [strings.ToUpper]. *)
Definition to_lower (l : chars) : chars :=
  if forallb is_ascii l then map lower_char l else of_runes (map rune_lower (runes l)).
Definition to_upper (l : chars) : chars :=
  if forallb is_ascii l then map upper_char l else of_runes (map rune_upper (runes l)).

Definition ToLower (s : string) : string := text (to_lower (chars_of s)).
Definition ToUpper (s : string) : string := text (to_upper (chars_of s)).
End unicode.

(** ** White space *)

(** Encodings of the runes [unicode.IsSpace] accepts. *)
Definition space_runes : list string :=
  map of_bytes ([[9]; [10]; [11]; [12]; [13]; [32]; [194; 133]; [194; 160]; [225; 154; 128]] ++
    map (fun b => [226; 128; b]) [128; 129; 130; 131; 132; 133; 134; 135; 136; 137; 138; 168; 169; 175] ++
    [[226; 129; 159]; [227; 128; 128]]).

Fixpoint trim_prefixes (fuel : nat) (ps : list string) (s : string) : string :=
  match fuel with
  | O => s
  | S fuel => match head (omap (fun p => CutPrefix p s) ps) with Some r => trim_prefixes fuel ps r | None => s end
  end.

Definition string_rev (s : string) : string := String.string_of_list_ascii (rev (String.list_ascii_of_string s)).

Definition TrimSpace (s : string) : string :=
  let l := trim_prefixes (String.length s) space_runes s in
  string_rev (trim_prefixes (String.length l) (map string_rev space_runes) (string_rev l)).

Definition trim_space (l : chars) : chars := chars_of (TrimSpace (text l)).

(** The bytes of the space [l] begins with. *)
Definition space_width (l : chars) : option nat :=
  head (omap (fun p => if is_nil (strip (chars_of p) l) then None else Some (String.length p)) space_runes).

(** [strings.Fields] *)
Fixpoint fields (skip : nat) (cur l : chars) : list chars :=
  let close := match cur with [] => [] | _ => [rev cur] end in
  match l with
  | [] => close
  | c :: r =>
      match skip with
      | S skip => fields skip [] r
      | O => match space_width l with
             | Some n => close ++ fields (n - 1) [] r
             | None => fields 0 (c :: cur) r
             end
      end
  end.

Definition Fields (l : chars) : list chars := fields 0 [] l.

Example Fields_ex : map text (Fields (chars_of "  GET  user:42 ")) = ["GET"; "user:42"].
Proof. vm_compute. reflexivity. Qed.
Example runes_ex : runes (map char_of [208; 152; 255; 226; 130; 172]) = [1048; 65533; 8364].
Proof. vm_compute. reflexivity. Qed.
Example encode_ex : of_runes [65; 1048; 8364; 128512] = map char_of [65; 208; 152; 226; 130; 172; 240; 159; 152; 128].
Proof. vm_compute. reflexivity. Qed.

(** ** Regular expressions *)

(** [\w], and whether a word begins here: [\b] in front of a word character. *)
Definition is_word (c : ascii) : bool := is_digit c || is_upper c || is_lower c || (byte_of c =? 95).
Definition at_word_start (prev : option ascii) : bool := match prev with Some c => negb (is_word c) | None => true end.
(** [\b] behind a word character. *)
Definition at_word_end (l : chars) : bool := at_word_start (head l).

(** The bytes at the front of [l] that satisfy [p]. *)
Fixpoint span (p : ascii -> bool) (l : chars) : nat :=
  match l with c :: l => if p c then S (span p l) else O | [] => O end.

(** [ReplaceAllString]: [m] finds the match that begins here -- its length, at
    least one, and what replaces it -- knowing the character before. *)
Fixpoint replace_all (m : option ascii -> chars -> option (nat * chars)) (skip : nat) (prev : option ascii) (l : chars) : chars :=
  match l with
  | [] => []
  | c :: r =>
      match skip with
      | S skip => replace_all m skip (Some c) r
      | O => match m prev l with
             | Some (n, repl) => repl ++ replace_all m (n - 1) (Some c) r
             | None => c :: replace_all m 0 (Some c) r
             end
      end
  end.

Lemma chars_text l : chars_of (text l) = l.
Proof. apply String.list_ascii_of_string_of_list_ascii. Qed.

(** ** Splitting and joining *)

Lemma split_on_free c l p : p ∈ split_on c l -> c ∉ p.
Proof.
  revert p. induction l as [|x l IH]; intros p; simpl; [intros ->%list_elem_of_singleton; by apply not_elem_of_nil|].
  destruct (Ascii.eqb_spec x c) as [->|Hne].
  - intros [->|Hp]%elem_of_cons; [by apply not_elem_of_nil|by apply IH].
  - destruct (split_on c l) as [|f fs]; [intros ->%list_elem_of_singleton; set_solver|].
    intros [->|Hp]%elem_of_cons; [|apply IH; by right]. specialize (IH f ltac:(by left)). set_solver.
Qed.

Lemma split_on_none c l : c ∉ l -> split_on c l = [l].
Proof.
  induction l as [|x l IH]; [done|]. intros Hl. simpl. destruct (Ascii.eqb_spec x c); [set_solver|]. by rewrite IH by set_solver.
Qed.

Lemma split_on_app c p l : c ∉ p -> split_on c (p ++ c :: l) = p :: split_on c l.
Proof.
  induction p as [|x p IH]; intros Hp; simpl; [by rewrite Ascii.eqb_refl|].
  destruct (Ascii.eqb_spec x c); [set_solver|]. by rewrite IH by set_solver.
Qed.

Lemma split_join c ps : ps <> [] -> Forall (fun p => c ∉ p) ps -> split_on c (join [c] ps) = ps.
Proof.
  intros Hne Hall. induction Hall as [|p ps Hp Hall IH]; [done|]. destruct ps as [|p' ps]; [by apply split_on_none|].
  assert (join [c] (p :: p' :: ps) = p ++ c :: join [c] (p' :: ps)) as -> by done. rewrite split_on_app by done. by rewrite IH.
Qed.

Lemma join_single c p : join c [p] = p.
Proof. done. Qed.
