(* ===== verification/Runes.v ===== *)
(** UTF-8: what is written rune by rune is read rune by rune, and bytes of
    value zero come from runes of value zero. *)
From stdpp Require Import base tactics list strings.
From Stdlib Require Import ZArith Lia Ascii.
From S2P Require Import Prelude.
From S2P Require Import GoString.

Open Scope Z_scope.

(** ** Bytes of a rune *)

Lemma byte_range c : 0 <= byte_of c < 256.
Proof. unfold byte_of. pose proof (N_ascii_bounded c). lia. Qed.

Lemma byte_char b : 0 <= b < 256 -> byte_of (char_of b) = b.
Proof. intros Hb. unfold byte_of, char_of. rewrite N_ascii_embedding by lia. lia. Qed.

(** A fact about small numbers is checked on all of them. *)
Lemma all_below (f : Z -> bool) n : forallb f (seqZ 0 n) = true -> forall y, 0 <= y < n -> f y = true.
Proof. intros Hall y Hy. rewrite forallb_forall in Hall. apply Hall, list_elem_of_In, elem_of_seqZ. lia. Qed.

Definition low_bits (r n : Z) : Z := Z.land (Z.shiftr r n) 63.

Lemma low_bits_range r n : 0 <= low_bits r n < 64.
Proof. unfold low_bits. change 63 with (Z.ones 6). rewrite Z.land_ones by lia. apply Z.mod_pos_bound. lia. Qed.

Lemma low_bits_div r n : 0 <= n -> low_bits r n = (r / 2 ^ n) mod 64.
Proof. intros Hn. unfold low_bits. change 63 with (Z.ones 6). by rewrite Z.land_ones, Z.shiftr_div_pow2 by lia. Qed.

Lemma tail_byte y : 0 <= y < 64 -> byte_of (char_of (Z.lor 128 y)) = 128 + y.
Proof.
  intros Hy. apply Z.eqb_eq. revert y Hy. apply (all_below (fun y => byte_of (char_of (Z.lor 128 y)) =? 128 + y)). vm_compute. reflexivity.
Qed.
Lemma lead2_byte y : 0 <= y < 32 -> byte_of (char_of (Z.lor 192 y)) = 192 + y.
Proof.
  intros Hy. apply Z.eqb_eq. revert y Hy. apply (all_below (fun y => byte_of (char_of (Z.lor 192 y)) =? 192 + y)). vm_compute. reflexivity.
Qed.
Lemma lead3_byte y : 0 <= y < 16 -> byte_of (char_of (Z.lor 224 y)) = 224 + y.
Proof.
  intros Hy. apply Z.eqb_eq. revert y Hy. apply (all_below (fun y => byte_of (char_of (Z.lor 224 y)) =? 224 + y)). vm_compute. reflexivity.
Qed.
Lemma lead4_byte y : 0 <= y < 8 -> byte_of (char_of (Z.lor 240 y)) = 240 + y.
Proof.
  intros Hy. apply Z.eqb_eq. revert y Hy. apply (all_below (fun y => byte_of (char_of (Z.lor 240 y)) =? 240 + y)). vm_compute. reflexivity.
Qed.

(** How a rune is written. *)
Inductive encoded (r : Z) : list Z -> Prop :=
| enc1 : 0 <= r < 128 -> encoded r [r]
| enc2 a b : 2 <= a < 32 -> 0 <= b < 64 -> encoded r [192 + a; 128 + b]
| enc3 a b c : 0 <= a < 16 -> 0 <= b < 64 -> 0 <= c < 64 -> (a = 0 -> 32 <= b) -> (a = 13 -> b < 32) ->
    encoded r [224 + a; 128 + b; 128 + c]
| enc4 a b c d : 0 <= a <= 4 -> 0 <= b < 64 -> 0 <= c < 64 -> 0 <= d < 64 -> (a = 0 -> 16 <= b) -> (a = 4 -> b < 16) ->
    encoded r [240 + a; 128 + b; 128 + c; 128 + d].

Lemma encode_rune_bytes r : exists bs, map byte_of (encode_rune r) = bs /\ encoded r bs.
Proof.
  assert (forall n, byte_of (char_of (Z.lor 128 (low_bits r n))) = 128 + low_bits r n) as Ht
    by (intros n; apply tail_byte, low_bits_range).
  unfold encode_rune. cbv zeta. fold (low_bits r 0) (low_bits r 6) (low_bits r 12).
  pose proof (low_bits_range r 0). pose proof (low_bits_range r 6) as H6. pose proof (low_bits_range r 12) as H12.
  destruct ((0 <=? r) && (r <? 128)) eqn:H1.
  { rewrite andb_true_iff, Z.leb_le, Z.ltb_lt in H1. eexists. split; [done|]. cbn. rewrite byte_char by lia. by constructor. }
  destruct ((0 <=? r) && (r <? 2048)) eqn:H2.
  { rewrite andb_true_iff, Z.leb_le, Z.ltb_lt in H2. rewrite andb_false_iff, Z.leb_gt, Z.ltb_ge in H1.
    assert (2 <= Z.shiftr r 6 < 32) as Hs
      by (rewrite Z.shiftr_div_pow2 by lia; split; [apply Z.div_le_lower_bound; lia|apply Z.div_lt_upper_bound; lia]).
    eexists. split; [done|]. cbn [map]. rewrite Ht, lead2_byte by lia. by apply enc2. }
  destruct (_ || _ || _) eqn:H3.
  { eexists. split; [done|]. change (map byte_of (map char_of [239; 191; 189])) with [224 + 15; 128 + 63; 128 + 61]. apply enc3; lia. }
  rewrite !orb_false_iff, andb_false_iff, !Z.ltb_ge, Z.leb_gt, Z.leb_gt in H3. destruct H3 as [[H0 Hmax] Hsur].
  rewrite andb_false_iff, Z.leb_gt, Z.ltb_ge in H2. assert (2048 <= r) as Hr by lia.
  rewrite low_bits_div in H6, H12 by lia.
  destruct (Z.ltb_spec r 65536) as [Hlt|Hge].
  - assert (Z.shiftr r 12 = r / 4096) as Hd by (by rewrite Z.shiftr_div_pow2 by lia).
    assert (0 <= r / 4096 < 16) by (split; [by apply Z.div_pos; lia|apply Z.div_lt_upper_bound; lia]).
    eexists. split; [done|]. cbn [map]. rewrite !Ht, Hd, lead3_byte by lia.
    apply enc3; [done|apply low_bits_range|done|..]; rewrite low_bits_div by lia; change (2 ^ 6) with 64; intros Ha;
      pose proof (Z.div_mod r 4096 ltac:(lia)); pose proof (Z.mod_pos_bound r 4096 ltac:(lia)); rewrite Ha in *;
      pose proof (Z.div_mod (r / 64) 64 ltac:(lia)) as Hdm; rewrite Z.div_div in Hdm by lia; change (64 * 64) with 4096 in Hdm; rewrite Ha in Hdm;
      pose proof (Z.div_mod r 64 ltac:(lia)); pose proof (Z.mod_pos_bound r 64 ltac:(lia)); lia.
  - assert (Z.shiftr r 18 = r / 262144) as Hd by (by rewrite Z.shiftr_div_pow2 by lia).
    assert (0 <= r / 262144 <= 4) by (split; [by apply Z.div_pos; lia|apply Z.lt_succ_r, Z.div_lt_upper_bound; lia]).
    eexists. split; [done|]. cbn [map]. rewrite !Ht, Hd, lead4_byte by lia.
    apply enc4; [done|apply low_bits_range|apply low_bits_range|done|..]; rewrite low_bits_div by lia; change (2 ^ 12) with 4096; intros Ha;
      pose proof (Z.div_mod (r / 4096) 64 ltac:(lia)) as Hdm; rewrite Z.div_div in Hdm by lia; change (4096 * 64) with 262144 in Hdm; rewrite Ha in Hdm;
      pose proof (Z.div_mod r 4096 ltac:(lia)); pose proof (Z.mod_pos_bound r 4096 ltac:(lia)); lia.
Qed.

(** ** Reading what was written *)

Lemma rune_spans_drop n l : rune_spans n l = rune_spans 0 (drop n l).
Proof. revert n. induction l as [|c l IH]; intros [|n]; try done. simpl. apply IH. Qed.

Lemma decode_rune_encoded bs r cs l : encoded r bs -> map byte_of cs = bs -> (decode_rune (cs ++ l)).2 = length cs /\ cs <> [].
Proof.
  intros He Hcs. destruct He; destruct cs as [|c1 cs]; try done; injection Hcs as H1' Hcs; (split; [|done]).
  - apply map_eq_nil in Hcs as ->. cbn. rewrite H1'. by destruct (Z.ltb_spec r 128); [|lia].
  - destruct cs as [|c2 [|]]; try done. injection Hcs as H2'. unfold decode_rune, continuation. cbn [app length]. rewrite H1', H2'.
    repeat (case_match; try lia; try done).
  - destruct cs as [|c2 [|c3 [|]]]; try done. injection Hcs as H2' H3'. unfold decode_rune, continuation. cbn [app length]. rewrite H1', H2', H3'.
    repeat (case_match; try lia; try done).
  - destruct cs as [|c2 [|c3 [|c4 [|]]]]; try done. injection Hcs as H2' H3' H4'. unfold decode_rune, continuation. cbn [app length].
    rewrite H1', H2', H3', H4'. repeat (case_match; try lia; try done).
Qed.

Lemma RuneCount_encode r l : RuneCount (encode_rune r ++ l) = S (RuneCount l).
Proof.
  destruct (encode_rune_bytes r) as (bs & Hbs & He). destruct (decode_rune_encoded bs r (encode_rune r) l He Hbs) as [Hd Hne].
  destruct (encode_rune r) as [|c cs] eqn:Hr; [done|]. unfold RuneCount. cbn [app rune_spans]. cbn [app] in Hd.
  destruct (decode_rune (c :: cs ++ l)) as [x n]. cbn [snd length] in Hd. subst n. cbn [length]. f_equal.
  rewrite rune_spans_drop. replace (S (length cs) - 1)%nat with (length cs) by lia. by rewrite drop_app_length.
Qed.

Lemma RuneCount_of_runes rs : RuneCount (of_runes rs) = length rs.
Proof. induction rs as [|r rs IH]; [done|]. unfold of_runes in *. cbn [flat_map length]. by rewrite RuneCount_encode, IH. Qed.

Lemma RuneCount_runes l : RuneCount l = length (runes l).
Proof. unfold RuneCount, runes. by rewrite length_map. Qed.

(** ** Zero bytes *)

Definition no_zero (l : chars) : Prop := Forall (fun c => byte_of c <> 0) l.

Lemma encode_rune_no_zero r : r <> 0 -> no_zero (encode_rune r).
Proof.
  intros Hr. destruct (encode_rune_bytes r) as (bs & Hbs & He). unfold no_zero.
  assert (Forall (fun b => b <> 0) (map byte_of (encode_rune r))) as Hall.
  { rewrite Hbs. destruct He; repeat constructor; lia. }
  by rewrite Forall_map in Hall.
Qed.

Lemma of_runes_no_zero rs : Forall (fun r => r <> 0) rs -> no_zero (of_runes rs).
Proof. induction 1 as [|r rs Hr _ IH]; [constructor|]. apply Forall_app. split; [by apply encode_rune_no_zero|exact IH]. Qed.

(** Of a byte that is not zero comes no rune that is. *)
Lemma decode_rune_nonzero a l : byte_of a <> 0 -> (decode_rune (a :: l)).1 <> 0.
Proof.
  intros Ha. pose proof (byte_range a) as Hra. unfold decode_rune, RuneError. cbv zeta.
  destruct (Z.ltb_spec (byte_of a) 128); [done|]. destruct (_ || _) eqn:Hrange; [done|].
  rewrite orb_false_iff, !Z.ltb_ge in Hrange.
  assert (forall c, 0 <= low6 c < 64) as Hlow.
  { intros c. unfold low6. change 63 with (Z.ones 6). rewrite Z.land_ones by lia. apply Z.mod_pos_bound. lia. }
  destruct l as [|b l]; [done|].
  set (lo := if byte_of a =? 224 then 160 else if byte_of a =? 240 then 144 else 128).
  set (hi := if byte_of a =? 237 then 159 else if byte_of a =? 244 then 143 else 191).
  destruct (negb _) eqn:Hb; [done|]. apply negb_false_iff, andb_true_iff in Hb. rewrite !Z.leb_le in Hb.
  assert (128 <= lo /\ hi < 192) as [Hlo Hhi] by (subst lo hi; repeat case_match; lia).
  assert (low6 b = byte_of b - 128) as Hb6.
  { unfold low6. change 63 with (Z.ones 6). rewrite Z.land_ones by lia. symmetry. apply (Z.mod_unique_pos _ _ 2); lia. }
  destruct (Z.ltb_spec (byte_of a) 224).
  { change 31 with (Z.ones 5). rewrite Z.land_ones by lia. change (2 ^ 5) with 32.
    assert (byte_of a mod 32 = byte_of a - 192) as -> by (symmetry; apply (Z.mod_unique_pos _ _ 6); lia). specialize (Hlow b). cbn [fst]. lia. }
  destruct l as [|c l]; [done|]. destruct (negb _); [done|]. pose proof (Hlow b). pose proof (Hlow c).
  destruct (Z.ltb_spec (byte_of a) 240).
  { change 15 with (Z.ones 4). rewrite Z.land_ones by lia. change (2 ^ 4) with 16.
    assert (byte_of a mod 16 = byte_of a - 224) as -> by (symmetry; apply (Z.mod_unique_pos _ _ 14); lia). cbn [fst].
    subst lo. destruct (Z.eqb_spec (byte_of a) 224); lia. }
  destruct l as [|d l]; [done|]. destruct (negb _); [done|]. pose proof (Hlow d).
  change 7 with (Z.ones 3). rewrite Z.land_ones by lia. change (2 ^ 3) with 8.
  assert (byte_of a mod 8 = byte_of a - 240) as -> by (symmetry; apply (Z.mod_unique_pos _ _ 30); lia). cbn [fst].
  subst lo. destruct (Z.eqb_spec (byte_of a) 224); [lia|]. destruct (Z.eqb_spec (byte_of a) 240); lia.
Qed.

Lemma runes_no_zero l : no_zero l -> Forall (fun r => r <> 0) (runes l).
Proof.
  unfold runes. assert (forall skip l, no_zero l -> Forall (fun r => r <> 0) (map fst (rune_spans skip l))) as H; [|apply H].
  clear. intros skip l Hl. revert skip. induction Hl as [|c l Hc Hl IH]; intros skip; cbn [rune_spans]; [constructor|].
  destruct skip as [|skip]; [|apply IH]. pose proof (decode_rune_nonzero c l Hc) as Hr. destruct (decode_rune (c :: l)) as [x n]. by constructor.
Qed.
