(* ===== verification/Json.v ===== *)
(** The values of [encoding/json]: what a Go [any] holds after decoding.

    A [map[string]any] is a [gmap]; a number is its literal ([json.Number]).
    [json_ind'] is the induction principle over both kinds of children. *)
From stdpp Require Import base tactics list gmap strings.
From Stdlib Require Import ZArith Lia.
From S2P Require Import Prelude.

#[warnings="-register-all"]
Inductive json :=
| JNull
| JBool (b : bool)
| JNum (n : string)
| JStr (s : string)
| JArr (l : list json)
| JObj (m : gmap string json).

Fixpoint json_size (v : json) : nat :=
  match v with
  | JArr l => S (sum_list_with json_size l)
  | JObj m => S (map_fold (fun _ v n => json_size v + n) 0 m)
  | _ => 1
  end.

Lemma json_size_arr v l : v ∈ l -> json_size v < json_size (JArr l).
Proof.
  intros Hv. simpl. induction l as [|x l IH]; [by apply elem_of_nil in Hv|].
  apply elem_of_cons in Hv as [->|Hv]; simpl; [|specialize (IH Hv)]; lia.
Qed.

Lemma json_size_obj m k v : m !! k = Some v -> json_size v < json_size (JObj m).
Proof.
  intros Hk. simpl. rewrite <- (insert_delete_id m k v Hk).
  rewrite map_fold_insert_L; [lia| |by apply lookup_delete_eq].
  intros. lia.
Qed.

Lemma json_ind' (P : json -> Prop) :
  (forall v, match v with JArr _ | JObj _ => False | _ => True end -> P v) ->
  (forall l, Forall P l -> P (JArr l)) ->
  (forall m, map_Forall (fun _ => P) m -> P (JObj m)) ->
  forall v, P v.
Proof.
  intros Hleaf Harr Hobj v. remember (json_size v) as n eqn:Hn. revert v Hn.
  induction n as [n IH] using lt_wf_ind. intros v ->. destruct v as [|b|n|s|l|m]; try by apply Hleaf.
  - apply Harr, Forall_forall. intros v Hv. eapply IH; [by apply json_size_arr|done].
  - apply Hobj. intros k v Hk. eapply IH; [by eapply json_size_obj|done].
Qed.

