(* ===== verification/JsonText.v ===== *)
(** JSON texts: what [encoding/json] decodes and encodes, as far as the source
    uses it: one value at a time from a [Decoder] that keeps numbers as they
    are written ([UseNumber]), and an [Encoder] that does not escape HTML. *)
From stdpp Require Import base tactics list gmap strings sorting.
From Stdlib Require Import ZArith Lia Ascii.
From S2P Require Import Prelude.
From S2P Require Import GoString.
From S2P Require Import Json.

Open Scope Z_scope.

(** ** Strings *)

Definition quote_char : ascii := char_of 34.
Definition backslash : ascii := char_of 92.

Definition hex4_value (c : ascii) : option Z :=
  let b := byte_of c in
  if is_digit c then Some (b - 48)
  else if (97 <=? b) && (b <=? 102) then Some (b - 87)
  else if (65 <=? b) && (b <=? 70) then Some (b - 55)
  else None.

Definition hex4 (a b c d : ascii) : option Z :=
  match hex4_value a, hex4_value b, hex4_value c, hex4_value d with
  | Some a, Some b, Some c, Some d => Some (4096 * a + 256 * b + 16 * c + d)
  | _, _, _, _ => None
  end.

(** What stands behind a backslash, other than [u]. *)
Definition simple_escape (c : ascii) : option ascii :=
  match c with
  | "b" => Some (char_of 8) | "f" => Some (char_of 12) | "n" => Some (char_of 10)
  | "r" => Some (char_of 13) | "t" => Some (char_of 9) | "/" => Some "/"%char
  | _ => if Ascii.eqb c quote_char || Ascii.eqb c backslash then Some c else None
  end%char.

(** The scanner behind the opening quote: the raw string and what follows the
    closing one. *)
Fixpoint raw_string (l : chars) : option (chars * chars) :=
  match l with
  | [] => None
  | c :: r =>
      if Ascii.eqb c quote_char then Some ([], r)
      else if Ascii.eqb c backslash then
        match r with
        | e :: r =>
            if Ascii.eqb e "u" then
              match r with
              | x :: y :: z :: w :: r =>
                  if is_nil (hex4 x y z w) then None else
                  match raw_string r with Some (s, rest) => Some (c :: e :: x :: y :: z :: w :: s, rest) | None => None end
              | _ => None
              end
            else if is_nil (simple_escape e) then None
            else match raw_string r with Some (s, rest) => Some (c :: e :: s, rest) | None => None end
        | [] => None
        end
      else if byte_of c <? 32 then None
      else match raw_string r with Some (s, rest) => Some (c :: s, rest) | None => None end
  end.

Definition is_surrogate (r : Z) : bool := (55296 <=? r) && (r <? 57344).

(** [utf16.DecodeRune] *)
Definition surrogate_pair (hi lo : Z) : option Z :=
  if (55296 <=? hi) && (hi <? 56320) && (56320 <=? lo) && (lo <? 57344)
  then Some ((hi - 55296) * 1024 + (lo - 56320) + 65536) else None.

(** The escapes of a raw string; a lone surrogate is [RuneError]. *)
Fixpoint unescape (l : chars) : chars :=
  match l with
  | [] => []
  | c :: r =>
      if Ascii.eqb c backslash then
        match r with
        | e :: r1 =>
            if Ascii.eqb e "u" then
              match r1 with
              | x :: y :: z :: w :: r2 =>
                  let hi := default RuneError (hex4 x y z w) in
                  if is_surrogate hi then
                    match r2 with
                    | c' :: u' :: x' :: y' :: z' :: w' :: r3 =>
                        match (if Ascii.eqb c' backslash && Ascii.eqb u' "u" then surrogate_pair hi (default RuneError (hex4 x' y' z' w')) else None) with
                        | Some rune => encode_rune rune ++ unescape r3
                        | None => encode_rune RuneError ++ unescape r2
                        end
                    | _ => encode_rune RuneError ++ unescape r2
                    end
                  else encode_rune hi ++ unescape r2
              | _ => unescape r1
              end
            else default e (simple_escape e) :: unescape r1
        | [] => []
        end
      else c :: unescape r
  end.

(** Bytes that are no UTF-8 become [RuneError] first. *)
Definition unquote (raw : chars) : string := text (unescape (of_runes (runes raw))).

(** ** Numbers and literals *)

Definition digits1 (l : chars) : option (chars * chars) :=
  match span is_digit l with O => None | n => Some (take n l, drop n l) end.

Definition number_int (l : chars) : option (chars * chars) :=
  match l with
  | c :: r => if Ascii.eqb c "0" then Some ([c], r) else digits1 l
  | [] => None
  end.

Definition number_frac (l : chars) : option (chars * chars) :=
  match l with
  | c :: r => if Ascii.eqb c "." then match digits1 r with Some (ds, rest) => Some (c :: ds, rest) | None => None end else Some ([], l)
  | [] => Some ([], l)
  end.

Definition number_exp (l : chars) : option (chars * chars) :=
  match l with
  | c :: r =>
      if Ascii.eqb c "e" || Ascii.eqb c "E" then
        let '(sign, r) := match r with
                          | s :: r' => if Ascii.eqb s "+" || Ascii.eqb s "-" then ([s], r') else ([], r)
                          | [] => ([], r)
                          end in
        match digits1 r with Some (ds, rest) => Some (c :: sign ++ ds, rest) | None => None end
      else Some ([], l)
  | [] => Some ([], l)
  end.

Definition json_number (l : chars) : option (chars * chars) :=
  let '(sign, l) := match l with c :: r => if Ascii.eqb c "-" then ([c], r) else ([], l) | [] => ([], l) end in
  match number_int l with
  | None => None
  | Some (i, l) =>
      match number_frac l with
      | None => None
      | Some (f, l) => match number_exp l with Some (e, l) => Some (sign ++ i ++ f ++ e, l) | None => None end
      end
  end.

(** ** Values *)

Definition json_space (c : ascii) : bool := existsb (Z.eqb (byte_of c)) [32; 9; 10; 13].
Definition skip_ws (l : chars) : chars := drop (span json_space l) l.

Definition maxNestingDepth : Z := 10000.

(** The value [l] begins with, white space skipped, and what follows. *)
Fixpoint json_value (fuel : nat) (depth : Z) (l : chars) : option (json * chars) :=
  match fuel with
  | O => None
  | S fuel =>
      match skip_ws l with
      | [] => None
      | c :: r =>
          if Ascii.eqb c quote_char then
            match raw_string r with Some (s, rest) => Some (JStr (unquote s), rest) | None => None end
          else if Ascii.eqb c "[" then
            if maxNestingDepth <=? depth then None else
            match skip_ws r with
            | d :: r' => if Ascii.eqb d "]" then Some (JArr [], r') else json_elems fuel (depth + 1) [] r
            | [] => None
            end
          else if Ascii.eqb c "{" then
            if maxNestingDepth <=? depth then None else
            match skip_ws r with
            | d :: r' => if Ascii.eqb d "}" then Some (JObj ∅, r') else json_members fuel (depth + 1) ∅ r
            | [] => None
            end
          else match strip (chars_of "true") (c :: r), strip (chars_of "false") (c :: r), strip (chars_of "null") (c :: r) with
               | Some rest, _, _ => Some (JBool true, rest)
               | _, Some rest, _ => Some (JBool false, rest)
               | _, _, Some rest => Some (JNull, rest)
               | _, _, _ => match json_number (c :: r) with Some (n, rest) => Some (JNum (text n), rest) | None => None end
               end
      end
  end
with json_elems (fuel : nat) (depth : Z) (acc : list json) (l : chars) : option (json * chars) :=
  match fuel with
  | O => None
  | S fuel =>
      match json_value fuel depth l with
      | None => None
      | Some (v, rest) =>
          match skip_ws rest with
          | c :: r => if Ascii.eqb c "," then json_elems fuel depth (v :: acc) r
                      else if Ascii.eqb c "]" then Some (JArr (rev (v :: acc)), r) else None
          | [] => None
          end
      end
  end
with json_members (fuel : nat) (depth : Z) (acc : gmap string json) (l : chars) : option (json * chars) :=
  match fuel with
  | O => None
  | S fuel =>
      match skip_ws l with
      | c :: r =>
          if negb (Ascii.eqb c quote_char) then None else
          match raw_string r with
          | None => None
          | Some (k, rest) =>
              match skip_ws rest with
              | c :: r =>
                  if negb (Ascii.eqb c ":") then None else
                  match json_value fuel depth r with
                  | None => None
                  | Some (v, rest) =>
                      let acc := <[unquote k := v]> acc in
                      match skip_ws rest with
                      | c :: r => if Ascii.eqb c "," then json_members fuel depth acc r
                                  else if Ascii.eqb c "}" then Some (JObj acc, r) else None
                      | [] => None
                      end
                  end
              | [] => None
              end
          end
      | [] => None
      end
  end.

(** [dec.Decode(&v)] on what is left of the input: every call takes a
    character, so twice its length is fuel enough. *)
Inductive decoded := DecodedValue (v : json) (rest : chars) | DecodeEOF | DecodeError.

Definition Decode (l : chars) : decoded :=
  match skip_ws l with
  | [] => DecodeEOF
  | _ => match json_value (2 + 2 * length l) 0 l with Some (v, rest) => DecodedValue v rest | None => DecodeError end
  end.

(** ** Encoding *)

Definition lower_hex (n : Z) : ascii := char_of (if n <? 10 then 48 + n else 87 + n).

(** A character of [safeSet] or its escape. *)
Definition encode_ascii (c : ascii) : chars :=
  let b := byte_of c in
  if Ascii.eqb c quote_char || Ascii.eqb c backslash then [backslash; c]
  else if 32 <=? b then [c]
  else if b =? 8 then [backslash; "b"%char]
  else if b =? 12 then [backslash; "f"%char]
  else if b =? 10 then [backslash; "n"%char]
  else if b =? 13 then [backslash; "r"%char]
  else if b =? 9 then [backslash; "t"%char]
  else backslash :: chars_of "u00" ++ [lower_hex (b / 16); lower_hex (b mod 16)].

Definition encode_span (sp : Z * chars) : chars :=
  match sp.2 with
  | [c] => if byte_of c <? 128 then encode_ascii c else backslash :: chars_of "ufffd"
  | bs => if sp.1 =? 8232 then backslash :: chars_of "u2028" else if sp.1 =? 8233 then backslash :: chars_of "u2029" else bs
  end.

Definition encode_string (s : string) : chars :=
  quote_char :: flat_map encode_span (rune_spans 0 (chars_of s)) ++ [quote_char].

Definition by_key (a b : string * chars) : Prop := negb (go_string_lt b.1 a.1) = true.
#[export] Instance by_key_dec a b : Decision (by_key a b).
Proof. unfold by_key. apply _. Defined.

Fixpoint encode (v : json) : chars :=
  match v with
  | JNull => chars_of "null"
  | JBool b => chars_of (if b then "true" else "false")
  | JNum n => chars_of n
  | JStr s => encode_string s
  | JArr l => "["%char :: join [","%char] (map encode l) ++ ["]"%char]
  | JObj m =>
      let members := merge_sort by_key (map_to_list (encode <$> m)) in
      "{"%char :: join [","%char] (map (fun kv => encode_string kv.1 ++ ":"%char :: kv.2) members) ++ ["}"%char]
  end.

Definition q (s : string) : string := text (map (fun c => if Ascii.eqb c "'" then quote_char else c) (chars_of s)).
Definition reencode (s : string) : option string :=
  match Decode (chars_of (q s)) with DecodedValue v [] => Some (text (encode v)) | _ => None end.
Example reencode_ex : reencode " { 'b' : [1.50e+3, -0, true , null], 'a':'x\n\u0041\ud83d\ude00\ud800', 'b2' : {} }"
  = Some (q "{'a':'x\nA" +:+ of_bytes [240; 159; 152; 128; 239; 191; 189] +:+ q "','b':[1.50e+3,-0,true,null],'b2':{}}").
Proof. vm_compute. reflexivity. Qed.
Example reject_ex : map reencode ["[1,]"; "{'a' 1}"; "01"; "'\x'"; "tru"; "- 1"] = repeat None 6.
Proof. vm_compute. reflexivity. Qed.
