(* ===== verification/DepGraph.v ===== *)
(** Dependency-based alert suppression: [internal/depsuppress].

    [Suppressor] (suppressor.go) answers, from a cached snapshot of the
    dependency edges and of the nodes that are down, whether an incident is
    the consequence of a parent that is down, and which ancestor is the root
    of the outage.  [Store] (store.go) edits the edges and keeps the graph of
    explicit edges acyclic.

    The walks of the source use a worklist; here they carry a fuel that is
    proved sufficient for every snapshot.  A Go slice used as a stack is the
    list of its elements from the top (last) to the bottom. *)
From stdpp Require Import base tactics list gmap strings sorting relations.
From Stdlib Require Import ZArith Lia.
From S2P Require Import Prelude.

Open Scope Z_scope.
Open Scope go_scope.

(** ** Data *)

Record Edge := mkEdge {
  ID : Z; ProjectID : Z;
  ParentHostID : option Z; ParentMonitorID : option Z;
  ChildHostID : option Z; ChildMonitorID : option Z;
  ChildLabelScope : option string; ChildLabelValue : option string }.

#[export] Instance Edge_eq_dec : EqDecision Edge.
Proof. solve_decision. Defined.

Inductive dep_error :=
| ErrInvalidEdge | ErrForeignNode | ErrSelfLoop | ErrSelfMatch | ErrDuplicate
| ErrCycle | ErrNotFound | ErrUnknownSource
| ErrSQL (** any other error of a statement *).

Record node := Node { kind : string; nid : Z }.

#[export] Instance node_eq_dec : EqDecision node.
Proof. solve_decision. Defined.
#[export] Instance node_countable : Countable node :=
  inj_countable' (fun n => (kind n, nid n)) (fun p => Node p.1 p.2) ltac:(by intros []).

Definition nodeFromIDs (hostID monitorID : option Z) : option node :=
  match hostID with
  | Some h => Some (Node "host" h)
  | None => match monitorID with Some m => Some (Node "monitor" m) | None => None end
  end.

Definition parentNode (e : Edge) : option node := nodeFromIDs (ParentHostID e) (ParentMonitorID e).
Definition childNode (e : Edge) : option node := nodeFromIDs (ChildHostID e) (ChildMonitorID e).

Record hostLabels := HostLabels { projectID : Z; env : string; role : string }.

Record snapshot := Snapshot {
  edges : list Edge;
  downHosts : gmap Z bool;
  downMonitors : gmap Z bool;
  labels : gmap Z hostLabels;
  loadedAt : Z }.

(** A Go map lookup of a missing key gives the zero value. *)
Definition downHost (snap : snapshot) (id : Z) : bool := default false (downHosts snap !! id).
Definition downMonitor (snap : snapshot) (id : Z) : bool := default false (downMonitors snap !! id).

(** ** Matching edges of a node *)

Definition isSelfMatchParent (e : Edge) (k : string) (nodeID : Z) : bool :=
  if decide (k = "host") then ptr_is (ParentHostID e) nodeID
  else if decide (k = "monitor") then ptr_is (ParentMonitorID e) nodeID
  else false.

Definition edgeMatchesChild (e : Edge) (snap : snapshot) (k : string) (nodeID : Z) : bool :=
  if decide (k = "host") then
    match ChildHostID e with
    | Some h => bool_decide (h = nodeID)
    | None =>
        match ChildLabelScope e, ChildLabelValue e with
        | Some scope, Some value =>
            match labels snap !! nodeID with
            | None => false
            | Some lbl =>
                if decide (projectID lbl = ProjectID e) then
                  if decide (scope = "env") then bool_decide (env lbl = value)
                  else if decide (scope = "role") then bool_decide (role lbl = value)
                  else false
                else false
            end
        | _, _ => false
        end
    end
  else if decide (k = "monitor") then ptr_is (ChildMonitorID e) nodeID
  else false.

Definition matchingParents (snap : snapshot) (k : string) (nodeID : Z) : list Edge :=
  List.filter (fun e => if isSelfMatchParent e k nodeID then false
                        else edgeMatchesChild e snap k nodeID) (edges snap).

Definition parentIsDown (e : Edge) (snap : snapshot) : bool :=
  match ParentHostID e with
  | Some h => downHost snap h
  | None => match ParentMonitorID e with Some m => downMonitor snap m | None => false end
  end.

Definition downParents (snap : snapshot) (start : node) : list node :=
  omap (fun e => if parentIsDown e snap then parentNode e else None)
       (matchingParents snap (kind start) (nid start)).

Definition nodeIsDown (snap : snapshot) (n : node) : bool :=
  if decide (kind n = "host") then downHost snap (nid n)
  else if decide (kind n = "monitor") then downMonitor snap (nid n)
  else false.

(** ** The walks *)

(** Enough for any walk over the snapshot: every node is expanded once and an
    expansion pushes at most one entry per edge ([walk_fuel_enough]). *)
Definition walk_fuel (snap : snapshot) : nat :=
  (length (edges snap) * length (edges snap) + length (edges snap))%nat.

Fixpoint parentDown_walk (fuel : nat) (snap : snapshot) (visited : gset node) (stack : list node)
  : option bool :=
  match stack with
  | [] => Some false
  | p :: stack =>
      match fuel with
      | O => None
      | S fuel =>
          if decide (p ∈ visited) then parentDown_walk fuel snap visited stack
          else
            match downParents snap p with
            | [] => Some true
            | pp => parentDown_walk fuel snap ({[p]} ∪ visited) (reverse pp ++ stack)
            end
      end
  end.

Definition parentDownFromSnapshot (snap : snapshot) (start : node) : option bool :=
  parentDown_walk (walk_fuel snap) snap {[start]} (reverse (downParents snap start)).

Fixpoint downRoot_walk (fuel : nat) (snap : snapshot) (visited : gset node) (stack : list node)
    (roots : list node) : option (list node) :=
  match stack with
  | [] => Some roots
  | p :: stack =>
      match fuel with
      | O => None
      | S fuel =>
          if decide (p ∈ visited) then downRoot_walk fuel snap visited stack roots
          else
            match downParents snap p with
            | [] => downRoot_walk fuel snap ({[p]} ∪ visited) stack (roots ++ [p])
            | pp => downRoot_walk fuel snap ({[p]} ∪ visited) (reverse pp ++ stack) roots
            end
      end
  end.

(** The [less] function given to [sort.Slice]. *)
Definition root_less (a b : node) : bool :=
  if decide (kind a = kind b) then nid a <? nid b else go_string_lt (kind a) (kind b).

Definition root_le (a b : node) : Prop := root_less b a = false.
#[export] Instance root_le_dec a b : Decision (root_le a b).
Proof. unfold root_le. apply _. Defined.

Definition downRootFromSnapshot (snap : snapshot) (start : node) : option (option node) :=
  match downRoot_walk (walk_fuel snap) snap {[start]} (reverse (downParents snap start)) [] with
  | None => None
  | Some [] => Some (if nodeIsDown snap start then Some start else None)
  | Some roots => Some (head (merge_sort root_le roots))
  end.

(** Number of declared children of a node, one level. *)
Definition label_children (snap : snapshot) (e : Edge) (self : node) (scope value : string) : gset node :=
  list_to_set (omap (fun '(hid, lbl) =>
    if decide (projectID lbl = ProjectID e) then
      let v := if decide (scope = "env") then env lbl
               else if decide (scope = "role") then role lbl else "" in
      if decide (v = value) then
        if decide (Node "host" hid = self) then None else Some (Node "host" hid)
      else None
    else None) (map_to_list (labels snap))).

Definition edge_children (snap : snapshot) (e : Edge) (self : node) : gset node :=
  if decide (parentNode e = Some self) then
    match ChildHostID e, ChildMonitorID e, ChildLabelScope e, ChildLabelValue e with
    | Some h, _, _, _ => if decide (Node "host" h = self) then ∅ else {[Node "host" h]}
    | None, Some m, _, _ => if decide (Node "monitor" m = self) then ∅ else {[Node "monitor" m]}
    | None, None, Some scope, Some value => label_children snap e self scope value
    | _, _, _, _ => ∅
    end
  else ∅.

Definition declaredChildrenFromSnapshot (snap : snapshot) (self : node) : nat :=
  size (foldl (fun seen e => seen ∪ edge_children snap e self) ∅ (edges snap)).

(** ** The graph the walks explore *)

(** [up snap a b]: [b] is a parent of [a] that is down. *)
Definition up (snap : snapshot) (a b : node) : Prop := b ∈ downParents snap a.

(** [outage_root snap start r]: [r] is an ancestor of [start] along nodes that
    are down and no parent of [r] is down. *)
Definition outage_root (snap : snapshot) (start r : node) : Prop :=
  tc (up snap) start r /\ downParents snap r = [].

Definition parents_of (snap : snapshot) : gset node := list_to_set (omap parentNode (edges snap)).

Section walk.
Context (snap : snapshot).

Lemma downParents_length n : (length (downParents snap n) <= length (edges snap))%nat.
Proof.
  unfold downParents, matchingParents.
  etrans; [apply length_omap_le|apply length_filter_le].
Qed.

Lemma downParents_parents n p : p ∈ downParents snap n -> p ∈ parents_of snap.
Proof.
  unfold downParents, parents_of, matchingParents.
  intros (e & He & Hp)%list_elem_of_omap.
  rewrite elem_of_list_to_set, list_elem_of_omap. exists e.
  apply list_elem_of_In, filter_In in He as [He _].
  split; [by apply list_elem_of_In|]. by destruct (parentIsDown e snap).
Qed.

Lemma parents_of_size : (size (parents_of snap) <= length (edges snap))%nat.
Proof.
  unfold parents_of. etrans; [apply list_to_set_size_le|].
  apply length_omap_le.
Qed.

(** Fuel: nodes still to expand, times the pushes of one expansion, plus the
    entries already on the stack. *)
Definition walk_measure (visited : gset node) (stack : list node) : nat :=
  (size (parents_of snap ∖ visited) * length (edges snap) + length stack)%nat.

Lemma walk_measure_expand visited p stack :
  p ∈ parents_of snap -> p ∉ visited ->
  (walk_measure ({[p]} ∪ visited) (reverse (downParents snap p) ++ stack)
     < walk_measure visited (p :: stack))%nat.
Proof.
  intros HU HV. unfold walk_measure. rewrite length_app, length_reverse. simpl.
  pose proof (size_difference_insert _ _ _ HU HV). pose proof (downParents_length p). nia.
Qed.

Lemma downRoot_walk_total fuel visited stack roots :
  (forall p, p ∈ stack -> p ∈ parents_of snap) ->
  (walk_measure visited stack <= fuel)%nat ->
  is_Some (downRoot_walk fuel snap visited stack roots).
Proof.
  revert visited stack roots.
  induction fuel as [|fuel IH]; intros visited [|p stack] roots Hst Hm; simpl; eauto.
  { unfold walk_measure in Hm. simpl in Hm. lia. }
  assert (p ∈ parents_of snap) as HpU by (apply Hst; set_solver).
  case_decide as Hp.
  { apply IH; [set_solver|]. unfold walk_measure in *. simpl in *. lia. }
  pose proof (walk_measure_expand visited p stack HpU Hp) as Hlt.
  assert (forall q, q ∈ downParents snap p -> q ∈ parents_of snap) as Hpp by apply downParents_parents.
  destruct (downParents snap p) as [|q pp]; (apply IH; [|try (simpl in *; lia)]).
  - set_solver.
  - intros x. rewrite elem_of_app, elem_of_reverse. set_solver.
Qed.

(** What a finished walk has seen: a set holding the stack, closed under
    [up], whose roots are exactly the ones collected. *)
Lemma downRoot_walk_spec start fuel visited stack roots rs :
  start ∈ visited ->
  (forall v, v ∈ visited -> v <> start -> downParents snap v = [] -> v ∈ roots) ->
  (forall v w, v ∈ visited -> up snap v w -> w ∈ visited \/ w ∈ stack) ->
  downRoot_walk fuel snap visited stack roots = Some rs ->
  (exists V : gset node, visited ⊆ V /\ (forall x, x ∈ stack -> x ∈ V) /\
     (forall v w, v ∈ V -> up snap v w -> w ∈ V) /\
     (forall v, v ∈ V -> v <> start -> downParents snap v = [] -> v ∈ rs)) /\
  (forall r, r ∈ rs -> r ∈ roots \/
     downParents snap r = [] /\ exists q, q ∈ stack /\ rtc (up snap) q r) /\
  roots ⊆ rs.
Proof.
  revert visited stack roots.
  induction fuel as [|fuel IH]; intros visited [|p stack] roots Hs Hr Hc Hw; simpl in Hw;
    [|done| |].
  1, 2: simplify_eq; split_and!; [|by left|done];
    exists visited; split_and!; [done|by intros x ?%elem_of_nil| |done];
    intros v w Hv Hvw; by destruct (Hc v w Hv Hvw) as [|?%elem_of_nil].
  case_decide as Hp.
  { apply IH in Hw as ((V & HV & Hst & ? & ?) & Hrs & ?); [|done|done|].
    - split_and!; [exists V; split_and!; [done| |done|done]| |done].
      + intros x [->|Hx]%elem_of_cons; [by apply HV|by apply Hst].
      + intros r Hin. destruct (Hrs r Hin) as [|(? & q & ? & ?)]; [by left|right].
        split; [done|]. exists q. by split; [apply elem_of_cons; right|].
    - intros v w Hv Hvw. destruct (Hc v w Hv Hvw) as [?|[->|?]%elem_of_cons]; tauto. }
  assert (forall x, x ∈ {[p]} ∪ visited -> x = p \/ x ∈ visited) as Hun.
  { intros x [->%elem_of_singleton|?]%elem_of_union; tauto. }
  assert (forall x, x ∈ visited -> x ∈ {[p]} ∪ visited) as Hun1.
  { intros x ?. by apply elem_of_union; right. }
  assert (p ∈ {[p]} ∪ visited) as Hunp by (by apply elem_of_union; left; apply elem_of_singleton).
  destruct (downParents snap p) as [|q0 pp] eqn:Hpp.
  - apply IH in Hw as ((V & HV & Hst & ? & ?) & Hrs & Hsub); [|by auto| |].
    + split_and!.
      * exists V. split_and!; [by intros x ?; auto| |done|done].
        intros x [->|Hx]%elem_of_cons; auto.
      * intros r Hin. destruct (Hrs r Hin) as [Hin'|(? & q & ? & ?)].
        -- apply elem_of_app in Hin' as [| ->%list_elem_of_singleton]; [by left|].
           right. split; [done|]. exists p. split; [by apply elem_of_cons; left|constructor].
        -- right. split; [done|]. exists q. by split; [apply elem_of_cons; right|].
      * intros x Hx. apply Hsub, elem_of_app. by left.
    + intros v [->|Hv]%Hun Hne Hdp; apply elem_of_app; [right; by apply list_elem_of_singleton|].
      left. auto.
    + intros v w [->|Hv]%Hun Hvw.
      * unfold up in Hvw. rewrite Hpp in Hvw. by apply elem_of_nil in Hvw.
      * destruct (Hc v w Hv Hvw) as [?|[->|?]%elem_of_cons]; auto.
  - rewrite <- Hpp in Hw.
    apply IH in Hw as ((V & HV & Hst & ? & ?) & Hrs & ?); [|by auto| |].
    + split_and!; [| |done].
      * exists V. split_and!; [by intros x ?; auto| |done|done].
        intros x [->|Hx]%elem_of_cons; [auto|]. apply Hst, elem_of_app. by right.
      * intros r Hin. destruct (Hrs r Hin) as [|(? & q & Hq & ?)]; [by left|right].
        split; [done|]. apply elem_of_app in Hq as [Hq%in_reverse_inv|Hq].
        -- exists p. split; [by apply elem_of_cons; left|]. eapply rtc_l; [exact Hq|done].
        -- exists q. by split; [apply elem_of_cons; right|].
    + intros v [->|Hv]%Hun Hne Hdp; [by rewrite Hpp in Hdp|auto].
    + intros v w [->|Hv]%Hun Hvw.
      * right. apply elem_of_app. left. by apply elem_of_reverse.
      * destruct (Hc v w Hv Hvw) as [?|[->|?]%elem_of_cons]; auto.
        right. apply elem_of_app. by right.
Qed.

(** The two walks agree: the first root found answers [ParentDown]. *)
Lemma walks_agree fuel visited stack roots rs :
  downRoot_walk fuel snap visited stack roots = Some rs -> 
  (exists rest, rs = roots ++ rest /\
     parentDown_walk fuel snap visited stack = Some (bool_decide (rest <> []))).
Proof.
  revert visited stack roots.
  induction fuel as [|fuel IH]; intros visited [|p stack] roots; simpl; [| done | |].
  1,2: intros [= ->]; exists []; split; [by rewrite app_nil_r|done].
  case_decide; [apply IH|].
  destruct (downParents snap p) as [|q pp] eqn:Hpp; [|apply IH].
  intros (rest & -> & _)%IH. exists (p :: rest). split; [by rewrite <- app_assoc|].
  by rewrite bool_decide_true.
Qed.

Lemma downRoots_of_start start :
  exists rs, downRoot_walk (walk_fuel snap) snap {[start]} (reverse (downParents snap start)) []
             = Some rs
    /\ (forall r, r ∈ rs <-> outage_root snap start r).
Proof.
  destruct (downRoot_walk_total (walk_fuel snap) {[start]} (reverse (downParents snap start)) [])
    as [rs Hrs].
  { intros p Hp%in_reverse_inv. eauto using downParents_parents. }
  { unfold walk_measure, walk_fuel. rewrite length_reverse. pose proof (downParents_length start).
    assert (size (parents_of snap ∖ {[start]}) <= size (parents_of snap))%nat
      by (apply subseteq_size; set_solver).
    pose proof parents_of_size. nia. }
  exists rs. split; [done|].
  pose proof Hrs as ((V & HV & Hst & Hcl & Hroot) & Hsound & _)%(downRoot_walk_spec start);
    [|set_solver|set_solver|].
  - intros r. split.
    + intros Hr. destruct (Hsound r Hr) as [Hr'|(Hdp & q & Hq%in_reverse_inv & Hrtc)]; [set_solver|].
      split; [|done]. by eapply tc_step_rtc.
    + intros [Htc Hdp]. apply tc_inv_first in Htc as Hfirst.
      destruct Hfirst as (y & Hy & Hyr). apply Hroot; [| |done].
      * eapply (rtc_closed (up snap) (fun x => x ∈ V)); [eauto| |exact Hyr].
        apply Hst, elem_of_reverse, Hy.
      * intros ->. unfold up in Hy. rewrite Hdp in Hy. set_solver.
  - intros v w ->%elem_of_singleton Hw. right. by apply elem_of_reverse.
Qed.
End walk.

(** ** The order on roots *)
Lemma root_less_trans a b c : root_less a b = true -> root_less b c = true -> root_less a c = true.
Proof.
  unfold root_less. destruct a as [ka ia], b as [kb ib], c as [kc ic]; simpl.
  repeat case_decide; simplify_eq; rewrite ?Z.ltb_lt; try lia; eauto using go_string_lt_trans; try done.
  intros H1 H2. pose proof (go_string_lt_trans _ _ _ H1 H2) as H3. by rewrite go_string_lt_irrefl in H3.
Qed.

Lemma root_less_total a b : root_less a b = true \/ a = b \/ root_less b a = true.
Proof.
  unfold root_less. destruct a as [ka ia], b as [kb ib]; simpl.
  repeat case_decide; simplify_eq; rewrite ?Z.ltb_lt.
  - destruct (Z.lt_trichotomy ia ib) as [|[->|]]; auto.
  - destruct (go_string_lt_total ka kb) as [|[->|]]; auto; done.
Qed.

Lemma root_less_irrefl a : root_less a a = false.
Proof. unfold root_less. by rewrite decide_True, Z.ltb_irrefl. Qed.

#[export] Instance root_le_total : Total root_le.
Proof.
  intros a b. unfold root_le. destruct (root_less b a) eqn:Hba; [right|by left].
  apply not_true_is_false. intros Hab.
  pose proof (root_less_trans _ _ _ Hab Hba) as H. by rewrite root_less_irrefl in H.
Qed.

#[export] Instance root_le_transitive : Transitive root_le.
Proof.
  intros a b c. unfold root_le. intros Hba Hcb. apply not_true_is_false. intros Hca.
  destruct (root_less_total a b) as [Hab|[->|]]; [|congruence|congruence].
  pose proof (root_less_trans _ _ _ Hca Hab). congruence.
Qed.

Lemma merge_sort_head_min (l : list node) r :
  head (merge_sort root_le l) = Some r -> r ∈ l /\ forall r', r' ∈ l -> root_less r' r = false.
Proof.
  intros Hh.
  pose proof (merge_sort_Permutation root_le l) as Hp.
  pose proof (StronglySorted_merge_sort root_le l) as Hs.
  destruct (merge_sort root_le l) as [|x xs]; [done|]. simpl in Hh. simplify_eq.
  split; [rewrite <- Hp; by apply elem_of_cons; left|].
  intros r'. rewrite <- Hp. intros [->|Hr]%elem_of_cons; [apply root_less_irrefl|].
  apply StronglySorted_inv in Hs as [_ Hs]. rewrite Forall_forall in Hs. by apply Hs.
Qed.

Lemma merge_sort_nonempty (l : list node) : l <> [] -> is_Some (head (merge_sort root_le l)).
Proof.
  intros Hl. pose proof (merge_sort_Permutation root_le l) as Hp.
  destruct (merge_sort root_le l) as [|x xs]; [|eauto].
  apply Permutation_nil_l in Hp. by subst.
Qed.

(** ** Correctness of [ParentDown] and [DownRoot] *)

(** C38: [ParentDown] always terminates and answers true exactly when the node
    has an outage root above it: an ancestor, reached through parents that are
    all down, none of whose own parents is down.  A cycle of down parents
    without such a root does not suppress. *)
Theorem parentDown_correct (snap : snapshot) (start : node) :
  exists b, parentDownFromSnapshot snap start = Some b
    /\ (b = true <-> exists r, outage_root snap start r).
Proof.
  destruct (downRoots_of_start snap start) as (rs & Hrs & Hspec).
  pose proof Hrs as (rest & -> & Hpd)%walks_agree. simpl in *.
  exists (bool_decide (rest <> [])). split; [done|]. rewrite bool_decide_eq_true. split.
  - intros Hne. destruct rest as [|r rest]; [done|]. exists r. apply Hspec, elem_of_cons. by left.
  - intros [r Hr] ->. apply Hspec in Hr. by apply elem_of_nil in Hr.
Qed.

(** [DownRoot] always terminates.  When the node has outage roots it
    returns the least of them (host before monitor, then the smaller id);
    otherwise it returns the node itself when it is down, and nothing when it
    is up. *)
Theorem downRoot_correct (snap : snapshot) (start : node) :
  exists o, downRootFromSnapshot snap start = Some o
    /\ match o with
       | Some r =>
           (outage_root snap start r /\ (forall r', outage_root snap start r' -> root_less r' r = false))
           \/ ((forall r', ~ outage_root snap start r') /\ r = start /\ nodeIsDown snap start = true)
       | None => (forall r', ~ outage_root snap start r') /\ nodeIsDown snap start = false
       end.
Proof.
  destruct (downRoots_of_start snap start) as (rs & Hrs & Hspec).
  unfold downRootFromSnapshot. rewrite Hrs. destruct rs as [|r0 rs].
  - assert (forall r', ~ outage_root snap start r') as Hno.
    { intros r' Hr'%Hspec. by apply elem_of_nil in Hr'. }
    eexists. split; [done|]. destruct (nodeIsDown snap start) eqn:Hd; naive_solver.
  - eexists. split; [done|].
    destruct (merge_sort_nonempty (r0 :: rs)) as [r Hr]; [done|]. rewrite Hr.
    apply merge_sort_head_min in Hr as [Hin Hmin]. left. split; [by apply Hspec|].
    intros r' Hr'. apply Hmin, Hspec, Hr'.
Qed.

(** a node is held back by its dependencies exactly when [DownRoot] names
    another node as the root of the outage, so the suppressor and the incident
    grouping never disagree on whether an outage has a parent. *)
Theorem parentDown_iff_other_root (snap : snapshot) (start : node) :
  parentDownFromSnapshot snap start = Some true
  <-> exists r, r <> start /\ downRootFromSnapshot snap start = Some (Some r).
Proof.
  destruct (parentDown_correct snap start) as (b & -> & Hb).
  destruct (downRoot_correct snap start) as (o & -> & Ho).
  assert (forall r, outage_root snap start r -> r <> start) as Hne.
  { intros r [Htc Hdp] ->. apply tc_inv_first in Htc as (y & Hy & _). unfold up in Hy.
    rewrite Hdp in Hy. by apply elem_of_nil in Hy. }
  split.
  - intros [= ->]. destruct (proj1 Hb eq_refl) as [r Hr].
    destruct o as [r'|]; [|naive_solver]. exists r'. naive_solver.
  - intros (r & Hr & [= ->]). f_equal. apply Hb. naive_solver.
Qed.
