(* ===== verification/DepStore.v ===== *)
(** The tables and the cache behind [DepGraph]: [internal/depsuppress].

    [Create], [Update] and [Delete] of store.go edit the edges of a project
    inside a transaction, with every validation of the source; [getSnapshot],
    [HasParent], [ParentDown], [DownRoot], [CheckIncident], [MarkSuppressed]
    and [Invalidate] of suppressor.go read them through the cached snapshot. *)
From stdpp Require Import base tactics list gmap strings relations.
From Stdlib Require Import ZArith Lia.
From S2P Require Import Prelude.
From S2P Require Import DepGraph.

Open Scope Z_scope.
Open Scope go_scope.

(** ** Tables *)
Record host_row := HostRow { h_project : Z; h_environment : string; h_role : string }.

(** Rows of [host_incidents] and [incidents], the columns read here. *)
Record host_incident := HostIncident {
  hi_id : Z; hi_host : Z; hi_kind : string; hi_open : bool; hi_suppressed : bool }.
Record uptime_incident := UptimeIncident { ui_id : Z; ui_monitor : Z; ui_resolved : bool }.

Record DepDB := mkDepDB {
  hosts : gmap Z host_row;
  monitors : gmap Z Z; (** monitor id to project id *)
  deps : list Edge; (** alert_dependencies *)
  next_id : Z; (** its bigserial *)
  host_incidents : list host_incident;
  incidents : list uptime_incident;
  cache : option snapshot; (** [Suppressor.cache] *)
  clock : Z (** what [Suppressor.now] returns *) }.

Definition set_deps (f : list Edge -> list Edge) (d : DepDB) : DepDB :=
  mkDepDB (hosts d) (monitors d) (f (deps d)) (next_id d) (host_incidents d) (incidents d) (cache d) (clock d).
Definition bump_id (d : DepDB) : DepDB :=
  mkDepDB (hosts d) (monitors d) (deps d) (next_id d + 1) (host_incidents d) (incidents d) (cache d) (clock d).
Definition set_cache (c : option snapshot) (d : DepDB) : DepDB :=
  mkDepDB (hosts d) (monitors d) (deps d) (next_id d) (host_incidents d) (incidents d) c (clock d).
Definition set_host_incidents (f : list host_incident -> list host_incident) (d : DepDB) : DepDB :=
  mkDepDB (hosts d) (monitors d) (deps d) (next_id d) (f (host_incidents d)) (incidents d) (cache d) (clock d).

Definition DM (A : Type) : Type := M DepDB (result dep_error A).

(** ** Validation of an edge *)

Definition count_set {A} (p : option A) : Z := if is_nil p then 0 else 1.

Definition validateShape (e : Edge) : result dep_error () :=
  let parents := count_set (ParentHostID e) + count_set (ParentMonitorID e) in
  if negb (parents =? 1) then Err ErrInvalidEdge else
  let hasLabel := negb (is_nil (ChildLabelScope e)) || negb (is_nil (ChildLabelValue e)) in
  if hasLabel && (is_nil (ChildLabelScope e) || is_nil (ChildLabelValue e)) then Err ErrInvalidEdge else
  let children := count_set (ChildHostID e) + count_set (ChildMonitorID e) + (if hasLabel then 1 else 0) in
  if negb (children =? 1) then Err ErrInvalidEdge else
  if hasLabel && negb (ptr_is (ChildLabelScope e) "env") && negb (ptr_is (ChildLabelScope e) "role")
  then Err ErrInvalidEdge else
  Ok tt.

Definition row_exists (table : string) (id pid : Z) (d : DepDB) : bool :=
  if decide (table = "hosts") then
    match hosts d !! id with Some r => h_project r =? pid | None => false end
  else match monitors d !! id with Some p => p =? pid | None => false end.

Definition checkOwnership (table : string) (id pid : Z) : DM () :=
  tryE: ex ← query ErrSQL (row_exists table id pid) catch e => mret (Err e);
  if (ex : bool) then mret (Ok tt) else mret (Err ErrForeignNode).

Definition check_opt (table : string) (p : option Z) (pid : Z) : DM () :=
  match p with Some id => checkOwnership table id pid | None => mret (Ok tt) end.

Definition checkNodesBelongToProject (e : Edge) : DM () :=
  chk: check_opt "hosts" (ParentHostID e) (ProjectID e);
  chk: check_opt "monitors" (ParentMonitorID e) (ProjectID e);
  chk: check_opt "hosts" (ChildHostID e) (ProjectID e);
  chk: check_opt "monitors" (ChildMonitorID e) (ProjectID e);
  mret (Ok tt).

(** [p != nil && q != nil && *p == *q] *)
Definition same_id (p q : option Z) : bool :=
  match p, q with Some a, Some b => a =? b | _, _ => false end.

Definition checkSelfLoop (e : Edge) : result dep_error () :=
  if same_id (ParentHostID e) (ChildHostID e) then Err ErrSelfLoop else
  if same_id (ParentMonitorID e) (ChildMonitorID e) then Err ErrSelfLoop else
  Ok tt.

Definition checkSelfMatch (e : Edge) : DM () :=
  match ChildLabelScope e, ChildLabelValue e, ParentHostID e with
  | Some scope, Some value, Some h =>
      tryE: row ← query ErrSQL (fun d => hosts d !! h) catch e => mret (Err e);
      match row with
      | None => mret (Err ErrSQL)
      | Some r =>
          let parentValue := if decide (scope = "env") then h_environment r
                             else if decide (scope = "role") then h_role r else "" in
          if decide (parentValue = value) then mret (Err ErrSelfMatch) else mret (Ok tt)
      end
  | _, _, _ => mret (Ok tt)
  end.

(** [IS NOT DISTINCT FROM] on every column but the id. *)
Definition same_edge (e r : Edge) : bool :=
  bool_decide (ProjectID r = ProjectID e /\
    ParentHostID r = ParentHostID e /\ ParentMonitorID r = ParentMonitorID e /\
    ChildHostID r = ChildHostID e /\ ChildMonitorID r = ChildMonitorID e /\
    ChildLabelScope r = ChildLabelScope e /\ ChildLabelValue r = ChildLabelValue e).

Definition checkDuplicate (e : Edge) (excludeID : Z) : DM () :=
  tryE: ex ← query ErrSQL (fun d => existsb (fun r => negb (ID r =? excludeID) && same_edge e r) (deps d))
    catch e => mret (Err e);
  if (ex : bool) then mret (Err ErrDuplicate) else mret (Ok tt).

(** ** The cycle check *)

(** The rows the check reads: explicit edges of the project but [excludeID]. *)
Definition cycle_rows (pid excludeID : Z) (d : DepDB) : list Edge :=
  List.filter (fun r => (ProjectID r =? pid) && negb (ID r =? excludeID)
    && (negb (is_nil (ChildHostID r)) || negb (is_nil (ChildMonitorID r)))) (deps d).

(** [adj] maps a node to the nodes appended to it, in order. *)
Definition adj_append (adj : gmap node (list node)) (p c : node) : gmap node (list node) :=
  <[p := default [] (adj !! p) ++ [c]]> adj.

Definition build_adj (rows : list Edge) : gmap node (list node) :=
  foldl (fun adj r => match parentNode r, childNode r with
                      | Some p, Some c => adj_append adj p c
                      | _, _ => adj
                      end) ∅ rows.

(** The inner loop: mark and enqueue the unvisited successors. *)
Definition bfs_push (acc : gset node * list node) (next : node) : gset node * list node :=
  let '(visited, queue) := acc in
  if decide (next ∈ visited) then (visited, queue) else ({[next]} ∪ visited, queue ++ [next]).

(** [true]: the walk from the child reached [target]. *)
Fixpoint bfs (fuel : nat) (adj : gmap node (list node)) (target : node)
    (visited : gset node) (queue : list node) : option bool :=
  match queue with
  | [] => Some false
  | cur :: queue =>
      match fuel with
      | O => None
      | S fuel =>
          if decide (cur = target) then Some true
          else let '(visited, queue) := foldl bfs_push (visited, queue) (default [] (adj !! cur)) in
               bfs fuel adj target visited queue
      end
  end.

(** Every node is dequeued at most once: the child and one node per edge. *)
Definition bfs_fuel (rows : list Edge) : nat := length rows + 2.

Definition reaches (rows : list Edge) (p c : node) : option bool :=
  bfs (bfs_fuel rows) (adj_append (build_adj rows) p c) p {[c]} [c].

Definition checkCycle (e : Edge) (excludeID : Z) : DM () :=
  if is_nil (ChildHostID e) && is_nil (ChildMonitorID e) then mret (Ok tt) else
  match parentNode e, childNode e with
  | Some p, Some c =>
      tryE: rows ← query ErrSQL (cycle_rows (ProjectID e) excludeID) catch e => mret (Err e);
      match reaches rows p c with
      | Some false => mret (Ok tt)
      | _ => mret (Err ErrCycle)
      end
  | _, _ => mret (Ok tt)
  end.

(** ** Operations *)

Definition with_id (e : Edge) (id : Z) : Edge :=
  mkEdge id (ProjectID e) (ParentHostID e) (ParentMonitorID e) (ChildHostID e) (ChildMonitorID e)
    (ChildLabelScope e) (ChildLabelValue e).

Definition Create (e : Edge) : DM Z :=
  transaction ErrSQL (
    chk: mret (validateShape e);
    chk: checkNodesBelongToProject e;
    chk: mret (checkSelfLoop e);
    chk: checkSelfMatch e;
    chk: checkDuplicate e 0;
    chk: checkCycle e 0;
    sql ErrSQL (fun d => (next_id d, bump_id (set_deps (fun l => l ++ [with_id e (next_id d)]) d)))).

Definition Update (e : Edge) : DM () :=
  transaction ErrSQL (
    chk: mret (validateShape e);
    tryE: locked ← query ErrSQL (fun d => existsb (fun r => (ID r =? ID e) && (ProjectID r =? ProjectID e)) (deps d))
      catch err => mret (Err err);
    if negb locked then mret (Err ErrNotFound) else
    chk: checkNodesBelongToProject e;
    chk: mret (checkSelfLoop e);
    chk: checkSelfMatch e;
    chk: checkDuplicate e (ID e);
    chk: checkCycle e (ID e);
    sql ErrSQL (fun d => (tt, set_deps (map (fun r =>
      if (ID r =? ID e) && (ProjectID r =? ProjectID e) then e else r)) d))).

Definition Delete (pid id : Z) : DM () :=
  sql ErrSQL (fun d => (tt, set_deps (List.filter (fun r =>
    negb ((ProjectID r =? pid) && (ID r =? id)))) d)).

(** ** The cached snapshot *)

Definition cacheTTL : Z := 5 * second.

Definition down_set (ids : list Z) : gmap Z bool := foldr (fun id m => <[id := true]> m) ∅ ids.

Definition loadDownHosts (d : DepDB) : gmap Z bool :=
  down_set (map hi_host (List.filter (fun i => hi_open i && bool_decide (hi_kind i = "silent")) (host_incidents d))).

Definition loadDownMonitors (d : DepDB) : gmap Z bool :=
  down_set (map ui_monitor (List.filter (fun i => negb (ui_resolved i)) (incidents d))).

Definition loadHostLabels (d : DepDB) : gmap Z hostLabels :=
  (fun r => HostLabels (h_project r) (h_environment r) (h_role r)) <$> hosts d.

Definition loadSnapshot : DM snapshot :=
  tryE: es ← query ErrSQL deps catch e => mret (Err e);
  tryE: dh ← query ErrSQL loadDownHosts catch e => mret (Err e);
  tryE: dm ← query ErrSQL loadDownMonitors catch e => mret (Err e);
  tryE: ls ← query ErrSQL loadHostLabels catch e => mret (Err e);
  now ← gets clock;
  mret (Ok (Snapshot es dh dm ls now)).

Definition fresh (c : option snapshot) (now : Z) : bool :=
  match c with Some s => now - loadedAt s <? cacheTTL | None => false end.

Lemma cacheTTL_pos : 0 < cacheTTL.
Proof. reflexivity. Qed.

Lemma fresh_Some s now : fresh (Some s) now = true <-> now - loadedAt s < cacheTTL.
Proof. apply Z.ltb_lt. Qed.

(** The second critical section of [getSnapshot]: publish the snapshot unless
    a newer one is there. *)
Definition publish (snap : snapshot) (c : option snapshot) : option snapshot :=
  match c with
  | Some s => if loadedAt s <? loadedAt snap then Some snap else Some s
  | None => Some snap
  end.

Definition getSnapshot : DM snapshot :=
  c ← gets cache;
  now ← gets clock;
  match c with
  | Some s =>
      if fresh c now then mret (Ok s) else
      tryE: snap ← loadSnapshot catch e => mret (Err e);
      _ ← modify (fun d => set_cache (publish snap (cache d)) d);
      mret (Ok snap)
  | None =>
      tryE: snap ← loadSnapshot catch e => mret (Err e);
      _ ← modify (fun d => set_cache (publish snap (cache d)) d);
      mret (Ok snap)
  end.

Definition Invalidate : M DepDB () := modify (set_cache None).

Definition HasParent (k : string) (nodeID : Z) : DM bool :=
  tryE: snap ← getSnapshot catch e => mret (Err e);
  mret (Ok (0 <? Z.of_nat (length (matchingParents snap k nodeID)))).

(** The walks never run out of fuel ([parentDown_correct],
    [downRoot_correct]), so the default is never used. *)
Definition ParentDown (k : string) (nodeID : Z) : DM bool :=
  tryE: snap ← getSnapshot catch e => mret (Err e);
  mret (Ok (default false (parentDownFromSnapshot snap (Node k nodeID)))).

Definition DownRoot (k : string) (nodeID : Z) : DM (option node) :=
  tryE: snap ← getSnapshot catch e => mret (Err e);
  mret (Ok (default None (downRootFromSnapshot snap (Node k nodeID)))).

Definition DeclaredChildrenCount (k : string) (nodeID : Z) : DM Z :=
  tryE: snap ← getSnapshot catch e => mret (Err e);
  mret (Ok (Z.of_nat (declaredChildrenFromSnapshot snap (Node k nodeID)))).

Definition incident_node (source : string) (incidentID : Z) (d : DepDB) : option node :=
  if decide (source = "host") then
    (fun i => Node "host" (hi_host i)) <$> List.find (fun i => hi_id i =? incidentID) (host_incidents d)
  else
    (fun i => Node "monitor" (ui_monitor i)) <$> List.find (fun i => ui_id i =? incidentID) (incidents d).

(** [hasParent, parentDown] *)
Definition CheckIncident (source : string) (incidentID : Z) : DM (bool * bool) :=
  if decide (source = "host" \/ source = "uptime") then
    tryE: row ← query ErrSQL (incident_node source incidentID) catch e => mret (Err e);
    match row with
    | None => mret (Ok (false, false))
    | Some n =>
        tryE: hasParent ← HasParent (kind n) (nid n) catch e => mret (Err e);
        tryE: parentDown ← ParentDown (kind n) (nid n) catch e => mret (Err e);
        mret (Ok (hasParent, parentDown))
    end
  else mret (Err ErrUnknownSource).

Definition MarkSuppressed (source : string) (incidentID : Z) : DM () :=
  if decide (source <> "host") then mret (Ok tt) else
  sql ErrSQL (fun d => (tt, set_host_incidents (map (fun i =>
    if hi_id i =? incidentID
    then HostIncident (hi_id i) (hi_host i) (hi_kind i) (hi_open i) true else i)) d)).

(** ** The graph of explicit edges *)

Definition explicit_rel (rows : list Edge) (p c : node) : Prop :=
  exists r, r ∈ rows /\ parentNode r = Some p /\ childNode r = Some c.

(** The graph of one project. *)
Definition project_edges (pid : Z) (l : list Edge) : list Edge :=
  List.filter (fun r => ProjectID r =? pid) l.

Definition acyclic (R : relation node) : Prop := forall n, ~ tc R n n.

Definition add_edge (R : relation node) (p c : node) : relation node :=
  fun x y => R x y \/ (x = p /\ y = c).

Lemma tc_add_edge (R : relation node) p c x y :
  tc (add_edge R p c) x y ->
  tc R x y \/ (rtc (add_edge R p c) x p /\ rtc (add_edge R p c) c y).
Proof.
  induction 1 as [x y [H|[-> ->]]|x y z [H|[-> ->]] Hyz IH].
  - left. by apply tc_once.
  - right. by split; constructor.
  - destruct IH as [IH|[IH1 IH2]]; [left; by eapply tc_l|right].
    split; [|done]. eapply rtc_l; [by left|done].
  - right. split; [constructor|]. by apply tc_rtc.
Qed.

Lemma acyclic_add_edge (R : relation node) p c :
  acyclic R -> ~ rtc (add_edge R p c) c p -> acyclic (add_edge R p c).
Proof.
  intros Ha Hn n [Hn'|[H1 H2]]%tc_add_edge; [by eapply Ha|]. apply Hn. by etrans.
Qed.

Lemma acyclic_sub (R R' : relation node) :
  (forall x y, R' x y -> R x y) -> acyclic R -> acyclic R'.
Proof.
  intros Hs Ha n Hn. apply (Ha n). clear Ha. revert Hn. generalize n at 2 4. intros m.
  induction 1; [by apply tc_once, Hs|eapply tc_l; eauto].
Qed.

(** *** The adjacency map is the relation of its rows *)

Definition adj_rel (adj : gmap node (list node)) : relation node :=
  fun p c => c ∈ default [] (adj !! p).

Lemma adj_append_rel adj p c x y :
  adj_rel (adj_append adj p c) x y <-> add_edge (adj_rel adj) p c x y.
Proof.
  unfold adj_rel, adj_append, add_edge. destruct (decide (x = p)) as [->|Hne].
  - rewrite lookup_insert_eq. simpl. rewrite elem_of_app, list_elem_of_singleton. naive_solver.
  - rewrite lookup_insert_ne by done. naive_solver.
Qed.

Lemma build_adj_rel rows x y : adj_rel (build_adj rows) x y <-> explicit_rel rows x y.
Proof.
  unfold build_adj, explicit_rel. induction rows as [|r rows IH] using rev_ind; simpl.
  - unfold adj_rel. rewrite lookup_empty. simpl. setoid_rewrite elem_of_nil. naive_solver.
  - rewrite foldl_app. simpl. setoid_rewrite elem_of_app. setoid_rewrite list_elem_of_singleton.
    destruct (parentNode r) eqn:Hp, (childNode r) eqn:Hc;
      try (rewrite IH; clear IH; naive_solver).
    rewrite adj_append_rel. unfold add_edge. rewrite IH. clear IH. naive_solver.
Qed.

(** *** The breadth-first walk *)

Lemma bfs_push_spec nexts visited queue visited' queue' :
  foldl bfs_push (visited, queue) nexts = (visited', queue') ->
  exists added, queue' = queue ++ added /\
    (forall x, x ∈ visited' <-> x ∈ visited \/ x ∈ nexts) /\
    (forall x, x ∈ added -> x ∈ nexts /\ x ∈ visited') /\
    (forall x, x ∈ visited' -> x ∈ visited \/ x ∈ added) /\
    (forall U : gset node, (forall x, x ∈ nexts -> x ∈ U) ->
       (size (U ∖ visited') + length added <= size (U ∖ visited))%nat).
Proof.
  revert visited queue. induction nexts as [|n nexts IH]; intros visited queue; simpl.
  { intros [= <- <-]. exists []. rewrite app_nil_r. split_and!; try done; try naive_solver.
    - intros x. rewrite elem_of_nil. tauto.
    - intros x. rewrite elem_of_nil. tauto.
    - intros U _. simpl. lia. }
  case_decide as Hn; intros H; apply IH in H as (added & -> & Hv & Ha & Hb & Hsz); clear IH.
  - exists added. split_and!; [done| |set_solver|done|].
    + intros x. rewrite Hv, elem_of_cons. naive_solver.
    + intros U HU. apply Hsz. intros x Hx. apply HU, elem_of_cons. by right.
  - exists (n :: added). rewrite <- app_assoc. split_and!; [done| | | |].
    + intros x. rewrite Hv, elem_of_union, elem_of_singleton, elem_of_cons. tauto.
    + intros x [->|Hx]%elem_of_cons.
      * split; [apply elem_of_cons; by left|]. apply Hv. left. set_solver.
      * destruct (Ha x Hx). split; [apply elem_of_cons; by right|done].
    + intros x Hx. rewrite elem_of_cons. destruct (Hb x Hx) as [Hx'|]; [|tauto].
      apply elem_of_union in Hx' as [->%elem_of_singleton|]; tauto.
    + intros U HU. specialize (Hsz U). simpl.
      pose proof (size_difference_insert U visited n (HU n ltac:(set_solver)) Hn).
      assert (size (U ∖ visited') + length added <= size (U ∖ ({[n]} ∪ visited)))%nat; [|lia].
      apply Hsz. intros x Hx. apply HU, elem_of_cons. by right.
Qed.

Section bfs.
Context (adj : gmap node (list node)) (target : node).

Lemma bfs_total (U : gset node) fuel visited queue :
  (forall x y, adj_rel adj x y -> y ∈ U) ->
  (length queue + size (U ∖ visited) <= fuel)%nat ->
  is_Some (bfs fuel adj target visited queue).
Proof.
  intros HU. revert visited queue.
  induction fuel as [|fuel IH]; intros visited [|cur queue] Hm; simpl in *; eauto; [lia|].
  case_decide; [eauto|].
  destruct (foldl bfs_push (visited, queue) _) as [visited' queue'] eqn:Hpush.
  apply bfs_push_spec in Hpush as (added & -> & _ & _ & _ & Hsz).
  apply IH. rewrite length_app. specialize (Hsz U (HU cur)). lia.
Qed.

(** When the walk ends without meeting the target, what it visited is a set
    closed under the edges that does not hold the target. *)
Lemma bfs_false fuel visited queue :
  (forall x, x ∈ queue -> x ∈ visited) ->
  (forall x, x ∈ visited -> x ∈ queue \/ (x <> target /\ forall y, adj_rel adj x y -> y ∈ visited)) ->
  bfs fuel adj target visited queue = Some false ->
  exists V : gset node, visited ⊆ V /\ (target ∉ V) /\ forall x y, x ∈ V -> adj_rel adj x y -> y ∈ V.
Proof.
  revert visited queue.
  induction fuel as [|fuel IH]; intros visited [|cur queue] Hq Hv Hb; simpl in Hb; try done.
  1, 2: exists visited; split_and!; [done| |];
    [intros Ht; by destruct (Hv _ Ht) as [?%elem_of_nil|[]]
    |intros x y Hx Hxy; destruct (Hv _ Hx) as [?%elem_of_nil|[]]; eauto; done].
  case_decide as Hcur; [done|].
  destruct (foldl bfs_push (visited, queue) _) as [visited' queue'] eqn:Hpush.
  apply bfs_push_spec in Hpush as (added & -> & Hv' & Ha & Hb' & _).
  apply IH in Hb as (V & HV & ? & ?); clear IH.
  - exists V. split_and!; [|done|done]. intros x Hx. apply HV, Hv'. by left.
  - intros x [Hx|Hx]%elem_of_app; [|by apply Ha].
    apply Hv'. left. apply Hq, elem_of_cons. by right.
  - intros x Hx. rewrite elem_of_app. destruct (Hb' _ Hx) as [Hx'|Hx']; [|tauto].
    destruct (Hv _ Hx') as [[->|]%elem_of_cons|[? Hcl]].
    + right. split; [done|]. intros y Hy. apply Hv'. by right.
    + tauto.
    + right. split; [done|]. intros y Hy. apply Hv'. left. by apply Hcl.
Qed.
End bfs.

(** The cycle check is total, and lets an edge pass only when its parent
    cannot be reached from its child in the graph with the edge added. *)
Lemma reaches_total rows p c : is_Some (reaches rows p c).
Proof.
  unfold reaches, bfs_fuel.
  apply (bfs_total _ _ ({[c]} ∪ list_to_set (omap childNode rows))).
  - intros x y Hxy%adj_append_rel. destruct Hxy as [Hxy|[-> ->]]; [|set_solver].
    apply build_adj_rel in Hxy as (r & Hr & _ & Hc).
    apply elem_of_union. right. apply elem_of_list_to_set, list_elem_of_omap. eauto.
  - simpl. assert (size (({[c]} ∪ list_to_set (omap childNode rows)) ∖ {[c]})
      <= size (list_to_set (omap childNode rows) : gset node))%nat by (apply subseteq_size; set_solver).
    pose proof (list_to_set_size_le (omap childNode rows)).
    pose proof (length_omap_le childNode rows). lia.
Qed.

Lemma reaches_false rows p c :
  reaches rows p c = Some false -> ~ rtc (add_edge (explicit_rel rows) p c) c p.
Proof.
  unfold reaches. intros (V & HV & Ht & Hcl)%bfs_false Hr.
  - apply Ht. eapply (rtc_closed _ (fun x => x ∈ V) c p); [|by apply HV, elem_of_singleton|exact Hr].
    intros x y Hx Hxy. eapply Hcl; [done|]. apply adj_append_rel. unfold add_edge in *.
    by rewrite build_adj_rel.
  - set_solver.
  - set_solver.
Qed.

(** ** The store invariant *)

Definition opt_owned (table : string) (p : option Z) (pid : Z) (d : DepDB) : Prop :=
  forall id, p = Some id -> row_exists table id pid d = true.

(** Every explicit node of the edge is a row of the edge's project. *)
Record edge_owned (d : DepDB) (e : Edge) : Prop := {
  owned_ph : opt_owned "hosts" (ParentHostID e) (ProjectID e) d;
  owned_pm : opt_owned "monitors" (ParentMonitorID e) (ProjectID e) d;
  owned_ch : opt_owned "hosts" (ChildHostID e) (ProjectID e) d;
  owned_cm : opt_owned "monitors" (ChildMonitorID e) (ProjectID e) d }.

Record store_wf (d : DepDB) : Prop := {
  wf_shape : forall e, e ∈ deps d -> validateShape e = Ok tt;
  wf_owned : forall e, e ∈ deps d -> edge_owned d e;
  wf_ids : forall e, e ∈ deps d -> 0 < ID e;
  wf_next : 0 < next_id d;
  wf_acyclic : forall pid, acyclic (explicit_rel (project_edges pid (deps d))) }.

(** One call of the store, with whatever faults its statements meet. *)
Inductive store_op := OpCreate (e : Edge) | OpUpdate (e : Edge) | OpDelete (pid id : Z).

Definition exec_op (o : store_op) (fs : list fault) (d : DepDB) : DepDB :=
  match o with
  | OpCreate e => db (run (Create e) d fs).2
  | OpUpdate e => db (run (Update e) d fs).2
  | OpDelete pid id => db (run (Delete pid id) d fs).2
  end.

Lemma elem_of_project_edges pid l e : e ∈ project_edges pid l <-> e ∈ l /\ ProjectID e = pid.
Proof.
  unfold project_edges. rewrite !list_elem_of_In, filter_In, Z.eqb_eq. done.
Qed.

Lemma elem_of_filter_bool {A} (f : A -> bool) (l : list A) x :
  x ∈ List.filter f l <-> x ∈ l /\ f x = true.
Proof. by rewrite !list_elem_of_In, filter_In. Qed.

Lemma checkOwnership_ok table id pid s s' :
  checkOwnership table id pid s = (Ok tt, s') ->
  row_exists table id pid (db s) = true /\ db s' = db s.
Proof.
  unfold checkOwnership. intros H. go_ok H. destruct (row_exists _ _ _ _) eqn:Hr; go_ok H. done.
Qed.

Lemma check_opt_ok table p pid s s' :
  check_opt table p pid s = (Ok tt, s') -> opt_owned table p pid (db s) /\ db s' = db s.
Proof.
  unfold check_opt, opt_owned. destruct p as [id|].
  - intros [H ->]%checkOwnership_ok. split; [|done]. by intros ? [= <-].
  - intros H. go_ok H. split; [|done]. intros ? [=].
Qed.

Lemma checkNodes_ok e s s' :
  checkNodesBelongToProject e s = (Ok tt, s') -> edge_owned (db s) e /\ db s' = db s.
Proof.
  unfold checkNodesBelongToProject. intros H.
  apply try_ok in H as ([] & s1 & [H1 E1]%check_opt_ok & H).
  apply try_ok in H as ([] & s2 & [H2 E2]%check_opt_ok & H).
  apply try_ok in H as ([] & s3 & [H3 E3]%check_opt_ok & H).
  apply try_ok in H as ([] & s4 & [H4 E4]%check_opt_ok & H).
  apply mret_ok in H as [_ ->].
  rewrite E1 in *. rewrite E2 in *. rewrite E3 in *. split; [by constructor|congruence].
Qed.

Lemma checkSelfMatch_db e s s' : checkSelfMatch e s = (Ok tt, s') -> db s' = db s.
Proof.
  unfold checkSelfMatch.
  destruct (ChildLabelScope e), (ChildLabelValue e), (ParentHostID e); try (intros H; by go_ok H).
  intros H. apply try_ok in H as (row & st1 & [-> <-]%query_ok & H).
  destruct (hosts _ !! _); [|by go_ok H]. case_decide; by go_ok H.
Qed.

Lemma checkDuplicate_ok e ex s s' :
  checkDuplicate e ex s = (Ok tt, s') ->
  (forall r, r ∈ deps (db s) -> ID r <> ex -> same_edge e r = false) /\ db s' = db s.
Proof.
  unfold checkDuplicate. intros H. apply try_ok in H as (b & s1 & [-> Hdb]%query_ok & H).
  destruct (existsb _ _) eqn:Hex; [by go_ok H|]. apply mret_ok in H as [_ ->]. split; [|done].
  intros r Hr Hne. apply not_true_is_false. intros Hs.
  apply not_true_iff_false in Hex. apply Hex, existsb_exists. exists r.
  split; [by apply list_elem_of_In|]. rewrite Hs.
  by rewrite (proj2 (Z.eqb_neq _ _) Hne).
Qed.

(** The graph the check reads, and what it lets through. *)
Lemma checkCycle_ok e ex s s' :
  checkCycle e ex s = (Ok tt, s') ->
  db s' = db s /\
  forall p c, parentNode e = Some p -> childNode e = Some c ->
    ~ rtc (add_edge (explicit_rel (cycle_rows (ProjectID e) ex (db s))) p c) c p.
Proof.
  unfold checkCycle. intros H. unfold childNode, nodeFromIDs.
  destruct (ChildHostID e) as [ch|] eqn:Hch, (ChildMonitorID e) as [cm|] eqn:Hcm; simpl in H;
    try (go_ok H; by split);
    (destruct (parentNode e) as [p|]; [|go_ok H; by split]).
  all: unfold childNode, nodeFromIDs in H; rewrite Hch, ?Hcm in H; simpl in H.
  all: apply try_ok in H as (rows & s1 & [-> Hdb]%query_ok & H).
  all: destruct (reaches _ _ _) as [[]|] eqn:Hr; [by go_ok H| |by go_ok H].
  all: apply mret_ok in H as [_ ->]; split; [done|].
  all: intros p' c' [= <-] [= <-]; by apply reaches_false.
Qed.

(** The rows left out of the check apart, its graph is the project's. *)
Lemma cycle_rows_rel pid ex d x y :
  explicit_rel (cycle_rows pid ex d) x y <->
  exists r, r ∈ deps d /\ ProjectID r = pid /\ ID r <> ex /\ parentNode r = Some x /\ childNode r = Some y.
Proof.
  unfold explicit_rel, cycle_rows. split; intros (r & Hr).
  - exists r. destruct Hr as (Hr & ? & ?). apply elem_of_filter_bool in Hr as [? Hr].
    rewrite !andb_true_iff, negb_true_iff, Z.eqb_eq, Z.eqb_neq in Hr. naive_solver.
  - exists r. destruct Hr as (Hr & Hp & Hid & Hpar & Hc). split_and!; [|done|done].
    apply elem_of_filter_bool. split; [done|].
    rewrite !andb_true_iff, negb_true_iff, Z.eqb_eq, Z.eqb_neq. split_and!; [done|done|].
    unfold childNode, nodeFromIDs in Hc. by destruct (ChildHostID r), (ChildMonitorID r).
Qed.

(** Adding to, or replacing in, the table an edge the check let through keeps
    every project's graph acyclic. *)
Lemma check_keeps_acyclic d e ex l' :
  (forall pid, acyclic (explicit_rel (project_edges pid (deps d)))) ->
  (forall p c, parentNode e = Some p -> childNode e = Some c ->
     ~ rtc (add_edge (explicit_rel (cycle_rows (ProjectID e) ex d)) p c) c p) ->
  (forall r, r ∈ l' ->
     (r ∈ deps d /\ (ID r <> ex \/ ProjectID r <> ProjectID e)) \/
     (ProjectID r = ProjectID e /\ parentNode r = parentNode e /\ childNode r = childNode e)) ->
  forall pid, acyclic (explicit_rel (project_edges pid l')).
Proof.
  intros Hac Hchk Hl pid.
  assert (acyclic (explicit_rel (cycle_rows (ProjectID e) ex d))) as Hrows.
  { eapply acyclic_sub; [|apply (Hac (ProjectID e))].
    intros x y (r & ? & ? & _ & ? & ?)%cycle_rows_rel. exists r.
    by rewrite elem_of_project_edges. }
  assert (forall x y, explicit_rel (project_edges pid l') x y ->
    (pid = ProjectID e /\ explicit_rel (cycle_rows (ProjectID e) ex d) x y) \/
    explicit_rel (project_edges pid (deps d)) x y /\ pid <> ProjectID e \/
    (pid = ProjectID e /\ parentNode e = Some x /\ childNode e = Some y)) as Hsplit.
  { intros x y (r & [Hr Hpid]%elem_of_project_edges & Hx & Hy).
    destruct (Hl r Hr) as [[Hin Hor]|(Hp & <- & <-)]; [|right; right; by rewrite Hx, Hy, <- Hp, Hpid].
    destruct (decide (pid = ProjectID e)) as [->|Hne].
    - left. split; [done|]. apply cycle_rows_rel. exists r. naive_solver.
    - right. left. split; [|done]. exists r. by rewrite elem_of_project_edges. }
  destruct (decide (pid = ProjectID e)) as [->|Hne];
    [|eapply acyclic_sub; [|apply (Hac pid)]; intros x y [[? _]|[[? _]|(? & _)]]%Hsplit; done].
  destruct (parentNode e) as [p|] eqn:Hp, (childNode e) as [c|] eqn:Hc;
    try (eapply acyclic_sub; [|exact Hrows]; intros x y [[_ ?]|[[_ ?]|(_ & ? & ?)]]%Hsplit; done).
  eapply acyclic_sub; [|apply (acyclic_add_edge (explicit_rel (cycle_rows (ProjectID e) ex d)) p c);
    [exact Hrows|by apply Hchk]].
  intros x y [[_ ?]|[[_ ?]|(_ & ? & ?)]]%Hsplit; [by left|done|]. right. by simplify_eq.
Qed.

Lemma edge_owned_same d d' e :
  hosts d' = hosts d -> monitors d' = monitors d -> edge_owned d e -> edge_owned d' e.
Proof.
  intros Hh Hm [? ? ? ?]. constructor; unfold opt_owned, row_exists in *; rewrite Hh, Hm; done.
Qed.

(** The shared shape of [Create] and [Update]: the checks passed on [d]. *)
Definition checked (e : Edge) (ex : Z) (d : DepDB) : Prop :=
  validateShape e = Ok tt /\ edge_owned d e /\
  (forall r, r ∈ deps d -> ID r <> ex -> same_edge e r = false) /\
  (forall p c, parentNode e = Some p -> childNode e = Some c ->
     ~ rtc (add_edge (explicit_rel (cycle_rows (ProjectID e) ex d)) p c) c p).

Lemma checks_ok {A} e ex (k : M DepDB (result dep_error A)) s a s' :
  (chk: checkNodesBelongToProject e; chk: mret (checkSelfLoop e); chk: checkSelfMatch e;
   chk: checkDuplicate e ex; chk: checkCycle e ex; k) s = (Ok a, s') ->
  validateShape e = Ok tt ->
  checked e ex (db s) /\ exists s1, db s1 = db s /\ k s1 = (Ok a, s').
Proof.
  intros H Hshape.
  apply try_ok in H as ([] & s1 & [H1 E1]%checkNodes_ok & H).
  apply try_ok in H as ([] & s2 & [_ ->]%mret_ok & H).
  apply try_ok in H as ([] & s3 & E3%checkSelfMatch_db & H).
  apply try_ok in H as ([] & s4 & [H4 E4]%checkDuplicate_ok & H).
  apply try_ok in H as ([] & s5 & [E5 H5]%checkCycle_ok & H).
  rewrite E4, E3, E1 in H5. rewrite E3, E1 in H4.
  split; [by split_and!|]. exists s5. split; [congruence|done].
Qed.

Lemma Create_effect e fs d :
  db (run (Create e) d fs).2 = d \/
  checked e 0 d /\ db (run (Create e) d fs).2 =
    bump_id (set_deps (fun l => l ++ [with_id e (next_id d)]) d).
Proof.
  unfold run, Create. destruct (transaction _ _ _) as [r s'] eqn:H. simpl.
  apply transaction_cases in H as [->|(s1 & a & s2 & Hd & H & ->)]; [by left|right].
  apply try_ok in H as ([] & s3 & [Hsh ->]%mret_ok & H).
  apply checks_ok in H as [Hc (s4 & Hs4 & H%sql_ok)]; [|done].
  rewrite Hd in Hc. split; [done|]. rewrite Hs4, Hd in H. by injection H.
Qed.

Lemma Update_effect e fs d :
  db (run (Update e) d fs).2 = d \/
  checked e (ID e) d /\
  (exists r, r ∈ deps d /\ ID r = ID e /\ ProjectID r = ProjectID e) /\
  db (run (Update e) d fs).2 = set_deps (map (fun r =>
    if (ID r =? ID e) && (ProjectID r =? ProjectID e) then e else r)) d.
Proof.
  unfold run, Update. destruct (transaction _ _ _) as [r s'] eqn:H. simpl.
  apply transaction_cases in H as [->|(s1 & a & s2 & Hd & H & ->)]; [by left|right].
  apply try_ok in H as ([] & s3 & [Hsh ->]%mret_ok & H).
  apply try_ok in H as (locked & s4 & [-> Hq]%query_ok & H).
  destruct (existsb _ _) eqn:Hlk; simpl in H; [|by go_ok H].
  apply checks_ok in H as [Hc (s5 & Hs5 & H%sql_ok)]; [|done].
  rewrite Hq, Hd in Hc. rewrite Hd in Hlk. split_and!; [done| |].
  - apply existsb_exists in Hlk as (r0 & Hr0 & [?%Z.eqb_eq ?%Z.eqb_eq]%andb_true_iff).
    exists r0. by rewrite list_elem_of_In.
  - rewrite Hs5, Hq, Hd in H. by injection H.
Qed.

Lemma Create_wf e fs d : store_wf d -> store_wf (db (run (Create e) d fs).2).
Proof.
  intros [Hsh How Hid Hnx Hac].
  destruct (Create_effect e fs d) as [->|[(Hs & Ho & _ & Hcy) ->]]; [by constructor|].
  assert (forall r, r ∈ deps d ++ [with_id e (next_id d)] -> r ∈ deps d \/ r = with_id e (next_id d)) as Hin.
  { intros r [?|?%list_elem_of_singleton]%elem_of_app; auto. }
  constructor; simpl; [| | |lia|].
  - intros r [?| ->]%Hin; [auto|]. exact Hs.
  - intros r Hr%Hin. eapply (edge_owned_same d); [done|done|]. destruct Hr as [?| ->]; [auto|by destruct Ho].
  - intros r [?| ->]%Hin; auto.
  - eapply (check_keeps_acyclic d e 0); [done|done|].
    intros r [Hr| ->]%Hin; [left|by right]. split; [done|]. left. specialize (Hid _ Hr). lia.
Qed.

Lemma Update_wf e fs d : store_wf d -> store_wf (db (run (Update e) d fs).2).
Proof.
  intros [Hsh How Hid Hnx Hac].
  destruct (Update_effect e fs d) as [->|((Hs & Ho & _ & Hcy) & (r0 & Hr0 & Hr0id & _) & ->)]; [by constructor|].
  assert (forall r, r ∈ deps (set_deps (map (fun r =>
    if (ID r =? ID e) && (ProjectID r =? ProjectID e) then e else r)) d) ->
    r = e \/ r ∈ deps d /\ (ID r <> ID e \/ ProjectID r <> ProjectID e)) as Hin.
  { simpl. intros r (r' & -> & Hr')%list_elem_of_fmap.
    destruct (Z.eqb_spec (ID r') (ID e)), (Z.eqb_spec (ProjectID r') (ProjectID e)); simpl; auto. }
  constructor; simpl; [| | |done|].
  - intros r [->|[? _]]%Hin; [exact Hs|auto].
  - intros r Hr%Hin. eapply (edge_owned_same d); [done|done|]. destruct Hr as [->|[? _]]; auto.
  - intros r [->|[? _]]%Hin; [|auto]. rewrite <- Hr0id. auto.
  - eapply (check_keeps_acyclic d e (ID e)); [done|done|]. intros r [->|?]%Hin; [by right|by left].
Qed.

Lemma Delete_wf pid id fs d : store_wf d -> store_wf (db (run (Delete pid id) d fs).2).
Proof.
  intros [Hsh How Hid Hnx Hac].
  assert (exists f, db (run (Delete pid id) d fs).2 = set_deps (List.filter f) d \/
                    db (run (Delete pid id) d fs).2 = d) as [f [Hd| ->]]; [|rewrite Hd|by constructor].
  { eexists. unfold run, Delete, sql. destruct fs as [|[] fs]; simpl; by auto. }
  assert (forall r, r ∈ List.filter f (deps d) -> r ∈ deps d) as Hin by (intros r ?%elem_of_filter_bool; tauto).
  constructor; simpl; auto.
  - intros r ?%Hin. eapply (edge_owned_same d); auto.
  - intros p. eapply acyclic_sub; [|apply (Hac p)]. intros x y (r & Hr & ? & ?). exists r.
    apply elem_of_project_edges in Hr as [?%Hin ?]. by rewrite elem_of_project_edges.
Qed.

(** whatever faults the statements meet, each call of [Create], [Update]
    and [Delete] keeps the store well formed: every edge has a valid shape and
    refers only to nodes of its own project, and the graph of explicit edges
    of every project stays acyclic. *)
Theorem store_wf_preserved (o : store_op) (fs : list fault) (d : DepDB) :
  store_wf d -> store_wf (exec_op o fs d).
Proof. destruct o; simpl; auto using Create_wf, Update_wf, Delete_wf. Qed.

(** ** Tenant isolation *)

Definition node_project (d : DepDB) (n : node) : option Z :=
  if decide (kind n = "host") then h_project <$> hosts d !! nid n
  else if decide (kind n = "monitor") then monitors d !! nid n
  else None.

(** The snapshot shows the tables of [d]. *)
Definition snapshot_of (d : DepDB) (snap : snapshot) : Prop :=
  edges snap = deps d /\ labels snap = loadHostLabels d.

Lemma row_exists_host d id pid :
  row_exists "hosts" id pid d = true -> node_project d (Node "host" id) = Some pid.
Proof.
  unfold row_exists, node_project. simpl. destruct (hosts d !! id); [|done].
  simpl. by intros ->%Z.eqb_eq.
Qed.

Lemma row_exists_monitor d id pid :
  row_exists "monitors" id pid d = true -> node_project d (Node "monitor" id) = Some pid.
Proof.
  unfold row_exists, node_project. simpl. destruct (monitors d !! id); [|done].
  simpl. by intros ->%Z.eqb_eq.
Qed.

Lemma owned_parent d e p :
  edge_owned d e -> parentNode e = Some p -> node_project d p = Some (ProjectID e).
Proof.
  intros [Hph Hpm _ _]. unfold parentNode, nodeFromIDs.
  destruct (ParentHostID e) as [h|]; [intros [= <-]; by apply row_exists_host, Hph|].
  destruct (ParentMonitorID e) as [m|]; [intros [= <-]; by apply row_exists_monitor, Hpm|done].
Qed.

Lemma matched_child_project d snap e k id :
  edge_owned d e -> snapshot_of d snap -> edgeMatchesChild e snap k id = true ->
  node_project d (Node k id) = Some (ProjectID e).
Proof.
  intros [_ _ Hch Hcm] [_ Hl]. unfold edgeMatchesChild.
  case_decide as Hk; [subst k|case_decide as Hk2; [subst k|done]].
  - destruct (ChildHostID e) as [h|].
    { intros ->%bool_decide_eq_true. by apply row_exists_host, Hch. }
    destruct (ChildLabelScope e), (ChildLabelValue e); try done.
    destruct (labels snap !! id) as [lbl|] eqn:Hlbl; [|done].
    rewrite Hl in Hlbl. unfold loadHostLabels in Hlbl. rewrite lookup_fmap in Hlbl.
    destruct (hosts d !! id) as [row|] eqn:Hrow; simplify_eq/=.
    case_decide as Hp; [|done]. intros _. unfold node_project. simpl. rewrite Hrow. simpl. by f_equal.
  - intros Hm%ptr_is_true. by apply row_exists_monitor, Hcm.
Qed.

Lemma up_same_project d snap a b :
  store_wf d -> snapshot_of d snap -> up snap a b ->
  exists pid, node_project d a = Some pid /\ node_project d b = Some pid.
Proof.
  intros Hwf Hs (e & He & Hp)%list_elem_of_omap.
  unfold matchingParents in He. apply elem_of_filter_bool in He as [Hin Hm].
  rewrite (proj1 Hs) in Hin. pose proof (wf_owned _ Hwf _ Hin) as How.
  exists (ProjectID e). destruct (isSelfMatchParent _ _ _); [done|]. split.
  - destruct a. by eapply matched_child_project.
  - destruct (parentIsDown e snap); [|done]. by eapply owned_parent.
Qed.

Lemma outage_root_same_project d snap a r :
  store_wf d -> snapshot_of d snap -> outage_root snap a r -> node_project d r = node_project d a.
Proof.
  intros Hwf Hs [Htc _]. induction Htc as [x y Hxy|x y z Hxy _ IH];
    destruct (up_same_project d snap x y Hwf Hs Hxy) as (pid & Hx & Hy); congruence.
Qed.

(** ** The snapshot a decision sees *)

Lemma loadSnapshot_ok s snap s' :
  loadSnapshot s = (Ok snap, s') ->
  snapshot_of (db s) snap /\ loadedAt snap = clock (db s) /\ db s' = db s.
Proof.
  unfold loadSnapshot. intros H.
  apply try_ok in H as (es & s1 & [-> E1]%query_ok & H).
  apply try_ok in H as (dh & s2 & [-> E2]%query_ok & H).
  apply try_ok in H as (dm & s3 & [-> E3]%query_ok & H).
  apply try_ok in H as (ls & s4 & [-> E4]%query_ok & H).
  apply bind_inv in H as (now & s5 & [= <- <-] & [[= <-] ->]%mret_ok).
  unfold snapshot_of. simpl. rewrite E4, E3, E2, E1. done.
Qed.

(** A successful [getSnapshot] either serves the fresh cache and changes
    nothing, or loads the current tables and publishes them. *)
Lemma getSnapshot_ok s snap s' :
  getSnapshot s = (Ok snap, s') ->
  (cache (db s) = Some snap /\ fresh (cache (db s)) (clock (db s)) = true /\ s' = s) \/
  (fresh (cache (db s)) (clock (db s)) = false /\ snapshot_of (db s) snap /\
   loadedAt snap = clock (db s) /\ db s' = set_cache (publish snap (cache (db s))) (db s)).
Proof.
  unfold getSnapshot. intros H.
  apply bind_inv in H as (c & s1 & [= <- <-] & H).
  apply bind_inv in H as (now & s1 & [= <- <-] & H).
  assert (forall t, (tryE: snap ← loadSnapshot catch e => mret (Err e);
      _ ← modify (fun d => set_cache (publish snap (cache d)) d); mret (Ok snap)) s = (Ok snap, t) ->
    snapshot_of (db s) snap /\ loadedAt snap = clock (db s) /\
    db t = set_cache (publish snap (cache (db s))) (db s)) as Hload.
  { intros t Ht. apply try_ok in Ht as (sn & s2 & (? & ? & E2)%loadSnapshot_ok & Ht).
    apply bind_inv in Ht as ([] & s3 & [= <-] & [[= ->] ->]%mret_ok). simpl. by rewrite E2. }
  destruct (cache (db s)) as [old|] eqn:Hc; [|right; split; [done|]; by apply Hload].
  destruct (fresh (Some old) (clock (db s))) eqn:Hf; [left|right; split; [done|]; by apply Hload].
  apply mret_ok in H as [[= <-] ->]. done.
Qed.

(** the root of an outage is always a node of the same project as the
    node that asked: over a well-formed store no edge, explicit or by label,
    ever lets one tenant's outage suppress or group another tenant's node. *)
Theorem downRoot_same_project (k : string) (id : Z) (s : sys DepDB) (r : node) (s' : sys DepDB) :
  store_wf (db s) -> fresh (cache (db s)) (clock (db s)) = false ->
  DownRoot k id s = (Ok (Some r), s') ->
  node_project (db s) r = node_project (db s) (Node k id).
Proof.
  intros Hwf Hf H. unfold DownRoot in H.
  apply try_ok in H as (snap & s1 & Hg & [[= Hr] _]%mret_ok).
  apply getSnapshot_ok in Hg as [(_ & ? & _)|(_ & Hs & _ & _)]; [congruence|].
  destruct (downRoot_correct snap (Node k id)) as (o & Ho & Hspec).
  rewrite Ho in Hr. simpl in Hr. subst o.
  destruct Hspec as [[Hroot _]|(_ & -> & _)]; [|done]. by eapply outage_root_same_project.
Qed.

(** a decision never uses a snapshot older than the cache lifetime, a
    successful call changes no table, and the published snapshot is never
    replaced by an older one. *)
Theorem getSnapshot_bounded_staleness (s : sys DepDB) (snap : snapshot) (s' : sys DepDB) :
  getSnapshot s = (Ok snap, s') ->
  clock (db s) - loadedAt snap < cacheTTL /\
  (exists c, db s' = set_cache c (db s)) /\
  exists new, cache (db s') = Some new /\ loadedAt snap <= loadedAt new /\
    forall old, cache (db s) = Some old -> loadedAt old <= loadedAt new.
Proof.
  intros [(Hc & Hf & ->)|(Hf & _ & Hl & ->)]%getSnapshot_ok.
  - rewrite Hc, fresh_Some in Hf. split_and!; [done| |].
    + exists (cache (db s)). by destruct (db s).
    + exists snap. rewrite Hc. split_and!; [done|lia|]. intros ? [= <-]. lia.
  - split_and!; [pose proof cacheTTL_pos; lia|eauto|]. simpl.
    unfold publish. destruct (cache (db s)) as [old|].
    + destruct (Z.ltb_spec (loadedAt old) (loadedAt snap)); eexists; (split_and!; [done|lia|]);
        intros ? [= <-]; lia.
    + exists snap. split_and!; [done|lia|]. by intros ? [=].
Qed.

(** [getSnapshot] publishes outside the lock it loaded under, so
    goroutines may publish in any order; whatever the order, the cache ends
    with a snapshot at least as recent as every one that was published. *)
Theorem publish_any_order (c : option snapshot) (snaps : list snapshot) :
  forall old, (old ∈ snaps \/ c = Some old) ->
  exists new, foldl (fun c snap => publish snap c) c snaps = Some new /\
    (new ∈ snaps \/ c = Some new) /\ loadedAt old <= loadedAt new.
Proof.
  revert c. induction snaps as [|x snaps IH]; intros c old Hold; simpl.
  - destruct Hold as [?%elem_of_nil|Hc]; [done|]. exists old. split_and!; [done|by right|lia].
  - assert (exists y, publish x c = Some y /\ (y = x \/ c = Some y) /\ loadedAt x <= loadedAt y /\
      forall z, c = Some z -> loadedAt z <= loadedAt y) as (y & Hy & Hyc & Hxy & Hz).
    { unfold publish. destruct c as [z|]; [|exists x; split_and!; [done|by left|lia|done]].
      destruct (Z.ltb_spec (loadedAt z) (loadedAt x)).
      - exists x. split_and!; [done|by left|lia|intros ? [= <-]; lia].
      - exists z. split_and!; [done|by right|lia|intros ? [= <-]; lia]. }
    rewrite Hy. setoid_rewrite elem_of_cons.
    destruct Hold as [[->|Hin]%elem_of_cons|Hc].
    + destruct (IH (Some y) y (or_intror eq_refl)) as (new & Hn & Hsrc & Hle).
      exists new. split_and!; [done| |lia]. destruct Hsrc as [|[= <-]]; [by auto|]. naive_solver.
    + destruct (IH (Some y) old (or_introl Hin)) as (new & Hn & Hsrc & Hle).
      exists new. split_and!; [done| |lia]. destruct Hsrc as [|[= <-]]; [by auto|]. naive_solver.
    + destruct (IH (Some y) y (or_intror eq_refl)) as (new & Hn & Hsrc & Hle).
      exists new. split_and!; [done| |specialize (Hz _ Hc); lia].
      destruct Hsrc as [|[= <-]]; [by auto|]. naive_solver.
Qed.

Lemma getSnapshot_again s snap s1 snap' s2 :
  getSnapshot s = (Ok snap, s1) -> getSnapshot s1 = (Ok snap', s2) -> snap' = snap.
Proof.
  intros [(Hc & Hf & ->)|(Hf & _ & Hl & Hdb)]%getSnapshot_ok.
  - intros [(? & _ & _)|(? & _)]%getSnapshot_ok; congruence.
  - assert (cache (db s1) = Some snap) as Hc1.
    { rewrite Hdb. simpl. unfold publish. destruct (cache (db s)) as [old|]; [|done].
      apply not_true_iff_false in Hf. rewrite fresh_Some in Hf. pose proof cacheTTL_pos.
      destruct (Z.ltb_spec (loadedAt old) (loadedAt snap)); [done|lia]. }
    assert (clock (db s1) = clock (db s)) as Hck by (by rewrite Hdb).
    intros [(? & _ & _)|(Hf1 & _)]%getSnapshot_ok; [congruence|].
    rewrite Hc1, Hck in Hf1. apply not_true_iff_false in Hf1. rewrite fresh_Some in Hf1.
    pose proof cacheTTL_pos. lia.
Qed.

(** [CheckIncident] fails on a source without a dependency graph, answers
    "no parent" for an incident that is gone, and otherwise reports a down
    parent only together with a parent, exactly when an outage root exists
    above the incident's node in the snapshot it used. *)
Theorem CheckIncident_sound (source : string) (id : Z) (s : sys DepDB) (hp pd : bool) (s' : sys DepDB) :
  CheckIncident source id s = (Ok (hp, pd), s') ->
  (source = "host" \/ source = "uptime") /\
  (pd = true -> hp = true) /\
  (incident_node source id (db s) = None -> hp = false /\ pd = false) /\
  (forall n, incident_node source id (db s) = Some n ->
     exists snap, clock (db s) - loadedAt snap < cacheTTL /\
       (pd = true <-> exists r, outage_root snap n r) /\
       (hp = true <-> matchingParents snap (kind n) (nid n) <> [])).
Proof.
  unfold CheckIncident. case_decide as Hsrc; [|by intros [[=] _]%mret_ok].
  intros H. split; [done|].
  apply try_ok in H as (row & s1 & [-> E1]%query_ok & H).
  destruct (incident_node source id (db s)) as [n|] eqn:Hn;
    [|by apply mret_ok in H as [[= <- <-] _]].
  apply try_ok in H as (b1 & s2 & H1 & H).
  apply try_ok in H as (b2 & s3 & H2 & [[= -> ->] _]%mret_ok).
  unfold HasParent in H1. apply try_ok in H1 as (snap & t1 & G1 & [[= <-] ->]%mret_ok).
  unfold ParentDown in H2. apply try_ok in H2 as (snap' & t2 & G2 & [[= <-] ->]%mret_ok).
  pose proof (getSnapshot_again _ _ _ _ _ G1 G2) as ->.
  apply getSnapshot_bounded_staleness in G1 as (Hst & _ & _). rewrite E1 in Hst.
  destruct (parentDown_correct snap (Node (kind n) (nid n))) as (b & Hb & Hspec).
  rewrite Hb. simpl. assert (Node (kind n) (nid n) = n) as Hnn by (by destruct n). rewrite Hnn in Hspec.
  assert ((0 <? Z.of_nat (length (matchingParents snap (kind n) (nid n)))) = true
    <-> matchingParents snap (kind n) (nid n) <> []) as Hhp.
  { rewrite Z.ltb_lt. destruct (matchingParents _ _ _); simpl; split; [lia|done|done|lia]. }
  split_and!; [|done|].
  - intros ->. apply Hhp. destruct (proj1 Hspec eq_refl) as [r [Htc _]].
    apply tc_inv_first in Htc as (y & Hy & _). intros Hnil.
    unfold up, downParents in Hy. rewrite Hnil in Hy. by apply elem_of_nil in Hy.
  - intros ? [= <-]. eauto.
Qed.

(** ** Witnesses *)

Definition ex_edge : Edge := mkEdge 0 7 (Some 1) None None (Some 2) None None.
Definition ex_db : DepDB :=
  mkDepDB {[1 := HostRow 7 "prod" "db"]} {[2 := 7]} [] 1
    [HostIncident 5 1 "silent" true false] [UptimeIncident 9 2 false] None 100.
(** The store after the edge host 1 -> monitor 2 was created. *)
Definition ex_db1 : DepDB := db (run (Create ex_edge) ex_db []).2.

Lemma ex_db_wf : store_wf ex_db.
Proof.
  constructor; simpl; try (intros ? ?%elem_of_nil; done); [lia|].
  intros pid n Hn. apply tc_inv_first in Hn as (y & (r & ?%elem_of_nil & _) & _). done.
Defined.

Lemma ex_db1_wf : store_wf ex_db1.
Proof. apply (Create_wf ex_edge [] ex_db), ex_db_wf. Defined.

Lemma store_wf_preserved_witness :
  store_wf ex_db /\ store_wf (exec_op (OpCreate ex_edge) [FNone; FNone; FLostReply] ex_db) /\
  deps (exec_op (OpCreate ex_edge) [] ex_db) = [with_id ex_edge 1].
Proof.
  split_and!; [exact ex_db_wf| |vm_compute; reflexivity].
  apply (store_wf_preserved (OpCreate ex_edge) [FNone; FNone; FLostReply] ex_db), ex_db_wf.
Defined.

Lemma downRoot_same_project_witness :
  exists s', DownRoot "monitor" 2 (Sys ex_db1 []) = (Ok (Some (Node "host" 1)), s') /\
    node_project ex_db1 (Node "host" 1) = node_project ex_db1 (Node "monitor" 2).
Proof.
  eexists. split; [vm_compute; reflexivity|].
  eapply (downRoot_same_project "monitor" 2 (Sys ex_db1 []));
    [exact ex_db1_wf|reflexivity|vm_compute; reflexivity].
Defined.

Lemma getSnapshot_bounded_staleness_witness :
  exists snap s', getSnapshot (Sys ex_db1 []) = (Ok snap, s') /\
    clock ex_db1 - loadedAt snap < cacheTTL.
Proof.
  do 2 eexists. split; [vm_compute; reflexivity|].
  apply (getSnapshot_bounded_staleness (Sys ex_db1 []) _ _ eq_refl).
Defined.

Lemma publish_any_order_witness :
  exists new, foldl (fun c snap => publish snap c) None
      [Snapshot [] ∅ ∅ ∅ 5; Snapshot [] ∅ ∅ ∅ 3] = Some new /\ 5 <= loadedAt new.
Proof.
  destruct (publish_any_order None [Snapshot [] ∅ ∅ ∅ 5; Snapshot [] ∅ ∅ ∅ 3]
    (Snapshot [] ∅ ∅ ∅ 5) (or_introl (list_elem_of_here _ _))) as (new & H & _ & Hle).
  by exists new.
Defined.

Lemma CheckIncident_sound_witness :
  exists s', CheckIncident "uptime" 9 (Sys ex_db1 []) = (Ok (true, true), s') /\ true = true.
Proof.
  eexists. split; [vm_compute; reflexivity|].
  eapply (CheckIncident_sound "uptime" 9 (Sys ex_db1 [])); [vm_compute; reflexivity|reflexivity].
Defined.
