(* ===== verification/Prog.v ===== *)
(** Programs as trees of atomic statements, and their interleavings.

    The sequential monad of [Prelude] runs a handler to its end.  Handlers
    that several replicas of the service run at the same time are written as
    [prog]: a tree of statements, each one atomic step on the shared state.
    The same tree is run alone by [exec], or inside a pool of processes by
    [pool_step], where any process may take the next step, crash, or start.

    [wp] is a small program logic over these trees: a process owns a set of
    tokens, and each of its steps may only move potential between the shared
    state and the tokens it owns.  [pool_inv_reach] concludes for every
    interleaving. *)
From stdpp Require Import base tactics list gmap relations.
From Stdlib Require Import ZArith Lia.
From S2P Require Import Prelude.

(** ** Programs *)

(** [Ret a]: finished.  [Step q k]: one statement; [q] is its effect and [k]
    what follows, both depending on the fault met and the state found.
    [Fork p k]: [go p(); k]. *)
Inductive prog (D A : Type) : Type :=
| Ret (a : A)
| Step (q : fault -> D -> D) (k : fault -> D -> prog D A)
| Fork (p : prog D ()) (k : prog D A).
Arguments Ret {D A} a.
Arguments Step {D A} q k.
Arguments Fork {D A} p k.

Fixpoint prog_bind {D A B : Type} (k : A -> prog D B) (p : prog D A) : prog D B :=
  match p with
  | Ret a => k a
  | Step q k' => Step q (fun f d => prog_bind k (k' f d))
  | Fork p k' => Fork p (prog_bind k k')
  end.

#[global] Instance prog_ret {D} : MRet (prog D) := fun A a => Ret a.
#[global] Instance prog_mbind {D} : MBind (prog D) := fun A B k p => prog_bind k p.

(** A statement whose own outcome may be an error (a violated constraint). *)
Definition callE {D E A} (e : E) (q : D -> result E A * D) : prog D (result E A) :=
  Step (fun f d => match f with FLost => d | _ => (q d).2 end)
       (fun f d => Ret (match f with FNone => (q d).1 | _ => Err e end)).

(** A statement that only fails when the connection does. *)
Definition call {D E A} (e : E) (q : D -> A * D) : prog D (result E A) :=
  callE e (fun d => (Ok (q d).1, (q d).2)).

Definition ask {D E A} (e : E) (q : D -> A) : prog D (result E A) :=
  call e (fun d => (q d, d)).

(** Starting a goroutine. *)
Definition go {D} (p : prog D ()) : prog D () := Fork p (Ret tt).

(** In-process state and clocks: no failure. *)
Definition pgets {D A} (f : D -> A) : prog D A := Step (fun _ d => d) (fun _ d => Ret (f d)).
Definition pmodify {D} (f : D -> D) : prog D () := Step (fun _ d => f d) (fun _ _ => Ret tt).

(** ** Running a program alone *)

Definition next_fault (fs : list fault) : fault * list fault :=
  match fs with [] => (FNone, []) | f :: fs => (f, fs) end.

(** A goroutine started runs to its end first. *)
Fixpoint exec {D A : Type} (p : prog D A) : M D A :=
  match p with
  | Ret a => mret a
  | Step q k => fun s =>
      let '(f, fs) := next_fault (faults s) in exec (k f (db s)) (Sys (q f (db s)) fs)
  | Fork p k => fun s => exec k (exec p s).2
  end.

Lemma exec_bind {D A B} (p : prog D A) (k : A -> prog D B) s :
  exec (mbind k p) s = let '(a, s') := exec p s in exec (k a) s'.
Proof.
  revert k s. induction p as [A a|A q k' IH|A p _ k' IH]; intros k s; [done| |apply IH].
  change (mbind k (Step q k')) with (Step q (fun f d => mbind k (k' f d))). simpl.
  destruct (next_fault (faults s)) as [f fs]. apply IH.
Qed.

(** Without faults a program is a function of the state. *)
Definition exec0 {D A} (p : prog D A) (d : D) : A * D :=
  let '(a, s) := exec p (Sys d []) in (a, db s).

Lemma exec_nofault {D A} (p : prog D A) d : exec p (Sys d []) = ((exec0 p d).1, Sys (exec0 p d).2 []).
Proof.
  unfold exec0. revert d. induction p as [A a|A q k IH|A p IHp k IH]; intros d; [done| |]; simpl.
  - by rewrite IH.
  - rewrite IHp. simpl. by rewrite IH.
Qed.

Lemma exec0_bind {D A B} (p : prog D A) (k : A -> prog D B) d :
  exec0 (mbind k p) d = exec0 (k (exec0 p d).1) (exec0 p d).2.
Proof. unfold exec0 at 1. rewrite exec_bind, exec_nofault, exec_nofault. by destruct (exec0 _ _). Qed.

Lemma exec0_ret {D A} (a : A) (d : D) : exec0 (mret a) d = (a, d).
Proof. done. Qed.

Lemma exec0_callE {D E A} (e : E) (q : D -> result E A * D) d : exec0 (callE e q) d = q d.
Proof. unfold exec0, callE. simpl. by destruct (q d). Qed.

Lemma exec0_call {D E A} (e : E) (q : D -> A * D) d : exec0 (call e q) d = (Ok (q d).1, (q d).2).
Proof. apply (exec0_callE e (fun d => (Ok (q d).1, (q d).2))). Qed.

Lemma exec0_ask {D E A} (e : E) (q : D -> A) d : exec0 (ask e q) d = (Ok (q d), d).
Proof. apply (exec0_call e (fun d => (q d, d))). Qed.
Create Rewrite HintDb exec0.
#[export] Hint Rewrite @exec0_bind @exec0_ret @exec0_callE @exec0_call @exec0_ask : exec0.

(** ** Inverting successful runs *)

Lemma exec_bind_inv {D A B} (p : prog D A) (k : A -> prog D B) s b s' :
  exec (mbind k p) s = (b, s') -> exists a s1, exec p s = (a, s1) /\ exec (k a) s1 = (b, s').
Proof. rewrite exec_bind. destruct (exec p s) as [a s1]. eauto. Qed.

Lemma exec_try_ok {D E A B} (p : prog D (result E A)) (k : A -> prog D (result E B)) s b s' :
  exec (mbind (fun r => match r with Ok x => k x | Err e => mret (Err e) end) p) s = (Ok b, s') ->
  exists a s1, exec p s = (Ok a, s1) /\ exec (k a) s1 = (Ok b, s').
Proof. intros ([a|e] & s1 & Hp & Hk)%exec_bind_inv; [eauto|]. by injection Hk. Qed.

Lemma exec_callE_ok {D E A} (e : E) (q : D -> result E A * D) s a s' :
  exec (callE e q) s = (Ok a, s') -> q (db s) = (Ok a, db s').
Proof. simpl. destruct (next_fault (faults s)) as [[] fs]; intros [= Hr <-]. simpl. by rewrite <- Hr; destruct (q (db s)). Qed.

Lemma exec_call_ok {D E A} (e : E) (q : D -> A * D) s a s' :
  exec (call e q) s = (Ok a, s') -> q (db s) = (a, db s').
Proof. intros H%exec_callE_ok. destruct (q (db s)). by simplify_eq/=. Qed.

Lemma exec_ask_ok {D E A} (e : E) (q : D -> A) s a s' :
  exec (ask e q) s = (Ok a, s') -> a = q (db s) /\ db s' = db s.
Proof. intros H%exec_call_ok. by simplify_eq. Qed.

(** Turn a successful run [H : exec p s = (Ok b, s')] into its calls. *)
Ltac exec_ok H :=
  lazymatch type of H with
  | exec (mbind (fun r => match r with Ok _ => _ | Err e => mret (Err e) end) _) _ = (Ok _, _) =>
      let H1 := fresh H in
      apply exec_try_ok in H as (? & ? & H1 & H); exec_ok H1; exec_ok H
  | exec (ask _ _) _ = (Ok _, _) => apply exec_ask_ok in H as [? ?]; simplify_eq
  | exec (call _ _) _ = (Ok _, _) => apply exec_call_ok in H
  | exec (callE _ _) _ = (Ok _, _) => apply exec_callE_ok in H
  | exec (mret _) _ = _ => apply mret_ok in H as [? ?]; try discriminate; simplify_eq
  | _ => idtac
  end.

(** ** Properties of every run, whatever the faults *)

(** [always P p Q]: from a state satisfying [P], every statement keeps [P],
    and [Q] holds of the value returned. *)
Fixpoint always {D A : Type} (P : D -> Prop) (p : prog D A) (Q : A -> Prop) : Prop :=
  match p with
  | Ret a => Q a
  | Step q k => forall f d, P d -> P (q f d) /\ always P (k f d) Q
  | Fork p k => always P p (fun _ => True) /\ always P k Q
  end.

Lemma always_bind {D A B} (P : D -> Prop) (p : prog D A) (k : A -> prog D B) Q R :
  always P p Q -> (forall a, Q a -> always P (k a) R) -> always P (mbind k p) R.
Proof.
  intros Hp Hk. revert k Q Hp Hk.
  induction p as [A a|A q k' IH|A p _ k' IH]; intros k Q Hp Hk; [by apply Hk| |].
  - intros f d Hd. destruct (Hp f d Hd) as [? ?]. split; [done|]. by eapply IH.
  - destruct Hp as [? ?]. split; [done|]. by eapply IH.
Qed.

Lemma always_mono {D A} (P : D -> Prop) (p : prog D A) (Q R : A -> Prop) :
  always P p Q -> (forall a, Q a -> R a) -> always P p R.
Proof.
  intros Hp Hk. revert Q R Hp Hk.
  induction p as [A a|A q k' IH|A p _ k' IH]; intros Q R Hp Hk; [by apply Hk| |].
  - intros f d Hd. destruct (Hp f d Hd) as [? ?]. split; [done|]. by eapply IH.
  - destruct Hp as [? ?]. split; [done|]. by eapply IH.
Qed.

Lemma always_exec {D A} (P : D -> Prop) (p : prog D A) Q s :
  always P p Q -> P (db s) -> Q (exec p s).1 /\ P (db (exec p s).2).
Proof.
  revert Q s. induction p as [A a|A q k IH|A p IHp k IH]; intros Q s Hp Hs; [done| |]; simpl in *.
  - destruct (next_fault (faults s)) as [f fs]. destruct (Hp f (db s) Hs). by apply IH.
  - destruct Hp as [Hp Hk]. apply IH; [done|]. by eapply IHp.
Qed.

Lemma always_call {D E A} (P : D -> Prop) (e : E) (q : D -> A * D) :
  (forall d, P d -> P (q d).2) -> always P (call e q) (fun _ => True).
Proof. intros Hq f d Hd. split; [|done]. destruct f; simpl; auto. Qed.

Lemma always_ask {D E A} (P : D -> Prop) (e : E) (q : D -> A) : always P (ask e q) (fun _ => True).
Proof. by apply (always_call P e (fun d => (q d, d))). Qed.

(** ** Components of the shared state *)

(** The state of a component inside the state of the whole system. *)
Class Has (T D : Type) := {
  get : D -> T;
  put : T -> D -> D;
  get_put t d : get (put t d) = t;
  put_get d : put (get d) d = d;
  put_put t t' d : put t (put t' d) = put t d }.

#[global] Instance has_self T : Has T T.
Proof. by refine {| get := fun d => d; put := fun t _ => t |}. Defined.

#[global] Instance has_fst {T D U} `{Has T D} : Has T (D * U).
Proof.
  refine {| get := fun d => get d.1; put := fun t d => (put t d.1, d.2) |}; intros; simpl.
  - apply get_put.
  - rewrite put_get. by destruct d.
  - by rewrite put_put.
Defined.

#[global] Instance has_snd {T D U} `{Has T D} : Has T (U * D) | 5.
Proof.
  refine {| get := fun d => get d.2; put := fun t d => (d.1, put t d.2) |}; intros; simpl.
  - apply get_put.
  - rewrite put_get. by destruct d.
  - by rewrite put_put.
Defined.

Definition on {T D A} `{Has T D} (q : T -> A * T) : D -> A * D :=
  fun d => let '(a, t) := q (get d) in (a, put t d).

Lemma get_on {T D A} `{Has T D} (q : T -> A * T) (d : D) : get (on q d).2 = (q (get d)).2.
Proof. unfold on. destruct (q (get d)). simpl. apply get_put. Qed.

Lemma on_val {T D A} `{Has T D} (q : T -> A * T) (d : D) : (on q d).1 = (q (get d)).1.
Proof. unfold on. by destruct (q (get d)). Qed.

(** Writing one component leaves the other alone. *)
Class Apart (T U D : Type) `{Has T D, Has U D} : Prop :=
  get_put_apart (t : T) (d : D) : get (T := U) (put t d) = get d.

(** ** Interleavings *)
Section pool.
Context {D : Type}.

(** [lost] counts the statements that took effect although their caller saw
    an error. *)
Record pool := Pool { shared : D; procs : list (prog D ()); lost : nat }.

Definition is_lost_reply (f : fault) : nat := match f with FLostReply => 1 | _ => 0 end.

Inductive pool_step (spawnable : prog D () -> Prop) (env : D -> D -> Prop) : pool -> pool -> Prop :=
| pool_run d l q k r n f :
    pool_step spawnable env (Pool d (l ++ Step q k :: r) n)
      (Pool (q f d) (l ++ k f d :: r) (is_lost_reply f + n))
| pool_fork d l p k r n : pool_step spawnable env (Pool d (l ++ Fork p k :: r) n) (Pool d (l ++ k :: p :: r) n)
| pool_crash d l p r n : pool_step spawnable env (Pool d (l ++ p :: r) n) (Pool d (l ++ r) n)
| pool_spawn d l p n : spawnable p -> pool_step spawnable env (Pool d l n) (Pool d (p :: l) n)
| pool_env d d' l n : env d d' -> pool_step spawnable env (Pool d l n) (Pool d' l n).

(** One process running alone, without faults, is one of the interleavings. *)
Definition is_context {A} (C : prog D A -> prog D ()) : Prop :=
  (forall q k, C (Step q k) = Step q (fun f d => C (k f d))) /\
  (forall p k, C (Fork p k) = Fork p (C k)).

Lemma pool_runs spawnable env {A} (p : prog D A) : forall (C : prog D A -> prog D ()) d l r n, is_context C ->
  rtc (pool_step spawnable env) (Pool d (l ++ C p :: r) n) (Pool (exec0 p d).2 (l ++ C (Ret (exec0 p d).1) :: r) n).
Proof.
  induction p as [A a|A q k IH|A p IHp k IH]; intros C d l r n HC.
  - apply rtc_refl.
  - rewrite (proj1 HC). eapply rtc_l; [apply (pool_run _ _ _ _ _ _ _ _ FNone)|]. by apply IH.
  - rewrite (proj2 HC). eapply rtc_l; [apply pool_fork|].
    assert (exec0 (Fork p k) d = exec0 k (exec0 p d).2) as ->.
    { unfold exec0 at 1. simpl. rewrite exec_nofault. simpl. unfold exec0 at 1. done. }
    etrans; [|by apply IH].
    pose proof (IHp (fun p => p) d (l ++ [C k]) r n) as Hp. rewrite <- !app_assoc in Hp. simpl in Hp.
    etrans; [apply Hp; by split|].
    pose proof (pool_crash spawnable env (exec0 p d).2 (l ++ [C k]) (Ret (exec0 p d).1) r n) as Hc.
    rewrite <- !app_assoc in Hc. simpl in Hc. by apply rtc_once.
Qed.

Lemma pool_exec spawnable env (p : prog D ()) d n :
  spawnable p -> rtc (pool_step spawnable env) (Pool d [] n) (Pool (exec0 p d).2 [] n).
Proof.
  intros Hp. eapply rtc_l; [by apply pool_spawn|].
  etrans; [apply (pool_runs spawnable env p (fun p => p) d [] [] n); by split|].
  apply rtc_once, (pool_crash _ _ _ []).
Qed.

(** An interleaving given by its moves: a process is started in front of the
    others; process [i] takes a step and meets [f], or dies. *)
Inductive pool_move := MStart (p : prog D ()) | MStep (i : nat) (f : fault) | MDie (i : nat).

Definition play_move (m : pool_move) (s : pool) : option pool :=
  match m with
  | MStart p => Some (Pool (shared s) (p :: procs s) (lost s))
  | MStep i f =>
      match procs s !! i with
      | Some (Step q k) =>
          Some (Pool (q f (shared s)) (take i (procs s) ++ k f (shared s) :: drop (S i) (procs s)) (is_lost_reply f + lost s))
      | Some (Fork p k) => Some (Pool (shared s) (take i (procs s) ++ k :: p :: drop (S i) (procs s)) (lost s))
      | _ => None
      end
  | MDie i => match procs s !! i with
              | Some _ => Some (Pool (shared s) (take i (procs s) ++ drop (S i) (procs s)) (lost s))
              | None => None
              end
  end.

Fixpoint play (ms : list pool_move) (s : pool) : option pool :=
  match ms with
  | [] => Some s
  | m :: ms => match play_move m s with Some s => play ms s | None => None end
  end.

Definition starts (spawnable : prog D () -> Prop) (m : pool_move) : Prop :=
  match m with MStart p => spawnable p | _ => True end.

Lemma play_move_step spawnable env m s s' :
  starts spawnable m -> play_move m s = Some s' -> pool_step spawnable env s s'.
Proof.
  destruct s as [d ps n], m as [p|i f|i]; simpl; intros Hm Hp.
  - injection Hp as <-. by constructor.
  - destruct (ps !! i) as [[|q k|p k]|] eqn:Hi; try done; injection Hp as <-.
    + rewrite <- (take_drop_middle ps i _ Hi) at 1. by constructor.
    + rewrite <- (take_drop_middle ps i _ Hi) at 1. by constructor.
  - destruct (ps !! i) as [p|] eqn:Hi; [|done]. injection Hp as <-.
    rewrite <- (take_drop_middle ps i _ Hi) at 1. by constructor.
Qed.

Lemma play_reach spawnable env ms s s' :
  Forall (starts spawnable) ms -> play ms s = Some s' -> rtc (pool_step spawnable env) s s'.
Proof.
  intros Hms. revert s. induction Hms as [|m ms Hm _ IH]; intros s; simpl; [intros [= ->]; apply rtc_refl|].
  destruct (play_move m s) as [s1|] eqn:H1; [|done]. intros Hp. eapply rtc_l; [by eapply play_move_step|by apply IH].
Qed.

(** An invariant that every statement of every program keeps holds in every
    interleaving. *)
Lemma pool_always (P : D -> Prop) spawnable env d0 s :
  (forall p, spawnable p -> always P p (fun _ => True)) ->
  (forall d d', env d d' -> P d -> P d') ->
  P d0 -> rtc (pool_step spawnable env) (Pool d0 [] 0) s -> P (shared s).
Proof.
  intros Hsp Henv H0 Hr.
  assert (P (shared s) /\ Forall (fun p => always P p (fun _ => True)) (procs s)) as [? _]; [|done].
  eapply (rtc_closed (pool_step spawnable env)
    (fun s => P (shared s) /\ Forall (fun p => always P p (fun _ => True)) (procs s)) (Pool d0 [] 0)); [|by split; [|constructor]|exact Hr].
  intros a b [Ha Hall] Hab. destruct Hab as [d l q k r n f|d l p k r n|d l p r n|d l p n Hp|d d' l n Hd]; simpl in *.
  - apply Forall_app in Hall as [Hl [Hq Hrr]%Forall_cons]. destruct (Hq f d Ha) as [? Hk].
    split; [done|]. apply Forall_app; split; [done|]. by constructor.
  - apply Forall_app in Hall as [Hl [[Hp Hk] Hrr]%Forall_cons]. split; [done|].
    apply Forall_app; split; [done|]. by repeat constructor.
  - apply Forall_app in Hall as [Hl [_ Hrr]%Forall_cons]. split; [done|]. by apply Forall_app.
  - split; [done|]. constructor; auto.
  - split; [by eapply Henv|done].
Qed.

(** [I]: an invariant of the shared state; [φ]: the potential of each token;
    [c]: what a lost reply may add to it (0 or 1). *)
Context {K : Type} `{Countable K} (I : D -> Prop) (φ : D -> K -> nat) (c : nat).
Implicit Types own : gset K.

Definition held (own : gset K) (key : K) : nat := if decide (key ∈ own) then 1 else 0.

(** What one statement may do to the potential of every token. *)
Definition pays (f : fault) own (d : D) own' (d' : D) : Prop :=
  forall key, φ d' key + held own' key <= φ d key + held own key + c * is_lost_reply f.

Fixpoint wp {A : Type} (p : prog D A) own (Q : A -> gset K -> Prop) : Prop :=
  match p with
  | Ret a => Q a own
  | Step q k => forall f d, I d -> exists own', I (q f d) /\ pays f own d own' (q f d) /\ wp (k f d) own' Q
  | Fork p k => exists own1 own2, own1 ## own2 /\ own1 ∪ own2 ⊆ own /\
      wp p own1 (fun _ _ => True) /\ wp k own2 Q
  end.

Lemma wp_bind {A B} (p : prog D A) (k : A -> prog D B) own Q R :
  wp p own Q -> (forall a own', Q a own' -> wp (k a) own' R) -> wp (mbind k p) own R.
Proof.
  intros Hp Hk. revert k own Q Hp Hk.
  induction p as [A a|A q k' IH|A p _ k' IH]; intros k own Q Hp Hk; [by apply Hk| |].
  - intros f d Hd. destruct (Hp f d Hd) as (own' & ? & ? & ?). exists own'. do 2 (split; [done|]). by eapply IH.
  - destruct Hp as (o1 & o2 & ? & ? & ? & ?). exists o1, o2. split_and!; [done..|]. by eapply IH.
Qed.

Lemma wp_mono {A} (p : prog D A) own (Q R : A -> gset K -> Prop) :
  wp p own Q -> (forall a own', Q a own' -> R a own') -> wp p own R.
Proof.
  intros Hp Hk. revert own Q R Hp Hk.
  induction p as [A a|A q k' IH|A p _ k' IH]; intros own Q R Hp Hk; [by apply Hk| |].
  - intros f d Hd. destruct (Hp f d Hd) as (own' & ? & ? & ?). exists own'. do 2 (split; [done|]). by eapply IH.
  - destruct Hp as (o1 & o2 & ? & ? & ? & ?). exists o1, o2. split_and!; [done..|]. by eapply IH.
Qed.

Lemma held_mono own own' key : own ⊆ own' -> held own key <= held own' key.
Proof. intros Hs. unfold held. repeat case_decide; auto. set_solver. Qed.

(** Tokens may be thrown away. *)
Lemma wp_drop {A} (p : prog D A) own own' (Q : A -> Prop) :
  own ⊆ own' -> wp p own (fun a _ => Q a) -> wp p own' (fun a _ => Q a).
Proof.
  revert own own' Q. induction p as [A a|A q k' IH|A p _ k' IH]; intros own own' Q Hsub Hp; [done| |].
  - intros f d Hd. destruct (Hp f d Hd) as (own1 & HI & Hpay & ?). exists own1. split; [done|]. split; [|done].
    intros key. specialize (Hpay key). pose proof (held_mono own own' key Hsub). lia.
  - destruct Hp as (o1 & o2 & ? & ? & ? & ?). exists o1, o2. split_and!; [done|set_solver|done|done].
Qed.

(** A statement that leaves the potential alone needs no token. *)
Lemma wp_frame_call {A E} (e : E) (q : D -> A * D) own (Q : result E A -> gset K -> Prop) :
  (forall d, I d -> I (q d).2) ->
  (forall d key, I d -> φ (q d).2 key <= φ d key) ->
  (forall d, Q (Ok (q d).1) own) -> Q (Err e) own ->
  wp (call e q) own Q.
Proof.
  intros HI Hφ HQ HE f d Hd. exists own. split; [destruct f; simpl; auto|].
  split; [|destruct f; simpl; auto].
  intros key. specialize (Hφ d key Hd). destruct f; simpl in *; lia.
Qed.

Definition total_held (owns : list (gset K)) (key : K) : nat := sum_list_with (fun own => held own key) owns.

Definition pool_inv (s : pool) : Prop :=
  I (shared s) /\ exists owns, Forall2 (fun p own => wp p own (fun _ _ => True)) (procs s) owns /\
    forall key, φ (shared s) key + total_held owns key <= 1 + c * lost s.

Lemma total_held_app l r key : total_held (l ++ r) key = total_held l key + total_held r key.
Proof. unfold total_held. by rewrite sum_list_with_app. Qed.

Lemma pool_inv_step spawnable env s s' :
  (forall p, spawnable p -> wp p ∅ (fun _ _ => True)) ->
  (forall d d', env d d' -> I d -> I d' /\ forall key, φ d' key <= φ d key) ->
  pool_inv s -> pool_step spawnable env s s' -> pool_inv s'.
Proof.
  intros Hsp Henv (HI & owns & Hall & Hle) Hstep. destruct Hstep as [d l q k r n f|d l p k r n|d l p r n|d l p n Hp|d d' l n Hd];
    simpl in *.
  - apply Forall2_app_inv_l in Hall as (owl & owr & Hl & Hr & ->).
    apply Forall2_cons_inv_l in Hr as (own & owr' & Hp & Hr & ->).
    destruct (Hp f d HI) as (own' & HI' & Hpay & Hk). split; [done|]. exists (owl ++ own' :: owr'). simpl. split.
    { apply Forall2_app; [done|]. by constructor. }
    intros key. specialize (Hle key). specialize (Hpay key).
    rewrite total_held_app in *. unfold total_held in *. simpl in *. lia.
  - apply Forall2_app_inv_l in Hall as (owl & owr & Hl & Hr & ->).
    apply Forall2_cons_inv_l in Hr as (own & owr' & (o1 & o2 & Hdj & Hsub & Hp & Hk) & Hr & ->).
    split; [done|]. exists (owl ++ o2 :: o1 :: owr'). simpl. split.
    { apply Forall2_app; [done|]. by repeat constructor. }
    intros key. specialize (Hle key). pose proof (held_mono _ _ key Hsub) as Hm.
    assert (held o1 key + held o2 key <= held (o1 ∪ o2) key).
    { unfold held. repeat case_decide; try lia; set_solver. }
    rewrite total_held_app in *. unfold total_held in *. simpl in *. lia.
  - apply Forall2_app_inv_l in Hall as (owl & owr & Hl & Hr & ->).
    apply Forall2_cons_inv_l in Hr as (own & owr' & Hp & Hr & ->).
    split; [done|]. exists (owl ++ owr'). simpl. split.
    { by apply Forall2_app. }
    intros key. specialize (Hle key). rewrite total_held_app in *. unfold total_held in *. simpl in *. lia.
  - split; [done|]. exists (∅ :: owns). simpl. split; [constructor; auto|]. intros key. specialize (Hle key).
    unfold total_held in *. simpl. unfold held at 1. rewrite decide_False by set_solver. lia.
  - destruct (Henv d d' Hd HI) as [HI' Hφ]. split; [done|].
    exists owns. simpl. split; [done|]. intros key. specialize (Hle key). specialize (Hφ key). lia.
Qed.

(** Whatever the interleaving, crashes and faults: the invariant holds and the
    potential of a token exceeds one only by [c] per lost reply. *)
Lemma pool_inv_reach spawnable env d0 s :
  (forall p, spawnable p -> wp p ∅ (fun _ _ => True)) ->
  (forall d d', env d d' -> I d -> I d' /\ forall key, φ d' key <= φ d key) ->
  I d0 -> (forall key, φ d0 key <= 1) ->
  rtc (pool_step spawnable env) (Pool d0 [] 0) s ->
  I (shared s) /\ forall key, φ (shared s) key <= 1 + c * lost s.
Proof.
  intros Hsp Henv HI0 H0 Hr.
  assert (pool_inv s) as (HI & owns & _ & Hle).
  { eapply (rtc_closed (pool_step spawnable env) pool_inv); [|  |exact Hr].
    - intros a b Ha Hab. by eapply pool_inv_step.
    - split; [done|]. exists []. split; [constructor|]. intros key. simpl. unfold total_held. simpl. specialize (H0 key). lia. }
  split; [done|]. intros key. specialize (Hle key). lia.
Qed.
End pool.
Arguments pool D : clear implicits.
