(* ===== verification/Rely.v ===== *)
(** Rely-guarantee reasoning over the programs of [Prog].

    A process knows facts about the shared state that the other processes
    cannot invalidate: [P] is an invariant every statement keeps, [R] the
    relation every statement moves the state along, and a fact is [stable]
    when [R] preserves it.  [rg S p Q]: from a state where [S] holds, every
    statement of [p] keeps [P] and stays in [R] whatever the others do in
    between, and [Q] holds when [p] returns.  [rg_pool] concludes for every
    interleaving, with faults and crashes. *)
From stdpp Require Import base tactics list gmap relations.
From Stdlib Require Import ZArith Lia.
From S2P Require Import Prelude.
From S2P Require Import Prog.

Section rely_guarantee.
Context {D : Type} (P : D -> Prop) (R : D -> D -> Prop) `{!PreOrder R}.

Definition stable (S : D -> Prop) : Prop := forall d d', P d -> P d' -> R d d' -> S d -> S d'.

Fixpoint rg {A : Type} (S : D -> Prop) (p : prog D A) (Q : A -> D -> Prop) : Prop :=
  match p with
  | Ret a => forall d, P d -> S d -> Q a d
  | Step q k => forall f d, P d -> S d -> P (q f d) /\ R d (q f d) /\
      exists S', stable S' /\ S' (q f d) /\ rg S' (k f d) Q
  | Fork p k => rg S p (fun _ _ => True) /\ rg S k Q
  end.

Lemma rg_weaken {A} (S S' : D -> Prop) (p : prog D A) (Q : A -> D -> Prop) :
  (forall d, P d -> S' d -> S d) -> rg S p Q -> rg S' p Q.
Proof.
  revert Q. induction p as [A a|A q k IH|A p IHp k IHk]; intros Q Hsub Hp; simpl in *; [auto| |].
  - intros f d HP HS. by apply Hp; auto.
  - destruct Hp. split; auto.
Qed.

Lemma rg_bind {A B} (S : D -> Prop) (p : prog D A) (k : A -> prog D B) (Q : A -> D -> Prop) (T : B -> D -> Prop) :
  rg S p Q -> (forall a, rg (Q a) (k a) T) -> rg S (mbind k p) T.
Proof.
  revert S k Q. induction p as [A a|A q k' IH|A p _ k' IH]; intros S k Q Hp Hk.
  - eapply rg_weaken; [|apply Hk]. exact Hp.
  - intros f d HP HS. destruct (Hp f d HP HS) as (? & ? & S' & ? & ? & ?).
    do 2 (split; [done|]). exists S'. do 2 (split; [done|]). by eapply IH.
  - destruct Hp as [? ?]. split; [done|]. by eapply IH.
Qed.

Lemma rg_mono {A} (S : D -> Prop) (p : prog D A) (Q Q' : A -> D -> Prop) :
  rg S p Q -> (forall a d, P d -> Q a d -> Q' a d) -> rg S p Q'.
Proof.
  revert S Q Q'. induction p as [A a|A q k IH|A p _ k IH]; intros S Q Q' Hp HQ; simpl in *; [auto| |].
  - intros f d HP HS. destruct (Hp f d HP HS) as (? & ? & S' & ? & ? & ?).
    do 2 (split; [done|]). exists S'. do 2 (split; [done|]). by eapply IH.
  - destruct Hp. split; [done|]. by eapply IH.
Qed.

Lemma rg_pure {A} (φ : Prop) (p : prog D A) (Q : A -> D -> Prop) (S : D -> Prop) :
  (φ -> rg S p Q) -> rg (fun d => φ /\ S d) p Q.
Proof.
  revert Q S. induction p as [A a|A q k IH|A p IHp k IHk]; intros Q S Hp; simpl in *.
  - intros d HP [Hφ HS]. by apply Hp.
  - intros f d HP [Hφ HS]. by apply Hp.
  - split; [apply IHp|apply IHk]; intros Hφ; by apply Hp.
Qed.

(** Nothing is asked of a program that cannot be reached. *)
Lemma rg_absurd {A} (p : prog D A) (Q : A -> D -> Prop) : rg (fun _ => False) p Q.
Proof. revert Q. induction p as [A a|A q k IH|A p IHp k IHk]; intros Q; simpl; [done|done|auto]. Qed.

Lemma rg_ret {A} (S : D -> Prop) (a : A) : rg S (mret a) (fun a' d => S d /\ a' = a).
Proof. by intros d. Qed.

(** Under no assumption, and promising nothing. *)
Abbreviation safe p := (rg (fun _ => True) p (fun _ _ => True)).

Lemma rg_safe {A} (S : D -> Prop) (p : prog D A) : safe p -> rg S p (fun _ _ => True).
Proof. by apply rg_weaken. Qed.

(** One statement: it keeps [P], moves along [R] and establishes [Φ]; what
    was known before is still known after it. *)
Lemma rg_callE {A E} (S : D -> Prop) (e : E) (q : D -> result E A * D) (Φ : A -> D -> Prop) :
  stable S -> (forall a, stable (Φ a)) ->
  (forall d, P d -> S d -> P (q d).2 /\ R d (q d).2 /\ match (q d).1 with Ok a => Φ a (q d).2 | Err _ => True end) ->
  rg S (callE e q) (fun r d => S d /\ match r with Ok a => Φ a d | Err _ => True end).
Proof.
  intros HS HΦ Hq f d HP Hd. destruct (Hq d HP Hd) as (HP' & HR & Hr).
  assert (S (q d).2) as HS' by (by apply (HS d)).
  split; [by destruct f|]. split; [destruct f; [done|reflexivity|done]|].
  exists (fun d' => S d' /\ match f, (q d).1 with FNone, Ok a => Φ a d' | _, _ => True end). split; [|split].
  - intros d1 d2 H1 H2 H12 [? Hx]. split; [by apply (HS d1)|]. destruct f, (q d).1; try done. by apply (HΦ _ d1).
  - destruct f; (split; [done|]); try done.
  - intros d' HP'' [? Hx]. by destruct f.
Qed.

Lemma rg_call {A E} (S : D -> Prop) (e : E) (q : D -> A * D) (Φ : A -> D -> Prop) :
  stable S -> (forall a, stable (Φ a)) ->
  (forall d, P d -> S d -> P (q d).2 /\ R d (q d).2 /\ Φ (q d).1 (q d).2) ->
  rg S (call e q) (fun r d => S d /\ match r with Ok a => Φ a d | Err _ => True end).
Proof. intros HS HΦ Hq. apply rg_callE; auto. Qed.

Lemma rg_ask {A E} (S : D -> Prop) (e : E) (f : D -> A) (Φ : A -> D -> Prop) :
  stable S -> (forall a, stable (Φ a)) -> (forall d, P d -> S d -> Φ (f d) d) ->
  rg S (ask e f) (fun r d => S d /\ match r with Ok a => Φ a d | Err _ => True end).
Proof. intros HS HΦ Hf. apply rg_call; [done..|]. intros d HP Hd. split_and!; [done|reflexivity|by apply Hf]. Qed.

Lemma rg_pgets {A} (S : D -> Prop) (f : D -> A) (Φ : A -> D -> Prop) :
  stable S -> (forall a, stable (Φ a)) -> (forall d, P d -> S d -> Φ (f d) d) ->
  rg S (pgets f) (fun a d => S d /\ Φ a d).
Proof.
  intros HS HΦ Hf g d HP Hd. split; [done|]. split; [reflexivity|]. exists (fun d' => S d' /\ Φ (f d) d'). split; [|split; [split; [done|by apply Hf]|by intros d2 ? ?]].
  intros d1 d2 ? ? ? [? ?]. split; [by apply (HS d1)|by apply (HΦ _ d1)].
Qed.

Lemma stable_true : stable (fun _ => True).
Proof. done. Qed.
Lemma stable_and (S T : D -> Prop) : stable S -> stable T -> stable (fun d => S d /\ T d).
Proof. intros HS HT d d' ? ? ? [? ?]. split; [by apply (HS d)|by apply (HT d)]. Qed.
Lemma stable_pure (φ : Prop) : stable (fun _ => φ).
Proof. by intros d d'. Qed.
Lemma stable_case {A E} (r : result E A) (Φ : A -> D -> Prop) :
  (forall a, stable (Φ a)) -> stable (fun d => match r with Ok a => Φ a d | Err _ => True end).
Proof. intros HΦ. destruct r; [apply HΦ|apply stable_true]. Qed.

(** What every interleaving satisfies. *)
Definition rg_inv (s : pool D) : Prop :=
  P (shared s) /\ Forall (fun p => exists S, stable S /\ S (shared s) /\ rg S p (fun _ _ => True)) (procs s).

Lemma procs_move d d' ps :
  P d -> P d' -> R d d' ->
  Forall (fun p : prog D () => exists S, stable S /\ S d /\ rg S p (fun _ _ => True)) ps ->
  Forall (fun p => exists S, stable S /\ S d' /\ rg S p (fun _ _ => True)) ps.
Proof.
  intros HP HP' HR Hall. eapply Forall_impl; [exact Hall|]. intros p (S & HS & Hd & Hp). exists S. split_and!; [done| |done]. by apply (HS d).
Qed.

Lemma rg_inv_step spawnable env s s' :
  (forall p, spawnable p -> safe p) ->
  (forall d d', env d d' -> P d -> P d' /\ R d d') ->
  rg_inv s -> pool_step spawnable env s s' -> rg_inv s'.
Proof.
  intros Hsp Henv [HP Hall] Hstep. destruct Hstep as [d l q k r n f|d l p k r n|d l p r n|d l p n Hp|d d' l n Hd]; simpl in *.
  - apply Forall_app in Hall as [Hl [(S & HS & Hd & Hq) Hr]%Forall_cons].
    destruct (Hq f d HP Hd) as (HP' & HR & S' & HS' & Hd' & Hk). split; [done|]. simpl.
    apply Forall_app; split; [|constructor]; [by apply (procs_move d)| |by apply (procs_move d)].
    by exists S'.
  - apply Forall_app in Hall as [Hl [(S & HS & Hd & Hp & Hk) Hr]%Forall_cons]. split; [done|]. simpl.
    apply Forall_app; split; [done|]. repeat constructor; [by exists S..|done].
  - apply Forall_app in Hall as [Hl [_ Hr]%Forall_cons]. split; [done|]. by apply Forall_app.
  - split; [done|]. constructor; [|done]. exists (fun _ => True). split_and!; auto. by intros d1 d2.
  - destruct (Henv d d' Hd HP) as [HP' HR]. split; [done|]. by apply (procs_move d).
Qed.

Lemma rg_pool spawnable env d0 s :
  (forall p, spawnable p -> safe p) ->
  (forall d d', env d d' -> P d -> P d' /\ R d d') ->
  P d0 -> rtc (pool_step spawnable env) (Pool d0 [] 0) s -> P (shared s).
Proof.
  intros Hsp Henv H0 Hr. assert (rg_inv s) as [? _]; [|done].
  eapply (rtc_closed (pool_step spawnable env) rg_inv (Pool d0 [] 0)); [|by split; [|constructor]|exact Hr].
  intros a b Ha Hab. by eapply rg_inv_step.
Qed.

Lemma rg_inv_moves spawnable env s s' :
  (forall d d', env d d' -> P d -> P d' /\ R d d') ->
  rg_inv s -> pool_step spawnable env s s' -> R (shared s) (shared s').
Proof.
  intros Henv [HP Hall] Hstep. destruct Hstep as [d l q k r n f| | | |d d' l n Hd]; simpl in *; try reflexivity.
  - apply Forall_app in Hall as [_ [(S & HS & Hd & Hq) _]%Forall_cons]. by apply (Hq f d HP Hd).
  - by apply Henv.
Qed.

(** The same with what has moved since the start. *)
Lemma rg_pool_history spawnable env d0 s :
  (forall p, spawnable p -> safe p) ->
  (forall d d', env d d' -> P d -> P d' /\ R d d') ->
  P d0 -> rtc (pool_step spawnable env) (Pool d0 [] 0) s -> P (shared s) /\ R d0 (shared s).
Proof.
  intros Hsp Henv H0 Hr. assert (rg_inv s /\ R d0 (shared s)) as [[? _] ?]; [|done].
  eapply (rtc_closed (pool_step spawnable env) (fun s => rg_inv s /\ R d0 (shared s)) (Pool d0 [] 0));
    [|split; [by split; [|constructor]|reflexivity]|exact Hr].
  intros a b [Ha Hd] Hab. split; [by eapply rg_inv_step|]. etrans; [exact Hd|by eapply rg_inv_moves].
Qed.
End rely_guarantee.

#[export] Hint Resolve stable_true stable_and stable_pure stable_case : gotcha.

(** ** Programs known only by the moves their statements make *)

Fixpoint moves {D A : Type} (G : D -> D -> Prop) (p : prog D A) : Prop :=
  match p with
  | Ret _ => True
  | Step q k => forall f d, G d (q f d) /\ moves G (k f d)
  | Fork p k => moves G p /\ moves G k
  end.

Section moves.
Context {D : Type} (P : D -> Prop) (R : D -> D -> Prop).

Lemma moves_mono {A} (G G' : D -> D -> Prop) (p : prog D A) :
  (forall d d', G d d' -> G' d d') -> moves G p -> moves G' p.
Proof.
  intros HG. induction p as [A a|A q k IH|A p IHp k IHk]; simpl; [done| |naive_solver].
  intros Hp f d. destruct (Hp f d). auto.
Qed.

Lemma moves_bind {A B} (G : D -> D -> Prop) (p : prog D A) (k : A -> prog D B) :
  moves G p -> (forall a, moves G (k a)) -> moves G (mbind k p).
Proof.
  revert k. induction p as [A a|A q k' IH|A p _ k' IH]; intros k Hp Hk; [apply Hk| |].
  - intros f d. destruct (Hp f d). split; [done|]. by apply IH.
  - destruct Hp. split; [done|]. by apply IH.
Qed.

Lemma moves_call {A E} (G : D -> D -> Prop) (e : E) (q : D -> A * D) :
  (forall d, G d d) -> (forall d, G d (q d).2) -> moves G (call e q).
Proof. intros Hr Hq f d. split; [|done]. by destruct f. Qed.

Lemma moves_pgets {A} (G : D -> D -> Prop) (f : D -> A) : (forall d, G d d) -> moves G (pgets f).
Proof. by intros Hr g d. Qed.

(** A program whose moves keep [P] and [R] keeps any stable fact. *)
Lemma rg_moves {A} (G : D -> D -> Prop) (S : D -> Prop) (p : prog D A) :
  stable P R S -> moves G p -> (forall d d', P d -> S d -> G d d' -> P d' /\ R d d') ->
  rg P R S p (fun _ d => S d).
Proof.
  intros HS Hp HG. induction p as [A a|A q k IH|A p IHp k IHk]; simpl in *.
  - done.
  - intros f d HP Hd. destruct (Hp f d) as [Hq Hk]. destruct (HG d _ HP Hd Hq). do 2 (split; [done|]).
    exists S. split; [done|]. split; [by apply (HS d)|]. by apply IH.
  - destruct Hp as [Hp Hk]. split; [|by apply IHk]. eapply rg_mono; [by apply IHp|done].
Qed.

(** What a program returns in every run holds here too. *)
Lemma rg_always {A} (S : D -> Prop) (p : prog D A) (Q : A -> D -> Prop) (φ : A -> Prop) :
  rg P R S p Q -> always (fun _ => True) p φ -> rg P R S p (fun a d => Q a d /\ φ a).
Proof.
  revert S Q φ. induction p as [A a|A q k IH|A p _ k IH]; intros S Q φ Hp Ha; simpl in *; [auto| |].
  - intros f d HP Hd. destruct (Hp f d HP Hd) as (? & ? & S' & ? & ? & ?). destruct (Ha f d I).
    do 2 (split; [done|]). exists S'. do 2 (split; [done|]). auto.
  - destruct Hp, Ha. split; auto.
Qed.

Lemma always_imp {A} (φ : Prop) (p : prog D A) (Q : A -> Prop) :
  (φ -> always (fun _ => True) p Q) -> always (fun _ => True) p (fun a => φ -> Q a).
Proof.
  revert Q. induction p as [A a|A q k IH|A p IHp k IHk]; intros Q Hp; simpl in *; [done| |].
  - intros f d _. split; [done|]. apply IH. intros Hφ. by apply (Hp Hφ f d).
  - split; [|apply IHk; intros Hφ; by apply Hp].
    apply (always_mono _ _ (fun _ => φ -> True)); [|done]. apply IHp. intros Hφ. by apply Hp.
Qed.
End moves.

(** ** Programs that leave what is known alone *)
Section keeps.
Context {D : Type} (P : D -> Prop) (R : D -> D -> Prop) `{!PreOrder R}.

Class Keeps {A} (p : prog D A) : Prop :=
  keeps_rg (S : D -> Prop) : stable P R S -> rg P R S p (fun _ d => S d).

#[export] Instance keeps_ret {A} (a : A) : Keeps (mret a).
Proof. intros S HS d HP Hd. exact Hd. Qed.

#[export] Instance keeps_bind {A B} (p : prog D A) (k : A -> prog D B) :
  Keeps p -> (forall a, Keeps (k a)) -> Keeps (mbind k p).
Proof. intros Hp Hk S HS. eapply rg_bind; [by apply Hp|]. intros a. by apply Hk. Qed.

#[export] Instance keeps_pgets {A} (f : D -> A) : Keeps (pgets f).
Proof. intros S HS. apply (rg_mono _ _ _ _ (fun _ d => S d /\ True)); [|by intros ? ? ? []]. by apply rg_pgets. Qed.

#[export] Instance keeps_ask {A E} (e : E) (f : D -> A) : Keeps (ask e f).
Proof. intros S HS. eapply rg_mono; [by apply (rg_ask P R S e f (fun _ _ => True))|]. by intros r d _ [? _]. Qed.

Lemma keeps_call {A E} (e : E) (q : D -> A * D) :
  (forall d, P d -> P (q d).2 /\ R d (q d).2) -> Keeps (call e q).
Proof.
  intros Hq S HS. eapply rg_mono; [apply (rg_call P R S e q (fun _ _ => True)); [done|done|]|by intros r d _ [? _]].
  intros d HP _. destruct (Hq d HP). done.
Qed.

Lemma keeps_callE {A E} (e : E) (q : D -> result E A * D) :
  (forall d, P d -> P (q d).2 /\ R d (q d).2) -> Keeps (callE e q).
Proof.
  intros Hq S HS. eapply rg_mono; [apply (rg_callE P R S e q (fun _ _ => True)); [done|done|]|by intros r d _ [? _]].
  intros d HP _. destruct (Hq d HP). split_and!; [done..|by destruct (q d).1].
Qed.

Lemma keeps_moves {A} (G : D -> D -> Prop) (p : prog D A) :
  moves G p -> (forall d d', P d -> G d d' -> P d' /\ R d d') -> Keeps p.
Proof. intros Hp HG S HS. apply (rg_moves P R G); [done|done|]. intros d d' HP _. by apply HG. Qed.

(** First a program that leaves everything known alone, then [k]. *)
Lemma rg_seq {A B} (S : D -> Prop) (p : prog D A) (k : A -> prog D B) (Q : B -> D -> Prop) :
  stable P R S -> Keeps p -> (forall a, rg P R S (k a) Q) -> rg P R S (mbind k p) Q.
Proof. intros HS Hp Hk. eapply rg_bind; [by apply Hp|]. exact Hk. Qed.
End keeps.
