(* ===== verification/Ledger.v ===== *)
(** Accounts: what the running processes hold and what the shared state
    records balance.

    The tokens of [wp] (file Prog) are bounded by one each; here the state
    carries a balance in each account [k], every process holds an amount of
    it, and a statement may only move amounts between the two.  With [exact]
    the sums are kept to the unit, and as a process gives back all it holds
    before it ends, a pool at rest has a balance of zero; without it amounts
    may also vanish, as they do when a process dies.

    As in Rely, a process may rely on facts about the shared state that [R],
    the moves of all processes, preserves. *)
From stdpp Require Import base tactics list relations.
From Stdlib Require Import ZArith Lia.
From S2P Require Import Prelude.
From S2P Require Import Prog.
From S2P Require Import Rely.

Open Scope Z_scope.

Section ledger.
Context {D K : Type} (exact : bool) (I : D -> Prop) (R : D -> D -> Prop) `{!PreOrder R} (bal : D -> K -> Z).
Abbreviation wallet := (K -> Z).

Definition meets (x y : Z) : Prop := if exact then x = y else x <= y.

Definition settles (own : wallet) (d : D) (own' : wallet) (d' : D) : Prop :=
  forall k, 0 <= own' k /\ meets (bal d' k + own' k) (bal d k + own k).

(** Nobody owes. *)
Definition solvent (own : wallet) : Prop := forall k, 0 <= own k.

(** What a process holds the state has recorded. *)
Definition covered (own : wallet) (d : D) : Prop := forall k, bal d k + own k <= 0.

(** [holds S p own W Q]: from a state where [S] holds and with [own] in hand,
    every statement of [p] settles whatever others do in between; when [p]
    returns [a], [W a] is in hand and [Q a] holds of the state. *)
Fixpoint holds {A : Type} (S : D -> Prop) (p : prog D A) (own : wallet) (W : A -> wallet) (Q : A -> D -> Prop) : Prop :=
  match p with
  | Ret a => (forall k, own k = W a k) /\ forall d, I d -> S d -> Q a d
  | Step q k => forall f d, I d -> S d -> covered own d -> exists own', I (q f d) /\ R d (q f d) /\ settles own d own' (q f d) /\
      exists S', stable I R S' /\ S' (q f d) /\ holds S' (k f d) own' W Q
  | Fork p k => exists own1 own2, (forall a, 0 <= own1 a /\ 0 <= own2 a /\ own a = own1 a + own2 a) /\
      holds S p own1 (fun _ _ => 0) (fun _ _ => True) /\ holds S k own2 W Q
  end.

Lemma holds_weaken {A} (S S' : D -> Prop) (p : prog D A) own own' W Q :
  (forall d, I d -> S' d -> S d) -> (forall k, own k = own' k) -> holds S p own W Q -> holds S' p own' W Q.
Proof.
  revert own own' W Q. induction p as [A a|A q k IH|A p IHp k IHk]; intros own own' W Q Hsub Ho Hp; simpl in *.
  - destruct Hp as [Hw HQ]. split; [intros k; by rewrite <- Ho|]. auto.
  - intros f d HI HS Hc. destruct (Hp f d HI ltac:(auto)) as (o & ? & ? & Hs & ?); [intros x; rewrite Ho; apply Hc|]. exists o. do 2 (split; [done|]). split; [|done].
    intros a. specialize (Hs a). by rewrite <- Ho.
  - destruct Hp as (o1 & o2 & Hs & Hp & Hk). exists o1, o2. split; [intros a; rewrite <- Ho; apply Hs|].
    split; [by eapply IHp|by eapply IHk].
Qed.

Lemma holds_bind {A B} (S : D -> Prop) (p : prog D A) (k : A -> prog D B) own W Q W' T :
  holds S p own W Q -> (forall a, holds (Q a) (k a) (W a) W' T) -> holds S (mbind k p) own W' T.
Proof.
  intros Hp Hk. revert S k own W Q Hp Hk.
  induction p as [A a|A q k' IH|A p _ k' IH]; intros S k own W Q Hp Hk.
  - destruct Hp as [Hw HQ]. eapply holds_weaken; [exact HQ| |apply Hk]. intros x. by rewrite Hw.
  - intros f d HI HS Hc. destruct (Hp f d HI HS Hc) as (own' & ? & ? & ? & S' & ? & ? & ?). exists own'. do 3 (split; [done|]).
    exists S'. do 2 (split; [done|]). by eapply IH.
  - destruct Hp as (o1 & o2 & ? & ? & ?). exists o1, o2. do 2 (split; [done|]). by eapply IH.
Qed.

Lemma holds_conseq {A} (S : D -> Prop) (p : prog D A) own (W W' : A -> wallet) (Q T : A -> D -> Prop) :
  holds S p own W Q -> (forall a k, W a k = W' a k) -> (forall a d, I d -> Q a d -> T a d) -> holds S p own W' T.
Proof.
  intros Hp Hw Hk. revert S own W W' Q T Hp Hw Hk.
  induction p as [A a|A q k' IH|A p _ k' IH]; intros S own W W' Q T Hp Hw Hk; simpl in *.
  - destruct Hp as [Ho HQ]. split; [intros x; by rewrite Ho|auto].
  - intros f d HI HS Hc. destruct (Hp f d HI HS Hc) as (own' & ? & ? & ? & S' & ? & ? & ?). exists own'. do 3 (split; [done|]).
    exists S'. do 2 (split; [done|]). by eapply IH.
  - destruct Hp as (o1 & o2 & ? & ? & ?). exists o1, o2. do 2 (split; [done|]). by eapply IH.
Qed.

Lemma holds_ret {A} (S : D -> Prop) (a : A) own (W : A -> wallet) (Q : A -> D -> Prop) :
  (forall k, own k = W a k) -> (forall d, I d -> S d -> Q a d) -> holds S (mret a) own W Q.
Proof. by split. Qed.

(** Programs whose statements leave the accounts alone. *)
Lemma holds_moves {A} (G : D -> D -> Prop) (S : D -> Prop) (p : prog D A) own :
  solvent own -> stable I R S -> moves G p -> (forall d d', I d -> G d d' -> I d' /\ R d d' /\ forall k, bal d' k = bal d k) ->
  holds S p own (fun _ => own) (fun _ => S).
Proof.
  intros Hown HS Hp HG. revert own Hown. induction p as [A a|A q k IH|A p IHp k IHk]; intros own Hown; simpl in *; [done| |].
  - intros f d HI Hd _. destruct (Hp f d) as [Hq Hk]. destruct (HG d _ HI Hq) as (HI' & HR & Hb).
    exists own. split_and!; [done|done| |]; [|exists S; split_and!; [done| |by apply IH]; by apply (HS d)].
    intros a. specialize (Hown a). unfold meets. rewrite Hb. destruct exact; lia.
  - destruct Hp as [Hp Hk]. exists (fun _ => 0), own. split_and!; [intros a; specialize (Hown a); lia| |by apply IHk].
    by eapply holds_conseq; [apply IHp|..].
Qed.

(** One statement. *)
Lemma holds_step {A} (S : D -> Prop) (q : fault -> D -> D) (k : fault -> D -> A) own (W : A -> wallet) (Q : A -> D -> Prop) :
  (forall a, stable I R (Q a)) ->
  (forall f d, I d -> S d -> covered own d -> I (q f d) /\ R d (q f d) /\ settles own d (W (k f d)) (q f d) /\ Q (k f d) (q f d)) ->
  holds S (Step q (fun f d => Ret (k f d))) own W Q.
Proof.
  intros HQ H f d HI HS Hc. destruct (H f d HI HS Hc) as (? & ? & ? & ?). exists (W (k f d)). split_and!; [done..|].
  exists (Q (k f d)). split_and!; [done..|]. by split.
Qed.

(** *** Deposits *)

(** [deposits G acc n p]: the statements of [p] move the state along [G] and
    raise [acc] by [n] in all. *)
Fixpoint deposits {A : Type} (G : D -> D -> Prop) (acc : D -> Z) (n : Z) (p : prog D A) : Prop :=
  match p with
  | Ret _ => n = 0
  | Step q k => forall f d, G d (q f d) /\ acc d <= acc (q f d) <= acc d + n /\ deposits G acc (n - (acc (q f d) - acc d)) (k f d)
  | Fork p k => deposits G acc 0 p /\ deposits G acc n k
  end.

Lemma deposits_bind {A B} (G : D -> D -> Prop) (acc : D -> Z) n m (p : prog D A) (k : A -> prog D B) :
  0 <= m -> deposits G acc n p -> (forall a, deposits G acc m (k a)) -> deposits G acc (n + m) (mbind k p).
Proof.
  intros Hm Hp Hk. revert n k Hp Hk. induction p as [A a|A q k' IH|A p _ k' IH]; intros n k Hp Hk; simpl in *.
  - subst n. apply Hk.
  - intros f d. destruct (Hp f d) as (? & ? & Hk'). split_and!; [done|lia|lia|].
    replace (n + m - (acc (q f d) - acc d)) with (n - (acc (q f d) - acc d) + m) by lia. by apply IH.
  - destruct Hp. split; [done|]. by apply IH.
Qed.

Lemma deposits_step {A} (G : D -> D -> Prop) (acc : D -> Z) n (q : fault -> D -> D) (k : fault -> D -> A) :
  0 <= n -> (forall f d, G d (q f d) /\ acc (q f d) = acc d + n) -> deposits G acc n (Step q (fun f d => Ret (k f d))).
Proof. intros Hn Hq f d. destruct (Hq f d) as [? ->]. split_and!; [done|lia|lia|]. simpl. lia. Qed.

Definition spend `{EqDecision K} (key : K) (n : Z) (own : wallet) : wallet := fun k => if decide (k = key) then own k - n else own k.

(** What is deposited in [acc] leaves the hand. *)
Lemma holds_deposits `{EqDecision K} {A} (key : K) (G : D -> D -> Prop) (acc : D -> Z) n (S : D -> Prop) (p : prog D A) own :
  solvent own -> n <= own key -> stable I R S -> deposits G acc n p ->
  (forall d d', I d -> G d d' -> I d' /\ R d d' /\ forall k, bal d' k = bal d k + if decide (k = key) then acc d' - acc d else 0) ->
  holds S p own (fun _ => spend key n own) (fun _ => S).
Proof.
  intros Hown Hn HS Hp HG. revert n own Hown Hn Hp. induction p as [A a|A q k IH|A p IHp k IHk]; intros n own Hown Hn Hp; simpl in *.
  - split; [|done]. intros x. unfold spend. subst n. destruct (decide (x = key)); lia.
  - intros f d HI Hd _. destruct (Hp f d) as (Hq & Hle & Hk). destruct (HG d _ HI Hq) as (HI' & HR & Hb).
    set (i := acc (q f d) - acc d) in *. exists (spend key i own). split_and!; [done|done| |].
    + intros x. specialize (Hown x). specialize (Hb x). unfold spend, meets. destruct (decide (x = key)) as [->|]; destruct exact; lia.
    + exists S. split_and!; [done|by apply (HS d)|].
      eapply holds_conseq; [apply IH; [| |exact Hk]| |done].
      * intros x. specialize (Hown x). unfold spend. destruct (decide (x = key)) as [->|]; lia.
      * unfold spend. rewrite decide_True by done. lia.
      * intros a x. unfold spend. destruct (decide (x = key)); lia.
  - destruct Hp as [Hp Hk]. exists (fun _ => 0), own. split_and!; [intros a; specialize (Hown a); lia| |by apply IHk].
    eapply holds_conseq; [apply (IHp 0 (fun _ => 0)); [done|lia|done]| |done]. intros a x. unfold spend. by destruct (decide _).
Qed.

(** ** All processes together *)

(** The processes of one program: none dies alone. *)
Inductive steady (spawnable : prog D () -> Prop) (env : D -> D -> Prop) : pool D -> pool D -> Prop :=
| steady_run d l q k r n f :
    steady spawnable env (Pool d (l ++ Step q k :: r) n) (Pool (q f d) (l ++ k f d :: r) (is_lost_reply f + n))
| steady_fork d l p k r n : steady spawnable env (Pool d (l ++ Fork p k :: r) n) (Pool d (l ++ k :: p :: r) n)
| steady_done d l r n : steady spawnable env (Pool d (l ++ Ret tt :: r) n) (Pool d (l ++ r) n)
| steady_spawn d l p n : spawnable p -> steady spawnable env (Pool d l n) (Pool d (p :: l) n)
| steady_env d d' l n : env d d' -> steady spawnable env (Pool d l n) (Pool d' l n).

Definition in_hands (owns : list wallet) (k : K) : Z := foldr (fun own n => own k + n) 0 owns.

Lemma in_hands_app l r k : in_hands (l ++ r) k = in_hands l k + in_hands r k.
Proof. unfold in_hands. induction l as [|own l IH]; [done|]. simpl. rewrite IH. lia. Qed.

(** A process gives back all it holds. *)
Definition closes (S : D -> Prop) (p : prog D ()) (own : wallet) : Prop := holds S p own (fun _ _ => 0) (fun _ _ => True).

(** A process that holds [own]. *)
Definition keeps_books (d : D) (p : prog D ()) (own : wallet) : Prop :=
  solvent own /\ exists S, stable I R S /\ S d /\ closes S p own.

(** What every interleaving satisfies. *)
Definition in_balance (s : pool D) : Prop :=
  I (shared s) /\ exists owns, Forall2 (keeps_books (shared s)) (procs s) owns /\
    forall k, meets (bal (shared s) k + in_hands owns k) 0.

Lemma in_hands_nonneg d (ps : list (prog D ())) owns k : Forall2 (keeps_books d) ps owns -> 0 <= in_hands owns k.
Proof. induction 1 as [|p own ps owns [Hs _] _ IH]; [done|]. simpl. specialize (Hs k). lia. Qed.

Lemma books_move d d' ps owns : I d -> I d' -> R d d' -> Forall2 (keeps_books d) ps owns -> Forall2 (keeps_books d') ps owns.
Proof.
  intros HI HI' HR Hall. eapply Forall2_impl; [exact Hall|]. intros p own (Hs & S & HS & Hd & Hp). split; [done|]. exists S. split_and!; [done| |done]. by apply (HS d).
Qed.

Lemma balance_run d l q k r n f : in_balance (Pool d (l ++ Step q k :: r) n) ->
  in_balance (Pool (q f d) (l ++ k f d :: r) (is_lost_reply f + n)) /\ R d (q f d).
Proof.
  intros (HI & owns & Hall & Hsum). simpl in *.
  apply Forall2_app_inv_l in Hall as (owl & owr & Hl & Hr & ->). apply Forall2_cons_inv_l in Hr as (own & owr' & (Hs & S & HS & Hd & Hp) & Hr & ->).
  assert (covered own d) as Hc.
  { intros a. specialize (Hsum a). rewrite in_hands_app in Hsum. simpl in Hsum.
    pose proof (in_hands_nonneg d l owl a Hl). pose proof (in_hands_nonneg d r owr' a Hr). unfold meets in Hsum. destruct exact; lia. }
  destruct (Hp f d HI Hd Hc) as (own' & HI' & HR & Hst & S' & HS' & Hd' & Hk). split; [|done]. split; [done|]. exists (owl ++ own' :: owr'). simpl. split.
  { apply Forall2_app; [by apply (books_move d)|]. constructor; [|by apply (books_move d)]. split; [intros a; apply (Hst a)|]. by exists S'. }
  intros a. specialize (Hsum a). destruct (Hst a) as [_ Hm]. unfold meets in *. rewrite in_hands_app in *. simpl in *. destruct exact; lia.
Qed.

Lemma balance_fork d l p k r n : in_balance (Pool d (l ++ Fork p k :: r) n) -> in_balance (Pool d (l ++ k :: p :: r) n).
Proof.
  intros (HI & owns & Hall & Hsum). simpl in *.
  apply Forall2_app_inv_l in Hall as (owl & owr & Hl & Hr & ->).
  apply Forall2_cons_inv_l in Hr as (own & owr' & (Hs & S & HS & Hd & o1 & o2 & Ho & Hp & Hk) & Hr & ->).
  split; [done|]. exists (owl ++ o2 :: o1 :: owr'). simpl. split.
  { apply Forall2_app; [done|]. constructor; [|constructor; [|done]]; (split; [intros a; apply (Ho a)|by exists S]). }
  intros a. specialize (Hsum a). specialize (Ho a). unfold meets in *. rewrite in_hands_app in *. simpl in *. destruct exact; lia.
Qed.

Lemma balance_end (given_up : bool) d l p r n : (if given_up then exact = false else p = Ret tt) ->
  in_balance (Pool d (l ++ p :: r) n) -> in_balance (Pool d (l ++ r) n).
Proof.
  intros Hend (HI & owns & Hall & Hsum). simpl in *.
  apply Forall2_app_inv_l in Hall as (owl & owr & Hl & Hr & ->). apply Forall2_cons_inv_l in Hr as (own & owr' & (Hs & S & HS & Hd & Hp) & Hr & ->).
  split; [done|]. exists (owl ++ owr'). simpl. split; [by apply Forall2_app|].
  intros a. specialize (Hsum a). specialize (Hs a). rewrite in_hands_app in *. simpl in *. unfold meets in *.
  destruct given_up; [rewrite Hend in *; lia|]. subst p. destruct Hp as [Hp _]. specialize (Hp a). destruct exact; lia.
Qed.

Lemma balance_spawn d l p n : closes (fun _ => True) p (fun _ => 0) -> in_balance (Pool d l n) -> in_balance (Pool d (p :: l) n).
Proof.
  intros Hp (HI & owns & Hall & Hsum). split; [done|]. exists ((fun _ => 0) :: owns). simpl. split.
  { constructor; [|done]. split; [done|]. by exists (fun _ => True). }
  intros a. specialize (Hsum a). unfold meets in *. simpl in *. destruct exact; lia.
Qed.

Lemma balance_env d d' l n : I d' -> R d d' -> (forall k, meets (bal d' k) (bal d k)) -> in_balance (Pool d l n) -> in_balance (Pool d' l n).
Proof.
  intros HI' HR Hb (HI & owns & Hall & Hsum). split; [done|]. exists owns. simpl in *. split; [by eapply books_move|].
  intros a. specialize (Hsum a). specialize (Hb a). unfold meets in *. destruct exact; lia.
Qed.

Context (spawnable : prog D () -> Prop) (env : D -> D -> Prop).
Context (Hspawn : forall p, spawnable p -> closes (fun _ => True) p (fun _ => 0)).
Context (Henv : forall d d', env d d' -> I d -> I d' /\ R d d' /\ forall k, meets (bal d' k) (bal d k)).

Lemma steady_balance s s' : in_balance s -> steady spawnable env s s' -> in_balance s'.
Proof.
  intros Hb Hstep. destruct Hstep as [d l q k r n f|d l p k r n|d l r n|d l p n Hp|d d' l n Hd].
  - by apply balance_run.
  - by apply balance_fork.
  - by apply (balance_end false) in Hb.
  - apply balance_spawn; auto.
  - destruct (Henv d d' Hd) as (? & ? & ?); [apply Hb|]. by eapply balance_env.
Qed.

Lemma pool_balance s s' : exact = false -> in_balance s -> pool_step spawnable env s s' -> in_balance s'.
Proof.
  intros Hex Hb Hstep. destruct Hstep as [d l q k r n f|d l p k r n|d l p r n|d l p n Hp|d d' l n Hd].
  - by apply balance_run.
  - by apply balance_fork.
  - by apply (balance_end true) in Hb.
  - apply balance_spawn; auto.
  - destruct (Henv d d' Hd) as (? & ? & ?); [apply Hb|]. by eapply balance_env.
Qed.

Lemma balance_start d0 : I d0 -> (forall k, meets (bal d0 k) 0) -> in_balance (Pool d0 [] 0).
Proof.
  intros H0 Hb. split; [done|]. exists []. split; [constructor|]. intros k. specialize (Hb k). unfold meets in *. simpl. destruct exact; lia.
Qed.

Lemma balance_nonpos s k : in_balance s -> bal (shared s) k <= 0.
Proof. intros (_ & owns & Hall & Hsum). specialize (Hsum k). pose proof (in_hands_nonneg _ _ _ k Hall). unfold meets in Hsum. destruct exact; lia. Qed.

(** Whatever the interleaving: no account is overdrawn, and at rest every one
    is settled. *)
Lemma ledger_reach d0 s : I d0 -> (forall k, meets (bal d0 k) 0) -> rtc (steady spawnable env) (Pool d0 [] 0) s ->
  I (shared s) /\ (forall k, bal (shared s) k <= 0) /\ (procs s = [] -> forall k, meets (bal (shared s) k) 0).
Proof.
  intros H0 Hb Hr. assert (in_balance s) as Hbal.
  { eapply (rtc_closed (steady spawnable env) in_balance (Pool d0 [] 0)); [| |exact Hr].
    - intros a b Ha Hab. by eapply steady_balance.
    - by apply balance_start. }
  split; [apply Hbal|]. split; [intros k; by apply balance_nonpos|].
  intros Hnil k. destruct Hbal as (_ & owns & Hall & Hsum). rewrite Hnil in Hall. inversion Hall; subst. specialize (Hsum k). simpl in Hsum. by rewrite Z.add_0_r in Hsum.
Qed.

(** With crashes too, when amounts may vanish. *)
Lemma credit_reach d0 s : exact = false -> I d0 -> (forall k, bal d0 k <= 0) -> rtc (pool_step spawnable env) (Pool d0 [] 0) s ->
  I (shared s) /\ forall k, bal (shared s) k <= 0.
Proof.
  intros Hex H0 Hb Hr. assert (in_balance s) as Hbal.
  { eapply (rtc_closed (pool_step spawnable env) in_balance (Pool d0 [] 0)); [| |exact Hr].
    - intros a b Ha Hab. by eapply pool_balance.
    - apply balance_start; [done|]. unfold meets. by rewrite Hex. }
  split; [apply Hbal|]. intros k. by apply balance_nonpos.
Qed.
End ledger.
Section alone.
Context {D : Type}.

(** Running one program alone is an interleaving. *)
Lemma steady_runs spawnable env {A} (p : prog D A) : forall (C : prog D A -> prog D ()) d l r n, is_context C ->
  rtc (steady spawnable env) (Pool d (l ++ C p :: r) n) (Pool (exec0 p d).2 (l ++ C (Ret (exec0 p d).1) :: r) n).
Proof.
  induction p as [A a|A q k IH|A p IHp k IH]; intros C d l r n HC.
  - apply rtc_refl.
  - rewrite (proj1 HC). eapply rtc_l; [apply (steady_run _ _ _ _ _ _ _ _ FNone)|]. by apply IH.
  - rewrite (proj2 HC). eapply rtc_l; [apply steady_fork|].
    assert (exec0 (Fork p k) d = exec0 k (exec0 p d).2) as ->.
    { unfold exec0 at 1. simpl. rewrite exec_nofault. simpl. unfold exec0 at 1. done. }
    etrans; [|by apply IH].
    pose proof (IHp (fun p => p) d (l ++ [C k]) r n) as Hp. rewrite <- !app_assoc in Hp. simpl in Hp.
    etrans; [apply Hp; by split|]. destruct (exec0 p d).1.
    pose proof (steady_done spawnable env (exec0 p d).2 (l ++ [C k]) r n) as Hc.
    rewrite <- !app_assoc in Hc. simpl in Hc. by apply rtc_once.
Qed.

Lemma steady_exec spawnable env (p : prog D ()) d n :
  spawnable p -> rtc (steady spawnable env) (Pool d [] n) (Pool (exec0 p d).2 [] n).
Proof.
  intros Hp. eapply rtc_l; [by apply steady_spawn|].
  etrans; [apply (steady_runs spawnable env p (fun p => p) d [] [] n); by split|]. destruct (exec0 p d).1.
  apply rtc_once, (steady_done _ _ _ []).
Qed.
End alone.
