(* ===== verification/Escalation.v ===== *)
(** Sending the steps of an escalation ladder: [internal/escalation].

    step.go and dispatch.go: a step of an incident is claimed channel by
    channel in [incident_escalations] before anything is sent
    ([ClaimStepChannels]), the channels that did not reach the queue are
    released ([ReleaseStepChannels]), and the level of the incident is raised
    last.  retention.go: [PurgeOldEscalations].

    Replicas of the service run these programs at the same time, so they are
    written in [Prog] and proved for every interleaving. *)
From stdpp Require Import base tactics list gmap strings relations sorting.
From Stdlib Require Import ZArith Lia.
From S2P Require Import Prelude.
From S2P Require Import Prog.

Open Scope Z_scope.
Open Scope go_scope.

(** ** Data *)

Record Step := mkStep { StepNo : Z; DelayMinutes : Z; ChannelIDs : list Z }.

#[export] Instance Step_eq_dec : EqDecision Step.
Proof. solve_decision. Defined.

Abbreviation Ladder := (list Step).

Inductive esc_error :=
| ErrClaim | ErrRelease | ErrLogStep (channelID : Z) | ErrRecordFailure | ErrClearFailure
| ErrBump | ErrEnqueue (channelID : Z) | ErrRecovery | ErrPurge | ErrOlderThan
| ErrInvalidPolicy | ErrPolicySQL | ErrSource | ErrMaintenance | ErrDependency.

#[export] Instance esc_error_eq_dec : EqDecision esc_error.
Proof. solve_decision. Defined.

(** A Go [error] built by [errors.Join]: [[]] is nil. *)
Abbreviation errs := (list esc_error).

Definition errs_of {A} (r : result esc_error A) : errs :=
  match r with Ok _ => [] | Err e => [e] end.

Record PendingIncident := mkPending {
  ID : Z; ProjectID : Z; StartedAt : Z; Severity : string; EscalationLevel : nat }.

(** What the scheduler needs of an incident table: the interfaces [Source]
    and [SuppressedSource] (optional) of source.go. *)
Record SuppressedSource (D : Type) := mkSuppressedSource {
  OpenSuppressed : prog D (result esc_error (list PendingIncident));
  ClearSuppressed : Z -> prog D (result esc_error ()) }.
Arguments OpenSuppressed {D}.
Arguments ClearSuppressed {D}.

Record Source (D : Type) := mkSource {
  Name : string;
  OpenUnacked : prog D (result esc_error (list PendingIncident));
  BumpEscalation : Z -> nat -> prog D (bool * list esc_error);
  Suppressed : option (SuppressedSource D) }.
Arguments Name {D}.
Arguments OpenUnacked {D}.
Arguments BumpEscalation {D}.
Arguments Suppressed {D}.

(** The key of a row: source, incident, step, channel. *)
Abbreviation esc_key := (string * Z * nat * Z)%type.

Record EscTables := mkEscTables {
  escalations : gmap esc_key Z; (** incident_escalations: key to sent_at *)
  log_failures : gmap (string * Z * nat) (Z * Z); (** escalation_step_log_failures: attempts, last_attempt_at *)
  pg_now : Z (** what [now()] returns *) }.

Definition set_escalations (m : gmap esc_key Z) (t : EscTables) : EscTables :=
  mkEscTables m (log_failures t) (pg_now t).
Definition set_log_failures (m : gmap (string * Z * nat) (Z * Z)) (t : EscTables) : EscTables :=
  mkEscTables (escalations t) m (pg_now t).

(** A [time.Duration] has 64 bits. *)
Definition delay (st : Step) : Z := wrap64 (DelayMinutes st * minute).

Definition ContainsID (ids : list Z) (id : Z) : bool := existsb (fun v => v =? id) ids.

Definition difference (won enqueued : list Z) : list Z :=
  List.filter (fun w => negb (ContainsID enqueued w)) won.

(** ** Statements on [incident_escalations] *)

(** [INSERT ... SELECT unnest(chs) ON CONFLICT DO NOTHING RETURNING channel_id] *)
Fixpoint claim_insert (source : string) (id : Z) (step : nat) (chs : list Z) (t : EscTables)
  : list Z * EscTables :=
  match chs with
  | [] => ([], t)
  | ch :: chs =>
      match escalations t !! (source, id, step, ch) with
      | Some _ => claim_insert source id step chs t
      | None =>
          let '(won, t') := claim_insert source id step chs
            (set_escalations (<[(source, id, step, ch) := pg_now t]> (escalations t)) t) in
          (ch :: won, t')
      end
  end.

(** [ON CONFLICT DO UPDATE ... WHERE sent_at < now() - lease].  PostgreSQL
    refuses the whole statement when it would touch a row it wrote itself. *)
Fixpoint lease_insert (source : string) (id : Z) (step : nat) (chs : list Z) (lease : Z)
    (t : EscTables) (won : list Z) : option (list Z * EscTables) :=
  match chs with
  | [] => Some (reverse won, t)
  | ch :: chs =>
      if ContainsID won ch then None else
      let write := lease_insert source id step chs lease
        (set_escalations (<[(source, id, step, ch) := pg_now t]> (escalations t)) t) (ch :: won) in
      match escalations t !! (source, id, step, ch) with
      | None => write
      | Some sent => if sent <? pg_now t - lease then write
                     else lease_insert source id step chs lease t won
      end
  end.

Definition release_delete (source : string) (id : Z) (step : nat) (chs : list Z) (t : EscTables) : EscTables :=
  set_escalations (foldr (fun ch m => delete (source, id, step, ch) m) (escalations t) chs) t.

Section programs.
Context {D : Type} `{Has EscTables D}.

Definition ClaimStepChannels (source : string) (id : Z) (step : nat) (chs : list Z)
  : prog D (result esc_error (list Z)) :=
  if decide (chs = []) then mret (Ok []) else
  call ErrClaim (on (claim_insert source id step chs)).

Definition ClaimStepChannelsWithLease (source : string) (id : Z) (step : nat) (chs : list Z) (lease : Z)
  : prog D (result esc_error (list Z)) :=
  if decide (chs = []) then mret (Ok []) else
  callE ErrClaim (on (fun t =>
    match lease_insert source id step chs lease t [] with
    | Some (won, t') => (Ok won, t')
    | None => (Err ErrClaim, t)
    end)).

Definition ReleaseStepChannels (source : string) (id : Z) (step : nat) (chs : list Z)
  : prog D (result esc_error ()) :=
  if decide (chs = []) then mret (Ok tt) else
  call ErrRelease (on (fun t => (tt, release_delete source id step chs t))).

Definition LogStep (source : string) (id channelID : Z) (step : nat) : prog D (result esc_error ()) :=
  call (ErrLogStep channelID) (on (fun t =>
    (tt, match escalations t !! (source, id, step, channelID) with
         | Some _ => t
         | None => set_escalations (<[(source, id, step, channelID) := pg_now t]> (escalations t)) t
         end))).

Definition recordLogFailure (source : string) (id : Z) (step : nat) : prog D (result esc_error Z) :=
  call ErrRecordFailure (on (fun t =>
    let attempts := match log_failures t !! (source, id, step) with
                    | Some (a, _) => a + 1 | None => 1 end in
    (attempts, set_log_failures (<[(source, id, step) := (attempts, pg_now t)]> (log_failures t)) t))).

Definition clearLogFailure (source : string) (id : Z) (step : nat) : prog D (result esc_error ()) :=
  call ErrClearFailure (on (fun t =>
    (tt, set_log_failures (delete (source, id, step) (log_failures t)) t))).

Definition maxLogFailureAttempts : Z := 5.

Fixpoint log_all (source : string) (id : Z) (step : nat) (chs : list Z) : prog D errs :=
  match chs with
  | [] => mret []
  | ch :: chs =>
      e ← LogStep source id ch step;
      es ← log_all source id step chs;
      mret (errs_of e ++ es)
  end.

Definition LogStepChannels (source : string) (id : Z) (step : nat) (chs : list Z) : prog D (bool * errs) :=
  logErr ← log_all source id step chs;
  if decide (logErr = []) then
    _ ← clearLogFailure source id step;
    mret (true, [])
  else
    tryE: attempts ← recordLogFailure source id step catch trackErr => mret (false, logErr ++ [trackErr]);
    if attempts <? maxLogFailureAttempts then mret (false, logErr) else
    _ ← clearLogFailure source id step;
    mret (true, logErr).

(** [SELECT DISTINCT channel_id]: the result is a set. *)
Definition logged_channels (source : string) (id : Z) (t : EscTables) : gset Z :=
  list_to_set (omap (fun '((s, i, _, ch), _) => if decide (s = source /\ i = id) then Some ch else None)
    (map_to_list (escalations t))).

Definition RecoveryChannels (source : string) (id : Z) : prog D (result esc_error (list Z)) :=
  ask ErrRecovery (fun d => elements (logged_channels source id (get d))).

(** ** [SendStepIfDue] *)

(** [notifyStep channelIDs step] and [bump id from] are the callbacks of the
    caller. *)
Definition SendStepIfDue (ladder : Ladder) (source : string) (incidentID : Z) (level : nat) (elapsed : Z)
    (notifyStep : list Z -> nat -> prog D (list Z * errs))
    (bump : Z -> nat -> prog D (bool * errs)) : prog D (bool * errs) :=
  match ladder !! level with
  | None => mret (false, [])
  | Some st =>
      if elapsed <? delay st then mret (false, []) else
      let chs := ChannelIDs st in
      if decide (chs = []) then bump incidentID level else
      tryE: won ← ClaimStepChannels source incidentID level chs catch err => mret (false, [err]);
      if decide (won = []) then bump incidentID level else
      r ← notifyStep won level;
      let '(enqueued, notifyErr) := r in
      let unsent := difference won enqueued in
      rel ← ReleaseStepChannels source incidentID level unsent;
      let relErr := errs_of rel in
      if decide (notifyErr <> [] /\ enqueued = []) then mret (false, notifyErr ++ relErr) else
      b ← bump incidentID level;
      let '(ok, bumpErr) := b in
      mret (ok, notifyErr ++ relErr ++ bumpErr)
  end.
End programs.

(** ** What the statements do to the table *)

Lemma ContainsID_true ids id : ContainsID ids id = true <-> id ∈ ids.
Proof.
  unfold ContainsID. rewrite existsb_exists. setoid_rewrite Z.eqb_eq. split.
  - intros (v & Hv & ->). by apply list_elem_of_In.
  - intros Hin. exists id. by split; [apply list_elem_of_In|].
Qed.

Lemma elem_of_difference_list won enq ch : ch ∈ difference won enq <-> ch ∈ won /\ ch ∉ enq.
Proof.
  unfold difference. rewrite list_elem_of_In, filter_In, <- list_elem_of_In, negb_true_iff.
  rewrite <- not_true_iff_false, ContainsID_true. done.
Qed.

Definition step_keys (source : string) (id : Z) (step : nat) (chs : list Z) : list esc_key :=
  map (fun ch => (source, id, step, ch)) chs.

Section table.
Context (source : string) (id : Z) (step : nat).
Abbreviation key ch := (source, id, step, ch).

Lemma elem_of_step_keys chs k : k ∈ step_keys source id step chs <-> exists ch, ch ∈ chs /\ k = key ch.
Proof.
  unfold step_keys. rewrite list_elem_of_fmap. split; intros (ch & ? & ?); eauto.
Qed.

Lemma step_key_in chs ch : key ch ∈ step_keys source id step chs <-> ch ∈ chs.
Proof. rewrite elem_of_step_keys. split; [intros (? & ? & [= ->])|]; eauto. Qed.

Lemma claim_insert_spec chs t won t' :
  claim_insert source id step chs t = (won, t') ->
  NoDup won /\ (forall ch, ch ∈ won <-> ch ∈ chs /\ escalations t !! key ch = None) /\
  (forall k, escalations t' !! k =
     match escalations t !! k with
     | Some v => Some v
     | None => if decide (k ∈ step_keys source id step chs) then Some (pg_now t) else None
     end) /\
  log_failures t' = log_failures t /\ pg_now t' = pg_now t.
Proof.
  revert t won t'. induction chs as [|ch chs IH]; intros t won t'; simpl.
  { intros [= <- <-]. split_and!; [constructor| | |done|done].
    - intros ch. rewrite !elem_of_nil. tauto.
    - intros k. destruct (escalations t !! k); [done|].
      done. }
  destruct (escalations t !! key ch) as [v|] eqn:Hch.
  { intros (Hnd & Hwon & Ht & Hlf & Hnow)%IH. split_and!; [done| | |done|done].
    - intros c. rewrite Hwon, elem_of_cons. split; [tauto|]. intros [[->|?] ?]; [congruence|done].
    - intros k. rewrite Ht. destruct (escalations t !! k) eqn:Hk; [done|].
      apply decide_ext. rewrite elem_of_cons. split; [by right|].
      intros [->|?]; [|done]. congruence. }
  destruct (claim_insert source id step chs _) as [won1 t1] eqn:Hrec. intros [= <- <-].
  apply IH in Hrec as (Hnd & Hwon & Ht & Hlf & Hnow). simpl in *.
  assert (forall c, c ∈ won1 -> c <> ch) as Hne.
  { intros c (_ & Hc)%Hwon ->. by rewrite lookup_insert_eq in Hc. }
  split_and!; [| | |done|done].
  - constructor; [|done]. intros Hin. by apply (Hne ch).
  - intros c. rewrite !elem_of_cons, Hwon. destruct (decide (c = ch)) as [->|Hc]; [tauto|].
    rewrite lookup_insert_ne by congruence. tauto.
  - intros k. rewrite Ht. destruct (decide (k = key ch)) as [->|Hk].
    + rewrite lookup_insert_eq, Hch, decide_True; [done|]. apply elem_of_cons. by left.
    + rewrite lookup_insert_ne by congruence. destruct (escalations t !! k); [done|].
      apply decide_ext. rewrite elem_of_cons. tauto.
Qed.

Lemma release_delete_spec chs t k :
  escalations (release_delete source id step chs t) !! k =
  if decide (k ∈ step_keys source id step chs) then None else escalations t !! k.
Proof.
  unfold release_delete. simpl. induction chs as [|ch chs IH]; simpl.
  { done. }
  destruct (decide (k = key ch)) as [->|Hk].
  - rewrite lookup_delete_eq, decide_True; [done|]. apply elem_of_cons. by left.
  - rewrite lookup_delete_ne, IH by congruence. apply decide_ext.
    rewrite elem_of_cons. tauto.
Qed.
End table.

(** ** At most one delivery *)

Record Deliveries := mkDeliveries { delivered : list esc_key }.

Section safety.
Context {D : Type} `{Has EscTables D}.
(** The notifications put in the queue so far, each named by the step and
    the channel it is for. *)
Context `{Has Deliveries D}.

Definition unclaimed (k : esc_key) (t : EscTables) : nat :=
  if decide (is_Some (escalations t !! k)) then 0 else 1.

(** One more delivery of [k] is possible while [k] is not claimed. *)
Definition delivery_potential (d : D) (k : esc_key) : nat :=
  (times k (delivered (get d)) + unclaimed k (get d))%nat.

(** What [StepNotifier.NotifyStep] promises: it delivers only channels it was
    given, each at most once, and reports those it delivered. *)
Class NotifyLaw (source : string) (notify : Z -> list Z -> nat -> prog D (list Z * errs)) : Prop :=
  notify_wp id chs step (own : gset esc_key) :
    chs <> [] -> NoDup chs -> list_to_set (step_keys source id step chs) ⊆ own ->
    wp (fun _ => True) delivery_potential 1 (notify id chs step) own (fun r own' =>
      list_to_set (step_keys source id step (difference chs r.1)) ⊆ own').

(** What [Source.BumpEscalation] promises: it leaves deliveries and claims
    alone. *)
Class BumpLaw (bump : Z -> nat -> prog D (bool * errs)) : Prop :=
  bump_wp id from (own : gset esc_key) :
    wp (fun _ => True) delivery_potential 1 (bump id from) own (fun _ _ => True).

Context `{!Apart EscTables Deliveries D}.

Abbreviation wpd := (wp (fun _ => True) delivery_potential 1).

Lemma ClaimStepChannels_wp source id step chs :
  wpd (ClaimStepChannels source id step chs) ∅ (fun r own' =>
    match r with
    | Ok won => NoDup won /\ (forall ch, ch ∈ won -> ch ∈ chs) /\ own' = list_to_set (step_keys source id step won)
    | Err _ => True
    end).
Proof.
  unfold ClaimStepChannels. case_decide.
  { simpl. split_and!; [constructor| |done]. by intros ch ?%elem_of_nil. }
  intros f d _. destruct (claim_insert source id step chs (get d)) as [won t'] eqn:Hc.
  assert ((on (claim_insert source id step chs) d).2 = put t' d) as Hd by (unfold on; by rewrite Hc).
  assert ((on (claim_insert source id step chs) d).1 = won) as Hv by (unfold on; by rewrite Hc).
  apply claim_insert_spec in Hc as (Hnd & Hwon & Ht & _).
  assert (forall k, (unclaimed k t' + held (list_to_set (step_keys source id step won)) k
                     <= unclaimed k (get d))%nat) as Hk.
  { intros k. unfold unclaimed, held. rewrite Ht.
    destruct (escalations (get d) !! k) eqn:Hl.
    - rewrite decide_True by eauto. rewrite decide_False; [simpl; lia|].
      rewrite elem_of_list_to_set, elem_of_step_keys. intros (ch & Hch & ->). apply Hwon in Hch as [_ ?]. congruence.
    - rewrite (decide_False (P := is_Some None)) by (intros []; done).
      destruct (decide (k ∈ step_keys source id step chs)); [rewrite decide_True by eauto|].
      { destruct (decide (k ∈ _)); lia. }
      rewrite decide_False by (intros []; done). rewrite decide_False; [done|].
      rewrite elem_of_list_to_set, elem_of_step_keys. intros (ch & Hch & ->). apply Hwon in Hch as [? _].
      rewrite step_key_in in *. done. }
  unfold pays, delivery_potential. destruct f; simpl; rewrite ?Hd, ?Hv; simpl.
  - exists (list_to_set (step_keys source id step won)). split; [done|]. split.
    + intros k. rewrite get_put_apart, get_put. specialize (Hk k). unfold held at 2. case_decide; lia.
    + split_and!; [done| |done]. intros ch Hch. by apply Hwon in Hch as [].
  - exists ∅. split; [done|]. split; [|done]. intros k. lia.
  - exists ∅. split; [done|]. split; [|done]. intros k. rewrite get_put_apart, get_put. specialize (Hk k). lia.
Qed.

Lemma ReleaseStepChannels_wp source id step chs own :
  list_to_set (step_keys source id step chs) ⊆ own ->
  wpd (ReleaseStepChannels source id step chs) own (fun _ _ => True).
Proof.
  intros Hown. unfold ReleaseStepChannels. case_decide; [done|]. intros f d _.
  exists (own ∖ list_to_set (step_keys source id step chs)).
  assert (forall k, (unclaimed k (release_delete source id step chs (get d))
     + held (own ∖ list_to_set (step_keys source id step chs)) k <= unclaimed k (get d) + held own k)%nat) as Hk.
  { intros k. unfold unclaimed, held. rewrite release_delete_spec.
    destruct (decide (k ∈ step_keys source id step chs)) as [Hin|Hin].
    - rewrite (decide_True (P := k ∈ own)) by (apply Hown; by rewrite elem_of_list_to_set).
      rewrite (decide_False (P := k ∈ own ∖ _)) by (rewrite elem_of_difference, elem_of_list_to_set; tauto).
      repeat case_decide; lia.
    - destruct (decide (k ∈ own)); [|rewrite (decide_False (P := k ∈ own ∖ _)) by set_solver; lia].
      destruct (decide (k ∈ own ∖ _)); lia. }
  assert (forall k, (held (own ∖ list_to_set (step_keys source id step chs)) k <= held own k)%nat) as Hm.
  { intros k. apply held_mono. set_solver. }
  unfold pays, delivery_potential, on.
  split; [done|].
  destruct f; simpl; (split; [|done]); intros k; specialize (Hk k); specialize (Hm k);
    rewrite ?get_put_apart, ?get_put; lia.
Qed.

Lemma SendStepIfDue_wp ladder source id level elapsed notify bump :
  NotifyLaw source notify -> BumpLaw bump ->
  wpd (SendStepIfDue ladder source id level elapsed (notify id) bump) ∅ (fun _ _ => True).
Proof.
  intros Hn Hb. unfold SendStepIfDue.
  destruct (ladder !! level) as [st|]; [|done].
  case_match; [done|]. case_decide; [apply Hb|].
  eapply wp_bind; [apply ClaimStepChannels_wp|]. intros [won|e] own; [|done].
  intros (Hnd & _ & ->). case_decide; [apply Hb|].
  eapply wp_bind; [by apply Hn|]. intros [enq nerr] own' Hown. simpl in *.
  eapply wp_bind; [by apply ReleaseStepChannels_wp|]. intros rel own'' _.
  case_decide; [done|]. eapply wp_bind; [apply Hb|]. by intros [].
Qed.
End safety.

(** ** Leased claims *)

Definition at_time (now : Z) (t : EscTables) : EscTables := mkEscTables (escalations t) (log_failures t) now.

(** The outcome of [ClaimStepChannelsWithLease] on the tables. *)
Definition lease_claim (source : string) (id : Z) (step : nat) (chs : list Z) (lease : Z) (t : EscTables)
  : result esc_error (list Z) * EscTables :=
  exec0 (ClaimStepChannelsWithLease source id step chs lease) t.

Lemma lease_insert_spec source id step chs lease t won0 won t' :
  lease_insert source id step chs lease t won0 = Some (won, t') ->
  pg_now t' = pg_now t /\ log_failures t' = log_failures t /\
  exists won1, won = reverse won0 ++ won1 /\ NoDup won1 /\
    (forall c, c ∈ won1 -> c ∈ chs /\ (c ∉ won0) /\
       escalations t' !! (source, id, step, c) = Some (pg_now t) /\
       forall sent, escalations t !! (source, id, step, c) = Some sent -> sent < pg_now t - lease) /\
    (forall k, k ∉ step_keys source id step won1 -> escalations t' !! k = escalations t !! k).
Proof.
  revert t won0. induction chs as [|ch chs IH]; intros t won0; simpl.
  { intros [= <- <-]. split_and!; [done..|]. exists []. rewrite app_nil_r.
    split_and!; [done|constructor| |done]. by intros c ?%elem_of_nil. }
  destruct (ContainsID won0 ch) eqn:Hdup; [done|].
  apply not_true_iff_false in Hdup. rewrite ContainsID_true in Hdup.
  pose proof (IH (set_escalations (<[(source, id, step, ch) := pg_now t]> (escalations t)) t) (ch :: won0)) as IHw.
  set (P := pg_now t' = pg_now t /\ _).
  assert ((forall sent, escalations t !! (source, id, step, ch) = Some sent -> sent < pg_now t - lease) ->
    lease_insert source id step chs lease
      (set_escalations (<[(source, id, step, ch) := pg_now t]> (escalations t)) t) (ch :: won0) = Some (won, t') ->
    P) as Hwrite.
  { intros Hold Hw. destruct (IHw Hw) as (Hnow & Hlf & won1 & -> & Hnd & Hin & Hout). simpl in *.
    subst P. split_and!; [done..|]. exists (ch :: won1). split_and!.
    - rewrite reverse_cons, <- app_assoc. done.
    - constructor; [|done]. intros (_ & Hc & _)%Hin. apply Hc, elem_of_cons. by left.
    - intros c [->|Hc]%elem_of_cons.
      + split_and!; [apply elem_of_cons; by left|done| |done].
        rewrite Hout, lookup_insert_eq; [done|]. rewrite step_key_in. intros (_ & Hc & _)%Hin.
        apply Hc, elem_of_cons. by left.
      + destruct (Hin c Hc) as (? & Hc0 & Hrow & Hsent). rewrite elem_of_cons in *.
        split_and!; [by right|naive_solver|done|]. intros sent. specialize (Hsent sent).
        rewrite lookup_insert_ne in Hsent; [done|]. intros [= ->]. naive_solver.
    - intros k Hk. rewrite Hout by (simpl in Hk; rewrite elem_of_cons in Hk; naive_solver).
      apply lookup_insert_ne. intros <-. apply Hk, elem_of_cons. by left. }
  assert (lease_insert source id step chs lease t won0 = Some (won, t') -> P) as Hskip.
  { intros (? & ? & won1 & ? & ? & Hin & ?)%IH. subst P. split_and!; [done..|].
    exists won1. split_and!; [done|done| |done]. intros c Hc. rewrite elem_of_cons. naive_solver. }
  destruct (escalations t !! (source, id, step, ch)) as [sent|]; [|by apply Hwrite].
  destruct (Z.ltb_spec sent (pg_now t - lease)); [|done]. apply Hwrite. by intros ? [= <-].
Qed.

(** Claims of one step made over time by any replicas, in the order the
    database ran them; each entry is the time and the channels asked for. *)
Fixpoint lease_run (source : string) (id : Z) (step : nat) (lease : Z) (ops : list (Z * list Z)) (t : EscTables)
  : list (Z * list Z) :=
  match ops with
  | [] => []
  | (now, chs) :: ops =>
      let '(r, t') := lease_claim source id step chs lease (at_time now t) in
      (now, match r with Ok won => won | Err _ => [] end) :: lease_run source id step lease ops t'
  end.

Definition win_times (ch : Z) (wins : list (Z * list Z)) : list Z :=
  omap (fun '(now, won) => if ContainsID won ch then Some now else None) wins.

Lemma lease_claim_cases source id step chs lease t :
  let '(r, t') := lease_claim source id step chs lease t in
  let won := match r with Ok won => won | Err _ => [] end in
  NoDup won /\
  (forall c, c ∈ won -> escalations t' !! (source, id, step, c) = Some (pg_now t) /\
     forall sent, escalations t !! (source, id, step, c) = Some sent -> sent < pg_now t - lease) /\
  (forall c, c ∉ won -> escalations t' !! (source, id, step, c) = escalations t !! (source, id, step, c)).
Proof.
  unfold lease_claim, ClaimStepChannelsWithLease. case_decide.
  { simpl. split_and!; [constructor| |done]. by intros c ?%elem_of_nil. }
  rewrite exec0_callE. unfold on. simpl. destruct (lease_insert _ _ _ _ _ _ _) as [[won t']|] eqn:Hl.
  - apply lease_insert_spec in Hl as (_ & _ & won1 & -> & Hnd & Hin & Hout). simpl.
    split_and!; [done|naive_solver|]. intros c Hc. apply Hout. by rewrite step_key_in.
  - simpl. split_and!; [constructor| |done]. by intros c ?%elem_of_nil.
Qed.

Lemma lease_run_after source id step lease ops t ch last :
  Sorted Z.le (last :: map fst ops) -> 0 <= lease ->
  (forall sent, escalations t !! (source, id, step, ch) = Some sent -> sent <= last) ->
  Sorted (fun a b => a + lease < b) (win_times ch (lease_run source id step lease ops t)) /\
  forall sent, escalations t !! (source, id, step, ch) = Some sent ->
    HdRel (fun a b => a + lease < b) sent (win_times ch (lease_run source id step lease ops t)).
Proof.
  intros Hs Hl. revert t last Hs. induction ops as [|[now chs] ops IH]; intros t last Hs Hrow; simpl.
  { split; [constructor|]. intros. constructor. }
  pose proof (lease_claim_cases source id step chs lease (at_time now t)) as Hc.
  destruct (lease_claim source id step chs lease (at_time now t)) as [r t'].
  destruct Hc as (_ & Hin & Hout). simpl in *.
  set (won := match r with Ok won => won | Err _ => [] end) in *.
  apply Sorted_inv in Hs as [Hs Hhd]. inversion Hhd; subst.
  destruct (ContainsID won ch) eqn:Hwon.
  - apply ContainsID_true in Hwon. destruct (Hin ch Hwon) as [Hnew Hold].
    destruct (IH t' now Hs) as [IH1 IH2]; [rewrite Hnew; intros ? [= <-]; lia|]. split.
    + constructor; auto.
    + intros sent Hsent. constructor. specialize (Hold sent Hsent). lia.
  - apply not_true_iff_false in Hwon. rewrite ContainsID_true in Hwon. specialize (Hout ch Hwon).
    rewrite <- Hout. apply (IH t' now Hs). rewrite Hout. intros sent Hsent. specialize (Hrow sent Hsent). lia.
Qed.

(** while a claim holds nobody else gets the channel: over any history of
    leased claims of a step, by any replicas, two claims that win the same
    channel are more than the lease apart. *)
Theorem lease_exclusive (source : string) (id : Z) (step : nat) (lease : Z) (ops : list (Z * list Z)) (t : EscTables) (ch : Z) :
  0 <= lease -> escalations t = ∅ -> Sorted Z.le (map fst ops) ->
  Sorted (fun a b => a + lease < b) (win_times ch (lease_run source id step lease ops t)).
Proof.
  intros Hl Ht Hs. destruct ops as [|[now chs] ops]; [constructor|].
  apply (lease_run_after source id step lease _ t ch now); [by constructor; [|constructor]|done|].
  rewrite Ht. intros sent. by rewrite lookup_empty.
Qed.

Lemma lease_exclusive_witness :
  win_times 7 (lease_run "uptime" 1 0 30 [(0, [7]); (10, [7; 8]); (31, [8; 7])] (mkEscTables ∅ ∅ 0)) = [0; 31] /\
  Sorted (fun a b => a + 30 < b)
    (win_times 7 (lease_run "uptime" 1 0 30 [(0, [7]); (10, [7; 8]); (31, [8; 7])] (mkEscTables ∅ ∅ 0))).
Proof.
  split; [vm_compute; reflexivity|].
  apply (lease_exclusive "uptime" 1 0 30 [(0, [7]); (10, [7; 8]); (31, [8; 7])] (mkEscTables ∅ ∅ 0) 7);
    [lia|reflexivity|repeat constructor; simpl; lia].
Defined.

(** ** A log that keeps failing does not hold a step for ever *)
Section log_progress.
Context {D : Type} `{Has EscTables D}.
Context (source : string) (id : Z) (step : nat) (chs : list Z).

Definition attempts_of (t : EscTables) : Z :=
  match log_failures t !! (source, id, step) with Some (a, _) => a | None => 0 end.

Lemma log_all_errors cs L :
  always (fun d : D => log_failures (get d) = L) (log_all source id step cs)
    (fun es => forall e, e ∈ es -> exists c, e = ErrLogStep c).
Proof.
  induction cs as [|c cs IH]; simpl; [by intros e ?%elem_of_nil|].
  intros f d Hd. split.
  { destruct f; simpl; [|done|]; rewrite get_put; by case_match. }
  assert (always (fun d : D => log_failures (get d) = L)
    (es ← log_all source id step cs; mret ((if f is FNone then [] else [ErrLogStep c]) ++ es))
    (fun es => forall e, e ∈ es -> exists c, e = ErrLogStep c)) as Hk.
  { eapply always_bind; [exact IH|]. intros es Hes e [He|He]%elem_of_app; [|by apply Hes].
    destruct f; apply list_elem_of_In in He; simpl in He; naive_solver. }
  destruct f; exact Hk.
Qed.

(** One call: done, or the counter could not be written, or it grew and is
    still below the ceiling. *)
Lemma LogStepChannels_call (s : sys D) :
  let '((done, es), s') := exec (LogStepChannels source id step chs) s in
  done = true \/ ErrRecordFailure ∈ es \/
  (attempts_of (get (db s')) = attempts_of (get (db s)) + 1 /\
   attempts_of (get (db s')) < maxLogFailureAttempts).
Proof.
  pose proof (always_exec _ _ _ s (log_all_errors chs (log_failures (get (db s)))) eq_refl) as [He Hlf].
  unfold LogStepChannels. rewrite exec_bind. simpl in He, Hlf |- *.
  destruct (exec (log_all source id step chs) s) as [es s1]. simpl in He, Hlf.
  case_decide as Hes.
  { simpl. destruct (next_fault (faults s1)). simpl. by left. }
  simpl. destruct (next_fault (faults s1)) as [f fs].
  assert (attempts_of (get (db s1)) = attempts_of (get (db s))) as Ha by (unfold attempts_of; by rewrite Hlf).
  destruct f; simpl; [|by right; left; apply elem_of_app; right; left..].
  assert ((match log_failures (get (db s1)) !! (source, id, step) with
          | Some (a, _) => a + 1 | None => 1 end) = attempts_of (get (db s1)) + 1) as ->.
  { unfold attempts_of. by destruct (log_failures _ !! _) as [[]|]. }
  destruct (Z.ltb_spec (attempts_of (get (db s1)) + 1) maxLogFailureAttempts) as [Hlt|]; simpl.
  - right; right. rewrite get_put.
    assert (forall m t, attempts_of (set_log_failures (<[(source, id, step) := m]> (log_failures t)) t) = m.1) as Hset
      by (intros [] t; unfold attempts_of; simpl; by rewrite lookup_insert_eq).
    rewrite Hset. simpl. lia.
  - destruct (next_fault fs). simpl. by left.
Qed.

(** Successive calls for the same step, one per tick, each with its faults. *)
Fixpoint log_calls (fss : list (list fault)) (d : D) : list (bool * errs) :=
  match fss with
  | [] => []
  | fs :: fss => let '(r, s) := exec (LogStepChannels source id step chs) (Sys d fs) in
                 r :: log_calls fss (db s)
  end.

Lemma log_calls_bounded fss d :
  0 <= attempts_of (get d) -> maxLogFailureAttempts <= attempts_of (get d) + Z.of_nat (length fss) ->
  fss <> [] ->
  (forall r, r ∈ log_calls fss d -> ErrRecordFailure ∉ r.2) ->
  exists r, r ∈ log_calls fss d /\ r.1 = true.
Proof.
  revert d. induction fss as [|fs fss IH]; intros d H0 Hlen Hne Hrec; [done|]. simpl in *.
  pose proof (LogStepChannels_call (Sys d fs)) as Hc.
  destruct (exec (LogStepChannels source id step chs) (Sys d fs)) as [[dn es] s] eqn:He. simpl in *.
  destruct Hc as [->|[Hc|[Heq Hlt]]].
  - exists (true, es). split; [by left|done].
  - destruct (Hrec (dn, es)); [by left|done].
  - destruct (IH (db s)) as (r & Hr & Hd); [lia|lia| | |].
    + intros ->. simpl in *. lia.
    + intros r Hr. apply Hrec. by right.
    + exists r. split; [by right|done].
Qed.
End log_progress.

(** logging a step that already reached its channels cannot hold the
    ladder for ever: whatever the faults, of [maxLogFailureAttempts]
    consecutive calls that could at least count their failure one reports the
    step done, so the level moves on. *)
Theorem LogStepChannels_progress {D} `{Has EscTables D} (source : string) (id : Z) (step : nat) (chs : list Z)
    (fss : list (list fault)) (d : D) :
  0 <= attempts_of source id step (get d) ->
  Z.of_nat (length fss) = maxLogFailureAttempts ->
  (forall r, r ∈ log_calls source id step chs fss d -> ErrRecordFailure ∉ r.2) ->
  exists r, r ∈ log_calls source id step chs fss d /\ r.1 = true.
Proof.
  intros H0 Hlen Hrec. apply log_calls_bounded; [done| |by intros ->|done]. lia.
Qed.

Lemma LogStepChannels_progress_witness :
  let fss := replicate 5 [FLost; FNone] in
  log_calls "uptime" 1 0 [7] fss (mkEscTables ∅ ∅ 0) =
    replicate 4 (false, [ErrLogStep 7]) ++ [(true, [ErrLogStep 7])] /\
  exists r, r ∈ log_calls "uptime" 1 0 [7] fss (mkEscTables ∅ ∅ 0) /\ r.1 = true.
Proof.
  split; [vm_compute; reflexivity|].
  apply (LogStepChannels_progress "uptime" 1 0 [7] (replicate 5 [FLost; FNone]) (mkEscTables ∅ ∅ 0)).
  - vm_compute. discriminate.
  - reflexivity.
  - intros r Hr. apply list_elem_of_In in Hr. vm_compute in Hr.
    repeat (destruct Hr as [<-|Hr]; [apply (bool_decide_unpack _); vm_compute; exact I|]). done.
Defined.

(** ** The delay of a step is an [int64] *)

Lemma minute_value : minute = 60000000000.
Proof. reflexivity. Qed.

(** the delay of a step, computed as [DelayMinutes * time.Minute] on 64
    bits, is the configured one exactly up to 153722867 minutes.  The ladder
    accepts more (any non-negative [int] column): one minute above the bound
    the delay is negative and the step is due at once. *)
Theorem delay_exact_iff (st : Step) :
  0 <= DelayMinutes st < 2 ^ 31 ->
  (delay st = DelayMinutes st * minute <-> DelayMinutes st <= 153722867) /\
  (DelayMinutes st = 153722868 -> delay st < 0).
Proof.
  intros Hm. unfold delay. rewrite minute_value. split; [split|].
  - intros Heq. pose proof (wrap64_range (DelayMinutes st * 60000000000)). lia.
  - intros Hle. apply wrap64_id. lia.
  - intros ->. vm_compute. reflexivity.
Qed.

Lemma delay_exact_iff_witness :
  delay (mkStep 0 153722868 [1]) < 0 /\ delay (mkStep 0 15 [1]) = 15 * minute.
Proof.
  split.
  - apply (delay_exact_iff (mkStep 0 153722868 [1])); [simpl; lia|reflexivity].
  - apply (delay_exact_iff (mkStep 0 15 [1])); simpl; lia.
Defined.
