(* ===== verification/HostIncidents.v ===== *)
(** The table of host incidents: [internal/host/incident.go].

    Every operation of [IncidentService] is a program over [host_incidents];
    [host_source] packs the ones the escalation scheduler uses. *)
From stdpp Require Import base tactics list gmap strings sorting relations.
From Stdlib Require Import ZArith Lia SpecFloat.
From S2P Require Import Prelude.
From S2P Require Import Prog.
From S2P Require Import Escalation.

Open Scope Z_scope.
Open Scope go_scope.

(** ** Data *)

(** A [float64]. *)
Abbreviation float64 := spec_float.

Record Incident := mkIncident {
  ID : Z; ProjectID : Z; HostID : Z; Kind : string; Status : string;
  CurrentValue : float64; PeakValue : float64; Detail : string;
  StartedAt : Z; ResolvedAt : option Z;
  InMaintenance : bool; NotifiedOpen : bool; NotifiedClose : bool;
  AcknowledgedAt : option Z; AcknowledgedBy : option Z;
  Severity : string; SuppressedByDep : bool;
  (** columns the Go struct does not carry *)
  escalation_level : nat; last_escalated_at : option Z;
  dep_released_at : option Z; group_id : option Z }.

Inductive inc_error := ErrIncidentNotFound | ErrConflictGone | ErrSQL.

Record IncTables := mkIncTables {
  host_incidents : gmap Z Incident;
  next_id : Z;
  groups : gmap Z (option Z); (** incident_groups: id to resolved_at *)
  inc_now : Z }.

Definition is_open (i : Incident) : bool := bool_decide (Status i = "open").

(** Updates of one row. *)
Definition set_values (current peak : float64) (i : Incident) : Incident :=
  mkIncident (ID i) (ProjectID i) (HostID i) (Kind i) (Status i) current peak (Detail i)
    (StartedAt i) (ResolvedAt i) (InMaintenance i) (NotifiedOpen i) (NotifiedClose i)
    (AcknowledgedAt i) (AcknowledgedBy i) (Severity i) (SuppressedByDep i)
    (escalation_level i) (last_escalated_at i) (dep_released_at i) (group_id i).
Definition set_resolved (now : Z) (i : Incident) : Incident :=
  mkIncident (ID i) (ProjectID i) (HostID i) (Kind i) "resolved" (CurrentValue i) (PeakValue i) (Detail i)
    (StartedAt i) (Some now) (InMaintenance i) (NotifiedOpen i) (NotifiedClose i)
    (AcknowledgedAt i) (AcknowledgedBy i) (Severity i) (SuppressedByDep i)
    (escalation_level i) (last_escalated_at i) (dep_released_at i) (group_id i).
Definition set_notified (opened : bool) (i : Incident) : Incident :=
  mkIncident (ID i) (ProjectID i) (HostID i) (Kind i) (Status i) (CurrentValue i) (PeakValue i) (Detail i)
    (StartedAt i) (ResolvedAt i) (InMaintenance i) (if opened then true else NotifiedOpen i)
    (if opened then NotifiedClose i else true)
    (AcknowledgedAt i) (AcknowledgedBy i) (Severity i) (SuppressedByDep i)
    (escalation_level i) (last_escalated_at i) (dep_released_at i) (group_id i).
Definition set_acked (now user : Z) (i : Incident) : Incident :=
  mkIncident (ID i) (ProjectID i) (HostID i) (Kind i) (Status i) (CurrentValue i) (PeakValue i) (Detail i)
    (StartedAt i) (ResolvedAt i) (InMaintenance i) (NotifiedOpen i) (NotifiedClose i)
    (Some now) (Some user) (Severity i) (SuppressedByDep i)
    (escalation_level i) (last_escalated_at i) (dep_released_at i) (group_id i).
Definition set_level (level : nat) (now : Z) (i : Incident) : Incident :=
  mkIncident (ID i) (ProjectID i) (HostID i) (Kind i) (Status i) (CurrentValue i) (PeakValue i) (Detail i)
    (StartedAt i) (ResolvedAt i) (InMaintenance i) (NotifiedOpen i) (NotifiedClose i)
    (AcknowledgedAt i) (AcknowledgedBy i) (Severity i) (SuppressedByDep i)
    level (Some now) (dep_released_at i) (group_id i).
Definition set_released (now : Z) (i : Incident) : Incident :=
  mkIncident (ID i) (ProjectID i) (HostID i) (Kind i) (Status i) (CurrentValue i) (PeakValue i) (Detail i)
    (StartedAt i) (ResolvedAt i) (InMaintenance i) (NotifiedOpen i) (NotifiedClose i)
    (AcknowledgedAt i) (AcknowledgedBy i) (Severity i) false
    (escalation_level i) (last_escalated_at i) (Some now) (group_id i).

(** [UPDATE host_incidents SET f WHERE p], and the rows it affects. *)
Definition update_where (p : Incident -> bool) (f : Incident -> Incident) (t : IncTables) : IncTables :=
  mkIncTables ((fun i => if p i then f i else i) <$> host_incidents t) (next_id t) (groups t) (inc_now t).

(** [ORDER BY id] *)
Definition by_id (a b : Incident) : Prop := ID a <= ID b.
#[export] Instance by_id_dec a b : Decision (by_id a b).
Proof. unfold by_id. apply _. Defined.

Definition select (p : Incident -> bool) (t : IncTables) : list Incident :=
  merge_sort by_id (List.filter p (map snd (map_to_list (host_incidents t)))).

Definition rows_affected (p : Incident -> bool) (t : IncTables) : Z := Z.of_nat (length (select p t)).

Definition new_incident (id projectID hostID : Z) (kind : string) (current : float64) (detail : string)
    (inMaintenance : bool) (now : Z) : Incident :=
  mkIncident id projectID hostID kind "open" current current detail now None inMaintenance false false
    None None "critical" false 0 None None None.

Definition open_key (hostID : Z) (kind : string) (i : Incident) : bool :=
  (HostID i =? hostID) && bool_decide (Kind i = kind) && is_open i.

Section programs.
Context {D : Type} `{Has IncTables D}.

(** ** Opening and closing *)

Definition OpenFor (hostID : Z) (kind : string) : prog D (result inc_error (option Incident)) :=
  ask ErrSQL (fun d => head (select (open_key hostID kind) (get d))).

(** [INSERT ... ON CONFLICT (host_id, kind) WHERE status = 'open' DO NOTHING
    RETURNING]: the new row, or nothing. *)
Definition open_insert (projectID hostID : Z) (kind : string) (current : float64) (detail : string)
    (inMaintenance : bool) (t : IncTables) : option Incident * IncTables :=
  match select (open_key hostID kind) t with
  | [] =>
      let row := new_incident (next_id t) projectID hostID kind current detail inMaintenance (inc_now t) in
      (Some row, mkIncTables (<[next_id t := row]> (host_incidents t)) (next_id t + 1) (groups t) (inc_now t))
  | _ => (None, mkIncTables (host_incidents t) (next_id t + 1) (groups t) (inc_now t))
  end.

Definition Open (projectID hostID : Z) (kind : string) (current : float64) (detail : string)
    (inMaintenance : bool) : prog D (result inc_error (Incident * bool)) :=
  tryE: row ← call ErrSQL (on (open_insert projectID hostID kind current detail inMaintenance))
    catch err => mret (Err err);
  match row with
  | Some i => mret (Ok (i, true))
  | None =>
      tryE: existing ← OpenFor hostID kind catch err => mret (Err err);
      match existing with
      | None => mret (Err ErrConflictGone)
      | Some i => mret (Ok (i, false))
      end
  end.

(** An [UPDATE] whose affected rows the caller looks at. *)
Definition update (p : Incident -> bool) (f : Z -> Incident -> Incident) : prog D (result inc_error Z) :=
  call ErrSQL (on (fun t => (rows_affected p t, update_where p (f (inc_now t)) t))).

Definition Bump (id : Z) (current peak : float64) : prog D (result inc_error ()) :=
  tryE: n ← update (fun i => (ID i =? id) && is_open i) (fun _ => set_values current peak)
    catch err => mret (Err err);
  if n =? 0 then mret (Err ErrIncidentNotFound) else mret (Ok tt).

Definition Resolve (id : Z) (current : float64) : prog D (result inc_error bool) :=
  tryE: n ← update (fun i => (ID i =? id) && is_open i)
      (fun now i => set_values current (PeakValue i) (set_resolved now i))
    catch err => mret (Err err);
  mret (Ok (negb (n =? 0))).

Definition ResolveOpenByProjectKind (projectID : Z) (kind : string) : prog D (result inc_error Z) :=
  update (fun i => (ProjectID i =? projectID) && bool_decide (Kind i = kind) && is_open i) set_resolved.

Definition ResolveOpenByHostKind (hostID : Z) (kind : string) : prog D (result inc_error Z) :=
  update (fun i => (HostID i =? hostID) && bool_decide (Kind i = kind) && is_open i) set_resolved.

Definition ResolveOpenByHostsKind (hostIDs : list Z) (kind : string) : prog D (result inc_error Z) :=
  if decide (hostIDs = []) then mret (Ok 0) else
  update (fun i => ContainsID hostIDs (HostID i) && bool_decide (Kind i = kind) && is_open i) set_resolved.

Definition MarkNotified (id : Z) (opened : bool) : prog D (result inc_error ()) :=
  tryE: n ← update (fun i => ID i =? id) (fun _ => set_notified opened) catch err => mret (Err err);
  if n =? 0 then mret (Err ErrIncidentNotFound) else mret (Ok tt).

Definition Acknowledge (incidentID projectID userID : Z) : prog D (result inc_error bool) :=
  tryE: n ← update (fun i => (ID i =? incidentID) && (ProjectID i =? projectID) && is_open i
                             && is_nil (AcknowledgedAt i)) (fun now => set_acked now userID)
    catch err => mret (Err err);
  mret (Ok (negb (n =? 0))).

(** ** The source of the escalation scheduler *)

(** [GREATEST(i.started_at, COALESCE(g.resolved_at, i.started_at),
    COALESCE(i.dep_released_at, i.started_at))] *)
Definition clock_start (t : IncTables) (i : Incident) : Z :=
  let resolved := match group_id i with
                  | Some g => default (StartedAt i) (mjoin (groups t !! g))
                  | None => StartedAt i end in
  Z.max (StartedAt i) (Z.max resolved (default (StartedAt i) (dep_released_at i))).

(** [i.group_id IS NULL OR g.id IS NULL OR g.resolved_at IS NOT NULL] *)
Definition outside_open_group (t : IncTables) (i : Incident) : bool :=
  match group_id i with
  | None => true
  | Some g => match groups t !! g with None => true | Some r => negb (is_nil r) end
  end.

Definition pending_of (t : IncTables) (i : Incident) : PendingIncident :=
  mkPending (ID i) (ProjectID i) (clock_start t i) (Severity i) (escalation_level i).

Definition unacked (t : IncTables) (i : Incident) : bool :=
  is_open i && is_nil (AcknowledgedAt i) && negb (SuppressedByDep i) && outside_open_group t i.

Definition OpenUnacked : prog D (result esc_error (list PendingIncident)) :=
  ask ErrSource (fun d => map (pending_of (get d)) (select (unacked (get d)) (get d))).

Definition bump_level (id : Z) (from : nat) (t : IncTables) : bool * IncTables :=
  let p i := (ID i =? id) && Nat.eqb (escalation_level i) from in
  (negb (rows_affected p t =? 0), update_where p (set_level (S from) (inc_now t)) t).

Definition BumpEscalation (id : Z) (from : nat) : prog D (bool * list esc_error) :=
  r ← call ErrBump (on (bump_level id from));
  mret (match r with Ok b => (b, []) | Err e => (false, [e]) end).

Definition OpenSuppressed : prog D (result esc_error (list PendingIncident)) :=
  ask ErrSource (fun d => map (fun i => mkPending (ID i) (ProjectID i) (StartedAt i) (Severity i) (escalation_level i))
    (select (fun i => is_open i && is_nil (AcknowledgedAt i) && SuppressedByDep i) (get d))).

Definition ClearSuppressed (id : Z) : prog D (result esc_error ()) :=
  call ErrSource (on (fun t =>
    (tt, update_where (fun i => (ID i =? id) && SuppressedByDep i) (set_released (inc_now t)) t))).

Definition host_source : Source D :=
  mkSource _ "host" OpenUnacked BumpEscalation (Some (mkSuppressedSource _ OpenSuppressed ClearSuppressed)).
End programs.

(** ** Well-formed tables *)

Record row_wf (t : IncTables) (k : Z) (i : Incident) : Prop := {
  rw_id : ID i = k;
  rw_next : k < next_id t;
  rw_status : Status i = "open" /\ ResolvedAt i = None \/ Status i = "resolved" /\ is_Some (ResolvedAt i) }.

(** At most one open incident per host and kind. *)
Record inc_wf (t : IncTables) : Prop := {
  iw_rows : forall k i, host_incidents t !! k = Some i -> row_wf t k i;
  iw_open : forall k k' i i', host_incidents t !! k = Some i -> host_incidents t !! k' = Some i' ->
    is_open i = true -> is_open i' = true -> HostID i = HostID i' -> Kind i = Kind i' -> k = k' }.

Lemma elem_of_select p t i :
  i ∈ select p t <-> p i = true /\ exists k, host_incidents t !! k = Some i.
Proof.
  unfold select. rewrite merge_sort_Permutation, list_elem_of_In, filter_In, <- list_elem_of_In, list_elem_of_fmap.
  split.
  - intros [([k i'] & -> & Hin) ?]. split; [done|]. exists k. by apply elem_of_map_to_list in Hin.
  - intros [? [k Hk]]. split; [|done]. exists (k, i). by rewrite elem_of_map_to_list.
Qed.

Lemma select_nil p t k i : select p t = [] -> host_incidents t !! k = Some i -> p i = false.
Proof.
  intros Hs Hk. apply not_true_is_false. intros Hp. assert (i ∈ select p t) as Hin by (apply elem_of_select; eauto).
  rewrite Hs in Hin. by apply elem_of_nil in Hin.
Qed.

(** A row update that neither reopens a row nor moves it to another host or
    kind keeps the table well formed. *)
Definition benign (p : Incident -> bool) (f : Incident -> Incident) : Prop :=
  forall i, p i = true -> ID (f i) = ID i /\ HostID (f i) = HostID i /\ Kind (f i) = Kind i /\
    ((Status (f i) = Status i /\ ResolvedAt (f i) = ResolvedAt i) \/
     (Status (f i) = "resolved" /\ is_Some (ResolvedAt (f i)))).

Ltac by_row := intros ? ?; simpl; split_and!; eauto.

Lemma update_where_wf p f t : benign p f -> inc_wf t -> inc_wf (update_where p f t).
Proof.
  intros Hb [Hrows Hopen].
  assert (forall i, HostID (if p i then f i else i) = HostID i /\ Kind (if p i then f i else i) = Kind i /\
    (is_open (if p i then f i else i) = true -> is_open i = true)) as Hf.
  { intros i. destruct (p i) eqn:Hp; [|done]. destruct (Hb i Hp) as (_ & ? & ? & Hs). split_and!; [done..|].
    unfold is_open. rewrite !bool_decide_eq_true. destruct Hs as [[? ?]|[Hs _]]; [congruence|].
    rewrite Hs. discriminate. }
  constructor; unfold update_where; simpl.
  - intros k i. rewrite lookup_fmap. destruct (host_incidents t !! k) as [j|] eqn:Hj; [|done].
    simpl. intros [= <-]. destruct (Hrows k j Hj) as [Hid Hn Hs]. destruct (p j) eqn:Hp; [|by constructor].
    destruct (Hb j Hp) as (Hid' & _ & _ & Hs'). constructor; [congruence|done|].
    destruct Hs' as [[Hs1 Hs2]|[Hs1 Hs2]]; [rewrite Hs1, Hs2; done|by right].
  - intros k k' i i'. rewrite !lookup_fmap.
    destruct (host_incidents t !! k) as [j|] eqn:Hj, (host_incidents t !! k') as [j'|] eqn:Hj'; try done.
    simpl. intros [= <-] [= <-]. destruct (Hf j) as (-> & -> & Ho), (Hf j') as (-> & -> & Ho').
    intros ?%Ho ?%Ho'. by eapply Hopen.
Qed.

Lemma open_insert_wf pid hid kind cur det m t : inc_wf t -> inc_wf (open_insert pid hid kind cur det m t).2.
Proof.
  intros [Hrows Hopen]. unfold open_insert. destruct (select (open_key hid kind) t) as [|x xs] eqn:Hs; simpl.
  - constructor; simpl.
    + intros k i [[<- <-]|[Hne Hk]]%lookup_insert_Some; [constructor; simpl; [done|lia|by left]|].
      destruct (Hrows k i Hk) as [? ? ?]. constructor; simpl; [done|lia|done].
    + assert (forall k i, host_incidents t !! k = Some i -> is_open i = true -> HostID i = hid -> Kind i = kind -> False) as Hno.
      { intros k i Hk Ho Hh Hkd. pose proof (select_nil _ _ _ _ Hs Hk) as Hf. unfold open_key in Hf.
        rewrite Ho, Hh, Z.eqb_refl, bool_decide_true in Hf by done. done. }
      intros k k' i i' [[<- <-]|[Hne Hk]]%lookup_insert_Some [[<- <-]|[Hne' Hk']]%lookup_insert_Some; simpl; intros.
      * done.
      * exfalso. by eapply Hno.
      * exfalso. by eapply (Hno k i).
      * by eapply Hopen.
  - constructor; simpl; [|done]. intros k i Hk. destruct (Hrows k i Hk) as [? ? ?].
    constructor; simpl; [done|lia|done].
Qed.

(** ** The calls of the service *)

Inductive inc_op :=
| OpOpen (projectID hostID : Z) (kind : string) (current : float64) (detail : string) (inMaintenance : bool)
| OpBump (id : Z) (current peak : float64)
| OpResolve (id : Z) (current : float64)
| OpResolveProjectKind (projectID : Z) (kind : string)
| OpResolveHostKind (hostID : Z) (kind : string)
| OpResolveHostsKind (hostIDs : list Z) (kind : string)
| OpMarkNotified (id : Z) (opened : bool)
| OpAcknowledge (incidentID projectID userID : Z)
| OpBumpEscalation (id : Z) (from : nat)
| OpClearSuppressed (id : Z).

Definition forget {D A} (p : prog D A) : prog D () := mbind (fun _ => mret tt) p.

Definition inc_prog {D} `{Has IncTables D} (o : inc_op) : prog D () :=
  match o with
  | OpOpen pid hid kind cur det m => forget (Open pid hid kind cur det m)
  | OpBump id cur peak => forget (Bump id cur peak)
  | OpResolve id cur => forget (Resolve id cur)
  | OpResolveProjectKind pid kind => forget (ResolveOpenByProjectKind pid kind)
  | OpResolveHostKind hid kind => forget (ResolveOpenByHostKind hid kind)
  | OpResolveHostsKind hids kind => forget (ResolveOpenByHostsKind hids kind)
  | OpMarkNotified id opened => forget (MarkNotified id opened)
  | OpAcknowledge id pid uid => forget (Acknowledge id pid uid)
  | OpBumpEscalation id from => forget (BumpEscalation id from)
  | OpClearSuppressed id => forget (ClearSuppressed id)
  end.

Section interleaving.
Context {D : Type} `{Has IncTables D}.

Abbreviation good := (fun d : D => inc_wf (get d)).

Lemma always_forget {A} (p : prog D A) : always good p (fun _ => True) -> always good (forget p) (fun _ => True).
Proof. intros Hp. by eapply always_bind. Qed.

Lemma always_on {A E} (e : E) (q : IncTables -> A * IncTables) :
  (forall t, inc_wf t -> inc_wf (q t).2) -> always good (call e (on q)) (fun _ => True).
Proof. intros Hq. apply always_call. intros d Hd. rewrite get_on. auto. Qed.

Lemma always_update p f :
  (forall now, benign p (f now)) -> always good (update p f) (fun _ => True).
Proof. intros Hb. apply always_on. intros t Ht. by apply update_where_wf. Qed.

Lemma inc_prog_wf o : always good (inc_prog o) (fun _ => True).
Proof.
  destruct o; unfold inc_prog; apply always_forget; unfold Open, Bump, Resolve, ResolveOpenByProjectKind,
    ResolveOpenByHostKind, ResolveOpenByHostsKind, MarkNotified, Acknowledge, BumpEscalation, ClearSuppressed.
  - eapply always_bind; [apply always_on; intros t Ht; by apply open_insert_wf|].
    intros [[i|]|e] _; [done| |done].
    eapply always_bind; [apply always_ask|]. by intros [[i|]|e] _.
  - eapply always_bind; [apply always_update; intros now; by_row|].
    intros [n|e] _; [by case_match|done].
  - eapply always_bind; [apply always_update; intros now; by_row|]. by intros [].
  - apply always_update. intros now; by_row.
  - apply always_update. intros now; by_row.
  - case_decide; [done|]. apply always_update. intros now; by_row.
  - eapply always_bind; [apply always_update; intros now; by_row|].
    intros [n|e] _; [by case_match|done].
  - eapply always_bind; [apply always_update; intros now; by_row|]. by intros [].
  - eapply always_bind; [|by intros []]. apply always_on. intros t Ht.
    apply update_where_wf; [|done]. by_row.
  - apply always_on. intros t Ht. apply update_where_wf; [|done]. by_row.
Qed.
End interleaving.

(** however the calls of the incident service interleave, with any faults
    and crashes, a host never has two open incidents of the same kind, and a
    row is open exactly while it has no resolution time. *)
Theorem one_open_incident {D} `{Has IncTables D} (env : D -> D -> Prop) (d0 : D) (s : pool D) :
  (forall d d', env d d' -> host_incidents (get d') = host_incidents (get d) /\ next_id (get d') = next_id (get d)) ->
  inc_wf (get d0) ->
  rtc (pool_step (fun p => exists o, p = inc_prog o) env) (Pool d0 [] 0) s ->
  inc_wf (get (shared s)).
Proof.
  intros Henv H0 Hr. eapply (pool_always (fun d : D => inc_wf (get d))); [| |exact H0|exact Hr].
  - intros p [o ->]. apply inc_prog_wf.
  - intros d d' [Hi Hn]%Henv [Hrows Hopen].
    constructor; rewrite Hi; [|done]. intros k i [? ? ?]%Hrows. constructor; [done|congruence|done].
Qed.

Definition ex_tables : IncTables := mkIncTables ∅ 1 ∅ 100.
Definition ex_open : inc_op := OpOpen 7 3 "disk" (S754_zero false) "" false.

Lemma ex_tables_wf : inc_wf ex_tables.
Proof. constructor; simpl; intros k i; intros; by rewrite lookup_empty in *. Defined.

(** Two replicas open the same incident: the second finds the first one's. *)
Lemma one_open_incident_witness :
  exists s : pool IncTables, rtc (pool_step (fun p => exists o, p = inc_prog o) (fun d d' => d' = d))
      (Pool ex_tables [] 0) s /\
    size (host_incidents (shared s)) = 1%nat /\ inc_wf (get (shared s)).
Proof.
  set (p := inc_prog ex_open : prog IncTables ()).
  assert (exists s : pool IncTables, rtc (pool_step (fun p => exists o, p = inc_prog o) (fun d d' => d' = d))
      (Pool ex_tables [] 0) s /\ size (host_incidents (shared s)) = 1%nat) as (s & Hr & Hsz).
  { eexists. split.
    - eapply rtc_l; [apply (pool_spawn _ _ _ _ p); by exists ex_open|].
      eapply rtc_l; [apply (pool_spawn _ _ _ _ p); by exists ex_open|].
      eapply rtc_l; [apply (pool_run _ _ _ [] _ _ _ _ FNone)|].
      eapply rtc_l; [apply (pool_run _ _ _ [Ret tt] _ _ _ _ FNone)|]. apply rtc_refl.
    - vm_compute. reflexivity. }
  exists s. split; [exact Hr|]. split; [exact Hsz|].
  apply (one_open_incident (fun d d' => d' = d) ex_tables s);
    [intros d d' ->; split; reflexivity|exact ex_tables_wf|exact Hr].
Defined.
