(* ===== verification/Policy.v ===== *)
(** Escalation ladders of a project: [internal/escalation/policy.go].

    [ValidateSteps], [SetLadder] with its tenant check, [Ladder] and the
    default ladder.  The rows of [escalation_step_channels] are kept with the
    step they belong to, since they are deleted with it. *)
From stdpp Require Import base tactics list gmap strings sorting relations.
From Stdlib Require Import ZArith Lia.
From S2P Require Import Prelude.
From S2P Require Import Prog.
From S2P Require Import Escalation.

Open Scope Z_scope.
Open Scope go_scope.

(** ** Tables *)

Record step_row := StepRow {
  sr_project : Z; sr_severity : string; sr_step_no : Z; sr_delay : Z; sr_channels : gset Z }.

Record channel_row := ChannelRow { cr_project : Z; cr_enabled : bool }.

Record PolicyTables := mkPolicyTables {
  escalation_steps : gmap Z step_row;
  next_step_id : Z;
  alert_channels : gmap Z channel_row }.

Definition set_steps (m : gmap Z step_row) (t : PolicyTables) : PolicyTables :=
  mkPolicyTables m (next_step_id t) (alert_channels t).

(** ** Validation *)

Definition SeverityCritical : string := "critical".
Definition SeverityWarning : string := "warning".

Definition validSeverity (severity : string) : bool :=
  bool_decide (severity = SeverityCritical) || bool_decide (severity = SeverityWarning).

Definition by_step_no (a b : Step) : Prop := StepNo a <= StepNo b.
#[export] Instance by_step_no_dec a b : Decision (by_step_no a b).
Proof. unfold by_step_no. apply _. Defined.

(** The loop over the sorted steps, from position [i]. *)
Fixpoint validate_sorted (i : Z) (sorted : list Step) : result esc_error () :=
  match sorted with
  | [] => Ok tt
  | st :: sorted =>
      if negb (StepNo st =? i) then Err ErrInvalidPolicy else
      if DelayMinutes st <? 0 then Err ErrInvalidPolicy else
      if decide (ChannelIDs st = []) then Err ErrInvalidPolicy else
      validate_sorted (i + 1) sorted
  end.

Definition ValidateSteps (steps : list Step) : result esc_error () :=
  if decide (steps = []) then Ok tt else validate_sorted 0 (merge_sort by_step_no steps).

(** ** Reading a ladder *)

Definition steps_of (projectID : Z) (severity : string) (t : PolicyTables) : list step_row :=
  List.filter (fun r => (sr_project r =? projectID) && bool_decide (sr_severity r = severity))
    (map snd (map_to_list (escalation_steps t))).

Definition row_by_step_no (a b : step_row) : Prop := sr_step_no a <= sr_step_no b.
#[export] Instance row_by_step_no_dec a b : Decision (row_by_step_no a b).
Proof. unfold row_by_step_no. apply _. Defined.

(** The rows of the [LEFT JOIN], [ORDER BY step_no, channel_id]. *)
Definition join_rows (r : step_row) : list (Z * Z * option Z) :=
  match merge_sort Z.le (elements (sr_channels r)) with
  | [] => [(sr_step_no r, sr_delay r, None)]
  | chs => map (fun ch => (sr_step_no r, sr_delay r, Some ch)) chs
  end.

Definition ladder_rows (projectID : Z) (severity : string) (t : PolicyTables) : list (Z * Z * option Z) :=
  flat_map join_rows (merge_sort row_by_step_no (steps_of projectID severity t)).

Definition append_channel (channelID : option Z) (st : Step) : Step :=
  match channelID with
  | Some ch => mkStep (StepNo st) (DelayMinutes st) (ChannelIDs st ++ [ch])
  | None => st
  end.

(** One iteration over the rows: [ladder] and [stepIndex]. *)
Definition add_row (acc : Ladder * gmap Z nat) (row : Z * Z * option Z) : Ladder * gmap Z nat :=
  let '(ladder, stepIndex) := acc in
  let '(stepNo, dly, channelID) := row in
  match stepIndex !! stepNo with
  | Some idx => (alter (append_channel channelID) idx ladder, stepIndex)
  | None =>
      let ladder := ladder ++ [mkStep stepNo dly []] in
      let idx := (length ladder - 1)%nat in
      (alter (append_channel channelID) idx ladder, <[stepNo := idx]> stepIndex)
  end.

Definition enabled_channels (projectID : Z) (t : PolicyTables) : list Z :=
  merge_sort Z.le (map fst (List.filter (fun '(_, c) => (cr_project c =? projectID) && cr_enabled c)
    (map_to_list (alert_channels t)))).

(** The project's channels among [ids]. *)
Definition owned_channels (projectID : Z) (ids : list Z) (t : PolicyTables) : list Z :=
  List.filter (fun id => match alert_channels t !! id with
                         | Some c => cr_project c =? projectID | None => false end) ids.

(** ** Writing a ladder *)

(** A column of type [int]: pgx refuses a value out of its range. *)
Definition fits_int4 (z : Z) : bool := (- 2 ^ 31 <=? z) && (z <? 2 ^ 31).

Definition delete_steps (projectID : Z) (severity : string) (t : PolicyTables) : PolicyTables :=
  set_steps (filter (fun '(_, r) => ~ (sr_project r = projectID /\ sr_severity r = severity)) (escalation_steps t)) t.

Definition insert_step (projectID : Z) (severity : string) (st : Step) (t : PolicyTables)
  : result esc_error Z * PolicyTables :=
  let clash := existsb (fun r => sr_step_no r =? StepNo st) (steps_of projectID severity t) in
  if clash || negb (fits_int4 (StepNo st)) || negb (fits_int4 (DelayMinutes st)) || (DelayMinutes st <? 0)
  then (Err ErrPolicySQL, t) else
  (Ok (next_step_id t),
   mkPolicyTables (<[next_step_id t := StepRow projectID severity (StepNo st) (DelayMinutes st) ∅]> (escalation_steps t))
     (next_step_id t + 1) (alert_channels t)).

(** The primary key [(step_id, channel_id)] and the two foreign keys. *)
Definition insert_channel (stepID channelID : Z) (t : PolicyTables) : result esc_error () * PolicyTables :=
  match escalation_steps t !! stepID with
  | None => (Err ErrPolicySQL, t)
  | Some r =>
      if decide (channelID ∈ sr_channels r \/ alert_channels t !! channelID = None) then (Err ErrPolicySQL, t) else
      (Ok tt, set_steps (<[stepID := StepRow (sr_project r) (sr_severity r) (sr_step_no r) (sr_delay r)
                                       ({[channelID]} ∪ sr_channels r)]> (escalation_steps t)) t)
  end.

Section programs.
Context {D : Type} `{Has PolicyTables D}.

Definition defaultLadder (projectID : Z) : prog D (result esc_error Ladder) :=
  tryE: channelIDs ← ask ErrPolicySQL (fun d => enabled_channels projectID (get d)) catch err => mret (Err err);
  mret (Ok [mkStep 0 0 channelIDs]).

Definition GetLadder (projectID : Z) (severity : string) : prog D (result esc_error Ladder) :=
  tryE: rows ← ask ErrPolicySQL (fun d => ladder_rows projectID severity (get d)) catch err => mret (Err err);
  let '(ladder, _) := foldl add_row ([], ∅) rows in
  if decide (ladder = []) then defaultLadder projectID else mret (Ok ladder).

(** Both severities, as a map. *)
Definition Ladders (projectID : Z) : prog D (result esc_error (gmap string Ladder)) :=
  tryE: critical ← GetLadder projectID SeverityCritical catch err => mret (Err err);
  tryE: warning ← GetLadder projectID SeverityWarning catch err => mret (Err err);
  mret (Ok (<[SeverityWarning := warning]> (<[SeverityCritical := critical]> ∅))).

Definition verifyChannelsBelongToProject (projectID : Z) (steps : list Step) : prog D (result esc_error ()) :=
  let ids := remove_dups (flat_map ChannelIDs steps) in
  if decide (ids = []) then mret (Ok tt) else
  tryE: owned ← ask ErrPolicySQL (fun d => owned_channels projectID ids (get d)) catch err => mret (Err err);
  if forallb (ContainsID owned) ids then mret (Ok tt) else mret (Err ErrInvalidPolicy).

Fixpoint insert_channels (stepID : Z) (chs : list Z) : prog D (result esc_error ()) :=
  match chs with
  | [] => mret (Ok tt)
  | ch :: chs =>
      chk: callE ErrPolicySQL (on (insert_channel stepID ch));
      insert_channels stepID chs
  end.

Fixpoint insert_steps (projectID : Z) (severity : string) (steps : list Step) : prog D (result esc_error ()) :=
  match steps with
  | [] => mret (Ok tt)
  | st :: steps =>
      tryE: stepID ← callE ErrPolicySQL (on (insert_step projectID severity st)) catch err => mret (Err err);
      chk: insert_channels stepID (ChannelIDs st);
      insert_steps projectID severity steps
  end.

Definition SetLadder (projectID : Z) (severity : string) (steps : list Step) : M D (result esc_error ()) :=
  if negb (validSeverity severity) then mret (Err ErrInvalidPolicy) else
  chk: mret (ValidateSteps steps);
  transaction ErrPolicySQL (exec (
    chk: verifyChannelsBelongToProject projectID steps;
    chk: call ErrPolicySQL (on (fun t => (tt, delete_steps projectID severity t)));
    insert_steps projectID severity steps)).
End programs.

(** ** [ValidateSteps] *)

Lemma validate_sorted_ok i sorted :
  validate_sorted i sorted = Ok tt <->
  map StepNo sorted = map (fun n => i + Z.of_nat n) (seq 0 (length sorted)) /\
  Forall (fun st => 0 <= DelayMinutes st /\ ChannelIDs st <> []) sorted.
Proof.
  revert i. induction sorted as [|st sorted IH]; intros i; simpl.
  { split; [intros _; by split|done]. }
  rewrite Forall_cons, Z.add_0_r, <- seq_shift, map_map.
  assert (map (fun n => i + Z.of_nat (S n)) (seq 0 (length sorted))
          = map (fun n => i + 1 + Z.of_nat n) (seq 0 (length sorted))) as ->.
  { apply map_ext. lia. }
  destruct (Z.eqb_spec (StepNo st) i) as [Hn|Hn]; simpl; [|split; [done|intros [[=] _]; done]].
  destruct (Z.ltb_spec (DelayMinutes st) 0); [split; [done|lia]|].
  case_decide as Hc; [split; [done|tauto]|]. rewrite IH, Hn.
  split; [intros [? ?]; split_and!; try done; congruence|intros ([= ?] & ? & ?); done].
Qed.

Lemma seq_map_sorted n i :
  StronglySorted Z.le (map (fun m => i + Z.of_nat m) (seq 0 n)).
Proof.
  revert i. induction n as [|n IH]; intros i; simpl; constructor.
  - rewrite <- seq_shift, map_map. specialize (IH (i + 1)).
    erewrite map_ext; [exact IH|]. simpl. lia.
  - apply List.Forall_forall. intros y [m [<- _]]%in_map_iff. lia.
Qed.

#[export] Instance by_step_no_trans : Transitive by_step_no.
Proof. intros ???. unfold by_step_no. lia. Qed.
#[export] Instance by_step_no_total : Total by_step_no.
Proof. intros a b. unfold by_step_no. lia. Qed.

Lemma sorted_step_nos steps : StronglySorted Z.le (map StepNo (merge_sort by_step_no steps)).
Proof.
  pose proof (StronglySorted_merge_sort by_step_no steps) as Hs.
  induction Hs as [|st l Hs IH Hall]; simpl; constructor; [done|].
  apply List.Forall_forall. intros y [st' [<- Hin]]%in_map_iff.
  rewrite Forall_forall in Hall. apply Hall. by apply list_elem_of_In.
Qed.

(** a ladder is accepted exactly when it is empty or its steps, in
    whatever order they are given, are numbered 0..N without a gap or a
    duplicate, wait a non-negative time and have a channel each. *)
Theorem ValidateSteps_accepts (steps : list Step) :
  ValidateSteps steps = Ok tt <->
  Permutation (map StepNo steps) (map Z.of_nat (seq 0 (length steps))) /\
  Forall (fun st => 0 <= DelayMinutes st /\ ChannelIDs st <> []) steps.
Proof.
  unfold ValidateSteps. case_decide as Hn; [subst; simpl; split; [split; [done|constructor]|done]|].
  pose proof (merge_sort_Permutation by_step_no steps) as Hp.
  rewrite validate_sorted_ok, (Permutation_length Hp), (map_ext _ Z.of_nat) by lia.
  assert (forall P : Step -> Prop, Forall P (merge_sort by_step_no steps) <-> Forall P steps) as Hall
    by (intros P; by rewrite Hp).
  rewrite Hall. apply and_iff_compat_r. split.
  - intros Heq. rewrite <- Heq. apply Permutation_map. by symmetry.
  - intros Hperm. apply (StronglySorted_unique Z.le).
    + apply sorted_step_nos.
    + apply (seq_map_sorted _ 0).
    + rewrite <- Hperm. by apply Permutation_map.
Qed.

(** ** Reading back the rows *)

Definition ladder_step (r : step_row) : Step :=
  mkStep (sr_step_no r) (sr_delay r) (merge_sort Z.le (elements (sr_channels r))).

Lemma alter_last {A} (f : A -> A) l x : alter f (length l) (l ++ [x]) = l ++ [f x].
Proof. induction l as [|y l IH]; [done|]. simpl. f_equal. apply IH. Qed.

Lemma add_channels ladder idx no dly chs0 chs :
  idx !! no = Some (length ladder) ->
  foldl add_row (ladder ++ [mkStep no dly chs0], idx) (map (fun ch => (no, dly, Some ch)) chs)
  = (ladder ++ [mkStep no dly (chs0 ++ chs)], idx).
Proof.
  intros Hidx. revert chs0. induction chs as [|ch chs IH]; intros chs0; [by rewrite app_nil_r|].
  simpl. rewrite Hidx, alter_last. simpl. rewrite IH, <- app_assoc. done.
Qed.

Lemma add_join_rows ladder idx r :
  idx !! sr_step_no r = None ->
  foldl add_row (ladder, idx) (join_rows r)
  = (ladder ++ [ladder_step r], <[sr_step_no r := length ladder]> idx).
Proof.
  intros Hidx. unfold join_rows, ladder_step.
  destruct (merge_sort Z.le (elements (sr_channels r))) as [|ch chs]; simpl; rewrite Hidx, length_app; simpl;
    replace (length ladder + 1 - 1)%nat with (length ladder) by lia; rewrite alter_last; [done|].
  simpl; rewrite add_channels by apply lookup_insert_eq. done.
Qed.

Lemma add_all_rows rows ladder idx :
  NoDup (map sr_step_no rows) -> (forall r, r ∈ rows -> idx !! sr_step_no r = None) ->
  (foldl add_row (ladder, idx) (flat_map join_rows rows)).1 = ladder ++ map ladder_step rows.
Proof.
  revert ladder idx. induction rows as [|r rows IH]; intros ladder idx Hnd Hidx; simpl.
  { by rewrite app_nil_r. }
  simpl in Hnd. apply NoDup_cons in Hnd as [Hr Hnd'].
  rewrite foldl_app, add_join_rows by (apply Hidx; by left).
  rewrite IH, <- app_assoc; [done|done|]. intros r' Hr'.
  rewrite lookup_insert_ne; [apply Hidx; by right|]. intros Heq. apply Hr. rewrite Heq.
  apply list_elem_of_In, in_map. by apply list_elem_of_In.
Qed.

#[export] Instance row_by_step_no_trans : Transitive row_by_step_no.
Proof. intros ???. unfold row_by_step_no. lia. Qed.
#[export] Instance row_by_step_no_total : Total row_by_step_no.
Proof. intros a b. unfold row_by_step_no. lia. Qed.

Lemma GetLadder_rows {D} `{Has PolicyTables D} pid sev (d : D) :
  NoDup (map sr_step_no (steps_of pid sev (get d))) -> steps_of pid sev (get d) <> [] ->
  exec0 (GetLadder pid sev) d =
    (Ok (map ladder_step (merge_sort row_by_step_no (steps_of pid sev (get d)))), d).
Proof.
  intros Hnd Hne. unfold GetLadder. rewrite exec0_bind, exec0_ask. simpl.
  pose proof (merge_sort_Permutation row_by_step_no (steps_of pid sev (get d))) as Hp.
  pose proof (add_all_rows (merge_sort row_by_step_no (steps_of pid sev (get d))) [] ∅) as Ha.
  unfold ladder_rows. destruct (foldl add_row _ _) as [ladder idx]. simpl in Ha.
  rewrite Ha; [|by rewrite Hp|intros; apply lookup_empty].
  case_decide as Hnil; [|done]. apply map_eq_nil in Hnil. rewrite Hnil in Hp.
  by apply Permutation_nil_l in Hp.
Qed.

(** ** What [SetLadder] stores *)

Definition row_of (pid : Z) (sev : string) (st : Step) : step_row :=
  StepRow pid sev (StepNo st) (DelayMinutes st) (list_to_set (ChannelIDs st)).

(** Ids come from a sequence. *)
Definition ids_fresh (t : PolicyTables) : Prop :=
  forall k r, escalation_steps t !! k = Some r -> k < next_step_id t.

Definition of_ladder (pid : Z) (sev : string) (r : step_row) : bool :=
  (sr_project r =? pid) && bool_decide (sr_severity r = sev).

Lemma steps_of_put pid sev k r n t :
  escalation_steps t !! k = None ->
  steps_of pid sev (mkPolicyTables (<[k := r]> (escalation_steps t)) n (alert_channels t))
  ≡ₚ (if of_ladder pid sev r then [r] else []) ++ steps_of pid sev t.
Proof.
  intros Hk. unfold steps_of. simpl.
  rewrite (map_to_list_insert _ _ _ Hk). simpl. unfold of_ladder. by destruct (_ && _).
Qed.

Lemma steps_of_delete pid sev pid' sev' t :
  steps_of pid' sev' (delete_steps pid sev t) =
  if decide (pid' = pid /\ sev' = sev) then [] else steps_of pid' sev' (delete_steps pid sev t).
Proof.
  case_decide as Hd; [destruct Hd as [-> ->]|done].
  unfold steps_of, delete_steps. simpl.
  destruct (List.filter _ _) as [|r l] eqn:Hf; [done|].
  assert (r ∈ r :: l) as Hr by (by left). rewrite <- Hf in Hr.
  apply list_elem_of_In, filter_In in Hr as [Hin Hr]. apply in_map_iff in Hin as ([k r'] & <- & Hin).
  apply list_elem_of_In, elem_of_map_to_list, map_lookup_filter_Some in Hin as [_ Hn]. simpl in *.
  apply andb_true_iff in Hr as [Hp%Z.eqb_eq Hs%bool_decide_eq_true]. by destruct Hn.
Qed.

Section stored.
Context {D : Type} `{Has PolicyTables D}.
Implicit Types s : sys D.

Lemma insert_channels_ok stepID chs s s' r :
  exec (insert_channels stepID chs) s = (Ok tt, s') ->
  escalation_steps (get (db s)) !! stepID = Some r ->
  NoDup chs /\ (forall ch, ch ∈ chs -> ch ∉ sr_channels r) /\
  get (db s') = set_steps (<[stepID := StepRow (sr_project r) (sr_severity r) (sr_step_no r) (sr_delay r)
     (list_to_set chs ∪ sr_channels r)]> (escalation_steps (get (db s)))) (get (db s)).
Proof.
  revert s r. induction chs as [|ch chs IH]; intros s r Hrun Hr; cbn [insert_channels] in Hrun.
  { apply mret_ok in Hrun as [_ ->]. split_and!; [constructor|by intros ch ?%elem_of_nil|].
    rewrite insert_id; [by destruct (get (db s))|].
    rewrite Hr. f_equal. destruct r. simpl. f_equal. set_solver. }
  apply exec_try_ok in Hrun as ([] & s1 & Hins%exec_callE_ok & Hrun).
  unfold on, insert_channel in Hins. rewrite Hr in Hins.
  case_decide as Hdup; [done|]. injection Hins as Hdb.
  assert (get (db s1) = set_steps (<[stepID := StepRow (sr_project r) (sr_severity r) (sr_step_no r) (sr_delay r)
     ({[ch]} ∪ sr_channels r)]> (escalation_steps (get (db s)))) (get (db s))) as Hg.
  { rewrite <- Hdb. apply get_put. }
  eapply IH in Hrun as (Hnd & Hnew & Hdb'); [|rewrite Hg; apply lookup_insert_eq]. simpl in *.
  split_and!.
  - constructor; [|done]. intros Hin. specialize (Hnew ch Hin). set_solver.
  - intros c [->|Hc]%elem_of_cons; [tauto|]. specialize (Hnew c Hc). set_solver.
  - rewrite Hdb', Hg. unfold set_steps. simpl. rewrite insert_insert_eq. do 3 f_equal. set_solver.
Qed.

Lemma insert_steps_ok pid sev steps s s' :
  exec (insert_steps pid sev steps) s = (Ok tt, s') -> ids_fresh (get (db s)) ->
  ids_fresh (get (db s')) /\ alert_channels (get (db s')) = alert_channels (get (db s)) /\
  (forall p' sv, steps_of p' sv (get (db s')) ≡ₚ
     (if decide (p' = pid /\ sv = sev) then map (row_of pid sev) steps else []) ++ steps_of p' sv (get (db s))).
Proof.
  revert s. induction steps as [|st steps IH]; intros s Hrun Hfresh; cbn [insert_steps] in Hrun.
  { apply mret_ok in Hrun as [_ ->]. split_and!; [done..|]. intros. by case_decide. }
  apply exec_try_ok in Hrun as (stepID & s1 & Hins%exec_callE_ok & Hrun).
  apply exec_try_ok in Hrun as ([] & s2 & Hch & Hrun).
  unfold on, insert_step in Hins. destruct (_ || _ || _ || _) in Hins; [done|]. injection Hins as <- Hdb.
  assert (get (db s1) = _) as Hg by (rewrite <- Hdb; apply get_put). clear Hdb.
  eapply insert_channels_ok in Hch as (Hnd & _ & Hg2); [|rewrite Hg; apply lookup_insert_eq].
  rewrite Hg in Hg2. simpl in Hg2. unfold set_steps in Hg2. simpl in Hg2. rewrite insert_insert_eq in Hg2.
  assert (escalation_steps (get (db s)) !! next_step_id (get (db s)) = None) as Hnone.
  { destruct (_ !! _) as [r|] eqn:Hr; [|done]. specialize (Hfresh _ _ Hr). lia. }
  apply IH in Hrun as (Hf & Ha & Hs); [split_and!; [done| |]|].
  - rewrite Ha, Hg2. done.
  - intros p' sv. rewrite Hs, Hg2, (steps_of_put p' sv _ _ _ _ Hnone). unfold of_ladder. simpl.
    assert (list_to_set (ChannelIDs st) ∪ ∅ = (list_to_set (ChannelIDs st) : gset Z)) as -> by set_solver.
    destruct (decide (p' = pid /\ sv = sev)) as [[-> ->]|Hne].
    + rewrite Z.eqb_refl, bool_decide_true by done. simpl. by rewrite Permutation_middle.
    + destruct (Z.eqb_spec pid p'), (decide (sev = sv)); simpl;
        rewrite ?bool_decide_true by done; rewrite ?bool_decide_false by done; try done. naive_solver.
  - rewrite Hg2. intros k r. simpl. intros [[<- _]|[_ Hk]]%lookup_insert_Some; [lia|]. specialize (Hfresh _ _ Hk). lia.
Qed.
End stored.

(** ** [SetLadder] *)

Definition owned_by (pid ch : Z) (t : PolicyTables) : Prop :=
  exists c, alert_channels t !! ch = Some c /\ cr_project c = pid.

(** Every channel of a stored step belongs to the project of the step. *)
Record policy_wf (t : PolicyTables) : Prop := {
  pw_fresh : ids_fresh t;
  pw_owned : forall p sv r ch, r ∈ steps_of p sv t -> ch ∈ sr_channels r -> owned_by p ch t }.

Lemma ids_fresh_delete pid sev t : ids_fresh t -> ids_fresh (delete_steps pid sev t).
Proof. intros Hf k r. simpl. intros [Hk _]%map_lookup_filter_Some. by eapply Hf. Qed.

Lemma elem_of_steps_of p sv r t :
  r ∈ steps_of p sv t <-> (sr_project r = p /\ sr_severity r = sv) /\ exists k, escalation_steps t !! k = Some r.
Proof.
  unfold steps_of. rewrite list_elem_of_In, filter_In, in_map_iff, andb_true_iff, Z.eqb_eq, bool_decide_eq_true.
  split.
  - intros [([k r'] & <- & Hin) ?]. split; [done|]. exists k. by apply list_elem_of_In, elem_of_map_to_list in Hin.
  - intros [? [k Hk]]. split; [|done]. exists (k, r). split; [done|]. by apply list_elem_of_In, elem_of_map_to_list.
Qed.

Lemma elem_of_steps_of_delete pid sev p sv r t :
  r ∈ steps_of p sv (delete_steps pid sev t) <-> r ∈ steps_of p sv t /\ ~ (p = pid /\ sv = sev).
Proof.
  rewrite !elem_of_steps_of. simpl. setoid_rewrite map_lookup_filter_Some. naive_solver.
Qed.

Section set_ladder.
Context {D : Type} `{Has PolicyTables D}.
Implicit Types s : sys D.

Lemma verify_ok pid steps s s' :
  exec (verifyChannelsBelongToProject pid steps) s = (Ok tt, s') ->
  db s' = db s /\ forall ch, ch ∈ flat_map ChannelIDs steps -> owned_by pid ch (get (db s)).
Proof.
  unfold verifyChannelsBelongToProject. case_decide as Hids.
  { intros [_ ->]%mret_ok. split; [done|]. intros ch Hch. rewrite <- elem_of_remove_dups, Hids in Hch.
    by apply elem_of_nil in Hch. }
  intros (owned & s1 & [-> Hdb]%exec_ask_ok & Hrun)%exec_try_ok.
  destruct (forallb _ _) eqn:Hall; [|done]. apply mret_ok in Hrun as [_ ->]. split; [done|].
  intros ch Hch. rewrite forallb_forall in Hall.
  rewrite <- elem_of_remove_dups, list_elem_of_In in Hch. specialize (Hall ch Hch).
  apply ContainsID_true, list_elem_of_In, filter_In in Hall as [_ Hc].
  destruct (alert_channels (get (db s)) !! ch) as [c|] eqn:Hrow; [|done]. exists c. by apply Z.eqb_eq in Hc.
Qed.

(** The body of the transaction, when it succeeds. *)
Definition set_body (pid : Z) (sev : string) (steps : list Step) : prog D (result esc_error ()) :=
  chk: verifyChannelsBelongToProject pid steps;
  chk: call ErrPolicySQL (on (fun t => (tt, delete_steps pid sev t)));
  insert_steps pid sev steps.

Lemma set_body_ok pid sev steps s s' :
  exec (set_body pid sev steps) s = (Ok tt, s') -> ids_fresh (get (db s)) ->
  ids_fresh (get (db s')) /\ alert_channels (get (db s')) = alert_channels (get (db s)) /\
  (forall ch, ch ∈ flat_map ChannelIDs steps -> owned_by pid ch (get (db s))) /\
  steps_of pid sev (get (db s')) ≡ₚ map (row_of pid sev) steps /\
  (forall p sv, ~ (p = pid /\ sv = sev) -> forall r, r ∈ steps_of p sv (get (db s')) <-> r ∈ steps_of p sv (get (db s))).
Proof.
  intros Hrun Hf. apply exec_try_ok in Hrun as ([] & s1 & [Hdb Hown]%verify_ok & Hrun).
  apply exec_try_ok in Hrun as ([] & s2 & Hdel%exec_call_ok & Hrun).
  unfold on in Hdel. injection Hdel as Hdb2.
  assert (get (db s2) = delete_steps pid sev (get (db s))) as Hg by (rewrite <- Hdb2, get_put; by rewrite Hdb).
  apply insert_steps_ok in Hrun as (Hf' & Ha & Hs); [|rewrite Hg; by apply ids_fresh_delete].
  rewrite Hg in Ha, Hs. split_and!; [done|done|done| |].
  - rewrite Hs, decide_True, steps_of_delete, decide_True, app_nil_r by done. done.
  - intros p sv Hne r. rewrite Hs, decide_False by done. simpl. rewrite elem_of_steps_of_delete. tauto.
Qed.

Lemma SetLadder_ok pid sev steps s s' :
  SetLadder pid sev steps s = (Ok tt, s') ->
  ValidateSteps steps = Ok tt /\
  exists s1 s2, db s1 = db s /\ exec (set_body pid sev steps) s1 = (Ok tt, s2) /\ db s' = db s2.
Proof.
  unfold SetLadder. destruct (validSeverity sev); [|done]. simpl.
  intros ([] & s0 & [Hv ->]%mret_ok & Hrun)%try_ok. split; [done|]. by apply transaction_ok in Hrun.
Qed.

(** What any call of [SetLadder], failed or not, may have done. *)
Lemma SetLadder_cases pid sev steps s r s' :
  SetLadder pid sev steps s = (r, s') ->
  db s' = db s \/
  exists s1 s2, db s1 = db s /\ exec (set_body pid sev steps) s1 = (Ok tt, s2) /\ db s' = db s2.
Proof.
  unfold SetLadder. destruct (validSeverity sev); [|by intros [_ ->]%mret_ok; left]. simpl.
  unfold mbind at 1, M_bind, mret at 1, M_ret. destruct (ValidateSteps steps) as [[]|e]; [|by intros [= _ <-]; left].
  intros [?|(s1 & [] & s2 & ? & ? & ?)]%transaction_cases; eauto 10.
Qed.
End set_ladder.

Lemma ValidateSteps_numbers steps : ValidateSteps steps = Ok tt -> NoDup (map StepNo steps).
Proof.
  unfold ValidateSteps. case_decide as Hn; [subst; constructor|].
  pose proof (merge_sort_Permutation by_step_no steps) as Hp.
  intros [Heq _]%validate_sorted_ok. rewrite <- Hp, Heq.
  apply NoDup_ListNoDup, Finite.Injective_map_NoDup; [intros ???; lia|apply seq_NoDup].
Qed.

(** Every channel of a ladder rebuilt from rows comes from one of them. *)
Lemma add_row_channels (P : Z -> Prop) row ladder idx :
  (forall ch, row.2 = Some ch -> P ch) -> (forall st ch, st ∈ ladder -> ch ∈ ChannelIDs st -> P ch) ->
  forall st ch, st ∈ (add_row (ladder, idx) row).1 -> ch ∈ ChannelIDs st -> P ch.
Proof.
  intros Hrow Hl. destruct row as [[no dly] c]. simpl in *.
  assert (forall (l : Ladder) i, (forall st ch, st ∈ l -> ch ∈ ChannelIDs st -> P ch) ->
    forall st ch, st ∈ alter (append_channel c) i l -> ch ∈ ChannelIDs st -> P ch) as Halter.
  { intros l i Hl' st ch Hst Hch. apply list_elem_of_lookup in Hst as [j Hj].
    rewrite list_lookup_alter in Hj. case_decide; [|apply list_elem_of_lookup_2 in Hj; eauto].
    destruct (l !! i) as [st0|] eqn:Hlj; [|done]. injection Hj as <-. apply list_elem_of_lookup_2 in Hlj.
    destruct c as [c|]; simpl in Hch; [|eauto]. apply elem_of_app in Hch as [|Hc]; [eauto|].
    apply list_elem_of_singleton in Hc as ->. auto. }
  destruct (idx !! no); simpl; apply Halter; [done|].
  intros st ch [Hst|Hst]%elem_of_app; [eauto|]. apply list_elem_of_singleton in Hst as ->. simpl.
  by intros ?%elem_of_nil.
Qed.

Lemma add_rows_channels (P : Z -> Prop) rows acc :
  (forall row ch, row ∈ rows -> row.2 = Some ch -> P ch) -> (forall st ch, st ∈ acc.1 -> ch ∈ ChannelIDs st -> P ch) ->
  forall st ch, st ∈ (foldl add_row acc rows).1 -> ch ∈ ChannelIDs st -> P ch.
Proof.
  revert acc. induction rows as [|row rows IH]; intros acc Hr Hacc; [done|]. simpl. apply IH.
  - intros r ch Hin. apply Hr. by right.
  - destruct acc as [ladder idx]. apply add_row_channels; [|done]. intros ch. apply Hr. by left.
Qed.

Lemma GetLadder_owned {D} `{Has PolicyTables D} p sv (s : sys D) ladder s2 :
  policy_wf (get (db s)) -> exec (GetLadder p sv) s = (Ok ladder, s2) ->
  forall st ch, st ∈ ladder -> ch ∈ ChannelIDs st -> owned_by p ch (get (db s)).
Proof.
  intros [_ Hown] (rows & s1 & [-> Hdb]%exec_ask_ok & Hrun)%exec_try_ok.
  pose proof (add_rows_channels (fun ch => owned_by p ch (get (db s))) (ladder_rows p sv (get (db s))) ([], ∅)) as Hadd.
  destruct (foldl add_row _ _) as [l idx]. simpl in Hadd. case_decide.
  - apply exec_try_ok in Hrun as (chs & s3 & [-> Hdb3]%exec_ask_ok & [[= <-] _]%mret_ok).
    intros st ch Hst%list_elem_of_singleton Hch. subst st. simpl in Hch. rewrite Hdb in Hch.
    unfold enabled_channels in Hch. rewrite merge_sort_Permutation, list_elem_of_In, in_map_iff in Hch.
    destruct Hch as ([k c] & <- & [Hin Hc]%filter_In). apply list_elem_of_In, elem_of_map_to_list in Hin.
    exists c. simpl. split; [done|]. apply andb_true_iff in Hc as [Hc%Z.eqb_eq _]. done.
  - apply mret_ok in Hrun as [[= <-] _]. apply Hadd; [|by intros ?? ?%elem_of_nil].
    intros [[no dly] c] ch Hrow Hc. simpl in Hc. subst c.
    unfold ladder_rows in Hrow. apply list_elem_of_In, in_flat_map in Hrow as (r & Hr & Hrow).
    apply list_elem_of_In in Hr. rewrite merge_sort_Permutation in Hr. apply (Hown p sv r ch Hr).
    unfold join_rows in Hrow. pose proof (merge_sort_Permutation Z.le (elements (sr_channels r))) as Hp.
    destruct (merge_sort Z.le (elements (sr_channels r))) as [|c cs].
    { destruct Hrow as [[=]|[]]. }
    apply in_map_iff in Hrow as (c' & [= _ _ <-] & Hin). apply list_elem_of_In in Hin.
    rewrite Hp in Hin. by apply elem_of_elements.
Qed.

(** A stored step as [Ladder] gives it back. *)
Definition canonical (st : Step) : Step :=
  mkStep (StepNo st) (DelayMinutes st) (merge_sort Z.le (ChannelIDs st)).

Lemma elements_list_to_set_perm (l : list Z) : NoDup l -> elements (list_to_set l : gset Z) ≡ₚ l.
Proof. intros Hnd. by apply elements_list_to_set. Qed.

#[export] Instance Zle_transitive : Transitive Z.le := Z.le_trans.

Lemma merge_sort_perm (l l' : list Z) : l ≡ₚ l' -> merge_sort Z.le l = merge_sort Z.le l'.
Proof.
  intros Hp. apply (StronglySorted_unique Z.le); [apply (StronglySorted_merge_sort Z.le)..|].
  by rewrite !merge_sort_Permutation.
Qed.

Lemma insert_steps_nodup {D} `{Has PolicyTables D} pid sev steps (s s' : sys D) :
  exec (insert_steps pid sev steps) s = (Ok tt, s') -> Forall (fun st => NoDup (ChannelIDs st)) steps.
Proof.
  revert s. induction steps as [|st steps IH]; intros s Hrun; cbn [insert_steps] in Hrun; [constructor|].
  apply exec_try_ok in Hrun as (stepID & s1 & Hins%exec_callE_ok & Hrun).
  apply exec_try_ok in Hrun as ([] & s2 & Hch & Hrun). constructor; [|by eapply IH].
  unfold on, insert_step in Hins. destruct (_ || _ || _ || _) in Hins; [done|]. injection Hins as <- Hdb.
  eapply insert_channels_ok in Hch as (Hnd & _ & _); [done|].
  rewrite <- Hdb, get_put. apply lookup_insert_eq.
Qed.

(** what [SetLadder] accepted is what [Ladder] gives back: the steps in
    order of their numbers, each with its delay and its channels; and every
    other ladder, of another project or severity, keeps its steps. *)
Theorem SetLadder_Ladder_roundtrip {D} `{Has PolicyTables D} (pid : Z) (sev : string) (steps : list Step) (s s' : sys D) :
  ids_fresh (get (db s)) -> steps <> [] ->
  SetLadder pid sev steps s = (Ok tt, s') ->
  exec0 (GetLadder pid sev) (db s') = (Ok (map canonical (merge_sort by_step_no steps)), db s') /\
  forall p sv, ~ (p = pid /\ sv = sev) ->
    forall r, r ∈ steps_of p sv (get (db s')) <-> r ∈ steps_of p sv (get (db s)).
Proof.
  intros Hf Hne (Hv & s1 & s2 & Hdb1 & Hbody & Hdb2)%SetLadder_ok.
  pose proof Hbody as (_ & _ & _ & Hsteps & Hother)%set_body_ok; [|by rewrite Hdb1].
  rewrite Hdb1 in Hother. rewrite Hdb2. split; [|done].
  assert (Forall (fun st => NoDup (ChannelIDs st)) steps) as Hnd.
  { apply exec_try_ok in Hbody as ([] & t1 & _ & Hbody). apply exec_try_ok in Hbody as ([] & t2 & _ & Hbody).
    by eapply insert_steps_nodup. }
  apply ValidateSteps_numbers in Hv.
  assert (NoDup (map sr_step_no (map (row_of pid sev) steps))) as Hnos.
  { rewrite map_map. simpl. by rewrite (map_ext _ StepNo). }
  rewrite GetLadder_rows; [|by rewrite Hsteps|].
  2: { intros Hnil. rewrite Hnil in Hsteps. apply Permutation_nil_l in Hsteps. by destruct steps. }
  do 2 f_equal.
  assert (merge_sort row_by_step_no (steps_of pid sev (get (db s2)))
    = map (row_of pid sev) (merge_sort by_step_no steps)) as ->.
  { apply (sorted_by_key_unique sr_step_no).
    - apply (StronglySorted_merge_sort row_by_step_no).
    - pose proof (StronglySorted_merge_sort by_step_no steps) as Hs.
      induction Hs as [|st l Hs IH Hall]; simpl; constructor; [done|].
      apply List.Forall_forall. intros y [st' [<- Hin]]%in_map_iff. simpl.
      rewrite Forall_forall in Hall. apply Hall. by apply list_elem_of_In.
    - by rewrite merge_sort_Permutation, Hsteps.
    - by rewrite merge_sort_Permutation, Hsteps, merge_sort_Permutation. }
  rewrite map_map. apply map_ext_in. intros st Hin. unfold ladder_step, canonical. simpl. f_equal.
  apply merge_sort_perm, elements_list_to_set_perm.
  rewrite Forall_forall in Hnd. apply Hnd. apply list_elem_of_In in Hin. by rewrite merge_sort_Permutation in Hin.
Qed.

(** tenant isolation of ladders: whatever faults [SetLadder] meets, the
    stored ladders stay owned, so [Ladder] of a project, configured or
    default, only ever names channels of that project. *)
Theorem ladder_same_project {D} `{Has PolicyTables D} (pid : Z) (sev : string) (steps : list Step) (s : sys D)
    (p : Z) (sv : string) (ladder : Ladder) (s2 : sys D) :
  policy_wf (get (db s)) ->
  let s1 := (SetLadder pid sev steps s).2 in
  policy_wf (get (db s1)) /\
  (exec (GetLadder p sv) s1 = (Ok ladder, s2) ->
   forall st ch, st ∈ ladder -> ch ∈ ChannelIDs st -> owned_by p ch (get (db s1))).
Proof.
  intros Hwf s1. assert (policy_wf (get (db s1))) as Hwf1.
  { destruct (SetLadder pid sev steps s) as [r s0] eqn:Hset. subst s1. simpl.
    destruct (SetLadder_cases _ _ _ _ _ _ Hset) as [->|(t1 & t2 & Hd1 & Hb & ->)]; [done|].
    destruct Hwf as [Hf Hown]. apply set_body_ok in Hb as (Hf' & Ha & Hv & Hs & Ho); [|by rewrite Hd1].
    rewrite Hd1 in *. constructor; [done|]. intros q v r0 ch Hr Hch.
    assert (owned_by q ch (get (db s))) as Hq; [|unfold owned_by in *; by rewrite Ha].
    destruct (decide (q = pid /\ v = sev)) as [[-> ->]|Hne]; [|by eapply Hown; [apply Ho|]].
    rewrite Hs, list_elem_of_In, in_map_iff in Hr. destruct Hr as (st & <- & Hin). simpl in Hch.
    apply Hv, list_elem_of_In, in_flat_map. exists st. split; [done|].
    apply list_elem_of_In. by apply elem_of_list_to_set in Hch. }
  split; [done|]. intros Hget st ch Hst Hch. by eapply GetLadder_owned.
Qed.

(** ** Witnesses *)

Definition ex_policy : PolicyTables :=
  mkPolicyTables ∅ 1 {[ 10 := ChannelRow 7 true; 11 := ChannelRow 7 true; 12 := ChannelRow 8 true ]}.
Definition ex_steps : list Step := [mkStep 1 15 [11]; mkStep 0 0 [11; 10]].

Lemma ex_policy_wf : policy_wf ex_policy.
Proof.
  constructor; [intros k r; simpl; by rewrite lookup_empty|].
  intros p sv r ch (_ & k & Hk)%elem_of_steps_of. simpl in Hk. by rewrite lookup_empty in Hk.
Defined.

Lemma SetLadder_Ladder_roundtrip_witness :
  exists s', SetLadder 7 "critical" ex_steps (Sys ex_policy []) = (Ok tt, s') /\
    (exec0 (GetLadder 7 "critical") (db s')).1 = Ok (map canonical (merge_sort by_step_no ex_steps)) /\
    map canonical (merge_sort by_step_no ex_steps) = [mkStep 0 0 [10; 11]; mkStep 1 15 [11]].
Proof.
  eexists. split; [vm_compute; reflexivity|]. split; [|vm_compute; reflexivity].
  refine (f_equal fst (proj1 (SetLadder_Ladder_roundtrip 7 "critical" ex_steps (Sys ex_policy []) _ _ _ _))).
  - apply ex_policy_wf.
  - discriminate.
  - vm_compute. reflexivity.
Defined.

(** A foreign channel is refused and nothing is stored. *)
Lemma ladder_same_project_witness :
  SetLadder 7 "critical" [mkStep 0 0 [12]] (Sys ex_policy []) = (Err ErrInvalidPolicy, Sys ex_policy []) /\
  policy_wf (get (db (SetLadder 7 "critical" ex_steps (Sys ex_policy [])).2)).
Proof.
  split; [vm_compute; reflexivity|].
  apply (ladder_same_project 7 "critical" ex_steps (Sys ex_policy []) 7 "critical" [] (Sys ex_policy [])).
  apply ex_policy_wf.
Defined.
