(* ===== verification/Notify.v ===== *)
(** The notification queue: [internal/notify].

    redact.go: what leaves the operator's perimeter ([RedactExternalPayload]).
    outbox.go: the table [notification_outbox] with leased claims fenced by
    the attempt number.  worker.go and direct.go: the worker that claims a
    batch and delivers each job in a goroutine of its own. *)
From stdpp Require Import base tactics list gmap strings sorting relations.
From Stdlib Require Import ZArith Lia.
From S2P Require Import Prelude.
From S2P Require Import Prog.

Open Scope Z_scope.
Open Scope go_scope.

(** ** Payloads *)

(** A value of a payload ([any]): what the code distinguishes is strings. *)
Inductive value := VStr (s : string) | VInt (z : Z) | VBool (b : bool) | VOther (json : string).

#[export] Instance value_eq_dec : EqDecision value.
Proof. solve_decision. Defined.

Abbreviation payload := (gmap string value).

(** [s, _ := payload[key].(string)] *)
Definition stringField (p : payload) (key : string) : string :=
  match p !! key with Some (VStr s) => s | _ => "" end.

(** ** Strings *)

Fixpoint drop_str (n : nat) (s : string) : string :=
  match n, s with
  | S n, String _ s => drop_str n s
  | _, _ => s
  end.

Fixpoint replace_all (fuel : nat) (old new s : string) : string :=
  match fuel, s with
  | S fuel, String c s' =>
      if String.prefix old s then new +:+ replace_all fuel old new (drop_str (String.length old) s)
      else String c (replace_all fuel old new s')
  | _, _ => s
  end.

(** [strings.ReplaceAll] for a non-empty [old]. *)
Definition ReplaceAll (s old new : string) : string := replace_all (String.length s) old new s.

Definition RedactToken (s token : string) : string :=
  if decide (token = "") then s else ReplaceAll s token "<redacted>".

(** ** Redaction of a payload *)

Definition externalSafeKeys : list string :=
  ["channel_kind"; "target"; "kind"; "url"; "project_name"; "project_id"; "issue_id"; "perf_issue_id";
   "monitor_id"; "rule_id"; "times_seen"; "count"; "regression"; "duration_seconds"; "days_left"].

Definition redactedKindKeys : gmap string string :=
  list_to_map [
    ("new_issue", "notify.issue.kind.new_issue"); ("regression", "notify.issue.kind.regression");
    ("spike", "notify.issue.kind.spike"); ("suppressed_digest", "notify.redacted.kind.suppressed_digest");
    ("metric_alert_open", "notify.redacted.kind.metric_alert_open");
    ("metric_alert_resolved", "notify.redacted.kind.metric_alert_resolved");
    ("n_plus_one", "perf.issues.kind.n_plus_one"); ("slow_db_query", "perf.issues.kind.slow_db_query");
    ("http_flood", "perf.issues.kind.http_flood"); ("regression_open", "notify.redacted.kind.regression_open");
    ("regression_close", "notify.redacted.kind.regression_close");
    ("slo_burn_open", "notify.redacted.kind.slo_burn_open"); ("slo_burn_close", "notify.redacted.kind.slo_burn_close");
    ("profile_regression_open", "notify.redacted.kind.profile_regression_open");
    ("profile_regression_resolved", "notify.redacted.kind.profile_regression_resolved");
    ("down", "notify.redacted.kind.down"); ("up", "notify.redacted.kind.up");
    ("ssl_expiring", "notify.redacted.kind.ssl_expiring"); ("reminder", "notify.redacted.kind.reminder");
    ("host_alert_open", "notify.redacted.kind.host_alert_open");
    ("host_alert_resolved", "notify.redacted.kind.host_alert_resolved");
    ("host_retired", "notify.redacted.kind.host_retired")].

(** The catalogue of translations of the request's locale ([i18n.T]). *)
Class Catalogue := i18n_T : string -> string.

Section redact.
Context `{Catalogue}.

(** [i18n.Tf] *)
Definition Tf (key : string) (kv : list (string * string)) : string :=
  foldl (fun s '(k, v) => ReplaceAll s ("{" +:+ k +:+ "}") v) (i18n_T key) kv.

Definition WithProjectSubject (subject project : string) : string :=
  Tf "notify.subject.with_project" [("subject", subject); ("project", project)].

Definition WithProjectBody (body project : string) : string :=
  Tf "notify.body.with_project" [("body", body); ("project", project)].

Definition redactedKindLabel (kind : string) : string :=
  match redactedKindKeys !! kind with Some key => i18n_T key | None => kind end.

Definition RedactExternalPayload (p : payload) : payload :=
  let out := filter (fun '(k, _) => k ∈ externalSafeKeys) p in
  let kind := stringField out "kind" in
  let url := stringField out "url" in
  let short := stringField p "url_redacted" in
  let '(url, out) := if decide (short <> "") then (short, <["url" := VStr short]> out) else (url, out) in
  let label := redactedKindLabel kind in
  let subject := Tf "notify.redacted.subject" [("kind", label)] in
  let body := Tf "notify.redacted.body" [("kind", label); ("url", url)] in
  let name := stringField out "project_name" in
  let '(subject, body) := if decide (name <> "") then (WithProjectSubject subject name, WithProjectBody body name)
                          else (subject, body) in
  <["body" := VStr body]> (<["subject" := VStr subject]> out).

(** Two payloads a recipient outside the perimeter must not tell apart. *)
Definition same_public (p p' : payload) : Prop :=
  (forall k, k ∈ externalSafeKeys -> p !! k = p' !! k) /\
  stringField p "url_redacted" = stringField p' "url_redacted".

Lemma filter_public (p p' : payload) :
  (forall k, k ∈ externalSafeKeys -> p !! k = p' !! k) ->
  filter (fun '(k, _) => k ∈ externalSafeKeys) p = filter (fun '(k, _) => k ∈ externalSafeKeys) p'.
Proof.
  intros Hs. apply map_eq. intros k. destruct (decide (k ∈ externalSafeKeys)) as [Hk|Hk].
  - specialize (Hs k Hk). apply option_eq. intros v. rewrite !map_lookup_filter_Some, Hs. done.
  - trans (None : option value); [|symmetry]; apply map_lookup_filter_None_2; right; intros v _; done.
Qed.

(** C36: default deny: a redacted payload depends on nothing of the original
    but the whitelisted fields and [url_redacted]; it carries no other key
    than those, subject and body; and a [url_redacted], when given, replaces
    the address. *)
Theorem redact_default_deny (p p' : payload) :
  same_public p p' ->
  RedactExternalPayload p = RedactExternalPayload p' /\
  (forall k v, RedactExternalPayload p !! k = Some v ->
     k = "subject" \/ k = "body" \/ k ∈ externalSafeKeys /\ (p !! k = Some v \/ k = "url")) /\
  (stringField p "url_redacted" <> "" ->
   RedactExternalPayload p !! "url" = Some (VStr (stringField p "url_redacted"))).
Proof.
  intros [Hsafe Hred]. split_and!.
  - unfold RedactExternalPayload. by rewrite (filter_public p p' Hsafe), Hred.
  - intros k v. unfold RedactExternalPayload.
    repeat case_decide; simpl; intros [[<- _]|[_ [[<- _]|[_ Hk]]%lookup_insert_Some]]%lookup_insert_Some; auto.
    1, 2: apply lookup_insert_Some in Hk as [[<- _]|[_ Hk]]; [right; right; split; [set_solver|by right]|].
    all: apply map_lookup_filter_Some in Hk as [? ?]; auto.
  - intros Hne. unfold RedactExternalPayload. rewrite (decide_True (P := _ <> "")) by done. simpl.
    case_decide; simpl; rewrite !lookup_insert_ne by done; apply lookup_insert_eq.
Qed.
End redact.

(** ** The outbox *)

Inductive out_error := ErrStaleClaim | ErrEnqueueSQL | ErrClaimSQL | ErrMarkSQL | ErrPurgeSQL.

Record outbox_row := mkOutboxRow {
  o_channel : Z; o_payload : payload; o_status : string; o_attempts : Z; o_last_error : string;
  o_next_retry_at : Z; o_created_at : Z; o_sent_at : option Z; o_key : option string }.

Record Job := mkJob { job_id : Z; job_channel : Z; job_payload : payload; job_attempts : Z }.

Record OutTables := mkOutTables {
  notification_outbox : gmap Z outbox_row;
  next_job : Z;
  out_now : Z;
  transmitted : list (Z * Z) (** what the senders were given: job and attempt, oldest last *) }.

Definition set_outbox (m : gmap Z outbox_row) (t : OutTables) : OutTables :=
  mkOutTables m (next_job t) (out_now t) (transmitted t).

Definition new_row (channelID : Z) (p : payload) (key : option string) (now : Z) : outbox_row :=
  mkOutboxRow channelID p "pending" 0 "" now now None key.

Definition insert_row (channelID : Z) (p : payload) (key : option string) (t : OutTables) : OutTables :=
  mkOutTables (<[next_job t := new_row channelID p key (out_now t)]> (notification_outbox t))
    (next_job t + 1) (out_now t) (transmitted t).

Definition key_taken (key : string) (t : OutTables) : bool :=
  existsb (fun '(_, r) => ptr_is (o_key r) key) (map_to_list (notification_outbox t)).

Definition claimLease : Z := 5 * minute.

(** One row as [Claim] leaves it. *)
Definition lease_row (now : Z) (r : outbox_row) : outbox_row :=
  mkOutboxRow (o_channel r) (o_payload r) (o_status r) (o_attempts r + 1) (o_last_error r)
    (now + claimLease) (o_created_at r) (o_sent_at r) (o_key r).

Definition is_due (now : Z) (r : outbox_row) : bool :=
  bool_decide (o_status r = "pending") && (o_next_retry_at r <=? now).

Definition by_retry (a b : Z * outbox_row) : Prop := o_next_retry_at a.2 <= o_next_retry_at b.2.
#[export] Instance by_retry_dec a b : Decision (by_retry a b).
Proof. unfold by_retry. apply _. Defined.

(** [ORDER BY next_retry_at ... LIMIT $1] *)
Definition claimable (limit : nat) (t : OutTables) : list (Z * outbox_row) :=
  take limit (merge_sort by_retry (List.filter (fun '(_, r) => is_due (out_now t) r)
    (map_to_list (notification_outbox t)))).

Definition claim_rows (limit : nat) (t : OutTables) : list Job * OutTables :=
  let rows := claimable limit t in
  (map (fun '(id, r) => mkJob id (o_channel r) (o_payload r) (o_attempts r + 1)) rows,
   set_outbox (foldr (fun '(id, r) m => <[id := lease_row (out_now t) r]> m) (notification_outbox t) rows) t).

(** [UPDATE ... WHERE id = $1 AND attempts = $2]: the fence. *)
Definition fenced_update (id attempt : Z) (f : outbox_row -> outbox_row) (t : OutTables) : bool * OutTables :=
  match notification_outbox t !! id with
  | Some r => if o_attempts r =? attempt then (true, set_outbox (<[id := f r]> (notification_outbox t)) t) else (false, t)
  | None => (false, t)
  end.

Definition sent_row (now : Z) (r : outbox_row) : outbox_row :=
  mkOutboxRow (o_channel r) (o_payload r) "sent" (o_attempts r) (o_last_error r)
    (o_next_retry_at r) (o_created_at r) (Some now) (o_key r).
Definition retry_row (now delay : Z) (err : string) (r : outbox_row) : outbox_row :=
  mkOutboxRow (o_channel r) (o_payload r) "pending" (o_attempts r) err
    (now + delay) (o_created_at r) (o_sent_at r) (o_key r).
Definition failed_row (err : string) (r : outbox_row) : outbox_row :=
  mkOutboxRow (o_channel r) (o_payload r) "failed" (o_attempts r) err
    (o_next_retry_at r) (o_created_at r) (o_sent_at r) (o_key r).

Definition purge_rows (cutoff : Z) (t : OutTables) : Z * OutTables :=
  let old r := (bool_decide (o_status r = "sent") || bool_decide (o_status r = "failed")) && (o_created_at r <? cutoff) in
  (Z.of_nat (length (List.filter (fun '(_, r) => old r) (map_to_list (notification_outbox t)))),
   set_outbox (filter (fun '(_, r) => old r = false) (notification_outbox t)) t).

Section outbox.
Context {D : Type} `{Has OutTables D}.

Definition Enqueue (channelID : Z) (p : payload) : prog D (result out_error ()) :=
  call ErrEnqueueSQL (on (fun t => (tt, insert_row channelID p None t))).

Definition EnqueueIdempotent (channelID : Z) (p : payload) (key : string) : prog D (result out_error bool) :=
  if decide (key = "") then
    chk: Enqueue channelID p;
    mret (Ok true)
  else
    call ErrEnqueueSQL (on (fun t =>
      if key_taken key t then (false, mkOutTables (notification_outbox t) (next_job t + 1) (out_now t) (transmitted t))
      else (true, insert_row channelID p (Some key) t))).

Definition Claim (limit : nat) : prog D (result out_error (list Job)) :=
  call ErrClaimSQL (on (claim_rows limit)).

Definition finalize (id attempt : Z) (f : Z -> outbox_row -> outbox_row) : prog D (result out_error ()) :=
  tryE: hit ← call ErrMarkSQL (on (fun t => fenced_update id attempt (f (out_now t)) t)) catch err => mret (Err err);
  if (hit : bool) then mret (Ok tt) else mret (Err ErrStaleClaim).

Definition MarkSent (id attempt : Z) : prog D (result out_error ()) := finalize id attempt sent_row.

Definition MarkRetry (id attempt : Z) (sendErr : string) (retryIn : Z) : prog D (result out_error ()) :=
  finalize id attempt (fun now => retry_row now retryIn sendErr).

Definition MarkFailed (id attempt : Z) (sendErr : string) : prog D (result out_error ()) :=
  finalize id attempt (fun _ => failed_row sendErr).

Definition PurgeOld (now olderThan : Z) : prog D (result out_error Z) :=
  call ErrPurgeSQL (on (purge_rows (now - olderThan))).

(** ** The worker *)

Definition defaultConcurrency : nat := 4.
Definition claimBatchPerWorker : nat := 2.
Definition maxTicklessRounds : nat := 10.
Definition markSentRetries : nat := 3.

(** 0 means no further attempt. *)
Definition backoff (attempts : Z) : Z :=
  if attempts =? 1 then minute else
  if attempts =? 2 then 5 * minute else
  if attempts =? 3 then 25 * minute else
  if attempts =? 4 then 2 * hour else 0.

(** The kinds with a registered sender, and the outcome of resolving a secret
    and of sending; both are outside the program and may depend on anything. *)
Record senders := mkSenders {
  registered : string -> bool;
  ChannelSecret : option (D -> Z -> result string string);
  send_outcome : D -> string -> string -> string -> payload -> option string (** kind, target, secret *) }.

Definition record_transmission (id attempt : Z) (t : OutTables) : OutTables :=
  mkOutTables (notification_outbox t) (next_job t) (out_now t) ((id, attempt) :: transmitted t).

(** [sender.Send]: the message is on its way whatever comes back. *)
Definition transmit (w : senders) (j : Job) (kind target secret : string) : prog D (option string) :=
  Step (fun _ d => put (record_transmission (job_id j) (job_attempts j) (get d)) d)
       (fun f d => Ret (match f with FNone => send_outcome w d kind target secret (job_payload j) | _ => Some "timeout" end)).

(** [Direct.Send]; [None] is success. *)
Definition Send (w : senders) (j : Job) (kind target : string) : prog D (option string) :=
  if negb (registered w kind) then mret (Some "notify: no sender registered") else
  match ChannelSecret w with
  | Some resolve =>
      if decide (kind <> "email") then
        secret ← pgets (fun d => resolve d (job_channel j));
        match secret with
        | Err e => mret (Some e)
        | Ok secret => transmit w j kind target secret
        end
      else transmit w j kind target ""
  | None => transmit w j kind target ""
  end.

Fixpoint markSent (n : nat) (j : Job) : prog D () :=
  match n with
  | O => mret tt
  | S n => tryE: _ok ← MarkSent (job_id j) (job_attempts j) catch err => markSent n j; mret tt
  end.

Definition retryOrFail (j : Job) (sendErr : string) : prog D () :=
  let delay := backoff (job_attempts j) in
  if delay =? 0 then
    _ ← MarkFailed (job_id j) (job_attempts j) sendErr; mret tt
  else
    _ ← MarkRetry (job_id j) (job_attempts j) sendErr delay; mret tt.

Definition process (w : senders) (j : Job) : prog D () :=
  err ← Send w j (stringField (job_payload j) "channel_kind") (stringField (job_payload j) "target");
  match err with
  | Some e => retryOrFail j e
  | None => markSent markSentRetries j
  end.

(** A goroutine per job.  Waiting for them is left out: every interleaving in
    which the worker waits is also one in which it does not. *)
Fixpoint deliver (w : senders) (jobs : list Job) : prog D () :=
  match jobs with
  | [] => mret tt
  | j :: jobs => Fork (process w j) (deliver w jobs)
  end.

Fixpoint Tick (rounds : nat) (w : senders) (batch : nat) : prog D () :=
  match rounds with
  | O => mret tt
  | S rounds =>
      tryE: jobs ← Claim batch catch err => mret tt;
      if decide (jobs = []) then mret tt else
      _ ← deliver w jobs;
      if Nat.ltb (length jobs) batch then mret tt else Tick rounds w batch
  end.

Definition batchSize (concurrency : nat) : nat :=
  (if decide (concurrency = 0%nat) then defaultConcurrency else concurrency) * claimBatchPerWorker.
End outbox.
Arguments senders D : clear implicits.

(** ** Each claimed attempt is sent at most once *)

Record out_wf (t : OutTables) : Prop := {
  ow_ids : forall id r, notification_outbox t !! id = Some r -> id < next_job t /\ 0 <= o_attempts r;
  ow_keys : forall id id' r r' key, notification_outbox t !! id = Some r -> notification_outbox t !! id' = Some r' ->
    o_key r = Some key -> o_key r' = Some key -> id = id' }.

(** Attempt [a] of job [id] has not been handed out yet. *)
Definition unleased (t : OutTables) (k : Z * Z) : nat :=
  if decide (next_job t <= k.1) then (if 0 <? k.2 then 1 else 0) else
  match notification_outbox t !! k.1 with
  | Some r => if o_attempts r <? k.2 then 1 else 0
  | None => 0
  end.

Definition send_potential (t : OutTables) (k : Z * Z) : nat := (times k (transmitted t) + unleased t k)%nat.

Lemma claimable_spec limit t id r :
  (id, r) ∈ claimable limit t -> notification_outbox t !! id = Some r /\ is_due (out_now t) r = true.
Proof.
  unfold claimable. intros Hin. assert ((id, r) ∈ merge_sort by_retry (List.filter (fun '(_, r) => is_due (out_now t) r)
    (map_to_list (notification_outbox t)))) as Hin'.
  { rewrite <- (take_drop limit (merge_sort _ _)). apply elem_of_app. by left. }
  rewrite merge_sort_Permutation, list_elem_of_In, filter_In, <- list_elem_of_In, elem_of_map_to_list in Hin'. done.
Qed.

Lemma NoDup_filter_fst {A} (f : Z * A -> bool) (l : list (Z * A)) : NoDup (map fst l) -> NoDup (map fst (List.filter f l)).
Proof.
  induction l as [|x l IH]; simpl; [done|]. intros [Hx Hnd]%NoDup_cons.
  destruct (f x); [|by apply IH]. simpl. apply NoDup_cons. split; [|by apply IH].
  intros Hin. apply Hx. apply list_elem_of_In, in_map_iff in Hin as (y & <- & [Hy _]%filter_In).
  by apply list_elem_of_In, in_map.
Qed.

Lemma claimable_nodup limit t : NoDup (map fst (claimable limit t)).
Proof.
  unfold claimable.
  assert (NoDup (map fst (merge_sort by_retry (List.filter (fun '(_, r) => is_due (out_now t) r)
    (map_to_list (notification_outbox t)))))) as Hnd.
  { rewrite merge_sort_Permutation. apply NoDup_filter_fst, NoDup_fst_map_to_list. }
  revert Hnd. generalize (merge_sort by_retry (List.filter (fun '(_, r) => is_due (out_now t) r)
    (map_to_list (notification_outbox t)))). intros l Hnd.
  assert (NoDup (map fst (take limit l ++ drop limit l))) as Hnd' by (by rewrite take_drop).
  rewrite map_app in Hnd'. by apply NoDup_app in Hnd' as (? & _ & _).
Qed.

(** The rows after a claim. *)
Lemma leased_lookup now (rows : list (Z * outbox_row)) (m : gmap Z outbox_row) id :
  NoDup (map fst rows) -> (forall i r, (i, r) ∈ rows -> m !! i = Some r) ->
  foldr (fun '(i, r) m => <[i := lease_row now r]> m) m rows !! id =
  if decide (id ∈ map fst rows) then lease_row now <$> m !! id else m !! id.
Proof.
  induction rows as [|[i r] rows IH]; intros Hnd Hin; [done|]. simpl in *.
  apply NoDup_cons in Hnd as [Hi Hnd].
  destruct (decide (id = i)) as [->|Hne].
  - rewrite lookup_insert_eq, decide_True by (by left). rewrite (Hin i r) by (by left). done.
  - rewrite lookup_insert_ne by done. rewrite IH; [|done|intros; apply Hin; by right].
    apply decide_ext. rewrite elem_of_cons. naive_solver.
Qed.

Lemma claim_rows_spec limit t jobs t' :
  claim_rows limit t = (jobs, t') ->
  next_job t' = next_job t /\ transmitted t' = transmitted t /\ out_now t' = out_now t /\
  NoDup (map job_id jobs) /\
  (forall id, notification_outbox t' !! id =
     if decide (id ∈ map job_id jobs) then lease_row (out_now t) <$> notification_outbox t !! id
     else notification_outbox t !! id) /\
  (forall j, j ∈ jobs -> exists r, notification_outbox t !! job_id j = Some r /\ is_due (out_now t) r = true /\
     job_attempts j = o_attempts r + 1 /\ job_channel j = o_channel r /\ job_payload j = o_payload r).
Proof.
  unfold claim_rows. intros [= <- <-].
  assert (map job_id (map (fun '(id, r) => mkJob id (o_channel r) (o_payload r) (o_attempts r + 1)) (claimable limit t))
    = map fst (claimable limit t)) as Hids.
  { rewrite map_map. by apply map_ext; intros []. }
  rewrite Hids. split_and!; [done..| | |].
  - apply claimable_nodup.
  - intros id. simpl. apply leased_lookup; [apply claimable_nodup|]. intros i r Hin. by apply claimable_spec in Hin as [? _].
  - intros j Hj. apply list_elem_of_In, in_map_iff in Hj as ([id r] & <- & Hin).
    apply list_elem_of_In, claimable_spec in Hin as [??]. by exists r.
Qed.

Lemma claim_rows_wf limit t : out_wf t -> out_wf (claim_rows limit t).2.
Proof.
  intros [Hids Hkeys]. destruct (claim_rows limit t) as [jobs t'] eqn:Hc.
  apply claim_rows_spec in Hc as (Hn & _ & _ & _ & Ht & _). simpl.
  assert (forall id r, notification_outbox t' !! id = Some r -> exists r0, notification_outbox t !! id = Some r0 /\
    o_key r = o_key r0 /\ o_attempts r0 <= o_attempts r) as Hrow.
  { intros id r. rewrite Ht. case_decide; [|exists r; split_and!; [done|done|lia]].
    destruct (notification_outbox t !! id) as [r0|]; [|done]. intros [= <-]. exists r0. simpl. split_and!; [done|done|lia]. }
  constructor.
  - intros id r (r0 & Hr0 & _ & Ha)%Hrow. destruct (Hids id r0 Hr0). lia.
  - intros id id' r r' key (r0 & Hr0 & -> & _)%Hrow (r1 & Hr1 & -> & _)%Hrow. by eapply Hkeys.
Qed.

Lemma fenced_update_spec id attempt f t :
  (forall r, o_attempts (f r) = o_attempts r /\ o_key (f r) = o_key r) ->
  (out_wf t -> out_wf (fenced_update id attempt f t).2) /\
  (forall k, send_potential (fenced_update id attempt f t).2 k = send_potential t k).
Proof.
  intros Hf. unfold fenced_update. destruct (notification_outbox t !! id) as [r|] eqn:Hr; [|done].
  destruct (_ =? _); [|done]. destruct (Hf r) as [Ha Hk]. simpl. split.
  - intros [Hids Hkeys]. constructor; simpl.
    + intros i r' [[<- <-]|[_ Hi]]%lookup_insert_Some; [rewrite Ha; by eapply Hids|by eapply Hids].
    + intros i i' r1 r2 key [[<- <-]|[_ Hi]]%lookup_insert_Some [[<- <-]|[_ Hi']]%lookup_insert_Some;
        rewrite ?Hk; by eapply Hkeys.
  - intros k. unfold send_potential, unleased. simpl. do 2 f_equal.
    destruct (decide (id = k.1)) as [->|Hne]; [by rewrite lookup_insert_eq, Hr, Ha|by rewrite lookup_insert_ne].
Qed.

Lemma insert_row_potential ch p key t k : out_wf t -> send_potential (insert_row ch p key t) k = send_potential t k.
Proof.
  intros [Hids _]. unfold send_potential, unleased, insert_row. simpl. f_equal.
  destruct (decide (k.1 = next_job t)) as [Heq|Hne].
  - rewrite (decide_False (P := next_job t + 1 <= _)) by lia. rewrite (decide_True (P := next_job t <= _)) by lia.
    rewrite Heq, lookup_insert_eq. done.
  - rewrite lookup_insert_ne by done. repeat case_decide; try done; lia.
Qed.

Lemma insert_row_wf ch p key t :
  (forall k, key = Some k -> key_taken k t = false) -> out_wf t -> out_wf (insert_row ch p key t).
Proof.
  intros Hkey [Hids Hkeys].
  assert (forall k id r, key = Some k -> notification_outbox t !! id = Some r -> o_key r = Some k -> False) as Hno.
  { intros k id r Hk Hr Ho. specialize (Hkey k Hk). unfold key_taken in Hkey. apply not_true_iff_false in Hkey.
    apply Hkey, existsb_exists. exists (id, r). rewrite ptr_is_true. split; [|done].
    by apply list_elem_of_In, elem_of_map_to_list. }
  constructor; simpl.
  - intros id r [[<- <-]|[_ Hr]]%lookup_insert_Some; [simpl; lia|]. destruct (Hids id r Hr). lia.
  - intros id id' r r' k [[<- <-]|[_ Hr]]%lookup_insert_Some [[<- <-]|[_ Hr']]%lookup_insert_Some Hk Hk'; simpl in *.
    + done.
    + exfalso. by eapply (Hno k).
    + exfalso. by eapply (Hno k).
    + by eapply (Hkeys id id' r r').
Qed.

Section worker_safety.
Context {D : Type} `{Has OutTables D}.

Abbreviation good := (fun d : D => out_wf (get d)).
Abbreviation φ := (fun d : D => send_potential (get d)).
Abbreviation wpo := (wp good φ 0).

Definition token (j : Job) : Z * Z := (job_id j, job_attempts j).

(** A statement on the outbox that hands out no attempt. *)
Lemma wp_outbox {A E} (e : E) (q : OutTables -> A * OutTables) own :
  (forall t, out_wf t -> out_wf (q t).2) ->
  (forall t k, out_wf t -> (send_potential (q t).2 k <= send_potential t k)%nat) ->
  wpo (call e (on q)) own (fun _ own' => own' = own).
Proof.
  intros Hwf Hp. apply wp_frame_call; [| |done|done].
  - intros d Hd. rewrite get_on. auto.
  - intros d k Hd. rewrite get_on. auto.
Qed.

Lemma finalize_wp id attempt f own :
  (forall now r, o_attempts (f now r) = o_attempts r /\ o_key (f now r) = o_key r) ->
  wpo (finalize id attempt f) own (fun _ _ => True).
Proof.
  intros Hf. eapply wp_bind.
  - apply wp_outbox; intros t; [intros Ht|intros k _];
      destruct (fenced_update_spec id attempt (f (out_now t)) t (Hf (out_now t))) as [Hw Hs]; [by apply Hw|by rewrite Hs].
  - intros [hit|e] own' _; [|done]. by destruct hit.
Qed.

Lemma markSent_wp n j own : wpo (markSent n j) own (fun _ _ => True).
Proof.
  revert own. induction n as [|n IH]; intros own; [done|]. cbn [markSent].
  eapply wp_bind; [apply finalize_wp; by intros ? []|]. intros [[]|e] own' _; [done|apply IH].
Qed.

Lemma retryOrFail_wp j e own : wpo (retryOrFail j e) own (fun _ _ => True).
Proof.
  unfold retryOrFail. case_match; (eapply wp_bind; [apply finalize_wp; by intros ? []|]; done).
Qed.

Lemma transmit_wp w j kind target secret :
  wpo (transmit w j kind target secret) {[token j]} (fun _ _ => True).
Proof.
  intros f d Hd. exists ∅. split_and!; [|intros k|done].
  - rewrite get_put. destruct Hd as [Hids Hkeys]. by constructor.
  - rewrite get_put. unfold send_potential. simpl. rewrite times_cons.
    assert (unleased (record_transmission (job_id j) (job_attempts j) (get d)) k = unleased (get d) k) as -> by done.
    unfold held, token. rewrite (decide_False (P := k ∈ ∅)) by set_solver.
    destruct (decide ((job_id j, job_attempts j) = k)) as [<-|Hne].
    + rewrite (decide_True (P := _ ∈ {[_]})) by set_solver. lia.
    + case_decide; lia.
Qed.

Lemma process_wp w j : wpo (process w j) {[token j]} (fun _ _ => True).
Proof.
  eapply (wp_bind _ _ _ _ _ _ (fun _ _ => True)); [|intros [e|] own _; [apply retryOrFail_wp|apply markSent_wp]].
  unfold Send. case_match; [done|].
  destruct (ChannelSecret w) as [resolve|]; [|apply transmit_wp].
  case_decide; [|apply transmit_wp]. eapply (wp_bind _ _ _ _ _ _ (fun _ own => own = {[token j]})).
  - intros f d Hd. exists {[token j]}. split_and!; [done| |done]. intros k. lia.
  - intros [secret|e] own ->; [apply transmit_wp|done].
Qed.

Lemma deliver_wp w jobs own :
  NoDup (map token jobs) -> list_to_set (map token jobs) ⊆ own ->
  wpo (deliver w jobs) own (fun _ _ => True).
Proof.
  revert own. induction jobs as [|j jobs IH]; intros own Hnd Hsub; [done|]. simpl in *.
  apply NoDup_cons in Hnd as [Hj Hnd].
  exists {[token j]}, (list_to_set (map token jobs)). split_and!.
  - apply disjoint_singleton_l. by rewrite elem_of_list_to_set.
  - done.
  - apply process_wp.
  - by apply IH.
Qed.

Lemma Claim_wp limit :
  wpo (Claim limit) ∅ (fun r own =>
    match r with Ok jobs => NoDup (map token jobs) /\ own = list_to_set (map token jobs) | Err _ => True end).
Proof.
  intros f d Hd. destruct (claim_rows limit (get d)) as [jobs t'] eqn:Hc.
  assert (on (claim_rows limit) d = (jobs, put t' d)) as Hon by (unfold on; by rewrite Hc).
  pose proof (claim_rows_wf limit (get d) Hd) as Hwf. rewrite Hc in Hwf. simpl in Hwf.
  pose proof (claim_rows_spec _ _ _ _ Hc) as (Hn & Htr & _ & Hnd & Ht & Hjobs).
  assert (forall k, (send_potential t' k + held (list_to_set (map token jobs)) k <= send_potential (get d) k)%nat) as Hk.
  { intros k. unfold send_potential, unleased. rewrite Htr, Hn, Ht.
    destruct (decide (k ∈ map token jobs)) as [Hin|Hin].
    - unfold held. rewrite (decide_True (P := k ∈ list_to_set _)) by (by rewrite elem_of_list_to_set).
      apply list_elem_of_In, in_map_iff in Hin as (j & <- & Hj). apply list_elem_of_In in Hj.
      destruct (Hjobs j Hj) as (r & Hr & _ & Ha & _). destruct (ow_ids _ Hd _ _ Hr) as [Hlt _].
      unfold token. simpl. rewrite !(decide_False (P := next_job _ <= _)) by lia.
      rewrite decide_True by (apply list_elem_of_In, in_map; by apply list_elem_of_In).
      rewrite Hr. simpl. rewrite Ha. destruct (Z.ltb_spec (o_attempts r + 1) (o_attempts r + 1)); [lia|].
      destruct (Z.ltb_spec (o_attempts r) (o_attempts r + 1)); lia.
    - unfold held. rewrite (decide_False (P := k ∈ list_to_set _)) by (by rewrite elem_of_list_to_set).
      case_decide; [lia|]. case_decide; [|lia]. destruct (notification_outbox (get d) !! k.1) as [r|]; simpl; [|lia].
      destruct (Z.ltb_spec (o_attempts r + 1) k.2), (Z.ltb_spec (o_attempts r) k.2); lia. }
  assert (forall k, held (∅ : gset (Z * Z)) k = 0%nat) as H0.
  { intros k. unfold held. rewrite decide_False; [done|set_solver]. }
  assert (NoDup (map token jobs)) as Htok.
  { apply (NoDup_fmap_1 fst). change (NoDup (map fst (map token jobs))). by rewrite map_map. }
  destruct f; cbn -[claim_rows on]; rewrite ?Hon; cbn -[claim_rows].
  - exists (list_to_set (map token jobs)). split_and!; [by rewrite get_put| |done|done]. intros k. rewrite get_put, H0. specialize (Hk k). lia.
  - exists ∅. split_and!; [done| |done]. intros k. lia.
  - exists ∅. split_and!; [by rewrite get_put| |done]. intros k. rewrite get_put, H0. specialize (Hk k). lia.
Qed.
End worker_safety.

(** The programs that touch the outbox. *)
Inductive out_program {D} `{Has OutTables D} : prog D () -> Prop :=
| OutTick rounds w batch : out_program (Tick rounds w batch)
| OutEnqueue ch p : out_program (mbind (fun _ => mret tt) (Enqueue ch p))
| OutEnqueueIdempotent ch p key : out_program (mbind (fun _ => mret tt) (EnqueueIdempotent ch p key))
| OutPurge now olderThan : out_program (mbind (fun _ => mret tt) (PurgeOld now olderThan)).

Section outbox_pool.
Context {D : Type} `{Has OutTables D}.

Abbreviation φ := (fun d : D => send_potential (get d)).
Abbreviation wpo := (wp (fun d : D => out_wf (get d)) φ 0).

Lemma outbox_Tick_wp rounds w batch : wpo (Tick rounds w batch) ∅ (fun _ _ => True).
Proof.
  revert w batch. induction rounds as [|n IH]; intros w batch; [done|]. cbn [Tick].
  eapply wp_bind; [apply Claim_wp|]. intros [jobs|e] own Hown; [|done].
  destruct Hown as [Hnd ->]. case_decide; [done|].
  eapply wp_bind; [by apply deliver_wp|]. intros [] own _. case_match; [done|].
  eapply (wp_drop _ _ _ _ ∅); [set_solver|apply IH].
Qed.

Lemma bump_next_wf t :
  out_wf t -> out_wf (mkOutTables (notification_outbox t) (next_job t + 1) (out_now t) (transmitted t)).
Proof. intros [Hids Hkeys]. constructor; simpl; [|done]. intros id r Hr. destruct (Hids id r Hr). lia. Qed.

Lemma bump_next_potential t k :
  out_wf t ->
  (send_potential (mkOutTables (notification_outbox t) (next_job t + 1) (out_now t) (transmitted t)) k <= send_potential t k)%nat.
Proof.
  intros [Hids _]. unfold send_potential, unleased. simpl.
  destruct (decide (next_job t + 1 <= k.1)); [by rewrite decide_True by lia|].
  case_decide as Hd; [|lia]. destruct (notification_outbox t !! k.1) as [r|] eqn:Hr; [|case_match; lia].
  destruct (Hids _ _ Hr). lia.
Qed.

Lemma purge_wf cutoff t : out_wf t -> out_wf (purge_rows cutoff t).2.
Proof.
  intros [Hids Hkeys]. constructor; simpl.
  - intros id r [Hr _]%map_lookup_filter_Some. by eapply Hids.
  - intros id id' r r' key [Hr _]%map_lookup_filter_Some [Hr' _]%map_lookup_filter_Some. by eapply Hkeys.
Qed.

Lemma purge_potential cutoff t k : (send_potential (purge_rows cutoff t).2 k <= send_potential t k)%nat.
Proof.
  unfold send_potential, unleased. simpl. case_decide; [lia|].
  destruct (filter _ (notification_outbox t) !! k.1) as [r|] eqn:Hr; [|lia].
  apply map_lookup_filter_Some in Hr as [-> _]. lia.
Qed.

Lemma out_program_wp p : out_program p -> wpo p ∅ (fun _ _ => True).
Proof.
  intros [rounds w batch|ch p0|ch p0 key|now old]; [apply outbox_Tick_wp|..].
  - eapply wp_bind; [|done]. apply wp_outbox; intros t.
    + intros Ht. by apply insert_row_wf.
    + intros k Ht. cbn -[insert_row]. by rewrite insert_row_potential.
  - eapply (wp_bind _ _ _ _ _ _ (fun _ _ => True)); [|done]. unfold EnqueueIdempotent. case_decide.
    + eapply wp_bind; [|by intros [] ??]. apply wp_outbox; intros t.
      * intros Ht. by apply insert_row_wf.
      * intros k Ht. cbn -[insert_row]. by rewrite insert_row_potential.
    + eapply wp_mono; [|by intros ?? _]. apply wp_outbox; intros t.
      * intros Ht. destruct (key_taken key t) eqn:Hk; [by apply bump_next_wf|].
        apply insert_row_wf; [|done]. by intros ? [= <-].
      * intros k Ht. destruct (key_taken key t); [by apply bump_next_potential|].
        cbn -[insert_row]. by rewrite insert_row_potential.
  - eapply wp_bind; [|done]. apply wp_outbox; intros t.
    + apply purge_wf.
    + intros k _. apply purge_potential.
Qed.
End outbox_pool.

(** C15: the attempt number fences a job.  However many workers run, whatever
    crashes, lost replies and expired leases, each attempt of a job is handed
    to a sender at most once, never before it was claimed, and two queued rows
    never carry the same idempotency key. *)
Theorem attempt_sent_once {D} `{Has OutTables D} (env : D -> D -> Prop) (d0 : D) (s : pool D) (id a : Z) :
  (forall d d', env d d' -> exists now, get d' = mkOutTables (notification_outbox (get d)) (next_job (get d)) now (transmitted (get d))) ->
  out_wf (get d0) -> transmitted (get d0) = [] ->
  rtc (pool_step out_program env) (Pool d0 [] 0) s ->
  (times (id, a) (transmitted (get (shared s))) <= 1)%nat /\
  ((id, a) ∈ transmitted (get (shared s)) ->
   forall r, notification_outbox (get (shared s)) !! id = Some r -> a <= o_attempts r) /\
  out_wf (get (shared s)).
Proof.
  intros Henv Hwf Htr Hr.
  assert (forall d d', env d d' -> out_wf (get d) -> out_wf (get d') /\
    forall key, (send_potential (get d') key <= send_potential (get d) key)%nat) as Henv'.
  { intros d d' [now ->]%Henv [Hids Hkeys]. split; [by constructor|]. intros key.
    unfold send_potential, unleased. simpl. lia. }
  pose proof (pool_inv_reach (fun d : D => out_wf (get d)) (fun d => send_potential (get d)) 0 out_program env d0 s
    out_program_wp Henv' Hwf) as Hreach.
  destruct Hreach as [HI Hle]; [|done|].
  { intros key. unfold send_potential. rewrite Htr. unfold unleased. simpl. repeat case_match; simpl; lia. }
  specialize (Hle (id, a)). unfold send_potential in Hle. split_and!; [lia| |done].
  intros Hin%times_pos r Hrow. assert (unleased (get (shared s)) (id, a) = 0%nat) as H0 by lia.
  unfold unleased in H0. simpl in H0. destruct (ow_ids _ HI _ _ Hrow).
  rewrite decide_False in H0 by lia. rewrite Hrow in H0. destruct (Z.ltb_spec (o_attempts r) a); lia.
Qed.

(** ** Witnesses *)

Definition ex_payload : payload :=
  <["channel_kind" := VStr "webhook"]> (<["target" := VStr "https://example.org"]> (<["body" := VStr "secret text"]> ∅)).
Definition ex_senders : senders OutTables := mkSenders (fun k => bool_decide (k = "webhook")) None (fun _ _ _ _ _ => None).
Definition ex_out : OutTables := mkOutTables ∅ 1 100 [].

Lemma ex_out_wf : out_wf ex_out.
Proof. constructor; simpl; intros *; by rewrite lookup_empty. Defined.

Lemma redact_default_deny_witness :
  let c := (fun key => key) : Catalogue in
  let p := ex_payload in let p' := <["body" := VStr "other text"]> ex_payload in
  stringField p "body" <> stringField p' "body" /\ @RedactExternalPayload c p = @RedactExternalPayload c p'.
Proof.
  split; [vm_compute; discriminate|].
  apply (@redact_default_deny (fun key => key) ex_payload (<["body" := VStr "other text"]> ex_payload)).
  split; [|vm_compute; reflexivity]. intros k Hk. symmetry. apply lookup_insert_ne. intros <-.
  assert (bool_decide ("body" ∈ externalSafeKeys) = false) as Hf by (vm_compute; reflexivity).
  apply bool_decide_eq_false in Hf. exact (Hf Hk).
Defined.

Lemma attempt_sent_once_witness :
  exists s : pool OutTables,
    rtc (pool_step out_program (fun d d' => d' = d)) (Pool ex_out [] 0) s /\
    transmitted (shared s) = [(1, 1)] /\ (times (1, 1)%Z (transmitted (get (shared s))) <= 1)%nat.
Proof.
  set (p1 := mbind (fun _ => mret tt) (Enqueue 5 ex_payload) : prog OutTables ()).
  set (p2 := Tick maxTicklessRounds ex_senders 8 : prog OutTables ()).
  set (s := Pool (exec0 p2 (exec0 p1 ex_out).2).2 [] 0 : pool OutTables).
  assert (rtc (pool_step out_program (fun d d' => d' = d)) (Pool ex_out [] 0) s) as Hr.
  { etrans; [apply (pool_exec _ _ p1); constructor|]. apply (pool_exec _ _ p2). constructor. }
  exists s. split; [exact Hr|]. split; [vm_compute; reflexivity|].
  refine (proj1 (attempt_sent_once (fun d d' => d' = d) ex_out s 1 1 _ ex_out_wf eq_refl Hr)).
  intros d d' ->. exists (out_now d). simpl. destruct d; reflexivity.
Defined.
