(* ===== verification/Dispatch.v ===== *)
(** From a step of a ladder to the queue: [internal/escalation/notifydispatch.go].

    [Dispatch] builds the payload of each deliverable channel, redacts it for
    a channel outside the operator's perimeter and puts it in the outbox.
    [dispatch_notifier] is the shape every [NotifyStep] of the sources has:
    load what the message says, then [Dispatch] to the channels claimed. *)
From stdpp Require Import base tactics list gmap strings pretty.
From Stdlib Require Import ZArith Lia.
From S2P Require Import Prelude.
From S2P Require Import Prog.
From S2P Require Import Escalation.
From S2P Require Import Notify.

Open Scope Z_scope.
Open Scope go_scope.

(** ** Data *)

Record DispatchChannel := mkChannel {
  ch_ID : Z; ch_Kind : string; ch_Target : string;
  IsEmail : bool; Deliverable : bool; AllowsDetails : bool }.

(** The interface the queue is used through. *)
Record Enqueuer (D : Type) := mkEnqueuer {
  enq : Z -> payload -> prog D (result out_error ());
  enq_idempotent : Z -> payload -> string -> prog D (result out_error bool) }.
Arguments enq {D}.
Arguments enq_idempotent {D}.

Record DispatchDeps (D : Type) := mkDeps {
  Outbox : Enqueuer D;
  EmailEnabled : bool;
  Projects : option (Z -> prog D (result esc_error string)) (** [ProjectNamer], may be nil *) }.
Arguments Outbox {D}.
Arguments EmailEnabled {D}.
Arguments Projects {D}.

Record DispatchInput := mkInput {
  in_ProjectID : Z; in_Kind : string; Subject : string; Body : string;
  URL : string; RedactedURL : string; Extra : payload;
  in_ChannelIDs : list Z; Channels : list DispatchChannel; IdempotencyKeyPrefix : string }.

Definition with_channels (chs : list Z) (i : DispatchInput) : DispatchInput :=
  mkInput (in_ProjectID i) (in_Kind i) (Subject i) (Body i) (URL i) (RedactedURL i) (Extra i) chs (Channels i)
    (IdempotencyKeyPrefix i).

Definition withProjectName (extra : payload) (name : string) : payload := <["project_name" := VStr name]> extra.

Section dispatch.
Context `{Catalogue} {D : Type}.

Definition resolveProjectName (deps : DispatchDeps D) (projectID : Z) : prog D string :=
  match Projects deps with
  | None => mret ""
  | Some name_of => tryE: name ← name_of projectID catch err => mret ""; mret name
  end.

(** The payload of one channel: base fields over [Extra], then redaction. *)
Definition channel_payload (i : DispatchInput) (subject body : string) (extra : payload) (ch : DispatchChannel) : payload :=
  let p := <["kind" := VStr (in_Kind i)]> extra in
  let p := <["project_id" := VInt (in_ProjectID i)]> p in
  let p := <["url" := VStr (URL i)]> p in
  let p := <["subject" := VStr subject]> p in
  let p := <["body" := VStr body]> p in
  let p := <["channel_kind" := VStr (ch_Kind ch)]> p in
  let p := <["target" := VStr (ch_Target ch)]> p in
  if AllowsDetails ch then p else
  let p := if decide (RedactedURL i <> "") then <["url_redacted" := VStr (RedactedURL i)]> p else p in
  RedactExternalPayload p.

(** The [continue]s before the payload is built. *)
Definition selected (deps : DispatchDeps D) (i : DispatchInput) (ch : DispatchChannel) : bool :=
  Deliverable ch
  && negb (negb (bool_decide (in_ChannelIDs i = [])) && negb (ContainsID (in_ChannelIDs i) (ch_ID ch)))
  && negb (IsEmail ch && negb (EmailEnabled deps)).

Definition idempotency_key (prefix : string) (id : Z) : string := prefix +:+ ":" +:+ pretty id.

Definition enqueue_one (deps : DispatchDeps D) (i : DispatchInput) (subject body : string) (extra : payload)
    (ch : DispatchChannel) : prog D (result out_error ()) :=
  let p := channel_payload i subject body extra ch in
  if decide (IdempotencyKeyPrefix i <> "") then
    chk: enq_idempotent (Outbox deps) (ch_ID ch) p (idempotency_key (IdempotencyKeyPrefix i) (ch_ID ch));
    mret (Ok tt)
  else enq (Outbox deps) (ch_ID ch) p.

Fixpoint dispatch_loop (deps : DispatchDeps D) (i : DispatchInput) (subject body : string) (extra : payload)
    (channels : list DispatchChannel) : prog D (list Z * errs) :=
  match channels with
  | [] => mret ([], [])
  | ch :: channels =>
      if negb (selected deps i ch) then dispatch_loop deps i subject body extra channels else
      r ← enqueue_one deps i subject body extra ch;
      rest ← dispatch_loop deps i subject body extra channels;
      match r with
      | Ok _ => mret (ch_ID ch :: rest.1, rest.2)
      | Err _ => mret (rest.1, ErrEnqueue (ch_ID ch) :: rest.2)
      end
  end.

Definition Dispatch (deps : DispatchDeps D) (i : DispatchInput) : prog D (list Z * errs) :=
  name ← resolveProjectName deps (in_ProjectID i);
  if decide (name <> "") then
    dispatch_loop deps i (WithProjectSubject (Subject i) name) (WithProjectBody (Body i) name)
      (withProjectName (Extra i) name) (Channels i)
  else dispatch_loop deps i (Subject i) (Body i) (Extra i) (Channels i).

(** [NotifyStep] of a source: [load] is what it reads to build the message. *)
Definition dispatch_notifier (deps : nat -> Z -> DispatchDeps D)
    (load : Z -> prog D (result esc_error DispatchInput)) (id : Z) (chs : list Z) (step : nat) : prog D (list Z * errs) :=
  tryE: i ← load id catch err => mret ([], [err]);
  Dispatch (deps step id) (with_channels chs i).
End dispatch.

(** ** What leaves the perimeter *)

(** The public part of a message: what a redacted payload may depend on. *)
Definition same_message (i i' : DispatchInput) : Prop :=
  in_ProjectID i = in_ProjectID i' /\ in_Kind i = in_Kind i' /\ URL i = URL i' /\ RedactedURL i = RedactedURL i' /\
  (forall k, k ∈ externalSafeKeys -> Extra i !! k = Extra i' !! k) /\
  stringField (Extra i) "url_redacted" = stringField (Extra i') "url_redacted".

(** The fields laid over [Extra], as one map. *)
Definition base_fields (s b kind url ck tg : string) (pid : Z) : payload :=
  <["target" := VStr tg]> (<["channel_kind" := VStr ck]> (<["body" := VStr b]> (<["subject" := VStr s]>
    (<["url" := VStr url]> (<["project_id" := VInt pid]> (<["kind" := VStr kind]> ∅)))))).

Lemma base_fields_over (e : payload) s b kind url ck tg pid :
  <["target" := VStr tg]> (<["channel_kind" := VStr ck]> (<["body" := VStr b]> (<["subject" := VStr s]>
    (<["url" := VStr url]> (<["project_id" := VInt pid]> (<["kind" := VStr kind]> e)))))) =
  base_fields s b kind url ck tg pid ∪ e.
Proof. unfold base_fields. by rewrite <- !insert_union_l, (left_id_L ∅ (∪)). Qed.

Lemma insert_lookup_congr (k' k : string) (v : value) (m m' : payload) :
  m !! k = m' !! k -> <[k' := v]> m !! k = <[k' := v]> m' !! k.
Proof. intros Hm. destruct (decide (k = k')) as [->|]; [by rewrite !lookup_insert_eq|by rewrite !lookup_insert_ne]. Qed.

Lemma same_public_over (e e' : payload) s b s' b' kind url ck tg pid r :
  (forall k, k ∈ externalSafeKeys -> e !! k = e' !! k) -> stringField e "url_redacted" = stringField e' "url_redacted" ->
  same_public (if decide (r <> "") then <["url_redacted" := VStr r]> (base_fields s b kind url ck tg pid ∪ e)
               else base_fields s b kind url ck tg pid ∪ e)
              (if decide (r <> "") then <["url_redacted" := VStr r]> (base_fields s' b' kind url ck tg pid ∪ e')
               else base_fields s' b' kind url ck tg pid ∪ e').
Proof.
  intros He Her.
  assert (forall k, k <> "body" -> k <> "subject" ->
    base_fields s b kind url ck tg pid !! k = base_fields s' b' kind url ck tg pid !! k) as Hbase.
  { intros k Hb Hs. unfold base_fields. apply insert_lookup_congr, insert_lookup_congr.
    rewrite !(lookup_insert_ne _ "body"), !(lookup_insert_ne _ "subject") by done. done. }
  assert (forall k, k ∈ externalSafeKeys -> k <> "body" /\ k <> "subject" /\ k <> "url_redacted") as Hne.
  { intros k Hin. split_and!; intros ->; revert Hin; by apply (bool_decide_unpack (_ ∉ _)). }
  split.
  - intros k Hin. destruct (Hne k Hin) as (Hb & Hs & Hu).
    case_decide; rewrite ?(lookup_insert_ne _ "url_redacted") by done; rewrite !lookup_union, (Hbase k Hb Hs), (He k Hin); done.
  - unfold stringField in *. case_decide; [by rewrite !lookup_insert_eq|]. rewrite !lookup_union.
    change (base_fields s b kind url ck tg pid !! "url_redacted") with (None : option value).
    change (base_fields s' b' kind url ck tg pid !! "url_redacted") with (None : option value).
    by rewrite !(left_id_L None (∪)).
Qed.

Lemma redact_keeps `{Catalogue} (p : payload) k :
  k ∈ externalSafeKeys -> k <> "url" -> RedactExternalPayload p !! k = p !! k.
Proof.
  intros Hin Hu. assert (k <> "body" /\ k <> "subject") as [Hb Hs].
  { split; intros ->; revert Hin; by apply (bool_decide_unpack (_ ∉ _)). }
  unfold RedactExternalPayload. repeat case_decide; simpl; rewrite !lookup_insert_ne by done;
    rewrite map_lookup_filter; (destruct (p !! k); simpl; [by case_guard|done]).
Qed.

(** a channel outside the perimeter learns only the public part of a
    message: neither subject nor body nor any other field of [Extra] changes
    what it is sent; and for every channel the routing fields win over
    whatever [Extra] says. *)
Theorem external_payload_public `{Catalogue} (i i' : DispatchInput) (subject body subject' body' : string)
    (ch : DispatchChannel) :
  same_message i i' ->
  (AllowsDetails ch = false ->
   channel_payload i subject body (Extra i) ch = channel_payload i' subject' body' (Extra i') ch) /\
  channel_payload i subject body (Extra i) ch !! "project_id" = Some (VInt (in_ProjectID i)) /\
  channel_payload i subject body (Extra i) ch !! "kind" = Some (VStr (in_Kind i)) /\
  channel_payload i subject body (Extra i) ch !! "channel_kind" = Some (VStr (ch_Kind ch)) /\
  channel_payload i subject body (Extra i) ch !! "target" = Some (VStr (ch_Target ch)).
Proof.
  intros (Hp & Hk & Hu & Hr & Hx & Hxr). unfold channel_payload. rewrite !base_fields_over. split.
  - intros ->. rewrite Hp, Hk, Hu, Hr. apply redact_default_deny. by apply same_public_over.
  - assert (forall k v, k ∈ externalSafeKeys -> k <> "url" ->
      base_fields subject body (in_Kind i) (URL i) (ch_Kind ch) (ch_Target ch) (in_ProjectID i) !! k = Some v ->
      (if AllowsDetails ch then base_fields subject body (in_Kind i) (URL i) (ch_Kind ch) (ch_Target ch) (in_ProjectID i) ∪ Extra i
       else RedactExternalPayload (if decide (RedactedURL i <> "")
         then <["url_redacted" := VStr (RedactedURL i)]> (base_fields subject body (in_Kind i) (URL i) (ch_Kind ch) (ch_Target ch) (in_ProjectID i) ∪ Extra i)
         else base_fields subject body (in_Kind i) (URL i) (ch_Kind ch) (ch_Target ch) (in_ProjectID i) ∪ Extra i)) !! k = Some v) as Hbase.
    { intros k v Hin Hne Hv. assert (k <> "url_redacted") as Hred.
      { intros ->. revert Hin. by apply (bool_decide_unpack (_ ∉ _)). }
      destruct (AllowsDetails ch); [by rewrite (lookup_union_Some_l _ _ _ _ Hv)|].
      rewrite redact_keeps by done. case_decide; [rewrite lookup_insert_ne by done|];
        by rewrite (lookup_union_Some_l _ _ _ _ Hv). }
    split_and!; apply Hbase; try done; by apply (bool_decide_unpack _).
Qed.

(** ** [Dispatch] keeps the promise of [NotifyStep] *)

Section law.
Context `{Catalogue} {D : Type} `{Has EscTables D, Has Deliveries D, Has OutTables D}.
Context `{!Apart OutTables EscTables D, !Apart OutTables Deliveries D, !Apart Deliveries EscTables D}.

Abbreviation wpd := (wp (fun _ => True) delivery_potential 1).

(** What the queue promises for the step [(source, id, step)]: a channel is
    reported queued when it is, and queued at most once. *)
Class EnqueuerLaw (source : string) (id : Z) (step : nat) (q : Enqueuer D) : Prop := {
  enq_wp ch p (own : gset esc_key) : (source, id, step, ch) ∈ own ->
    wpd (enq q ch p) own (fun r own' => own' = match r with Ok _ => own ∖ {[(source, id, step, ch)]} | Err _ => own end);
  enq_idempotent_wp ch p key (own : gset esc_key) : (source, id, step, ch) ∈ own ->
    wpd (enq_idempotent q ch p key) own (fun r own' => own' = match r with Ok _ => own ∖ {[(source, id, step, ch)]} | Err _ => own end) }.

(** The outbox of [Notify], with a note of which step each row is for. *)
Definition note (k : esc_key) (d : D) : D := put (mkDeliveries (k :: delivered (get d))) d.

Definition outbox_for (source : string) (id : Z) (step : nat) : Enqueuer D :=
  mkEnqueuer _
    (fun ch p => call ErrEnqueueSQL (fun d =>
       (tt, note (source, id, step, ch) (put (insert_row ch p None (get d)) d))))
    (fun ch p key => call ErrEnqueueSQL (fun d =>
       if key_taken key (get d) then (false, d)
       else (true, note (source, id, step, ch) (put (insert_row ch p (Some key) (get d)) d)))).

Lemma note_potential (k : esc_key) t d k' :
  delivery_potential (note k (put (T := OutTables) t d)) k' = ((if decide (k = k') then 1 else 0) + delivery_potential d k')%nat.
Proof.
  unfold delivery_potential, note. rewrite get_put, !get_put_apart. simpl.
  rewrite times_cons. lia.
Qed.

Lemma held_remove (k k' : esc_key) (own : gset esc_key) :
  k ∈ own -> held own k' = ((if decide (k = k') then 1 else 0) + held (own ∖ {[k]}) k')%nat.
Proof.
  intros Hk. unfold held. destruct (decide (k = k')) as [->|Hne].
  - rewrite decide_True by done. rewrite decide_False by set_solver. done.
  - destruct (decide (k' ∈ own)); [rewrite decide_True by set_solver|rewrite decide_False by set_solver]; done.
Qed.

Lemma enqueue_wp {A} (k : esc_key) (e : out_error) (q : D -> A * D) (own : gset esc_key) :
  k ∈ own ->
  (forall d, (q d).2 = d \/ exists t, (q d).2 = note k (put (T := OutTables) t d)) ->
  wpd (call e q) own (fun r own' => own' = match r with Ok _ => own ∖ {[k]} | Err _ => own end).
Proof.
  intros Hk Hq f d _. assert (forall k', delivery_potential (q d).2 k' <= (if decide (k = k') then 1 else 0) + delivery_potential d k')%nat as Hp.
  { intros k'. destruct (Hq d) as [->|[t ->]]; [|rewrite note_potential]; lia. }
  destruct f; simpl.
  - exists (own ∖ {[k]}). split; [done|]. split; [|done]. intros k'. rewrite (held_remove k k' own Hk). specialize (Hp k'). simpl in *. lia.
  - exists own. split; [done|]. split; [|done]. intros k'. lia.
  - exists own. split; [done|]. split; [|done]. intros k'. specialize (Hp k'). case_decide; simpl in *; lia.
Qed.

#[export] Instance outbox_for_law source id step : EnqueuerLaw source id step (outbox_for source id step).
Proof.
  constructor; intros; (apply enqueue_wp; [done|]); intros d; simpl; [eauto|].
  destruct (key_taken key (get d)); simpl; eauto.
Qed.

Lemma enqueue_one_wp (source : string) (id : Z) (step : nat) (deps : DispatchDeps D) (i : DispatchInput) (subject body : string) (extra : payload) (ch : DispatchChannel) (own : gset esc_key) :
  EnqueuerLaw source id step (Outbox deps) -> (source, id, step, ch_ID ch) ∈ own ->
  wpd (enqueue_one deps i subject body extra ch) own (fun r own' =>
    own' = match r with Ok _ => own ∖ {[(source, id, step, ch_ID ch)]} | Err _ => own end).
Proof.
  intros Hlaw Hin. unfold enqueue_one. case_decide; [|by apply enq_wp].
  eapply wp_bind; [by apply enq_idempotent_wp|]. intros [b|e] own' ->; done.
Qed.

Lemma dispatch_loop_wp (source : string) (id : Z) (step : nat) (deps : DispatchDeps D) (i : DispatchInput) (subject body : string) (extra : payload) (channels : list DispatchChannel) (own : gset esc_key) :
  EnqueuerLaw source id step (Outbox deps) -> NoDup (map ch_ID channels) ->
  (forall ch, ch ∈ channels -> selected deps i ch = true -> (source, id, step, ch_ID ch) ∈ own) ->
  wpd (dispatch_loop deps i subject body extra channels) own (fun r own' =>
    own' = own ∖ list_to_set (step_keys source id step r.1) /\ forall c, c ∈ r.1 -> c ∈ map ch_ID channels).
Proof.
  intros Hlaw. revert own. induction channels as [|ch channels IH]; intros own Hnd Hown.
  { simpl. split; [set_solver|]. by intros c ?%elem_of_nil. }
  cbn [dispatch_loop]. simpl in Hnd. apply NoDup_cons in Hnd as [Hch Hnd].
  destruct (selected deps i ch) eqn:Hsel; simpl negb; cbn iota.
  2: { eapply wp_mono; [apply IH; [done|]|].
       - intros c Hc. apply Hown. by right.
       - intros [en es] own' [-> Hsub]. split; [done|]. intros c Hc. right. by apply Hsub. }
  eapply wp_bind; [by eapply enqueue_one_wp; [|apply Hown; [left|]]|].
  intros r own' ->.
  eapply wp_bind; [apply IH; [done|]|].
  - intros c Hc Hs. assert ((source, id, step, ch_ID c) ∈ own) as Hin by (apply Hown; [by right|done]).
    destruct r; [|done]. apply elem_of_difference. split; [done|]. intros [= Heq]%elem_of_singleton.
    apply Hch. rewrite <- Heq. apply list_elem_of_In, in_map. by apply list_elem_of_In.
  - intros [en es] own'' [-> Hsub]. destruct r; simpl.
    + split; [set_solver|]. intros c [->|Hc]%elem_of_cons; [by left|right; by apply Hsub].
    + split; [done|]. intros c Hc. right. by apply Hsub.
Qed.

(** What the loading part of a [NotifyStep] may do: read, and return channels
    with distinct ids. *)
Definition loads (load : Z -> prog D (result esc_error DispatchInput)) : Prop :=
  forall id (own : gset esc_key), wpd (load id) own (fun r own' => own' = own /\
    match r with Ok i => NoDup (map ch_ID (Channels i)) | Err _ => True end).

Definition names_quietly (deps : DispatchDeps D) : Prop :=
  match Projects deps with
  | None => True
  | Some name_of => forall pid (own : gset esc_key), wpd (name_of pid) own (fun _ own' => own' = own)
  end.

#[export] Instance dispatch_notifier_law source (deps : nat -> Z -> DispatchDeps D) load :
  (forall step id, EnqueuerLaw source id step (Outbox (deps step id)) /\ names_quietly (deps step id)) ->
  loads load -> NotifyLaw source (dispatch_notifier deps load).
Proof.
  intros Hdeps Hload id chs step own Hne Hnd Hown. destruct (Hdeps step id) as [Hlaw Hname].
  unfold dispatch_notifier. eapply wp_bind; [apply Hload|]. intros [i|e] own' [-> Hi].
  2: { intros k. rewrite elem_of_list_to_set, elem_of_step_keys. intros (ch & [Hch _]%elem_of_difference_list & ->).
       apply Hown. by rewrite elem_of_list_to_set, step_key_in. }
  unfold Dispatch. eapply (wp_bind _ _ _ _ _ _ (fun _ own' => own' = own)).
  { unfold resolveProjectName, names_quietly in *. destruct (Projects (deps step id)) as [name_of|]; [|done].
    eapply wp_bind; [apply Hname|]. by intros [] ? ->. }
  assert (forall (subject body : string) (extra : payload), wpd (dispatch_loop (deps step id) (with_channels chs i) subject body extra (Channels i)) own
    (fun r own' => list_to_set (step_keys source id step (difference chs r.1)) ⊆ own')) as Hloop.
  { intros subject body extra. eapply wp_mono; [apply (dispatch_loop_wp source id step); [done|done|]|].
    - intros ch Hch Hs. apply Hown. rewrite elem_of_list_to_set, step_key_in. unfold selected in Hs. simpl in Hs.
      rewrite bool_decide_false in Hs by done. rewrite !andb_true_iff in Hs. simpl in Hs.
      destruct Hs as [[_ Hs] _]. apply ContainsID_true. by rewrite negb_involutive in Hs.
    - intros [en es] own' [-> _] k. simpl. rewrite elem_of_list_to_set, elem_of_step_keys.
      intros (ch & [Hch Hn]%elem_of_difference_list & ->). apply elem_of_difference.
      rewrite !elem_of_list_to_set, step_key_in. split; [|done]. apply Hown. by rewrite elem_of_list_to_set, step_key_in. }
  intros name own' ->. case_decide; apply Hloop.
Qed.
End law.

Definition ex_input (subject : string) : DispatchInput :=
  mkInput 7 "down" subject "stack trace" "https://gotcha/7" "" (<["host_name" := VStr "db-1"]> ∅) [] [] "".
Definition ex_outside : DispatchChannel := mkChannel 3 "telegram" "@ops" false true false.

Lemma external_payload_public_witness :
  let c := (fun key => key) : Catalogue in
  @channel_payload c (ex_input "a") "a" "x" (Extra (ex_input "a")) ex_outside =
  @channel_payload c (ex_input "b") "b" "y" (Extra (ex_input "b")) ex_outside.
Proof.
  apply (@external_payload_public (fun key => key) (ex_input "a") (ex_input "b") "a" "x" "b" "y" ex_outside).
  - split_and!; try reflexivity.
  - reflexivity.
Defined.
