(* ===== verification/Scheduler.v ===== *)
(** The escalation scheduler: [internal/escalation/scheduler.go].

    [Tick] goes over the open incidents of every source, resuming after the
    last one of the previous tick ([rotatePending]), and sends each the step
    that is due unless a maintenance window, a dependency that is down or the
    settling time holds it ([tickOne]). *)
From stdpp Require Import base tactics list gmap strings sorting relations.
From Stdlib Require Import ZArith Lia.
From S2P Require Import Prelude.
From S2P Require Import Prog.
From S2P Require Import Escalation.
From S2P Require Import Policy.

Open Scope Z_scope.
Open Scope go_scope.

(** ** [rotatePending] *)

(** [sort.Search n f]: the binary search of the Go library, between [i] and [j]. *)
Fixpoint search (fuel : nat) (f : nat -> bool) (i j : nat) : nat :=
  match fuel with
  | O => i
  | S fuel =>
      if Nat.ltb i j then
        let h := ((i + j) / 2)%nat in
        if f h then search fuel f i h else search fuel f (h + 1) j
      else i
  end.

Definition sort_Search (n : nat) (f : nat -> bool) : nat := search n f 0 n.

Definition after_cursor (pending : list PendingIncident) (cursor : Z) (i : nat) : bool :=
  match pending !! i with Some p => cursor <? ID p | None => false end.

Definition rotatePending (pending : list PendingIncident) (cursor : Z) : list PendingIncident :=
  if decide (pending = []) then pending else
  let idx := sort_Search (length pending) (after_cursor pending cursor) in
  if decide (idx = 0%nat) then pending else drop idx pending ++ take idx pending.

(** ** Interfaces *)

(** [CheckIncident source id] answers [hasParent, parentDown]. *)
Record DepChecker (D : Type) := mkDepChecker {
  CheckIncident : string -> Z -> prog D (result esc_error (bool * bool));
  MarkSuppressed : string -> Z -> prog D (result esc_error ()) }.
Arguments CheckIncident {D}.
Arguments MarkSuppressed {D}.

Record Binding (D : Type) := mkBinding {
  Src : Source D;
  NotifyStep : Z -> list Z -> nat -> prog D (list Z * errs) }.
Arguments Src {D}.
Arguments NotifyStep {D}.

Record Scheduler (D : Type) := mkScheduler {
  Bindings : list (Binding D);
  InMaintenance : Z -> Z -> prog D (result esc_error bool);
  Dep : option (DepChecker D);
  SettleGrace : Z;
  Now : D -> Z;
  ctx_done : D -> bool (** the tick's budget is exhausted ([ctx.Err() != nil]) *) }.
Arguments Bindings {D}.
Arguments InMaintenance {D}.
Arguments Dep {D}.
Arguments SettleGrace {D}.
Arguments Now {D}.
Arguments ctx_done {D}.

Abbreviation maintenanceCache := (gmap Z bool).
Abbreviation ladderCache := (gmap (Z * string) Ladder).
Abbreviation caches := (maintenanceCache * ladderCache)%type.

Section tick.
Context {D : Type} `{Has EscTables D, Has PolicyTables D}.

(** ** One tick *)

Definition releaseOne (s : Scheduler D) (dep : DepChecker D) (ss : SuppressedSource D) (name : string)
    (p : PendingIncident) : prog D () :=
  tryE: r ← CheckIncident dep name (ID p) catch err => mret tt;
  let '(hasParent, parentDown) := (r : bool * bool) in
  if hasParent && parentDown then mret tt else
  _ ← ClearSuppressed ss (ID p); mret tt.

Fixpoint release_loop (s : Scheduler D) (dep : DepChecker D) (ss : SuppressedSource D) (name : string)
    (l : list PendingIncident) : prog D () :=
  match l with
  | [] => mret tt
  | p :: l => _ ← releaseOne s dep ss name p; release_loop s dep ss name l
  end.

Definition releaseSuppressed (s : Scheduler D) (b : Binding D) : prog D () :=
  match Suppressed (Src b), Dep s with
  | Some ss, Some dep =>
      tryE: l ← OpenSuppressed ss catch err => mret tt;
      release_loop s dep ss (Name (Src b)) l
  | _, _ => mret tt
  end.

(** The maintenance gate, cached per project for the tick; [None]: the check
    failed and the incident is left alone. *)
Definition maintenance_gate (s : Scheduler D) (p : PendingIncident) (now : Z) (c : caches)
  : prog D (option bool * caches) :=
  match c.1 !! ProjectID p with
  | Some b => mret (Some b, c)
  | None =>
      tryE: inMaint ← InMaintenance s (ProjectID p) now catch err => mret (None, c);
      mret (Some inMaint, (<[ProjectID p := inMaint]> c.1, c.2))
  end.

(** The dependency gate: [true] lets the incident through. *)
Definition dependency_gate (s : Scheduler D) (b : Binding D) (p : PendingIncident) (now : Z) : prog D bool :=
  match Suppressed (Src b), Dep s with
  | Some _, Some dep =>
      tryE: r ← CheckIncident dep (Name (Src b)) (ID p) catch err => mret true;
      let '(hasParent, parentDown) := (r : bool * bool) in
      if parentDown then
        _ ← MarkSuppressed dep (Name (Src b)) (ID p); mret false
      else
        mret (negb (hasParent && Nat.eqb (EscalationLevel p) 0 && (now - StartedAt p <? SettleGrace s)))
  | _, _ => mret true
  end.

Definition cached_ladder (p : PendingIncident) (c : caches) : prog D (result esc_error (Ladder * caches)) :=
  match c.2 !! (ProjectID p, Severity p) with
  | Some ladder => mret (Ok (ladder, c))
  | None =>
      tryE: ladder ← GetLadder (ProjectID p) (Severity p) catch err => mret (Err err);
      mret (Ok (ladder, (c.1, <[(ProjectID p, Severity p) := ladder]> c.2)))
  end.

Definition tickOne (s : Scheduler D) (b : Binding D) (p : PendingIncident) (now : Z) (c : caches) : prog D caches :=
  m ← maintenance_gate s p now c;
  let '(inMaint, c) := m in
  if decide (inMaint <> Some false) then mret c else
  pass ← dependency_gate s b p now;
  if negb pass then mret c else
  tryE: r ← cached_ladder p c catch err => mret c;
  let '(ladder, c) := (r : Ladder * caches) in
  _ ← SendStepIfDue ladder (Name (Src b)) (ID p) (EscalationLevel p) (now - StartedAt p)
        (NotifyStep b (ID p)) (BumpEscalation (Src b));
  mret c.

(** The loop over the incidents: how many were handled before the budget ran
    out, and the caches. *)
Fixpoint pending_loop (s : Scheduler D) (b : Binding D) (now : Z) (pending : list PendingIncident) (c : caches)
  : prog D (nat * caches) :=
  match pending with
  | [] => mret (0%nat, c)
  | p :: pending =>
      stop ← pgets (ctx_done s);
      if (stop : bool) then mret (0%nat, c) else
      c ← tickOne s b p now c;
      r ← pending_loop s b now pending c;
      mret (S r.1, r.2)
  end.

(** The cursor after [done] of the rotated incidents. *)
Definition next_cursor (pending : list PendingIncident) (done : nat) (cursor : gmap string Z) (name : string) : gmap string Z :=
  match done with
  | O => cursor
  | S n => match pending !! n with Some p => <[name := ID p]> cursor | None => cursor end
  end.

Fixpoint bindings_loop (s : Scheduler D) (bs : list (Binding D)) (now : Z) (c : caches)
    (cursor : gmap string Z) (skipped : Z) : prog D (gmap string Z * Z) :=
  match bs with
  | [] => mret (cursor, skipped)
  | b :: bs =>
      stop ← pgets (ctx_done s);
      if (stop : bool) then mret (cursor, skipped) else
      _ ← releaseSuppressed s b;
      let name := Name (Src b) in
      tryE: pending ← OpenUnacked (Src b) catch err => bindings_loop s bs now c cursor skipped;
      let pending := rotatePending pending (default 0 (cursor !! name)) in
      r ← pending_loop s b now pending c;
      let '(done, c) := r in
      bindings_loop s bs now c (next_cursor pending done cursor name)
        (skipped + (Z.of_nat (length pending) - Z.of_nat done))
  end.

(** [Tick]: the new cursor and the number of incidents skipped. *)
Definition Tick (s : Scheduler D) (cursor : gmap string Z) : prog D (gmap string Z * Z) :=
  now ← pgets (Now s);
  bindings_loop s (Bindings s) now (∅, ∅) cursor 0.

(** The process of a replica: tick after tick, for as long as it lives. *)
Fixpoint Run (ticks : nat) (s : Scheduler D) (cursor : gmap string Z) : prog D () :=
  match ticks with
  | O => mret tt
  | S ticks => r ← Tick s cursor; Run ticks s r.1
  end.
End tick.

(** ** Rotation *)

Lemma search_spec fuel (f : nat -> bool) N i j :
  (j - i <= fuel)%nat -> (i <= j)%nat -> (j <= N)%nat ->
  (forall m n, (m <= n)%nat -> (n < N)%nat -> f m = true -> f n = true) ->
  let k := search fuel f i j in
  (i <= k <= j)%nat /\ (forall m, (i <= m < k)%nat -> f m = false) /\ ((k < j)%nat -> f k = true).
Proof.
  intros Hfuel Hij HN Hmono. revert i j Hfuel Hij HN.
  induction fuel as [|fuel IH]; intros i j Hfuel Hij HN; cbn [search].
  { split_and!; lia. }
  destruct (Nat.ltb_spec i j) as [Hlt|Hge]; [|split_and!; lia].
  assert (i <= (i + j) / 2 < j)%nat as Hh.
  { split; [apply Nat.div_le_lower_bound; lia|apply Nat.Div0.div_lt_upper_bound; lia]. }
  set (h := ((i + j) / 2)%nat) in *. destruct (f h) eqn:Hf.
  - destruct (IH i h) as (Hk & Hlow & Hhigh); [lia..|]. split; [lia|]. split; [done|].
    intros Hkj. destruct (decide (search fuel f i h < h)%nat); [auto|].
    assert (search fuel f i h = h) as -> by lia. done.
  - destruct (IH (h + 1)%nat j) as (Hk & Hlow & Hhigh); [lia..|]. split; [lia|]. split; [|done].
    intros m Hm. destruct (decide (m <= h)%nat); [|apply Hlow; lia].
    apply not_true_is_false. intros Hmt. rewrite (Hmono m h) in Hf; [done|done|lia|done].
Qed.

(** [ORDER BY id] with unique ids. *)
Abbreviation by_id := (fun a b : PendingIncident => ID a < ID b).

Lemma after_cursor_mono pending cursor i j :
  StronglySorted by_id pending -> (i <= j)%nat -> (j < length pending)%nat ->
  after_cursor pending cursor i = true -> after_cursor pending cursor j = true.
Proof.
  intros Hs Hij Hj. unfold after_cursor.
  destruct (pending !! i) as [p|] eqn:Hi; [|done].
  destruct (lookup_lt_is_Some_2 pending j Hj) as [q Hq]. rewrite Hq, !Z.ltb_lt. intros Hp.
  destruct (decide (i = j)) as [->|Hne]; [congruence|].
  assert (ID p < ID q); [|lia]. apply (StronglySorted_lookup_lt by_id pending i j p q); [done..|lia].
Qed.

(** The index the rotation starts from. *)
Definition start_index (pending : list PendingIncident) (cursor : Z) : nat :=
  sort_Search (length pending) (after_cursor pending cursor).

Lemma start_index_spec pending cursor :
  StronglySorted by_id pending ->
  let k := start_index pending cursor in
  (k <= length pending)%nat /\ (forall m, (m < k)%nat -> after_cursor pending cursor m = false) /\
  ((k < length pending)%nat -> after_cursor pending cursor k = true).
Proof.
  intros Hs. destruct (search_spec (length pending) (after_cursor pending cursor) (length pending) 0 (length pending))
    as (Hk & Hl & Hh); [lia|lia|lia| |].
  - intros m n Hmn Hn. by apply after_cursor_mono.
  - unfold start_index, sort_Search. split_and!; [lia| |done]. intros m Hm. apply Hl. lia.
Qed.

(** After handling the incident at [q] the next tick starts right after it. *)
Lemma start_index_at pending q p :
  StronglySorted by_id pending -> pending !! q = Some p -> start_index pending (ID p) = S q.
Proof.
  intros Hs Hq. destruct (start_index_spec pending (ID p) Hs) as (Hk & Hl & Hh).
  pose proof (lookup_lt_Some _ _ _ Hq) as Hlt.
  set (k := start_index pending (ID p)) in *.
  assert (~ (k <= q)%nat) as Hkq.
  { intros Hle. assert (after_cursor pending (ID p) q = true) as Hc.
    { apply (after_cursor_mono pending (ID p) k q Hs Hle Hlt). apply Hh. lia. }
    unfold after_cursor in Hc. rewrite Hq in Hc. apply Z.ltb_lt in Hc. lia. }
  destruct (decide (k <= S q)%nat); [lia|]. exfalso.
  assert (after_cursor pending (ID p) (S q) = false) as Hc by (apply Hl; lia).
  unfold after_cursor in Hc. destruct (lookup_lt_is_Some_2 pending (S q)) as [r Hr]; [lia|].
  rewrite Hr in Hc. apply Z.ltb_ge in Hc.
  assert (ID p < ID r); [|lia]. apply (StronglySorted_lookup_lt by_id pending q (S q) p r); [done..|lia].
Qed.

Lemma rotatePending_lookup pending cursor m :
  StronglySorted by_id pending -> (m < length pending)%nat ->
  rotatePending pending cursor !! m = pending !! ((start_index pending cursor + m) mod length pending)%nat.
Proof.
  intros Hs Hm. unfold rotatePending. case_decide as Hn; [subst; simpl in Hm; lia|].
  fold (start_index pending cursor). destruct (start_index_spec pending cursor Hs) as (Hk & _ & _).
  set (k := start_index pending cursor) in *. case_decide as H0.
  { rewrite H0. simpl. by rewrite Nat.mod_small by lia. }
  destruct (decide (m < length pending - k)%nat).
  - rewrite lookup_app_l by (rewrite length_drop; lia). rewrite lookup_drop, Nat.mod_small by lia. done.
  - rewrite lookup_app_r by (rewrite length_drop; lia). rewrite length_drop, lookup_take, decide_True by lia.
    replace (k + m)%nat with (m - (length pending - k) + 1 * length pending)%nat by lia.
    rewrite Nat.Div0.mod_add, Nat.mod_small; [done|lia].
Qed.

Lemma rotatePending_length pending cursor : length (rotatePending pending cursor) = length pending.
Proof.
  unfold rotatePending. repeat case_decide; try done. rewrite length_app, length_drop, length_take. lia.
Qed.

(** Ticks over the same open incidents: the tick handles [k] of them before
    its budget runs out and leaves the cursor on the last. *)
Fixpoint visits (pending : list PendingIncident) (cursor : Z) (ks : list nat) : list Z :=
  match ks with
  | [] => []
  | k :: ks =>
      let rotated := rotatePending pending cursor in
      let done := Nat.min k (length rotated) in
      map ID (take done rotated) ++
      visits pending (default 0 (next_cursor rotated done {["" := cursor]} "" !! "")) ks
  end.

Lemma visits_reach pending cursor ks m :
  StronglySorted by_id pending -> Forall (fun k => 0 < k)%nat ks ->
  (m < length pending)%nat -> (m < sum_list ks)%nat ->
  exists p, pending !! ((start_index pending cursor + m) mod length pending)%nat = Some p /\
    ID p ∈ visits pending cursor ks.
Proof.
  intros Hs. revert cursor m. induction ks as [|k ks IH]; intros cursor m Hks Hm Hsum; simpl in Hsum; [lia|].
  apply Forall_cons in Hks as [Hk Hks].
  destruct (lookup_lt_is_Some_2 pending ((start_index pending cursor + m) mod length pending)%nat) as [p Hp].
  { apply Nat.mod_upper_bound. lia. }
  exists p. split; [done|]. cbn [visits]. rewrite rotatePending_length. apply elem_of_app.
  destruct (decide (m < Nat.min k (length pending))%nat) as [Hin|Hout].
  - left. rewrite <- rotatePending_lookup in Hp by done.
    apply list_elem_of_In, in_map, list_elem_of_In. apply list_elem_of_lookup. exists m.
    by rewrite lookup_take, decide_True by done.
  - right. rewrite Nat.min_l by lia. destruct k as [|k]; [lia|]. cbn [next_cursor].
    destruct (lookup_lt_is_Some_2 (rotatePending pending cursor) k) as [q Hq]; [rewrite rotatePending_length; lia|].
    rewrite Hq, lookup_insert_eq. simpl.
    rewrite rotatePending_lookup in Hq by (try done; lia).
    pose proof (start_index_at pending _ q Hs Hq) as Hstart.
    destruct (IH (ID q) (m - S k)%nat Hks) as (p' & Hp' & Hv); [lia|lia|].
    rewrite Hstart in Hp'.
    assert (((S ((start_index pending cursor + k) mod length pending) + (m - S k)) mod length pending
             = (start_index pending cursor + m) mod length pending)%nat) as Heq.
    { replace (S ((start_index pending cursor + k) mod length pending) + (m - S k))%nat
        with ((start_index pending cursor + k) mod length pending + (m - k))%nat by lia.
      rewrite Nat.Div0.add_mod_idemp_l. f_equal. lia. }
    rewrite Heq in Hp'. rewrite Hp in Hp'. by injection Hp' as ->.
Qed.

(** C39: no incident starves.  However few incidents a tick gets through before
    its budget runs out (at least one), once the ticks have handled as many
    incidents as are open, every one of them has had its turn. *)
Theorem rotation_fair (pending : list PendingIncident) (cursor : Z) (ks : list nat) (p : PendingIncident) :
  StronglySorted by_id pending -> Forall (fun k => 0 < k)%nat ks ->
  (length pending <= sum_list ks)%nat -> p ∈ pending -> ID p ∈ visits pending cursor ks.
Proof.
  intros Hs Hks Hsum [q Hq]%list_elem_of_lookup. pose proof (lookup_lt_Some _ _ _ Hq) as Hlt.
  set (n := length pending) in *. set (c := start_index pending cursor).
  assert (c <= n)%nat as Hc by apply (start_index_spec pending cursor Hs).
  destruct (visits_reach pending cursor ks ((q + n - c) mod n)%nat Hs Hks) as (p' & Hp' & Hv).
  - apply Nat.mod_upper_bound. lia.
  - assert ((q + n - c) mod n < n)%nat by (apply Nat.mod_upper_bound; lia). lia.
  - fold n c in Hp'. assert (((c + (q + n - c) mod n) mod n = q)%nat) as Heq.
    { rewrite Nat.Div0.add_mod_idemp_r. replace (c + (q + n - c))%nat with (q + 1 * n)%nat by lia.
      rewrite Nat.Div0.mod_add. by apply Nat.mod_small. }
    rewrite Heq, Hq in Hp'. by injection Hp' as ->.
Qed.

(** ** At most one delivery, whatever the replicas do *)

Section safety.
Context {D : Type} `{Has EscTables D, Has PolicyTables D, Has Deliveries D}.
Context `{!Apart EscTables Deliveries D}.

Abbreviation wpd := (wp (fun _ => True) delivery_potential 1).

(** A program that touches neither claims nor deliveries. *)
Definition quiet {A} (p : prog D A) : Prop := wpd p ∅ (fun _ _ => True).

Lemma wp_quiet {A B} (p : prog D A) (k : A -> prog D B) (own : gset esc_key) :
  quiet p -> (forall a, wpd (k a) ∅ (fun _ _ => True)) -> wpd (mbind k p) own (fun _ _ => True).
Proof.
  intros Hp Hk. eapply (wp_drop _ _ _ _ ∅); [set_solver|].
  eapply wp_bind; [exact Hp|]. intros a own' _. eapply (wp_drop _ _ _ _ ∅); [set_solver|apply Hk].
Qed.

Lemma quiet_pgets {A} (f : D -> A) : quiet (pgets f).
Proof. intros g d _. exists ∅. split_and!; [done| |done]. intros k. lia. Qed.

Lemma quiet_ask {A E} (e : E) (f : D -> A) : quiet (ask e f).
Proof. by apply wp_frame_call. Qed.

Lemma quiet_on {T A E} `{Has T D} `{!Apart T EscTables D, !Apart T Deliveries D} (e : E) (q : T -> A * T) :
  quiet (call e (on q)).
Proof.
  apply wp_frame_call; try done. intros d k _. unfold delivery_potential, on.
  destruct (q (get d)). simpl. by rewrite !get_put_apart.
Qed.

(** What the scheduler relies on. *)
Class SourceLaw (src : Source D) : Prop := {
  source_bump : BumpLaw (BumpEscalation src);
  source_open : quiet (OpenUnacked src);
  source_suppressed : match Suppressed src with
    | Some ss => quiet (OpenSuppressed ss) /\ forall id, quiet (ClearSuppressed ss id)
    | None => True end }.

Class SchedulerLaw (s : Scheduler D) : Prop := {
  law_bindings : forall b, b ∈ Bindings s -> SourceLaw (Src b) /\ NotifyLaw (Name (Src b)) (NotifyStep b);
  law_maintenance : forall pid now, quiet (InMaintenance s pid now);
  law_dep : match Dep s with
    | Some dep => forall name id, quiet (CheckIncident dep name id) /\ quiet (MarkSuppressed dep name id)
    | None => True end }.

Lemma GetLadder_quiet pid sev : quiet (GetLadder pid sev).
Proof.
  unfold quiet, GetLadder. apply wp_quiet; [apply quiet_ask|]. intros [rows|e]; [|done].
  destruct (foldl _ _ _). case_decide; [|done].
  apply wp_quiet; [apply quiet_ask|]. by intros [].
Qed.

Lemma tickOne_wp s b p now c : SchedulerLaw s -> b ∈ Bindings s -> quiet (tickOne s b p now c).
Proof.
  intros Hs Hb. destruct (law_bindings b Hb) as [Hsrc Hn]. unfold tickOne.
  apply wp_quiet.
  { unfold quiet, maintenance_gate. destruct (c.1 !! _); [done|].
    apply wp_quiet; [apply law_maintenance|]. by intros []. }
  intros [inMaint c1]. case_decide; [done|].
  apply wp_quiet.
  { unfold quiet, dependency_gate. pose proof law_dep as Hdep. destruct (Suppressed (Src b)), (Dep s) as [dep|]; try done.
    apply wp_quiet; [apply Hdep|]. intros [[hasParent parentDown]|]; [|done]. destruct parentDown; [|done].
    apply wp_quiet; [apply Hdep|]. done. }
  intros pass. destruct (negb pass); [done|].
  apply wp_quiet.
  { unfold quiet, cached_ladder. destruct (c1.2 !! _); [done|].
    apply wp_quiet; [apply GetLadder_quiet|]. by intros []. }
  intros [[ladder c2]|]; [|done].
  apply wp_quiet; [|done]. apply (SendStepIfDue_wp _ _ _ _ _ (NotifyStep b)); [done|apply source_bump].
Qed.

Lemma pending_loop_wp s b now pending c : SchedulerLaw s -> b ∈ Bindings s -> quiet (pending_loop s b now pending c).
Proof.
  intros Hs Hb. revert c. induction pending as [|p pending IH]; intros c; [done|]. cbn [pending_loop].
  apply wp_quiet; [apply quiet_pgets|]. intros []; [done|].
  apply wp_quiet; [by apply tickOne_wp|]. intros c1. apply wp_quiet; [apply IH|done].
Qed.

Lemma releaseSuppressed_wp s b : SchedulerLaw s -> b ∈ Bindings s -> quiet (releaseSuppressed s b).
Proof.
  intros Hs Hb. destruct (law_bindings b Hb) as [Hsrc _].
  pose proof source_suppressed as Hss. pose proof law_dep as Hdep. unfold quiet, releaseSuppressed.
  destruct (Suppressed (Src b)) as [ss|], (Dep s) as [dep|]; try done. destruct Hss as [Ho Hc].
  apply wp_quiet; [done|]. intros [l|]; [|done].
  induction l as [|p l IH]; [done|]. cbn [release_loop]. apply wp_quiet; [|by intros []].
  unfold quiet, releaseOne. apply wp_quiet; [apply Hdep|]. intros [[hasParent parentDown]|]; [|done].
  destruct (_ && _); [done|]. by apply wp_quiet.
Qed.

Lemma scheduler_Tick_wp s cursor : SchedulerLaw s -> quiet (Tick s cursor).
Proof.
  intros Hs. unfold Tick. apply wp_quiet; [apply quiet_pgets|]. intros now.
  assert (forall bs, (forall b, b ∈ bs -> b ∈ Bindings s) -> forall c cursor skipped,
    wpd (bindings_loop s bs now c cursor skipped) ∅ (fun _ _ => True)) as Hloop; [|by apply Hloop].
  induction bs as [|b bs IH]; intros Hsub c cur skipped; [done|]. cbn [bindings_loop].
  assert (b ∈ Bindings s) as Hb by (apply Hsub; by left).
  assert (forall b', b' ∈ bs -> b' ∈ Bindings s) as Hsub' by (intros b' ?; apply Hsub; by right).
  destruct (law_bindings b Hb) as [Hsrc _].
  apply wp_quiet; [apply quiet_pgets|]. intros []; [done|].
  apply wp_quiet; [by apply releaseSuppressed_wp|]. intros [].
  apply wp_quiet; [apply source_open|]. intros [pending|]; [|by apply IH].
  apply wp_quiet; [by apply pending_loop_wp|]. intros [done' c']. by apply IH.
Qed.

Lemma Run_wp ticks s cursor : SchedulerLaw s -> quiet (Run ticks s cursor).
Proof.
  intros Hs. revert cursor. induction ticks as [|n IH]; intros cursor; [done|]. cbn [Run].
  apply wp_quiet; [by apply scheduler_Tick_wp|]. intros r. apply IH.
Qed.

(** The processes that escalate: the schedulers of the replicas, and the
    evaluators that send the first step of an incident as they open it. *)
Inductive escalates : prog D () -> Prop :=
| EscScheduler ticks s cursor : SchedulerLaw s -> escalates (Run ticks s cursor)
| EscReactive b ladder id level elapsed :
    SourceLaw (Src b) -> NotifyLaw (Name (Src b)) (NotifyStep b) ->
    escalates (_ ← SendStepIfDue ladder (Name (Src b)) id level elapsed (NotifyStep b id) (BumpEscalation (Src b)); mret tt).

Lemma escalates_wp p : escalates p -> quiet p.
Proof.
  intros [ticks s cursor Hs|b ladder id level elapsed Hsrc Hn]; [by apply Run_wp|].
  apply wp_quiet; [|done]. apply (SendStepIfDue_wp _ _ _ _ _ (NotifyStep b)); [done|apply source_bump].
Qed.
End safety.

(** C6: claim before notify.  However the ticks of any number of replicas and
    the reactive paths interleave, and wherever they crash or lose a request,
    a step of an incident reaches a channel at most once, plus once for every
    reply that was lost after its statement took effect; and while no reply is
    lost, every channel that was paged stays in the log the recovery message
    is addressed from. *)
Theorem escalation_at_most_once {D} `{Has EscTables D, Has PolicyTables D, Has Deliveries D} `{!Apart EscTables Deliveries D}
    (env : D -> D -> Prop) (d0 : D) (s : pool D) (k : string * Z * nat * Z) :
  (forall d d', env d d' -> escalations (get d') = escalations (get d) /\ delivered (get d') = delivered (get d)) ->
  escalations (get d0) = ∅ -> delivered (get d0) = [] ->
  rtc (pool_step escalates env) (Pool d0 [] 0) s ->
  (times k (delivered (get (shared s))) <= 1 + lost s)%nat /\
  (lost s = 0%nat -> k ∈ delivered (get (shared s)) -> is_Some (escalations (get (shared s)) !! k)).
Proof.
  intros Henv Hesc Hdel Hr.
  destruct (pool_inv_reach (fun _ => True) delivery_potential 1 escalates env d0 s) as [_ Hle]; [| |done| |done|].
  - intros p Hp. by apply escalates_wp.
  - intros d d' [He Hd]%Henv _. split; [done|]. intros key. unfold delivery_potential, unclaimed. by rewrite He, Hd.
  - intros key. unfold delivery_potential, unclaimed. rewrite Hdel, Hesc, lookup_empty.
    rewrite decide_False by (by intros []). done.
  - specialize (Hle k). unfold delivery_potential in Hle. split; [lia|].
    intros Hl Hin%times_pos. rewrite Hl in Hle. unfold unclaimed in Hle. case_decide; [done|lia].
Qed.

Lemma rotation_fair_witness :
  let l := [mkPending 3 1 0 "critical" 0; mkPending 5 1 0 "critical" 0; mkPending 9 1 0 "critical" 0] in
  visits l 3 [2%nat; 1%nat] = [5; 9; 3] /\ 3 ∈ visits l 3 [2%nat; 1%nat].
Proof.
  split; [vm_compute; reflexivity|].
  apply (rotation_fair _ 3 [2%nat; 1%nat] (mkPending 3 1 0 "critical" 0)).
  - repeat constructor.
  - repeat constructor.
  - vm_compute. lia.
  - by left.
Defined.
