(* ===== verification/EscalationSystem.v ===== *)
(** The escalation subsystem assembled: the scheduler of [Scheduler] over the
    host incidents of [HostIncidents], the ladders of [Policy] and the queue
    of [Notify] through [Dispatch].

    The interfaces the scheduler is proved against ([SourceLaw], [NotifyLaw],
    [SchedulerLaw]) are discharged for the real tables, and the theorems of
    the whole are evaluated on a concrete tick. *)
From stdpp Require Import base tactics list gmap strings relations.
From Stdlib Require Import ZArith Lia SpecFloat.
From S2P Require Import Prelude.
From S2P Require Import Prog.
From S2P Require Import Escalation.
From S2P Require HostIncidents.
From S2P Require Import Policy.
From S2P Require Import Notify.
From S2P Require Import Dispatch.
From S2P Require Import Scheduler.

Open Scope Z_scope.
Open Scope go_scope.

(** ** The shared state *)

Abbreviation IncTables := HostIncidents.IncTables.
Abbreviation World := (EscTables * (Deliveries * (OutTables * (PolicyTables * IncTables))))%type.

#[export] Instance esc_del_apart : Apart EscTables Deliveries World.
Proof. by intros t (? & ? & ? & ? & ?). Qed.
#[export] Instance out_esc_apart : Apart OutTables EscTables World.
Proof. by intros t (? & ? & ? & ? & ?). Qed.
#[export] Instance out_del_apart : Apart OutTables Deliveries World.
Proof. by intros t (? & ? & ? & ? & ?). Qed.
#[export] Instance del_esc_apart : Apart Deliveries EscTables World.
Proof. by intros t (? & ? & ? & ? & ?). Qed.
#[export] Instance inc_esc_apart : Apart IncTables EscTables World.
Proof. by intros t (? & ? & ? & ? & ?). Qed.
#[export] Instance inc_del_apart : Apart IncTables Deliveries World.
Proof. by intros t (? & ? & ? & ? & ?). Qed.

(** ** The host source keeps its promises *)

#[export] Instance host_source_law : SourceLaw (HostIncidents.host_source : Source World).
Proof.
  constructor; simpl.
  - intros id from own. unfold HostIncidents.BumpEscalation.
    eapply (wp_drop _ _ _ _ ∅); [set_solver|].
    apply wp_quiet; [apply quiet_on|]. by intros [].
  - apply quiet_ask.
  - split; [apply quiet_ask|]. intros id. apply quiet_on.
Qed.

Section system.
Context `{Catalogue}.
(** What the notifier of a source reads to build its message, and the channels
    of the project. *)
Context (load : Z -> prog World (result esc_error DispatchInput)) (Hload : loads load).
Context (emailEnabled : bool).

Definition host_deps (step : nat) (id : Z) : DispatchDeps World :=
  mkDeps _ (outbox_for "host" id step) emailEnabled None.

Definition host_binding : Binding World :=
  mkBinding _ HostIncidents.host_source (dispatch_notifier host_deps load).

Lemma host_notify_law : NotifyLaw (Name (Src host_binding)) (NotifyStep host_binding).
Proof. apply dispatch_notifier_law; [|exact Hload]. intros step id. split; [apply outbox_for_law|exact I]. Qed.

Definition host_scheduler (maint : Z -> Z -> prog World (result esc_error bool)) (grace : Z) : Scheduler World :=
  mkScheduler _ [host_binding] maint None grace (fun d => HostIncidents.inc_now (get d)) (fun _ => false).

Lemma host_scheduler_law maint grace : (forall pid now, quiet (maint pid now)) -> SchedulerLaw (host_scheduler maint grace).
Proof.
  intros Hm. constructor; simpl; [|done|done].
  intros b Hb%list_elem_of_singleton. subst b. split; [apply host_source_law|apply host_notify_law].
Qed.
End system.

(** ** A concrete tick *)

Definition ex_channels : list DispatchChannel :=
  [mkChannel 10 "webhook" "https://ops.example" false true true; mkChannel 11 "email" "a@b" true true true].
Definition ex_load (id : Z) : prog World (result esc_error DispatchInput) :=
  ask ErrSource (fun _ => mkInput 7 "host_alert_open" "subject" "body" "https://gotcha" "" ∅ [] ex_channels "").
Definition ex_incident : HostIncidents.Incident :=
  HostIncidents.new_incident 1 7 3 "disk" (S754_zero false) "" false 50.
Definition ex_world : World :=
  (mkEscTables ∅ ∅ 100, (mkDeliveries [], (mkOutTables ∅ 1 100 [],
    (mkPolicyTables ∅ 1 {[ 10 := ChannelRow 7 true; 11 := ChannelRow 7 true ]},
     HostIncidents.mkIncTables {[ 1 := ex_incident ]} 2 ∅ 100)))).
Definition ex_scheduler : Scheduler World :=
  @host_scheduler (fun key => key) ex_load false (fun _ _ => mret (Ok false)) 0.

Lemma ex_load_ok : loads ex_load.
Proof.
  intros id own. eapply wp_frame_call; [done|done| |done].
  intros d. split; [done|]. simpl. repeat constructor; rewrite ?list_elem_of_singleton; [lia|apply not_elem_of_nil].
Defined.

Lemma ex_scheduler_law : SchedulerLaw ex_scheduler.
Proof. apply host_scheduler_law; [exact ex_load_ok|done]. Defined.

(** The default ladder pages both channels of the project, the email one is
    gated because SMTP is off: it is released, the webhook stays logged, and
    the second tick sends nothing more. *)
Lemma escalation_at_most_once_witness :
  exists s : pool World,
    rtc (pool_step escalates (fun d d' => d' = d)) (Pool ex_world [] 0) s /\
    delivered (get (shared s)) = [("host", 1, 0%nat, 10)] /\
    (times ("host", 1%Z, 0, 10%Z) (delivered (get (shared s))) <= 1 + lost s)%nat /\
    is_Some (escalations (get (shared s)) !! ("host", 1, 0%nat, 10)).
Proof.
  set (p := Run 2 ex_scheduler ∅ : prog World ()).
  set (s := Pool (exec0 p ex_world).2 [] 0 : pool World).
  assert (rtc (pool_step escalates (fun d d' => d' = d)) (Pool ex_world [] 0) s) as Hr.
  { apply (pool_exec _ _ p). constructor. exact ex_scheduler_law. }
  destruct (escalation_at_most_once (fun d d' => d' = d) ex_world s ("host", 1, 0%nat, 10)) as [Ht Hc];
    [intros d d' ->; split; reflexivity|reflexivity|reflexivity|exact Hr|].
  exists s. split; [exact Hr|]. split; [vm_compute; reflexivity|]. split; [exact Ht|].
  apply Hc; [reflexivity|]. apply (bool_decide_unpack _). vm_compute. exact I.
Defined.
