(* ===== verification/Uptime.v ===== *)
(** Monitors and their regions: [internal/uptime] state.go, queue.go,
    ingest.go, runner.go and the consensus part of detector.go.

    [apply_result] is the [INSERT ... ON CONFLICT] of [ApplyResult]; [Schedule],
    [lease], [ClaimJob] and [ClaimJobs] work on [check_queue]; [aggregate]
    turns the states of the regions into the state of the monitor. *)
From stdpp Require Import base tactics list gmap strings sorting relations.
From Stdlib Require Import ZArith Lia.
From S2P Require Import Prelude.
From S2P Require Import Prog.

Open Scope Z_scope.
Open Scope go_scope.

(** ** Data *)

Record Monitor := mkMonitor {
  ID : Z; ProjectID : Z; Name : string; Kind : string; Enabled : bool;
  IntervalSeconds : Z; TimeoutSeconds : Z; Config : string;
  FailThreshold : Z; RecoveryThreshold : Z; Retries : Z; Consensus : string;
  RemindEveryMinutes : Z; SSLAlertDays : Z;
  SSLExpiresAt : option Z; SSLAlertedDays : list Z;
  HeartbeatToken : string; LastBeatAt : option Z; CreatedAt : Z;
  Regions : list string; ChannelIDs : list Z; RegionCount : Z;
  (** a column the Go struct does not carry *)
  last_scheduled_at : option Z }.

Definition KindHTTP : string := "http".
Definition KindTCP : string := "tcp".
Definition KindDNS : string := "dns".
Definition KindHeartbeat : string := "heartbeat".
Definition ConsensusAny : string := "any".
Definition ConsensusMajority : string := "majority".
Definition ConsensusAll : string := "all".
Definition DefaultRegion : string := "local".

Record State := mkState {
  MonitorID : Z; Region : string; Status : string;
  ConsecutiveFails : Z; ConsecutiveOKs : Z;
  LastCheckedAt : option Z; LastError : string }.

Record Result := mkResult {
  OK : bool; StatusCode : Z; Error : string;
  DNSMs : Z; ConnectMs : Z; TLSMs : Z; TTFBMs : Z; TotalMs : Z; BodySize : Z;
  Result_SSLExpiresAt : option Z }.

(** A row of [check_queue]. *)
Record QueueRow := mkQueueRow {
  q_monitor : Z; q_region : string; due_at : Z; leased_by : option Z; lease_until : option Z }.

Record Job := mkJob {
  QueueID : Z; Job_MonitorID : Z; Job_Region : string; LeaseUntil : Z; Job_Monitor : Monitor }.

Record Probe := mkProbe { Probe_ID : Z; OrgID : Z; Probe_Region : string; revoked_at : option Z }.

Inductive up_error := ErrInvalidMonitor | ErrNotFound | ErrUpSQL | ErrConflictGone.

Record UpTables := mkUpTables {
  monitors : gmap Z Monitor;
  monitor_regions : gset (Z * string);
  monitor_state : gmap (Z * string) State;
  check_queue : gmap Z QueueRow;
  next_queue : Z;
  projects : gmap Z Z; (** project to organisation *)
  probes : gmap Z Probe;
  up_now : Z (** [now()] *) }.

Definition set_monitors (m : gmap Z Monitor) (t : UpTables) : UpTables :=
  mkUpTables m (monitor_regions t) (monitor_state t) (check_queue t) (next_queue t) (projects t) (probes t) (up_now t).
Definition set_states (m : gmap (Z * string) State) (t : UpTables) : UpTables :=
  mkUpTables (monitors t) (monitor_regions t) m (check_queue t) (next_queue t) (projects t) (probes t) (up_now t).
Definition set_queue (m : gmap Z QueueRow) (next : Z) (t : UpTables) : UpTables :=
  mkUpTables (monitors t) (monitor_regions t) (monitor_state t) m next (projects t) (probes t) (up_now t).

(** ** The state of one region: [ApplyResult] *)

(** Comparisons with a column that may be NULL: an unknown outcome takes the
    next branch of the [CASE]. *)
Definition lt_null (at_ : Z) (last : option Z) : bool :=
  match last with Some l => at_ <? l | None => false end.
Definition ge_null (at_ : Z) (last : option Z) : bool :=
  match last with Some l => l <=? at_ | None => false end.
(** [GREATEST] ignores NULL. *)
Definition greatest (last : option Z) (at_ : Z) : Z :=
  match last with Some l => Z.max l at_ | None => at_ end.

Definition new_state (m : Monitor) (id : Z) (region : string) (ok : bool) (errText : string) (at_ : Z) : State :=
  mkState id region
    (if negb ok && (FailThreshold m <=? 1) then "down"
     else if ok && (RecoveryThreshold m <=? 1) then "up" else "unknown")
    (if ok then 0 else 1) (if ok then 1 else 0) (Some at_) errText.

Definition next_state (m : Monitor) (ok : bool) (errText : string) (at_ : Z) (s : State) : State :=
  let late := lt_null at_ (LastCheckedAt s) in
  mkState (MonitorID s) (Region s)
    (if late then Status s
     else if negb ok && (FailThreshold m <=? ConsecutiveFails s + 1) then "down"
     else if ok && (RecoveryThreshold m <=? ConsecutiveOKs s + 1) then "up" else Status s)
    (if late then ConsecutiveFails s else if ok then 0 else ConsecutiveFails s + 1)
    (if late then ConsecutiveOKs s else if ok then ConsecutiveOKs s + 1 else 0)
    (Some (greatest (LastCheckedAt s) at_))
    (if ge_null at_ (LastCheckedAt s) then errText else LastError s).

(** No row comes back when the monitor does not exist. *)
Definition apply_result (id : Z) (region : string) (ok : bool) (errText : string) (at_ : Z)
    (t : UpTables) : option State * UpTables :=
  match monitors t !! id with
  | None => (None, t)
  | Some m =>
      let s := match monitor_state t !! (id, region) with
               | None => new_state m id region ok errText at_
               | Some s => next_state m ok errText at_ s
               end in
      (Some s, set_states (<[(id, region) := s]> (monitor_state t)) t)
  end.

(** ** [States] *)

Definition string_le (a b : string) : Prop := go_string_lt b a = false.
#[export] Instance string_le_dec a b : Decision (string_le a b).
Proof. unfold string_le. apply _. Defined.

(** The regions of a monitor, in order. *)
Definition regions_of (t : UpTables) (id : Z) : list string :=
  merge_sort string_le (omap (fun '(i, r) => if i =? id then Some r else None) (elements (monitor_regions t))).

(** [monitor_state JOIN monitor_regions ... ORDER BY region] *)
Definition states_of (t : UpTables) (id : Z) : list State :=
  omap (fun r => monitor_state t !! (id, r)) (regions_of t id).

(** ** Consensus: detector.go *)

Inductive aggStatus := aggNone | aggUp | aggDown.

Definition count_state (n : Z * Z) (s : State) : Z * Z :=
  let '(up, down) := n in
  if bool_decide (Status s = "up") then (up + 1, down)
  else if bool_decide (Status s = "down") then (up, down + 1)
  else (up, down).

Definition aggregate (consensus : string) (states : list State) (wantRegions : Z) : aggStatus :=
  let '(up, down) := foldl count_state (0, 0) states in
  let decided := up + down in
  if decided =? 0 then aggNone else
  let total := if decided <? wantRegions then wantRegions else decided in
  if decide (consensus = ConsensusAny) then (if 0 <? down then aggDown else aggUp)
  else if decide (consensus = ConsensusAll) then (if down =? total then aggDown else aggUp)
  else if total <=? down * 2 then aggDown else aggUp.

Definition Aggregate (m : Monitor) (states : list State) : string :=
  match aggregate (Consensus m) states (RegionCount m) with
  | aggUp => "up" | aggDown => "down" | aggNone => "unknown"
  end.

Definition regionsWithStatus (states : list State) (status : string) : list string :=
  map Region (List.filter (fun s => bool_decide (Status s = status)) states).

Definition causeFrom (st : State) (states : list State) : string :=
  if decide (LastError st = "") then
    match List.filter (fun s => bool_decide (Status s = "down") && negb (bool_decide (LastError s = ""))) states with
    | s :: _ => LastError s
    | [] => ""
    end
  else LastError st.

(** ** The queue of checks: queue.go *)

(** A monitor is due: enabled, actively checked, its interval elapsed since
    the last time it was scheduled, and its row not locked by another
    scheduler ([FOR UPDATE ... SKIP LOCKED]). *)
Definition schedule_due (locked : gset Z) (t : UpTables) (id : Z) : bool :=
  match monitors t !! id with
  | None => false
  | Some m =>
      Enabled m && negb (bool_decide (Kind m = KindHeartbeat)) && negb (bool_decide (id ∈ locked)) &&
      match last_scheduled_at m with
      | None => true
      | Some l => l + IntervalSeconds m * second <=? up_now t
      end
  end.

Definition queued (id : Z) (region : string) (q : gmap Z QueueRow) : bool :=
  existsb (fun '(_, row) => (q_monitor row =? id) && bool_decide (q_region row = region)) (map_to_list q).

(** [INSERT INTO check_queue SELECT ... ON CONFLICT DO NOTHING RETURNING
    monitor_id]; the identity column advances for skipped rows too. *)
Fixpoint queue_insert (due : list (Z * string)) (t : UpTables) : list Z * UpTables :=
  match due with
  | [] => ([], t)
  | (id, region) :: due =>
      if queued id region (check_queue t)
      then queue_insert due (set_queue (check_queue t) (next_queue t + 1) t)
      else
        let row := mkQueueRow id region (up_now t) None None in
        let '(ins, t') := queue_insert due
          (set_queue (<[next_queue t := row]> (check_queue t)) (next_queue t + 1) t) in
        (id :: ins, t')
  end.

Definition set_scheduled (now : Z) (m : Monitor) : Monitor :=
  mkMonitor (ID m) (ProjectID m) (Name m) (Kind m) (Enabled m) (IntervalSeconds m) (TimeoutSeconds m)
    (Config m) (FailThreshold m) (RecoveryThreshold m) (Retries m) (Consensus m) (RemindEveryMinutes m)
    (SSLAlertDays m) (SSLExpiresAt m) (SSLAlertedDays m) (HeartbeatToken m) (LastBeatAt m) (CreatedAt m)
    (Regions m) (ChannelIDs m) (RegionCount m) (Some now).

Definition schedule (locked : gset Z) (t : UpTables) : Z * UpTables :=
  let due := List.filter (fun '(id, _) => schedule_due locked t id) (elements (monitor_regions t)) in
  let '(ins, t') := queue_insert due t in
  (Z.of_nat (length ins),
   set_monitors (foldr (fun id ms => alter (set_scheduled (up_now t)) id ms) (monitors t') ins) t').

(** [EXISTS (SELECT 1 FROM monitors JOIN projects WHERE org_id = $4)] *)
Definition monitor_org (t : UpTables) (id : Z) : option Z :=
  m ← monitors t !! id; projects t !! ProjectID m.

Definition leasable (region : string) (orgID : option Z) (locked : gset Z) (t : UpTables) (e : Z * QueueRow) : bool :=
  let '(id, row) := e in
  bool_decide (q_region row = region) && negb (bool_decide (id ∈ locked)) &&
  match lease_until row with None => true | Some u => u <? up_now t end &&
  match orgID with None => true | Some o => bool_decide (monitor_org t (q_monitor row) = Some o) end.

Definition by_due (a b : Z * QueueRow) : Prop := due_at a.2 <= due_at b.2.
#[export] Instance by_due_dec a b : Decision (by_due a b).
Proof. unfold by_due. apply _. Defined.

Definition leaseTime (m : Monitor) : Z :=
  (IntervalSeconds m * 2 + Retries m * (TimeoutSeconds m + 1)) * second.

Definition set_lease (probeID : option Z) (until : Z) (row : QueueRow) : QueueRow :=
  mkQueueRow (q_monitor row) (q_region row) (due_at row) probeID (Some until).

Definition with_regions (t : UpTables) (id : Z) (m : Monitor) : Monitor :=
  mkMonitor id (ProjectID m) (Name m) (Kind m) (Enabled m) (IntervalSeconds m) (TimeoutSeconds m)
    (Config m) (FailThreshold m) (RecoveryThreshold m) (Retries m) (Consensus m) (RemindEveryMinutes m)
    (SSLAlertDays m) (SSLExpiresAt m) [] "" (LastBeatAt m) (CreatedAt m)
    [] [] (Z.of_nat (length (regions_of t id))) (last_scheduled_at m).

Definition job_of (t : UpTables) (id : Z) (row : QueueRow) (until : Z) (m : Monitor) : Job :=
  mkJob id (q_monitor row) (q_region row) until (with_regions t (q_monitor row) m).

(** Rows of [picked JOIN monitors], each with its new lease. *)
Definition leased_rows (probeID : option Z) (t : UpTables) (picked : list (Z * QueueRow)) : list (QueueRow * Job) :=
  omap (fun '(id, row) =>
    match monitors t !! q_monitor row with
    | None => None
    | Some m => let until := up_now t + leaseTime m in Some (set_lease probeID until row, job_of t id row until m)
    end) picked.

Definition by_queue_id (a b : Job) : Prop := QueueID a <= QueueID b.
#[export] Instance by_queue_id_dec a b : Decision (by_queue_id a b).
Proof. unfold by_queue_id. apply _. Defined.

Definition lease_jobs (region : string) (limit : nat) (probeID orgID : option Z) (locked : gset Z)
    (t : UpTables) : list Job * UpTables :=
  let picked := take limit (merge_sort by_due
    (List.filter (leasable region orgID locked t) (map_to_list (check_queue t)))) in
  let rows := leased_rows probeID t picked in
  (merge_sort by_queue_id (map snd rows),
   set_queue (foldr (fun '(row, j) q => <[QueueID j := row]> q) (check_queue t) rows) (next_queue t) t).

(** The probe is not revoked and belongs to the organisation of the monitor. *)
Definition probe_may (t : UpTables) (probeID monitorID : Z) : bool :=
  match probes t !! probeID with
  | None => false
  | Some p => bool_decide (monitor_org t monitorID = Some (OrgID p)) && is_nil (revoked_at p)
  end.

Definition leased_job (t : UpTables) (probeID id : Z) : option Job :=
  match check_queue t !! id with
  | None => None
  | Some row =>
      match lease_until row, monitors t !! q_monitor row with
      | Some until, Some m =>
          if ptr_is (leased_by row) probeID && (up_now t <? until) && probe_may t probeID (q_monitor row)
          then Some (job_of t id row until m) else None
      | _, _ => None
      end
  end.

Record JobClaim := mkJobClaim { Claim_QueueID : Z; Claim_LeaseUntil : Z }.

Definition claimed_by (c : JobClaim) (q : gmap Z QueueRow) : bool :=
  match q !! Claim_QueueID c with
  | Some row => ptr_is (lease_until row) (Claim_LeaseUntil c)
  | None => false
  end.

(** [DELETE ... USING unnest(...) RETURNING id] *)
Definition claim_delete (claims : list JobClaim) (t : UpTables) : gset Z * UpTables :=
  let won := List.filter (fun c => claimed_by c (check_queue t)) claims in
  (list_to_set (map Claim_QueueID won),
   set_queue (foldr (fun c q => delete (Claim_QueueID c) q) (check_queue t) won) (next_queue t) t).

Definition set_ssl (expires : Z) (m : Monitor) : Monitor :=
  mkMonitor (ID m) (ProjectID m) (Name m) (Kind m) (Enabled m) (IntervalSeconds m) (TimeoutSeconds m)
    (Config m) (FailThreshold m) (RecoveryThreshold m) (Retries m) (Consensus m) (RemindEveryMinutes m)
    (SSLAlertDays m) (Some expires)
    (match SSLExpiresAt m with Some old => if old <? expires then [] else SSLAlertedDays m | None => SSLAlertedDays m end)
    (HeartbeatToken m) (LastBeatAt m) (CreatedAt m) (Regions m) (ChannelIDs m) (RegionCount m) (last_scheduled_at m).

(** The results applied so far, each named by the queue entry it answers. *)
Record AppliedLog := mkAppliedLog { applied : list Z }.

Section programs.
Context {D : Type} `{Has UpTables D, Has AppliedLog D}.

Definition ApplyResult (id : Z) (region : string) (ok : bool) (errText : string) (at_ : Z)
  : prog D (result up_error State) :=
  tryE: st ← call ErrUpSQL (on (apply_result id region ok errText at_)) catch err => mret (Err err);
  mret (match st with Some s => Ok s | None => Err ErrInvalidMonitor end).

(** The same statement, recorded in the log. *)
Definition apply_noted (j : Job) (r : Result) (at_ : Z) (d : D) : option State * D :=
  let '(st, d') := on (apply_result (Job_MonitorID j) (Job_Region j) (OK r) (Error r) at_) d in
  (st, put (mkAppliedLog (QueueID j :: applied (get d'))) d').

Definition ApplyResult_of (j : Job) (r : Result) (at_ : Z) : prog D (result up_error State) :=
  tryE: st ← call ErrUpSQL (apply_noted j r at_) catch err => mret (Err err);
  mret (match st with Some s => Ok s | None => Err ErrInvalidMonitor end).

Definition States (id : Z) : prog D (result up_error (list State)) :=
  ask ErrUpSQL (fun d => states_of (get d) id).

Definition SetSSLExpiry (id : Z) (expires : Z) : prog D (result up_error ()) :=
  tryE: n ← call ErrUpSQL (on (fun t =>
      (bool_decide (is_Some (monitors t !! id)), set_monitors (alter (set_ssl expires) id (monitors t)) t)))
    catch err => mret (Err err);
  if n : bool then mret (Ok tt) else mret (Err ErrNotFound).

Definition Schedule (locked : gset Z) : prog D (result up_error Z) := call ErrUpSQL (on (schedule locked)).

Definition lease (region : string) (limit : nat) (probeID orgID : option Z) (locked : gset Z)
  : prog D (result up_error (list Job)) :=
  call ErrUpSQL (on (lease_jobs region limit probeID orgID locked)).

Definition LeaseLocal (region : string) (limit : nat) (locked : gset Z) : prog D (result up_error (list Job)) :=
  lease region limit None None locked.

Definition LeaseForProbe (probe : Probe) (limit : nat) (locked : gset Z) : prog D (result up_error (list Job)) :=
  lease (Probe_Region probe) limit (Some (Probe_ID probe)) (Some (OrgID probe)) locked.

Definition LeasedJobs (queueIDs : list Z) (probeID : Z) : prog D (result up_error (gmap Z Job)) :=
  ask ErrUpSQL (fun d =>
    list_to_map (omap (fun id => (fun j => (id, j)) <$> leased_job (get d) probeID id) queueIDs)).

Definition ClaimJobs (claims : list JobClaim) : prog D (result up_error (gset Z)) :=
  call ErrUpSQL (on (claim_delete claims)).

Definition ClaimJob (queueID leaseUntil : Z) : prog D (result up_error bool) :=
  call ErrUpSQL (on (fun t =>
    let '(won, t') := claim_delete [mkJobClaim queueID leaseUntil] t in (bool_decide (queueID ∈ won), t'))).

(** ** Accepting results: ingest.go *)

Record Ingestor := mkIngestor {
  Writer : option (Z -> Z -> string -> Z -> Result -> prog D ());
  OnResult : option (Monitor -> string -> Result -> State -> prog D ()) }.

Definition AcceptClaimed (i : Ingestor) (j : Job) (at_ : Z) (r : Result) : prog D (result up_error ()) :=
  _ ← match Writer i with
      | Some add => add (ProjectID (Job_Monitor j)) (Job_MonitorID j) (Job_Region j) at_ r
      | None => mret tt end;
  tryE: st ← ApplyResult_of j r at_ catch err => mret (Err err);
  _ ← match OnResult i with
      | Some f => f (Job_Monitor j) (Job_Region j) r st
      | None => mret tt end;
  mret (Ok tt).

Definition Accept (i : Ingestor) (j : Job) (at_ : Z) (r : Result) : prog D (result up_error ()) :=
  tryE: claimed ← ClaimJob (QueueID j) (LeaseUntil j) catch err => mret (Err err);
  if negb claimed then mret (Ok tt) else AcceptClaimed i j at_ r.

(** ** Running a check: checker.go, runner.go *)

(** [Check] is the network; [None] is a panic of the checker. *)
Record Checker := mkChecker { Check : Monitor -> prog D (option Result) }.

(** [done]: the context is cancelled while waiting for the next attempt. *)
Fixpoint retry_check (c : Checker) (m : Monitor) (done : D -> bool) (n : nat) (res : Result) : prog D (option Result) :=
  match n with
  | O => mret (Some res)
  | S n =>
      if OK res then mret (Some res) else
      stop ← pgets done;
      if stop : bool then mret (Some res) else
      r ← Check c m;
      match r with None => mret None | Some res => retry_check c m done n res end
  end.

Definition checkWithRetries (c : Checker) (m : Monitor) (done : D -> bool) : prog D (option Result) :=
  r ← Check c m;
  match r with None => mret None | Some res => retry_check c m done (Z.to_nat (Retries m)) res end.

Definition panicked : Result := mkResult false 0 "internal checker panic" 0 0 0 0 0 0 None.

Record Runner := mkRunner {
  Ing : Ingestor;
  checkerFor : string -> option Checker;
  ctx_done : D -> bool;
  clock : D -> Z;
  Runner_Region : string;
  Concurrency : Z }.

Definition runOne (r : Runner) (j : Job) : prog D () :=
  match checkerFor r (Kind (Job_Monitor j)) with
  | None => mret tt
  | Some c =>
      res ← checkWithRetries c (Job_Monitor j) (ctx_done r);
      let result := default panicked res in
      at_ ← pgets (clock r);
      stop ← pgets (ctx_done r);
      if stop && negb (OK result) then mret tt else
      _ ← Accept (Ing r) j at_ result;
      mret tt
  end.

Fixpoint dispatch_jobs (r : Runner) (jobs : list Job) : prog D () :=
  match jobs with
  | [] => mret tt
  | j :: jobs =>
      stop ← pgets (ctx_done r);
      if stop : bool then mret tt else
      _ ← go (runOne r j);
      dispatch_jobs r jobs
  end.

Definition defaultConcurrency : Z := 50.
Definition runner_region (r : Runner) : string :=
  if decide (Runner_Region r = "") then DefaultRegion else Runner_Region r.
Definition concurrency (r : Runner) : nat :=
  Z.to_nat (if Concurrency r <=? 0 then defaultConcurrency else Concurrency r).

Definition leaseAndDispatch (r : Runner) (locked : gset Z) : prog D () :=
  tryE: jobs ← LeaseLocal (runner_region r) (concurrency r) locked catch err => mret tt;
  dispatch_jobs r jobs.

(** ** The results of a remote probe: web/probeapi.go *)

Record ResultDTO := mkResultDTO { DTO_QueueID : Z; DTO_Result : Result }.

Record ResultsResponse := mkResultsResponse { Accepted : Z; Rejected : Z; Dropped : Z }.

(** [claimed] is a Go map: an entry is set to false once its result is used. *)
Fixpoint accept_loop (i : Ingestor) (clk : D -> Z) (jobs : gmap Z Job) (claimed : gset Z)
    (results : list ResultDTO) (resp : ResultsResponse) : prog D ResultsResponse :=
  match results with
  | [] => mret resp
  | res :: results =>
      match jobs !! DTO_QueueID res with
      | None => accept_loop i clk jobs claimed results (mkResultsResponse (Accepted resp) (Rejected resp + 1) (Dropped resp))
      | Some job =>
          if negb (bool_decide (DTO_QueueID res ∈ claimed))
          then accept_loop i clk jobs claimed results (mkResultsResponse (Accepted resp) (Rejected resp) (Dropped resp + 1))
          else
            at_ ← pgets clk;
            r ← AcceptClaimed i job at_ (DTO_Result res);
            accept_loop i clk jobs (claimed ∖ {[DTO_QueueID res]}) results
              (match r with
               | Err _ => mkResultsResponse (Accepted resp) (Rejected resp + 1) (Dropped resp)
               | Ok _ => mkResultsResponse (Accepted resp + 1) (Rejected resp) (Dropped resp)
               end)
      end
  end.

Inductive probe_error := ProbeTooMany | ProbeInternal.

Definition probeMaxResults : nat := 100.

Definition probeResults (i : Ingestor) (clk : D -> Z) (probe : Probe) (results : list ResultDTO)
  : prog D (result probe_error ResultsResponse) :=
  if decide (probeMaxResults < length results)%nat then mret (Err ProbeTooMany) else
  tryE: jobs ← LeasedJobs (map DTO_QueueID results) (Probe_ID probe) catch err => mret (Err ProbeInternal);
  let claims := map (fun '(_, j) => mkJobClaim (QueueID j) (LeaseUntil j)) (map_to_list jobs) in
  tryE: claimed ← ClaimJobs claims
    catch err => mret (Ok (mkResultsResponse 0 (Z.of_nat (length results)) 0));
  resp ← accept_loop i clk jobs claimed results (mkResultsResponse 0 0 0);
  mret (Ok resp).
End programs.
Arguments Ingestor D : clear implicits.
Arguments Checker D : clear implicits.
Arguments Runner D : clear implicits.

(** ** The state of a region is a hysteresis over the fresh results *)

(** A result: outcome, error text, time. *)
Abbreviation obs := (bool * string * Z)%type.

Fixpoint apply_results (id : Z) (region : string) (rs : list obs) (t : UpTables) : UpTables :=
  match rs with
  | [] => t
  | (ok, errText, at_) :: rs => apply_results id region rs (apply_result id region ok errText at_ t).2
  end.

(** The results that are not older than one applied before them. *)
Fixpoint fresh_results (last : option Z) (rs : list obs) : list obs :=
  match rs with
  | [] => []
  | o :: rs => if lt_null o.2 last then fresh_results last rs else o :: fresh_results (Some o.2) rs
  end.

(** Length of the run of failures (of successes) a sequence ends with. *)
Definition run_of (b : bool) (rs : list obs) : Z :=
  foldl (fun n o => if Bool.eqb o.1.1 b then n + 1 else 0) 0 rs.

(** Some prefix ended with [n] outcomes [b], and none after it with [n']
    opposite ones. *)
Definition settled (b : bool) (n n' : Z) (rs : list obs) : Prop :=
  exists pre post, rs = pre ++ post /\ n <= run_of b pre /\
    forall p q, post = p ++ q -> run_of (negb b) (pre ++ p) < n'.

Section hysteresis.
Context (m : Monitor) (id : Z) (region : string).

(** One row fed the results one after the other. *)
Definition feed (s : option State) (o : obs) : State :=
  match s with
  | None => new_state m id region o.1.1 o.1.2 o.2
  | Some s => next_state m o.1.1 o.1.2 o.2 s
  end.

Lemma apply_results_feed rs t :
  monitors t !! id = Some m ->
  monitors (apply_results id region rs t) = monitors t /\
  monitor_state (apply_results id region rs t) !! (id, region)
    = foldl (fun s o => Some (feed s o)) (monitor_state t !! (id, region)) rs /\
  (forall k, k <> (id, region) -> monitor_state (apply_results id region rs t) !! k = monitor_state t !! k).
Proof.
  revert t. induction rs as [|[[ok e] a] rs IH]; intros t Hm; [done|]. cbn [apply_results].
  assert (apply_result id region ok e a t =
    (Some (feed (monitor_state t !! (id, region)) (ok, e, a)),
     set_states (<[(id, region) := feed (monitor_state t !! (id, region)) (ok, e, a)]> (monitor_state t)) t)) as ->.
  { unfold apply_result. rewrite Hm. by destruct (monitor_state t !! (id, region)). }
  destruct (IH (set_states (<[(id, region) := feed (monitor_state t !! (id, region)) (ok, e, a)]> (monitor_state t)) t))
    as (Hmon & Hrow & Hother); [done|].
  split_and!; [done| |].
  - simpl in *. rewrite Hrow. by rewrite lookup_insert_eq.
  - intros k Hk. simpl in *. rewrite Hother by done. by rewrite lookup_insert_ne.
Qed.

Lemma run_of_snoc b rs o : run_of b (rs ++ [o]) = if Bool.eqb o.1.1 b then run_of b rs + 1 else 0.
Proof. unfold run_of. by rewrite foldl_app. Qed.

Lemma run_of_nonneg b rs : 0 <= run_of b rs.
Proof. induction rs as [|o rs IH] using rev_ind; [done|]. rewrite run_of_snoc. case_match; lia. Qed.

Lemma fresh_snoc first rs o :
  fresh_results first (rs ++ [o]) =
  fresh_results first rs ++ (if lt_null o.2 (match last (fresh_results first rs) with Some x => Some x.2 | None => first end)
                     then [] else [o]).
Proof.
  revert first. induction rs as [|x rs IH]; intros first; simpl; [by case_match|].
  destruct (lt_null x.2 first); [apply IH|].
  rewrite IH, last_cons. simpl. by destruct (last (fresh_results (Some x.2) rs)).
Qed.

Lemma settled_snoc b n n' rs o :
  1 <= n -> 1 <= n' ->
  settled b n n' (rs ++ [o]) <->
  if n <=? run_of b (rs ++ [o]) then True
  else settled b n n' rs /\ run_of (negb b) (rs ++ [o]) < n'.
Proof.
  intros Hn Hn'. destruct (Z.leb_spec n (run_of b (rs ++ [o]))) as [Hr|Hr].
  { split; [done|]. intros _. exists (rs ++ [o]), []. split; [by rewrite app_nil_r|]. split; [done|].
    intros p q Hpq. symmetry in Hpq. apply app_eq_nil in Hpq as [-> ->]. rewrite app_nil_r.
    rewrite run_of_snoc in Hr |- *. destruct o as [[[] e] a], b; simpl in *; lia. }
  split.
  - intros (pre & post & Heq & Hpre & Hpost).
    destruct post as [|y post _] using rev_ind.
    { rewrite app_nil_r in Heq. subst pre. lia. }
    rewrite app_assoc in Heq. apply app_inj_tail in Heq as [-> ->]. split.
    + exists pre, post. split; [done|]. split; [done|]. intros p q ->. apply (Hpost p (q ++ [y])).
      by rewrite app_assoc.
    + rewrite <- app_assoc. apply (Hpost (post ++ [y]) []). by rewrite app_nil_r.
  - intros [(pre & post & -> & Hpre & Hpost) Hlt]. exists pre, (post ++ [o]).
    split; [by rewrite app_assoc|]. split; [done|]. intros p q Hpq.
    destruct q as [|y q _] using rev_ind.
    + rewrite app_nil_r in Hpq. subst p. by rewrite app_assoc.
    + rewrite app_assoc in Hpq. apply app_inj_tail in Hpq as [-> _]. by eapply Hpost.
Qed.

(** What the row holds, in terms of the fresh results. *)
Definition region_row (rs : list obs) (s : State) : Prop :=
  ConsecutiveFails s = run_of false rs /\ ConsecutiveOKs s = run_of true rs /\
  LastCheckedAt s = snd <$> last rs /\ Some (LastError s) = (fun o => o.1.2) <$> last rs /\
  (Status s = "down" <-> settled false (FailThreshold m) (RecoveryThreshold m) rs) /\
  (Status s = "up" <-> settled true (RecoveryThreshold m) (FailThreshold m) rs).

Lemma settled_nil b n n' : 1 <= n -> ~ settled b n n' [].
Proof.
  intros Hn (pre & post & Heq & Hpre & _). symmetry in Heq. apply app_eq_nil in Heq as [-> ->].
  unfold run_of in Hpre. simpl in Hpre. lia.
Qed.

Context (Hf : 1 <= FailThreshold m) (Hr : 1 <= RecoveryThreshold m).

Lemma feed_row rs o s :
  (rs = [] /\ s = None \/ exists st, s = Some st /\ region_row (fresh_results None rs) st) ->
  region_row (fresh_results None (rs ++ [o])) (feed s o).
Proof.
  intros [[-> ->]|(st & -> & Hfails & Hoks & Hlast & Herr & Hdown & Hup)].
  { cbn [app fresh_results lt_null]. change (fresh_results (Some o.2) []) with (@nil obs).
    unfold region_row, feed. cbn [new_state ConsecutiveFails ConsecutiveOKs LastCheckedAt LastError Status].
    change [o] with ([] ++ [o]). rewrite !settled_snoc, !run_of_snoc by done.
    destruct o as [[[] e] a]; simpl; change (run_of _ []) with 0; simpl;
      repeat (case_match; simpl in *); split_and!; try done; try lia;
      split; try done; try (by intros [?%settled_nil _]); lia. }
  rewrite fresh_snoc. unfold region_row, feed. simpl.
  assert (match last (fresh_results None rs) with Some x => Some x.2 | None => None end = LastCheckedAt st) as ->.
  { rewrite Hlast. by destruct (last (fresh_results None rs)). }
  unfold next_state. destruct (lt_null o.2 (LastCheckedAt st)) eqn:Hlate.
  { rewrite app_nil_r. cbn -[settled run_of]. split_and!; try done.
    - rewrite <- Hlast. destruct (LastCheckedAt st); simpl in *; [|done]. f_equal. lia.
    - unfold ge_null. destruct (LastCheckedAt st); simpl in *; [|done]. destruct (Z.leb_spec z o.2); [lia|done]. }
  assert (exists l, LastCheckedAt st = Some l /\ l <= o.2) as (l & Hl & Hle).
  { destruct (fresh_results None rs) as [|x xs] eqn:Hfr using rev_ind; [done|].
    rewrite last_snoc in Hlast. simpl in Hlast. rewrite Hlast in Hlate |- *. simpl in Hlate.
    apply Z.ltb_ge in Hlate. eauto. }
  cbn -[settled run_of]. rewrite last_snoc, !settled_snoc, !run_of_snoc by done. simpl negb. rewrite <- Hfails, <- Hoks.
  rewrite Hl. cbn -[settled run_of].
  pose proof (run_of_nonneg true (fresh_results None rs)). pose proof (run_of_nonneg false (fresh_results None rs)).
  destruct o as [[[] e] a]; simpl in *;
    repeat (case_match; simpl in *); split_and!; try done; try (f_equal; lia); try lia;
    split; try done; try naive_solver lia.
Qed.

Lemma feed_rows rs : rs <> [] -> exists s, foldl (fun s o => Some (feed s o)) None rs = Some s /\ region_row (fresh_results None rs) s.
Proof.
  induction rs as [|o rs IH] using rev_ind; [done|]. intros _. rewrite foldl_app. simpl.
  eexists. split; [done|]. apply feed_row.
  destruct rs as [|x rs]; [by left|]. right. destruct IH as (s & -> & ?); [done|]. eauto.
Qed.
End hysteresis.

(** the state of a region depends only on the results that were not late.
    Whatever the order in which results are delivered, the row of a region
    counts the failures and successes its fresh results end with, carries the
    time and the error of the last fresh one, and is [down] (or [up]) exactly
    when the fresh results reached the failure threshold (the recovery
    threshold) and the opposite threshold was not reached since; no other row
    changes. *)
Theorem ApplyResult_hysteresis (t : UpTables) (m : Monitor) (id : Z) (region : string) (rs : list obs) :
  monitors t !! id = Some m -> 1 <= FailThreshold m -> 1 <= RecoveryThreshold m ->
  monitor_state t !! (id, region) = None -> rs <> [] ->
  (exists s, monitor_state (apply_results id region rs t) !! (id, region) = Some s /\
    region_row m (fresh_results None rs) s) /\
  forall k, k <> (id, region) -> monitor_state (apply_results id region rs t) !! k = monitor_state t !! k.
Proof.
  intros Hm Hf Hr Hnone Hne. destruct (apply_results_feed m id region rs t Hm) as (_ & Hrow & Hother).
  split; [|done]. rewrite Hrow, Hnone. by apply feed_rows.
Qed.

(** ** Consensus of the regions *)

Definition region_is (t : UpTables) (id : Z) (status : string) (r : string) : bool :=
  match monitor_state t !! (id, r) with
  | Some s => bool_decide (Status s = status)
  | None => false
  end.

Definition how_many (p : string -> bool) (l : list string) : Z := Z.of_nat (length (List.filter p l)).

Lemma how_many_cons p r l : how_many p (r :: l) = (if p r then 1 else 0) + how_many p l.
Proof. unfold how_many. simpl. destruct (p r); simpl; lia. Qed.

Lemma how_many_zero p l : how_many p l = 0 <-> forall r, r ∈ l -> p r = false.
Proof.
  induction l as [|r l IH]; [split; [by intros _ r ?%elem_of_nil|done]|].
  rewrite how_many_cons. assert (0 <= how_many p l) by (unfold how_many; lia).
  destruct (p r) eqn:Hp; split.
  - lia.
  - intros Ha. specialize (Ha r ltac:(by left)). congruence.
  - intros Hz. assert (how_many p l = 0) as Hz' by lia.
    intros x [->|Hx]%elem_of_cons; [done|]. by apply IH.
  - intros Ha. rewrite (proj2 IH); [done|]. intros x Hx. apply Ha. by right.
Qed.

Lemma how_many_all p l : how_many p l = Z.of_nat (length l) <-> forall r, r ∈ l -> p r = true.
Proof.
  assert (forall l, how_many p l <= Z.of_nat (length l)) as Hle.
  { intros l'. unfold how_many. pose proof (length_filter_le p l'). lia. }
  induction l as [|r l IH]; [split; [by intros _ r ?%elem_of_nil|done]|].
  rewrite how_many_cons. simpl length. specialize (Hle l). destruct (p r) eqn:Hp; split.
  - intros Hz x [->|Hx]%elem_of_cons; [done|]. apply IH; [lia|done].
  - intros Ha. rewrite (proj2 IH); [lia|]. intros x Hx. apply Ha. by right.
  - lia.
  - intros Ha. specialize (Ha r ltac:(by left)). congruence.
Qed.

Lemma count_states t id l u d :
  foldl count_state (u, d) (omap (fun r => monitor_state t !! (id, r)) l) =
  (u + how_many (region_is t id "up") l, d + how_many (region_is t id "down") l).
Proof.
  revert u d. induction l as [|r l IH]; intros u d; csimpl; [f_equal; unfold how_many; simpl; lia|].
  rewrite !how_many_cons. unfold region_is at 1 3.
  destruct (monitor_state t !! (id, r)) as [s|]; csimpl; [|rewrite IH; f_equal; lia].
  destruct (decide (Status s = "up")) as [Hu|Hu].
  - rewrite (bool_decide_true (Status s = "up")) by done. rewrite bool_decide_false by (rewrite Hu; discriminate).
    rewrite IH. f_equal; lia.
  - rewrite (bool_decide_false (Status s = "up")) by done. destruct (bool_decide (Status s = "down")); rewrite IH; f_equal; lia.
Qed.

Lemma how_many_disjoint t id l :
  0 <= how_many (region_is t id "up") l /\ 0 <= how_many (region_is t id "down") l /\
  how_many (region_is t id "up") l + how_many (region_is t id "down") l <= Z.of_nat (length l).
Proof.
  induction l as [|r l (Hu & Hd & IH)]; [done|]. rewrite !how_many_cons. unfold region_is at 1 3 5 7. simpl length.
  destruct (monitor_state t !! (id, r)) as [s|]; [|lia]. do 2 case_bool_decide; try lia. congruence.
Qed.

(** Neither up nor down. *)
Definition undecided (t : UpTables) (id : Z) (r : string) : Prop :=
  region_is t id "up" r = false /\ region_is t id "down" r = false.

(** the verdict on a monitor is that of its consensus rule over all the
    regions it is configured for, those that have not answered included:
    unknown when no region has a verdict, down under "any" when some region is
    down, under "all" when every configured region is, under "majority" when at
    least half of the configured regions are; rows of regions the monitor no
    longer has do not count. *)
Theorem aggregate_consensus (t : UpTables) (m : Monitor) :
  RegionCount m = Z.of_nat (length (regions_of t (ID m))) ->
  let R := regions_of t (ID m) in
  let down r := region_is t (ID m) "down" r = true in
  let agg := aggregate (Consensus m) (states_of t (ID m)) (RegionCount m) in
  (agg = aggNone <-> forall r, r ∈ R -> undecided t (ID m) r) /\
  (agg = aggDown <->
    (~ forall r, r ∈ R -> undecided t (ID m) r) /\
    if decide (Consensus m = ConsensusAny) then ~ forall r, r ∈ R -> ~ down r
    else if decide (Consensus m = ConsensusAll) then forall r, r ∈ R -> down r
    else Z.of_nat (length R) <= 2 * how_many (region_is t (ID m) "down") R).
Proof.
  intros Hcount. cbv zeta. set (R := regions_of t (ID m)).
  destruct (how_many_disjoint t (ID m) R) as (Hu & Hd & Hle).
  assert ((forall r, r ∈ R -> undecided t (ID m) r) <->
    how_many (region_is t (ID m) "up") R + how_many (region_is t (ID m) "down") R = 0) as Hund.
  { transitivity (how_many (region_is t (ID m) "up") R = 0 /\ how_many (region_is t (ID m) "down") R = 0); [|lia].
    rewrite !how_many_zero. unfold undecided. naive_solver. }
  assert ((forall r, r ∈ R -> ~ region_is t (ID m) "down" r = true) <-> how_many (region_is t (ID m) "down") R = 0) as Hno.
  { rewrite how_many_zero. split; intros Hx r Hr; specialize (Hx r Hr); by apply not_true_iff_false. }
  pose proof (how_many_all (region_is t (ID m) "down") R) as Hall.
  unfold aggregate, states_of. fold R. rewrite count_states, Hcount. fold R. rewrite !Z.add_0_l.
  set (u := how_many (region_is t (ID m) "up") R) in *. set (d := how_many (region_is t (ID m) "down") R) in *.
  destruct (Z.eqb_spec (u + d) 0), (Z.ltb_spec (u + d) (Z.of_nat (length R)));
    repeat case_decide; rewrite ?Hund, ?Hno, <- ?Hall;
    repeat match goal with
    | |- context [0 <? d] => destruct (Z.ltb_spec 0 d)
    | |- context [d =? ?x] => destruct (Z.eqb_spec d x)
    | |- context [?x <=? d * 2] => destruct (Z.leb_spec x (d * 2))
    end; split; split; intros Hx; first [discriminate Hx|reflexivity|lia|exfalso; lia].
Qed.

(** Two of three regions answered, both down: down by majority, not by "all". *)
Definition ex_monitor (consensus : string) : Monitor :=
  mkMonitor 1 7 "site" "http" true 60 10 "" 2 1 0 consensus 0 14 None [] "" None 0 [] [] 3 None.
Definition ex_state (region : string) : State := mkState 1 region "down" 2 0 (Some 10) "refused".
Definition ex_up (consensus : string) : UpTables :=
  mkUpTables {[1 := ex_monitor consensus]} (list_to_set [(1, "a"); (1, "b"); (1, "c")])
    (list_to_map [((1, "a"), ex_state "a"); ((1, "b"), ex_state "b"); ((1, "gone"), ex_state "gone")])
    ∅ 1 ∅ ∅ 100.

Lemma aggregate_consensus_witness :
  aggregate ConsensusMajority (states_of (ex_up ConsensusMajority) 1) 3 = aggDown /\ aggregate ConsensusAll (states_of (ex_up ConsensusAll) 1) 3 = aggUp.
Proof.
  assert (regions_of (ex_up ConsensusMajority) 1 = ["a"; "b"; "c"]) as HR by (vm_compute; reflexivity).
  destruct (aggregate_consensus (ex_up ConsensusMajority) (ex_monitor ConsensusMajority)) as [_ Hdown];
    [vm_compute; reflexivity|].
  split; [|vm_compute; reflexivity]. apply Hdown. cbn [ID ex_monitor]. rewrite HR. split.
  - intros Hall. destruct (Hall "a"); [by left|]. vm_compute in H0. discriminate.
  - vm_compute. discriminate.
Defined.

Lemma ApplyResult_hysteresis_witness :
  let rs := [(false, "refused", 10); (false, "timeout", 30); (true, "", 20)] in
  let t := set_states ∅ (ex_up ConsensusAny) in
  monitor_state (apply_results 1 "a" rs t) !! (1, "a") = Some (mkState 1 "a" "down" 2 0 (Some 30) "timeout") /\ region_row (ex_monitor ConsensusAny) (fresh_results None rs) (mkState 1 "a" "down" 2 0 (Some 30) "timeout").
Proof.
  intros rs t. assert (monitor_state (apply_results 1 "a" rs t) !! (1, "a") =
    Some (mkState 1 "a" "down" 2 0 (Some 30) "timeout")) as Hrow by (vm_compute; reflexivity).
  split; [exact Hrow|].
  destruct (ApplyResult_hysteresis t (ex_monitor ConsensusAny) 1 "a" rs) as [(s & Hs & Hrow') _];
    [vm_compute; reflexivity|simpl; lia|simpl; lia|vm_compute; reflexivity|discriminate|].
  rewrite Hrow in Hs. injection Hs as <-. exact Hrow'.
Defined.

(** ** A queued check is applied at most once *)

Section at_most_once.
Context {D : Type} `{Has UpTables D, Has AppliedLog D, !Apart UpTables AppliedLog D, !Apart AppliedLog UpTables D}.

(** Identifiers of the queue are drawn in increasing order. *)
Definition queue_wf (t : UpTables) : Prop := forall k, is_Some (check_queue t !! k) -> k < next_queue t.

(** A result for [k] may still be applied: it waits in the queue, or is not
    there yet. *)
Definition live (t : UpTables) (k : Z) : nat :=
  if decide (is_Some (check_queue t !! k) \/ next_queue t <= k) then 1 else 0.

Definition result_potential (d : D) (k : Z) : nat := (times k (applied (get d)) + live (get d) k)%nat.

Abbreviation queue_ok := (fun d : D => queue_wf (get d)).
Abbreviation wpq := (wp queue_ok result_potential 0).

(** A program that neither takes queue entries nor applies their results. *)
Class Idle {A} (p : prog D A) : Prop := idle_wp (own : gset Z) : wpq p own (fun _ own' => own' = own).

Lemma idle_seq {A B} (p : prog D A) (k : A -> prog D B) (own : gset Z) Q :
  Idle p -> (forall a, wpq (k a) own Q) -> wpq (mbind k p) own Q.
Proof. intros Hp Hk. eapply wp_bind; [apply Hp|]. by intros a own' ->. Qed.

(** A statement that leaves the queue and the log alone. *)
Lemma frame_call {A E} (e : E) (q : UpTables -> A * UpTables) (own : gset Z) (Q : result E A -> gset Z -> Prop) :
  (forall t, check_queue (q t).2 = check_queue t /\ next_queue (q t).2 = next_queue t) ->
  (forall d, Q (Ok (q (get d)).1) own) -> Q (Err e) own -> wpq (call e (on q)) own Q.
Proof.
  intros Hq HQ HE. apply wp_frame_call; [| | |done].
  - intros d Hd. rewrite get_on. destruct (Hq (get d)) as [Hqu Hn]. unfold queue_wf. by rewrite Hqu, Hn.
  - intros d key _. unfold result_potential, live. rewrite get_on. destruct (Hq (get d)) as [-> ->].
    unfold on. destruct (q (get d)). simpl. by rewrite get_put_apart.
  - intros d. rewrite on_val. apply HQ.
Qed.

#[export] Instance idle_pgets {A} (f : D -> A) : Idle (pgets f).
Proof. intros own g d Hd. exists own. split; [done|]. split; [|done]. intros k. lia. Qed.

#[export] Instance idle_ask {A E} (e : E) (f : D -> A) : Idle (ask e f).
Proof. intros own. by apply wp_frame_call. Qed.

(** *** Statements on the queue *)

Lemma live_alt t k : live t k = 1%nat \/ live t k = 0%nat.
Proof. unfold live. case_decide; auto. Qed.

Lemma queue_step {A E} (e : E) (q : UpTables -> A * UpTables) (own : gset Z) (Q : result E A -> gset Z -> Prop) (W : A -> gset Z) :
  (forall t, queue_wf t -> queue_wf (q t).2 /\
     forall k, (live (q t).2 k + held (W (q t).1) k <= live t k)%nat) ->
  own = ∅ -> (forall d, Q (Ok (q (get d)).1) (W (q (get d)).1)) -> Q (Err e) ∅ ->
  wpq (call e (on q)) own Q.
Proof.
  intros Hq -> HQ HE f d Hd. destruct (Hq (get d) Hd) as [Hwf Hlive].
  assert (forall k, (result_potential (on q d).2 k + held (W (q (get d)).1) k <= result_potential d k)%nat) as Hpot.
  { intros k. specialize (Hlive k). unfold result_potential. rewrite get_on.
    unfold on at 1. destruct (q (get d)). simpl in *. rewrite get_put_apart. lia. }
  assert (queue_ok (on q d).2) as Hok by (by rewrite get_on).
  exists (match f with FNone => W (q (get d)).1 | _ => ∅ end).
  destruct f; cbn -[on]; (split; [done|]; split; [intros k; specialize (Hpot k); unfold held in *; simpl|]);
    rewrite ?decide_False by set_solver; try done; try lia.
  by rewrite on_val.
Qed.

Lemma claim_delete_spec claims t :
  queue_wf t -> queue_wf (claim_delete claims t).2 /\
  forall k, (live (claim_delete claims t).2 k + held (claim_delete claims t).1 k <= live t k)%nat.
Proof.
  intros Hwf. unfold claim_delete. cbn [fst snd]. set (won := List.filter _ claims).
  assert (forall k, k ∈ (list_to_set (map Claim_QueueID won) : gset Z) -> is_Some (check_queue t !! k)) as Hin.
  { intros k. rewrite elem_of_list_to_set, list_elem_of_fmap. intros (c & -> & Hc).
    apply list_elem_of_In, filter_In in Hc as [_ Hc]. unfold claimed_by in Hc. by destruct (check_queue t !! _). }
  assert (forall k, foldr (fun c q => delete (Claim_QueueID c) q) (check_queue t) won !! k =
    if decide (k ∈ map Claim_QueueID won) then None else check_queue t !! k) as Hdel.
  { clear. intros k. induction won as [|c won IH]; [done|]. cbn [foldr map].
    destruct (decide (k = Claim_QueueID c)) as [->|Hne].
    - rewrite lookup_delete_eq, decide_True by (by left). done.
    - rewrite lookup_delete_ne, IH by done. apply decide_ext. rewrite elem_of_cons. naive_solver. }
  split.
  - intros k. simpl. rewrite Hdel. case_decide; [by intros []|]. apply Hwf.
  - intros k. unfold live, held. simpl. rewrite Hdel. setoid_rewrite elem_of_list_to_set in Hin.
    assert (k ∈ (list_to_set (map Claim_QueueID won) : gset Z) <-> k ∈ map Claim_QueueID won) as Hset
      by apply elem_of_list_to_set.
    destruct (decide (k ∈ map Claim_QueueID won)) as [Hk|Hk].
    + specialize (Hin k Hk). specialize (Hwf k Hin). repeat case_decide; try lia; exfalso; naive_solver lia.
    + repeat case_decide; try lia; exfalso; naive_solver.
Qed.

Lemma insert_leases_dom rows (q : gmap Z QueueRow) :
  (forall row j, (row, j) ∈ rows -> is_Some (q !! QueueID j)) ->
  forall k, is_Some (foldr (fun '(row, j) q => <[QueueID j := row]> q) q rows !! k) <-> is_Some (q !! k).
Proof.
  intros Hin k. induction rows as [|[row j] rows IH]; [done|]. cbn [foldr].
  destruct (decide (k = QueueID j)) as [->|].
  - rewrite lookup_insert_eq. split; [|by eauto]. intros _. apply (Hin row). by left.
  - rewrite lookup_insert_ne by done. apply IH. intros ? ? ?. eapply Hin. by right.
Qed.

Lemma leased_rows_in probeID t picked row j :
  (row, j) ∈ leased_rows probeID t picked -> QueueID j ∈ map fst picked.
Proof.
  unfold leased_rows. rewrite list_elem_of_omap. intros ([id r] & Hin & Hr).
  destruct (monitors t !! q_monitor r); [|done]. injection Hr as <- <-. simpl.
  apply list_elem_of_fmap. by exists (id, r).
Qed.

Lemma same_keys_live t t' :
  next_queue t' = next_queue t -> (forall k, is_Some (check_queue t' !! k) <-> is_Some (check_queue t !! k)) ->
  queue_wf t -> queue_wf t' /\ forall k, live t' k = live t k.
Proof.
  intros Hn Hk Hwf. split.
  - intros k. rewrite Hk, Hn. apply Hwf.
  - intros k. unfold live. apply decide_ext. by rewrite Hk, Hn.
Qed.

Lemma lease_jobs_live region limit probeID orgID locked t :
  queue_wf t -> queue_wf (lease_jobs region limit probeID orgID locked t).2 /\
  forall k, live (lease_jobs region limit probeID orgID locked t).2 k = live t k.
Proof.
  apply same_keys_live; [done|]. intros k. unfold lease_jobs. cbn [fst snd check_queue set_queue].
  apply insert_leases_dom. intros row j Hin%leased_rows_in.
  apply list_elem_of_fmap in Hin as ([id r] & -> & Hin). simpl.
  apply elem_of_take in Hin as (i & Hin%list_elem_of_lookup_2 & _). rewrite merge_sort_Permutation in Hin.
  apply list_elem_of_In, filter_In in Hin as [Hin%list_elem_of_In _].
  apply elem_of_map_to_list in Hin. eauto.
Qed.

Lemma queue_insert_live due t :
  queue_wf t -> queue_wf (queue_insert due t).2 /\ forall k, (live (queue_insert due t).2 k <= live t k)%nat.
Proof.
  revert t. induction due as [|[id region] due IH]; intros t Hwf; [done|]. cbn [queue_insert].
  destruct (queued id region (check_queue t)).
  - destruct (IH (set_queue (check_queue t) (next_queue t + 1) t)) as [? Hlive].
    { intros k Hk. simpl in *. specialize (Hwf k Hk). lia. }
    split; [done|]. intros k. specialize (Hlive k). unfold live in *. simpl in *. repeat case_decide; try lia.
    exfalso. naive_solver lia.
  - destruct (IH (set_queue (<[next_queue t := mkQueueRow id region (up_now t) None None]> (check_queue t)) (next_queue t + 1) t))
      as [Hwf' Hlive].
    { intros k. simpl. rewrite lookup_insert_is_Some. intros [<-|[_ Hk]]; [lia|]. specialize (Hwf k Hk). lia. }
    destruct (queue_insert due _) as [ins t']. simpl in *. split; [done|]. intros k. specialize (Hlive k).
    pose proof (lookup_insert_is_Some (check_queue t) (next_queue t) k (mkQueueRow id region (up_now t) None None)) as Hins.
    unfold live in *. simpl in *. repeat case_decide; try lia; exfalso; naive_solver lia.
Qed.

(** *** The programs *)

Class IngestorLaw (i : Ingestor D) : Prop := {
  law_writer : match Writer i with
    | Some add => forall p m region at_ r, Idle (add p m region at_ r) | None => True end;
  law_on_result : match OnResult i with
    | Some f => forall m region r s, Idle (f m region r s) | None => True end }.

Class RunnerLaw (r : Runner D) : Prop := {
  law_ingestor : IngestorLaw (Ing r);
  law_checker : forall kind c m, checkerFor r kind = Some c -> Idle (Check c m) }.

Lemma apply_result_frame id region ok errText at_ t :
  check_queue (apply_result id region ok errText at_ t).2 = check_queue t /\
  next_queue (apply_result id region ok errText at_ t).2 = next_queue t.
Proof. unfold apply_result. by destruct (monitors t !! id). Qed.

(** The statement that applies a result uses the token of its entry up. *)
Lemma ApplyResult_of_wp j r at_ (own : gset Z) :
  QueueID j ∈ own -> wpq (ApplyResult_of j r at_) own (fun _ own' => own' = own ∖ {[QueueID j]}).
Proof.
  intros Hj. unfold ApplyResult_of. eapply wp_bind with (Q := fun _ own' => own' = own ∖ {[QueueID j]}); [|by intros [[s|]|e]].
  intros f d Hd. set (q := apply_noted j r at_).
  destruct (apply_result_frame (Job_MonitorID j) (Job_Region j) (OK r) (Error r) at_ (get d)) as [Hqu Hn].
  assert (queue_ok (q d).2 /\ forall k, result_potential (q d).2 k =
    (result_potential d k + if decide (k = QueueID j) then 1 else 0)%nat) as [Hok Hpot].
  { unfold q, apply_noted, on. destruct (apply_result _ _ _ _ _ (get d)) as [st t'] eqn:Hst. simpl in *. split.
    - rewrite get_put_apart, get_put. unfold queue_wf. by rewrite Hqu, Hn.
    - intros k. unfold result_potential, live. rewrite get_put. simpl. rewrite !get_put_apart, get_put, Hqu, Hn, times_cons.
      rewrite (decide_ext (QueueID j = k) (k = QueueID j)) by done. lia. }
  exists (own ∖ {[QueueID j]}). destruct f; cbn -[q]; split_and!; try done; intros k;
    rewrite ?Hpot; unfold held; repeat case_decide; try lia; exfalso; set_solver.
Qed.

Lemma AcceptClaimed_wp i j at_ r (own : gset Z) :
  IngestorLaw i -> QueueID j ∈ own -> wpq (AcceptClaimed i j at_ r) own (fun _ own' => own' = own ∖ {[QueueID j]}).
Proof.
  intros [Hw Ho] Hj. unfold AcceptClaimed.
  eapply wp_bind with (Q := fun _ own' => own' = own); [destruct (Writer i); [by apply Hw|done]|].
  intros _ own' ->. eapply wp_bind; [by apply ApplyResult_of_wp|]. intros [st|e] own' ->; [|done].
  eapply wp_bind with (Q := fun _ own' => own' = own ∖ {[QueueID j]}); [destruct (OnResult i); [by apply Ho|done]|].
  by intros _ own' ->.
Qed.

Lemma Accept_wp i j at_ r : IngestorLaw i -> wpq (Accept i j at_ r) ∅ (fun _ _ => True).
Proof.
  intros Hi. unfold Accept, ClaimJob.
  eapply wp_bind with (Q := fun r own => match r with Ok true => QueueID j ∈ own | _ => True end).
  - apply (queue_step _ _ _ _ (fun b => if b : bool then {[QueueID j]} else ∅)); [|done|by intros d; case_match; set_solver|done].
    intros t Hwf. destruct (claim_delete_spec [mkJobClaim (QueueID j) (LeaseUntil j)] t Hwf) as [Hwf' Hlive].
    destruct (claim_delete _ t) as [won t'] eqn:Hc. cbn [fst snd] in *. split; [done|]. intros k. specialize (Hlive k).
    unfold held in *. case_bool_decide; repeat case_decide; try lia; exfalso; set_solver.
  - intros [[]|e] own Hown; [|done|done]. cbn [negb]. eapply wp_mono; [by apply AcceptClaimed_wp|done].
Qed.

Lemma runOne_wp r j : RunnerLaw r -> wpq (runOne r j) ∅ (fun _ _ => True).
Proof.
  intros [Hi Hc]. unfold runOne. destruct (checkerFor r _) as [c|] eqn:Hk; [|done].
  assert (forall n res, Idle (retry_check c (Job_Monitor j) (ctx_done r) n res)) as Hretry.
  { intros n. induction n as [|n IH]; intros res own; cbn [retry_check]; [done|]. destruct (OK res); [done|].
    apply idle_seq; [apply _|]. intros []; [done|]. apply idle_seq; [by eapply Hc|]. intros [res'|]; [apply IH|done]. }
  apply idle_seq.
  { intros own. unfold checkWithRetries. apply idle_seq; [by eapply Hc|]. intros [res|]; [apply Hretry|done]. }
  intros res. apply idle_seq; [apply _|]. intros at_. apply idle_seq; [apply _|]. intros stop. case_match; [done|].
  eapply wp_bind; [by apply Accept_wp|]. done.
Qed.

Lemma leaseAndDispatch_wp r locked : RunnerLaw r -> wpq (leaseAndDispatch r locked) ∅ (fun _ _ => True).
Proof.
  intros Hr. unfold leaseAndDispatch, LeaseLocal, lease.
  eapply wp_bind with (Q := fun _ own => own = ∅).
  - apply (queue_step _ _ _ _ (fun _ => ∅)); [|done..]. intros t Hwf.
    destruct (lease_jobs_live (runner_region r) (concurrency r) None None locked t Hwf) as [? Hl]. split; [done|].
    intros k. rewrite Hl. unfold held. rewrite decide_False by set_solver. lia.
  - intros [jobs|e] own ->; [|done]. induction jobs as [|j jobs IH]; [done|]. cbn [dispatch_jobs].
    apply idle_seq; [apply _|]. intros []; [done|]. exists ∅, ∅. split_and!; [set_solver..| |exact IH].
    by apply runOne_wp.
Qed.

Lemma accept_loop_wp i clk jobs results claimed resp (own : gset Z) :
  IngestorLaw i -> map_Forall (fun k j => QueueID j = k) jobs -> claimed ⊆ own ->
  wpq (accept_loop i clk jobs claimed results resp) own (fun _ _ => True).
Proof.
  intros Hi Hjobs. revert claimed resp own. induction results as [|res results IH]; intros claimed resp own Hsub; [done|].
  cbn [accept_loop]. destruct (jobs !! _) as [job|] eqn:Hj; [|by apply IH].
  case_bool_decide as Hc; [|by apply IH]. cbn [negb].
  specialize (Hjobs _ _ Hj). simpl in Hjobs.
  apply idle_seq; [apply _|]. intros at_. eapply wp_bind; [apply AcceptClaimed_wp; [done|]|].
  - rewrite Hjobs. set_solver.
  - intros r own' ->. apply IH. rewrite Hjobs. set_solver.
Qed.

Lemma leased_jobs_keyed t probeID ids :
  map_Forall (fun k j => QueueID j = k)
    (list_to_map (omap (fun id => (fun j => (id, j)) <$> leased_job t probeID id) ids) : gmap Z Job).
Proof.
  intros k j Hk. apply elem_of_list_to_map_2 in Hk. apply list_elem_of_omap in Hk as (id & _ & Hid).
  destruct (leased_job t probeID id) as [j'|] eqn:Hj; [|done]. injection Hid as <- <-.
  unfold leased_job in Hj. repeat case_match; simplify_eq; done.
Qed.

Lemma probeResults_wp i clk probe results : IngestorLaw i -> wpq (probeResults i clk probe results) ∅ (fun _ _ => True).
Proof.
  intros Hi. unfold probeResults. case_decide; [done|].
  eapply wp_bind with (Q := fun r own => own = ∅ /\ match r with Ok jobs => map_Forall (fun k j => QueueID j = k) jobs | _ => True end).
  { apply wp_frame_call; [done|done| |done]. intros d. split; [done|]. apply leased_jobs_keyed. }
  intros [jobs|e] own [-> Hjobs]; [|done].
  eapply wp_bind with (Q := fun r own => match r with Ok claimed => claimed ⊆ own | _ => True end).
  { apply (queue_step _ _ _ _ (fun W => W)); [|done..]. intros t. apply claim_delete_spec. }
  intros [claimed|e] own Hsub; [|done]. eapply wp_bind; [by apply accept_loop_wp|]. done.
Qed.

Lemma Schedule_wp locked : wpq (Schedule locked) ∅ (fun _ _ => True).
Proof.
  unfold Schedule. apply (queue_step _ _ _ _ (fun _ => ∅)); [|done..]. intros t Hwf.
  destruct (queue_insert_live (List.filter (fun '(id, _) => schedule_due locked t id) (elements (monitor_regions t))) t Hwf) as [Hwf' Hl].
  unfold schedule. destruct (queue_insert _ t) as [ins t']. simpl in *. split; [done|]. intros k. specialize (Hl k).
  unfold held. rewrite decide_False by set_solver. unfold live in *. simpl. lia.
Qed.

(** What the processes of the service run. *)
Inductive queue_program (ing : Ingestor D) (runners : Runner D -> Prop) : prog D () -> Prop :=
| qp_schedule locked : queue_program ing runners (mbind (fun _ => mret tt) (Schedule locked))
| qp_runner r locked : runners r -> queue_program ing runners (leaseAndDispatch r locked)
| qp_probe clk probe results : queue_program ing runners (mbind (fun _ => mret tt) (probeResults ing clk probe results)).

Lemma queue_program_wp ing runners p :
  IngestorLaw ing -> (forall r, runners r -> RunnerLaw r) -> queue_program ing runners p -> wpq p ∅ (fun _ _ => True).
Proof.
  intros Hi Hr [locked|r locked Hin|clk probe results].
  - eapply wp_bind; [apply Schedule_wp|done].
  - apply leaseAndDispatch_wp; auto.
  - eapply wp_bind; [by apply probeResults_wp|done].
Qed.

(** C17: the result of a queued check is applied at most once.  However many
    local runners, probes and schedulers work at once, whatever they crash in
    the middle of and whichever replies of the database are lost, and although
    a check is leased again when its lease expires, no queue entry has its
    result applied twice. *)
Theorem result_applied_at_most_once (ing : Ingestor D) (runners : Runner D -> Prop) (env : D -> D -> Prop)
    (d0 : D) (s : pool D) :
  IngestorLaw ing -> (forall r, runners r -> RunnerLaw r) ->
  (forall d d', env d d' -> next_queue (get d') = next_queue (get d) /\
     dom (check_queue (get d')) ⊆ dom (check_queue (get d)) /\ applied (get d') = applied (get d)) ->
  queue_wf (get d0) -> applied (get d0) = [] ->
  rtc (pool_step (queue_program ing runners) env) (Pool d0 [] 0) s ->
  forall id, (times id (applied (get (shared s))) <= 1)%nat.
Proof.
  intros Hi Hrun Henv Hwf Hempty Hr id.
  destruct (pool_inv_reach queue_ok result_potential 0 (queue_program ing runners) env d0 s) as [_ Hpot].
  - intros p. by apply queue_program_wp.
  - intros d d' (Hn & Hsub & Ha)%Henv Hd. split.
    + intros k Hk. rewrite Hn. apply Hd, elem_of_dom, Hsub. by apply elem_of_dom.
    + intros k. unfold result_potential, live. rewrite Hn, Ha. specialize (Hsub k). rewrite !elem_of_dom in Hsub.
      repeat case_decide; try lia. exfalso. naive_solver.
  - done.
  - intros k. unfold result_potential. rewrite Hempty. destruct (live_alt (get d0) k) as [->| ->]; unfold times; simpl; lia.
  - done.
  - specialize (Hpot id). unfold result_potential in Hpot. lia.
Qed.
End at_most_once.

(** A replica and a probe answer the same entry: the check was leased to both
    in turn, and only the second lease counts. *)
Section example.
Abbreviation ExD := (UpTables * AppliedLog)%type.

#[export] Instance ex_apart1 : Apart UpTables AppliedLog ExD.
Proof. by intros t [d1 d2]. Defined.
#[export] Instance ex_apart2 : Apart AppliedLog UpTables ExD.
Proof. by intros t [d1 d2]. Defined.

Definition ex_probe : Probe := mkProbe 9 5 "a" None.
Definition ex_queue : UpTables :=
  mkUpTables {[1 := ex_monitor ConsensusAny]} {[(1, "a")]} ∅ {[1 := mkQueueRow 1 "a" 90 None None]} 2 {[7 := 5]}
    {[9 := ex_probe]} 100.
Definition ex_ingestor : Ingestor ExD := mkIngestor None None.
Definition ex_ok : Result := mkResult true 200 "" 1 2 3 4 10 0 None.
Definition ex_results : prog ExD () :=
  mbind (fun _ => mret tt) (probeResults ex_ingestor (fun d => up_now d.1) ex_probe [mkResultDTO 1 ex_ok; mkResultDTO 1 ex_ok]).
Definition ex_leased : ExD := (exec0 (LeaseForProbe ex_probe 10 ∅) (ex_queue, mkAppliedLog [])).2.

Lemma result_applied_at_most_once_witness :
  exists s : pool ExD, rtc (pool_step (queue_program ex_ingestor (fun _ => False)) (fun _ _ => False)) (Pool ex_leased [] 0) s /\
    applied (shared s).2 = [1] /\ forall id, (times id (applied (get (shared s))) <= 1)%nat.
Proof.
  assert (rtc (pool_step (queue_program ex_ingestor (fun _ => False)) (fun _ _ => False)) (Pool ex_leased [] 0)
    (Pool (exec0 ex_results ex_leased).2 [] 0)) as Hr.
  { apply pool_exec. apply (qp_probe ex_ingestor (fun _ => False)). }
  eexists. split; [exact Hr|]. split; [vm_compute; reflexivity|].
  apply (result_applied_at_most_once ex_ingestor (fun _ => False) (fun _ _ => False) ex_leased); [by constructor|done|done| |
    vm_compute; reflexivity|exact Hr].
  intros k [row Hk]. change (check_queue (get ex_leased)) with (check_queue ex_leased.1) in Hk.
  assert (check_queue ex_leased.1 = {[1 := mkQueueRow 1 "a" 90 (Some 9) (Some (100 + 120 * second))]}) as Hq by (vm_compute; reflexivity).
  rewrite Hq in Hk. apply lookup_singleton_Some in Hk as [<- _]. vm_compute. reflexivity.
Defined.
End example.
