(* ===== verification/UptimeIncidents.v ===== *)
(** The table of uptime incidents: [internal/uptime/incident.go], and the
    reminders of watchdog.go that live in the same table.

    Every operation of [Service] on [incidents] is a program; [uptime_source]
    packs the ones the escalation scheduler uses. *)
From stdpp Require Import base tactics list gmap strings sorting relations.
From Stdlib Require Import ZArith Lia.
From coqutil Require Import Datatypes.RecordSetters.
From S2P Require Import Prelude.
From S2P Require Import Prog.
From S2P Require Import Rely.
From S2P Require Import Escalation.
From S2P Require Import Uptime.

Import RecordSetters.TriangleBracketNotations.
Open Scope Z_scope.
Open Scope go_scope.

(** ** Data *)

Record Incident := mkIncident {
  Inc_ID : Z; Inc_MonitorID : Z; StartedAt : Z; ResolvedAt : option Z; Cause : string;
  Inc_Regions : list string; InMaintenance : bool; NotifiedOpen : bool; NotifiedClose : bool;
  LastRemindedAt : option Z; SuppressedByDep : bool;
  AcknowledgedAt : option Z; AcknowledgedBy : option Z; Severity : string;
  EscalationLevel : nat; LastEscalatedAt : option Z;
  NotifyOpenFailed : bool; NotifyOpenAttempts : Z; NotifyOpenChannels : option (list Z);
  (** columns the Go struct does not carry *)
  dep_released_at : option Z; group_id : option Z }.

Record IncTables := mkIncTables {
  incidents : gmap Z Incident;
  next_incident : Z;
  groups : gmap Z (option Z); (** incident_groups: id to resolved_at *)
  inc_now : Z (** [now()] *) }.

Definition maxNotifyOpenAttempts : Z := 5.

Definition DeliveryExhausted (i : Incident) : bool :=
  NotifyOpenFailed i && (maxNotifyOpenAttempts <=? NotifyOpenAttempts i).

Definition is_open (i : Incident) : bool := is_nil (ResolvedAt i).

(** ** Statements *)

Definition by_id (a b : Incident) : Prop := Inc_ID a <= Inc_ID b.
#[export] Instance by_id_dec a b : Decision (by_id a b).
Proof. unfold by_id. apply _. Defined.

Definition select (p : Incident -> bool) (t : IncTables) : list Incident :=
  merge_sort by_id (List.filter p (map snd (map_to_list (incidents t)))).

(** [UPDATE incidents SET f WHERE p RETURNING ...] *)
Definition update_where (p : Incident -> bool) (f : Incident -> Incident) (t : IncTables) : list Incident * IncTables :=
  (map f (select p t),
   mkIncTables ((fun i => if p i then f i else i) <$> incidents t) (next_incident t) (groups t) (inc_now t)).

Definition open_for (monitorID : Z) (i : Incident) : bool := (Inc_MonitorID i =? monitorID) && is_open i.

Definition new_incident (id monitorID : Z) (cause : string) (regions : list string) (inMaintenance : bool) (now : Z) : Incident :=
  mkIncident id monitorID now None cause regions inMaintenance false false None false None None "critical"
    0 None false 0 None None None.

(** [INSERT ... ON CONFLICT (monitor_id) WHERE resolved_at IS NULL DO NOTHING
    RETURNING]: the new row, or nothing. *)
Definition open_insert (monitorID : Z) (cause : string) (regions : list string) (inMaintenance : bool)
    (t : IncTables) : option Incident * IncTables :=
  match select (open_for monitorID) t with
  | [] =>
      let row := new_incident (next_incident t) monitorID cause regions inMaintenance (inc_now t) in
      (Some row, mkIncTables (<[next_incident t := row]> (incidents t)) (next_incident t + 1) (groups t) (inc_now t))
  | _ => (None, mkIncTables (incidents t) (next_incident t + 1) (groups t) (inc_now t))
  end.

Definition has_id (id : Z) (i : Incident) : bool := Inc_ID i =? id.

(** [MarkNotified(open=true)] also clears the failure flag and raises the
    level to one. *)
Definition set_notified (open : bool) (i : Incident) : Incident :=
  if open then i <| NotifiedOpen := true |> <| NotifyOpenFailed := false |>
                 <| EscalationLevel := Nat.max (EscalationLevel i) 1 |>
  else i <| NotifiedClose := true |>.

Definition set_open_failed (i : Incident) : Incident :=
  i <| NotifyOpenFailed := true |> <| NotifyOpenAttempts := NotifyOpenAttempts i + 1 |>.

(** ** The scheduler's view *)

Definition clock_start (t : IncTables) (i : Incident) : Z :=
  let resolved := match group_id i with
                  | Some g => default (StartedAt i) (mjoin (groups t !! g))
                  | None => StartedAt i end in
  Z.max (StartedAt i) (Z.max resolved (default (StartedAt i) (dep_released_at i))).

Definition outside_open_group (t : IncTables) (i : Incident) : bool :=
  match group_id i with
  | None => true
  | Some g => match groups t !! g with None => true | Some r => negb (is_nil r) end
  end.

Section tables.
Context (u : UpTables) (t : IncTables).

(** [JOIN monitors]: rows without a monitor are dropped. *)
Definition joined {A} (f : Monitor -> Incident -> option A) (i : Incident) : option A :=
  m ← monitors u !! Inc_MonitorID i; f m i.

Definition unacked (m : Monitor) (i : Incident) : option PendingIncident :=
  if is_open i && is_nil (AcknowledgedAt i) && negb (SuppressedByDep i) && Enabled m
     && (0 <? EscalationLevel i)%nat && outside_open_group t i
  then Some (mkPending (Inc_ID i) (Uptime.ProjectID m) (clock_start t i) (Severity i) (EscalationLevel i)) else None.

Definition suppressed (m : Monitor) (i : Incident) : option PendingIncident :=
  if is_open i && is_nil (AcknowledgedAt i) && SuppressedByDep i
  then Some (mkPending (Inc_ID i) (Uptime.ProjectID m) (StartedAt i) (Severity i) (EscalationLevel i)) else None.

Definition remind_at (m : Monitor) (i : Incident) : Z :=
  default (StartedAt i) (LastRemindedAt i) + RemindEveryMinutes m * minute.

Definition due_for_reminder (m : Monitor) (i : Incident) : option (Incident * Monitor) :=
  if is_open i && negb (InMaintenance i) && negb (SuppressedByDep i) && NotifiedOpen i && Enabled m
     && (0 <? RemindEveryMinutes m) && (remind_at m i <? inc_now t)
  then Some (i, m) else None.

Definition in_project (projectID : Z) (i : Incident) : bool :=
  match monitors u !! Inc_MonitorID i with Some m => Uptime.ProjectID m =? projectID | None => false end.
End tables.

Section programs.
Context {D : Type} `{Has UpTables D, Has IncTables D}.

Definition OpenIncidentFor (monitorID : Z) : prog D (result up_error (option Incident)) :=
  ask ErrUpSQL (fun d => head (select (open_for monitorID) (get d))).

Definition IncidentByID (id : Z) : prog D (result up_error (option Incident)) :=
  ask ErrUpSQL (fun d => head (select (has_id id) (get d))).

Definition OpenIncident (monitorID : Z) (cause : string) (regions : list string) (inMaintenance : bool)
  : prog D (result up_error (Incident * bool)) :=
  tryE: row ← call ErrUpSQL (on (open_insert monitorID cause regions inMaintenance)) catch err => mret (Err err);
  match row with
  | Some i => mret (Ok (i, true))
  | None =>
      tryE: existing ← OpenIncidentFor monitorID catch err => mret (Err err);
      match existing with
      | None => mret (Err ErrConflictGone)
      | Some i => mret (Ok (i, false))
      end
  end.

Definition update (p : Incident -> bool) (f : Z -> Incident -> Incident) : prog D (result up_error (list Incident)) :=
  call ErrUpSQL (on (fun t => update_where p (f (inc_now t)) t)).

Definition ResolveIncident (monitorID at_ : Z) : prog D (result up_error (option Incident)) :=
  tryE: rows ← update (open_for monitorID) (fun _ i => i <| ResolvedAt := Some at_ |>) catch err => mret (Err err);
  mret (Ok (head rows)).

(** An [UPDATE ... WHERE id = $1] that reports a missing row. *)
Definition update_one (id : Z) (f : Incident -> Incident) : prog D (result up_error ()) :=
  tryE: rows ← update (has_id id) (fun _ => f) catch err => mret (Err err);
  match rows with [] => mret (Err ErrNotFound) | _ => mret (Ok tt) end.

Definition MarkNotified (id : Z) (open : bool) : prog D (result up_error ()) := update_one id (set_notified open).
Definition MarkNotifyOpenFailed (id : Z) : prog D (result up_error ()) := update_one id set_open_failed.
Definition SetNotifyOpenChannels (id : Z) (chs : list Z) : prog D (result up_error ()) :=
  update_one id (fun i => i <| NotifyOpenChannels := Some chs |>).
Definition ClearNotifyOpenChannels (id : Z) : prog D (result up_error ()) :=
  update_one id (fun i => i <| NotifyOpenChannels := None |>).
Definition MarkSuppressedByDep (id : Z) : prog D (result up_error ()) :=
  update_one id (fun i => i <| SuppressedByDep := true |>).

Definition Acknowledge (id projectID userID : Z) : prog D (result up_error bool) :=
  tryE: rows ← call ErrUpSQL (fun d =>
      on (fun t => update_where (fun i => has_id id i && is_open i && is_nil (AcknowledgedAt i) && in_project (get d) projectID i)
        (fun i => i <| AcknowledgedAt := Some (inc_now t) |> <| AcknowledgedBy := Some userID |>) t) d)
    catch err => mret (Err err);
  mret (Ok (negb (is_nil (head rows)))).

Definition ClearSuppressedByDep (id : Z) : prog D (result up_error ()) :=
  tryE: _ ← update (fun i => has_id id i && SuppressedByDep i)
      (fun now i => i <| SuppressedByDep := false |> <| dep_released_at := Some now |>)
    catch err => mret (Err err);
  mret (Ok tt).

Definition OpenUnacked : prog D (result esc_error (list PendingIncident)) :=
  ask ErrSource (fun d => omap (joined (get d) (unacked (get d))) (select (fun _ => true) (get d))).

Definition OpenSuppressed : prog D (result esc_error (list PendingIncident)) :=
  ask ErrSource (fun d => omap (joined (get d) suppressed) (select (fun _ => true) (get d))).

Definition BumpEscalation (id : Z) (from : nat) : prog D (bool * list esc_error) :=
  r ← call ErrBump (on (fun t => update_where (fun i => has_id id i && Nat.eqb (EscalationLevel i) from)
        (fun i => i <| EscalationLevel := S from |> <| LastEscalatedAt := Some (inc_now t) |>) t));
  mret (match r with Ok rows => (negb (is_nil (head rows)), []) | Err e => (false, [e]) end).

Definition ClearSuppressed (id : Z) : prog D (result esc_error ()) :=
  r ← ClearSuppressedByDep id;
  mret (match r with Ok _ => Ok tt | Err _ => Err ErrSource end).

Definition uptime_source : Source D :=
  mkSource _ "uptime" OpenUnacked BumpEscalation (Some (mkSuppressedSource _ OpenSuppressed ClearSuppressed)).

(** ** Reminders: watchdog.go *)

Definition IncidentsDueForReminder : prog D (result up_error (list (Incident * Monitor))) :=
  ask ErrUpSQL (fun d => omap (joined (get d) (due_for_reminder (get d))) (select (fun _ => true) (get d))).

Definition ClaimReminder (id remindEveryMinutes : Z) : prog D (result up_error bool) :=
  tryE: rows ← call ErrUpSQL (on (fun t => update_where
      (fun i => has_id id i && is_open i &&
                (default (StartedAt i) (LastRemindedAt i) + remindEveryMinutes * minute <=? inc_now t))
      (fun i => i <| LastRemindedAt := Some (inc_now t) |>) t))
    catch err => mret (Err err);
  mret (Ok (negb (is_nil (head rows)))).
End programs.
