(* ===== verification/Detector.v ===== *)
(** From the result of a check to incidents and notifications:
    [internal/uptime/detector.go].

    [OnResult] is called by the runner, the probe endpoint and the watchdog
    after each applied result, by several replicas at once.  The notifier, the
    dependency checker and the group hook are interfaces of the source: they
    are records of programs here, with the laws their clients rely on. *)
From stdpp Require Import base tactics list gmap strings sorting relations.
From Stdlib Require Import ZArith Lia.
From coqutil Require Import Datatypes.RecordSetters.
From S2P Require Import Prelude.
From S2P Require Import Prog.
From S2P Require Import Rely.
From S2P Require Import Escalation.
From S2P Require Import Uptime.
From S2P Require Import UptimeIncidents.

Import RecordSetters.TriangleBracketNotations.
Open Scope Z_scope.
Open Scope go_scope.

(** ** Interfaces *)

Record Event := mkEvent {
  Ev_Kind : string; Ev_Monitor : Monitor; Ev_Incident : Incident;
  Ev_Regions : list string; Ev_Cause : string; DurationSeconds : Z; DaysLeft : Z }.

Record Notifier (D : Type) := mkNotifier {
  Notify : Event -> prog D (result up_error ());
  OpenStep0Channels : Event -> prog D (result up_error (list Z));
  (** the channels put in the queue, and the error if any *)
  NotifyOpenStep0 : Event -> list Z -> prog D (list Z * option up_error);
  NotifyRecovery : Z -> list Z -> prog D (result up_error ()) }.
Arguments Notify {D}.
Arguments OpenStep0Channels {D}.
Arguments NotifyOpenStep0 {D}.
Arguments NotifyRecovery {D}.

Record depChecker (D : Type) := mkDepChecker {
  HasParent : string -> Z -> prog D (result up_error bool);
  ParentDown : string -> Z -> prog D (result up_error bool);
  DownRoot : string -> Z -> prog D (result up_error (option (string * Z))) }.
Arguments HasParent {D}.
Arguments ParentDown {D}.
Arguments DownRoot {D}.

Record groupHook (D : Type) := mkGroupHook {
  Attach : string -> Z -> string -> Z -> prog D (result up_error (bool * bool));
  OnRootOpened : string -> Z -> string -> Z -> Z -> prog D (result up_error ());
  OnRootClosed : string -> Z -> prog D (result up_error ());
  (** source, incident, project and whether it was notified *)
  RootIncident : string -> Z -> prog D (result up_error (option (string * Z * Z * bool))) }.
Arguments Attach {D}.
Arguments OnRootOpened {D}.
Arguments OnRootClosed {D}.
Arguments RootIncident {D}.

Record Detector (D : Type) := mkDetector {
  Det_Notifier : option (Notifier D);
  Dep : option (depChecker D);
  IncidentGroups : option (groupHook D);
  SettleGrace : Z;
  Pool : bool; (** [d.Pool != nil] *)
  now_clock : D -> Z; (** [time.Now] *)
  Svc_InMaintenance : Z -> Z -> prog D (result up_error bool) }.
Arguments Det_Notifier {D}.
Arguments Dep {D}.
Arguments IncidentGroups {D}.
Arguments SettleGrace {D}.
Arguments Pool {D}.
Arguments now_clock {D}.
Arguments Svc_InMaintenance {D}.

Definition notifyOpenLease : Z := minute.

Definition downEvent (m : Monitor) (inc : Incident) (downRegions : list string) (cause : string) : Event :=
  mkEvent "down" m inc downRegions cause 0 0.

Definition open_channels (inc : Incident) : list Z := default [] (NotifyOpenChannels inc).

Section detector.
Context {D : Type} `{Has EscTables D, Has UpTables D, Has IncTables D}.
Implicit Types d : Detector D.

(** ** Sending "down" *)

Definition mark_failed (id : Z) : prog D () := _ ← MarkNotifyOpenFailed id; mret tt.

(** The channels of step 0, claimed; [None]: give up for this tick. *)
Definition claim_open (d : Detector D) (incidentID : Z) (chs : list Z) : prog D (option (list Z)) :=
  if Pool d && negb (bool_decide (chs = [])) then
    tryE: won ← ClaimStepChannelsWithLease "uptime" incidentID 0 chs notifyOpenLease
      catch err => (_ ← mark_failed incidentID; mret None);
    mret (if decide (won = []) then None else Some won)
  else mret (Some chs).

(** Channels claimed that did not reach the queue are released, the others
    remembered for the log of step 0. *)
Definition settle_claims (d : Detector D) (incidentID : Z) (won enqueued : list Z) : prog D () :=
  if Pool d then
    let unsent := difference won enqueued in
    _ ← (if decide (unsent = []) then mret tt
         else (_ ← ReleaseStepChannels "uptime" incidentID 0 unsent; mret tt));
    if decide (enqueued = []) then mret tt
    else (_ ← SetNotifyOpenChannels incidentID enqueued; mret tt)
  else mret tt.

Definition notifyOpen (d : Detector D) (n : Notifier D) (incidentID : Z) (ev : Event) : prog D () :=
  tryE: chs ← OpenStep0Channels n ev catch err => mark_failed incidentID;
  claim ← claim_open d incidentID chs;
  match claim with
  | None => mret tt
  | Some won =>
      r ← NotifyOpenStep0 n ev won;
      let '(enqueued, err) := r in
      _ ← settle_claims d incidentID won enqueued;
      match err with
      | Some _ => mark_failed incidentID
      | None =>
          tryE: _ ← MarkNotified incidentID true catch err => mark_failed incidentID;
          mret tt
      end
  end.

Definition retryStepZeroLog (d : Detector D) (inc : Incident) : prog D () :=
  if negb (Pool d) || bool_decide (open_channels inc = []) then mret tt else
  r ← LogStepChannels "uptime" (Inc_ID inc) 0 (open_channels inc);
  let '(done_, err) := r in
  if done_ : bool then (_ ← ClearNotifyOpenChannels (Inc_ID inc); mret tt) else mret tt.

(** ** A monitor went down *)

(** The root of the group: the monitor itself, or the failed ancestor whose
    open incident is found. *)
Definition group_root (d : Detector D) (g : groupHook D) (m : Monitor) (inc : Incident)
  : prog D (string * Z * string * Z) :=
  let self := ("uptime", Inc_ID inc, "monitor", ID m) in
  match Dep d with
  | None => mret self
  | Some dep =>
      tryE: root ← DownRoot dep "monitor" (ID m) catch err => mret self;
      match root with
      | Some (rk, rid) =>
          if negb (bool_decide (rk = "monitor")) || negb (rid =? ID m) then
            tryE: ri ← RootIncident g rk rid catch err => mret self;
            match ri with
            | Some (src, incID, _, _) => mret (src, incID, rk, rid)
            | None => mret self
            end
          else mret self
      | None => mret self
      end
  end.

Definition report_root (d : Detector D) (m : Monitor) (inc : Incident) : prog D () :=
  match IncidentGroups d with
  | None => mret tt
  | Some g =>
      root ← group_root d g m inc;
      let '(rootSource, rootIncidentID, rootKind, rootID) := root in
      _ ← OnRootOpened g rootSource rootIncidentID rootKind rootID (Uptime.ProjectID m);
      mret tt
  end.

Definition openIncident (d : Detector D) (m : Monitor) (states : list State) (st : State) (now : Z) : prog D () :=
  let downRegions := regionsWithStatus states "down" in
  let cause := causeFrom st states in
  im ← Svc_InMaintenance d (Uptime.ProjectID m) now;
  let inMaintenance := match im with Ok b => b | Err _ => false end in
  tryE: oc ← OpenIncident (ID m) cause downRegions inMaintenance catch err => mret tt;
  let '(inc, created) := oc in
  _ ← (if created : bool then report_root d m inc else mret tt);
  match Det_Notifier d with
  | None => mret tt
  | Some n =>
      if negb created || inMaintenance then mret tt else
      hasParent ← match Dep d with
                  | None => mret false
                  | Some dep => tryE: hp ← HasParent dep "monitor" (ID m) catch err => mret false; mret hp
                  end;
      if hasParent : bool then mret tt else
      notifyOpen d n (Inc_ID inc) (downEvent m inc downRegions cause)
  end.

(** ** It is still down *)

Definition send_down (d : Detector D) (m : Monitor) (inc : Incident) (states : list State) (st : State) : prog D () :=
  match Det_Notifier d with
  | None => mret tt
  | Some n => notifyOpen d n (Inc_ID inc) (downEvent m inc (regionsWithStatus states "down") (causeFrom st states))
  end.

(** [false]: stop here. *)
Definition release_suppressed (dep : depChecker D) (m : Monitor) (inc : Incident) : prog D bool :=
  if SuppressedByDep inc then
    tryE: down ← ParentDown dep "monitor" (ID m) catch err => mret false;
    if down : bool then mret false else
    tryE: _ ← ClearSuppressedByDep (Inc_ID inc) catch err => mret false;
    mret true
  else mret true.

Definition suppress (d : Detector D) (m : Monitor) (inc : Incident) : prog D () :=
  tryE: _ ← MarkSuppressedByDep (Inc_ID inc) catch err => mret tt;
  match IncidentGroups d with
  | Some g => _ ← Attach g "uptime" (Inc_ID inc) "monitor" (ID m); mret tt
  | None => mret tt
  end.

Definition settleHeldIncident (d : Detector D) (m : Monitor) (inc : Incident) (states : list State) (st : State) (now : Z)
  : prog D () :=
  if NotifiedOpen inc then retryStepZeroLog d inc else
  if NotifyOpenFailed inc then
    if maxNotifyOpenAttempts <=? NotifyOpenAttempts inc then mret tt else send_down d m inc states st
  else if InMaintenance inc then mret tt else
  match Dep d with
  | None => send_down d m inc states st
  | Some dep =>
      go_on ← release_suppressed dep m inc;
      if negb go_on then mret tt else
      down ← (r ← ParentDown dep "monitor" (ID m); mret (match r with Ok b => b | Err _ => false end));
      if down : bool then suppress d m inc
      else if SettleGrace d <=? now - StartedAt inc then send_down d m inc states st
      else mret tt
  end.

(** ** It is up again *)

Definition resolveIncident (d : Detector D) (m : Monitor) (now : Z) : prog D () :=
  tryE: r ← ResolveIncident (ID m) now catch err => mret tt;
  match r with
  | None => mret tt
  | Some inc =>
      _ ← match IncidentGroups d with
          | Some g => _ ← OnRootClosed g "uptime" (Inc_ID inc); mret tt
          | None => mret tt end;
      match Det_Notifier d with
      | None => mret tt
      | Some n =>
          if InMaintenance inc || negb (NotifiedOpen inc) || negb (Pool d) then mret tt else
          _ ← retryStepZeroLog d inc;
          tryE: chs ← RecoveryChannels "uptime" (Inc_ID inc) catch err => mret tt;
          if decide (chs = []) then mret tt else
          tryE: _ ← NotifyRecovery n (Inc_ID inc) chs catch err => mret tt;
          _ ← MarkNotified (Inc_ID inc) false;
          mret tt
      end
  end.

Definition detectIncident (d : Detector D) (m : Monitor) (st : State) : prog D () :=
  tryE: states ← States (ID m) catch err => mret tt;
  let agg := aggregate (Consensus m) states (RegionCount m) in
  match agg with
  | aggNone => mret tt
  | _ =>
      tryE: inc ← OpenIncidentFor (ID m) catch err => mret tt;
      now ← pgets (now_clock d);
      match agg, inc with
      | aggDown, None => openIncident d m states st now
      | aggDown, Some inc => settleHeldIncident d m inc states st now
      | aggUp, Some _ => resolveIncident d m now
      | _, _ => mret tt
      end
  end.

Definition updateSSL (m : Monitor) (r : Result) : prog D () :=
  match Result_SSLExpiresAt r with
  | None => mret tt
  | Some e => _ ← SetSSLExpiry (ID m) e; mret tt
  end.

Definition OnResult (d : Detector D) (m : Monitor) (region : string) (r : Result) (st : State) : prog D () :=
  _ ← detectIncident d m st;
  updateSSL m r.
End detector.
