(* ===== verification/UptimeSafety.v ===== *)
(** When an uptime incident may notify.

    Replicas run [Detector.OnResult] at the same time, the scheduler and the
    operators change the same rows.  The invariant [calm] says that an
    incident opened inside a maintenance window, or of a monitor whose parent
    is down, is never announced, nor escalated; that a recovery is announced
    only for an incident that is closed and had been announced; and that a
    monitor has at most one open incident. *)
From stdpp Require Import base tactics list gmap strings sorting relations.
From Stdlib Require Import ZArith Lia.
From coqutil Require Import Datatypes.RecordSetters.
From S2P Require Import Prelude.
From S2P Require Import Prog.
From S2P Require Import Rely.
From S2P Require Import Escalation.
From S2P Require Import Uptime.
From S2P Require Import UptimeIncidents.
From S2P Require Import Detector.

Import RecordSetters.TriangleBracketNotations.
Open Scope Z_scope.
Open Scope go_scope.

(** The incidents announced ("down") and those whose recovery was. *)
Record UpLog := mkUpLog { downs : list Z; recoveries : list Z }.

Section safety.
Context {D : Type} `{Has EscTables D, Has UpTables D, Has IncTables D, Has UpLog D}.
Context `{!Apart EscTables IncTables D, !Apart EscTables UpLog D, !Apart UpTables IncTables D,
  !Apart UpTables UpLog D, !Apart IncTables UpLog D}.

Abbreviation rows d := (incidents (get (T := IncTables) d)).
Abbreviation next d := (next_incident (get (T := IncTables) d)).

(** Monitors held down by a parent. *)
Context (held : Z -> Prop).

Definition barred (i : Incident) : Prop := InMaintenance i = true \/ held (Inc_MonitorID i).

(** ** What is known of an incident *)

(** It may be announced. *)
Definition clear (id : Z) (d : D) : Prop := id < next d /\ forall i, rows d !! id = Some i -> ~ barred i.

(** Its recovery may be announced. *)
Definition closed (id : Z) (d : D) : Prop :=
  id < next d /\ forall i, rows d !! id = Some i -> ~ barred i /\ NotifiedOpen i = true /\ is_Some (ResolvedAt i).

Record row_ok (d : D) (k : Z) (i : Incident) : Prop := {
  ro_id : Inc_ID i = k;
  ro_next : k < next d;
  ro_quiet : barred i -> NotifiedOpen i = false /\ NotifyOpenFailed i = false /\ EscalationLevel i = 0%nat }.

Record calm (d : D) : Prop := {
  calm_rows : forall k i, rows d !! k = Some i -> row_ok d k i;
  calm_one : forall k k' i i', rows d !! k = Some i -> rows d !! k' = Some i' ->
    is_open i = true -> is_open i' = true -> Inc_MonitorID i = Inc_MonitorID i' -> k = k';
  calm_downs : forall id, id ∈ downs (get d) -> clear id d;
  calm_recoveries : forall id, id ∈ recoveries (get d) -> closed id d }.

(** How a row may change. *)
Definition row_moves (i i' : Incident) : Prop :=
  Inc_ID i' = Inc_ID i /\ Inc_MonitorID i' = Inc_MonitorID i /\ InMaintenance i' = InMaintenance i /\
  (NotifiedOpen i = true -> NotifiedOpen i' = true) /\ (is_Some (ResolvedAt i) -> is_Some (ResolvedAt i')).

(** How the table may change: rows are added under new identifiers, changed,
    deleted, never put back. *)
Definition evolves (d d' : D) : Prop :=
  next d <= next d' /\
  forall k i', k < next d -> rows d' !! k = Some i' -> exists i, rows d !! k = Some i /\ row_moves i i'.

#[export] Instance evolves_preorder : PreOrder evolves.
Proof.
  split.
  - intros d. split; [done|]. intros k i' _ Hi. exists i'. by split.
  - intros d1 d2 d3 [Hn1 He1] [Hn2 He2]. split; [lia|]. intros k i3 Hk Hi3.
    destruct (He2 k i3 ltac:(lia) Hi3) as (i2 & Hi2 & ? & ? & ? & ? & ?).
    destruct (He1 k i2 Hk Hi2) as (i1 & Hi1 & ? & ? & ? & ? & ?).
    exists i1. split; [done|]. split_and!; eauto; congruence.
Qed.

Abbreviation stablec := (stable calm evolves).
Abbreviation rgc := (rg calm evolves).
Abbreviation Keepsc := (Keeps calm evolves).

Lemma barred_moves i i' : row_moves i i' -> barred i' <-> barred i.
Proof. intros (_ & Hm & Hb & _). unfold barred. by rewrite Hm, Hb. Qed.

Lemma clear_evolves id d d' : evolves d d' -> clear id d -> clear id d'.
Proof.
  intros [Hn Hrows] [Hid Hclear]. split; [lia|]. intros i' Hi'.
  destruct (Hrows id i' Hid Hi') as (i & Hi & Hmv). rewrite (barred_moves _ _ Hmv). by apply Hclear.
Qed.

Lemma clear_stable id : stablec (clear id).
Proof. intros d d' _ _. apply clear_evolves. Qed.

Lemma closed_evolves id d d' : evolves d d' -> closed id d -> closed id d'.
Proof.
  intros [Hn Hrows] [Hid Hclosed]. split; [lia|]. intros i' Hi'.
  destruct (Hrows id i' Hid Hi') as (i & Hi & Hmv). rewrite (barred_moves _ _ Hmv).
  destruct (Hclosed i Hi) as (? & ? & ?). destruct Hmv as (_ & _ & _ & ? & ?). auto.
Qed.

Lemma closed_stable id : stablec (closed id).
Proof. intros d d' _ _. apply closed_evolves. Qed.

Lemma closed_clear id d : closed id d -> clear id d.
Proof. intros [? Hc]. split; [done|]. intros i Hi. by destruct (Hc i Hi). Qed.
#[local] Hint Resolve clear_stable closed_stable stable_true stable_and stable_pure : core.

(** ** Moves that change nothing of this *)

Definition core (i : Incident) :=
  (Inc_ID i, Inc_MonitorID i, InMaintenance i, NotifiedOpen i, NotifyOpenFailed i, EscalationLevel i, ResolvedAt i).

(** Rows are deleted, or change only outside [core]. *)
Definition quiet_move (d d' : D) : Prop :=
  next d' = next d /\ get (T := UpLog) d' = get d /\
  forall k i', rows d' !! k = Some i' -> exists i, rows d !! k = Some i /\ core i' = core i.

Lemma core_moves i i' : core i' = core i -> row_moves i i'.
Proof. unfold core, row_moves. intros [= -> -> -> -> _ _ ->]. auto. Qed.

Lemma core_inv i i' : core i' = core i ->
  Inc_MonitorID i' = Inc_MonitorID i /\ NotifiedOpen i' = NotifiedOpen i /\ NotifyOpenFailed i' = NotifyOpenFailed i /\
  EscalationLevel i' = EscalationLevel i /\ ResolvedAt i' = ResolvedAt i.
Proof. unfold core. intros [= _ -> _ -> -> -> ->]. done. Qed.

Lemma quiet_ok d d' : calm d -> quiet_move d d' -> calm d' /\ evolves d d'.
Proof.
  intros [Hr Ho Hd Hrec] (Hn & Hlog & Hrows).
  assert (evolves d d') as Hev.
  { split; [lia|]. intros k i' _ Hi'. destruct (Hrows k i' Hi') as (i & ? & ?). eauto using core_moves. }
  split; [|done]. constructor.
  - intros k i' Hi'. destruct (Hrows k i' Hi') as (i & Hi & Hcore). destruct (Hr k i Hi) as [? ? Hq].
    pose proof (core_moves _ _ Hcore) as Hmv. constructor; [destruct Hmv; congruence|lia|].
    rewrite (barred_moves _ _ Hmv). intros (? & ? & ?)%Hq.
    apply core_inv in Hcore as (_ & -> & -> & -> & _). done.
  - intros k k' i i' (j & Hj & Hcj)%Hrows (j' & Hj' & Hcj')%Hrows. unfold is_open.
    apply core_inv in Hcj as (-> & _ & _ & _ & ->), Hcj' as (-> & _ & _ & _ & ->). by eapply Ho.
  - rewrite Hlog. intros id (? & Hc)%Hd. split; [lia|]. intros i' (i & Hi & Hcore)%Hrows.
    rewrite (barred_moves _ _ (core_moves _ _ Hcore)). auto.
  - rewrite Hlog. intros id (? & Hc)%Hrec. split; [lia|]. intros i' (i & Hi & Hcore)%Hrows.
    rewrite (barred_moves _ _ (core_moves _ _ Hcore)). destruct (Hc i Hi) as (? & ? & ?).
    apply core_inv in Hcore as (_ & -> & _ & _ & ->). done.
Qed.

Lemma keeps_quiet {A} (p : prog D A) : moves quiet_move p -> Keepsc p.
Proof. intros Hp. apply (keeps_moves calm evolves quiet_move); [done|apply quiet_ok]. Qed.

Lemma quiet_same d d' : get (T := IncTables) d' = get d -> get (T := UpLog) d' = get d -> quiet_move d d'.
Proof. intros Hi Hl. split; [by rewrite Hi|]. split; [done|]. intros k i' Hi'. exists i'. by rewrite Hi in Hi'. Qed.

(** Statements on other tables. *)
Lemma other_on {T A} `{Has T D} `{!Apart T IncTables D, !Apart T UpLog D} (q : T -> A * T) d : quiet_move d (on q d).2.
Proof. unfold on. destruct (q (get d)). simpl. apply quiet_same; apply get_put_apart. Qed.

Lemma keeps_on {T A E} `{Has T D} `{!Apart T IncTables D, !Apart T UpLog D} (e : E) (q : T -> A * T) :
  Keepsc (call e (on q)).
Proof. apply (keeps_call calm evolves). intros d Hd. by apply quiet_ok, other_on. Qed.

(** ** Statements on incidents *)

(** The flags of a row change only when the row is not barred, or already
    escalated. *)
Definition row_change (i i' : Incident) : Prop :=
  row_moves i i' /\
  (NotifiedOpen i' = NotifiedOpen i /\ NotifyOpenFailed i' = NotifyOpenFailed i /\ EscalationLevel i' = EscalationLevel i
   \/ ~ barred i \/ EscalationLevel i <> 0%nat).

Lemma update_calm p f d :
  calm d -> (forall k i, rows d !! k = Some i -> p i = true -> row_change i (f i)) ->
  calm (on (update_where p f) d).2 /\ evolves d (on (update_where p f) d).2.
Proof.
  intros [Hr Ho Hd Hrec] Hf. set (d' := (on (update_where p f) d).2).
  assert (get (T := IncTables) d' = (update_where p f (get d)).2) as Hget by apply get_on.
  assert (get (T := UpLog) d' = get d) as Hlog by (unfold d', on; simpl; apply get_put_apart).
  assert (next d' = next d) as Hn by (by rewrite Hget).
  assert (forall k i', rows d' !! k = Some i' -> exists i, rows d !! k = Some i /\ row_moves i i' /\
    (barred i -> NotifiedOpen i' = NotifiedOpen i /\ NotifyOpenFailed i' = NotifyOpenFailed i /\ EscalationLevel i' = EscalationLevel i)) as Hrows.
  { intros k i'. rewrite Hget. simpl. rewrite lookup_fmap. destruct (rows d !! k) as [i|] eqn:Hi; [|done].
    simpl. intros [= <-]. exists i. split; [done|]. destruct (p i) eqn:Hp; [|by split].
    destruct (Hf k i Hi Hp) as (Hmv & Hch). split; [done|]. intros Hb.
    destruct Hch as [?|Hno]; [done|]. destruct (Hr k i Hi) as [_ _ Hq]. naive_solver. }
  assert (evolves d d') as Hev.
  { split; [lia|]. intros k i' _ Hi'. destruct (Hrows k i' Hi') as (i & ? & ? & _). eauto. }
  split; [|done]. constructor.
  - intros k i' Hi'. destruct (Hrows k i' Hi') as (i & Hi & Hmv & Hsame). destruct (Hr k i Hi) as [? ? Hq].
    constructor; [destruct Hmv; congruence|lia|]. rewrite (barred_moves _ _ Hmv). intros Hb.
    destruct (Hq Hb) as (? & ? & ?), (Hsame Hb) as (-> & -> & ->). done.
  - intros k k' i i' (j & Hj & Hmj & _)%Hrows (j' & Hj' & Hmj' & _)%Hrows.
    assert (forall a b, row_moves a b -> is_open b = true -> is_open a = true) as Hopen.
    { intros a b (_ & _ & _ & _ & Hres). unfold is_open, is_nil. rewrite !negb_true_iff, !bool_decide_eq_false. tauto. }
    intros ?%(Hopen _ _ Hmj) ?%(Hopen _ _ Hmj') Heq. destruct Hmj as (_ & Hm & _), Hmj' as (_ & Hm' & _).
    eapply Ho; eauto. congruence.
  - rewrite Hlog. intros id Hid%Hd. by eapply clear_evolves.
  - rewrite Hlog. intros id Hid%Hrec. by eapply closed_evolves.
Qed.

Lemma open_insert_calm mid cause regions inMaint d :
  calm d ->
  calm (on (open_insert mid cause regions inMaint) d).2 /\ evolves d (on (open_insert mid cause regions inMaint) d).2 /\
  forall inc, (on (open_insert mid cause regions inMaint) d).1 = Some inc -> inMaint = false -> ~ held mid ->
    clear (Inc_ID inc) (on (open_insert mid cause regions inMaint) d).2.
Proof.
  intros [Hr Ho Hd Hrec]. set (d' := (on (open_insert mid cause regions inMaint) d).2).
  set (row := new_incident (next d) mid cause regions inMaint (inc_now (get d))).
  assert (get (T := IncTables) d' = (open_insert mid cause regions inMaint (get d)).2) as Hget by apply get_on.
  assert (get (T := UpLog) d' = get d) as Hlog by (unfold d', on; destruct (open_insert _ _ _ _ _); simpl; apply get_put_apart).
  assert (next d' = next d + 1) as Hn by (rewrite Hget; unfold open_insert; by destruct (select _ _)).
  assert (forall k i, rows d' !! k = Some i -> rows d !! k = Some i \/
    k = next d /\ i = row /\ forall k' i', rows d !! k' = Some i' -> open_for mid i' = false) as Hrows.
  { intros k i. rewrite Hget. unfold open_insert. destruct (select (open_for mid) _) as [|x xs] eqn:Hs; simpl; [|by left].
    intros [[<- <-]|[_ Hk]]%lookup_insert_Some; [right|by left]. split_and!; [done..|]. intros k' i' Hi'.
    apply not_true_iff_false. intros Hp.
    assert (i' ∈ select (open_for mid) (get d)) as Hin; [|rewrite Hs in Hin; by apply elem_of_nil in Hin].
    unfold select. rewrite merge_sort_Permutation, list_elem_of_In, filter_In, <- list_elem_of_In, list_elem_of_fmap.
    split; [|done]. exists (k', i'). by rewrite elem_of_map_to_list. }
  assert (evolves d d') as Hev.
  { split; [lia|]. intros k i' Hk [Hi'|(-> & _)]%Hrows; [|lia]. exists i'. by split. }
  split; [constructor|split; [done|]].
  - intros k i [Hi|(-> & -> & _)]%Hrows; [|by constructor; simpl; [done|lia|]].
    destruct (Hr k i Hi). constructor; [done|lia|done].
  - intros k k' i i' [Hi|(-> & -> & Hno)]%Hrows [Hi'|(-> & -> & Hno')]%Hrows Hop Hop' Heq; try done.
    + by eapply Ho.
    + specialize (Hno' _ _ Hi). unfold open_for in Hno'. rewrite Hop, Heq in Hno'. simpl in Hno'. by rewrite Z.eqb_refl in Hno'.
    + specialize (Hno _ _ Hi'). unfold open_for in Hno. rewrite Hop', <- Heq in Hno. simpl in Hno. by rewrite Z.eqb_refl in Hno.
  - rewrite Hlog. intros id Hid%Hd. by eapply clear_evolves.
  - rewrite Hlog. intros id Hid%Hrec. by eapply closed_evolves.
  - intros inc. rewrite on_val. unfold open_insert at 1. destruct (select _ _) as [|x xs] eqn:Hs; [|done].
    intros [= <-] -> Hheld. simpl. split; [lia|]. intros i [Hi|(_ & -> & _)]%Hrows.
    + destruct (Hr _ _ Hi). lia.
    + intros [?|?]; done.
Qed.

(** ** Operations *)

(** An update, whatever its predicate reads of the table. *)
Lemma rg_update_call {E} (S : D -> Prop) (e : E) (q : IncTables -> list Incident * IncTables) :
  stablec S ->
  (forall d, calm d -> S d -> exists p f, q (get d) = update_where p f (get d) /\
     forall k i, rows d !! k = Some i -> p i = true -> row_change i (f i)) ->
  rgc S (call e (on q)) (fun _ d => S d).
Proof.
  intros HS Hq. eapply (rg_mono calm evolves); [apply (rg_call calm evolves S _ _ (fun _ _ => True)); [done|done|]|].
  - intros d HP Hd. destruct (Hq d HP Hd) as (p & f & Heq & Hf).
    assert (on q d = on (update_where p f) d) as -> by (unfold on; by rewrite Heq).
    destruct (update_calm p f d HP Hf). done.
  - by intros r d _ [? _].
Qed.

Lemma rg_update (S : D -> Prop) p f :
  stablec S ->
  (forall d k i, calm d -> S d -> rows d !! k = Some i -> p i = true -> row_change i (f (inc_now (get d)) i)) ->
  rgc S (update p f) (fun _ d => S d).
Proof. intros HS Hf. apply rg_update_call; [done|]. intros d HP Hd. eexists _, _. split; [done|]. intros k i. by apply Hf. Qed.

Lemma rg_update_one (S : D -> Prop) id f :
  stablec S ->
  (forall d k i, calm d -> S d -> rows d !! k = Some i -> Inc_ID i = id -> row_change i (f i)) ->
  rgc S (update_one id f) (fun _ d => S d).
Proof.
  intros HS Hf. eapply (rg_bind calm evolves); [apply rg_update; [done|]|].
  - intros d k i HP Hd Hi Hid%Z.eqb_eq. by eapply Hf.
  - intros [[|x l]|e]; by intros d.
Qed.

Ltac benign := intros; split; [by split_and!|by left].

#[export] Instance keeps_SetNotifyOpenChannels id chs : Keepsc (SetNotifyOpenChannels id chs).
Proof. intros S HS. apply rg_update_one; [done|benign]. Qed.
#[export] Instance keeps_ClearNotifyOpenChannels id : Keepsc (ClearNotifyOpenChannels id).
Proof. intros S HS. apply rg_update_one; [done|benign]. Qed.
#[export] Instance keeps_MarkSuppressedByDep id : Keepsc (MarkSuppressedByDep id).
Proof. intros S HS. apply rg_update_one; [done|benign]. Qed.
#[export] Instance keeps_MarkNotified_close id : Keepsc (MarkNotified id false).
Proof. intros S HS. apply rg_update_one; [done|benign]. Qed.
#[export] Instance keeps_ClearSuppressedByDep id : Keepsc (ClearSuppressedByDep id).
Proof.
  intros S HS. eapply (rg_bind calm evolves); [apply rg_update; [done|benign]|]. by intros [] d.
Qed.
#[export] Instance keeps_ClearSuppressed id : Keepsc (ClearSuppressed id).
Proof. unfold ClearSuppressed. apply _. Qed.

#[export] Instance keeps_Acknowledge id pid uid : Keepsc (Acknowledge id pid uid).
Proof.
  unfold Acknowledge. apply (keeps_bind calm evolves); [|intros []; apply _]. apply (keeps_call calm evolves). intros d Hd.
  set (p := fun i => _ && _ && _ && _).
  apply (update_calm p (fun i => i <| AcknowledgedAt := Some (inc_now (get d)) |> <| AcknowledgedBy := Some uid |>) d); [done|benign].
Qed.

#[export] Instance keeps_BumpEscalation id from : Keepsc (BumpEscalation id (Datatypes.S from)).
Proof.
  unfold BumpEscalation. apply (keeps_bind calm evolves); [|intros; apply _].
  intros S HS. apply rg_update_call; [done|]. intros d HP Hd. eexists _, _. split; [done|].
  intros k i _ [_ Hl%Nat.eqb_eq]%andb_true_iff. split; [by split_and!|right; right; lia].
Qed.

#[export] Instance keeps_ClaimReminder id n : Keepsc (ClaimReminder id n).
Proof.
  unfold ClaimReminder. apply (keeps_bind calm evolves); [|intros []; apply _].
  intros S HS. apply rg_update_call; [done|]. intros d HP Hd. eexists _, _. split; [done|benign].
Qed.

(** Flags that only an incident that may be announced gets. *)
Lemma rg_flag (S : D -> Prop) id f :
  stablec S -> (forall d, S d -> clear id d) -> (forall i, row_moves i (f i)) ->
  rgc S (update_one id f) (fun _ d => S d).
Proof.
  intros HS Hc Hf. apply rg_update_one; [done|]. intros d k i HP Hd Hi Hid. split; [done|]. right; left.
  destruct (Hc d Hd) as [_ Hclear]. apply Hclear. rewrite <- Hid. by rewrite (ro_id _ _ _ (calm_rows d HP k i Hi)).
Qed.

Lemma rg_MarkNotifyOpenFailed (S : D -> Prop) id :
  stablec S -> (forall d, S d -> clear id d) -> rgc S (MarkNotifyOpenFailed id) (fun _ d => S d).
Proof. intros HS Hc. apply rg_flag; [done|done|]. by intros i; split_and!. Qed.

Lemma rg_MarkNotified (S : D -> Prop) id :
  stablec S -> (forall d, S d -> clear id d) -> rgc S (MarkNotified id true) (fun _ d => S d).
Proof. intros HS Hc. apply rg_flag; [done|done|]. by intros i; split_and!. Qed.

(** What a row read tells. *)
Definition read_fact (inc : Incident) (d : D) : Prop :=
  (NotifyOpenFailed inc = true -> clear (Inc_ID inc) d) /\
  (InMaintenance inc = false -> ~ held (Inc_MonitorID inc) -> clear (Inc_ID inc) d).

Lemma read_fact_stable inc : stablec (read_fact inc).
Proof. intros d d' HP HP' HR [Hf Hm]. split; intros; eapply clear_evolves; eauto. Qed.

Lemma elem_of_incidents p (t : IncTables) i : i ∈ select p t <-> p i = true /\ exists k, incidents t !! k = Some i.
Proof.
  unfold select. rewrite merge_sort_Permutation, list_elem_of_In, filter_In, <- list_elem_of_In, list_elem_of_fmap.
  split.
  - intros [([k i'] & -> & Hin) ?]. split; [done|]. exists k. by apply elem_of_map_to_list in Hin.
  - intros [? [k Hk]]. split; [|done]. exists (k, i). by rewrite elem_of_map_to_list.
Qed.

Lemma read_fact_row d k i : calm d -> rows d !! k = Some i -> read_fact i d.
Proof.
  intros HP Hi. destruct (calm_rows d HP k i Hi) as [Hid Hlt Hq].
  assert (~ barred i -> clear (Inc_ID i) d) as Hc.
  { intros Hb. split; [lia|]. intros i'. rewrite Hid, Hi. by intros [= <-]. }
  split.
  - intros Hf. apply Hc. intros (_ & Hf' & _)%Hq. congruence.
  - intros Hm Hh. apply Hc. by intros [?|?]; [congruence|].
Qed.

Lemma rg_OpenIncidentFor (S : D -> Prop) mid :
  stablec S ->
  rgc S (OpenIncidentFor mid) (fun r d => S d /\ match r with
    | Ok (Some inc) => read_fact inc d /\ Inc_MonitorID inc = mid | _ => True end).
Proof.
  intros HS. eapply (rg_mono calm evolves).
  - apply (rg_ask calm evolves S _ _ (fun (r : option Incident) d => match r with
      | Some inc => read_fact inc d /\ Inc_MonitorID inc = mid | None => True end)); [done| |].
    + intros [inc|]; [|done]. apply stable_and; [apply read_fact_stable|apply stable_pure].
    + intros d HP _. destruct (head _) as [inc|] eqn:Hh; [|done].
      assert (inc ∈ select (open_for mid) (get d)) as Hin by (destruct (select _ _); [done|]; injection Hh as ->; by left).
      apply elem_of_incidents in Hin as [Hp (k & Hk)]. split; [by eapply read_fact_row|].
      unfold open_for in Hp. apply andb_true_iff in Hp as [Hm _]. by apply Z.eqb_eq.
  - by intros [[inc|]|e] d _ ?.
Qed.

Lemma rg_OpenIncident (S : D -> Prop) mid cause regions inMaint :
  stablec S ->
  rgc S (OpenIncident mid cause regions inMaint) (fun r d => S d /\ match r with
    | Ok (inc, true) => inMaint = false -> ~ held mid -> clear (Inc_ID inc) d | _ => True end).
Proof.
  intros HS. unfold OpenIncident. eapply (rg_bind calm evolves).
  - apply (rg_call calm evolves S _ _ (fun (r : option Incident) d => match r with
      | Some inc => inMaint = false -> ~ held mid -> clear (Inc_ID inc) d | None => True end)); [done| |].
    + intros [inc|]; [|done]. intros d d' ? ? ? Hc ? ?. eapply clear_evolves; eauto.
    + intros d HP _. destruct (open_insert_calm mid cause regions inMaint d HP) as (? & ? & Hc). split_and!; [done..|].
      destruct (on _ d).1 as [inc|] eqn:Hr; [|done]. intros ? ?. by eapply Hc.
  - intros [[inc|]|e]; [by intros d|  |by intros d ? [? _]].
    eapply (rg_bind calm evolves); [eapply (rg_weaken calm evolves S); [by intros d _ [? _]|by apply rg_OpenIncidentFor]|].
    by intros [[inc|]|e] d _ [? _].
Qed.

Lemma rg_ResolveIncident (S : D -> Prop) mid at_ :
  stablec S ->
  rgc S (ResolveIncident mid at_) (fun r d => S d /\ match r with
    | Ok (Some inc) => InMaintenance inc = false -> NotifiedOpen inc = true -> closed (Inc_ID inc) d | _ => True end).
Proof.
  intros HS. unfold ResolveIncident, update. eapply (rg_bind calm evolves).
  - apply (rg_call calm evolves S _ _ (fun (l : list Incident) d => match head l with
      | Some inc => InMaintenance inc = false -> NotifiedOpen inc = true -> closed (Inc_ID inc) d | None => True end)); [done| |].
    + intros l. destruct (head l); [|done]. intros d d' ? ? ? Hc ? ?. eapply closed_evolves; eauto.
    + intros d HP _. set (f := fun i => i <| ResolvedAt := Some at_ |>).
      destruct (update_calm (open_for mid) f d HP) as [HP' Hev]; [intros; split; [by split_and!|by left]|].
      split_and!; [done..|]. fold f. rewrite on_val. unfold update_where at 1. cbn [fst].
      destruct (select _ _) as [|i l] eqn:Hs; [done|]. cbn [map head]. intros _ Hn.
      assert (i ∈ select (open_for mid) (get d)) as Hin by (rewrite Hs; by left).
      apply elem_of_incidents in Hin as [Hp (k & Hk)]. destruct (calm_rows d HP k i Hk) as [Hid Hlt Hq].
      assert (rows (on (update_where (open_for mid) f) d).2 !! k = Some (f i)) as Hk'.
      { rewrite get_on. simpl. rewrite lookup_fmap, Hk. simpl. by rewrite Hp. }
      destruct (calm_rows _ HP' k (f i) Hk') as [_ Hlt' Hq'].
      assert (Inc_ID (f i) = k) as -> by exact Hid. split; [done|]. intros i' Hi'.
      change (rows (on (update_where (open_for mid) f) d).2 !! k = Some i') in Hi'. rewrite Hk' in Hi'. injection Hi' as <-.
      split_and!; [|done|by eexists]. intros (Hf & _)%Hq'. congruence.
  - intros [[|inc l]|e] d HP [Hd Hc]; by split.
Qed.

(** ** What the interfaces promise *)

Definition same_incidents (d d' : D) : Prop := get (T := IncTables) d' = get d.

(** One more announcement, or recovery, of [id] at most. *)
Definition announce (id : Z) (d d' : D) : Prop :=
  same_incidents d d' /\ recoveries (get d') = recoveries (get d) /\
  (downs (get d') = downs (get d) \/ downs (get d') = id :: downs (get d)).
Definition announce_recovery (id : Z) (d d' : D) : Prop :=
  same_incidents d d' /\ downs (get d') = downs (get d) /\
  (recoveries (get d') = recoveries (get d) \/ recoveries (get d') = id :: recoveries (get d)).

Class NotifierLaw (n : Notifier D) : Prop := {
  law_channels : forall ev, moves quiet_move (OpenStep0Channels n ev);
  law_step0 : forall ev chs, moves (announce (Inc_ID (Ev_Incident ev))) (NotifyOpenStep0 n ev chs);
  law_recovery : forall id chs, moves (announce_recovery id) (NotifyRecovery n id chs) }.

Class DepLaw (dep : depChecker D) : Prop := {
  law_has_parent : forall k id, moves quiet_move (HasParent dep k id);
  law_parent_down : forall k id, moves quiet_move (ParentDown dep k id);
  law_down_root : forall k id, moves quiet_move (DownRoot dep k id) }.

Class GroupLaw (g : groupHook D) : Prop := {
  law_attach : forall src id k n, moves quiet_move (Attach g src id k n);
  law_opened : forall src id k n p, moves quiet_move (OnRootOpened g src id k n p);
  law_closed : forall src id, moves quiet_move (OnRootClosed g src id);
  law_root : forall k id, moves quiet_move (RootIncident g k id) }.

(** The checker answers, and says that the parent of [m] is down. *)
Definition says_down (dep : depChecker D) (m : Z) : Prop :=
  always (fun _ => True) (HasParent dep "monitor" m) (fun r => r = Ok true) /\
  always (fun _ => True) (ParentDown dep "monitor" m) (fun r => r = Ok true).

Class DetectorLaw (d : Detector D) : Prop := {
  law_notifier : match Det_Notifier d with Some n => NotifierLaw n | None => True end;
  law_dep : match Dep d with
    | Some dep => DepLaw dep /\ forall m, held m -> says_down dep m
    | None => forall m, ~ held m end;
  law_groups : match IncidentGroups d with Some g => GroupLaw g | None => True end;
  law_in_maintenance : forall p now, moves quiet_move (Svc_InMaintenance d p now) }.

Lemma announce_ok id d d' : calm d -> clear id d -> announce id d d' -> calm d' /\ evolves d d'.
Proof.
  intros [Hr Ho Hd Hrec] Hc (Hsame & Hrs & Hds). unfold same_incidents in Hsame.
  assert (evolves d d') as Hev by (split; rewrite Hsame; [done|]; intros k i' _ Hi'; exists i'; by split).
  split; [|done]. constructor.
  - rewrite Hsame. intros k i Hi. destruct (Hr k i Hi). constructor; [done|by rewrite Hsame|done].
  - by rewrite Hsame.
  - destruct Hds as [-> | ->].
    + intros id' Hid%Hd. by eapply clear_evolves.
    + intros id' [->|Hid%Hd]%elem_of_cons; by eapply clear_evolves.
  - rewrite Hrs. intros id' Hid%Hrec. by eapply closed_evolves.
Qed.

Lemma announce_recovery_ok id d d' : calm d -> closed id d -> announce_recovery id d d' -> calm d' /\ evolves d d'.
Proof.
  intros [Hr Ho Hd Hrec] Hc (Hsame & Hds & Hrs). unfold same_incidents in Hsame.
  assert (evolves d d') as Hev by (split; rewrite Hsame; [done|]; intros k i' _ Hi'; exists i'; by split).
  split; [|done]. constructor.
  - rewrite Hsame. intros k i Hi. destruct (Hr k i Hi). constructor; [done|by rewrite Hsame|done].
  - by rewrite Hsame.
  - rewrite Hds. intros id' Hid%Hd. by eapply clear_evolves.
  - destruct Hrs as [-> | ->].
    + intros id' Hid%Hrec. by eapply closed_evolves.
    + intros id' [->|Hid%Hrec]%elem_of_cons; by eapply closed_evolves.
Qed.

(** ** The detector *)

#[export] Instance keeps_opt {A} (b : bool) (p q : prog D A) : Keepsc p -> Keepsc q -> Keepsc (if b then p else q).
Proof. by destruct b. Qed.

#[export] Instance keeps_States id : Keepsc (States id).
Proof. unfold States. apply _. Qed.

#[export] Instance keeps_SetSSLExpiry id e : Keepsc (SetSSLExpiry id e).
Proof.
  unfold SetSSLExpiry. apply (keeps_bind calm evolves); [apply keeps_on|]. intros [[]|]; apply _.
Qed.

#[export] Instance keeps_claim id chs lease : Keepsc (ClaimStepChannelsWithLease "uptime" id 0 chs lease).
Proof.
  unfold ClaimStepChannelsWithLease. case_decide; [apply _|]. apply (keeps_callE calm evolves).
  intros d Hd. by apply quiet_ok, other_on.
Qed.

#[export] Instance keeps_release id chs : Keepsc (ReleaseStepChannels "uptime" id 0 chs).
Proof. unfold ReleaseStepChannels. case_decide; [apply _|]. apply keeps_on. Qed.

#[export] Instance keeps_log id chs : Keepsc (LogStepChannels "uptime" id 0 chs).
Proof.
  assert (forall chs, Keepsc (log_all "uptime" id 0 chs)) as Hall.
  { intros l. induction l as [|ch l IH]; cbn [log_all]; [apply _|]. apply (keeps_bind calm evolves); [apply keeps_on|].
    intros e. apply (keeps_bind calm evolves); [done|]. intros; apply _. }
  unfold LogStepChannels, clearLogFailure, recordLogFailure. apply (keeps_bind calm evolves); [done|]. intros es. case_decide.
  - apply (keeps_bind calm evolves); [apply keeps_on|]. intros; apply _.
  - apply (keeps_bind calm evolves); [apply keeps_on|]. intros [n|e]; [|apply _]. case_match; [apply _|].
    apply (keeps_bind calm evolves); [apply keeps_on|]. intros; apply _.
Qed.

#[export] Instance keeps_retryStepZeroLog d inc : Keepsc (retryStepZeroLog d inc).
Proof.
  unfold retryStepZeroLog. case_match; [apply _|]. apply (keeps_bind calm evolves); [apply _|].
  intros [[] err]; [|apply _]. apply (keeps_bind calm evolves); intros; apply _.
Qed.

#[export] Instance keeps_recovery_channels id : Keepsc (RecoveryChannels "uptime" id).
Proof. unfold RecoveryChannels. apply _. Qed.

#[export] Instance keeps_settle_claims d id won enq : Keepsc (settle_claims d id won enq).
Proof.
  unfold settle_claims. destruct (Pool d); [|apply _]. apply (keeps_bind calm evolves).
  - case_decide; [apply _|]. apply (keeps_bind calm evolves); intros; apply _.
  - intros _. case_decide; [apply _|]. apply (keeps_bind calm evolves); intros; apply _.
Qed.

Lemma rg_mark_failed (S : D -> Prop) id :
  stablec S -> (forall d, S d -> clear id d) -> rgc S (mark_failed id) (fun _ d => S d).
Proof. intros HS Hc. eapply (rg_bind calm evolves); [by apply rg_MarkNotifyOpenFailed|]. intros a. by intros d. Qed.

Lemma rg_notifyOpen d n id ev :
  NotifierLaw n -> Inc_ID (Ev_Incident ev) = id -> rgc (clear id) (notifyOpen d n id ev) (fun _ _ => True).
Proof.
  intros Hn Hid. pose proof (clear_stable id) as HS. unfold notifyOpen.
  assert (rgc (clear id) (mark_failed id) (fun _ _ => True)) as Hfail
    by (eapply (rg_mono calm evolves); [by apply rg_mark_failed|done]).
  eapply (rg_seq calm evolves); [done|apply keeps_quiet, law_channels|]. intros [chs|e]; [|done].
  eapply (rg_bind calm evolves _ _ _ (fun _ d => clear id d)).
  { unfold claim_open. case_match; [|by intros d']. eapply (rg_seq calm evolves); [done|apply _|]. intros [won|e]; [by intros d'|].
    eapply (rg_bind calm evolves); [by apply rg_mark_failed|]. intros a. by intros d'. }
  intros [won|]; [|by intros d']. eapply (rg_bind calm evolves _ _ _ (fun _ d => clear id d)).
  { apply (rg_moves calm evolves (announce id)); [done|rewrite <- Hid; apply law_step0|]. intros; by eapply announce_ok. }
  intros [enq [err|]].
  - eapply (rg_seq calm evolves); [done|apply _|]. done.
  - eapply (rg_seq calm evolves); [done|apply _|]. intros _. eapply (rg_bind calm evolves); [by apply rg_MarkNotified|].
    intros [a|e]; [by intros d'|done].
Qed.

Lemma rg_send_down d m inc states st :
  DetectorLaw d -> rgc (clear (Inc_ID inc)) (send_down d m inc states st) (fun _ _ => True).
Proof.
  intros Hd. pose proof law_notifier as Hn. unfold send_down. destruct (Det_Notifier d) as [n|]; [|by intros d'].
  by apply rg_notifyOpen.
Qed.

#[export] Instance keeps_report_root d m inc : DetectorLaw d -> Keepsc (report_root d m inc).
Proof.
  intros Hd. pose proof law_groups as Hg. pose proof law_dep as Hdep. unfold report_root.
  destruct (IncidentGroups d) as [g|]; [|apply _]. apply (keeps_bind calm evolves).
  - unfold group_root. destruct (Dep d) as [dep|]; [|apply _]. destruct Hdep as [Hdep _].
    apply (keeps_bind calm evolves); [apply keeps_quiet, law_down_root|]. intros [[[rk rid]|]|e]; [|apply _..].
    case_match; [|apply _]. apply (keeps_bind calm evolves); [apply keeps_quiet, law_root|].
    intros [[[[[src i] p] b]|]|e]; apply _.
  - intros [[[src i] k] n]. apply (keeps_bind calm evolves); [apply keeps_quiet, law_opened|]. intros; apply _.
Qed.

#[export] Instance keeps_Attach_opt d id m : DetectorLaw d ->
  Keepsc (match IncidentGroups d with
          | Some g => _ ← Attach g "uptime" id "monitor" m; mret tt
          | None => mret tt end).
Proof.
  intros Hd. pose proof law_groups as Hg. destruct (IncidentGroups d); [|apply _].
  apply (keeps_bind calm evolves); [apply keeps_quiet, law_attach|]. intros; apply _.
Qed.

#[export] Instance keeps_closed_opt d id : DetectorLaw d ->
  Keepsc (match IncidentGroups d with
          | Some g => _ ← OnRootClosed g "uptime" id; mret tt
          | None => mret tt end).
Proof.
  intros Hd. pose proof law_groups as Hg. destruct (IncidentGroups d); [|apply _].
  apply (keeps_bind calm evolves); [apply keeps_quiet, law_closed|]. intros; apply _.
Qed.

(** Asking the dependency checker about a monitor that may be held. *)
Lemma rg_says {A} (S : D -> Prop) (p : prog D (result up_error A)) (φ : Prop) (b : A) :
  stablec S -> moves quiet_move p -> (φ -> always (fun _ => True) p (fun r => r = Ok b)) ->
  rgc S p (fun r d => S d /\ (φ -> r = Ok b)).
Proof.
  intros HS Hp Ha. apply rg_always; [by apply keeps_quiet|]. by apply always_imp.
Qed.

Lemma rg_openIncident d m states st now :
  DetectorLaw d -> rgc (fun _ => True) (openIncident d m states st now) (fun _ _ => True).
Proof.
  intros Hd. pose proof law_notifier as Hn. pose proof law_dep as Hdep. unfold openIncident.
  eapply (rg_seq calm evolves); [done|apply keeps_quiet, law_in_maintenance|]. intros im.
  set (inMaint := match im with Ok b => b | Err _ => false end).
  eapply (rg_bind calm evolves); [by apply rg_OpenIncident|]. intros [[inc created]|e]; [|by intros d'].
  set (S := fun d' => created = true -> inMaint = false -> ~ held (ID m) -> clear (Inc_ID inc) d').
  assert (stablec S) as HS by (intros d1 d2 ? ? ? Hc ? ? ?; eapply clear_evolves; [done|by apply Hc]).
  eapply (rg_weaken calm evolves S); [by intros d' _ [_ Hc] ->|].
  eapply (rg_seq calm evolves); [done|apply _|]. intros _.
  destruct (Det_Notifier d) as [n|]; [|by intros d']. destruct (negb created || inMaint) eqn:Hgo; [by intros d'|].
  apply orb_false_iff in Hgo as [Hcr Hm]. apply negb_false_iff in Hcr.
  eapply (rg_bind calm evolves _ _ _ (fun (hp : bool) d' => S d' /\ (held (ID m) -> hp = true))).
  - destruct (Dep d) as [dep|]; [|intros d' _ ?; split; [done|by intros ?%Hdep]]. destruct Hdep as [Hdl Hheld].
    eapply (rg_bind calm evolves); [apply (rg_says S _ (held (ID m)) true); [done|apply law_has_parent|apply Hheld]|].
    intros [hp|e] d' _ [? Hr]; (split; [done|]); intros Hh; specialize (Hr Hh); congruence.
  - intros [|]; [by intros d'|]. eapply (rg_weaken calm evolves (clear (Inc_ID inc))).
    + intros d' _ [Hc Hh]. apply Hc; [done|done|]. by intros ?%Hh.
    + by apply rg_notifyOpen.
Qed.

Lemma rg_settleHeldIncident d m inc states st now :
  DetectorLaw d -> Inc_MonitorID inc = ID m ->
  rgc (read_fact inc) (settleHeldIncident d m inc states st now) (fun _ _ => True).
Proof.
  intros Hd Hm. pose proof law_dep as Hdep. unfold settleHeldIncident.
  destruct (NotifiedOpen inc).
  { eapply (rg_mono calm evolves); [apply (keeps_retryStepZeroLog d inc), read_fact_stable|done]. }
  destruct (NotifyOpenFailed inc) eqn:Hf.
  { destruct (maxNotifyOpenAttempts <=? NotifyOpenAttempts inc); [by intros d'|]. eapply (rg_weaken calm evolves); [|by apply rg_send_down]. intros d' _ [Hc _]. by apply Hc. }
  destruct (InMaintenance inc) eqn:Him; [by intros d'|].
  set (S := fun d' => ~ held (ID m) -> clear (Inc_ID inc) d').
  assert (stablec S) as HS by (intros d1 d2 ? ? ? Hc ?; eapply clear_evolves; [done|by apply Hc]).
  eapply (rg_weaken calm evolves S); [intros d' _ [_ Hc] Hh; apply Hc; [done|by rewrite Hm]|].
  destruct (Dep d) as [dep|].
  2:{ eapply (rg_weaken calm evolves); [|by apply rg_send_down]. intros d' _ Hc. by apply Hc. }
  destruct Hdep as [Hdl Hheld]. eapply (rg_seq calm evolves); [done| |].
  { unfold release_suppressed. destruct (SuppressedByDep inc); [|apply _].
    apply (keeps_bind calm evolves); [apply keeps_quiet, law_parent_down|]. intros [[]|e]; [apply _| |apply _].
    apply (keeps_bind calm evolves); [apply _|]. intros []; apply _. }
  intros [|]; [|by intros d']. cbn [negb].
  eapply (rg_bind calm evolves _ _ _ (fun (down : bool) d' => S d' /\ (held (ID m) -> down = true))).
  { eapply (rg_bind calm evolves); [apply (rg_says S _ (held (ID m)) true); [done|apply law_parent_down|apply Hheld]|].
    intros [hp|e] d' _ [? Hr]; (split; [done|]); intros Hh; specialize (Hr Hh); congruence. }
  intros [|].
  - eapply (rg_weaken calm evolves (fun _ => True)); [done|]. unfold suppress.
    eapply (rg_seq calm evolves); [done|apply _|]. intros [_|e]; [|by intros d'].
    eapply (rg_mono calm evolves); [by apply (keeps_Attach_opt d (Inc_ID inc) (ID m))|done].
  - case_match; [|by intros d']. eapply (rg_weaken calm evolves); [|by apply rg_send_down].
    intros d' _ [Hc Hh]. apply Hc. by intros ?%Hh.
Qed.

Lemma rg_resolveIncident d m now : DetectorLaw d -> rgc (fun _ => True) (resolveIncident d m now) (fun _ _ => True).
Proof.
  intros Hd. pose proof law_notifier as Hn. unfold resolveIncident.
  eapply (rg_bind calm evolves); [by apply rg_ResolveIncident|]. intros [[inc|]|e]; [|by intros d'..].
  set (S := fun d' => InMaintenance inc = false -> NotifiedOpen inc = true -> closed (Inc_ID inc) d').
  assert (stablec S) as HS by (intros d1 d2 ? ? ? Hc ? ?; eapply closed_evolves; [done|by apply Hc]).
  eapply (rg_weaken calm evolves S); [by intros d' _ [_ Hc]|].
  eapply (rg_seq calm evolves); [done|by apply keeps_closed_opt|]. intros _.
  destruct (Det_Notifier d) as [n|]; [|by intros d']. case_match eqn:Hgo; [by intros d'|].
  apply orb_false_iff in Hgo as [[Hm Ho]%orb_false_iff _]. apply negb_false_iff in Ho.
  eapply (rg_weaken calm evolves (closed (Inc_ID inc))); [by intros d' _ Hc; apply Hc|].
  pose proof (closed_stable (Inc_ID inc)) as HSc.
  eapply (rg_seq calm evolves); [done|apply _|]. intros _.
  eapply (rg_seq calm evolves); [done|apply _|]. intros [chs|e]; [|by intros d']. case_decide; [by intros d'|].
  eapply (rg_bind calm evolves _ _ _ (fun _ d => closed (Inc_ID inc) d)).
  { apply (rg_moves calm evolves (announce_recovery (Inc_ID inc))); [done|apply law_recovery|].
    intros; by eapply announce_recovery_ok. }
  intros [_|e]; [|by intros d']. eapply (rg_seq calm evolves); [done|apply _|]. intros _. by intros d'.
Qed.

Lemma rg_OnResult d m region r st : DetectorLaw d -> rgc (fun _ => True) (OnResult d m region r st) (fun _ _ => True).
Proof.
  intros Hd. unfold OnResult. eapply (rg_bind calm evolves _ _ _ (fun _ _ => True)).
  - unfold detectIncident. eapply (rg_seq calm evolves); [done|apply _|]. intros [states|e]; [|by intros d'].
    destruct (aggregate _ _ _) eqn:Hagg; [by intros d'| |].
    + eapply (rg_seq calm evolves); [done|apply _|]. intros [inc|e]; [|by intros d'].
      eapply (rg_seq calm evolves); [done|apply _|]. intros now.
      destruct inc; [by apply rg_resolveIncident|by intros d'].
    + eapply (rg_bind calm evolves); [by apply rg_OpenIncidentFor|]. intros [inc|e]; [|by intros d'].
      destruct inc as [inc|].
      * eapply (rg_weaken calm evolves (fun d' => read_fact inc d' /\ Inc_MonitorID inc = ID m)); [by intros d' _ [_ ?]|].
        eapply (rg_seq calm evolves); [apply stable_and; [apply read_fact_stable|apply stable_pure]|apply _|]. intros now.
        destruct (decide (Inc_MonitorID inc = ID m)) as [Hm|Hm].
        -- eapply (rg_weaken calm evolves); [|by apply rg_settleHeldIncident]. by intros d' _ [? _].
        -- eapply (rg_weaken calm evolves (fun _ => False)); [by intros d' _ [_ ?]|]. apply rg_absurd.
      * eapply (rg_weaken calm evolves (fun _ => True)); [done|]. eapply (rg_seq calm evolves); [done|apply _|]. intros now.
        by apply rg_openIncident.
  - intros _. unfold updateSSL. destruct (Result_SSLExpiresAt r); [|by intros d'].
    eapply (rg_seq calm evolves); [done|apply _|]. intros; by intros d'.
Qed.

(** ** Every interleaving *)

(** What the processes run: results of checks, operators, the scheduler. *)
Inductive uptime_program (dets : Detector D -> Prop) : prog D () -> Prop :=
| up_result d m region r st : dets d -> uptime_program dets (OnResult d m region r st)
| up_ack id projectID userID : uptime_program dets (_ ← Acknowledge id projectID userID; mret tt)
| up_bump id from : uptime_program dets (_ ← BumpEscalation id (Datatypes.S from); mret tt)
| up_clear id : uptime_program dets (_ ← ClearSuppressed id; mret tt)
| up_remind id every : uptime_program dets (_ ← ClaimReminder id every; mret tt).

Lemma uptime_program_safe dets p :
  (forall d, dets d -> DetectorLaw d) -> uptime_program dets p -> rgc (fun _ => True) p (fun _ _ => True).
Proof.
  intros Hd [d m region r st Hin|id pid uid|id from|id|id every]; [by apply rg_OnResult; auto|..];
    (eapply (rg_seq calm evolves); [done|apply _|]; intros a; by intros d').
Qed.

Lemma calm_unacked d ps p i :
  calm d -> (exec0 OpenUnacked d).1 = Ok ps -> p ∈ ps -> rows d !! Escalation.ID p = Some i -> ~ barred i.
Proof.
  intros HP. unfold OpenUnacked. rewrite exec0_ask. cbn [fst]. intros [= <-] Hin Hi Hb.
  apply list_elem_of_omap in Hin as (j & Hj & Hp). apply elem_of_incidents in Hj as [_ (k & Hk)].
  unfold joined in Hp. destruct (monitors _ !! _) as [m|]; [|done]. simpl in Hp. unfold unacked in Hp.
  destruct (_ && _) eqn:Hc in Hp; [|done]. injection Hp as <-. cbn [Escalation.ID] in Hi.
  destruct (calm_rows d HP k j Hk) as [Hid _ Hq]. rewrite Hid, Hk in Hi. injection Hi as ->.
  destruct (Hq Hb) as (_ & _ & Hl). apply andb_true_iff in Hc as [[_ Hlt]%andb_true_iff _]. rewrite Hl in Hlt. done.
Qed.
End safety.


(** ** An execution *)
Section example.
Abbreviation ExD := (EscTables * UpTables * IncTables * UpLog)%type.

#[local] Instance us_apart1 : Apart EscTables IncTables ExD.
Proof. by intros t [[[d1 d2] d3] d4]. Defined.
#[local] Instance us_apart2 : Apart EscTables UpLog ExD.
Proof. by intros t [[[d1 d2] d3] d4]. Defined.
#[local] Instance us_apart3 : Apart UpTables IncTables ExD.
Proof. by intros t [[[d1 d2] d3] d4]. Defined.
#[local] Instance us_apart4 : Apart UpTables UpLog ExD.
Proof. by intros t [[[d1 d2] d3] d4]. Defined.
#[local] Instance us_apart5 : Apart IncTables UpLog ExD.
Proof. by intros t [[[d1 d2] d3] d4]. Defined.

(** A notifier with one channel, which only keeps the log. *)
Definition ex_notifier : Notifier ExD :=
  mkNotifier _ (fun _ => mret (Ok tt)) (fun _ => mret (Ok [7]))
    (fun ev chs => _ ← pmodify (fun d => (d.1, mkUpLog (Inc_ID (Ev_Incident ev) :: downs d.2) (recoveries d.2)));
                   mret (chs, None))
    (fun id chs => _ ← pmodify (fun d => (d.1, mkUpLog (downs d.2) (id :: recoveries d.2)));
                   mret (Ok tt)).

Lemma ex_notifier_law (held : Z -> Prop) : NotifierLaw ex_notifier.
Proof.
  constructor.
  - done.
  - intros ev chs f d. split; [|done]. split_and!; [done|done|by right].
  - intros id chs f d. split; [|done]. split_and!; [done|done|by right].
Defined.

Definition ex_detector : Detector ExD :=
  mkDetector _ (Some ex_notifier) None None (5 * minute) true (fun d => inc_now d.1.2) (fun _ _ => mret (Ok false)).

Lemma ex_detector_law : DetectorLaw (fun _ => False) ex_detector.
Proof. constructor; [by apply (ex_notifier_law (fun _ => False))|by intros m []|done|done]. Defined.

Definition ex_start : ExD :=
  (mkEscTables ∅ ∅ 100, ex_up ConsensusMajority, mkIncTables ∅ 1 ∅ 100, mkUpLog [] []).

Definition ex_down : prog ExD () :=
  OnResult ex_detector (ex_monitor ConsensusMajority) "a" (mkResult false 0 "refused" 0 0 0 0 0 0 None) (ex_state "a").

End example.
