(* ===== verification/Maintenance.v ===== *)
(** Maintenance windows: [internal/uptime/maintenance.go].

    [windowActive] answers whether a window covers an instant and
    [WindowIntervals] lists what it covers of a range; both reckon in the time
    zone of the window.  A time zone is the function from UTC seconds to its
    offset, [time.Date], [Weekday], [Hour] and [AddDate] are those of Go's
    package time over it; the zone database behind [time.LoadLocation] is a
    parameter. *)
From stdpp Require Import base tactics list gmap strings sorting.
From Stdlib Require Import ZArith Lia.
From S2P Require Import Prelude.
From S2P Require Import Prog.

Open Scope Z_scope.
Open Scope go_scope.

(** ** Package time *)

(** Offset in seconds east of UTC at a UTC second. *)
Abbreviation Location := (Z -> Z).

Definition day_seconds : Z := 86400.
Definition unix (t : Z) : Z := t / second.
Definition local (loc : Location) (t : Z) : Z := unix t + loc (unix t).
(** Days since the epoch of the local date, and seconds into it. *)
Definition day_of (loc : Location) (t : Z) : Z := local loc t / day_seconds.
Definition clock_of (loc : Location) (t : Z) : Z := local loc t mod day_seconds.
Definition Hour (loc : Location) (t : Z) : Z := clock_of loc t / 3600.
Definition Minute (loc : Location) (t : Z) : Z := clock_of loc t mod 3600 / 60.
(** Day 0, 1 January 1970, was a Thursday; Sunday is 0. *)
Definition Weekday (loc : Location) (t : Z) : Z := (day_of loc t + 4) mod 7.

(** [time.Date]: the offset is looked up at the local reading taken for UTC,
    then again at the instant this gives. *)
Definition Date (loc : Location) (day sec nsec : Z) : Z :=
  let u := day * day_seconds + sec in
  let o := loc u in
  (if o =? 0 then u else u - loc (u - o)) * second + nsec.

Definition AddDate (loc : Location) (t days : Z) : Z :=
  Date loc (day_of loc t + days) (clock_of loc t) (t mod second).

(** ** Times of day *)

Definition is_digit (c : Ascii.ascii) : bool :=
  let n := Ascii.nat_of_ascii c in (48 <=? n)%nat && (n <=? 57)%nat.
Definition digit (c : Ascii.ascii) : Z := Z.of_nat (Ascii.nat_of_ascii c) - 48.

(** [getnum]: one or two digits; two when [fixed]. *)
Definition getnum (s : string) (fixed : bool) : option (Z * string) :=
  match s with
  | String a (String b rest) =>
      if negb (is_digit a) then None
      else if is_digit b then Some (digit a * 10 + digit b, rest)
      else if fixed then None else Some (digit a, String b rest)
  | String a EmptyString => if is_digit a && negb fixed then Some (digit a, EmptyString) else None
  | EmptyString => None
  end.

Definition colon : Ascii.ascii := Ascii.ascii_of_nat 58.

(** [time.Parse("15:04", s)] *)
Definition parseHHMM (s : string) : option (Z * Z) :=
  '(h, rest) ← getnum s false;
  match rest with
  | String c rest =>
      if negb (Ascii.eqb c colon) then None else
      '(m, rest) ← getnum rest true;
      if (h <? 24) && (m <? 60) && bool_decide (rest = "") then Some (h, m) else None
  | EmptyString => None
  end.

(** A [time] column, in microseconds. *)
Definition hhmmToPgTime (s : string) : option Z :=
  '(h, m) ← parseHHMM s; Some ((h * 60 + m) * 60000000).

Definition digit_char (n : Z) : Ascii.ascii := Ascii.ascii_of_nat (Z.to_nat (48 + n)).
(** [%02d], for what fits in two digits. *)
Definition two_digits (n : Z) : string := String (digit_char (n / 10)) (String (digit_char (n mod 10)) "").

Definition pgTimeToHHMM (micros : option Z) : string :=
  match micros with
  | None => ""
  | Some us => let total := us / 60000000 in (two_digits (total / 60) +:+ ":" +:+ two_digits (total mod 60))%string
  end.

(** ** Windows *)

Record Window := mkWindow {
  ID : Z; ProjectID : Z; Name : string; Weekly : bool;
  StartsAt : option Z; EndsAt : option Z;
  WindowWeekday : Z; StartTime : string; EndTime : string; Timezone : string }.

Record Interval := mkInterval { From : Z; To : Z }.

Inductive window_error :=
| ErrInvalidWindowName | ErrInvalidWindowTimezone | ErrInvalidWindowWeekday | ErrInvalidWindowStartTime
| ErrInvalidWindowEndTime | ErrInvalidWindowSameTime | ErrInvalidWindowRange
| ErrWindowNotFound | ErrWindowSQL | ErrOccurrence.

Section zones.
Context (LoadLocation : string -> option Location).

Definition validateWindow (w : Window) : result window_error () :=
  if decide (Name w = "") then Err ErrInvalidWindowName else
  match LoadLocation (Timezone w) with
  | None => Err ErrInvalidWindowTimezone
  | Some _ =>
      if Weekly w then
        if (WindowWeekday w <? 0) || (6 <? WindowWeekday w) then Err ErrInvalidWindowWeekday
        else if is_nil (parseHHMM (StartTime w)) then Err ErrInvalidWindowStartTime
        else if is_nil (parseHHMM (EndTime w)) then Err ErrInvalidWindowEndTime
        else if decide (StartTime w = EndTime w) then Err ErrInvalidWindowSameTime
        else Ok tt
      else
        match StartsAt w with
        | None => Err ErrInvalidWindowRange
        | Some s =>
            match EndsAt w with
            | Some e => if s <? e then Ok tt else Err ErrInvalidWindowRange
            | None => Ok tt
            end
        end
  end.

Definition windowDuration (w : Window) : Z :=
  match parseHHMM (StartTime w), parseHHMM (EndTime w) with
  | Some (sh, sm), Some (eh, em) =>
      let d := (eh - sh) * hour + (em - sm) * minute in
      if d <=? 0 then d + 24 * hour else d
  | _, _ => 0
  end.

Definition earliestOccurrence (loc : Location) (day h m : Z) : Z :=
  let t := Date loc day (h * 3600 + m * 60) 0 in
  let prev := t - hour in
  if (Hour loc prev =? Hour loc t) && (Minute loc prev =? Minute loc t) then prev else t.

(** Start and end of the occurrence that begins on a local day. *)
Definition windowOccurrence (w : Window) (loc : Location) (day : Z) : option (Z * Z) :=
  match parseHHMM (StartTime w) with
  | None => None
  | Some (sh, sm) =>
      let d := windowDuration w in
      if d <=? 0 then None else
      let start := earliestOccurrence loc day sh sm in
      Some (start, start + d)
  end.

(** The days tried are those of [at] and of the same reading a day earlier. *)
Fixpoint active_days (w : Window) (loc : Location) (at_ : Z) (offsets : list Z) : result window_error bool :=
  match offsets with
  | [] => Ok false
  | o :: offsets =>
      let day := AddDate loc at_ o in
      if negb (Weekday loc day =? WindowWeekday w) then active_days w loc at_ offsets else
      match windowOccurrence w loc (day_of loc day) with
      | None => Err ErrOccurrence
      | Some (s, e) => if (s <=? at_) && (at_ <? e) then Ok true else active_days w loc at_ offsets
      end
  end.

Definition windowActive (w : Window) (at_ : Z) : result window_error bool :=
  if negb (Weekly w) then
    match StartsAt w with
    | None => Ok false
    | Some s => Ok (match EndsAt w with None => s <=? at_ | Some e => (s <=? at_) && (at_ <? e) end)
    end
  else
    match LoadLocation (Timezone w) with
    | None => Err ErrInvalidWindowTimezone
    | Some loc => active_days w loc at_ [0; -1]
    end.

Definition clipInterval (start end_ from to : Z) : option Interval :=
  let start := if start <? from then from else start in
  let end_ := if to <? end_ then to else end_ in
  if start <? end_ then Some (mkInterval start end_) else None.

Definition floorToDay (loc : Location) (t : Z) : Z := Date loc (day_of loc t) 0 0.

(** The walk over the days of the range; [None] when the fuel runs out. *)
Fixpoint walk_days (w : Window) (loc : Location) (from to : Z) (fuel : nat) (cur end_ : Z) : option (list Interval) :=
  match fuel with
  | O => None
  | S fuel =>
      if end_ <? cur then Some [] else
      let here :=
        if Weekday loc cur =? WindowWeekday w then
          match windowOccurrence w loc (day_of loc cur) with
          | Some (s, e) => match clipInterval s e from to with Some iv => [iv] | None => [] end
          | None => []
          end
        else [] in
      rest ← walk_days w loc from to fuel (AddDate loc cur 1) end_;
      Some (here ++ rest)
  end.

Definition days_fuel (loc : Location) (from to : Z) : nat := Z.to_nat (day_of loc to - day_of loc from + 5).

Definition windowIntervalsOne (w : Window) (from to : Z) : option (list Interval) :=
  if negb (Weekly w) then
    match StartsAt w with
    | None => Some []
    | Some s =>
        let e := match EndsAt w with Some e => e | None => to end in
        Some (match clipInterval s e from to with Some iv => [iv] | None => [] end)
    end
  else
    match LoadLocation (Timezone w) with
    | None => Some []
    | Some loc =>
        walk_days w loc from to (days_fuel loc from to)
          (AddDate loc (floorToDay loc from) (-1)) (AddDate loc (floorToDay loc to) 1)
    end.

Fixpoint WindowIntervals (ws : list Window) (from to : Z) : option (list Interval) :=
  match ws with
  | [] => Some []
  | w :: ws =>
      one ← windowIntervalsOne w from to;
      rest ← WindowIntervals ws from to;
      Some (one ++ rest)
  end.

Fixpoint any_active (ws : list Window) (at_ : Z) : result window_error bool :=
  match ws with
  | [] => Ok false
  | w :: ws =>
      match windowActive w at_ with
      | Err e => Err e
      | Ok true => Ok true
      | Ok false => any_active ws at_
      end
  end.

(** ** The table *)

(** A row of [maintenance_windows]. *)
Record WindowRow := mkWindowRow {
  r_project : Z; r_name : string; r_weekly : bool; r_starts : option Z; r_ends : option Z;
  r_weekday : option Z; r_start : option Z; r_end : option Z; r_timezone : string }.

Record WindowTables := mkWindowTables { windows : gmap Z WindowRow; next_window : Z }.

(** The columns of the other kind of schedule are NULL. *)
Definition row_of_window (w : Window) : WindowRow :=
  if Weekly w then
    mkWindowRow (ProjectID w) (Name w) true None None (Some (WindowWeekday w))
      (Some (default 0 (hhmmToPgTime (StartTime w)))) (Some (default 0 (hhmmToPgTime (EndTime w)))) (Timezone w)
  else mkWindowRow (ProjectID w) (Name w) false (StartsAt w) (EndsAt w) None None None (Timezone w).

Definition scanWindow (id : Z) (r : WindowRow) : Window :=
  mkWindow id (r_project r) (r_name r) (r_weekly r) (r_starts r) (r_ends r)
    (default 0 (r_weekday r)) (pgTimeToHHMM (r_start r)) (pgTimeToHHMM (r_end r)) (r_timezone r).

Definition by_window_id (a b : Window) : Prop := ID a <= ID b.
#[export] Instance by_window_id_dec a b : Decision (by_window_id a b).
Proof. unfold by_window_id. apply _. Defined.

Definition project_windows (projectID : Z) (t : WindowTables) : list Window :=
  merge_sort by_window_id (omap (fun '(id, r) => if r_project r =? projectID then Some (scanWindow id r) else None)
    (map_to_list (windows t))).

Section programs.
Context {D : Type} `{Has WindowTables D}.

Definition CreateWindow (w : Window) : prog D (result window_error Z) :=
  match validateWindow w with
  | Err e => mret (Err e)
  | Ok _ => call ErrWindowSQL (on (fun t =>
      (next_window t, mkWindowTables (<[next_window t := row_of_window w]> (windows t)) (next_window t + 1))))
  end.

Definition owned_by (projectID id : Z) (t : WindowTables) : bool :=
  match windows t !! id with Some r => r_project r =? projectID | None => false end.

Definition UpdateWindow (w : Window) : prog D (result window_error ()) :=
  match validateWindow w with
  | Err e => mret (Err e)
  | Ok _ =>
      tryE: hit ← call ErrWindowSQL (on (fun t =>
          if owned_by (ProjectID w) (ID w) t
          then (true, mkWindowTables (<[ID w := row_of_window w]> (windows t)) (next_window t))
          else (false, t)))
        catch err => mret (Err err);
      if hit : bool then mret (Ok tt) else mret (Err ErrWindowNotFound)
  end.

Definition DeleteWindow (id projectID : Z) : prog D (result window_error ()) :=
  tryE: hit ← call ErrWindowSQL (on (fun t =>
      if owned_by projectID id t then (true, mkWindowTables (delete id (windows t)) (next_window t)) else (false, t)))
    catch err => mret (Err err);
  if hit : bool then mret (Ok tt) else mret (Err ErrWindowNotFound).

Definition Windows (projectID : Z) : prog D (result window_error (list Window)) :=
  ask ErrWindowSQL (fun d => project_windows projectID (get d)).

Definition InMaintenance (projectID at_ : Z) : prog D (result window_error bool) :=
  tryE: ws ← Windows projectID catch err => mret (Err err);
  mret (any_active ws at_).
End programs.
End zones.

(** ** Reckoning in a zone *)

Lemma parse_range s h m : parseHHMM s = Some (h, m) -> 0 <= h < 24 /\ 0 <= m < 60.
Proof.
  assert (forall s b n r, getnum s b = Some (n, r) -> 0 <= n) as Hnum.
  { assert (forall c, is_digit c = true -> 0 <= digit c) as Hd.
    { intros c. unfold is_digit, digit. rewrite andb_true_iff, !Nat.leb_le. lia. }
    intros [|a [|b s']] fixed n r; simpl; try done.
    - destruct (is_digit a) eqn:Ha; [|done]. destruct fixed; simpl; [done|]. intros [= <- <-]. auto.
    - destruct (is_digit a) eqn:Ha; [|done]. destruct (is_digit b) eqn:Hb; simpl.
      + intros [= <- <-]. pose proof (Hd a Ha). pose proof (Hd b Hb). lia.
      + destruct fixed; [done|]. intros [= <- <-]. auto. }
  unfold parseHHMM. destruct (getnum s false) as [[h' rest]|] eqn:Hh; [|done]. simpl.
  destruct rest as [|c rest]; [done|]. destruct (Ascii.eqb c colon); [|done]. simpl.
  destruct (getnum rest true) as [[m' rest']|] eqn:Hm; [|done]. simpl.
  destruct (Z.ltb_spec h' 24), (Z.ltb_spec m' 60), (bool_decide _); try done. intros [= <- <-].
  apply Hnum in Hh, Hm. lia.
Qed.

Lemma windowDuration_range w : 0 <= windowDuration w <= 24 * hour.
Proof.
  unfold windowDuration. destruct (parseHHMM (StartTime w)) as [[sh sm]|] eqn:Hs; [|vm_compute; intuition discriminate].
  destruct (parseHHMM (EndTime w)) as [[eh em]|] eqn:He; [|vm_compute; intuition discriminate].
  apply parse_range in Hs, He. change hour with 3600000000000. change minute with 60000000000. cbv zeta.
  destruct (Z.leb_spec ((eh - sh) * 3600000000000 + (em - sm) * 60000000000) 0); lia.
Qed.

(** In this zone the day of [time.Date] is the day asked for, the local date
    never goes back, and no occurrence of the window reaches a third day. *)
Record Regular (w : Window) (loc : Location) : Prop := {
  reg_date : forall d sec nsec, 0 <= sec < day_seconds -> 0 <= nsec < second -> day_of loc (Date loc d sec nsec) = d;
  reg_mono : forall t t', t <= t' -> day_of loc t <= day_of loc t';
  reg_start : forall d h m, 0 <= h < 24 -> 0 <= m < 60 -> day_of loc (earliestOccurrence loc d h m) = d;
  reg_end : forall d s e t, windowOccurrence w loc d = Some (s, e) -> s <= t < e -> day_of loc t <= d + 1 }.

Section fixed.
Context (w : Window) (o : Z).
Abbreviation fix_loc := (fun _ : Z => o).

Lemma fixed_Date d sec nsec : Date fix_loc d sec nsec = (d * day_seconds + sec - o) * second + nsec.
Proof. unfold Date. destruct (Z.eqb_spec o 0) as [->|]; [by rewrite Z.sub_0_r|done]. Qed.

Lemma fixed_local u nsec : 0 <= nsec < second -> local fix_loc ((u - o) * second + nsec) = u.
Proof.
  intros Hn. unfold local, unix. rewrite Z.div_add_l by (vm_compute; discriminate). rewrite (Z.div_small nsec) by done. lia.
Qed.

Lemma fixed_earliest d h m : 0 <= h < 24 -> 0 <= m < 60 -> earliestOccurrence fix_loc d h m = Date fix_loc d (h * 3600 + m * 60) 0.
Proof.
  intros Hh Hm. unfold earliestOccurrence. destruct (_ && _) eqn:Heq; [|done]. exfalso.
  apply andb_true_iff in Heq as [Hhour%Z.eqb_eq _]. unfold Hour, clock_of in Hhour. rewrite fixed_Date in Hhour.
  replace ((d * day_seconds + (h * 3600 + m * 60) - o) * second + 0 - hour)
    with ((d * day_seconds + (h * 3600 + m * 60 - 3600) - o) * second + 0) in Hhour
    by (unfold hour, minute, second; lia).
  rewrite !fixed_local in Hhour by (vm_compute; intuition discriminate).
  rewrite !(Z.add_comm (d * day_seconds)), !Z.mod_add in Hhour by done. unfold day_seconds in Hhour.
  rewrite (Z.mod_small (h * 3600 + m * 60)) in Hhour by lia.
  destruct (decide (h = 0)) as [->|].
  - replace (0 * 3600 + m * 60 - 3600) with (m * 60 + 82800 + (-1) * 86400) in Hhour by lia.
    rewrite Z.mod_add, (Z.mod_small (m * 60 + 82800)) in Hhour by lia.
    Z.to_euclidean_division_equations; lia.
  - rewrite Z.mod_small in Hhour by lia. Z.to_euclidean_division_equations; lia.
Qed.

Lemma fixed_Regular : Regular w fix_loc.
Proof.
  assert (forall d sec nsec, 0 <= sec < day_seconds -> 0 <= nsec < second -> day_of fix_loc (Date fix_loc d sec nsec) = d) as Hdate.
  { intros d sec nsec Hs Hn. unfold day_of. rewrite fixed_Date, fixed_local by done.
    rewrite Z.div_add_l by done. by rewrite Z.div_small, Z.add_0_r. }
  assert (forall t t', t <= t' -> day_of fix_loc t <= day_of fix_loc t') as Hmono.
  { intros t t' Ht. unfold day_of, local, unix. apply Z.div_le_mono; [done|].
    apply Z.add_le_mono_r. by apply Z.div_le_mono. }
  constructor; [exact Hdate|exact Hmono| |].
  - intros d h m Hh Hm. rewrite fixed_earliest by done. apply Hdate; [unfold day_seconds; lia|done].
  - intros d s e t Hocc [Hs He]. unfold windowOccurrence in Hocc.
    destruct (parseHHMM (StartTime w)) as [[h m]|] eqn:Hp; [|done]. apply parse_range in Hp as [Hh Hm].
    cbv zeta in Hocc. case_match; [done|]. injection Hocc as <- <-. rewrite fixed_earliest in He by done.
    pose proof (windowDuration_range w). rewrite <- (Hdate (d + 1) (h * 3600 + m * 60) 0) by (unfold day_seconds, second; lia).
    apply Hmono. rewrite fixed_Date in *. unfold day_seconds, hour, minute, second in *. lia.
Qed.
End fixed.

(** ** The two readings of a window agree *)

Section agreement.
Context (w : Window) (loc : Location) (HR : Regular w loc).

(** The window's occurrence on a day of its weekday, clipped to a range. *)
Definition occurs_on (from to d : Z) (iv : Interval) : Prop :=
  (d + 4) mod 7 = WindowWeekday w /\
  exists s e, windowOccurrence w loc d = Some (s, e) /\ clipInterval s e from to = Some iv.

Definition covers (at_ d : Z) : Prop :=
  (d + 4) mod 7 = WindowWeekday w /\ exists s e, windowOccurrence w loc d = Some (s, e) /\ s <= at_ < e.

Lemma day_of_AddDate t n : day_of loc (AddDate loc t n) = day_of loc t + n.
Proof. apply (reg_date w loc HR); unfold clock_of; apply Z.mod_pos_bound; done. Qed.

Lemma day_of_lt t t' : day_of loc t < day_of loc t' -> t < t'.
Proof. intros Hd. destruct (Z.lt_ge_cases t t') as [|Hge]; [done|]. apply (reg_mono w loc HR) in Hge. lia. Qed.

Lemma occurrence_day d s e : windowOccurrence w loc d = Some (s, e) -> day_of loc s = d /\ s <= e.
Proof.
  unfold windowOccurrence. destruct (parseHHMM (StartTime w)) as [[h m]|] eqn:Hp; [|done]. apply parse_range in Hp as [].
  destruct (Z.leb_spec (windowDuration w) 0); [done|]. intros [= <- <-]. split; [by apply (reg_start w loc HR)|lia].
Qed.

Lemma clip_covers s e from to at_ : from <= at_ < to ->
  (s <= at_ < e <-> exists iv, clipInterval s e from to = Some iv /\ From iv <= at_ < To iv).
Proof.
  intros Hat. unfold clipInterval.
  destruct (Z.ltb_spec s from), (Z.ltb_spec to e); cbv zeta;
    match goal with |- context [if ?a <? ?b then _ else _] => destruct (Z.ltb_spec a b) end;
    split; intros Hin;
    first [ destruct Hin as (iv & ? & ?); simplify_eq; simpl in *; lia
          | eexists; split; [reflexivity|simpl; lia] | exfalso; lia ].
Qed.

Lemma walk_days_spec from to end_ K : day_of loc end_ = K -> forall fuel cur k,
  day_of loc cur = k -> k <= K + 1 -> K - k + 2 <= Z.of_nat fuel ->
  exists ivs, walk_days w loc from to fuel cur end_ = Some ivs /\
    (forall iv, iv ∈ ivs -> exists d, occurs_on from to d iv) /\
    (forall d iv, k <= d < K -> occurs_on from to d iv -> iv ∈ ivs).
Proof.
  intros HK fuel. induction fuel as [|fuel IH]; intros cur k Hk Hle Hf; [lia|]. cbn [walk_days].
  destruct (Z.ltb_spec end_ cur) as [Hend|Hend].
  { exists []. split_and!; [done|set_solver|]. intros d iv Hd _. exfalso.
    apply Z.lt_le_incl, (reg_mono w loc HR) in Hend. lia. }
  destruct (IH (AddDate loc cur 1) (k + 1)) as (rest & -> & Hin & Hall);
    [by rewrite day_of_AddDate, Hk| |lia|].
  { apply (reg_mono w loc HR) in Hend. lia. }
  eexists. split; [reflexivity|]. rewrite Hk. unfold Weekday. rewrite Hk. split.
  - intros iv [Hiv|Hiv]%elem_of_app; [|by apply Hin]. exists k.
    destruct (Z.eqb_spec ((k + 4) mod 7) (WindowWeekday w)) as [Hwd|]; [|set_solver]. split; [done|].
    destruct (windowOccurrence w loc k) as [[s e]|] eqn:Ho; [|set_solver]. exists s, e. split; [done|].
    destruct (clipInterval s e from to); [|set_solver]. by apply list_elem_of_singleton in Hiv as ->.
  - intros d iv Hd Hoc. apply elem_of_app. destruct (decide (d = k)) as [->|]; [left|right; apply (Hall d); [lia|done]].
    destruct Hoc as (Hw & s & e & -> & ->). rewrite <- Hw, Z.eqb_refl. set_solver.
Qed.
End agreement.

Lemma active_days_spec w loc at_ : Regular w loc ->
  (active_days w loc at_ [0; -1] = Ok true <-> exists d, covers w loc at_ d).
Proof.
  intros HR. set (D0 := day_of loc at_).
  assert (forall o offs, active_days w loc at_ (o :: offs) = Ok true <->
    covers w loc at_ (D0 + o) \/
    (active_days w loc at_ offs = Ok true /\ (windowOccurrence w loc (D0 + o) = None -> (D0 + o + 4) mod 7 <> WindowWeekday w))) as Hstep.
  { intros o offs. cbn [active_days]. unfold Weekday. rewrite (day_of_AddDate w) by done. fold D0. unfold covers.
    destruct (Z.eqb_spec ((D0 + o + 4) mod 7) (WindowWeekday w)) as [Hw|Hw]; [|naive_solver].
    destruct (windowOccurrence w loc (D0 + o)) as [[s e]|] eqn:Ho; [|naive_solver].
    destruct (Z.leb_spec s at_), (Z.ltb_spec at_ e); simpl; naive_solver lia. }
  assert (forall d d', windowOccurrence w loc d = None -> windowOccurrence w loc d' = None) as Hsame.
  { intros d d'. unfold windowOccurrence. by repeat case_match. }
  rewrite !Hstep. simpl. split.
  - intros [?|[[?|[? _]] _]]; [by eexists|by eexists|done].
  - intros (d & Hw & s & e & Ho & Hin). destruct (occurrence_day w loc HR _ _ _ Ho) as [Hd _].
    pose proof (reg_end w loc HR d s e at_ Ho Hin) as Hlast.
    pose proof (reg_mono w loc HR s at_ (proj1 Hin)) as Hle. rewrite Hd in Hle. fold D0 in Hle, Hlast.
    assert (d = D0 + 0 \/ d = D0 + -1) as [Hd0|Hd0] by lia; rewrite Hd0 in Hw, Ho; [left|right; split; [left|]].
    1,2: split; [done|]; by exists s, e.
    intros Hnone. exfalso. by rewrite (Hsame _ (D0 + -1) Hnone) in Ho.
Qed.


(** Sunday 23:00 to Monday 02:00. *)
Definition sunday_night (tz : string) : Window := mkWindow 1 1 "backup" true None None 0 "23:00" "02:00" tz.
Definition moscow (_ : string) : option Location := Some (fun _ => 10800).
(** Monday 9 September 2024, 00:30 in Moscow. *)
Definition monday_0030 : Z := (19975 * 86400 + 1800 - 10800) * second.


(** ** Storage *)

Definition same_reading (h m : Z) : bool :=
  match parseHHMM (pgTimeToHHMM (Some ((h * 60 + m) * 60000000))) with
  | Some (h', m') => (h' =? h) && (m' =? m)
  | None => false
  end.

Lemma pg_readings_checked :
  forallb (fun h => forallb (fun m => same_reading (Z.of_nat h) (Z.of_nat m)) (seq 0 60)) (seq 0 24) = true.
Proof. vm_compute. reflexivity. Qed.

(** A [time] column gives back the time of day it was written from. *)
Lemma pgTime_reads_back s h m : parseHHMM s = Some (h, m) ->
  parseHHMM (pgTimeToHHMM (Some (default 0 (hhmmToPgTime s)))) = Some (h, m).
Proof.
  intros Hp. pose proof (parse_range s h m Hp) as [Hh Hm]. 
  replace (default 0 (hhmmToPgTime s)) with ((h * 60 + m) * 60000000) by (unfold hhmmToPgTime; by rewrite Hp).
  pose proof pg_readings_checked as Hall. rewrite forallb_forall in Hall.
  specialize (Hall (Z.to_nat h)). rewrite in_seq, forallb_forall in Hall. specialize (Hall ltac:(lia) (Z.to_nat m)).
  rewrite in_seq, !Z2Nat.id in Hall by lia. specialize (Hall ltac:(lia)). unfold same_reading in Hall.
  destruct (parseHHMM (pgTimeToHHMM _)) as [[h' m']|] in Hall |- *; [|done]. apply andb_true_iff in Hall as [->%Z.eqb_eq ->%Z.eqb_eq]. done.
Qed.

(** The fields the two readings of a window look at. *)
Record same_schedule (w w' : Window) : Prop := {
  ss_weekly : Weekly w = Weekly w'; ss_tz : Timezone w = Timezone w';
  ss_once : Weekly w = false -> StartsAt w = StartsAt w' /\ EndsAt w = EndsAt w';
  ss_week : Weekly w = true -> WindowWeekday w = WindowWeekday w' /\
    parseHHMM (StartTime w) = parseHHMM (StartTime w') /\ parseHHMM (EndTime w) = parseHHMM (EndTime w') }.

Lemma stored_schedule LoadLocation w id : validateWindow LoadLocation w = Ok tt -> same_schedule w (scanWindow id (row_of_window w)).
Proof.
  unfold validateWindow. case_decide; [done|]. destruct (LoadLocation (Timezone w)); [|done].
  destruct (Weekly w) eqn:Hw; unfold row_of_window; rewrite Hw.
  - case_match; [done|]. destruct (parseHHMM (StartTime w)) as [[h m]|] eqn:Hs; [|done].
    destruct (parseHHMM (EndTime w)) as [[h' m']|] eqn:He; [|done]. intros _.
    constructor; [done|done|by rewrite Hw|]. intros _. cbn [scanWindow r_start r_end r_weekday StartTime EndTime WindowWeekday].
    by rewrite (pgTime_reads_back _ _ _ Hs), (pgTime_reads_back _ _ _ He).
  - intros _. constructor; simpl; [done|done|done|]. by rewrite Hw.
Qed.

Lemma same_occurrence w w' loc day : Weekly w = true -> same_schedule w w' -> windowOccurrence w loc day = windowOccurrence w' loc day.
Proof.
  intros Hw [_ _ _ Hs]. destruct (Hs Hw) as (_ & Ha & Hb). unfold windowOccurrence, windowDuration. by rewrite Ha, Hb.
Qed.

(** a window that passes validation is stored without loss of meaning:
    read back from its row it passes validation, is active at the same
    instants and covers the same intervals of every range. *)
Theorem window_roundtrip LoadLocation w id : validateWindow LoadLocation w = Ok tt ->
  let w' := scanWindow id (row_of_window w) in
  (forall at_, windowActive LoadLocation w' at_ = windowActive LoadLocation w at_) /\
  (forall from to, windowIntervalsOne LoadLocation w' from to = windowIntervalsOne LoadLocation w from to).
Proof.
  intros Hv w'. pose proof (stored_schedule _ _ id Hv) as Hs. fold w' in Hs. clearbody w'.
  pose proof (fun loc day Hw => same_occurrence w w' loc day Hw Hs) as Hocc. destruct Hs as [Hw Htz Ho Hk].
  unfold windowActive, windowIntervalsOne. rewrite <- Hw, <- Htz. destruct (Weekly w); cbn [negb].
  - destruct (LoadLocation (Timezone w)) as [loc|]; [|by split]. destruct (Hk eq_refl) as (Hd & _ & _). split.
    + intros at_. generalize [0; -1]. intros offs.
      induction offs as [|o offs IH]; [done|]. cbn [active_days].
      rewrite <- Hd, <- Hocc, IH by done. done.
    + intros from to. generalize (days_fuel loc from to), (AddDate loc (floorToDay loc from) (-1)). intros fuel.
      induction fuel as [|fuel IH]; intros cur; [done|]. cbn [walk_days]. rewrite <- Hd, <- Hocc, IH by done. done.
  - destruct (Ho eq_refl) as [<- <-]. by split.
Qed.

Lemma window_roundtrip_witness : validateWindow moscow (sunday_night "Europe/Moscow") = Ok tt /\
  windowActive moscow (scanWindow 7 (row_of_window (sunday_night "Europe/Moscow"))) monday_0030 =
  windowActive moscow (sunday_night "Europe/Moscow") monday_0030.
Proof. split; [reflexivity|]. apply (window_roundtrip moscow (sunday_night "Europe/Moscow") 7). reflexivity. Defined.

(** ** What the hypotheses exclude *)

(** Chile, 8 September 2024: clocks went from Saturday 24:00 to Sunday 01:00. *)
Definition santiago (_ : string) : option Location :=
  Some (fun u => if u <? 19974 * 86400 + 4 * 3600 then -14400 else -10800).
(** Monday 9 September 2024, 00:30 in Santiago. *)
Definition monday_0030_santiago : Z := (19975 * 86400 + 1800 + 10800) * second.

(** A day earlier than Monday 00:30 is a reading Sunday did not have, and
    [AddDate] lands on Saturday: the window of Sunday night is not seen by
    [windowActive] although its interval covers the instant. *)
Lemma windowActive_misses_gap :
  windowActive santiago (sunday_night "America/Santiago") monday_0030_santiago = Ok false /\
  exists s e, windowIntervalsOne santiago (sunday_night "America/Santiago")
      (monday_0030_santiago - 24 * hour) (monday_0030_santiago + 24 * hour) = Some [mkInterval s e] /\
    s <= monday_0030_santiago < e.
Proof.
  split; [vm_compute; reflexivity|]. eexists _, _. split; [vm_compute; reflexivity|]. vm_compute. split; [discriminate|reflexivity].
Qed.

(** The two times are compared as text: 9:00 to 09:00 passes validation, lasts
    a day, and no longer validates once it has been stored. *)
Definition nine_to_nine : Window := mkWindow 1 1 "typo" true None None 0 "9:00" "09:00" "Europe/Moscow".

Lemma validateWindow_accepts_full_day :
  validateWindow moscow nine_to_nine = Ok tt /\ windowDuration nine_to_nine = 24 * hour /\
  validateWindow moscow (scanWindow 1 (row_of_window nine_to_nine)) = Err ErrInvalidWindowSameTime.
Proof. split_and!; vm_compute; reflexivity. Qed.
