(* ===== verification/Environment.v ===== *)
(** One program run to its end while the rest of the service moves on.

    [runs env p fs d a d']: the program [p], started in [d], meets the faults
    [fs] and returns [a] in [d']; before each of its statements, and after the
    last, others take any number of steps of [env].  [ensures] is the triple
    over such runs; a fact that holds between two statements has to be
    preserved by [env]. *)
From stdpp Require Import base tactics list relations.
From S2P Require Import Prelude.
From S2P Require Import Prog.

(** A critical section: one step on the state a mutex guards. *)
Definition locked {D A} (f : D -> A * D) : prog D A :=
  Step (fun _ d => (f d).2) (fun _ d => Ret (f d).1).

Lemma exec0_locked {D A} (f : D -> A * D) d : exec0 (locked f) d = f d.
Proof. unfold exec0, locked. simpl. by destruct (f d). Qed.
#[export] Hint Rewrite @exec0_locked : exec0.

Section environment.
Context {D : Type} (env : D -> D -> Prop) (met : fault -> Prop).

Inductive runs {A} : prog D A -> list fault -> D -> A -> D -> Prop :=
| runs_ret a d d' : rtc env d d' -> runs (Ret a) [] d a d'
| runs_step q k f fs d d1 a d' :
    rtc env d d1 -> runs (k f d1) fs (q f d1) a d' -> runs (Step q k) (f :: fs) d a d'.

Lemma runs_bind_inv {A B} (p : prog D A) (k : A -> prog D B) fs d b d' :
  runs (mbind k p) fs d b d' ->
  exists a d1 fs1 fs2, fs = fs1 ++ fs2 /\ runs p fs1 d a d1 /\ runs (k a) fs2 d1 b d'.
Proof.
  revert k fs d. induction p as [A a|A q k' IH|A p _ k' _]; intros k fs d Hr.
  - exists a, d, [], fs. split_and!; [done|constructor; apply rtc_refl|exact Hr].
  - change (mbind k (Step q k')) with (Step q (fun f d => mbind k (k' f d))) in Hr.
    inversion Hr as [|q0 k0 f fs0 d0 d1 b0 d2 Henv Hk]; subst.
    destruct (IH f d1 k fs0 _ Hk) as (a & d2 & fs1 & fs2 & -> & Hp & Hk2).
    exists a, d2, (f :: fs1), fs2. split_and!; [done|by econstructor|done].
  - change (mbind k (Fork p k')) with (Fork p (mbind k k')) in Hr. inversion Hr.
Qed.

(** A run from a schedule: the fault of each statement and what others do
    before it. *)
Fixpoint drive {M A} (act : M -> D -> D) (p : prog D A) (sched : list (fault * list M)) (d : D) : option (A * D) :=
  match p, sched with
  | Ret a, [] => Some (a, d)
  | Step q k, (f, ms) :: sched => let d := foldl (flip act) d ms in drive act (k f d) sched (q f d)
  | _, _ => None
  end.

Lemma drive_runs {M A} (act : M -> D -> D) (p : prog D A) sched d a d' :
  (forall m d, env d (act m d)) -> drive act p sched d = Some (a, d') -> runs p (map fst sched) d a d'.
Proof.
  intros Hact. revert sched d. induction p as [A a'|A q k IH|A p _ k _]; intros [|[f ms] sched] d Hd; try done.
  - injection Hd as <- <-. constructor. apply rtc_refl.
  - simpl in *. econstructor; [|by apply IH]. clear -Hact. revert d. induction ms as [|m ms IHm]; intros d; [apply rtc_refl|].
    eapply rtc_l; [apply Hact|apply IHm].
Qed.

(** A run that meets no fault and is left alone is the sequential one. *)
Lemma runs_exec0 {A} (p : prog D A) fs d a d' :
  (forall x y, env x y -> x = y) -> Forall (eq FNone) fs -> runs p fs d a d' -> (a, d') = exec0 p d.
Proof.
  intros Hid Hfs Hr. assert (forall x y, rtc env x y -> x = y) as Hrtc.
  { induction 1 as [|x y z Hxy _ IH]; [done|]. rewrite <- IH. by apply Hid. }
  induction Hr as [a d d' Hd|q k f fs d d1 a d' Hd Hr IH].
  - by rewrite (Hrtc _ _ Hd).
  - apply Forall_cons in Hfs as [<- Hfs]. apply Hrtc in Hd as ->. rewrite IH by done. done.
Qed.

Definition kept (S : D -> Prop) : Prop := forall d d', env d d' -> S d -> S d'.

Lemma kept_pure (P : Prop) : kept (fun _ => P).
Proof. by intros d d' _. Qed.

Definition ensures {A} (S : D -> Prop) (p : prog D A) (Q : A -> D -> Prop) : Prop :=
  forall fs d a d', runs p fs d a d' -> Forall met fs -> S d -> Q a d'.

Lemma kept_rtc (S : D -> Prop) d d' : kept S -> rtc env d d' -> S d -> S d'.
Proof. intros HS. induction 1; eauto. Qed.

Lemma ens_bind {A B} (p : prog D A) (k : A -> prog D B) S Q T :
  ensures S p Q -> (forall a, ensures (Q a) (k a) T) -> ensures S (mbind k p) T.
Proof.
  intros Hp Hk fs d b d' (a & d1 & fs1 & fs2 & -> & Hr1 & Hr2)%runs_bind_inv [Hf1 Hf2]%Forall_app HS.
  eapply Hk; [exact Hr2|exact Hf2|]. by eapply Hp.
Qed.

Lemma ens_ret {A} (a : A) (S : D -> Prop) (Q : A -> D -> Prop) :
  kept S -> (forall d, S d -> Q a d) -> ensures S (mret a) Q.
Proof.
  intros HS HQ fs d b d' Hr _ Hd. inversion Hr as [a0 d0 d1 Henv|]; subst. apply HQ. by eapply kept_rtc.
Qed.

Lemma ens_step {A} (q : fault -> D -> D) (k : fault -> D -> A) S Q :
  kept S -> (forall a, kept (Q a)) -> (forall f d, met f -> S d -> Q (k f d) (q f d)) ->
  ensures S (Step q (fun f d => Ret (k f d))) Q.
Proof.
  intros HS HQ Hq fs d b d' Hr Hf Hd. inversion Hr as [|q0 k0 f fs0 d0 d1 b0 d2 Henv Hk]; subst.
  apply Forall_cons in Hf as [Hf _]. inversion Hk as [a0 d0 d3 Henv2|]; subst.
  eapply kept_rtc; [apply HQ|exact Henv2|]. apply Hq; [done|]. by eapply kept_rtc.
Qed.

Lemma ens_pgets {A} (f : D -> A) S (Q : A -> D -> Prop) :
  kept S -> (forall a, kept (Q a)) -> (forall d, S d -> Q (f d) d) -> ensures S (pgets f) Q.
Proof. intros HS HQ Hf. apply (ens_step (fun _ d => d) (fun _ d => f d)); auto. Qed.

Lemma ens_pmodify (f : D -> D) S (Q : D -> Prop) :
  kept S -> kept Q -> (forall d, S d -> Q (f d)) -> ensures S (pmodify f) (fun _ => Q).
Proof. intros HS HQ Hf. apply (ens_step (fun _ d => f d) (fun _ _ => tt)); auto. Qed.

Lemma ens_locked {A} (f : D -> A * D) S (Q : A -> D -> Prop) :
  kept S -> (forall a, kept (Q a)) -> (forall d, S d -> Q (f d).1 (f d).2) -> ensures S (locked f) Q.
Proof. intros HS HQ Hf. apply (ens_step (fun _ d => (f d).2) (fun _ d => (f d).1)); auto. Qed.

Lemma ens_call {A E} (e : E) (q : D -> A * D) S (Q : result E A -> D -> Prop) :
  (forall f, met f -> f <> FLostReply) -> kept S -> (forall r, kept (Q r)) ->
  (forall d, S d -> Q (Err e) d) -> (forall d, S d -> Q (Ok (q d).1) (q d).2) -> ensures S (call e q) Q.
Proof.
  intros Hm HS HQ He Hq. apply ens_step; [done|done|]. intros f d Hf Hd. specialize (Hm f Hf). destruct f; [by apply Hq|by apply He|done].
Qed.

Lemma ens_ask {A E} (e : E) (f : D -> A) S (Q : result E A -> D -> Prop) :
  kept S -> (forall r, kept (Q r)) -> (forall d, S d -> Q (Err e) d) -> (forall d, S d -> Q (Ok (f d)) d) ->
  ensures S (ask e f) Q.
Proof. intros HS HQ He Hq. apply ens_step; [done|done|]. intros g d _ Hd. destruct g; simpl; auto. Qed.

(** [S] also holds after a call whose error ends the program. *)
Lemma ens_tryE {A B E E'} (p : prog D (result E A)) (h : E -> prog D (result E' B)) (k : A -> prog D (result E' B)) S
    (Q : A -> D -> Prop) (R : B -> D -> Prop) :
  ensures S p (fun r d => match r with Ok a => Q a d | Err _ => True end) ->
  (forall e, ensures (fun _ => True) (h e) (fun r d => match r with Ok b => R b d | Err _ => True end)) ->
  (forall a, ensures (Q a) (k a) (fun r d => match r with Ok b => R b d | Err _ => True end)) ->
  ensures S (mbind (fun r => match r with Ok a => k a | Err e => h e end) p) (fun r d => match r with Ok b => R b d | Err _ => True end).
Proof. intros Hp Hh Hk. eapply ens_bind; [exact Hp|]. intros [a|e]; [apply Hk|apply Hh]. Qed.

Lemma ens_err {A E} (e : E) : ensures (fun _ => True) (mret (Err e) : prog D (result E A)) (fun r d => match r with Ok b => False | Err _ => True end).
Proof. intros fs d b d' Hr _ _. by inversion Hr. Qed.

Lemma ens_weaken {A} (p : prog D A) (S S' : D -> Prop) (Q Q' : A -> D -> Prop) :
  ensures S p Q -> (forall d, S' d -> S d) -> (forall a d, Q a d -> Q' a d) -> ensures S' p Q'.
Proof. intros Hp HS HQ fs d a d' Hr Hf Hd. eapply HQ, Hp; eauto. Qed.
End environment.
#[export] Hint Resolve kept_pure : gotcha.
