(* ===== verification/Chbatch.v ===== *)
(** Isolation of the rows ClickHouse refuses: [internal/chbatch/isolate.go].

    A batch that fails is split in halves until the refused rows are alone.
    [insert] is any program that stores a batch or reports an error; its laws
    are those of the writers that pass it.  The recursion is on the length of
    the batch. *)
From stdpp Require Import base tactics list.
From Stdlib Require Import ZArith Lia.
From Equations Require Import Equations.
From S2P Require Import Prelude.
From S2P Require Import Prog.
From S2P Require Import Environment.

(** What [errors.Is] and [errors.As] tell of an error of the driver. *)
Record ch_error := mkChError { DeadlineExceeded : bool; Canceled : bool; Exception : option Z }.

Definition poisonCHCodes : list Z := [6; 26; 27; 33; 38; 41; 43; 53; 69; 70; 72; 117; 131; 190; 407]%Z.

Definition IsServerDataError (err : option ch_error) : bool :=
  match err with
  | None => false
  | Some e =>
      if DeadlineExceeded e || Canceled e then false else
      match Exception e with Some code => bool_decide (code ∈ poisonCHCodes) | None => false end
  end.

Section isolate.
Context {D T : Type} (late : D -> bool) (insert : list T -> prog D (option ch_error)) (isPoison : option ch_error -> bool).

(** The deadline check and the insert of a batch; [failed] is what to do with
    an error. *)
Definition attempt (rows : list T) (failed : ch_error -> prog D (Z * list T)) : prog D (Z * list T) :=
  expired ← pgets late;
  if expired : bool then mret (0%Z, rows) else
  err ← insert rows;
  match err with None => mret (0%Z, []) | Some e => failed e end.

Definition mid (rows : list T) : nat := length rows / 2.
Arguments mid : simpl never.

Lemma mid_range r1 r2 (rest : list T) : 0 < mid (r1 :: r2 :: rest) <= S (length rest).
Proof.
  unfold mid. pose proof (Nat.div_str_pos (S (S (length rest))) 2). pose proof (Nat.div_lt (S (S (length rest))) 2).
  simpl length. lia.
Qed.

Equations? IsolatePoison (rows : list T) : prog D (Z * list T) by wf (length rows) lt :=
  IsolatePoison [] := mret (0%Z, []);
  IsolatePoison [r] := attempt [r] (fun e => mret (if isPoison (Some e) then (1%Z, []) else (0%Z, [r])));
  IsolatePoison (r1 :: r2 :: rest) := attempt (r1 :: r2 :: rest) (fun _ =>
    '(dl, ul) ← IsolatePoison (take (mid (r1 :: r2 :: rest)) (r1 :: r2 :: rest));
    '(dr, ur) ← IsolatePoison (drop (mid (r1 :: r2 :: rest)) (r1 :: r2 :: rest));
    mret ((dl + dr)%Z, ul ++ ur)).
Proof.
  all: pose proof (mid_range r1 r2 rest).
  - rewrite length_drop. simpl. lia.
  - rewrite length_take. simpl. lia.
Qed.

Lemma isolate_ind (P : list T -> Prop) :
  P [] -> (forall r, P [r]) ->
  (forall r1 r2 rest, P (take (mid (r1 :: r2 :: rest)) (r1 :: r2 :: rest)) ->
    P (drop (mid (r1 :: r2 :: rest)) (r1 :: r2 :: rest)) -> P (r1 :: r2 :: rest)) ->
  forall rows, P rows.
Proof.
  intros H0 H1 H2 rows. remember (length rows) as n eqn:Hn. revert rows Hn.
  induction (lt_wf n) as [n _ IH]. intros [|r1 [|r2 rest]] ->; [done|done|].
  pose proof (mid_range r1 r2 rest).
  apply H2; (eapply IH; [|reflexivity]); rewrite ?length_take, ?length_drop; simpl; lia.
Qed.

(** ** What the writers promise, and what follows *)

Context (env : D -> D -> Prop) (met : fault -> Prop).

(** [I fl gone d]: the rows [fl] are with the caller and those of [gone] have
    been given up; [refused] is what an error of [insert] tells. *)
Class InsertLaw (I : list T -> list T -> D -> Prop) (refused : list T -> ch_error -> Prop) : Prop := {
  il_perm fl fl' gone gone' d : fl ≡ₚ fl' -> gone ≡ₚ gone' -> I fl gone d -> I fl' gone' d;
  il_kept fl gone : kept env (I fl gone);
  il_insert rows fl gone : ensures env met (I (rows ++ fl) gone) (insert rows) (fun r d =>
    match r with None => I fl gone d | Some e => I (rows ++ fl) gone d /\ refused rows e end);
  il_gone r fl gone d : I (r :: fl) gone d -> I fl (r :: gone) d }.

Context (I : list T -> list T -> D -> Prop) (refused : list T -> ch_error -> Prop).

(** A row refused on its own for what it holds. *)
Definition bad (r : T) : Prop := exists e, refused [r] e /\ isPoison (Some e) = true.

Definition resolved (rows fl gone : list T) (out : Z * list T) (d : D) : Prop :=
  exists g, Z.of_nat (length g) = out.1 /\ Forall bad g /\ g ++ out.2 ⊆+ rows /\ I (out.2 ++ fl) (g ++ gone) d.

Lemma resolved_kept `{!InsertLaw I refused} rows fl gone out : kept env (resolved rows fl gone out).
Proof. intros d d' Hd (g & ? & ? & ? & ?). exists g. split_and!; [done..|by eapply (il_kept _ _ d d')]. Qed.

Lemma kept_conj (P : Prop) (S : D -> Prop) : kept env S -> kept env (fun d => S d /\ P).
Proof. intros HS d d' Hd [? ?]. split; [by eapply HS|done]. Qed.

Lemma attempt_ens `{!InsertLaw I refused} rows fl gone failed :
  (forall e, ensures env met (fun d => I (rows ++ fl) gone d /\ refused rows e) (failed e) (resolved rows fl gone)) ->
  ensures env met (I (rows ++ fl) gone) (attempt rows failed) (resolved rows fl gone).
Proof.
  intros Hf. unfold attempt.
  eapply ens_bind; [apply (ens_pgets _ _ _ _ (fun _ => I (rows ++ fl) gone)); [apply il_kept|intros _; apply il_kept|done]|].
  intros [|]; cbv beta.
  - apply ens_ret; [apply il_kept|]. intros d Hd. exists []. split_and!; [done|constructor|done|done].
  - eapply ens_bind; [apply il_insert|]. intros [e|]; cbv beta; [apply Hf|].
    apply ens_ret; [apply il_kept|]. intros d Hd. exists []. split_and!; [done|constructor|apply submseteq_nil_l|done].
Qed.

(** No row is lost: what is neither stored nor counted as dropped comes back,
    and every dropped row was refused on its own. *)
Lemma IsolatePoison_ens `{!InsertLaw I refused} rows fl gone :
  ensures env met (I (rows ++ fl) gone) (IsolatePoison rows) (resolved rows fl gone).
Proof.
  revert fl gone. apply (isolate_ind (fun rows => forall fl gone, ensures env met (I (rows ++ fl) gone) (IsolatePoison rows) (resolved rows fl gone)));
    clear rows; [|intros r|intros r1 r2 rest IHl IHr]; intros fl gone; simp IsolatePoison.
  - apply ens_ret; [apply il_kept|]. intros d Hd. exists []. by split_and!.
  - apply attempt_ens. intros e. apply ens_ret; [apply kept_conj, il_kept|]. intros d [Hd He].
    destruct (isPoison (Some e)) eqn:Hp; [exists [r]|exists []]; split_and!; try done.
    + apply Forall_singleton. by exists e.
    + by apply il_gone.
  - apply attempt_ens. intros e. set (rows := r1 :: r2 :: rest) in *. set (a := take (mid rows) rows) in *. set (b := drop (mid rows) rows) in *.
    assert (rows ≡ₚ a ++ b) as Hab by (unfold a, b; by rewrite take_drop).
    eapply ens_bind; [eapply ens_weaken; [apply (IHl (b ++ fl) gone)| |intros ? ? Hx; exact Hx]|].
    { intros d [Hd _]. eapply il_perm; [|reflexivity|exact Hd]. by rewrite Hab, <- app_assoc. }
    intros [dl ul]; cbv beta iota. unfold resolved at 1. simpl.
    eapply (ens_bind _ _ _ _ _ (fun out d => exists g, Z.of_nat (length g) = dl /\ Forall bad g /\ g ++ ul ⊆+ a /\
        resolved b (ul ++ fl) (g ++ gone) out d)).
    { intros fs d out d' Hr Hfs (g & Hg & Hb & Hsub & Hd). exists g. split_and!; [done..|].
      eapply (IHr (ul ++ fl) (g ++ gone)); [exact Hr|done|]. eapply il_perm; [|reflexivity|exact Hd]. solve_Permutation. }
    intros [dr ur]; cbv beta iota. apply ens_ret.
    { intros d d' Hdd (g & ? & ? & ? & ?). exists g. split_and!; [done..|by eapply resolved_kept]. }
    intros d (g & Hg & Hbg & Hsub & g' & Hg' & Hbg' & Hsub' & Hd). exists (g' ++ g). simpl in *. split_and!.
    + rewrite length_app. lia.
    + by apply Forall_app.
    + rewrite Hab. transitivity ((g ++ ul) ++ (g' ++ ur)); [|by apply submseteq_app].
      apply Permutation_submseteq. solve_Permutation.
    + eapply il_perm; [| |exact Hd]; solve_Permutation.
Qed.

(** While the deadline is ahead, when [insert] refuses exactly the batches with
    a row of [f] and for what the row holds, every row is resolved. *)
Lemma IsolatePoison_exact (f : T -> bool) (S : D -> Prop) :
  kept env S -> (forall d, S d -> late d = false) ->
  (forall rows, ensures env met S (insert rows) (fun r d => S d /\
    match r with None => existsb f rows = false | Some e => existsb f rows = true /\ isPoison (Some e) = true end)) ->
  forall rows, ensures env met S (IsolatePoison rows) (fun out d => S d /\
    out = (Z.of_nat (length (List.filter f rows)), [])).
Proof.
  intros HS Hlate Hins.
  assert (forall l, existsb f l = false -> List.filter f l = []) as Hnone.
  { intros l. induction l as [|x l IH]; [done|]. simpl. destruct (f x); [done|]. simpl. exact IH. }
  assert (forall rows failed, (forall e, ensures env met (fun d => S d /\ (existsb f rows = true /\ isPoison (Some e) = true)) (failed e)
      (fun out d => S d /\ out = (Z.of_nat (length (List.filter f rows)), []))) ->
    ensures env met S (attempt rows failed) (fun out d => S d /\ out = (Z.of_nat (length (List.filter f rows)), []))) as Hatt.
  { intros rows failed Hf. unfold attempt.
    eapply (ens_bind _ _ _ _ _ (fun b d => S d /\ b = false)); [apply ens_pgets; [done|intros b; by apply kept_conj|auto]|].
    intros [|]; cbv beta; [by intros fs d a d' _ _ [_ ?]|].
    eapply ens_bind; [eapply ens_weaken; [apply Hins|by intros d [? _]|intros ? ? Hx; exact Hx]|]. intros [e|]; cbv beta; [apply Hf|].
    apply ens_ret; [by apply kept_conj|]. intros d [Hd Hn]. by rewrite (Hnone _ Hn). }
  apply isolate_ind; [|intros r|intros r1 r2 rest IHl IHr]; simp IsolatePoison.
  - by apply ens_ret.
  - apply Hatt. intros e. apply ens_ret; [by apply kept_conj|]. intros d (Hd & Hb & ->). split; [done|].
    simpl in Hb |- *. rewrite orb_false_r in Hb. by rewrite Hb.
  - apply Hatt. intros e. set (rows := r1 :: r2 :: rest) in *.
    eapply ens_bind; [eapply ens_weaken; [exact IHl|by intros d [? _]|intros ? ? Hx; exact Hx]|]. intros [dl ul]; cbv beta iota.
    eapply (ens_bind _ _ _ _ _ (fun out d => (S d /\ (dl, ul) = (Z.of_nat (length (List.filter f (take (mid rows) rows))), [])) /\
        out = (Z.of_nat (length (List.filter f (drop (mid rows) rows))), []))).
    { intros fs d out d' Hr Hfs [Hd ->]. destruct (IHr fs d out d' Hr Hfs Hd) as [Hd' ->].
      done. }
    intros [dr ur]; cbv beta iota. apply ens_ret; [by repeat apply kept_conj|]. intros d [[Hd [= -> ->]] [= -> ->]]. split; [done|].
    assert (List.filter f rows = List.filter f (take (mid rows) rows) ++ List.filter f (drop (mid rows) rows)) as ->
      by (by rewrite <- List.filter_app, take_drop).
    rewrite length_app, Nat2Z.inj_add. done.
Qed.

(** A batch of [n] rows takes at most [2n - 1] attempts, of two statements
    each when [insert] is one statement. *)
Lemma IsolatePoison_attempts rows :
  (forall rows fs d a d', runs env (insert rows) fs d a d' -> length fs = 1) ->
  forall fs d a d', runs env (IsolatePoison rows) fs d a d' -> length fs <= 4 * length rows - 2.
Proof.
  intros Hone.
  assert (forall rows failed n, (forall e fs d a d', runs env (failed e) fs d a d' -> length fs <= n) ->
    forall fs d a d', runs env (attempt rows failed) fs d a d' -> length fs <= n + 2) as Hatt.
  { intros rows' failed n Hf fs d a d' Hr. unfold attempt in Hr.
    apply runs_bind_inv in Hr as (b & d1 & fs1 & fs2 & -> & H1 & H2). rewrite length_app.
    assert (length fs1 = 1) as -> by (inversion H1 as [|q k f fs0 x y z w He Hk]; subst; inversion Hk; done).
    destruct b; [inversion H2; simpl; lia|]. apply runs_bind_inv in H2 as (e & d2 & fs3 & fs4 & -> & H3 & H4).
    rewrite length_app, (Hone _ _ _ _ _ H3). destruct e as [e|]; [|inversion H4; simpl; lia]. apply Hf in H4. lia. }
  apply isolate_ind with (rows := rows); clear rows; [|intros r|intros r1 r2 rest IHl IHr]; intros fs d a d' Hr; simp IsolatePoison in Hr.
  - inversion Hr. simpl. lia.
  - eapply (Hatt _ _ 0) in Hr; [simpl; lia|]. intros e fs' x y z Hr'. inversion Hr'. simpl. lia.
  - set (rows := r1 :: r2 :: rest) in *.
    eapply (Hatt _ _ (4 * length rows - 4)) in Hr; [simpl in *; lia|].
    intros e fs' x y z ([dl ul] & d1 & fs1 & fs2 & -> & H1 & ([dr ur] & d2 & fs3 & fs4 & -> & H2 & H3)%runs_bind_inv)%runs_bind_inv.
    apply IHl in H1. apply IHr in H2. inversion H3; subst. rewrite !length_app. simpl.
    pose proof (mid_range r1 r2 rest) as Hmid. fold rows in Hmid. rewrite length_take in H1. rewrite length_drop in H2.
    assert (length rows = S (S (length rest))) as Hlen by done. lia.
Qed.
End isolate.
