(* ===== verification/Batcher.v ===== *)
(** The buffer between ingestion and ClickHouse: [internal/event/batcher.go].

    [Add] is called by any number of request goroutines; one goroutine runs
    [flush], which leaves the mutex while it inserts.  [Batcher] is the struct
    under the mutex; [World] adds the table [events], the totals the drop sink
    was told, the clock, and [added], the record of all events ever added.
    [judge] is what ClickHouse thinks of a batch that reaches it. *)
From stdpp Require Import base tactics list gmap strings relations.
From Stdlib Require Import ZArith Lia.
From coqutil Require Import Datatypes.RecordSetters.
From S2P Require Import Prelude.
From S2P Require Import Prog.
From S2P Require Import Environment.
From S2P Require Import Chbatch.

Import RecordSetters.TriangleBracketNotations.
Open Scope Z_scope.
Open Scope go_scope.

(** ** Data *)

Record Event := mkEvent {
  Ev_ID : string; OrgID : Z; Ev_ProjectID : Z; IssueID : Z; Timestamp : Z;
  Level : string; Message : string; ExceptionType : string; ExceptionValue : string; Stacktrace : string;
  Environment : string; Release : string; ServerName : string; SDK : string;
  UserID : string; UserIP : string; UserEmail : string; Tags : list (string * string);
  Contexts : string; Breadcrumbs : string; Request : string; TraceID : string; SpanID : string }.

Definition len (s : string) : Z := Z.of_nat (String.length s).
Definition rowOverheadBytes : Z := 64.

Definition eventBytes (ev : Event) : Z :=
  let n := len (Ev_ID ev) + len (Level ev) + len (Message ev) + len (ExceptionType ev) + len (ExceptionValue ev) +
    len (Stacktrace ev) + len (Environment ev) + len (Release ev) + len (ServerName ev) + len (SDK ev) +
    len (UserID ev) + len (UserIP ev) + len (UserEmail ev) + len (Contexts ev) + len (Breadcrumbs ev) +
    len (Request ev) + len (TraceID ev) + len (SpanID ev) in
  foldl (fun n '(k, v) => n + (len k + len v)) n (Tags ev) + rowOverheadBytes.

Record Batcher := mkBatcher {
  buf : list Event; bufBytes : Z; dropped : Z; insertFails : Z; failStreak : Z;
  pendingDrops : gmap Z Z; onDrop : bool; maxBuf : Z; maxBufBytes : Z; batchSize : Z; kick : bool }.

Record World := mkWorld {
  batcher : Batcher; events : list Event; drop_totals : gmap Z Z; clock : Z; added : list Event }.

Definition blen (b : Batcher) : Z := Z.of_nat (length (buf b)).

(** [m[k] += n] on a Go map. *)
Definition add_to (k n : Z) (m : gmap Z Z) : gmap Z Z := <[k := default 0 (m !! k) + n]> m.

Definition NewBatcher : Batcher := mkBatcher [] 0 0 0 0 ∅ false 10000 (Z.shiftl 256 20) 1000 false.

(** ** Under the mutex *)

Definition bytes_of (evs : list Event) : Z := foldr (fun ev n => eventBytes ev + n) 0 evs.

Arguments bytes_of : simpl never.
Arguments eventBytes : simpl never.

Lemma bytes_of_cons ev evs : bytes_of (ev :: evs) = eventBytes ev + bytes_of evs.
Proof. done. Qed.

(** The second loop of [trimLocked]: the last row always stays. *)
Fixpoint trim_bytes (evs : list Event) (bytes max : Z) : list Event * Z :=
  match evs with
  | [] => (evs, bytes)
  | ev :: rest =>
      match rest with
      | [] => (evs, bytes)
      | _ => if max <? bytes then trim_bytes rest (bytes - eventBytes ev) max else (evs, bytes)
      end
  end.

Definition charge (ev : Event) (m : gmap Z Z) : gmap Z Z :=
  if 0 <? OrgID ev then add_to (OrgID ev) 1 m else m.

Definition trimLocked (b : Batcher) : bool * Batcher :=
  let over := Z.to_nat (blen b - maxBuf b) in
  let '(rest, bytes) := trim_bytes (drop over (buf b)) (bufBytes b - bytes_of (take over (buf b))) (maxBufBytes b) in
  let gone := (length (buf b) - length rest)%nat in
  if (gone =? 0)%nat then (false, b <| bufBytes := bytes |>) else
  (true, b <| buf := rest |> <| bufBytes := bytes |>
    <| pendingDrops := foldl (fun m ev => charge ev m) (pendingDrops b) (take gone (buf b)) |>
    <| dropped := dropped b + Z.of_nat gone |>).

Definition recountLocked (b : Batcher) : Batcher := b <| bufBytes := bytes_of (buf b) |>.

Definition takeDropsLocked (b : Batcher) : (gmap Z Z * bool) * Batcher :=
  if bool_decide (pendingDrops b = ∅) then ((∅, onDrop b), b)
  else ((pendingDrops b, onDrop b), b <| pendingDrops := ∅ |>).

(** The critical section of [Add]: what to report, and whether to kick. *)
Definition add_locked (ev : Event) (b : Batcher) : (gmap Z Z * bool * bool) * Batcher :=
  let b := (trimLocked (b <| buf := buf b ++ [ev] |> <| bufBytes := bufBytes b + eventBytes ev |>)).2 in
  let full := batchSize b <=? blen b in
  let '(drops, sink, b) := takeDropsLocked b in
  (drops, sink, full, b).

(** The first section of [flush]: the batch leaves the buffer. *)
Definition take_batch (b : Batcher) : option (list Event) * Batcher :=
  if bool_decide (buf b = []) then (None, b) else
  let n := Z.to_nat (if batchSize b <? blen b then batchSize b else blen b) in
  (Some (take n (buf b)), recountLocked (b <| buf := drop n (buf b) |>)).

Definition bump_streak (b : Batcher) : Z * Batcher := (failStreak b + 1, b <| failStreak := failStreak b + 1 |>).

(** A batch, or what is left of it, back in front of the buffer. *)
Definition return_rows (rows : list Event) (b : Batcher) : Batcher :=
  (trimLocked (recountLocked (b <| buf := rows ++ buf b |>))).2.

Definition settle_isolated (batch : list Event) (gone : Z) (unresolved : list Event) (b : Batcher) : Batcher :=
  let b := b <| dropped := dropped b + gone |> <| insertFails := insertFails b + 1 |> in
  let b := if (0 <? gone) || (length unresolved <? length batch)%nat then b <| failStreak := 0 |> else b in
  if bool_decide (unresolved = []) then b else return_rows unresolved b.

Definition settle_failed (batch : list Event) (b : Batcher) : Batcher :=
  (return_rows batch b) <| insertFails := insertFails b + 1 |>.

Definition settle_stored (b : Batcher) : bool * Batcher := (negb (bool_decide (buf b = [])), b <| failStreak := 0 |>).

Definition SetMaxBufferBytes (n : Z) (b : Batcher) : Batcher := if n <=? 0 then b else b <| maxBufBytes := n |>.

(** ** Programs *)

Definition under_mu {A} (f : Batcher -> A * Batcher) : prog World A :=
  locked (fun w => let '(a, b) := f (batcher w) in (a, w <| batcher := b |>)).

Definition update_mu (f : Batcher -> Batcher) : prog World () := under_mu (fun b => (tt, f b)).

Definition kick_now : prog World () := update_mu (fun b => b <| kick := true |>).

Definition reportDrops (sink : bool) (drops : gmap Z Z) : prog World () :=
  if sink then pmodify (fun w => w <| drop_totals := map_fold add_to (drop_totals w) drops |>) else mret tt.

Definition Add (ev : Event) : prog World () :=
  '(drops, sink, full) ← locked (fun w =>
    let '(r, b) := add_locked ev (batcher w) in (r, w <| batcher := b |> <| added := added w ++ [ev] |>));
  _ ← reportDrops sink drops;
  if full : bool then kick_now else mret tt.

Definition emitDrops : prog World () :=
  '(drops, sink) ← under_mu takeDropsLocked;
  reportDrops sink drops.

Definition poisonThreshold : Z := 3.
Definition WriteBudget : Z := 7 * second.

(** What the driver says of a broken connection: no exception of the server. *)
Definition connection_error : ch_error := mkChError false false None.

Section flush.
Context (judge : list Event -> option ch_error).

Definition insert (rows : list Event) : prog World (option ch_error) :=
  Step (fun f w => match f, judge rows with FNone, None | FLostReply, None => w <| events := events w ++ rows |> | _, _ => w end)
       (fun f w => Ret (match f with FNone => judge rows | _ => Some connection_error end)).

Definition flush_batch (deadline : Z) (batch : list Event) : prog World () :=
  err ← insert batch;
  match err with
  | Some _ =>
      streak ← under_mu bump_streak;
      if IsServerDataError err || (poisonThreshold <=? streak) then
        '(gone, unresolved) ← IsolatePoison (fun w => deadline <=? clock w) insert IsServerDataError batch;
        update_mu (settle_isolated batch gone unresolved)
      else update_mu (settle_failed batch)
  | None =>
      more ← under_mu settle_stored;
      if more : bool then kick_now else mret tt
  end.

(** [flushDetached]: the deadline, then [flush]; [emitDrops] is deferred. *)
Definition flush : prog World () :=
  started ← pgets clock;
  batch ← under_mu take_batch;
  _ ← match batch with None => mret tt | Some batch => flush_batch (started + WriteBudget) batch end;
  emitDrops.

(** [closeDrain]: [done] is [ctx.Done] of the caller, [None] the fuel running out. *)
Fixpoint closeDrain (fuel : nat) (done : World -> bool) : prog World (option bool) :=
  match fuel with
  | O => mret None
  | S fuel =>
      n ← pgets (fun w => blen (batcher w));
      if n =? 0 then mret (Some true) else
      cancelled ← pgets done;
      if cancelled : bool then mret (Some false) else
      _ ← flush;
      left ← pgets (fun w => blen (batcher w));
      if left =? 0 then mret (Some true) else
      cancelled ← (if n <=? left then pgets done else mret false);
      if cancelled : bool then mret (Some false) else closeDrain fuel done
  end.
End flush.

(** ** The buffer keeps its bounds *)

Record bounded (b : Batcher) : Prop := {
  bd_bytes : bufBytes b = bytes_of (buf b);
  bd_rows : blen b <= maxBuf b;
  bd_weight : bufBytes b <= maxBufBytes b \/ blen b <= 1;
  bd_positive : 0 < maxBuf b }.

Lemma bytes_of_app l l' : bytes_of (l ++ l') = bytes_of l + bytes_of l'.
Proof. induction l as [|x l IH]; [done|]. cbn [app]. rewrite !bytes_of_cons, IH. lia. Qed.

Lemma trim_bytes_spec max : forall evs bytes, bytes = bytes_of evs ->
  exists gone rest, trim_bytes evs bytes max = (rest, bytes_of rest) /\ evs = gone ++ rest /\
    (bytes_of rest <= max \/ (length rest <= 1)%nat).
Proof.
  induction evs as [|ev rest IH]; intros bytes ->; [by exists [], []; simpl; auto|].
  cbn [trim_bytes]. destruct rest as [|ev' rest]; [by exists [], [ev]; simpl; auto|].
  destruct (Z.ltb_spec max (bytes_of (ev :: ev' :: rest))) as [Hlt|Hle]; [|by exists [], (ev :: ev' :: rest); auto].
  destruct (IH (bytes_of (ev :: ev' :: rest) - eventBytes ev)) as (gone & r & -> & -> & Hb); [rewrite bytes_of_cons; lia|].
  by exists (ev :: gone), r.
Qed.

Lemma eventBytes_pos ev : 0 < eventBytes ev.
Proof.
  unfold eventBytes, rowOverheadBytes. cbv zeta.
  assert (forall n, 0 <= n -> 0 <= foldl (fun n '(k, v) => n + (len k + len v)) n (Tags ev)) as Hf.
  { induction (Tags ev) as [|[k v] l IH]; intros n Hn; [done|]. apply IH. unfold len. lia. }
  match goal with |- context [foldl _ ?n _] => specialize (Hf n) end. unfold len in *. lia.
Qed.

(** The settings, which no section changes. *)
Definition same_settings (b b' : Batcher) : Prop :=
  onDrop b' = onDrop b /\ maxBuf b' = maxBuf b /\ maxBufBytes b' = maxBufBytes b /\ batchSize b' = batchSize b.

Lemma trimLocked_spec b : bufBytes b = bytes_of (buf b) -> 0 < maxBuf b ->
  exists gone, buf b = gone ++ buf (trimLocked b).2 /\ bounded (trimLocked b).2 /\
    dropped (trimLocked b).2 = dropped b + Z.of_nat (length gone) /\
    pendingDrops (trimLocked b).2 = foldl (fun m ev => charge ev m) (pendingDrops b) gone /\
    same_settings b (trimLocked b).2.
Proof.
  intros Hb Hmax. unfold trimLocked. set (over := Z.to_nat (blen b - maxBuf b)).
  assert (bytes_of (buf b) = bytes_of (take over (buf b)) + bytes_of (drop over (buf b))) as Hsplit
    by (by rewrite <- bytes_of_app, take_drop).
  destruct (trim_bytes_spec (maxBufBytes b) (drop over (buf b)) (bufBytes b - bytes_of (take over (buf b))))
    as (gone & rest & -> & Hrest & Hw); [lia|].
  assert (buf b = (take over (buf b) ++ gone) ++ rest) as Hbuf by (by rewrite <- app_assoc, <- Hrest, take_drop).
  assert (length (buf b) - length rest = length (take over (buf b) ++ gone))%nat as Hlen.
  { rewrite Hbuf at 1. rewrite length_app. lia. }
  assert (Z.of_nat (length rest) <= maxBuf b) as Hrows.
  { assert (length rest <= length (drop over (buf b)))%nat by (rewrite Hrest, length_app; lia).
    rewrite length_drop in *. unfold over, blen in *. lia. }
  rewrite Hlen. exists (take over (buf b) ++ gone).
  clear Hsplit Hlen Hrest. revert Hbuf. generalize (take over (buf b) ++ gone). clear over gone. intros gone Hbuf.
  destruct b as [evs bytes n fails streak pend sink mx mb bs k]. unfold blen in *. cbn [buf maxBuf maxBufBytes] in *. subst evs.
  destruct gone as [|x gone]; cbn [length Nat.eqb]; split_and!; try done.
  - constructor; [done..| |done]. unfold blen; cbn; unfold constant. lia.
  - cbn; unfold constant; simpl. lia.
  - constructor; [done..| |done]. unfold blen; cbn; unfold constant. lia.
  - change (S (length gone)) with (length (x :: gone)). by rewrite take_app_length.
Qed.

(** ** Every event is accounted for *)

Definition look (m : gmap Z Z) (k : Z) : Z := default 0 (m !! k).
Definition of_org (org : Z) (evs : list Event) : Z := Z.of_nat (length (List.filter (fun ev => OrgID ev =? org) evs)).

Lemma look_empty k : look ∅ k = 0.
Proof. done. Qed.

Lemma look_add_to k n m k' : look (add_to k n m) k' = look m k' + (if k =? k' then n else 0).
Proof.
  unfold look, add_to. destruct (Z.eqb_spec k k') as [->|]; [by rewrite lookup_insert_eq|].
  rewrite lookup_insert_ne by done. lia.
Qed.

Lemma look_add_all drops m k : look (map_fold add_to m drops) k = look m k + look drops k.
Proof.
  revert k. apply (map_fold_weak_ind (fun r drops => forall k, look r k = look m k + look drops k)).
  - intros k. unfold look. rewrite lookup_empty. simpl. lia.
  - intros i x drops' r Hi IH k. rewrite look_add_to, IH. unfold look. destruct (Z.eqb_spec i k) as [->|].
    + rewrite lookup_insert_eq, Hi. simpl. lia.
    + rewrite lookup_insert_ne by done. lia.
Qed.

Lemma of_org_app org l l' : of_org org (l ++ l') = of_org org l + of_org org l'.
Proof. unfold of_org. rewrite List.filter_app, length_app. lia. Qed.

Lemma look_charge_all evs m org : 0 < org -> look (foldl (fun m ev => charge ev m) m evs) org = look m org + of_org org evs.
Proof.
  intros Horg. revert m. induction evs as [|ev evs IH]; intros m; [unfold of_org; simpl; lia|]. cbn [foldl]. rewrite IH.
  assert (of_org org (ev :: evs) = (if OrgID ev =? org then 1 else 0) + of_org org evs) as ->.
  { unfold of_org. simpl. destruct (OrgID ev =? org); simpl; lia. }
  unfold charge. destruct (Z.ltb_spec 0 (OrgID ev)); [rewrite look_add_to; lia|].
  destruct (Z.eqb_spec (OrgID ev) org); lia.
Qed.

Section accounting.
Context (judge : list Event -> option ch_error) (exact : bool).

(** ClickHouse refuses the row alone, for what it holds. *)
Definition poisonous (ev : Event) : Prop := IsServerDataError (judge [ev]) = true.

(** [fl] is in the hands of [flush], [gone] given up but not yet counted and
    [taken] on its way to the sink.  [dup] are rows stored twice: the reply of
    an insert that succeeded was lost. *)
Definition accounted (taken : Z -> Z) (fl gone : list Event) (w : World) : Prop :=
  exists over poisoned dup,
    dropped (batcher w) = Z.of_nat (length over) + Z.of_nat (length poisoned) /\
    added w ++ dup ≡ₚ events w ++ over ++ poisoned ++ gone ++ fl ++ buf (batcher w) /\
    (exact = true -> dup = []) /\ Forall poisonous poisoned /\
    (onDrop (batcher w) = true -> forall org, 0 < org ->
      look (drop_totals w) org + look (pendingDrops (batcher w)) org + taken org = of_org org over).

Definition inv (taken : Z -> Z) (fl gone : list Event) (w : World) : Prop :=
  bounded (batcher w) /\ accounted taken fl gone w.

Lemma accounted_perm taken fl fl' gone gone' w :
  fl ≡ₚ fl' -> gone ≡ₚ gone' -> accounted taken fl gone w -> accounted taken fl' gone' w.
Proof.
  intros Hfl Hgone (over & poisoned & dup & ? & Hp & ? & ? & ?). exists over, poisoned, dup. split_and!; try done.
  by rewrite Hp, Hfl, Hgone.
Qed.

Lemma trim_inv taken fl gone w b :
  bufBytes b = bytes_of (buf b) -> 0 < maxBuf b ->
  accounted taken fl gone (w <| batcher := b |>) -> inv taken fl gone (w <| batcher := (trimLocked b).2 |>).
Proof.
  intros Hb Hm (over & poisoned & dup & Hd & Hp & He & Hpo & Horg).
  destruct (trimLocked_spec b Hb Hm) as (trimmed & Hbuf & Hbd & Hdr & Hpend & Hset). split; [done|].
  exists (over ++ trimmed), poisoned, dup. cbn in *. unfold constant in *. rewrite Hbuf in Hp. split_and!; try done.
  - rewrite Hdr, length_app. lia.
  - rewrite Hp. solve_Permutation.
  - rewrite (proj1 Hset), Hpend. intros Hs org Ho. rewrite look_charge_all, of_org_app by done. specialize (Horg Hs org Ho). lia.
Qed.

Lemma take_drops_inv taken fl gone w : inv taken fl gone w ->
  inv (fun org => taken org + look (takeDropsLocked (batcher w)).1.1 org) fl gone
    (w <| batcher := (takeDropsLocked (batcher w)).2 |>) /\
  (takeDropsLocked (batcher w)).1.2 = onDrop (takeDropsLocked (batcher w)).2.
Proof.
  destruct w as [b evs tot ck ad]. intros [Hb (over & poisoned & dup & ? & ? & ? & ? & Horg)]. cbn in *. unfold takeDropsLocked.
  destruct (bool_decide_reflect (pendingDrops b = ∅)) as [He|_]; cbn; unfold constant; (split; [|done]).
  - split; [done|]. exists over, poisoned, dup. split_and!; try done. intros Hs org Ho. rewrite look_empty, <- (Horg Hs org Ho). cbn. lia.
  - destruct b. cbn in *. split; [by destruct Hb; constructor|]. exists over, poisoned, dup. split_and!; try done.
    intros Hs org Ho. rewrite <- (Horg Hs org Ho). cbn. unfold constant. rewrite look_empty. lia.
Qed.

Lemma report_inv taken drops sink fl gone w :
  inv (fun org => taken org + look drops org) fl gone w -> sink = onDrop (batcher w) ->
  inv taken fl gone (exec0 (reportDrops sink drops) w).2.
Proof.
  destruct w as [b evs tot ck ad]. intros [Hb (over & poisoned & dup & ? & ? & ? & ? & Horg)] ->. cbn in *. unfold reportDrops.
  destruct (onDrop b) eqn:Hs; cbn; (split; [exact Hb|]); exists over, poisoned, dup; cbn; split_and!; try done.
  - intros _ org Ho. unfold constant. rewrite look_add_all. specialize (Horg eq_refl org Ho). lia.
  - by rewrite Hs.
Qed.

(** ** Others add events, and time passes *)

Inductive adds : World -> World -> Prop :=
| adds_event ev w : adds w (exec0 (Add ev) w).2
| adds_time t w : clock w <= t -> adds w (w <| clock := t |>).

Lemma add_locked_inv taken fl gone ev w : inv taken fl gone w ->
  let '(drops, sink, full, b) := add_locked ev (batcher w) in
  inv (fun org => taken org + look drops org) fl gone (w <| batcher := b |> <| added := added w ++ [ev] |>) /\ sink = onDrop b.
Proof.
  intros [Hb (over & poisoned & dup & ? & Hp & ? & ? & Horg)]. unfold add_locked.
  set (b1 := (batcher w) <| buf := buf (batcher w) ++ [ev] |> <| bufBytes := bufBytes (batcher w) + eventBytes ev |>).
  assert (inv taken fl gone (w <| added := added w ++ [ev] |> <| batcher := (trimLocked b1).2 |>)) as Hinv.
  { destruct w as [[] evs tot ck ad]. destruct Hb as [Hbytes _ _ Hpos]. apply trim_inv; cbn in *; unfold constant in *.
    - by rewrite Hbytes, bytes_of_app, bytes_of_cons, Z.add_0_r.
    - done.
    - exists over, poisoned, dup. cbn. split_and!; try done. rewrite <- (assoc_L app), (comm app [ev] dup), (assoc_L app ad), Hp. solve_Permutation. }
  apply take_drops_inv in Hinv. destruct w as [b evs tot ck ad]. cbn in Hinv. fold b1 in Hinv. unfold constant in Hinv at 1.
  destruct (takeDropsLocked (trimLocked b1).2) as [[drops sink] b2] eqn:Ht. cbn in *. unfold constant in *. rewrite Ht in Hinv. exact Hinv.
Qed.

Lemma kick_inv taken fl gone w : inv taken fl gone w -> inv taken fl gone (exec0 kick_now w).2.
Proof. destruct w as [[] evs tot ck ad]. intros [[] Ha]. split; [by constructor|exact Ha]. Qed.

Lemma adds_onDrop w w' : adds w w' -> onDrop (batcher w) = onDrop (batcher w').
Proof.
  intros [ev w0|t w0 _]; [|by destruct w0]. unfold Add. autorewrite with exec0.
  destruct (add_locked ev (batcher w0)) as [[[drops sink] full] b] eqn:Ha. cbn [fst snd].
  assert (onDrop b = onDrop (batcher w0)) as Hb.
  { unfold add_locked, takeDropsLocked, trimLocked in Ha. destruct w0 as [[]]. cbn in *.
    repeat (case_match; simplify_eq; cbn in *; unfold constant in * ); done. }
  destruct w0 as [b0]. destruct sink, full; autorewrite with exec0; cbn; by destruct b.
Qed.

Lemma adds_kept taken fl gone : kept adds (inv taken fl gone).
Proof.
  intros w w' Hadd Hw. destruct Hadd as [ev w|t w _].
  - pose proof (add_locked_inv taken fl gone ev w Hw) as Ha. unfold Add. autorewrite with exec0.
    destruct (add_locked ev (batcher w)) as [[[drops sink] full] b]. destruct Ha as [Hinv Hsink]. cbn [fst snd]. rewrite exec0_bind.
    assert (inv taken fl gone (exec0 (reportDrops sink drops) (w <| batcher := b |> <| added := added w ++ [ev] |>)).2) as Hr.
    { apply report_inv; [exact Hinv|]. by destruct w. }
    destruct full; [by apply kick_inv|exact Hr].
  - destruct w. exact Hw.
Qed.

(** ** One flush *)

(** With [exact], no insert that succeeded is reported as failed. *)
Definition met (f : fault) : Prop := exact = true -> f <> FLostReply.

Abbreviation inv0 := (inv (fun _ => 0)).

#[export] Instance insert_law : InsertLaw (insert judge) adds met (fun fl gone => inv0 fl gone)
  (fun rows e => e = connection_error \/ judge rows = Some e).
Proof.
  constructor.
  - intros fl fl' gone gone' w Hfl Hgone [Hb Ha]. split; [done|]. by apply (accounted_perm _ fl _ gone).
  - intros fl gone. apply adds_kept.
  - intros rows fl gone. unfold insert. eapply ens_step; [apply adds_kept| |].
    { intros [e|] w w' Hw; [intros [? ?]; split; [by eapply adds_kept|done]|by apply adds_kept]. }
    intros f w Hf [Hb (over & poisoned & dup & ? & Hp & Hex & ? & ?)].
    destruct f; [| |destruct (judge rows) as [e|] eqn:Hj].
    + destruct (judge rows) as [e|] eqn:Hj; [split; [|by right]|]; (split; [by destruct w|]).
      * by exists over, poisoned, dup.
      * exists over, poisoned, dup. destruct w. cbn in *. unfold constant. split_and!; try done. rewrite Hp. solve_Permutation.
    + split; [|by left]. split; [done|]. by exists over, poisoned, dup.
    + split; [|by left]. split; [done|]. by exists over, poisoned, dup.
    + split; [|by left]. split; [by destruct w|]. exists over, poisoned, (dup ++ rows). destruct w. cbn in *. unfold constant.
      split_and!; try done.
      * rewrite (assoc_L app), Hp. solve_Permutation.
      * intros He. by destruct (Hf He).
  - intros r fl gone w [Hb Ha]. split; [done|]. destruct Ha as (over & poisoned & dup & ? & Hp & ? & ? & ?).
    exists over, poisoned, dup. split_and!; try done. rewrite Hp. solve_Permutation.
Qed.

Lemma bad_poisonous r : bad IsServerDataError (fun rows e => e = connection_error \/ judge rows = Some e) r -> poisonous r.
Proof. intros (e & [->|Hj] & He); [done|]. unfold poisonous. by rewrite Hj. Qed.

Lemma return_inv rows fl gone w : inv0 (rows ++ fl) gone w -> inv0 fl gone (w <| batcher := return_rows rows (batcher w) |>).
Proof.
  intros [Hb (over & poisoned & dup & ? & Hp & ? & ? & Horg)]. destruct Hb as [_ _ _ Hpos]. unfold return_rows.
  apply trim_inv; destruct w as [[] evs tot ck ad]; cbn in *; unfold constant; [done|done|].
  exists over, poisoned, dup. cbn. unfold constant. split_and!; try done. rewrite Hp. solve_Permutation.
Qed.

Lemma settle_isolated_inv batch gone unresolved g w :
  Z.of_nat (length g) = gone -> Forall poisonous g -> inv0 unresolved g w ->
  inv0 [] [] (w <| batcher := settle_isolated batch gone unresolved (batcher w) |>).
Proof.
  intros <- Hg [Hb (over & poisoned & dup & Hd & Hp & ? & ? & Horg)]. unfold settle_isolated.
  set (b1 := (batcher w) <| dropped := dropped (batcher w) + Z.of_nat (length g) |> <| insertFails := insertFails (batcher w) + 1 |>).
  set (b2 := if (0 <? Z.of_nat (length g)) || (length unresolved <? length batch)%nat then b1 <| failStreak := 0 |> else b1).
  assert (inv0 (unresolved ++ []) [] (w <| batcher := b2 |>)) as Hinv.
  { assert (buf b2 = buf (batcher w) /\ dropped b2 = dropped (batcher w) + Z.of_nat (length g) /\ pendingDrops b2 = pendingDrops (batcher w) /\
      onDrop b2 = onDrop (batcher w) /\ bounded b2) as (E1 & E2 & E3 & E4 & Hb2).
    { unfold b2, b1. destruct w as [[]]. destruct Hb. cbn in *. by destruct (_ || _); split_and!; try constructor. }
    clearbody b2. split; [by destruct w|]. exists over, (poisoned ++ g), dup. destruct w as [b evs tot ck ad]. cbn in *. unfold constant in *.
    rewrite E1, E2, E3, E4. split_and!; try done; [rewrite length_app; lia|rewrite Hp; solve_Permutation|by apply Forall_app]. }
  case_bool_decide as Hu; [subst unresolved; exact Hinv|].
  apply return_inv in Hinv. destruct w. exact Hinv.
Qed.

Lemma take_batch_inv w : inv0 [] [] w ->
  inv0 (default [] (take_batch (batcher w)).1) [] (w <| batcher := (take_batch (batcher w)).2 |>).
Proof.
  intros [Hb (over & poisoned & dup & ? & Hp & ? & ? & Horg)]. unfold take_batch.
  case_bool_decide as He; [destruct w; by split; [|exists over, poisoned, dup]|].
  destruct w as [[] evs tot ck ad]. cbn in *. unfold blen. cbn. generalize (Z.to_nat (if batchSize0 <? Z.of_nat (length buf0) then batchSize0 else Z.of_nat (length buf0))). intros n.
  destruct Hb as [Hby Hr Hw Hpos]. unfold blen in *. cbn in *. split.
  - assert (bytes_of buf0 = bytes_of (take n buf0) + bytes_of (drop n buf0)) by (by rewrite <- bytes_of_app, take_drop).
    assert (0 <= bytes_of (take n buf0)).
    { generalize (take n buf0). intros l. induction l as [|x l IH]; [done|]. rewrite bytes_of_cons. pose proof (eventBytes_pos x). lia. }
    constructor; cbn; unfold constant, blen; cbn; rewrite ?length_drop; try done; lia.
  - exists over, poisoned, dup. cbn. unfold constant. split_and!; try done. rewrite Hp, <- (take_drop n buf0) at 1. solve_Permutation.
Qed.

(** A section that leaves the account as it is. *)
Definition quiet {A} (f : Batcher -> A * Batcher) : Prop := forall taken fl gone w,
  inv taken fl gone w -> inv taken fl gone (w <| batcher := (f (batcher w)).2 |>).

Lemma quiet_ens {A} (f : Batcher -> A * Batcher) fl gone :
  quiet f -> ensures adds met (inv0 fl gone) (under_mu f) (fun _ => inv0 fl gone).
Proof.
  intros Hf. apply ens_locked; [apply adds_kept|intros _; apply adds_kept|]. intros w Hw. apply Hf in Hw.
  by destruct (f (batcher w)).
Qed.

Lemma bump_streak_quiet : quiet bump_streak.
Proof. intros taken fl gone [[] evs tot ck ad] [[] Ha]. split; [by constructor|exact Ha]. Qed.
Lemma settle_stored_quiet : quiet settle_stored.
Proof. intros taken fl gone [[] evs tot ck ad] [[] Ha]. split; [by constructor|exact Ha]. Qed.
Lemma kick_quiet : quiet (fun b => (tt, b <| kick := true |>)).
Proof. intros taken fl gone [[] evs tot ck ad] [[] Ha]. split; [by constructor|exact Ha]. Qed.

Lemma update_ens (f : Batcher -> Batcher) (S Q : World -> Prop) :
  kept adds S -> kept adds Q -> (forall w, S w -> Q (w <| batcher := f (batcher w) |>)) ->
  ensures adds met S (update_mu f) (fun _ => Q).
Proof. intros HS HQ Hf. apply ens_locked; [done|by intros _|done]. Qed.

Lemma flush_batch_ens deadline batch :
  ensures adds met (inv0 batch []) (flush_batch judge deadline batch) (fun _ => inv0 [] []).
Proof.
  unfold flush_batch. eapply ens_bind.
  { eapply ens_weaken; [apply (il_insert (insert judge) adds met (I := fun fl gone => inv0 fl gone) batch [] [])|intros w; by rewrite app_nil_r|intros r w Hx; exact Hx]. }
  intros [e|]; cbv beta iota.
  - eapply (ens_bind _ _ _ _ _ (fun _ => inv0 batch [])).
    { eapply ens_weaken; [apply (quiet_ens bump_streak batch []), bump_streak_quiet|intros w [Hw _]; by rewrite app_nil_r in Hw|done]. }
    intros streak. destruct (_ || _).
    + eapply ens_bind.
      { eapply ens_weaken; [apply (IsolatePoison_ens _ _ _ adds met (fun fl gone => inv0 fl gone) _ batch [] [])|intros w; by rewrite app_nil_r|intros r w Hx; exact Hx]. }
      intros [gone unresolved]. cbv beta iota. apply update_ens; [eapply resolved_kept, insert_law|apply adds_kept|].
      intros w (g & Hg & Hbad & _ & Hw). cbn [snd fst] in *. rewrite !app_nil_r in Hw. apply (settle_isolated_inv _ _ _ g); [done| |exact Hw].
      eapply Forall_impl; [exact Hbad|apply bad_poisonous].
    + apply update_ens; [apply adds_kept..|]. intros w Hw. rewrite <- (app_nil_r batch) in Hw. apply return_inv in Hw.
      unfold settle_failed. destruct w as [b evs tot ck ad]. cbn in *. unfold constant in *. destruct (return_rows batch b). destruct Hw as [[] Ha].
      split; [by constructor|exact Ha].
  - eapply ens_bind; [apply quiet_ens, settle_stored_quiet|]. intros [|]; [apply quiet_ens, kick_quiet|].
    apply ens_ret; [apply adds_kept|done].
Qed.

Lemma flush_ens : ensures adds met (inv0 [] []) (flush judge) (fun _ => inv0 [] []).
Proof.
  unfold flush. eapply (ens_bind _ _ _ _ _ (fun _ => inv0 [] [])); [apply ens_pgets; [apply adds_kept|intros _; apply adds_kept|done]|].
  intros started. eapply (ens_bind _ _ _ _ _ (fun b => inv0 (default [] b) [])).
  { apply ens_locked; [apply adds_kept|intros b; apply adds_kept|]. intros w Hw. apply take_batch_inv in Hw.
    by destruct (take_batch (batcher w)). }
  intros batch. eapply (ens_bind _ _ _ _ _ (fun _ => inv0 [] [])).
  { destruct batch as [batch|]; [apply flush_batch_ens|]. apply ens_ret; [apply adds_kept|done]. }
  intros _. unfold emitDrops.
  eapply (ens_bind _ _ _ _ _ (fun r w => inv (fun org => 0 + look r.1 org) [] [] w /\ r.2 = onDrop (batcher w))).
  { apply ens_locked; [apply adds_kept| |].
    - intros r w w' Hadd [Hw Hs]. split; [by eapply adds_kept|]. rewrite Hs. by apply adds_onDrop.
    - intros w Hw. apply take_drops_inv in Hw. destruct w as [b evs tot ck ad]. cbn in *. by destruct (takeDropsLocked b). }
  intros [drops sink]. cbv beta iota. unfold reportDrops. destruct sink.
  - apply ens_pmodify; [| apply adds_kept|].
    + intros w w' Hadd [Hw Hs]. split; [by eapply adds_kept|]. rewrite Hs. by apply adds_onDrop.
    + intros w [Hw Hs]. exact (report_inv _ drops true [] [] w Hw Hs).
  - apply ens_ret; [|intros w [Hw Hs]; exact (report_inv _ drops false [] [] w Hw Hs)].
    intros w w' Hadd [Hw Hs]. split; [by eapply adds_kept|]. rewrite Hs. by apply adds_onDrop.
Qed.
End accounting.

(** ** What holds of every run *)

Section runs.
Context (judge : list Event -> option ch_error) (exact : bool).

(** Nothing is in the hands of a flush. *)
Definition settled (w : World) : Prop := inv judge exact (fun _ => 0) [] [] w.

Lemma closeDrain_ens fuel done :
  ensures adds (met exact) settled (closeDrain judge fuel done) (fun _ => settled).
Proof.
  assert (kept adds settled) as HS by apply adds_kept.
  assert (forall A (g : World -> A), ensures adds (met exact) settled (pgets g) (fun _ => settled)) as Hget.
  { intros A g. by apply ens_pgets. }
  induction fuel as [|fuel IH]; [by apply ens_ret|]. cbn [closeDrain].
  eapply ens_bind; [apply Hget|]. intros n. cbv beta. destruct (n =? 0); [by apply ens_ret|].
  eapply ens_bind; [apply Hget|]. intros [|]; cbv beta; [by apply ens_ret|].
  eapply ens_bind; [apply flush_ens|]. intros u. cbv beta. eapply ens_bind; [apply Hget|]. intros left. cbv beta.
  destruct (left =? 0); [by apply ens_ret|].
  eapply (ens_bind _ _ _ _ _ (fun _ => settled)); [destruct (n <=? left); [apply Hget|by apply ens_ret]|].
  intros [|]; cbv beta; [by apply ens_ret|exact IH].
Qed.

End runs.

(** ** Isolation *)

(** Others act, and the deadline is still ahead. *)
Definition adds_before (deadline : Z) (w w' : World) : Prop := adds w w' /\ clock w' < deadline.

Section isolation.
Context (judge : list Event -> option ch_error) (f : Event -> bool) (deadline : Z) (w0 : World) (rows0 : list Event).

Definition moved (fl gone : list Event) (w : World) : Prop :=
  clock w < deadline /\ events w ++ gone ++ fl ≡ₚ events w0 ++ rows0.

Lemma adds_events w w' : adds w w' -> events w' = events w.
Proof.
  intros [ev w1|t w1 _]; [|by destruct w1]. unfold Add. autorewrite with exec0.
  destruct (add_locked ev (batcher w1)) as [[[drops sink] full] b]. cbn [fst snd].
  destruct w1, sink, full; by autorewrite with exec0.
Qed.

#[export] Instance moved_law : InsertLaw (insert judge) (adds_before deadline) (eq FNone) moved (fun rows e => judge rows = Some e).
Proof.
  assert (forall fl gone, kept (adds_before deadline) (moved fl gone)) as Hkept.
  { intros fl gone w w' [Hadd Hc] [_ Hm]. split; [done|]. by rewrite (adds_events w w'). }
  constructor; [|exact Hkept| |].
  - intros fl fl' gone gone' w Hfl Hgone [? Hm]. split; [done|]. by rewrite <- Hfl, <- Hgone.
  - intros rows fl gone. unfold insert. eapply ens_step; [apply Hkept| |].
    { intros [e|] w w' Hw; [intros [? ?]; split; [by eapply Hkept|done]|by apply Hkept]. }
    intros ? w <- [Hc Hm]. destruct (judge rows) as [e|] eqn:Hj; [by split|]. destruct w. split; [done|]. cbn in *. unfold constant.
    rewrite <- Hm. solve_Permutation.
  - intros r fl gone w [? Hm]. split; [done|]. rewrite <- Hm. solve_Permutation.
Qed.
End isolation.

Lemma filter_full {A} (f : A -> bool) (g rows : list A) :
  Forall (fun x => f x = true) g -> g ⊆+ rows -> length g = length (List.filter f rows) -> g ≡ₚ List.filter f rows.
Proof.
  intros Hg Hsub Hlen. apply submseteq_length_Permutation; [|lia].
  clear Hlen. apply submseteq_Permutation in Hsub as [rest ->]. rewrite List.filter_app.
  replace (List.filter f g) with g; [by apply submseteq_inserts_r|].
  induction Hg as [|x g Hx _ IH]; [done|]. simpl. rewrite Hx. by f_equal.
Qed.

Lemma filter_split {A} (f : A -> bool) (l : list A) : l ≡ₚ List.filter f l ++ List.filter (fun x => negb (f x)) l.
Proof.
  induction l as [|x l IH]; [done|]. simpl. destruct (f x); simpl; [by constructor|].
  rewrite <- Permutation_middle. by constructor.
Qed.

(** isolating a batch that ClickHouse refuses for the rows of [f] stores
    exactly the other rows and counts the rows of [f], in at most [2n - 1]
    inserts (two statements each, the clock and the insert), when the deadline
    stays ahead and no statement fails for another reason. *)
Theorem isolation_exact judge f deadline rows fs w out w' :
  (forall rows, match judge rows with
    | None => existsb f rows = false
    | Some e => existsb f rows = true /\ IsServerDataError (Some e) = true end) ->
  clock w < deadline -> Forall (eq FNone) fs ->
  runs (adds_before deadline) (IsolatePoison (fun w => deadline <=? clock w) (insert judge) IsServerDataError rows) fs w out w' ->
  out = (Z.of_nat (length (List.filter f rows)), []) /\
  events w' ≡ₚ events w ++ List.filter (fun ev => negb (f ev)) rows /\
  (length fs <= 4 * length rows - 2)%nat.
Proof.
  intros Hj Hc Hfs Hr.
  pose proof (IsolatePoison_ens _ _ _ _ (eq FNone) (moved deadline w rows) _ rows [] [] _ _ _ _ Hr Hfs) as Hres.
  rewrite app_nil_r in Hres. destruct Hres as (g & Hlen & Hbad & Hsub & Hm); [by split|].
  assert (kept (adds_before deadline) (fun w => clock w < deadline)) as Hkept by (by intros ? ? [_ ?]).
  assert (forall rows, ensures (adds_before deadline) (eq FNone) (fun w => clock w < deadline) (insert judge rows) (fun r w => clock w < deadline /\
    match r with None => existsb f rows = false | Some e => existsb f rows = true /\ IsServerDataError (Some e) = true end)) as Hins.
  { intros rows'. apply ens_step; [exact Hkept|intros r; by apply kept_conj|].
    intros ? w1 <- Hw1. split; [|exact (Hj rows')]. destruct (judge rows'); [done|by destruct w1]. }
  destruct (IsolatePoison_exact (fun w => deadline <=? clock w) (insert judge) IsServerDataError (adds_before deadline) (eq FNone) f
    (fun w => clock w < deadline) Hkept (fun d Hd => proj2 (Z.leb_gt _ _) Hd) Hins rows fs w out w' Hr Hfs Hc) as [_ ->]. cbn [fst snd] in *.
  split; [done|]. split.
  - assert (g ≡ₚ List.filter f rows) as Hg.
    { apply filter_full; [|by rewrite app_nil_r in Hsub|lia]. eapply Forall_impl; [exact Hbad|].
      intros r (e & He & Hp). specialize (Hj [r]). rewrite He in Hj. destruct Hj as [Hf _]. simpl in Hf. by rewrite orb_false_r in Hf. }
    destruct Hm as [_ Hm]. rewrite !app_nil_r, Hg in Hm. apply (Permutation_app_inv_l (List.filter f rows)).
    rewrite (comm app), Hm, (filter_split f rows) at 1. solve_Permutation.
  - eapply (IsolatePoison_attempts _ _ _ _ rows); [|exact Hr].
    intros rows' fs' x a y Hi. inversion Hi as [|q k h fs0 d d1 a0 d' He Hk]; subst. by inversion Hk.
Qed.

(** ** The drain ends *)

(** What the drain reads and moves. *)
Definition core (w : World) : list Event * list Event * Z := (events w, buf (batcher w), batchSize (batcher w)).

Lemma exec0_under_mu {A} (f : Batcher -> A * Batcher) w :
  exec0 (under_mu f) w = ((f (batcher w)).1, w <| batcher := (f (batcher w)).2 |>).
Proof. unfold under_mu. rewrite exec0_locked. by destruct (f (batcher w)). Qed.
#[export] Hint Rewrite @exec0_under_mu : exec0.

Lemma core_kick w : core (exec0 kick_now w).2 = core w.
Proof. by destruct w as [[]]. Qed.

Lemma core_emit w : core (exec0 emitDrops w).2 = core w.
Proof.
  unfold emitDrops. autorewrite with exec0. destruct w as [[] evs tot ck ad]. unfold takeDropsLocked.
  cbn [batcher pendingDrops]. destruct (bool_decide _); cbn; by destruct onDrop0.
Qed.

Lemma flush_up judge w : (forall rows, judge rows = None) -> 0 < batchSize (batcher w) ->
  exists n, (buf (batcher w) = [] \/ (0 < n)%nat) /\
    core (exec0 (flush judge) w).2 = (events w ++ take n (buf (batcher w)), drop n (buf (batcher w)), batchSize (batcher w)).
Proof.
  intros Hup Hbs. unfold flush. autorewrite with exec0. rewrite core_emit. change (exec0 (pgets clock) w) with (clock w, w). cbn [fst snd].
  unfold take_batch. case_bool_decide as He; cbn [fst snd].
  - exists 0%nat. split; [by left|]. destruct w as [[]]. cbn in *. subst. by rewrite app_nil_r.
  - set (n := Z.to_nat (if batchSize (batcher w) <? blen (batcher w) then batchSize (batcher w) else blen (batcher w))). exists n. split.
    { right. unfold n, blen. destruct (buf (batcher w)) as [|ev r]; [done|]. cbn [length].
      destruct (Z.ltb_spec (batchSize (batcher w)) (Z.of_nat (S (length r)))); lia. }
    unfold flush_batch. autorewrite with exec0. set (w1 := w <| batcher := _ |>).
    assert (exec0 (insert judge (take n (buf (batcher w)))) w1 = (None, w1 <| events := events w1 ++ take n (buf (batcher w)) |>)) as ->.
    { unfold exec0, insert. cbn. by rewrite Hup. }
    cbn [fst snd]. autorewrite with exec0. destruct (settle_stored _).1; rewrite ?core_kick; destruct w as [[]]; done.
Qed.

(** C40: while ClickHouse accepts everything, the final drain ends with an
    empty buffer and every event of it stored, in order, after at most one
    flush per event. *)
Theorem closeDrain_drains judge done fuel w :
  (forall rows, judge rows = None) -> 0 < batchSize (batcher w) -> (forall w, done w = false) ->
  (length (buf (batcher w)) < fuel)%nat ->
  (exec0 (closeDrain judge fuel done) w).1 = Some true /\
  core (exec0 (closeDrain judge fuel done) w).2 = (events w ++ buf (batcher w), [], batchSize (batcher w)).
Proof.
  intros Hup Hbs Hdone. revert w Hbs. induction fuel as [|fuel IH]; intros w Hbs Hfuel; [lia|].
  assert (forall A (g : World -> A) w, exec0 (pgets g) w = (g w, w)) as Hget by done.
  cbn [closeDrain]. rewrite exec0_bind, Hget. cbn [fst snd]. destruct (Z.eqb_spec (blen (batcher w)) 0) as [H0|H0].
  { assert (buf (batcher w) = []) as Hnil by (apply nil_length_inv; unfold blen in H0; lia).
    split; [done|]. unfold core. simpl. by rewrite Hnil, app_nil_r. }
  rewrite exec0_bind, Hget. cbn [fst snd]. rewrite Hdone, exec0_bind, exec0_bind, Hget. cbn [fst snd].
  destruct (flush_up judge w Hup Hbs) as (n & Hn & Hcore). remember (exec0 (flush judge) w).2 as w1 eqn:Hw1. clear Hw1. unfold core in Hcore.
  injection Hcore as Hev Hbuf Hbs1.
  assert (events w1 ++ buf (batcher w1) = events w ++ buf (batcher w)) as Hall by (by rewrite Hev, Hbuf, <- app_assoc, take_drop).
  rewrite <- Hall, <- Hbs1. destruct (Z.eqb_spec (blen (batcher w1)) 0) as [H1|H1].
  { assert (buf (batcher w1) = []) as Hnil by (apply nil_length_inv; unfold blen in H1; lia).
    split; [done|]. unfold core. simpl. by rewrite Hnil, app_nil_r. }
  assert (length (buf (batcher w1)) < length (buf (batcher w)))%nat as Hless.
  { rewrite Hbuf, length_drop. destruct Hn as [Hn|Hn]; [unfold blen in H0; by rewrite Hn in H0|]. unfold blen in H0. lia. }
  rewrite exec0_bind. assert ((blen (batcher w) <=? blen (batcher w1)) = false) as -> by (unfold blen; lia). cbn [fst snd].
  apply IH; [by rewrite Hbs1|lia].
Qed.

(** ** The theorems at work *)

Definition ex_event (m : string) : Event :=
  mkEvent "" 7 1 1 0 "error" m "" "" "" "" "" "" "" "" "" "" [] "" "" "" "" "".

(** A buffer of two rows, ClickHouse refusing the message "bad". *)
Definition ex_batcher : Batcher := NewBatcher <| maxBuf := 2 |> <| onDrop := true |>.
Definition ex_world : World := mkWorld ex_batcher [] ∅ 0 [].
Definition ex_bad (ev : Event) : bool := bool_decide (Message ev = "bad").
Definition ex_judge (rows : list Event) : option ch_error :=
  if existsb ex_bad rows then Some (mkChError false false (Some 27)) else None.

Definition add_now (ev : Event) (w : World) : World := (exec0 (Add ev) w).2.
Definition ex_two : World := add_now (ex_event "b") (add_now (ex_event "a") ex_world).

Lemma ex_two_settled : settled ex_judge true ex_two.
Proof.
  assert (settled ex_judge true ex_world) as H0.
  { split; [by constructor; vm_compute; intuition discriminate|]. exists [], [], []. split_and!; done. }
  assert (kept adds (settled ex_judge true)) as Hkept by apply adds_kept.
  apply (Hkept (add_now (ex_event "a") ex_world)); [apply adds_event|]. apply (Hkept ex_world); [apply adds_event|exact H0].
Qed.

(** The insert of both rows fails while a third is added: they come back, the
    buffer overflows, and organisation 7 is charged for one row. *)
Definition ex_schedule : list (fault * list Event) :=
  [(FNone, []); (FNone, []); (FLost, [ex_event "c"]); (FNone, []); (FNone, []); (FNone, []); (FNone, [])].


Definition ex_rows : list Event := [ex_event "a"; ex_event "bad"; ex_event "c"].
Abbreviation ex_isolate := (IsolatePoison (fun w => 10 <=? clock w) (insert ex_judge) IsServerDataError ex_rows).
Definition alone (m : Empty_set) (w : World) : World := match m with end.

Lemma ex_judge_rows rows : match ex_judge rows with
  | None => existsb ex_bad rows = false
  | Some e => existsb ex_bad rows = true /\ IsServerDataError (Some e) = true end.
Proof. unfold ex_judge. by destruct (existsb ex_bad rows). Qed.

Lemma isolation_exact_witness : exists w', runs (adds_before 10) ex_isolate (replicate 10 FNone) ex_world (1, []) w' /\
  events w' ≡ₚ [ex_event "a"; ex_event "c"].
Proof.
  destruct (drive alone ex_isolate (replicate 10 (FNone, [])) ex_world) as [[out w']|] eqn:Hd; [|by vm_compute in Hd].
  apply (drive_runs (adds_before 10)) in Hd; [|intros []]. change (map fst _) with (replicate 10 FNone) in Hd.
  destruct (isolation_exact ex_judge ex_bad 10 ex_rows (replicate 10 FNone) ex_world out w') as (Hout & Hev & _).
  - exact ex_judge_rows.
  - reflexivity.
  - repeat constructor.
  - exact Hd.
  - subst out. exists w'. split; [exact Hd|exact Hev].
Defined.

Lemma closeDrain_drains_witness :
  core (exec0 (closeDrain (fun _ => None) 3 (fun _ => false)) ex_two).2 = ([ex_event "a"; ex_event "b"], [], 1000).
Proof. apply (closeDrain_drains (fun _ => None) (fun _ => false) 3 ex_two); [done|done|done|vm_compute; lia]. Defined.
