(* ===== verification/Groups.v ===== *)
(** Incident groups: [internal/incidentgroup].

    An incident whose node is below a node that is down joins the group of the
    incident of that root.  [Member] is what the package reads and writes of a
    row of the six incident tables, keyed by source and id; the node is what
    the joins of [openCandidates] give.  [RootResolver] is the dependency
    suppressor, an interface here. *)
From stdpp Require Import base tactics list gmap strings sorting relations.
From Stdlib Require Import ZArith Lia.
From coqutil Require Import Datatypes.RecordSetters.
From S2P Require Import Prelude.
From S2P Require Import Prog.
From S2P Require Import Rely.

Import RecordSetters.TriangleBracketNotations.
Open Scope Z_scope.
Open Scope go_scope.

(** ** Data *)

Record Group := mkGroup {
  GroupID : Z; GroupProject : Z; RootSource : string; RootIncidentID : Z;
  RootNodeKind : string; RootNodeID : Z; GroupStarted : Z; GroupResolved : option Z }.

Record Member := mkMember {
  mb_project : Z; mb_node : option (string * Z); mb_silent : bool;
  mb_started : Z; mb_resolved : option Z; mb_notified : bool; mb_suppressed : bool; mb_group : option Z }.

Record GroupTables := mkGroupTables {
  igroups : gmap Z Group; next_group : Z;
  members : gmap (string * Z) Member;
  host_names : gmap (Z * string) Z; (** hosts: project and name to id *)
  gr_now : Z }.

Inductive group_error := ErrUnknownSource | ErrUnknownKind | ErrGroupSQL | ErrResolver.

Definition group_open (g : Group) : bool := is_nil (GroupResolved g).
Definition mb_open (m : Member) : bool := is_nil (mb_resolved m).
Definition root_key (g : Group) : string * Z := (RootSource g, RootIncidentID g).

(** The tables that have a [group_id] to write. *)
Definition sourceMeta (source : string) : bool := bool_decide (source ∈ ["host"; "uptime"; "metric"; "slo"]).

(** ** Statements *)

Definition group_for (root : string * Z) (t : GroupTables) : option Group :=
  snd <$> head (List.filter (fun '(_, g) => bool_decide (root_key g = root)) (map_to_list (igroups t))).

Definition set_groups (m : gmap Z Group) (t : GroupTables) : GroupTables :=
  mkGroupTables m (next_group t) (members t) (host_names t) (gr_now t).
Definition set_members (m : gmap (string * Z) Member) (t : GroupTables) : GroupTables :=
  mkGroupTables (igroups t) (next_group t) m (host_names t) (gr_now t).

Definition insert_group (projectID : Z) (root : string * Z) (node : string * Z) (t : GroupTables) : option Group * GroupTables :=
  match group_for root t with
  | Some _ => (None, t)
  | None =>
      let g := mkGroup (next_group t) projectID root.1 root.2 node.1 node.2 (gr_now t) None in
      (Some g, mkGroupTables (<[next_group t := g]> (igroups t)) (next_group t + 1) (members t) (host_names t) (gr_now t))
  end.

(** No group, or one that is gone or resolved. *)
Definition not_grouped (m : Member) (t : GroupTables) : bool :=
  match mb_group m with
  | None => true
  | Some gid => match igroups t !! gid with Some g => negb (group_open g) | None => true end
  end.

Definition set_group (projectID : Z) (key : string * Z) (gid : Z) (t : GroupTables) : bool * GroupTables :=
  match members t !! key with
  | Some m =>
      if (mb_project m =? projectID) && not_grouped m t
      then (true, set_members (<[key := m <| mb_group := Some gid |> ]> (members t)) t) else (false, t)
  | None => (false, t)
  end.

Definition resolve_where (p : Group -> bool) (t : GroupTables) : GroupTables :=
  set_groups ((fun g => if group_open g && p g then g <| GroupResolved := Some (gr_now t) |> else g) <$> igroups t) t.

Definition count_groups (p : Group -> bool) (t : GroupTables) : Z :=
  Z.of_nat (length (List.filter (fun '(_, g) => p g) (map_to_list (igroups t)))).

Definition root_is_open (g : Group) (t : GroupTables) : bool :=
  match members t !! root_key g with Some m => mb_open m | None => false end.

Definition orphan (t : GroupTables) (g : Group) : bool :=
  bool_decide (RootSource g = "host" \/ RootSource g = "uptime") && negb (root_is_open g t).

Definition open_member (t : GroupTables) (gid : Z) : bool :=
  existsb (fun '((source, _), m) => sourceMeta source && mb_open m && bool_decide (mb_group m = Some gid)) (map_to_list (members t)).

Definition purgeable (cutoff : Z) (t : GroupTables) (g : Group) : bool :=
  match GroupResolved g with Some at_ => at_ <? cutoff | None => false end && negb (open_member t (GroupID g)).

Record RootResolver (D : Type) := mkRootResolver {
  Roots_DownRoot : string -> Z -> prog D (result group_error (option (string * Z)));
  Roots_Invalidate : prog D () }.
Arguments Roots_DownRoot {D}.
Arguments Roots_Invalidate {D}.

(** [B5Checker], the dependency suppressor. *)
Record B5Checker (D : Type) := mkB5Checker {
  B5_CheckIncident : string -> Z -> prog D (result group_error (bool * bool));
  B5_MarkSuppressed : string -> Z -> prog D (result group_error ()) }.
Arguments B5_CheckIncident {D}.
Arguments B5_MarkSuppressed {D}.

(** ** Programs *)
Section programs.
Context {D : Type} `{Has GroupTables D}.

Definition EnsureGroup (projectID : Z) (root node : string * Z) : prog D (result group_error Group) :=
  tryE: g ← call ErrGroupSQL (on (insert_group projectID root node)) catch e => mret (Err e);
  match g with
  | Some g => mret (Ok g)
  | None =>
      tryE: g ← ask ErrGroupSQL (fun d => group_for root (get d)) catch e => mret (Err e);
      match g with Some g => mret (Ok g) | None => mret (Err ErrGroupSQL) end
  end.

Definition Resolve (root : string * Z) : prog D (result group_error bool) :=
  call ErrGroupSQL (on (fun t =>
    let p := fun g => bool_decide (root_key g = root) in
    (0 <? count_groups (fun g => group_open g && p g) t, resolve_where p t))).

Definition SetGroup (projectID : Z) (source : string) (incidentID groupID : Z) : prog D (result group_error bool) :=
  if sourceMeta source then call ErrGroupSQL (on (set_group projectID (source, incidentID) groupID))
  else mret (Err ErrUnknownSource).

Definition MemberEligible (projectID : Z) (source : string) (incidentID : Z) : prog D (result group_error bool) :=
  if sourceMeta source then
    ask ErrGroupSQL (fun d => match members (get d) !! (source, incidentID) with
      | Some m => (mb_project m =? projectID) && not_grouped m (get d) | None => false end)
  else mret (Err ErrUnknownSource).

(** The open incident of a root node: source and id, project, notified. *)
Definition root_incident (source : string) (ok : Member -> bool) (node : string * Z) (t : GroupTables) : option (string * Z * Z * bool) :=
  (fun '((s, id), m) => (s, id, mb_project m, mb_notified m)) <$>
  head (List.filter (fun '((s, _), m) => bool_decide (s = source) && bool_decide (mb_node m = Some node) && ok m && mb_open m)
    (map_to_list (members t))).

Definition RootIncident (rootKind : string) (rootID : Z) : prog D (result group_error (option (string * Z * Z * bool))) :=
  if bool_decide (rootKind = "host") then
    ask ErrGroupSQL (fun d => root_incident "host" mb_silent ("host", rootID) (get d))
  else if bool_decide (rootKind = "monitor") then
    ask ErrGroupSQL (fun d => root_incident "uptime" (fun _ => true) ("monitor", rootID) (get d))
  else mret (Err ErrUnknownKind).

(** (attached, rootInforming) *)
Definition Attach (roots : RootResolver D) (source : string) (incidentID : Z) (nodeKind : string) (nodeID : Z)
  : prog D (result group_error (bool * bool)) :=
  tryE: root ← Roots_DownRoot roots nodeKind nodeID catch e => mret (Err e);
  match root with
  | None => mret (Ok (false, false))
  | Some (rootKind, rootID) =>
      tryE: ri ← RootIncident rootKind rootID catch e => mret (Err e);
      match ri with
      | None => mret (Ok (false, false))
      | Some (rootSource, rootIncID, projectID, notified) =>
          if bool_decide (rootSource = source) && (rootIncID =? incidentID) then mret (Ok (false, false)) else
          tryE: eligible ← MemberEligible projectID source incidentID catch e => mret (Err e);
          if negb eligible then mret (Ok (false, false)) else
          tryE: grp ← EnsureGroup projectID (rootSource, rootIncID) (rootKind, rootID) catch e => mret (Err e);
          if negb (group_open grp) then mret (Ok (false, false)) else
          tryE: attached ← SetGroup projectID source incidentID (GroupID grp) catch e => mret (Err e);
          mret (Ok (attached, attached && notified))
      end
  end.

Definition AttachMetric (roots : RootResolver D) (incidentID projectID : Z) (hostName : string)
  : prog D (result group_error (bool * bool)) :=
  tryE: host ← ask ErrGroupSQL (fun d => host_names (get d) !! (projectID, hostName)) catch e => mret (Err e);
  match host with
  | None => mret (Ok (false, false))
  | Some hostID => Attach roots "metric" incidentID "host" hostID
  end.

Record candidate := mkCandidate { c_source : string; c_incidentID : Z; c_nodeKind : string; c_nodeID : Z }.

Definition candidates (projectID : Z) (t : GroupTables) : list candidate :=
  omap (fun '((source, id), m) =>
    if bool_decide (source ∈ ["host"; "metric"; "slo"]) && (mb_project m =? projectID) && mb_open m && not_grouped m t
    then (fun '(k, n) => mkCandidate source id k n) <$> mb_node m else None)
  (map_to_list (members t)).

Definition openCandidates (projectID : Z) : prog D (result group_error (list candidate)) :=
  ask ErrGroupSQL (fun d => candidates projectID (get d)).

Fixpoint attach_all (roots : RootResolver D) (root node : string * Z) (projectID : Z) (grp : option Group) (cands : list candidate)
  : prog D (result group_error ()) :=
  match cands with
  | [] => mret (Ok tt)
  | c :: cands =>
      if bool_decide ((c_source c, c_incidentID c) = root) then attach_all roots root node projectID grp cands else
      tryE: r ← Roots_DownRoot roots (c_nodeKind c) (c_nodeID c) catch e => mret (Err e);
      if negb (bool_decide (r = Some node)) then attach_all roots root node projectID grp cands else
      tryE: gg ← (match grp with Some g => mret (Ok g) | None => EnsureGroup projectID root node end) catch e => mret (Err e);
      if is_nil grp && negb (group_open gg) then mret (Ok tt) else
      tryE: _ ← SetGroup projectID (c_source c) (c_incidentID c) (GroupID gg) catch e => mret (Err e);
      attach_all roots root node projectID (Some gg) cands
  end.

Definition OnRootOpened (roots : RootResolver D) (root node : string * Z) (projectID : Z) : prog D (result group_error ()) :=
  _ ← Roots_Invalidate roots;
  tryE: cands ← openCandidates projectID catch e => mret (Err e);
  attach_all roots root node projectID None cands.

Definition OnRootClosed (root : string * Z) : prog D (result group_error ()) :=
  tryE: _ ← Resolve root catch e => mret (Err e); mret (Ok tt).

Definition SweepOrphanGroups : prog D (result group_error Z) :=
  call ErrGroupSQL (on (fun t => (count_groups (fun g => group_open g && orphan t g) t, resolve_where (orphan t) t))).

Definition PurgeOldGroups (now olderThan : Z) : prog D (result group_error Z) :=
  let cutoff := now - olderThan in
  call ErrGroupSQL (on (fun t =>
    (count_groups (purgeable cutoff t) t,
     set_groups (filter (fun '(_, g) => purgeable cutoff t g = false) (igroups t)) t))).

(** [DepGate.MarkSuppressed] *)
Definition MarkSuppressed (dep : B5Checker D) (grouper : option (RootResolver D)) (source : string) (incidentID : Z)
  : prog D (result group_error ()) :=
  tryE: _ ← B5_MarkSuppressed dep source incidentID catch e => mret (Err e);
  match grouper with
  | Some roots =>
      if negb (bool_decide (source = "host")) then mret (Ok tt) else
      tryE: m ← ask ErrGroupSQL (fun d => members (get d) !! ("host", incidentID)) catch e => mret (Ok tt);
      match m ≫= mb_node with
      | None => mret (Ok tt)
      | Some (_, hostID) => _ ← Attach roots "host" incidentID "host" hostID; mret (Ok tt)
      end
  | None => mret (Ok tt)
  end.

(** One turn of [Janitor.Run]; [purge] when the retention is due. *)
Definition janitor_tick (purge : option (Z * Z)) : prog D () :=
  _ ← SweepOrphanGroups;
  match purge with
  | Some (now, retention) => _ ← PurgeOldGroups now retention; mret tt
  | None => mret tt
  end.
End programs.

(** ** The feed of the overview page *)

Definition MaxOpenGroups : nat := 50.
Definition MaxOpenOutOfGroup : nat := 50.

Record FeedItem := mkFeedItem {
  it_key : string * Z; it_started : Z; it_resolved : option Z; it_suppressed : bool; FormerGroupID : Z; HeldByGroup : bool }.

Definition newest_group (a b : Group) : Prop := GroupStarted b <= GroupStarted a.
#[export] Instance newest_group_dec a b : Decision (newest_group a b).
Proof. unfold newest_group. apply _. Defined.
Definition newest_item (a b : FeedItem) : Prop := it_started b <= it_started a.
#[export] Instance newest_item_dec a b : Decision (newest_item a b).
Proof. unfold newest_item. apply _. Defined.
Definition oldest_item (a b : FeedItem) : Prop := it_started a <= it_started b.
#[export] Instance oldest_item_dec a b : Decision (oldest_item a b).
Proof. unfold oldest_item. apply _. Defined.

Definition open_groups (projectID : Z) (t : GroupTables) : list Group :=
  List.filter (fun g => (GroupProject g =? projectID) && group_open g) (map snd (map_to_list (igroups t))).

Definition OpenGroups (projectID : Z) (t : GroupTables) : list Group :=
  take MaxOpenGroups (merge_sort newest_group (open_groups projectID t)).

(** [root_notified_open] of the CTE. *)
Definition root_notified (g : Group) (t : GroupTables) : bool :=
  if bool_decide (RootSource g = "host" \/ RootSource g = "uptime")
  then match members t !! root_key g with Some m => mb_notified m | None => false end else false.

Definition held (gid : Z) (m : Member) (t : GroupTables) : bool :=
  match igroups t !! gid with Some g => group_open g && mb_open m && root_notified g t | None => false end.

Definition composition (projectID gid : Z) (t : GroupTables) : list FeedItem :=
  omap (fun '(key, m) =>
    if sourceMeta key.1 && bool_decide (mb_group m = Some gid) && (mb_project m =? projectID)
    then Some (mkFeedItem key (mb_started m) (mb_resolved m) (mb_suppressed m) 0 (held gid m t)) else None)
  (map_to_list (members t)).

Definition Composition (projectID gid : Z) (t : GroupTables) : list FeedItem := merge_sort oldest_item (composition projectID gid t).

Definition Compositions (projectID : Z) (gids : list Z) (t : GroupTables) : gmap Z (list FeedItem) :=
  list_to_map (omap (fun gid => match Composition projectID gid t with [] => None | items => Some (gid, items) end) gids).

(** The group of the LEFT JOIN on the member's [group_id] and the project. *)
Definition joined_group (projectID : Z) (m : Member) (t : GroupTables) : option Group :=
  gid ← mb_group m; g ← igroups t !! gid; if GroupProject g =? projectID then Some g else None.

Definition notOpenGroupMember (projectID : Z) (m : Member) (t : GroupTables) : bool :=
  match joined_group projectID m t with Some g => negb (group_open g) | None => true end.

(** [hostNotRoot] and [uptimeNotRoot]. *)
Definition not_root (projectID : Z) (key : string * Z) (t : GroupTables) : bool :=
  negb (bool_decide (key.1 = "host" \/ key.1 = "uptime")) ||
  negb (existsb (fun '(_, g) => (GroupProject g =? projectID) && bool_decide (root_key g = key) && group_open g) (map_to_list (igroups t))).

(** [feedProjectQuery]; the two regression tables have no [group_id]. *)
Definition project_feed (projectID : Z) (cond : Member -> bool) (t : GroupTables) : list FeedItem :=
  omap (fun '(key, m) =>
    if (mb_project m =? projectID) && (negb (sourceMeta key.1) || notOpenGroupMember projectID m t) && cond m && not_root projectID key t
    then Some (mkFeedItem key (mb_started m) (mb_resolved m) (mb_suppressed m)
      (if sourceMeta key.1 then match joined_group projectID m t with Some g => GroupID g | None => 0 end else 0) false)
    else None)
  (map_to_list (members t)).

Definition OpenOutOfGroup (projectID : Z) (t : GroupTables) : list FeedItem :=
  take MaxOpenOutOfGroup (merge_sort newest_item (project_feed projectID mb_open t)).

Definition closed_since (since : Z) (m : Member) : bool :=
  match mb_resolved m with Some at_ => since <=? at_ | None => false end.

Definition last_closed (a b : FeedItem) : Prop := default 0 (it_resolved b) <= default 0 (it_resolved a).
#[export] Instance last_closed_dec a b : Decision (last_closed a b).
Proof. unfold last_closed. apply _. Defined.

Definition ClosedSince (projectID since : Z) (limit : nat) (t : GroupTables) : list FeedItem :=
  take limit (merge_sort last_closed (project_feed projectID (closed_since since) t)).

(** ** Nothing open is hidden *)

(** Keys are ids. *)
Definition ids_ok (t : GroupTables) : Prop := forall gid g, igroups t !! gid = Some g -> GroupID g = gid.

Lemma in_sorted_take {A} (R : A -> A -> Prop) `{forall x y, Decision (R x y)} n (l : list A) x :
  (length l <= n)%nat -> x ∈ l -> x ∈ take n (merge_sort R l).
Proof.
  intros Hn Hx. rewrite take_ge by (by rewrite merge_sort_Permutation). by rewrite merge_sort_Permutation.
Qed.

Lemma in_open_groups projectID t gid g : igroups t !! gid = Some g -> GroupProject g = projectID -> group_open g = true ->
  g ∈ open_groups projectID t.
Proof.
  intros Hg Hp Ho. unfold open_groups. apply list_elem_of_In, filter_In. split.
  - apply in_map_iff. exists (gid, g). split; [done|]. by apply list_elem_of_In, elem_of_map_to_list.
  - by rewrite Hp, Z.eqb_refl, Ho.
Qed.

Lemma in_take_sorted {A} (R : A -> A -> Prop) `{forall x y, Decision (R x y)} n (l : list A) x :
  x ∈ take n (merge_sort R l) -> x ∈ l.
Proof. intros (i & Hi & _)%elem_of_take. apply list_elem_of_lookup_2 in Hi. by rewrite merge_sort_Permutation in Hi. Qed.

Lemma open_groups_inv projectID t g : g ∈ open_groups projectID t ->
  exists gid, igroups t !! gid = Some g /\ GroupProject g = projectID /\ group_open g = true.
Proof.
  unfold open_groups. rewrite list_elem_of_In, filter_In, in_map_iff.
  intros [([gid g'] & [= ->] & Hg) [Hp%Z.eqb_eq Ho]%andb_true_iff]. exists gid. split_and!; [|done..].
  by apply list_elem_of_In, elem_of_map_to_list in Hg.
Qed.

Lemma composition_inv projectID gid t it : it ∈ Composition projectID gid t ->
  exists m, members t !! it_key it = Some m /\ sourceMeta (it_key it).1 = true /\ mb_group m = Some gid /\
    HeldByGroup it = held gid m t.
Proof.
  unfold Composition. rewrite merge_sort_Permutation. unfold composition. rewrite list_elem_of_omap. intros ([key m] & Hm%elem_of_map_to_list & Hit).
  destruct (sourceMeta key.1 && _ && _) eqn:Hb; [|done]. injection Hit as <-.
  apply andb_true_iff in Hb as [[Hs Hg%bool_decide_eq_true]%andb_true_iff _]. by exists m.
Qed.

Lemma project_feed_inv projectID cond t it : it ∈ project_feed projectID cond t ->
  exists m, members t !! it_key it = Some m /\ (sourceMeta (it_key it).1 = true -> notOpenGroupMember projectID m t = true).
Proof.
  unfold project_feed. rewrite list_elem_of_omap. intros ([key m] & Hm%elem_of_map_to_list & Hit).
  destruct (_ && _ && _ && _) eqn:Hb; [|done]. injection Hit as <-. exists m. split; [done|]. simpl. intros Hs. rewrite Hs in Hb.
  by apply andb_true_iff in Hb as [[[_ Hb]%andb_true_iff _]%andb_true_iff _].
Qed.

(** no open incident is hidden by the grouping.  As long as the limits of
    the page are not reached, an open incident of the project is the root of
    an open group listed, or among the members of one listed, or among the
    incidents outside groups; it is never both inside and outside. *)
Theorem feed_complete t projectID key m :
  ids_ok t -> members t !! key = Some m -> mb_project m = projectID -> mb_open m = true ->
  (length (open_groups projectID t) <= MaxOpenGroups)%nat ->
  (length (project_feed projectID mb_open t) <= MaxOpenOutOfGroup)%nat ->
  ((exists g, g ∈ OpenGroups projectID t /\ root_key g = key) \/
   (exists g it, g ∈ OpenGroups projectID t /\ it ∈ Composition projectID (GroupID g) t /\ it_key it = key) \/
   (exists it, it ∈ OpenOutOfGroup projectID t /\ it_key it = key)) /\
  (forall g it it', g ∈ OpenGroups projectID t -> it ∈ Composition projectID (GroupID g) t -> it_key it = key ->
    it' ∈ OpenOutOfGroup projectID t -> it_key it' = key -> False).
Proof.
  intros Hids Hm Hp Ho Hlg Hlf. apply elem_of_map_to_list in Hm as Hin. split.
  - destruct (sourceMeta key.1 && negb (notOpenGroupMember projectID m t)) eqn:Hmem.
    + apply andb_true_iff in Hmem as [Hs Hj%negb_true_iff]. unfold notOpenGroupMember in Hj.
      destruct (joined_group projectID m t) as [g|] eqn:Hg; [|done]. apply negb_false_iff in Hj.
      unfold joined_group in Hg. destruct (mb_group m) as [gid|] eqn:Hgid; [|done]. simpl in Hg.
      destruct (igroups t !! gid) as [g'|] eqn:Hlook; [|done]. simpl in Hg. destruct (Z.eqb_spec (GroupProject g') projectID); [|done].
      injection Hg as ->. right. left. exists g, (mkFeedItem key (mb_started m) (mb_resolved m) (mb_suppressed m) 0 (held gid m t)).
      rewrite (Hids _ _ Hlook). split_and!; [by apply in_sorted_take; [|eapply in_open_groups]| |done].
      unfold Composition. rewrite merge_sort_Permutation. apply list_elem_of_omap. exists (key, m). split; [done|].
      by rewrite Hs, Hgid, bool_decide_true, Hp, Z.eqb_refl.
    + destruct (not_root projectID key t) eqn:Hroot.
      * right. right. eexists. split; [apply in_sorted_take; [done|]; apply list_elem_of_omap; exists (key, m); split; [done|]|].
        { rewrite Hp, Z.eqb_refl, Ho, Hroot. assert (negb (sourceMeta key.1) || notOpenGroupMember projectID m t = true) as -> by (by destruct (sourceMeta key.1), (notOpenGroupMember projectID m t)). reflexivity. }
        done.
      * left. unfold not_root in Hroot. apply orb_false_iff in Hroot as [_ Hr%negb_false_iff].
        apply existsb_exists in Hr as ([gid g] & Hg & Hb). apply list_elem_of_In, elem_of_map_to_list in Hg.
        apply andb_true_iff in Hb as [[Hgp%Z.eqb_eq Hk%bool_decide_eq_true]%andb_true_iff Hgo].
        exists g. split; [|done]. by apply in_sorted_take; [|eapply in_open_groups].
  - intros g it it' Hg Hit Hk Hit' Hk'.
    apply in_take_sorted, open_groups_inv in Hg as (gid & Hg & Hgp & Hgo). apply in_take_sorted, project_feed_inv in Hit' as (m2 & Hm2 & Hn).
    apply composition_inv in Hit as (m1 & Hm1 & Hs & Hgr & _). rewrite Hk in Hm1, Hs. rewrite Hk' in Hm2, Hn.
    assert (m1 = m2) as -> by congruence. specialize (Hn Hs). unfold notOpenGroupMember, joined_group in Hn.
    rewrite (Hids _ _ Hg) in Hgr. rewrite Hgr in Hn. simpl in Hn. rewrite Hg in Hn. simpl in Hn. by rewrite Hgp, Z.eqb_refl, Hgo in Hn.
Qed.

(** ** Membership *)
Section membership.
Context {D : Type} `{Has GroupTables D} (project_of : string * Z -> Z).

(** [project_of] is the project an incident belongs to, which never changes. *)
Record groups_ok (t : GroupTables) : Prop := {
  ok_ids gid g : igroups t !! gid = Some g -> GroupID g = gid /\ gid < next_group t;
  ok_unique gid gid' g g' : igroups t !! gid = Some g -> igroups t !! gid' = Some g' -> root_key g = root_key g' -> gid = gid';
  ok_project gid g : igroups t !! gid = Some g -> GroupProject g = project_of (root_key g);
  ok_member_project key m : members t !! key = Some m -> mb_project m = project_of key;
  ok_member key m gid : members t !! key = Some m -> mb_group m = Some gid -> gid < next_group t /\
    forall g, igroups t !! gid = Some g -> root_key g <> key /\ GroupProject g = mb_project m }.

(** A group keeps its root, is never reopened, and its id is never used again. *)
Definition evolves (t t' : GroupTables) : Prop :=
  next_group t <= next_group t' /\
  forall gid, gid < next_group t -> forall g', igroups t' !! gid = Some g' ->
    exists g, igroups t !! gid = Some g /\ root_key g' = root_key g /\ (group_open g = false -> group_open g' = false).

#[export] Instance group_evolves_preorder : PreOrder evolves.
Proof.
  split; [intros t; split; [done|]; intros gid _ g ?; by exists g|].
  intros t1 t2 t3 [Hn12 H12] [Hn23 H23]. split; [lia|]. intros gid Hlt g3 Hg3.
  destruct (H23 gid ltac:(lia) g3 Hg3) as (g2 & Hg2 & Hk & Ho). destruct (H12 gid Hlt g2 Hg2) as (g1 & Hg1 & Hk1 & Ho1).
  exists g1. split_and!; [done|congruence|auto].
Qed.

Definition ok (d : D) : Prop := groups_ok (get d).
Definition moved_on (d d' : D) : Prop := evolves (get d) (get d').
#[export] Instance moved_on_preorder : PreOrder moved_on.
Proof. split; [intros d; unfold moved_on; reflexivity|intros d1 d2 d3; unfold moved_on; intros ? ?; etrans; eassumption]. Qed.

(** [gid] is, or was, a group of the root [root]. *)
Definition is_group (gid : Z) (root : string * Z) (d : D) : Prop :=
  gid < next_group (get d) /\ forall g, igroups (get d) !! gid = Some g -> root_key g = root.

Lemma is_group_stable gid root : stable ok moved_on (is_group gid root).
Proof.
  intros d d' _ _ [Hn Hev] [Hlt Hg]. split; [lia|]. intros g' Hg'. destruct (Hev gid Hlt g' Hg') as (g & Hg0 & -> & _). by apply Hg.
Qed.

Abbreviation rgp := (rg ok moved_on).
Abbreviation keeps := (Keeps ok moved_on).

(** A statement on the tables. *)
Lemma keeps_tables {A} (q : GroupTables -> A * GroupTables) :
  (forall t, groups_ok t -> groups_ok (q t).2 /\ evolves t (q t).2) -> keeps (call ErrGroupSQL (on q)).
Proof. intros Hq. apply (keeps_call ok moved_on). intros d Hd. unfold ok, moved_on. rewrite get_on. by apply Hq. Qed.

Lemma group_for_inv root t g : group_for root t = Some g -> exists gid, igroups t !! gid = Some g /\ root_key g = root.
Proof.
  unfold group_for. destruct (List.filter _ _) as [|[gid g'] l] eqn:Hf; [done|]. intros [= ->]. exists gid.
  assert (In (gid, g) (List.filter (fun '(_, g) => bool_decide (root_key g = root)) (map_to_list (igroups t)))) as Hin by (rewrite Hf; by left).
  apply filter_In in Hin as [Hin Hr%bool_decide_eq_true]. split; [|done]. by apply elem_of_map_to_list, list_elem_of_In.
Qed.

Lemma group_for_none root t gid g : group_for root t = None -> igroups t !! gid = Some g -> root_key g <> root.
Proof.
  unfold group_for. destruct (List.filter _ _) as [|[gid' g'] l] eqn:Hf; [|done]. intros _ Hg Hr.
  assert (In (gid, g) []) as []. rewrite <- Hf. apply filter_In. split; [by apply list_elem_of_In, elem_of_map_to_list|]. by apply bool_decide_eq_true.
Qed.

Lemma insert_group_ok root node t : groups_ok t ->
  let r := insert_group (project_of root) root node t in
  groups_ok r.2 /\ evolves t r.2 /\ match r.1 with Some g => igroups r.2 !! GroupID g = Some g /\ root_key g = root | None => True end.
Proof.
  intros Ht. unfold insert_group. destruct (group_for root t) as [g|] eqn:Hgf; cbn; [split_and!; [done|reflexivity|done]|].
  assert (forall gid g, igroups t !! gid = Some g -> gid <> next_group t) as Hfresh.
  { intros gid g Hg ->. apply (ok_ids t Ht) in Hg. lia. }
  assert (igroups t !! next_group t = None) as Hnew.
  { destruct (igroups t !! next_group t) eqn:Hg; [|done]. by apply Hfresh in Hg. }
  split_and!; [|split; [simpl; lia|]|by rewrite lookup_insert_eq|by destruct root].
  - constructor; simpl.
    + intros gid g. rewrite lookup_insert_Some. intros [[<- <-]|[? Hg]]; [simpl; split; [done|lia]|]. apply (ok_ids t Ht) in Hg. lia.
    + intros gid gid' g g'. rewrite !lookup_insert_Some. intros [[<- <-]|[? Hg]] [[<- <-]|[? Hg']] Hk; [done| | |by eapply (ok_unique t Ht)].
      * by destruct (group_for_none root t gid' g' Hgf Hg'); rewrite <- Hk; destruct root.
      * by destruct (group_for_none root t gid g Hgf Hg); rewrite Hk; destruct root.
    + intros gid g. rewrite lookup_insert_Some. intros [[<- <-]|[? Hg]]; [by destruct root|by eapply (ok_project t Ht)].
    + apply (ok_member_project t Ht).
    + intros key m gid Hm Hg. destruct (ok_member t Ht key m gid Hm Hg) as [Hlt Hall]. split; [lia|].
      intros g. rewrite lookup_insert_ne by lia. apply Hall.
  - simpl. intros gid Hlt g'. rewrite lookup_insert_ne by lia. intros Hg. by exists g'.
Qed.

Lemma resolve_where_ok p t : groups_ok t -> groups_ok (resolve_where p t) /\ evolves t (resolve_where p t).
Proof.
  intros Ht. assert (forall gid g', igroups (resolve_where p t) !! gid = Some g' -> exists g, igroups t !! gid = Some g /\
    root_key g' = root_key g /\ GroupProject g' = GroupProject g /\ GroupID g' = GroupID g /\ (group_open g = false -> group_open g' = false)) as Hlook.
  { intros gid g'. unfold resolve_where. cbn. rewrite lookup_fmap. destruct (igroups t !! gid) as [g|]; [|done]. intros [= <-]. exists g.
    destruct g as [? ? ? ? ? ? ? r]. unfold group_open. cbn. by destruct r, (p _). }
  split.
  - constructor.
    + intros gid g' Hg. apply Hlook in Hg as (g & Hg & _ & _ & -> & _). by apply (ok_ids t Ht).
    + intros gid gid' g1 g2 H1 H2 Hk. apply Hlook in H1 as (g & H1 & Hk1 & _), H2 as (g' & H2 & Hk2 & _).
      apply (ok_unique t Ht gid gid' g g'); congruence.
    + intros gid g' Hg. apply Hlook in Hg as (g & Hg & -> & -> & _). by eapply (ok_project t Ht).
    + apply (ok_member_project t Ht).
    + intros key m gid Hm Hg. destruct (ok_member t Ht key m gid Hm Hg) as [Hlt Hall]. split; [done|].
      intros g' Hg'. apply Hlook in Hg' as (g & Hg' & -> & -> & _). by apply Hall.
  - split; [done|]. intros gid _ g' Hg. apply Hlook in Hg as (g & Hg & Hk & _ & _ & Ho). by exists g.
Qed.

Lemma purge_ok cutoff t : groups_ok t ->
  let t' := set_groups (filter (fun '(_, g) => purgeable cutoff t g = false) (igroups t)) t in groups_ok t' /\ evolves t t'.
Proof.
  intros Ht t'. assert (forall gid g, igroups t' !! gid = Some g -> igroups t !! gid = Some g) as Hlook.
  { intros gid g. by intros [? _]%map_lookup_filter_Some. }
  split.
  - constructor.
    + intros gid g Hg. by apply (ok_ids t Ht), Hlook.
    + intros gid gid' g g' Hg Hg'. by apply (ok_unique t Ht); apply Hlook.
    + intros gid g Hg. by eapply (ok_project t Ht), Hlook.
    + apply (ok_member_project t Ht).
    + intros key m gid Hm Hg. destruct (ok_member t Ht key m gid Hm Hg) as [Hlt Hall]. split; [done|].
      intros g Hg'. by apply Hall, Hlook.
  - split; [done|]. intros gid _ g Hg. exists g. split_and!; [by apply Hlook|done|done].
Qed.

Lemma set_group_ok key gid root t : groups_ok t -> root <> key ->
  gid < next_group t -> (forall g, igroups t !! gid = Some g -> root_key g = root) ->
  groups_ok (set_group (project_of root) key gid t).2 /\ evolves t (set_group (project_of root) key gid t).2.
Proof.
  intros Ht Hne Hlt Hroot. unfold set_group. destruct (members t !! key) as [m|] eqn:Hm; [|split; [done|cbn; reflexivity]].
  destruct (_ && _) eqn:Hb; [|split; [done|cbn; reflexivity]]. apply andb_true_iff in Hb as [Hp%Z.eqb_eq _]. cbn.
  split; [|split; [done|]; intros gid' _ g ?; by exists g].
  constructor; cbn; [apply (ok_ids t Ht)|apply (ok_unique t Ht)|apply (ok_project t Ht)| |].
  - intros key' m'. rewrite lookup_insert_Some. intros [[<- <-]|[_ Hm']]; [|by apply (ok_member_project t Ht)].
    destruct m. cbn. by apply (ok_member_project t Ht) in Hm.
  - intros key' m' gid'. rewrite lookup_insert_Some. intros [[<- <-]|[_ Hm']]; [|by apply (ok_member t Ht)].
    destruct m. cbn in *. intros [= <-]. split; [done|]. intros g Hg. pose proof (Hroot g Hg) as Hr. split; [congruence|].
    rewrite (ok_project t Ht gid g Hg), Hr. by rewrite Hp.
Qed.

(** What a caller knows of the group it was given. *)
Definition given (root : string * Z) (r : result group_error Group) (d : D) : Prop :=
  match r with Ok g => is_group (GroupID g) root d | Err _ => True end.

Lemma given_stable root r : stable ok moved_on (given root r).
Proof. destruct r; [apply is_group_stable|done]. Qed.

Lemma is_group_intro gid g root d : ok d -> igroups (get d) !! gid = Some g -> root_key g = root -> is_group (GroupID g) root d.
Proof.
  intros Hd Hg Hr. destruct (ok_ids _ Hd gid g Hg) as [<- Hlt]. split; [done|]. intros g' Hg'. by simplify_eq.
Qed.

Lemma rg_EnsureGroup root node (S : D -> Prop) : stable ok moved_on S ->
  rgp S (EnsureGroup (project_of root) root node) (fun r d => S d /\ given root r d).
Proof.
  intros HS. unfold EnsureGroup.
  eapply rg_bind; [apply (rg_call _ _ S _ _ (fun g d => given root (from_option Ok (Err ErrGroupSQL) g) d)); [done|intros [g|]; apply given_stable|]|].
  { intros d Hd _. unfold ok, moved_on. rewrite get_on, on_val. destruct (insert_group_ok root node (get d) Hd) as (Hok & Hev & Hr).
    split_and!; [done|done|]. destruct (insert_group (project_of root) root node (get d)).1 as [g|] eqn:Hg; [|done]. simpl in *.
    destruct Hr as [Hl Hr]. apply (is_group_intro (GroupID g) g); [unfold ok; by rewrite get_on|by rewrite get_on|done]. }
  intros [[g|]|e]; cbv beta; [by intros d _| |by intros d _ [? _]].
  eapply rg_bind; [eapply rg_weaken; [|apply (rg_ask _ _ S _ _ (fun g d => given root (from_option Ok (Err ErrGroupSQL) g) d)); [done|intros [g|]; apply given_stable|]]|].
  { by intros d _ [? _]. }
  { intros d Hd _. destruct (group_for root (get d)) as [g|] eqn:Hg; [|done]. simpl. apply group_for_inv in Hg as (gid & Hg & Hr).
    by apply (is_group_intro gid g). }
  intros [[g|]|e]; cbv beta; [by intros d _|by intros d _ [? _]..].
Qed.

Lemma rg_SetGroup root source incidentID gid : root <> (source, incidentID) ->
  rgp (is_group gid root) (SetGroup (project_of root) source incidentID gid) (fun _ => is_group gid root).
Proof.
  intros Hne. unfold SetGroup. destruct (sourceMeta source); [|by intros d _].
  eapply rg_mono; [apply (rg_call _ _ (is_group gid root) _ _ (fun _ _ => True)); [apply is_group_stable|done|]|by intros r d _ [? _]].
  intros d Hd [Hlt Hg]. unfold ok, moved_on. rewrite get_on. destruct (set_group_ok (source, incidentID) gid root (get d) Hd Hne Hlt Hg). done.
Qed.

Lemma rg_RootIncident kind id : rgp (fun _ => True) (RootIncident kind id) (fun r _ =>
  match r with Ok (Some (s, i, p, _)) => p = project_of (s, i) | _ => True end).
Proof.
  assert (forall source f node, rgp (fun _ => True) (ask ErrGroupSQL (fun d => root_incident source f node (get d))) (fun r _ =>
    match r with Ok (Some (s, i, p, _)) => p = project_of (s, i) | _ => True end)) as Hask.
  { intros source f node. eapply rg_mono; [apply (rg_ask _ _ _ _ _ (fun r _ => match r with Some (s, i, p, _) => p = project_of (s, i) | None => True end));
      [apply stable_true|intros r; apply stable_pure|]|by intros [r|e] d _ [_ ?]].
    intros d Hd _. unfold root_incident. destruct (List.filter _ _) as [|[[s i] m] l] eqn:Hf; [done|]. simpl.
    assert (In ((s, i), m) (map_to_list (members (get d)))) as Hin.
    { eapply (incl_filter _ _). rewrite Hf. by left. }
    apply list_elem_of_In, elem_of_map_to_list in Hin. by apply (ok_member_project _ Hd) in Hin. }
  unfold RootIncident. destruct (bool_decide _); [apply Hask|]. destruct (bool_decide _); [apply Hask|]. by intros d _.
Qed.

(** The suppressor answers from its own tables. *)
Class ResolverLaw (roots : RootResolver D) : Prop := {
  rl_down kind id : keeps (Roots_DownRoot roots kind id);
  rl_invalidate : keeps (Roots_Invalidate roots) }.
#[local] Existing Instances rl_down rl_invalidate.

Abbreviation safe p := (rgp (fun _ => True) p (fun _ _ => True)).

Lemma safe_seq {A B} (p : prog D A) (k : A -> prog D B) : keeps p -> (forall a, safe (k a)) -> safe (mbind k p).
Proof. intros Hp Hk. apply (rg_seq ok moved_on (fun _ => True)); [apply stable_true|exact Hp|exact Hk]. Qed.

Lemma safe_ret {A} (a : A) : safe (mret a).
Proof. by intros d _. Qed.

Lemma safe_Attach roots source incidentID nodeKind nodeID `{!ResolverLaw roots} :
  safe (Attach roots source incidentID nodeKind nodeID).
Proof.
  unfold Attach. apply safe_seq; [apply _|]. intros [[[rootKind rootID]|]|e]; [|apply safe_ret..].
  eapply rg_bind; [apply rg_RootIncident|]. intros [[[[[rs ri] p] notified]|]|e]; cbv beta iota; [|by intros d _..].
  apply (rg_weaken _ _ (fun _ => p = project_of (rs, ri) /\ True)); [by split|]. apply rg_pure. intros ->.
  destruct (bool_decide (rs = source) && (ri =? incidentID)) eqn:Hself; [apply safe_ret|].
  assert ((rs, ri) <> (source, incidentID)) as Hne.
  { intros [= -> ->]. by rewrite bool_decide_true, Z.eqb_refl in Hself. }
  apply safe_seq; [unfold MemberEligible; destruct (sourceMeta source); apply _|].
  intros [[]|e]; cbn [negb]; [|apply safe_ret..].
  eapply rg_bind; [by apply rg_EnsureGroup|]. intros [grp|e]; cbv beta; [|by intros d _].
  apply (rg_weaken _ _ (is_group (GroupID grp) (rs, ri))); [by intros d _ [_ ?]|].
  destruct (negb (group_open grp)); [by intros d _|].
  eapply rg_bind; [by apply rg_SetGroup|]. intros [att|e]; by intros d _.
Qed.

Lemma safe_attach_all roots root node cands `{!ResolverLaw roots} : forall grp,
  rgp (fun d => match grp with Some g => is_group (GroupID g) root d | None => True end)
    (attach_all roots root node (project_of root) grp cands) (fun _ _ => True).
Proof.
  induction cands as [|c cands IH]; intros grp; cbn [attach_all]; [by intros d _|].
  set (S := fun d => match grp with Some g => is_group (GroupID g) root d | None => True end).
  assert (stable ok moved_on S) as HS by (destruct grp; [apply is_group_stable|done]).
  destruct (bool_decide ((c_source c, c_incidentID c) = root)) eqn:Hself; [apply IH|].
  assert (root <> (c_source c, c_incidentID c)) as Hne by (apply bool_decide_eq_false in Hself; congruence).
  apply (rg_seq ok moved_on S); [done|apply rl_down|]. intros [r|e]; [|by intros d _].
  destruct (negb (bool_decide (r = Some node))); [apply IH|].
  eapply (rg_bind _ _ _ _ _ (fun r d => given root r d)).
  { destruct grp as [g|]; [by intros d _|]. eapply rg_mono; [by apply rg_EnsureGroup|]. by intros r' d _ [_ ?]. }
  intros [gg|e]; cbv beta; [|by intros d _]. destruct (is_nil grp && negb (group_open gg)); [by intros d _|].
  eapply rg_bind; [by apply rg_SetGroup|]. intros [att|e]; cbv beta; [|by intros d _]. apply (IH (Some gg)).
Qed.

Lemma safe_OnRootOpened roots root node `{!ResolverLaw roots} : safe (OnRootOpened roots root node (project_of root)).
Proof.
  unfold OnRootOpened. apply safe_seq; [apply rl_invalidate|]. intros _. apply safe_seq; [apply _|].
  intros [cands|e]; [|apply safe_ret]. apply (safe_attach_all roots root node cands None).
Qed.

Lemma safe_Resolve root : safe (Resolve root).
Proof.
  assert (keeps (Resolve root)) as Hk.
  { apply keeps_tables. intros t Ht. by apply (resolve_where_ok (fun g => bool_decide (root_key g = root))). }
  eapply rg_mono; [apply Hk, stable_true|done].
Qed.

Lemma keeps_sweep : keeps SweepOrphanGroups.
Proof. apply keeps_tables. intros t Ht. by apply (resolve_where_ok (orphan t) t). Qed.

Lemma keeps_purge now olderThan : keeps (PurgeOldGroups now olderThan).
Proof. apply keeps_tables. intros t Ht. by apply (purge_ok (now - olderThan)). Qed.

(** What runs on the tables: the hooks of the evaluators, the janitor. *)
Inductive group_program (roots : RootResolver D) (dep : B5Checker D) : prog D () -> Prop :=
| gp_attach source id kind node : group_program roots dep (_ ← Attach roots source id kind node; mret tt)
| gp_metric id project host : group_program roots dep (_ ← AttachMetric roots id project host; mret tt)
| gp_opened root node : group_program roots dep (_ ← OnRootOpened roots root node (project_of root); mret tt)
| gp_closed root : group_program roots dep (_ ← OnRootClosed root; mret tt)
| gp_suppressed source id grouper : grouper = None \/ grouper = Some roots ->
    group_program roots dep (_ ← MarkSuppressed dep grouper source id; mret tt)
| gp_janitor purge : group_program roots dep (janitor_tick purge).

(** Incidents come, go and change, but for their group; hosts too. *)
Definition incidents_change (t t' : GroupTables) : Prop :=
  igroups t' = igroups t /\ next_group t' = next_group t /\
  forall key m', members t' !! key = Some m' -> mb_project m' = project_of key /\
    (mb_group m' = None \/ exists m, members t !! key = Some m /\ mb_group m' = mb_group m).

Lemma incidents_change_ok t t' : groups_ok t -> incidents_change t t' -> groups_ok t' /\ evolves t t'.
Proof.
  intros Ht (Hg & Hn & Hm). split; [|split; [lia|]; intros gid _ g; rewrite Hg; by exists g].
  constructor; rewrite ?Hg, ?Hn; [apply (ok_ids t Ht)|apply (ok_unique t Ht)|apply (ok_project t Ht)|by intros key m' [? _]%Hm|].
  intros key m' gid Hm' Hgid. destruct (Hm key m' Hm') as [Hp [Hnone|(m & Hm0 & Heq)]]; [congruence|]. rewrite Heq in Hgid.
  destruct (ok_member t Ht key m gid Hm0 Hgid) as [Hlt Hall]. split; [done|]. intros g Hlook. destruct (Hall g Hlook) as [? ->].
  split; [done|]. rewrite Hp. by eapply (ok_member_project t Ht).
Qed.

Lemma group_program_safe roots dep p `{!ResolverLaw roots} :
  (forall source id, keeps (B5_MarkSuppressed dep source id)) -> group_program roots dep p -> safe p.
Proof.
  intros Hdep Hp.
  assert (forall A (q : prog D A), safe q -> safe (_ ← q; mret tt)) as Hend.
  { intros A q Hq. eapply rg_bind; [exact Hq|]. intros a. apply safe_ret. }
  destruct Hp as [source id kind node|id project host|root node|root|source id grouper Hgr|purge].
  - apply Hend. by apply safe_Attach.
  - apply Hend. unfold AttachMetric. apply safe_seq; [apply _|]. intros [[hostID|]|e]; [by apply safe_Attach|apply safe_ret..].
  - apply Hend. by apply safe_OnRootOpened.
  - apply Hend. unfold OnRootClosed. eapply rg_bind; [apply safe_Resolve|]. intros [?|?]; apply safe_ret.
  - apply Hend. unfold MarkSuppressed. apply safe_seq; [apply Hdep|]. intros [_|e]; [|apply safe_ret].
    destruct grouper as [r|]; [|apply safe_ret]. destruct Hgr as [?|[= ->]]; [done|]. destruct (negb _); [apply safe_ret|].
    apply safe_seq; [apply _|]. intros [m|e]; [|apply safe_ret]. destruct (m ≫= mb_node) as [[k hostID]|]; [|apply safe_ret].
    eapply rg_bind; [by apply safe_Attach|]. intros a. apply safe_ret.
  - unfold janitor_tick. apply safe_seq; [apply keeps_sweep|]. intros _. destruct purge as [[now retention]|]; [|apply safe_ret].
    apply safe_seq; [apply keeps_purge|]. intros _. apply safe_ret.
Qed.

End membership.

(** C32: whatever runs together, and whatever fails: an incident is only in
    groups of its own project and never in its own group, a root has one group,
    a group never changes its root nor is reopened, and the id of a purged
    group is never used again. *)
Theorem groups_invariant {D} `{Has GroupTables D} (project_of : string * Z -> Z) (roots : RootResolver D) (dep : B5Checker D) (env : D -> D -> Prop) d0 s :
  ResolverLaw project_of roots -> (forall source id, Keeps (ok project_of) moved_on (B5_MarkSuppressed dep source id)) ->
  (forall d d', env d d' -> incidents_change project_of (get d) (get d')) ->
  groups_ok project_of (get d0) ->
  rtc (pool_step (group_program project_of roots dep) env) (Pool d0 [] 0) s ->
  groups_ok project_of (get (shared s)) /\ evolves (get d0) (get (shared s)).
Proof.
  intros Hr Hdep Henv H0 Hs.
  apply (rg_pool_history (ok project_of) moved_on (group_program project_of roots dep) env d0 s); [| |exact H0|exact Hs].
  - intros p Hp. by apply (group_program_safe project_of roots dep).
  - intros d d' Hd Hok. by apply incidents_change_ok, Henv.
Qed.

(** ** Members are not silenced for nothing *)

(** after the janitor's sweep, a member shown as held by its group has a
    root that is open and was notified: nobody stays silent behind a root that
    has closed. *)
Theorem held_has_root {D} `{Has GroupTables D} (s s' : sys D) n projectID gid it :
  exec SweepOrphanGroups s = (Ok n, s') ->
  it ∈ Composition projectID gid (get (db s')) -> HeldByGroup it = true ->
  exists g root, igroups (get (db s')) !! gid = Some g /\ members (get (db s')) !! root_key g = Some root /\
    mb_open root = true /\ mb_notified root = true.
Proof.
  intros Hx%exec_call_ok Hit Hh. assert (get (db s') = resolve_where (orphan (get (db s))) (get (db s))) as Ht.
  { apply (f_equal snd) in Hx. cbn [snd] in Hx. by rewrite <- Hx, get_on. }
  rewrite Ht in *. clear Ht Hx. set (t := get (db s)) in *. apply composition_inv in Hit as (m & _ & _ & _ & Heq).
  rewrite Hh in Heq. unfold held in Heq. cbn [resolve_where igroups set_groups] in *.
  rewrite lookup_fmap in *. destruct (igroups t !! gid) as [g|] eqn:Hg; [|done]. cbn [fmap option_fmap option_map] in *.
  set (g' := if group_open g && orphan t g then g <| GroupResolved := Some (gr_now t) |> else g) in *.
  symmetry in Heq. apply andb_true_iff in Heq as [[Ho _]%andb_true_iff Hn].
  assert (group_open g = true /\ orphan t g = false) as [Hgo Horph].
  { unfold g' in Ho. destruct g as [? ? ? ? ? ? ? r]. unfold group_open in *. cbn in *. destruct r; [done|]. by destruct (orphan _ _). }
  assert (g' = g) as Hgg by (unfold g'; by rewrite Hgo, Horph). rewrite Hgg in *.
  unfold root_notified in Hn. cbn [members set_groups] in Hn. unfold orphan, root_is_open in Horph.
  destruct (bool_decide _); [|done]. destruct (members t !! root_key g) as [root|] eqn:Hroot; [|done]. simpl in Horph.
  change (members (resolve_where (orphan t) t)) with (members t) in *. rewrite Hroot in Hn.
  exists g, root. apply negb_false_iff in Horph. done.
Qed.

(** ** The theorems at work *)

(** Host 1 is silent (incident 10); behind it monitor 2 is down (incident 20)
    and a metric alert fired (incident 30); monitor 3 (incident 21) is apart. *)
Definition ex_members : gmap (string * Z) Member :=
  <[("host", 10) := mkMember 5 (Some ("host", 1)) true 100 None true false None]>
  (<[("metric", 30) := mkMember 5 (Some ("host", 1)) false 120 None true false None]>
  (<[("uptime", 21) := mkMember 5 (Some ("monitor", 3)) false 130 None true false None]> ∅)).
Definition ex_tables : GroupTables := mkGroupTables ∅ 1 ex_members ∅ 1000.
Definition ex_roots : RootResolver GroupTables :=
  mkRootResolver _ (fun k i => mret (Ok (if bool_decide (k = "host") then Some ("host", i) else None))) (mret tt).
Definition ex_dep : B5Checker GroupTables := mkB5Checker _ (fun _ _ => mret (Ok (false, false))) (fun _ _ => mret (Ok tt)).

Definition ex_opened : prog GroupTables () := _ ← OnRootOpened ex_roots ("host", 10) ("host", 1) 5; mret tt.

Lemma ex_tables_ok : groups_ok (fun _ => 5) ex_tables.
Proof.
  assert (forall key m, members ex_tables !! key = Some m -> mb_project m = 5 /\ mb_group m = None) as Hm.
  { intros key m. unfold ex_tables, ex_members. cbn [members]. rewrite !lookup_insert_Some, lookup_empty. naive_solver. }
  constructor; try (intros *; unfold ex_tables; cbn [igroups]; by rewrite lookup_empty).
  - intros key m Hk. by apply Hm in Hk as [? _].
  - intros key m gid Hk. apply Hm in Hk as [_ Hk]. by rewrite Hk.
Qed.

Lemma groups_invariant_witness : exists s : pool GroupTables,
  (mb_group <$> members (shared s) !! ("metric", 30)) = Some (Some 1) /\
  groups_ok (fun _ => 5) (get (shared s)) /\ evolves (get ex_tables) (get (shared s)).
Proof.
  exists (Pool (exec0 ex_opened ex_tables).2 [] 0). split; [vm_compute; reflexivity|].
  apply (groups_invariant (D := GroupTables) (fun _ => 5) ex_roots ex_dep (incidents_change (fun _ => 5)) ex_tables).
  - split; [intros kind id; apply keeps_ret|apply keeps_ret].
  - intros source id. apply keeps_ret.
  - intros d d' Hd. exact Hd.
  - exact ex_tables_ok.
  - apply pool_exec. apply (gp_opened (fun _ => 5) ex_roots ex_dep ("host", 10) ("host", 1)).
Defined.

Definition ex_grouped : GroupTables := (exec0 ex_opened ex_tables).2.

Lemma feed_complete_witness :
  (exists it, it ∈ OpenOutOfGroup 5 ex_grouped /\ it_key it = ("uptime", 21)) /\
  ((exists g, g ∈ OpenGroups 5 ex_grouped /\ root_key g = ("host", 10)) \/
   (exists g it, g ∈ OpenGroups 5 ex_grouped /\ it ∈ Composition 5 (GroupID g) ex_grouped /\ it_key it = ("host", 10)) \/
   (exists it, it ∈ OpenOutOfGroup 5 ex_grouped /\ it_key it = ("host", 10))).
Proof.
  split; [eexists; split; [vm_compute; left|reflexivity]|].
  apply (feed_complete ex_grouped 5 ("host", 10) (mkMember 5 (Some ("host", 1)) true 100 None true false None)).
  - assert (igroups ex_grouped = {[1 := mkGroup 1 5 "host" 10 "host" 1 1000 None]}) as Heq by (vm_compute; reflexivity).
    intros gid g Hg. rewrite Heq in Hg. by apply lookup_singleton_Some in Hg as [<- <-].
  - reflexivity.
  - reflexivity.
  - reflexivity.
  - vm_compute. lia.
  - vm_compute. lia.
Defined.

Lemma held_has_root_witness :
  exists n s', exec SweepOrphanGroups (Sys ex_grouped []) = (Ok n, s') /\
    exists g root, igroups (get (db s')) !! 1 = Some g /\ members (get (db s')) !! root_key g = Some root /\
      mb_open root = true /\ mb_notified root = true.
Proof.
  eexists _, _. split; [reflexivity|].
  eapply (held_has_root (Sys ex_grouped []) _ _ 5 1 (mkFeedItem ("metric", 30) 120 None false 0 true));
    [reflexivity|vm_compute; left|reflexivity].
Defined.
