(* ===== verification/Quota.v ===== *)
(** Monthly quotas: [internal/ingest/quota.go] and [checkAndCount], [refund] of
    [internal/org/usage.go], for one of the five counters.

    Every replica keeps the quota of an organisation for [ttl] and remembers
    for [quotaNegTTL] that it is exhausted; the counter itself is a row of
    [org_usage].  [granted] and [refunded] record what callers were told and
    gave back: the meter the whole is proved to implement. *)
From stdpp Require Import base tactics list gmap relations.
From Stdlib Require Import ZArith Lia.
From coqutil Require Import Datatypes.RecordSetters.
From S2P Require Import Prelude.
From S2P Require Import Prog.
From S2P Require Import Rely.
From S2P Require Import Environment.

Import RecordSetters.TriangleBracketNotations.
Open Scope Z_scope.
Open Scope go_scope.

(** ** Months *)

(** Day of the month, from the days since 1 January 1970. *)
Definition day_of_month (days : Z) : Z :=
  let doe := (days + 719468) mod 146097 in
  let yoe := (doe - doe / 1460 + doe / 36524 - doe / 146096) / 365 in
  let doy := doe - (365 * yoe + yoe / 4 - yoe / 100) in
  let mp := (5 * doy + 2) / 153 in
  doy - (153 * mp + 2) / 5 + 1.

Definition monthStart (t : Z) : Z :=
  let days := t / (24 * hour) in (days - (day_of_month days - 1)) * (24 * hour).

(** [time.Time{}] *)
Definition zero_time : Z := -62135596800 * second.

(** ** State *)

Record quotaEntry := mkQuotaEntry { quota_value : Z; quota_expires : Z }.

(** The maps of an [OrgQuota]. *)
Record OrgQuota := mkOrgQuota { entries : gmap Z quotaEntry; exhausted : gmap Z Z }.

Abbreviation usage_key := (Z * Z)%type.

Record QuotaTables := mkQuotaTables {
  org_quota : gmap Z Z; (** the quota column of [organizations] *)
  usage : gmap usage_key Z; (** the counter of [org_usage], by organisation and month *)
  replicas : gmap nat OrgQuota;
  granted : gmap usage_key Z; refunded : gmap usage_key Z }.

Inductive quota_error := ErrNotFound | ErrQuotaSQL.

Definition count (m : gmap usage_key Z) (k : usage_key) : Z := default 0 (m !! k).
Definition add_count (k : usage_key) (n : Z) (m : gmap usage_key Z) : gmap usage_key Z := <[k := count m k + n]> m.

Arguments add_count : simpl never.
Arguments count : simpl never.

Definition ttl : Z := 30 * second.
Definition quotaNegTTL : Z := 5 * second.
Definition maxKeyCacheEntries : nat := Z.to_nat 10000.

Definition cache_of (r : nat) (t : QuotaTables) : OrgQuota := default (mkOrgQuota ∅ ∅) (replicas t !! r).
Definition set_cache (r : nat) (c : OrgQuota) (t : QuotaTables) : QuotaTables := t <| replicas := <[r := c]> (replicas t) |>.

(** ** The counter *)

(** The statement of [checkAndCount]: what the row grows by; no row comes back
    when the condition of the update fails. *)
Definition charge (quota want : Z) (row : option Z) : option Z :=
  match row with
  | None => Some (if quota <=? 0 then want else Z.min want quota)
  | Some n =>
      if (quota <=? 0) || (n <? quota) then Some (if quota <=? 0 then want else Z.max (Z.min want (quota - n)) 0) else None
  end.

Definition charge_row (k : usage_key) (quota want : Z) (t : QuotaTables) : Z * QuotaTables :=
  match charge quota want (usage t !! k) with
  | Some g => (g, t <| usage := add_count k g (usage t) |>)
  | None => (0, t)
  end.

Definition refund_row (k : usage_key) (n : Z) (t : QuotaTables) : QuotaTables :=
  match usage t !! k with
  | Some u => t <| usage := <[k := Z.max (u - n) 0]> (usage t) |>
  | None => t
  end.

(** ** Caches *)

(** Keys in the order Go's range happens to visit them. *)
Definition range_order : Type := forall A : Type, gmap Z A -> list Z.

Definition evict {A} (order : range_order) (expired : A -> bool) (m : gmap Z A) : gmap Z A :=
  let m := filter (fun '(_, e) => expired e = false) m in
  if (size m <? maxKeyCacheEntries)%nat then m else
  let n := if (size m / 10 =? 0)%nat then 1%nat else (size m / 10)%nat in
  foldl (fun m k => delete k m) m (take n (order A m)).

Definition make_room {A} (order : range_order) (expired : A -> bool) (m : gmap Z A) : gmap Z A :=
  if (maxKeyCacheEntries <=? size m)%nat then evict order expired m else m.

Section programs.
Context {D : Type} `{Has QuotaTables D} (order : range_order) (clock : nat -> D -> Z).

Definition in_cache {A} (r : nat) (f : D -> OrgQuota -> A * OrgQuota) : prog D A :=
  locked (fun d => let '(a, c) := f d (cache_of r (get d)) in (a, put (set_cache r c (get d)) d)).

(** The cached quota, else that of the row. *)
Definition quota (r : nat) (orgID : Z) : prog D (result quota_error Z) :=
  now ← pgets (clock r);
  cached ← in_cache r (fun _ c =>
    (match entries c !! orgID with Some e => if now <? quota_expires e then Some (quota_value e) else None | None => None end, c));
  match cached with
  | Some q => mret (Ok q)
  | None =>
      tryE: o ← ask ErrQuotaSQL (fun d => org_quota (get d) !! orgID) catch e => mret (Err e);
      match o with
      | None => mret (Err ErrNotFound)
      | Some q =>
          _ ← in_cache r (fun _ c =>
            (tt, c <| entries := <[orgID := mkQuotaEntry q (now + ttl)]> (make_room order (fun e => quota_expires e <=? now) (entries c)) |>));
          mret (Ok q)
      end
  end.

Definition recentlyExhausted (r : nat) (orgID : Z) : prog D bool :=
  now ← pgets (clock r);
  in_cache r (fun _ c =>
    match exhausted c !! orgID with
    | None => (false, c)
    | Some exp => if exp <=? now then (false, c <| exhausted := delete orgID (exhausted c) |>) else (true, c)
    end).

Definition markExhausted (r : nat) (orgID : Z) : prog D () :=
  now ← pgets (clock r);
  in_cache r (fun _ c =>
    (tt, c <| exhausted := <[orgID := now + quotaNegTTL]> (make_room order (fun exp => exp <=? now) (exhausted c)) |>)).

(** [checkAndCount]; the caller learns what was granted only from a reply. *)
Definition checkCount (orgID month q want : Z) : prog D (result quota_error Z) :=
  if want <=? 0 then mret (Ok 0) else
  let k := (orgID, monthStart month) in
  Step (fun f d =>
      match f with
      | FNone => let '(g, t) := charge_row k q want (get d) in put (t <| granted := add_count k g (granted t) |>) d
      | FLost => d
      | FLostReply => put (charge_row k q want (get d)).2 d
      end)
    (fun f d => Ret (match f with FNone => Ok (charge_row k q want (get d)).1 | _ => Err ErrQuotaSQL end)).

Definition CheckAndCount (r : nat) (orgID want : Z) : prog D (result quota_error (Z * Z)) :=
  if want <=? 0 then mret (Ok (0, zero_time)) else
  recent ← recentlyExhausted r orgID;
  if recent : bool then mret (Ok (0, zero_time)) else
  tryE: q ← quota r orgID catch e => mret (Err e);
  chargedAt ← pgets (clock r);
  tryE: g ← checkCount orgID chargedAt q want catch e => mret (Err e);
  _ ← (if g <? want then markExhausted r orgID else mret tt);
  mret (Ok (g, chargedAt)).

(** [Refund]: the items are given up whether or not the row is updated. *)
Definition Refund (orgID n chargedAt : Z) : prog D (result quota_error ()) :=
  if n <=? 0 then mret (Ok tt) else
  let k := (orgID, monthStart chargedAt) in
  Step (fun f d =>
      let t := get d in
      let t := match f with FLost => t | _ => refund_row k n t end in
      put (t <| refunded := add_count k n (refunded t) |>) d)
    (fun f d => Ret (match f with FNone => Ok tt | _ => Err ErrQuotaSQL end)).

(** [Handler.grant]: a quota that cannot be checked does not stop the items. *)
Definition grant (r : nat) (orgID want : Z) : prog D (Z * Z) :=
  if want <=? 0 then mret (0, zero_time) else
  tryE: g ← CheckAndCount r orgID want catch e => mret (want, zero_time);
  mret g.

Definition refund (orgID n chargedAt : Z) : prog D () :=
  if n <=? 0 then mret tt else _ ← Refund orgID n chargedAt; mret tt.

(** A request: what was granted goes to the writers, which may turn some of it
    away. *)
Definition request (r : nat) (orgID want : Z) (turned_away : Z -> Z) : prog D () :=
  '(g, chargedAt) ← grant r orgID want;
  refund orgID (turned_away g) chargedAt.
End programs.

(** ** The meter *)

(** What is promised: grants and refunds, the grants never ahead of the
    refunds by more than the limit of the organisation. *)
Inductive meter_step (limit : Z -> option Z) : gmap usage_key Z * gmap usage_key Z -> gmap usage_key Z * gmap usage_key Z -> Prop :=
| meter_grant gr rf org month g : 0 <= g ->
    (forall L, limit org = Some L -> count gr (org, month) + g - count rf (org, month) <= L) ->
    meter_step limit (gr, rf) (add_count (org, month) g gr, rf)
| meter_refund gr rf k n : 0 < n -> meter_step limit (gr, rf) (gr, add_count k n rf).

Section meter.
Context {D : Type} `{Has QuotaTables D} (order : range_order) (clock : nat -> D -> Z) (limit : Z -> option Z).

(** A quota the organisation may be given. *)
Definition legal (org q : Z) : Prop := match limit org with Some L => 0 < q <= L | None => True end.

Record quota_ok (t : QuotaTables) : Prop := {
  qo_quota org q : org_quota t !! org = Some q -> legal org q;
  qo_cache r c org e : replicas t !! r = Some c -> entries c !! org = Some e -> legal org (quota_value e);
  qo_usage org month L : limit org = Some L -> count (usage t) (org, month) <= L;
  qo_positive k : 0 <= count (usage t) k;
  qo_granted k : count (granted t) k - count (refunded t) k <= count (usage t) k }.

Definition ok (d : D) : Prop := quota_ok (get d).
Definition meter (d : D) := (granted (get d), refunded (get d)).
Definition metered (d d' : D) : Prop := rtc (meter_step limit) (meter d) (meter d').

#[export] Instance metered_preorder : PreOrder metered.
Proof. split; [intros d; unfold metered; reflexivity|intros a b c; unfold metered; intros; by etrans]. Qed.

Abbreviation rgp := (rg ok metered).
Abbreviation keeps := (Keeps ok metered).
Abbreviation safe p := (rgp (fun _ => True) p (fun _ _ => True)).

Lemma count_add k n m k' : count (add_count k n m) k' = count m k' + (if decide (k' = k) then n else 0).
Proof.
  unfold count, add_count. destruct (decide (k' = k)) as [->|]; [by rewrite lookup_insert_eq|].
  rewrite lookup_insert_ne by done. lia.
Qed.

Lemma charge_bounds q want row g L : 0 < want -> 0 < q <= L -> charge q want row = Some g ->
  0 <= g /\ default 0 row + g <= Z.max (default 0 row) L.
Proof.
  intros Hw Hq. unfold charge. destruct (Z.leb_spec q 0); [lia|]. destruct row as [n|]; simpl; [|intros [= <-]; lia].
  destruct (Z.ltb_spec n q); [|done]. intros [= <-]. lia.
Qed.

Lemma charge_pos q want row g : 0 < want -> charge q want row = Some g -> 0 <= g.
Proof.
  intros Hw. unfold charge. destruct (Z.leb_spec q 0), row as [n|]; simpl; try (intros [= <-]; lia).
  destruct (n <? q); [|done]. intros [= <-]. lia.
Qed.

Lemma charge_row_ok org month q want t : 0 < want -> legal org q -> quota_ok t ->
  let g := (charge_row (org, month) q want t).1 in let t' := (charge_row (org, month) q want t).2 in
  quota_ok t' /\ granted t' = granted t /\ refunded t' = refunded t /\ 0 <= g /\
  count (usage t') (org, month) = count (usage t) (org, month) + g.
Proof.
  intros Hw Hlegal Ht. unfold charge_row. destruct (charge q want (usage t !! (org, month))) as [g|] eqn:Hc; cbn [fst snd].
  - pose proof (charge_pos _ _ _ _ Hw Hc) as Hg. destruct t as [oq us rs gr rf]. cbn in *. unfold constant in *.
    split_and!; try done; [|rewrite count_add, decide_True by done; done].
    destruct Ht as [H1 H2 H3 H4 H5]. constructor; cbn in *; unfold constant in *; [exact H1|exact H2| | |].
    + intros org' month' L HL. rewrite count_add. destruct (decide ((org', month') = (org, month))) as [[= -> ->]|]; [|specialize (H3 org' month' L HL); lia].
      unfold legal in Hlegal. rewrite HL in Hlegal. destruct (charge_bounds _ _ _ _ _ Hw Hlegal Hc) as [_ Hb].
      specialize (H3 org month L HL). unfold count in *. lia.
    + intros k. rewrite count_add. specialize (H4 k). destruct (decide _); lia.
    + intros k. rewrite count_add. specialize (H5 k). destruct (decide _); lia.
  - split_and!; [done..|lia|lia].
Qed.

Lemma safe_checkCount org month q want : legal org q -> safe (checkCount org month q want).
Proof.
  intros Hl. unfold checkCount. destruct (Z.leb_spec want 0); [by intros d _|]. cbv zeta. set (k := (org, monthStart month)).
  intros f d Hd _. destruct (charge_row_ok org (monthStart month) q want (get d) ltac:(lia) Hl Hd) as (Hok & Hgr & Hrf & Hg & Hu). fold k in Hok, Hgr, Hrf, Hg, Hu.
  cut (ok (match f with
      | FNone => let '(g, t) := charge_row k q want (get d) in put (t <| granted := add_count k g (granted t) |>) d
      | FLost => d | FLostReply => put (charge_row k q want (get d)).2 d end) /\
    metered d (match f with
      | FNone => let '(g, t) := charge_row k q want (get d) in put (t <| granted := add_count k g (granted t) |>) d
      | FLost => d | FLostReply => put (charge_row k q want (get d)).2 d end)).
  { intros [? ?]. do 2 (split; [done|]). exists (fun _ => True). split_and!; [done|done|by intros d' _]. }
  destruct f.
  - destruct (charge_row k q want (get d)) as [g t]. cbn [fst snd] in *. unfold ok, metered, meter. rewrite get_put. split.
    + destruct t as [oq us rs gr rf]. destruct Hok as [H1 H2 H3 H4 H5]. constructor; cbn in *; unfold constant in *; try done.
      intros k'. rewrite count_add. specialize (H5 k'). destruct (decide (k' = k)) as [->|]; [|lia].
      pose proof (qo_granted _ Hd k). rewrite Hgr, Hrf in *. lia.
    + apply rtc_once. rewrite <- Hgr, <- Hrf. destruct t as [oq us rs gr rf]. cbn. unfold constant. apply meter_grant; [done|].
      intros L HL. pose proof (qo_granted _ Hd k) as H5. rewrite <- Hgr, <- Hrf in H5. cbn in *. subst k.
      pose proof (qo_usage _ Hok org (monthStart month) L HL). cbn in *. lia.
  - split; [done|]. unfold metered. reflexivity.
  - unfold ok, metered, meter. rewrite get_put. split; [done|]. rewrite Hgr, Hrf. reflexivity.
Qed.

Definition cache_legal (c : OrgQuota) : Prop := forall org e, entries c !! org = Some e -> legal org (quota_value e).

Lemma rg_in_cache {A} r (f : D -> OrgQuota -> A * OrgQuota) (Φ : A -> Prop) :
  (forall d c, cache_legal c -> Φ (f d c).1 /\ cache_legal (f d c).2) ->
  rgp (fun _ => True) (in_cache r f) (fun a _ => Φ a).
Proof.
  intros Hf fl d Hd _.
  assert (cache_legal (cache_of r (get d))) as Hc.
  { unfold cache_of. destruct (replicas (get d) !! r) as [c|] eqn:Hr; [|intros org e; simpl; by rewrite lookup_empty].
    intros org e. by apply (qo_cache _ Hd r). }
  destruct (Hf d _ Hc) as [HΦ Hc']. destruct (f d (cache_of r (get d))) as [a c]. cbn [fst snd] in *.
  unfold ok, metered, meter. rewrite get_put. split; [|split].
  - destruct Hd as [H1 H2 H3 H4 H5]. destruct (get d) as [oq us rs gr rf]. constructor; cbn in *; unfold constant in *; try done.
    intros r' c' org e. rewrite lookup_insert_Some. intros [[<- <-]|[_ Hr]]; [apply Hc'|by apply (H2 r')].
  - destruct (get d). reflexivity.
  - exists (fun _ => True). split_and!; [done|done|]. by intros d' _ _.
Qed.

Lemma evict_lookup {A} (expired : A -> bool) (m : gmap Z A) k e :
  make_room order expired m !! k = Some e -> m !! k = Some e.
Proof.
  unfold make_room. destruct (_ <=? _)%nat; [|done]. unfold evict.
  assert (forall ks (m : gmap Z A), foldl (fun m k => delete k m) m ks !! k = Some e -> m !! k = Some e) as Hdel.
  { intros ks. induction ks as [|k' ks IH]; intros m'; [done|]. simpl. intros Hk%IH. by apply lookup_delete_Some in Hk as [_ Hk]. }
  destruct (_ <? _)%nat; [|intros Hk%Hdel; revert Hk]; by intros [? _]%map_lookup_filter_Some.
Qed.

Lemma rg_quota r orgID : rgp (fun _ => True) (quota order clock r orgID) (fun q _ => match q with Ok q => legal orgID q | Err _ => True end).
Proof.
  unfold quota. apply (rg_seq ok metered (fun _ => True)); [apply stable_true|apply _|]. intros now.
  eapply rg_bind; [apply (rg_in_cache _ _ (fun q => match q with Some q => legal orgID q | None => True end))|].
  { intros d c Hc. cbn [fst snd]. split; [|done]. destruct (entries c !! orgID) as [e|] eqn:He; [|done].
    destruct (now <? quota_expires e); [|done]. by apply Hc. }
  intros [q|]; cbv beta iota; [by intros d _|].
  eapply rg_bind; [apply (rg_ask ok metered _ _ _ (fun o _ => match o with Some q => legal orgID q | None => True end));
    [apply stable_true|intros o; apply stable_pure|]|].
  { intros d Hd _. destruct (org_quota (get d) !! orgID) as [q|] eqn:Hq; [|done]. by apply (qo_quota _ Hd). }
  intros [[q|]|e]; cbv beta iota; [|by intros d _..].
  apply (rg_weaken _ _ (fun _ => legal orgID q /\ True)); [by intros d _ [_ ?]|]. apply rg_pure. intros Hq.
  eapply rg_bind; [apply (rg_in_cache _ _ (fun _ => True))|by intros a d _ _].
  intros d c Hc. split; [done|]. cbn [snd]. intros org e. destruct c as [es ex]. cbn. unfold constant. rewrite lookup_insert_Some.
  intros [[<- <-]|[_ He%evict_lookup]]; [done|by apply Hc].
Qed.

Lemma keeps_cache {A} r (f : D -> OrgQuota -> A * OrgQuota) :
  (forall d c, cache_legal c -> cache_legal (f d c).2) -> safe (in_cache r f).
Proof. intros Hf. eapply rg_mono; [apply (rg_in_cache _ _ (fun _ => True))|done]. intros d c Hc. split; [done|by apply Hf]. Qed.

Lemma safe_bind {A B} (p : prog D A) (k : A -> prog D B) : safe p -> (forall a, safe (k a)) -> safe (mbind k p).
Proof. intros Hp Hk. eapply rg_bind; [exact Hp|exact Hk]. Qed.

Lemma safe_clock r : safe (pgets (clock r)).
Proof. eapply rg_mono; [apply (keeps_pgets ok metered (clock r) (fun _ => True)), stable_true|done]. Qed.

Lemma safe_CheckAndCount r orgID want : safe (CheckAndCount order clock r orgID want).
Proof.
  unfold CheckAndCount. destruct (want <=? 0); [by intros d _|]. apply safe_bind.
  { unfold recentlyExhausted. apply safe_bind; [apply safe_clock|]. intros now. apply keeps_cache.
    intros d c Hc. destruct (exhausted c !! orgID) as [exp|]; [|done]. destruct (exp <=? now); [|done]. by destruct c. }
  intros [|]; [by intros d _|]. eapply rg_bind; [apply rg_quota|]. intros [q|e]; cbv beta iota; [|by intros d _].
  apply (rg_weaken _ _ (fun _ => legal orgID q /\ True)); [by split|]. apply rg_pure. intros Hq.
  apply safe_bind; [apply safe_clock|]. intros chargedAt. apply safe_bind; [by apply safe_checkCount|].
  intros [g|e]; [|by intros d _]. apply safe_bind; [|by intros a d _]. destruct (g <? want); [|by intros d _].
  unfold markExhausted. apply safe_bind; [apply safe_clock|]. intros now. apply keeps_cache. intros d c Hc. by destruct c.
Qed.

Lemma safe_Refund orgID n chargedAt : safe (Refund orgID n chargedAt).
Proof.
  unfold Refund. destruct (Z.leb_spec n 0) as [Hn|Hn]; [by intros d _|]. intros f d Hd _. cbv zeta. generalize (orgID, monthStart chargedAt). intros k.
  assert (quota_ok ((refund_row k n (get d)) <| refunded := add_count k n (refunded (get d)) |>) /\
    quota_ok ((get d) <| refunded := add_count k n (refunded (get d)) |>)) as [Hr Hl].
  { destruct Hd as [H1 H2 H3 H4 H5]. unfold refund_row. destruct (get d) as [oq us rs gr rf]. cbn in *. split.
    - destruct (us !! k) as [u|] eqn:Hu; constructor; cbn; unfold constant; try done.
      + intros org month L HL. specialize (H3 org month L HL). specialize (H4 (org, month)). unfold count in *.
        destruct (decide ((org, month) = k)) as [Hk|]; [rewrite Hk in H3, H4 |- *; rewrite Hu in H3, H4; rewrite lookup_insert_eq; simpl in *; lia|by rewrite lookup_insert_ne].
      + intros k'. specialize (H4 k'). unfold count in *. destruct (decide (k' = k)) as [->|]; [rewrite lookup_insert_eq; simpl; lia|by rewrite lookup_insert_ne].
      + intros k'. rewrite count_add. specialize (H5 k'). unfold count in *. destruct (decide (k' = k)) as [->|].
        * rewrite Hu in H5. rewrite lookup_insert_eq. simpl in *. lia.
        * rewrite (lookup_insert_ne us) by done. lia.
      + intros k'. rewrite count_add. specialize (H5 k'). destruct (decide (k' = k)); lia.
    - constructor; cbn; unfold constant; try done. intros k'. rewrite count_add. specialize (H5 k'). destruct (decide (k' = k)); lia. }
  assert (forall t', granted t' = granted (get d) -> refunded t' = add_count k n (refunded (get d)) -> metered d (put t' d)) as Hm.
  { intros t' Hg Hrf. unfold metered, meter. rewrite get_put, Hg, Hrf. apply rtc_once. by constructor. }
  assert (granted (refund_row k n (get d)) = granted (get d) /\ refunded (refund_row k n (get d)) = refunded (get d)) as [Eg Er].
  { unfold refund_row. destruct (usage (get d) !! k); [|done]. by destruct (get d). }
  split; [|split].
  - unfold ok. destruct f; rewrite get_put; rewrite ?Er; done.
  - destruct f; apply Hm; rewrite ?Er; try (destruct (refund_row k n (get d)); exact Eg); try (destruct (refund_row k n (get d)); reflexivity);
      destruct (get d); reflexivity.
  - exists (fun _ => True). split_and!; [done|done|by intros d' _].
Qed.

Lemma safe_request r orgID want turned_away : safe (request order clock r orgID want turned_away).
Proof.
  unfold request. apply safe_bind.
  - unfold grant. destruct (want <=? 0); [by intros d _|]. apply safe_bind; [apply safe_CheckAndCount|]. intros [g|e]; by intros d _.
  - intros [g chargedAt]. unfold refund. destruct (_ <=? 0); [by intros d _|].
    apply safe_bind; [apply safe_Refund|]. intros a. by intros d _.
Qed.
End meter.

(** Quotas are edited within the limits, months pass, replicas restart. *)
Definition quotas_change (limit : Z -> option Z) (t t' : QuotaTables) : Prop :=
  (forall org q, org_quota t' !! org = Some q -> legal limit org q) /\
  (forall r c', replicas t' !! r = Some c' -> entries c' = ∅ \/ replicas t !! r = Some c') /\
  usage t' = usage t /\ granted t' = granted t /\ refunded t' = refunded t.


(** ** The theorem at work *)

(** 9 September 2024; the month began on the 1st. *)
Definition ex_now : Z := (19975 * 86400 + 600) * second.
Example ex_month : monthStart ex_now = 19967 * 86400 * second.
Proof. reflexivity. Qed.

Definition ex_order : range_order := fun A m => map fst (map_to_list m).
Definition ex_clock (_ : nat) (_ : QuotaTables) : Z := ex_now.
Definition ex_limit (org : Z) : option Z := if org =? 7 then Some 10 else None.
Definition ex_quota : QuotaTables := mkQuotaTables {[7 := 10]} ∅ ∅ ∅ ∅.

Lemma ex_quota_ok : quota_ok ex_limit ex_quota.
Proof.
  constructor; cbn; intros *; rewrite ?lookup_empty; try done.
  - intros [<- <-]%lookup_singleton_Some. vm_compute. done.
  - unfold ex_limit. destruct (Z.eqb_spec org 7); [|done]. by intros [= <-].
Qed.

