(* ===== verification/Cardinality.v ===== *)
(** The guard against unbounded names: [internal/ingest/cardinality.go].

    Under its mutex the guard keeps, for every project and field, the values
    seen in the current window; once the limits are reached new values are
    replaced by one name.  [Value] is one step on [CardinalityGuard]. *)
From stdpp Require Import base tactics list gmap strings sorting.
From Stdlib Require Import ZArith Lia Ascii.
From S2P Require Import Prelude.

Open Scope Z_scope.

(** ** Data *)

Definition CardinalityOverflow : string := "<cardinality-limit>".
Definition defaultCardinalityWindow : Z := hour.
Definition maxCardinalitySamples : nat := 5.
Definition maxCardinalityProjects : nat := Z.to_nat 2000.
Definition maxCardinalityFields : nat := Z.to_nat 200.
Definition defaultMaxTrackedValues : Z := Z.shiftl 1 20.

Record fieldState := mkFieldState { seen : gset string; collapsed : Z; samples : list string }.
Record projectCardinality := mkProjectCardinality { windowStart : Z; fields : gmap string fieldState }.
Record CardinalityGuard := mkGuard {
  limit : Z; maxTracked : Z; tracked : Z; window : Z;
  projects : gmap Z projectCardinality; collapsedTotal : Z }.

Definition NewCardinalityGuard (limit window : Z) : CardinalityGuard :=
  mkGuard limit defaultMaxTrackedValues 0 (if window <=? 0 then defaultCardinalityWindow else window) ∅ 0.

Definition with_projects (tracked : Z) (ps : gmap Z projectCardinality) (g : CardinalityGuard) : CardinalityGuard :=
  mkGuard (limit g) (maxTracked g) tracked (window g) ps (collapsedTotal g).

Definition trackedValues (p : projectCardinality) : Z := map_sum (fun f => Z.of_nat (size (seen f))) (fields p).
Abbreviation tracked_all ps := (map_sum trackedValues ps).

Arguments trackedValues : simpl never.

(** ** Eviction *)

Definition expired (now : Z) (g : CardinalityGuard) (p : projectCardinality) : bool := window g <=? now - windowStart p.

(** Deleting one project: what it tracked is no longer counted. *)
Definition drop_project (g : CardinalityGuard) (id : Z) : CardinalityGuard :=
  match projects g !! id with
  | Some p => with_projects (tracked g - trackedValues p) (delete id (projects g)) g
  | None => g
  end.

Definition drop_expired (now : Z) (g : CardinalityGuard) : CardinalityGuard :=
  foldl drop_project g (map fst (List.filter (fun '(_, p) => expired now g p) (map_to_list (projects g)))).

Section guard.
(** The order Go's range visits the projects in. *)
Context (order : gmap Z projectCardinality -> list Z).

Definition evictLocked (now : Z) (g : CardinalityGuard) : CardinalityGuard :=
  let g := drop_expired now g in
  if (size (projects g) <? maxCardinalityProjects)%nat then g else
  let n := if (size (projects g) / 10 =? 0)%nat then 1%nat else (size (projects g) / 10)%nat in
  foldl drop_project g (take n (order (projects g))).

Definition max_tracked (g : CardinalityGuard) : Z := if maxTracked g <=? 0 then defaultMaxTrackedValues else maxTracked g.

Definition hasBudgetLocked (now : Z) (g : CardinalityGuard) : bool * CardinalityGuard :=
  if tracked g <? max_tracked g then (true, g) else
  let g := drop_expired now g in (tracked g <? max_tracked g, g).

(** The project's record, created or reset when its window is over. *)
Definition open_project (now projectID : Z) (g : CardinalityGuard) : projectCardinality * CardinalityGuard :=
  let g :=
    match projects g !! projectID with
    | Some _ => g
    | None =>
        let g := if (maxCardinalityProjects <=? size (projects g))%nat then evictLocked now g else g in
        with_projects (tracked g) (<[projectID := mkProjectCardinality now ∅]> (projects g)) g
    end in
  let p := default (mkProjectCardinality now ∅) (projects g !! projectID) in
  if expired now g p then
    let p' := mkProjectCardinality now ∅ in
    (p', with_projects (tracked g - trackedValues p) (<[projectID := p']> (projects g)) g)
  else (p, g).

(** Writing through the pointers to the project and its field. *)
Definition set_field (projectID : Z) (field : string) (f : fieldState) (g : CardinalityGuard) : CardinalityGuard :=
  with_projects (tracked g)
    (alter (fun p => mkProjectCardinality (windowStart p) (<[field := f]> (fields p))) projectID (projects g)) g.

Definition collapse (f : fieldState) (value : string) : fieldState :=
  mkFieldState (seen f) (collapsed f + 1)
    (if (length (samples f) <? maxCardinalitySamples)%nat then samples f ++ [value] else samples f).

Definition bump (dt dc : Z) (g : CardinalityGuard) : CardinalityGuard :=
  mkGuard (limit g) (maxTracked g) (tracked g + dt) (window g) (projects g) (collapsedTotal g + dc).

Definition Value (now projectID : Z) (field value : string) (g : CardinalityGuard) : string * CardinalityGuard :=
  if (limit g <=? 0) || bool_decide (value = "") || bool_decide (value = CardinalityOverflow) then (value, g) else
  let '(p, g) := open_project now projectID g in
  match (match fields p !! field with
         | Some f => Some f
         | None => if (maxCardinalityFields <=? size (fields p))%nat then None else Some (mkFieldState ∅ 0 [])
         end) with
  | None => (CardinalityOverflow, g)
  | Some f =>
      let g := set_field projectID field f g in
      if bool_decide (value ∈ seen f) then (value, g) else
      let '(budget, g) := if Z.of_nat (size (seen f)) <? limit g then hasBudgetLocked now g else (false, g) in
      if budget : bool then
        (value, bump 1 0 (set_field projectID field (mkFieldState ({[value]} ∪ seen f) (collapsed f) (samples f)) g))
      else (CardinalityOverflow, bump 0 1 (set_field projectID field (collapse f value) g))
  end.

Definition TrackedValues (g : CardinalityGuard) : Z := tracked g.
Definition CollapsedTotal (g : CardinalityGuard) : Z := collapsedTotal g.

(** The human name of a field. *)
Fixpoint underscores_to_spaces (s : string) : string :=
  match s with
  | EmptyString => EmptyString
  | String c rest => String (if Ascii.eqb c "_" then " "%char else c) (underscores_to_spaces rest)
  end.

Definition FieldLabel (field : string) : string :=
  if String.eqb field "transaction" then "transaction name"
  else if String.eqb field "environment" then "environment"
  else if String.eqb field "metric_name" then "metric name"
  else if String.eqb field "service" then "service"
  else if String.eqb field "op" then "span operation"
  else if String.eqb field "host" then "host"
  else underscores_to_spaces field.

(** ** Report *)

Record FieldReport := mkFieldReport {
  rp_Field : string; Distinct : Z; rp_Limit : Z; Collapsed : Z; Samples : list string; WindowStart : Z }.

Definition report_le (a b : FieldReport) : Prop := go_string_lt (rp_Field b) (rp_Field a) = false.
#[export] Instance report_le_dec a b : Decision (report_le a b).
Proof. unfold report_le. apply _. Defined.

Definition Report (now projectID : Z) (g : CardinalityGuard) : list FieldReport :=
  if limit g <=? 0 then [] else
  match projects g !! projectID with
  | None => []
  | Some p =>
      if expired now g p then [] else
      merge_sort report_le (omap (fun '(name, f) =>
        if collapsed f =? 0 then None
        else Some (mkFieldReport name (Z.of_nat (size (seen f))) (limit g) (collapsed f) (samples f) (windowStart p)))
        (map_to_list (fields p)))
  end.
End guard.

(** ** The guard is well formed *)

Record guard_ok (g : CardinalityGuard) : Prop := {
  go_tracked : tracked g = tracked_all (projects g);
  go_bound : tracked g <= max_tracked g;
  go_projects : (size (projects g) <= maxCardinalityProjects)%nat;
  go_fields id p : projects g !! id = Some p -> (size (fields p) <= maxCardinalityFields)%nat;
  go_seen id p name f : projects g !! id = Some p -> fields p !! name = Some f ->
    Z.of_nat (size (seen f)) <= limit g /\ (length (samples f) <= maxCardinalitySamples)%nat /\ 0 <= collapsed f;
  go_window : 0 < window g }.

(** What [Value] needs of the state while it works on it: the counter may be
    anything but the sum is right. *)
Definition counted (g : CardinalityGuard) : Prop := tracked g = tracked_all (projects g).

Lemma trackedValues_insert name f fs n : fs !! name = None ->
  trackedValues (mkProjectCardinality n (<[name := f]> fs)) = Z.of_nat (size (seen f)) + trackedValues (mkProjectCardinality n fs).
Proof. intros Hn. by apply (map_sum_insert (fun f => Z.of_nat (size (seen f)))). Qed.

Lemma trackedValues_empty n : trackedValues (mkProjectCardinality n ∅) = 0.
Proof. apply map_sum_empty. Qed.

Lemma trackedValues_nonneg p : 0 <= trackedValues p.
Proof. apply map_sum_nonneg. lia. Qed.

Lemma drop_project_lookup g id k : projects (drop_project g id) !! k = if decide (k = id) then None else projects g !! k.
Proof.
  unfold drop_project. destruct (projects g !! id) eqn:Hp; simpl.
  - destruct (decide (k = id)) as [->|]; [apply lookup_delete_eq|by apply lookup_delete_ne].
  - by destruct (decide (k = id)) as [->|].
Qed.

Lemma drop_project_counted g id : counted g -> counted (drop_project g id).
Proof.
  unfold counted, drop_project. intros Hg. destruct (projects g !! id) as [p|] eqn:Hp; [|done]. simpl. by rewrite (map_sum_delete trackedValues id p), Hg.
Qed.

(** Dropping projects. *)
Lemma drop_projects_spec ids : forall g,
  let g' := foldl drop_project g ids in
  (counted g -> counted g') /\ tracked g' <= tracked g /\
  limit g' = limit g /\ maxTracked g' = maxTracked g /\ window g' = window g /\
  forall k, projects g' !! k = if decide (k ∈ ids) then None else projects g !! k.
Proof.
  induction ids as [|id ids IH]; intros g; [by split_and!|]. cbn [foldl]. destruct (IH (drop_project g id)) as (H1 & H2 & H3 & H4 & H5 & H6).
  assert (tracked (drop_project g id) <= tracked g /\ limit (drop_project g id) = limit g /\
    maxTracked (drop_project g id) = maxTracked g /\ window (drop_project g id) = window g) as (E1 & E2 & E3 & E4).
  { unfold drop_project. destruct (projects g !! id) as [p|]; [|done]. pose proof (trackedValues_nonneg p). simpl. split_and!; [lia|done..]. }
  split_and!; [|lia|congruence..|].
  - intros Hg. by apply H1, drop_project_counted.
  - intros k. rewrite H6, drop_project_lookup. destruct (decide (k = id)) as [->|]; [destruct (decide (id ∈ ids)), (decide (id ∈ id :: ids))|destruct (decide (k ∈ ids)), (decide (k ∈ id :: ids))]; set_solver.
Qed.

(** [g'] is [g] with fewer projects. *)
Record fewer (g g' : CardinalityGuard) : Prop := {
  fw_counted : counted g -> counted g';
  fw_tracked : tracked g' <= tracked g;
  fw_limit : limit g' = limit g; fw_max : maxTracked g' = maxTracked g; fw_window : window g' = window g;
  fw_projects : projects g' ⊆ projects g }.

#[export] Instance fewer_preorder : PreOrder fewer.
Proof.
  split; [intros g; by constructor|]. intros a b c [? ? ? ? ? ?] [? ? ? ? ? ?]. constructor; [auto|lia|congruence..|by etrans].
Qed.

Lemma drop_projects_fewer ids g : fewer g (foldl drop_project g ids).
Proof.
  destruct (drop_projects_spec ids g) as (H1 & H2 & H3 & H4 & H5 & H6). constructor; try done.
  apply map_subseteq_spec. intros k p. rewrite H6. by destruct (decide (k ∈ ids)).
Qed.

Lemma drop_expired_fewer now g : fewer g (drop_expired now g).
Proof. apply drop_projects_fewer. Qed.

Lemma drop_expired_keeps now g id p : projects g !! id = Some p -> expired now g p = false -> projects (drop_expired now g) !! id = Some p.
Proof.
  intros Hp He. unfold drop_expired. destruct (drop_projects_spec (map fst (List.filter (fun '(_, p) => expired now g p) (map_to_list (projects g)))) g) as (_ & _ & _ & _ & _ & ->).
  rewrite decide_False; [done|]. rewrite list_elem_of_In, in_map_iff. intros ([id' p'] & <- & [Hin Hx]%filter_In).
  apply list_elem_of_In, elem_of_map_to_list in Hin. simpl in *. congruence.
Qed.

Lemma evictLocked_fewer order now g : fewer g (evictLocked order now g).
Proof.
  unfold evictLocked. destruct (_ <? _)%nat; [apply drop_expired_fewer|]. etrans; [apply drop_expired_fewer|apply drop_projects_fewer].
Qed.

(** With an order that lists the keys, eviction makes room. *)
Definition lists_keys (order : gmap Z projectCardinality -> list Z) : Prop := forall m, order m ≡ₚ map fst (map_to_list m).

Lemma evictLocked_room order now g : lists_keys order -> (size (projects g) <= maxCardinalityProjects)%nat ->
  (size (projects (evictLocked order now g)) < maxCardinalityProjects)%nat.
Proof.
  intros Ho Hs. unfold evictLocked. destruct (Nat.ltb_spec (size (projects (drop_expired now g))) maxCardinalityProjects); [done|].
  set (g1 := drop_expired now g) in *. set (n := (if (size (projects g1) / 10 =? 0)%nat then 1%nat else (size (projects g1) / 10)%nat)).
  assert (0 < n)%nat as Hn by (unfold n; destruct (Nat.eqb_spec (size (projects g1) / 10) 0); lia).
  assert (size (projects g1) <= size (projects g))%nat as Hle.
  { destruct (drop_expired_fewer now g) as [_ _ _ _ _ Hsub]. apply (map_subseteq_size _ _ Hsub). }
  destruct (drop_projects_spec (take n (order (projects g1))) g1) as (_ & _ & _ & _ & _ & Hlook).
  destruct (order (projects g1)) as [|id ids] eqn:Hord.
  { specialize (Ho (projects g1)). rewrite Hord in Ho. apply Permutation_nil_l in Ho. symmetry in Ho. apply map_eq_nil in Ho.
    apply map_to_list_empty_iff in Ho. rewrite Ho, map_size_empty in *. unfold maxCardinalityProjects in *. lia. }
  destruct n as [|n]; [lia|]. cbn [take] in *.
  assert (is_Some (projects g1 !! id)) as Hid.
  { assert (id ∈ map fst (map_to_list (projects g1))) as Hin by (rewrite <- (Ho (projects g1)), Hord; by left).
    apply list_elem_of_In, in_map_iff in Hin as ([id' p] & <- & Hin). apply list_elem_of_In, elem_of_map_to_list in Hin. by exists p. }
  assert (projects (foldl drop_project g1 (id :: take n ids)) ⊂ projects g1) as Hsub.
  { split.
    - apply map_subseteq_spec. intros k p. rewrite Hlook. by destruct (decide _).
    - intros Hrev. destruct Hid as [p Hp]. eapply lookup_weaken in Hp; [|exact Hrev]. rewrite Hlook, decide_True in Hp by by left. done. }
  apply map_subset_size in Hsub. lia.
Qed.

Lemma guard_ok_fewer g g' : fewer g g' -> guard_ok g -> guard_ok g'.
Proof.
  intros [Hc Ht Hl Hm Hw Hp] [H1 H2 H3 H4 H5 H6].
  assert (forall id p, projects g' !! id = Some p -> projects g !! id = Some p) as Hlook by (intros id p Hk; by eapply lookup_weaken).
  constructor.
  - by apply Hc.
  - unfold max_tracked in *. rewrite Hm. lia.
  - apply map_subseteq_size in Hp. lia.
  - intros id p Hk. by apply (H4 id), Hlook.
  - intros id p name f Hk. rewrite Hl. by eapply (H5 id), Hlook.
  - by rewrite Hw.
Qed.

(** Replacing the record of a project by an empty one. *)
Lemma put_project_ok g id now :
  guard_ok g -> (is_Some (projects g !! id) \/ (size (projects g) < maxCardinalityProjects)%nat) ->
  let old := match projects g !! id with Some p => trackedValues p | None => 0 end in
  guard_ok (with_projects (tracked g - old) (<[id := mkProjectCardinality now ∅]> (projects g)) g).
Proof.
  intros [H1 H2 H3 H4 H5 H6] Hroom old.
  assert (0 <= old) as Hold by (unfold old; destruct (projects g !! id); [apply trackedValues_nonneg|done]).
  constructor; simpl.
  - unfold old. destruct (projects g !! id) as [p|] eqn:Hp.
    + rewrite ((map_sum_update trackedValues) id p) by done. rewrite trackedValues_empty. lia.
    + rewrite (map_sum_insert trackedValues) by done. rewrite trackedValues_empty. lia.
  - unfold max_tracked in *. simpl. lia.
  - destruct (projects g !! id) as [p|] eqn:Hp; [by rewrite map_size_insert_Some by (by rewrite Hp)|].
    rewrite map_size_insert_None by done. destruct Hroom as [[? ?]|]; [done|lia].
  - intros id' p. rewrite lookup_insert_Some. intros [[<- <-]|[_ Hp]]; [simpl; rewrite map_size_empty; lia|by apply (H4 id')].
  - intros id' p name f. rewrite lookup_insert_Some. intros [[<- <-]|[_ Hp]]; [simpl; by rewrite lookup_empty|by eapply (H5 id')].
  - done.
Qed.

Lemma open_project_ok order now id g : lists_keys order -> guard_ok g ->
  let '(p, g') := open_project order now id g in
  guard_ok g' /\ projects g' !! id = Some p /\ expired now g' p = false /\ limit g' = limit g.
Proof.
  intros Ho Hg. unfold open_project.
  set (g1 := match projects g !! id with Some _ => g | None => _ end).
  assert (guard_ok g1 /\ is_Some (projects g1 !! id) /\ limit g1 = limit g) as (Hg1 & [p Hp] & Hl1).
  { unfold g1. destruct (projects g !! id) as [p|] eqn:Hp; [by rewrite Hp|].
    set (g2 := if (maxCardinalityProjects <=? size (projects g))%nat then evictLocked order now g else g).
    assert (guard_ok g2 /\ projects g2 !! id = None /\ (size (projects g2) < maxCardinalityProjects)%nat /\ limit g2 = limit g) as (Hg2 & Hp2 & Hs2 & Hl2).
    { unfold g2. destruct (Nat.leb_spec maxCardinalityProjects (size (projects g))); [|done].
      pose proof (evictLocked_fewer order now g) as Hf. split_and!; [by eapply guard_ok_fewer| |apply evictLocked_room; [done|apply Hg]|apply Hf].
      destruct (projects (evictLocked order now g) !! id) eqn:He; [|done]. eapply lookup_weaken in He; [|apply Hf]. congruence. }
    pose proof (put_project_ok g2 id now Hg2 (or_intror Hs2)) as Hput. cbv zeta in Hput. rewrite Hp2, Z.sub_0_r in Hput.
    split_and!; [exact Hput|simpl; rewrite lookup_insert_eq; by eexists|done]. }
  rewrite Hp. simpl default. destruct (expired now g1 p) eqn:He.
  - pose proof (put_project_ok g1 id now Hg1) as Hput. cbv zeta in Hput. rewrite Hp in Hput. split_and!; [by apply Hput; left| | |done].
    + simpl. by rewrite lookup_insert_eq.
    + unfold expired. simpl. apply Z.leb_gt. pose proof (go_window _ Hg1). lia.
  - by split_and!.
Qed.

Lemma set_field_ok g id p field f dt dc :
  guard_ok g -> projects g !! id = Some p ->
  (is_Some (fields p !! field) \/ (size (fields p) < maxCardinalityFields)%nat) ->
  Z.of_nat (size (seen f)) <= limit g -> (length (samples f) <= maxCardinalitySamples)%nat -> 0 <= collapsed f ->
  dt = Z.of_nat (size (seen f)) - match fields p !! field with Some f0 => Z.of_nat (size (seen f0)) | None => 0 end ->
  tracked g + dt <= max_tracked g ->
  let g' := bump dt dc (set_field id field f g) in
  guard_ok g' /\ limit g' = limit g /\ window g' = window g /\ maxTracked g' = maxTracked g /\ tracked g' = tracked g + dt /\
  projects g' !! id = Some (mkProjectCardinality (windowStart p) (<[field := f]> (fields p))).
Proof.
  intros [H1 H2 H3 H4 H5 H6] Hp Hroom Hs Hsa Hc Hdt Hb. unfold bump, set_field, with_projects. cbv zeta. cbn [limit window maxTracked tracked projects collapsedTotal].
  assert (projects g !! id = Some p -> alter (fun p => mkProjectCardinality (windowStart p) (<[field := f]> (fields p))) id (projects g) =
    <[id := mkProjectCardinality (windowStart p) (<[field := f]> (fields p))]> (projects g)) as Halter.
  { intros _. apply map_eq. intros k. destruct (decide (k = id)) as [->|].
    - by rewrite lookup_alter_eq, lookup_insert_eq, Hp.
    - by rewrite lookup_alter_ne, lookup_insert_ne. }
  rewrite (Halter Hp). split_and!; try done; [|by rewrite lookup_insert_eq].
  constructor; simpl.
  - rewrite ((map_sum_update trackedValues) id p) by done. rewrite H1. destruct p as [ws fs]. simpl in *.
    assert (trackedValues (mkProjectCardinality ws (<[field := f]> fs)) = trackedValues (mkProjectCardinality ws fs) + dt) as ->; [|lia].
    destruct (fs !! field) as [f0|] eqn:Hf.
    + rewrite <- insert_delete_eq, trackedValues_insert by apply lookup_delete_eq.
      rewrite <- (insert_id fs field f0 Hf) at 2. rewrite <- insert_delete_eq, trackedValues_insert by apply lookup_delete_eq. lia.
    + rewrite trackedValues_insert by done. lia.
  - unfold max_tracked in *. simpl. done.
  - by rewrite map_size_insert_Some by (by rewrite Hp).
  - intros id' p'. rewrite lookup_insert_Some. intros [[<- <-]|[_ Hp']]; [|by apply (H4 id')]. simpl.
    destruct (fields p !! field) eqn:Hf; [rewrite map_size_insert_Some by (by rewrite Hf); by apply (H4 id)|].
    rewrite map_size_insert_None by done. destruct Hroom as [[? ?]|]; [done|lia].
  - intros id' p' name f'. rewrite lookup_insert_Some. intros [[<- <-]|[_ Hp']]; [|by eapply (H5 id')]. simpl.
    rewrite lookup_insert_Some. intros [[<- <-]|[_ Hf']]; [done|by eapply (H5 id p)].
  - done.
Qed.

(** C35: the guard stays well formed and bounded: it remembers at most
    [maxTracked] values and counts them rightly, at most 2000 projects of 200
    fields of [limit] values.  A name passes unchanged only once it is
    remembered, and otherwise becomes the overflow name; a name remembered
    always passes. *)
Theorem Value_ok order now projectID field value g :
  lists_keys order -> guard_ok g ->
  let '(out, g') := Value order now projectID field value g in
  guard_ok g' /\ limit g' = limit g /\ (out = value \/ out = CardinalityOverflow) /\
  (0 < limit g -> value <> "" -> value <> CardinalityOverflow ->
    (out = value <-> exists p f, projects g' !! projectID = Some p /\ fields p !! field = Some f /\ value ∈ seen f)).
Proof.
  intros Ho Hg. unfold Value. destruct ((limit g <=? 0) || _ || _) eqn:Hskip.
  { split_and!; [done|done|by left|]. intros Hl Hv1 Hv2. rewrite !orb_true_iff, !bool_decide_eq_true in Hskip. lia || naive_solver lia. }
  pose proof (open_project_ok order now projectID g Ho Hg) as Hopen. destruct (open_project order now projectID g) as [p g1].
  destruct Hopen as (Hg1 & Hp & He & Hl1).
  assert (forall f0 : option fieldState, value <> CardinalityOverflow -> CardinalityOverflow = value -> False) as Hne by congruence.
  destruct (match fields p !! field with Some f => Some f | None => _ end) as [f|] eqn:Hf.
  2: { split_and!; [done|done|by right|]. intros _ _ Hv. split; [congruence|]. intros (p' & f & Hp' & Hf' & Hin). simplify_eq. by rewrite Hf' in Hf. }
  assert ((is_Some (fields p !! field) \/ (size (fields p) < maxCardinalityFields)%nat) /\
    Z.of_nat (size (seen f)) = match fields p !! field with Some f0 => Z.of_nat (size (seen f0)) | None => 0 end /\
    Z.of_nat (size (seen f)) <= limit g1 /\ (length (samples f) <= maxCardinalitySamples)%nat /\ 0 <= collapsed f) as (Hroom & Hsz & Hs & Hsa & Hc).
  { destruct (fields p !! field) as [f0|] eqn:Hf0; simplify_eq.
    - destruct (go_seen _ Hg1 _ _ _ _ Hp Hf0) as (? & ? & ?). split_and!; try done; by left.
    - destruct (Nat.leb_spec maxCardinalityFields (size (fields p))); simplify_eq. cbn [seen samples collapsed]. rewrite size_empty.
      split_and!; [by right|done| |simpl; lia|done]. rewrite Hl1. apply orb_false_iff in Hskip as [[? _]%orb_false_iff _]. lia. }
  destruct (set_field_ok g1 projectID p field f 0 0) as (Hg2 & Hl2 & Hw2 & Hm2 & Ht2 & Hp2); try done; [lia|pose proof (go_bound _ Hg1); lia|].
  assert (bump 0 0 (set_field projectID field f g1) = set_field projectID field f g1) as Hbump.
  { unfold bump, set_field, with_projects. simpl. by rewrite !Z.add_0_r. }
  rewrite Hbump in *. set (g2 := set_field projectID field f g1) in *. set (p2 := mkProjectCardinality _ _) in Hp2.
  assert (fields p2 !! field = Some f) as Hf2 by (unfold p2; simpl; by rewrite lookup_insert_eq).
  destruct (bool_decide_reflect (value ∈ seen f)) as [Hin|Hnin].
  { split_and!; [done|congruence|by left|]. intros _ _ _. split; [|done]. intros _. by exists p2, f. }
  assert (exists b g3, (if Z.of_nat (size (seen f)) <? limit g2 then hasBudgetLocked now g2 else (false, g2)) = (b, g3) /\ fewer g2 g3 /\
    projects g3 !! projectID = Some p2 /\ (b = true -> Z.of_nat (size (seen f)) < limit g2 /\ tracked g3 < max_tracked g3)) as (b & g3 & -> & Hfew & Hp3 & Hb).
  { destruct (Z.ltb_spec (Z.of_nat (size (seen f))) (limit g2)) as [Hlt|]; [|by exists false, g2; split_and!].
    unfold hasBudgetLocked. destruct (Z.ltb_spec (tracked g2) (max_tracked g2)); [by exists true, g2; split_and!|].
    eexists _, _. split; [reflexivity|]. split; [apply drop_expired_fewer|]. split; [|by intros Hx%Z.ltb_lt].
    apply drop_expired_keeps; [done|]. unfold expired in He |- *. rewrite Hw2. exact He. }
  pose proof (guard_ok_fewer _ _ Hfew Hg2) as Hg3. destruct Hfew as [_ _ Hl3 Hm3 Hw3 _].
  destruct b.
  - destruct (Hb eq_refl) as [Hlt Hbud].
    destruct (set_field_ok g3 projectID p2 field (mkFieldState ({[value]} ∪ seen f) (collapsed f) (samples f)) 1 0) as (Hg4 & Hl4 & _ & _ & _ & Hp4);
      try done; cbn [seen samples collapsed]; rewrite ?Hf2; [by left|rewrite size_union, size_singleton by set_solver; lia..|lia|].
    split_and!; [done|congruence|by left|]. intros _ _ _. split; [|done]. intros _. eexists _, _. split; [exact Hp4|]. simpl.
    rewrite lookup_insert_eq. split; [done|]. simpl. set_solver.
  - destruct (set_field_ok g3 projectID p2 field (collapse f value) 0 1) as (Hg4 & Hl4 & _ & _ & _ & Hp4); try done;
      unfold collapse; cbn [seen samples collapsed]; rewrite ?Hf2; [by left|congruence| |lia|lia|pose proof (go_bound _ Hg3); lia|].
    { destruct (Nat.ltb_spec (length (samples f)) maxCardinalitySamples); [rewrite length_app; simpl; lia|done]. }
    split_and!; [done|etrans; [exact Hl4|lia]|by right|]. intros _ _ Hv. split; [congruence|]. intros (p' & f' & Hp' & Hf' & Hin').
    exfalso. unfold collapse in Hp4. rewrite Hp4 in Hp'. injection Hp' as <-. simpl in Hf'. rewrite lookup_insert_eq in Hf'. by injection Hf' as <-.
Qed.

(** ** The theorem at work *)

Definition ex_order (m : gmap Z projectCardinality) : list Z := map fst (map_to_list m).
(** One value per field, two in all. *)
Definition ex_guard : CardinalityGuard := mkGuard 1 2 0 hour ∅ 0.

Lemma ex_guard_ok : guard_ok ex_guard.
Proof. constructor; unfold ex_guard; cbn [projects]; try done; try (intros *; by rewrite lookup_empty). rewrite map_size_empty. lia. Qed.

Lemma Value_ok_witness :
  let '(out1, g1) := Value ex_order 10 7 "op" "a" ex_guard in
  out1 = "a" /\ (Value ex_order 11 7 "op" "b" g1).1 = CardinalityOverflow /\ guard_ok g1 /\ tracked g1 = 1.
Proof.
  pose proof (Value_ok ex_order 10 7 "op" "a" ex_guard (fun m => reflexivity _) ex_guard_ok) as Hok.
  destruct (Value ex_order 10 7 "op" "a" ex_guard) as [out1 g1] eqn:Hv. vm_compute in Hv. injection Hv as <- <-.
  destruct Hok as [Hok _]. split; [reflexivity|]. split; [vm_compute; reflexivity|]. split; [exact Hok|reflexivity].
Defined.
