(* ===== verification/Secretbox.v ===== *)
(** Secrets at rest: [internal/secretbox].

    secretbox.go: the envelope a stored value carries ([parseEnvelope]).
    keyring.go: sealing with the current key, opening with the current or the
    previous one, and re-wrapping after a rotation.  A Go string is a byte
    string; base64 and SHA-256 of Go's library are executable definitions,
    NaCl's secretbox is the parameter [Box]. *)
From stdpp Require Import base tactics list strings.
From Stdlib Require Import ZArith Lia Ascii.
From coqutil Require Import Z.bitblast.
From S2P Require Import Prelude.
From S2P Require Import GoString.

Open Scope Z_scope.

(** ** base64, [base64.StdEncoding] *)

Definition alphabet : string := "ABCDEFGHIJKLMNOPQRSTUVWXYZabcdefghijklmnopqrstuvwxyz0123456789+/".

Definition b64_char (v : Z) : ascii := default "="%char (String.get (Z.to_nat v) alphabet).

Definition b64_value (c : ascii) : option Z :=
  let b := byte_of c in
  if (65 <=? b) && (b <=? 90) then Some (b - 65)
  else if (97 <=? b) && (b <=? 122) then Some (b - 71)
  else if (48 <=? b) && (b <=? 57) then Some (b + 4)
  else if b =? 43 then Some 62
  else if b =? 47 then Some 63
  else None.

(** Four characters of three bytes. *)
Definition quantum (v : Z) : list ascii :=
  map (fun s => b64_char (Z.land (Z.shiftr v s) 63)) [18; 12; 6; 0].

Fixpoint b64_encode (l : bytes) : list ascii :=
  match l with
  | [] => []
  | [a] => take 2 (quantum (Z.shiftl a 16)) ++ ["="; "="]%char
  | [a; b] => take 3 (quantum (Z.lor (Z.shiftl a 16) (Z.shiftl b 8))) ++ ["="%char]
  | a :: b :: c :: l => quantum (Z.lor (Z.lor (Z.shiftl a 16) (Z.shiftl b 8)) c) ++ b64_encode l
  end.

(** [n] bytes of the quantum with the values [v1 .. v4]. *)
Definition unquantum (n : nat) (v1 v2 v3 v4 : Z) : bytes :=
  let v := Z.lor (Z.lor (Z.lor (Z.shiftl v1 18) (Z.shiftl v2 12)) (Z.shiftl v3 6)) v4 in
  take n [Z.land (Z.shiftr v 16) 255; Z.land (Z.shiftr v 8) 255; Z.land v 255].

(** Padding ends the text; the bits it leaves over are not looked at. *)
Fixpoint b64_decode (l : list ascii) : option bytes :=
  match l with
  | [] => Some []
  | c1 :: c2 :: c3 :: c4 :: l =>
      match b64_value c1, b64_value c2 with
      | Some v1, Some v2 =>
          match b64_value c3, b64_value c4 with
          | Some v3, Some v4 =>
              match b64_decode l with Some r => Some (unquantum 3 v1 v2 v3 v4 ++ r) | None => None end
          | Some v3, None => if Ascii.eqb c4 "=" && bool_decide (l = []) then Some (unquantum 2 v1 v2 v3 0) else None
          | None, _ => if Ascii.eqb c3 "=" && Ascii.eqb c4 "=" && bool_decide (l = []) then Some (unquantum 1 v1 v2 0 0) else None
          end
      | _, _ => None
      end
  | _ => None
  end.

Definition newline (c : ascii) : bool := Ascii.eqb c "010" || Ascii.eqb c "013".

Definition EncodeToString (l : bytes) : string := String.string_of_list_ascii (b64_encode l).
(** The decoder skips line breaks wherever they are. *)
Definition DecodeString (s : string) : option bytes :=
  b64_decode (List.filter (fun c => negb (newline c)) (String.list_ascii_of_string s)).

(** ** SHA-256 *)

Definition w32 (x : Z) : Z := Z.land x (Z.ones 32).
Definition rotr (x n : Z) : Z := w32 (Z.lor (Z.shiftr x n) (Z.shiftl x (32 - n))).

(** The constants, by their rule: the first 32 bits of the fractional parts of
    the roots of the first primes (cube roots for the rounds, square roots for
    the initial state). *)
Fixpoint int_root (e : Z) (bits : nat) (r x : Z) : Z :=
  match bits with
  | O => r
  | S bits => let r' := r + 2 ^ Z.of_nat bits in int_root e bits (if r' ^ e <=? x then r' else r) x
  end.

Definition root_fraction (e p : Z) : Z := w32 (int_root e 36 0 (p * 2 ^ (32 * e))).

Definition is_prime (n : nat) : bool := forallb (fun d => negb (Nat.eqb (Nat.modulo n d) 0)) (seq 2 (n - 2)).
Definition primes : list Z := map Z.of_nat (List.filter is_prime (seq 2 310)).

Definition sha_k : list Z := Eval vm_compute in map (root_fraction 3) primes.
Definition sha_h : list Z := Eval vm_compute in map (root_fraction 2) (take 8 primes).

Definition nth_word (l : list Z) (n : nat) : Z := List.nth n l 0.

(** The schedule, newest word first. *)
Fixpoint expand (n : nat) (w : list Z) : list Z :=
  match n with
  | O => w
  | S n =>
      let x := nth_word w 14 in
      let y := nth_word w 1 in
      let s0 := Z.lxor (Z.lxor (rotr x 7) (rotr x 18)) (Z.shiftr x 3) in
      let s1 := Z.lxor (Z.lxor (rotr y 17) (rotr y 19)) (Z.shiftr y 10) in
      expand n (w32 (nth_word w 15 + s0 + nth_word w 6 + s1) :: w)
  end.

Definition sha_round (s : list Z) (kw : Z * Z) : list Z :=
  match s with
  | [a; b; c; d; e; f; g; h] =>
      let s1 := Z.lxor (Z.lxor (rotr e 6) (rotr e 11)) (rotr e 25) in
      let ch := Z.lxor (Z.land e f) (Z.land (Z.lxor e (Z.ones 32)) g) in
      let t1 := h + s1 + ch + kw.1 + kw.2 in
      let s0 := Z.lxor (Z.lxor (rotr a 2) (rotr a 13)) (rotr a 22) in
      let maj := Z.lxor (Z.lxor (Z.land a b) (Z.land a c)) (Z.land b c) in
      [w32 (t1 + s0 + maj); a; b; c; w32 (d + t1); e; f; g]
  | _ => s
  end.

Fixpoint words (l : bytes) : list Z :=
  match l with
  | a :: b :: c :: d :: l => Z.lor (Z.lor (Z.shiftl a 24) (Z.shiftl b 16)) (Z.lor (Z.shiftl c 8) d) :: words l
  | _ => []
  end.

Definition be_bytes (n : nat) (x : Z) : bytes :=
  map (fun i => Z.land (Z.shiftr x (8 * Z.of_nat (n - 1 - i))) 255) (seq 0 n).

Definition sha_pad (l : bytes) : bytes :=
  let n := Z.of_nat (length l) in
  l ++ 128 :: repeat 0 (Z.to_nat ((55 - n) mod 64)) ++ be_bytes 8 (8 * n).

Definition sha_block (h : list Z) (w : list Z) : list Z :=
  zip_with (fun x y => w32 (x + y)) h (foldl sha_round h (zip sha_k (rev (expand 48 (rev w))))).

Fixpoint sha_blocks (fuel : nat) (h : list Z) (w : list Z) : list Z :=
  match fuel, w with
  | S fuel, _ :: _ => sha_blocks fuel (sha_block h (take 16 w)) (drop 16 w)
  | _, _ => h
  end.

Definition Sum256 (l : bytes) : bytes :=
  let w := words (sha_pad l) in flat_map (be_bytes 4) (sha_blocks (length w) sha_h w).

Definition hex_digit (v : Z) : ascii := char_of (if v <? 10 then 48 + v else 87 + v).
Definition hex_string (l : bytes) : string :=
  String.string_of_list_ascii (flat_map (fun b => [hex_digit (Z.shiftr b 4); hex_digit (Z.land b 15)]) l).

Example sha256_abc : hex_string (Sum256 (to_bytes "abc")) = "ba7816bf8f01cfea414140de5dae2223b00361a396177a9cb410ff61f20015ad".
Proof. vm_compute. reflexivity. Qed.

(** ** NaCl's secretbox *)

Class Box := {
  box_seal : bytes -> bytes -> bytes -> bytes; (** nonce, key, message *)
  box_open : bytes -> bytes -> bytes -> option bytes }.

Definition is_byte (b : Z) : Prop := 0 <= b < 256.

(** What is documented of it: what is sealed opens with the same nonce and
    key, and is [Overhead] bytes longer. *)
Class BoxLaw `{Box} : Prop := {
  box_round n k m : Forall is_byte m -> box_open n k (box_seal n k m) = Some m;
  box_length n k m : (length (box_seal n k m) = length m + 16)%nat;
  box_bytes n k m : Forall is_byte (box_seal n k m) }.

(** ** Envelopes *)

Definition EncPrefix : string := "enc:".
Definition v2Prefix : string := "enc:v2:".
Definition minSealedLen : nat := 24 + 16.

Fixpoint skip_digits (s : string) : string :=
  match s with
  | String c r => if is_digit c then skip_digits r else s
  | EmptyString => s
  end.

(** [^enc:v[0-9]+:] *)
Definition reVersionTag (s : string) : bool :=
  match CutPrefix "enc:v" s with
  | Some (String c r) => is_digit c && match skip_digits r with String c _ => Ascii.eqb c ":" | EmptyString => false end
  | _ => false
  end.

Fixpoint take_hex (n : nat) (s : string) : option (string * string) :=
  match n, s with
  | O, _ => Some (EmptyString, s)
  | S n, String c s => if is_hex c then match take_hex n s with Some (h, r) => Some (String c h, r) | None => None end else None
  | _, _ => None
  end.

(** [^enc:v2:([0-9a-f]{8}):], the group and what follows the match. *)
Definition reV2Header (s : string) : option (string * string) :=
  match CutPrefix v2Prefix s with
  | Some r => match take_hex 8 r with
              | Some (id, String c rest) => if Ascii.eqb c ":" then Some (id, rest) else None
              | _ => None
              end
  | None => None
  end.

Inductive envVersion := envPlain | envV1 | envV2 | envUnknown.

Record envelope := mkEnvelope { version : envVersion; keyID : string; raw : bytes }.

Definition sealed_payload (s : string) : option bytes :=
  match DecodeString s with
  | Some raw => if (minSealedLen <=? length raw)%nat then Some raw else None
  | None => None
  end.

Definition parseEnvelope (stored : string) : envelope :=
  match CutPrefix EncPrefix stored with
  | None => mkEnvelope envPlain "" []
  | Some rest =>
      if reVersionTag stored then
        match reV2Header stored with
        | Some (id, rest) =>
            match sealed_payload rest with
            | Some raw => mkEnvelope envV2 id raw
            | None => mkEnvelope envUnknown "" []
            end
        | None => mkEnvelope envUnknown "" []
        end
      else
        match sealed_payload rest with
        | Some raw => mkEnvelope envV1 "" raw
        | None => mkEnvelope envPlain "" []
        end
  end.

Definition IsEncrypted (stored : string) : bool :=
  match version (parseEnvelope stored) with envPlain => false | _ => true end.

(** ** The keyring *)

Record Keyring := mkKeyring { cur : bytes; curID : string; prev : bytes; prevID : string; hasPrev : bool }.

Inductive box_error := ErrOpen | ErrNoKey | ErrSameKey | ErrRand.

Definition keyIDDomain : bytes := to_bytes "gotcha-secretbox-keyid" ++ [0].

Definition deriveKey (raw : string) : bytes := Sum256 (to_bytes raw).
Definition deriveKeyID (key : bytes) : string := hex_string (take 4 (Sum256 (keyIDDomain ++ key))).

Definition zero_key : bytes := repeat 0 32.

Definition NewKeyring (current previous : string) : result box_error Keyring :=
  if String.eqb current "" then Err ErrNoKey else
  let cur := deriveKey current in
  if String.eqb previous "" then Ok (mkKeyring cur (deriveKeyID cur) zero_key "" false) else
  let prev := deriveKey previous in
  if bool_decide (prev = cur) then Err ErrSameKey else
  Ok (mkKeyring cur (deriveKeyID cur) prev (deriveKeyID prev) true).

Definition CurrentID (r : Keyring) : string := curID r.
Definition PreviousID (r : Keyring) : string := if hasPrev r then prevID r else "".

Section keyring.
Context `{Box}.

(** [nonce]: what the random source gives, if it does. *)
Definition Seal (r : Keyring) (nonce : option bytes) (plaintext : string) : result box_error string :=
  match nonce with
  | None => Err ErrRand
  | Some n =>
      let sealed := n ++ box_seal n (cur r) (to_bytes plaintext) in
      Ok (v2Prefix +:+ curID r +:+ ":" +:+ EncodeToString sealed)
  end.

Definition keyByID (r : Keyring) (id : string) : option bytes :=
  if String.eqb id (curID r) then Some (cur r)
  else if hasPrev r && String.eqb id (prevID r) then Some (prev r)
  else None.

Definition openRaw (raw key : bytes) : option string :=
  match box_open (take 24 raw) key (drop 24 raw) with Some p => Some (of_bytes p) | None => None end.

Definition Open (r : Keyring) (stored : string) : result box_error string :=
  let env := parseEnvelope stored in
  match version env with
  | envPlain => Ok stored
  | envV1 =>
      match openRaw (raw env) (cur r) with
      | Some pt => Ok pt
      | None =>
          match (if hasPrev r then openRaw (raw env) (prev r) else None) with
          | Some pt => Ok pt
          | None => Err ErrOpen
          end
      end
  | envV2 =>
      match keyByID r (keyID env) with
      | None => Err ErrOpen
      | Some key => match openRaw (raw env) key with Some pt => Ok pt | None => Err ErrOpen end
      end
  | envUnknown => Err ErrOpen
  end.

(** The value to keep, whether it changed, and the error. *)
Definition Rewrap (r : Keyring) (nonce : option bytes) (stored : string) : string * bool * option box_error :=
  if String.eqb stored "" then (stored, false, None) else
  let env := parseEnvelope stored in
  if match version env with envV2 => String.eqb (keyID env) (curID r) | _ => false end then (stored, false, None) else
  match Open r stored with
  | Err e => (stored, false, Some e)
  | Ok pt =>
      match Seal r nonce pt with
      | Err e => (stored, false, Some e)
      | Ok sealed => (sealed, true, None)
      end
  end.
End keyring.

(** ** base64 reads what it wrote *)

Lemma testbit_high b n i : 0 <= n <= i -> 0 <= b < 2 ^ n -> Z.testbit b i = false.
Proof.
  intros Hi Hb. destruct (decide (b = 0)) as [->|]; [apply Z.testbit_0_l|].
  apply Z.bits_above_log2; [lia|]. apply Z.log2_lt_pow2; [lia|]. assert (2 ^ n <= 2 ^ i) by (apply Z.pow_le_mono_r; lia). lia.
Qed.

(** A disjunction of bit fields is their sum. *)
Lemma lor_add n x y : 0 <= n -> x mod 2 ^ n = 0 -> 0 <= y < 2 ^ n -> Z.lor x y = x + y.
Proof.
  intros Hn Hx Hy. rewrite <- Z.add_lor_land. enough (Z.land x y = 0) by lia.
  apply Z.bits_inj'. intros i Hi. rewrite Z.land_spec, Z.bits_0.
  destruct (Z.lt_ge_cases i n); [|rewrite (testbit_high y n) by lia; by rewrite andb_false_r].
  rewrite (Z.div_mod x (2 ^ n)), Hx, Z.add_0_r, Z.mul_comm by (apply Z.pow_nonzero; lia).
  by rewrite Z.mul_pow2_bits_low.
Qed.

Lemma b64_value_char v : 0 <= v < 64 -> b64_value (b64_char v) = Some v.
Proof.
  intros Hv. assert (forallb (fun n => bool_decide (b64_value (b64_char (Z.of_nat n)) = Some (Z.of_nat n))) (seq 0 64) = true) as Hall by (vm_compute; reflexivity).
  rewrite List.forallb_forall in Hall. specialize (Hall (Z.to_nat v)). rewrite bool_decide_eq_true in Hall.
  rewrite Z2Nat.id in Hall by lia. apply Hall. apply List.in_seq. lia.
Qed.

Lemma land_63 x : Z.land x 63 = x mod 64.
Proof. by apply (Z.land_ones x 6). Qed.
Lemma land_255 x : Z.land x 255 = x mod 256.
Proof. by apply (Z.land_ones x 8). Qed.
(** The six bits of a quantum at [s]. *)
Abbreviation sextet v s := (Z.land (Z.shiftr v s) 63).

Lemma sextet_value v s : b64_value (b64_char (sextet v s)) = Some (sextet v s).
Proof. apply b64_value_char. rewrite land_63. by apply Z.mod_pos_bound. Qed.


Ltac bit_fields :=
  rewrite ?land_63, ?land_255, ?Z.shiftr_div_pow2, ?Z.shiftl_mul_pow2 by lia;
  change (2 ^ 24) with 16777216 in *; change (2 ^ 18) with 262144; change (2 ^ 16) with 65536; change (2 ^ 12) with 4096;
  change (2 ^ 8) with 256; change (2 ^ 6) with 64; change (2 ^ 0) with 1.

(** Innermost first; the field added is below [2 ^ n]. *)
Ltac sum_of_fields n :=
  match goal with
  | |- context [Z.lor ?x ?y] =>
      lazymatch x with context [Z.lor] => fail | _ => rewrite (lor_add n x y) by (simpl Z.pow; Z.to_euclidean_division_equations; lia) end
  end.

Lemma quantum_value v : 0 <= v < 2 ^ 24 ->
  Z.lor (Z.lor (Z.lor (Z.shiftl (sextet v 18) 18) (Z.shiftl (sextet v 12) 12)) (Z.shiftl (sextet v 6) 6)) (sextet v 0) = v.
Proof.
  intros Hv. bit_fields. sum_of_fields 18. sum_of_fields 12. sum_of_fields 6.
  Z.to_euclidean_division_equations; lia.
Qed.

Lemma quantum_bytes a b c : is_byte a -> is_byte b -> is_byte c ->
  let v := Z.lor (Z.lor (Z.shiftl a 16) (Z.shiftl b 8)) c in
  0 <= v < 2 ^ 24 /\ Z.land (Z.shiftr v 16) 255 = a /\ Z.land (Z.shiftr v 8) 255 = b /\ Z.land v 255 = c.
Proof.
  unfold is_byte. intros Ha Hb Hc. cbv zeta. bit_fields. sum_of_fields 16. sum_of_fields 8.
  split_and!; Z.to_euclidean_division_equations; lia.
Qed.

(** A quantum of one or two bytes leaves the last sextets out: they are 0. *)
Lemma quantum_tail a b : is_byte a -> is_byte b ->
  sextet (Z.lor (Z.shiftl a 16) (Z.shiftl b 8)) 0 = 0 /\ sextet (Z.shiftl a 16) 6 = 0 /\ sextet (Z.shiftl a 16) 0 = 0.
Proof.
  unfold is_byte. intros Ha Hb. bit_fields. sum_of_fields 16.
  split_and!; Z.to_euclidean_division_equations; lia.
Qed.

Lemma unquantum_quantum n v : 0 <= v < 2 ^ 24 ->
  unquantum n (sextet v 18) (sextet v 12) (sextet v 6) (sextet v 0) =
  take n [Z.land (Z.shiftr v 16) 255; Z.land (Z.shiftr v 8) 255; Z.land v 255].
Proof. intros Hv. unfold unquantum. by rewrite quantum_value. Qed.

Lemma decode_encode l : Forall is_byte l -> b64_decode (b64_encode l) = Some l.
Proof.
  revert l. fix IH 1. intros [|a [|b [|c l]]] Hl; [done|..]; apply Forall_cons in Hl as [Ha Hl]; [|apply Forall_cons in Hl as [Hb Hl]..].
  - destruct (quantum_bytes a 0 0 Ha) as (Hv & H1 & _); [done|done|]. rewrite !Z.lor_0_r in Hv, H1.
    destruct (quantum_tail a 0 Ha) as (_ & H6 & H0); [done|].
    cbn [b64_encode]. set (v := Z.shiftl a 16) in *. cbn [quantum map app take b64_decode]. rewrite !sextet_value.
    change (b64_value "=") with (@None Z). cbn [Ascii.eqb Bool.eqb andb]. rewrite bool_decide_eq_true_2 by done.
    pose proof (unquantum_quantum 1 v Hv) as Hu. rewrite H6, H0, H1 in Hu. by rewrite Hu.
  - destruct (quantum_bytes a b 0 Ha Hb) as (Hv & H1 & H2 & _); [done|]. rewrite !Z.lor_0_r in Hv, H1, H2.
    destruct (quantum_tail a b Ha Hb) as (H0 & _).
    cbn [b64_encode]. set (v := Z.lor _ _) in *. cbn [quantum map app take b64_decode]. rewrite !sextet_value.
    change (b64_value "=") with (@None Z). cbn [Ascii.eqb Bool.eqb andb]. rewrite bool_decide_eq_true_2 by done.
    pose proof (unquantum_quantum 2 v Hv) as Hu. rewrite H0, H1, H2 in Hu. by rewrite Hu.
  - apply Forall_cons in Hl as [Hc Hl]. destruct (quantum_bytes a b c Ha Hb Hc) as (Hv & H1 & H2 & H3).
    cbn [b64_encode]. set (v := Z.lor _ c) in *. cbn [quantum map app b64_decode]. rewrite !sextet_value, (IH l Hl).
    rewrite unquantum_quantum by done. cbn [take app]. by rewrite H1, H2, H3.
Qed.

Lemma b64_char_plain v : newline (b64_char v) = false.
Proof.
  unfold b64_char. destruct (String.get (Z.to_nat v) alphabet) as [c|] eqn:Hc; [|done]. simpl.
  assert (forall n s, forallb (fun c => negb (newline c)) (String.list_ascii_of_string s) = true ->
    String.get n s = Some c -> newline c = false) as Hget.
  { clear. intros n s. revert n. induction s as [|c' s IH]; intros n Hs Hn; [done|]. simpl in *. apply andb_prop in Hs as [Hc Hs].
    destruct n; [injection Hn as <-; by apply negb_true_iff|by eapply IH]. }
  eapply Hget; [|exact Hc]. by vm_compute.
Qed.

Lemma encode_plain l : List.filter (fun c => negb (newline c)) (b64_encode l) = b64_encode l.
Proof.
  assert (forall v n, forallb (fun c => negb (newline c)) (take n (quantum v)) = true) as Hq.
  { intros v n. apply List.forallb_forall. intros c Hc%list_elem_of_In%elem_of_take. destruct Hc as (i & Hi & _). apply list_elem_of_lookup_2 in Hi.
    unfold quantum in Hi. apply list_elem_of_In, List.in_map_iff in Hi as (s & <- & _). by rewrite b64_char_plain. }
  apply List.forallb_filter_id. revert l. fix IH 1. intros [|a [|b [|c l]]]; [done|..]; cbn [b64_encode]; rewrite List.forallb_app.
  - by rewrite Hq.
  - by rewrite Hq.
  - rewrite IH, andb_true_r. apply (Hq _ 4%nat).
Qed.

Lemma DecodeString_EncodeToString l : Forall is_byte l -> DecodeString (EncodeToString l) = Some l.
Proof.
  intros Hl. unfold DecodeString, EncodeToString. by rewrite String.list_ascii_of_string_of_list_ascii, encode_plain, decode_encode.
Qed.

Lemma byte_of_range c : is_byte (byte_of c).
Proof. unfold is_byte, byte_of. pose proof (N_ascii_bounded c). lia. Qed.

Lemma of_to_bytes s : of_bytes (to_bytes s) = s.
Proof.
  unfold of_bytes, to_bytes. rewrite List.map_map, (List.map_ext _ id), List.map_id; [apply String.string_of_list_ascii_of_string|].
  intros c. unfold char_of, byte_of. by rewrite N2Z.id, ascii_N_embedding.
Qed.

Lemma to_bytes_range s : Forall is_byte (to_bytes s).
Proof. unfold to_bytes. apply Forall_fmap, Forall_true. intros c. apply byte_of_range. Qed.

(** ** Key identifiers *)

Lemma sha_round_length s kw : length (sha_round s kw) = length s.
Proof. do 9 (destruct s as [|? s]; [done|]). done. Qed.

Lemma sha_block_length h w : length (sha_block h w) = length h.
Proof.
  unfold sha_block. generalize (zip sha_k (rev (expand 48 (rev w)))) as l. intros l. rewrite length_zip_with.
  enough (length (foldl sha_round h l) = length h) as -> by apply Nat.min_id.
  revert h. induction l as [|kw l IHl]; intros h; [done|]. cbn [foldl]. by rewrite IHl, sha_round_length.
Qed.

Lemma sha_blocks_length fuel h w : length (sha_blocks fuel h w) = length h.
Proof.
  revert h w. induction fuel as [|fuel IH]; intros h [|x w]; try done. cbn [sha_blocks]. by rewrite IH, sha_block_length.
Qed.

Lemma be_bytes_4 x : exists a b c d, be_bytes 4 x = [a; b; c; d] /\ is_byte a /\ is_byte b /\ is_byte c /\ is_byte d.
Proof. do 4 eexists. split; [reflexivity|]. rewrite !land_255. split_and!; by apply Z.mod_pos_bound. Qed.

Lemma Sum256_prefix l : exists a b c d, take 4 (Sum256 l) = [a; b; c; d] /\ is_byte a /\ is_byte b /\ is_byte c /\ is_byte d.
Proof.
  unfold Sum256. pose proof (sha_blocks_length (length (words (sha_pad l))) sha_h (words (sha_pad l))) as Hlen.
  destruct (sha_blocks _ _ _) as [|x h]; [done|]. destruct (be_bytes_4 x) as (a & b & c & d & Hx & Hb). exists a, b, c, d. split; [|done].
  cbn [flat_map]. by rewrite Hx.
Qed.

Definition hex_id (id : string) : Prop := take_hex 8 id = Some (id, "").

Lemma hex_digit_ok v : 0 <= v < 16 -> is_hex (hex_digit v) = true.
Proof.
  intros Hv. assert (v = 0 \/ v = 1 \/ v = 2 \/ v = 3 \/ v = 4 \/ v = 5 \/ v = 6 \/ v = 7 \/ v = 8 \/ v = 9 \/ v = 10 \/ v = 11 \/
    v = 12 \/ v = 13 \/ v = 14 \/ v = 15) as Hcases by lia. naive_solver.
Qed.

Lemma hex_byte b : is_byte b -> is_hex (hex_digit (Z.shiftr b 4)) = true /\ is_hex (hex_digit (Z.land b 15)) = true.
Proof.
  unfold is_byte. intros Hb. split; apply hex_digit_ok.
  - rewrite Z.shiftr_div_pow2 by lia. change (2 ^ 4) with 16. Z.to_euclidean_division_equations; lia.
  - pose proof (Z.land_ones b 4 ltac:(lia)) as Hl. change (Z.land b 15 = b mod 16) in Hl. rewrite Hl. by apply Z.mod_pos_bound.
Qed.

Lemma take_hex_all l : Forall (fun c => is_hex c = true) l ->
  take_hex (length l) (String.string_of_list_ascii l) = Some (String.string_of_list_ascii l, "").
Proof. induction 1 as [|c l Hc _ IH]; [done|]. simpl. by rewrite Hc, IH. Qed.

Lemma hex_string_all l : Forall is_byte l ->
  Forall (fun c => is_hex c = true) (flat_map (fun b => [hex_digit (Z.shiftr b 4); hex_digit (Z.land b 15)]) l).
Proof. induction 1 as [|b l Hb _ IH]; [done|]. destruct (hex_byte b Hb). by repeat constructor. Qed.

Lemma deriveKeyID_hex key : hex_id (deriveKeyID key).
Proof.
  unfold deriveKeyID, hex_id. destruct (Sum256_prefix (keyIDDomain ++ key)) as (a & b & c & d & -> & Ha & Hb & Hc & Hd).
  apply (take_hex_all _ (hex_string_all [a; b; c; d] (Forall_cons_2 _ _ _ Ha (Forall_cons_2 _ _ _ Hb (Forall_cons_2 _ _ _ Hc (Forall_cons_2 _ _ _ Hd (Forall_nil_2 _))))))).
Qed.

Lemma CutPrefix_shorter p q s r : CutPrefix (p +:+ q) s = Some r -> is_Some (CutPrefix p s).
Proof.
  revert s. induction p as [|a p IH]; intros s Hs; [done|]. destruct s as [|b s]; [done|]. simpl in *.
  destruct (Ascii.eqb a b); [by eapply IH|done].
Qed.

Lemma take_hex_app n s h r r' : take_hex n s = Some (h, r) -> take_hex n (s +:+ r') = Some (h, r +:+ r').
Proof.
  revert s h. induction n as [|n IH]; intros s h Hs; [by simplify_eq/=|]. destruct s as [|c s]; [done|]. simpl in *.
  destruct (is_hex c); [|done]. destruct (take_hex n s) as [[h' r1]|] eqn:Ht; [|done]. simplify_eq/=. by rewrite (IH _ _ Ht).
Qed.

(** ** What [Seal] writes is read back as it was written *)

Lemma parse_sealed id l : hex_id id -> Forall is_byte l -> (minSealedLen <= length l)%nat ->
  parseEnvelope (v2Prefix +:+ id +:+ ":" +:+ EncodeToString l) = mkEnvelope envV2 id l.
Proof.
  intros Hid Hl Hlen. unfold parseEnvelope. simpl CutPrefix at 1. cbn iota.
  assert (reVersionTag (v2Prefix +:+ id +:+ ":" +:+ EncodeToString l) = true) as -> by done.
  assert (reV2Header (v2Prefix +:+ id +:+ ":" +:+ EncodeToString l) = Some (id, EncodeToString l)) as ->.
  { unfold reV2Header. change (CutPrefix v2Prefix (v2Prefix +:+ id +:+ ":" +:+ EncodeToString l)) with (Some (id +:+ ":" +:+ EncodeToString l)).
    cbn iota. by rewrite (take_hex_app _ _ _ _ _ Hid). }
  unfold sealed_payload. rewrite DecodeString_EncodeToString by done. apply Nat.leb_le in Hlen. by rewrite Hlen.
Qed.

Section laws.
Context `{BoxLaw}.

Definition is_nonce (n : bytes) : Prop := length n = 24%nat /\ Forall is_byte n.

Lemma openRaw_sealed n k p : length n = 24%nat -> openRaw (n ++ box_seal n k (to_bytes p)) k = Some p.
Proof.
  intros Hn. unfold openRaw. rewrite take_app_length', drop_app_length' by done. rewrite box_round by apply to_bytes_range. by rewrite of_to_bytes.
Qed.

Lemma Seal_envelope r n p : is_nonce n -> hex_id (curID r) ->
  exists s, Seal r (Some n) p = Ok s /\ s <> "" /\
    parseEnvelope s = mkEnvelope envV2 (curID r) (n ++ box_seal n (cur r) (to_bytes p)).
Proof.
  intros [Hn Hb] Hid. eexists. split; [reflexivity|]. split; [done|]. apply parse_sealed; [done|..].
  - apply Forall_app. split; [done|]. apply box_bytes.
  - rewrite length_app, box_length. unfold minSealedLen. lia.
Qed.

Lemma Open_v2 r s id n k p : parseEnvelope s = mkEnvelope envV2 id (n ++ box_seal n k (to_bytes p)) -> length n = 24%nat ->
  keyByID r id = Some k -> Open r s = Ok p.
Proof. intros Hs Hn Hk. unfold Open. rewrite Hs. simpl. by rewrite Hk, openRaw_sealed. Qed.
End laws.

Lemma NewKeyring_single key : key <> "" ->
  NewKeyring key "" = Ok (mkKeyring (deriveKey key) (deriveKeyID (deriveKey key)) zero_key "" false).
Proof. intros Hk. unfold NewKeyring. by rewrite (proj2 (String.eqb_neq key "") Hk). Qed.

Lemma NewKeyring_pair key old : key <> "" -> old <> "" -> deriveKey old <> deriveKey key ->
  NewKeyring key old = Ok (mkKeyring (deriveKey key) (deriveKeyID (deriveKey key)) (deriveKey old) (deriveKeyID (deriveKey old)) true).
Proof.
  intros Hk Ho Hne. unfold NewKeyring. rewrite (proj2 (String.eqb_neq key "") Hk), (proj2 (String.eqb_neq old "") Ho).
  by rewrite bool_decide_eq_false_2.
Qed.

(** C27: rotating the master key loses no secret.  What was sealed under the old
    key opens under it and under the ring of the new key with the old one as
    previous; re-wrapping moves it to the new key, after which the old key can
    be dropped; re-wrapping again changes nothing; and a value not re-wrapped
    fails to open, rather than leaking, once the old key is gone. *)
Theorem rotation_keeps_secrets `{BoxLaw} (old new p : string) (n1 n2 : bytes) :
  is_nonce n1 -> is_nonce n2 -> old <> "" -> new <> "" -> deriveKeyID (deriveKey old) <> deriveKeyID (deriveKey new) ->
  exists r1 r2 r3 s1 s2,
    NewKeyring old "" = Ok r1 /\ NewKeyring new old = Ok r2 /\ NewKeyring new "" = Ok r3 /\
    Seal r1 (Some n1) p = Ok s1 /\ Open r1 s1 = Ok p /\ Open r2 s1 = Ok p /\
    Rewrap r2 (Some n2) s1 = (s2, true, None) /\ Open r2 s2 = Ok p /\ Open r3 s2 = Ok p /\
    (forall o, Rewrap r2 o s2 = (s2, false, None)) /\
    Open r3 s1 = Err ErrOpen /\ IsEncrypted s1 = true /\ IsEncrypted s2 = true.
Proof.
  intros Hn1 Hn2 Ho Hn Hid. assert (deriveKey old <> deriveKey new) as Hkey by congruence.
  pose proof (NewKeyring_single old Ho) as H1. set (r1 := mkKeyring _ _ _ _ _) in H1.
  pose proof (NewKeyring_pair new old Hn Ho Hkey) as H2. set (r2 := mkKeyring _ _ _ _ _) in H2.
  pose proof (NewKeyring_single new Hn) as H3. set (r3 := mkKeyring _ _ _ _ _) in H3.
  destruct (Seal_envelope r1 n1 p Hn1 (deriveKeyID_hex _)) as (s1 & Hs1 & Hs1e & Hp1).
  destruct (Seal_envelope r2 n2 p Hn2 (deriveKeyID_hex _)) as (s2 & Hs2 & Hs2e & Hp2).
  exists r1, r2, r3, s1, s2. destruct Hn1 as [Hn1 _], Hn2 as [Hn2 _].
  assert (Open r2 s1 = Ok p) as Ho1.
  { eapply Open_v2; [exact Hp1|done|]. unfold keyByID, r1, r2. simpl. by rewrite (proj2 (String.eqb_neq _ _) Hid), String.eqb_refl. }
  split_and!; try done.
  - eapply Open_v2; [exact Hp1|done|]. unfold keyByID. by rewrite String.eqb_refl.
  - unfold Rewrap. rewrite (proj2 (String.eqb_neq s1 "") Hs1e), Hp1. cbn [version keyID].
    rewrite (proj2 (String.eqb_neq (curID r1) (curID r2)) Hid). by rewrite Ho1, Hs2.
  - eapply Open_v2; [exact Hp2|done|]. unfold keyByID. by rewrite String.eqb_refl.
  - eapply Open_v2; [exact Hp2|done|]. unfold keyByID, r2, r3. simpl. by rewrite String.eqb_refl.
  - intros o. unfold Rewrap. rewrite (proj2 (String.eqb_neq s2 "") Hs2e), Hp2. cbn [version keyID]. by rewrite String.eqb_refl.
  - unfold Open. rewrite Hp1. unfold keyByID, r1, r3. simpl. by rewrite (proj2 (String.eqb_neq _ _) Hid).
  - unfold IsEncrypted. by rewrite Hp1.
  - unfold IsEncrypted. by rewrite Hp2.
Qed.

(** C28: the box fails closed.  A stored value is handed out as it is only when
    it is not an envelope; any tagged one is taken for an envelope, and a text
    that comes out of one was authenticated under the current or the previous
    key; [Rewrap] returns the stored value untouched unless it opened it and
    sealed the same text again. *)
Theorem Open_fails_closed `{Box} (r : Keyring) (stored : string) (nonce : option bytes) :
  (IsEncrypted stored = false -> Open r stored = Ok stored) /\
  (reVersionTag stored = true -> IsEncrypted stored = true) /\
  (forall pt, IsEncrypted stored = true -> Open r stored = Ok pt ->
    exists key, (key = cur r \/ hasPrev r = true /\ key = prev r) /\
      openRaw (raw (parseEnvelope stored)) key = Some pt) /\
  (let '(s', changed, err) := Rewrap r nonce stored in
   if changed : bool then err = None /\ exists pt, Open r stored = Ok pt /\ Seal r nonce pt = Ok s' else s' = stored).
Proof.
  split_and!.
  - unfold IsEncrypted, Open. by destruct (version (parseEnvelope stored)).
  - intros Ht. assert (CutPrefix EncPrefix stored <> None) as Hp.
    { unfold reVersionTag in Ht. destruct (CutPrefix "enc:v" stored) as [r'|] eqn:Hc; [|done].
      destruct (CutPrefix_shorter EncPrefix "v" _ _ Hc) as [? ->]. done. }
    unfold IsEncrypted, parseEnvelope. destruct (CutPrefix EncPrefix stored); [|done]. rewrite Ht.
    destruct (reV2Header stored) as [[id rest]|]; [|done]. by destruct (sealed_payload rest).
  - intros pt He. unfold Open, IsEncrypted in *. destruct (version (parseEnvelope stored)) eqn:Hv; [done| | |done].
    + destruct (openRaw (raw _) (cur r)) as [q|] eqn:Hc; [intros [= <-]; eauto|].
      destruct (hasPrev r) eqn:Hh; [|done]. destruct (openRaw _ (prev r)) as [q|] eqn:Hq; [|done]. intros [= <-]. eauto.
    + destruct (keyByID r _) as [key|] eqn:Hk; [|done]. destruct (openRaw _ key) as [q|] eqn:Hq; [|done]. intros [= <-].
      exists key. split; [|done]. unfold keyByID in Hk. destruct (String.eqb _ (curID r)); [by simplify_eq; left|].
      destruct (hasPrev r); [|done]. simpl in Hk. destruct (String.eqb _ _); [|done]. simplify_eq. by right.
  - unfold Rewrap. destruct (String.eqb stored ""); [done|]. destruct (match version _ with envV2 => _ | _ => false end); [done|].
    destruct (Open r stored) as [pt|e]; [|done]. destruct (Seal r nonce pt) as [s|e] eqn:Hs; [|done]. split; [done|]. eauto.
Qed.

(** ** The theorem at work *)

(** A box that is not one: the text follows sixteen bytes of the key. *)
Definition ex_box : Box := {|
  box_seal n k m := map (fun b => Z.land b 255) (take 16 (k ++ repeat 0 16)) ++ map (fun b => Z.land b 255) m;
  box_open n k c := if bool_decide (take 16 c = map (fun b => Z.land b 255) (take 16 (k ++ repeat 0 16))) then Some (drop 16 c) else None |}.

#[local] Existing Instance ex_box.

Lemma ex_box_law : BoxLaw.
Proof.
  assert (forall l, Forall is_byte l -> map (fun b => Z.land b 255) l = l) as Hmask.
  { intros l. induction 1 as [|b l Hb _ IH]; [done|]. simpl. rewrite IH, land_255, Z.mod_small; [done|]. apply Hb. }
  assert (forall k : bytes, length (take 16 (k ++ repeat 0 16)) = 16%nat) as Hlen.
  { intros k. rewrite length_take, length_app, List.repeat_length. lia. }
  constructor; intros n k m.
  - intros Hm. unfold box_open, box_seal, ex_box. rewrite take_app_length', drop_app_length' by (by rewrite List.length_map).
    rewrite bool_decide_eq_true_2 by done. by rewrite Hmask.
  - unfold box_seal, ex_box. rewrite length_app, !List.length_map, Hlen. lia.
  - unfold box_seal, ex_box. rewrite <- List.map_app. apply Forall_fmap, Forall_true. intros b.
    unfold compose, is_byte. rewrite land_255. by apply Z.mod_pos_bound.
Qed.

#[local] Existing Instance ex_box_law.

Definition ex_nonce : bytes := repeat 7 24.

Lemma rotation_keeps_secrets_witness :
  exists r2 s1 s2, NewKeyring "new" "old" = Ok r2 /\ Open r2 s1 = Ok "token" /\ s1 <> "token" /\ Rewrap r2 (Some ex_nonce) s1 = (s2, true, None).
Proof.
  destruct (rotation_keeps_secrets "old" "new" "token" ex_nonce ex_nonce)
    as (r1 & r2 & r3 & s1 & s2 & _ & H2 & _ & H1 & _ & Ho & Hr & _ & _ & _ & _ & He & _);
    [split; [done|repeat constructor; done]..|done|done|vm_compute; done|].
  exists r2, s1, s2. split_and!; [exact H2|exact Ho| |exact Hr]. intros ->. revert He. vm_compute. done.
Defined.
