(* ===== verification/Alert.v ===== *)
(** Alert rules and channels: [internal/alert/alert.go] and
    [rewrap_secrets.go].

    Rules and channels are rows of PostgreSQL; the secret of a channel is
    stored sealed by the ring of the service that wrote it ([Secretbox]) and
    moved to the current key at start-up by [RewrapSecrets].  The tables of
    the notification budget, in [AlertBudget], are kept in the same record.
    [meant] records the secret a user last gave each channel. *)
From stdpp Require Import base tactics list gmap strings sorting.
From Stdlib Require Import ZArith Lia Ascii.
From coqutil Require Import Datatypes.RecordSetters.
From S2P Require Import Prelude.
From S2P Require Import GoString.
From S2P Require Import Prog.
From S2P Require Import Secretbox.
From S2P Require Import Notify.
From S2P Require Import Policy.

Import RecordSetters.TriangleBracketNotations.
Open Scope Z_scope.
Open Scope go_scope.

(** ** Data *)

Definition KindNewIssue : string := "new_issue".
Definition KindRegression : string := "regression".
Definition KindSpike : string := "spike".

Definition ChannelEmail : string := "email".
Definition ChannelWebhook : string := "webhook".
Definition ChannelTelegram : string := "telegram".

Record Rule := mkRule {
  r_ID : Z; r_ProjectID : Z; r_Kind : string; r_Enabled : bool;
  Threshold : Z; WindowMinutes : Z; ThrottleMinutes : Z }.

Definition DefaultThrottleMinutes : Z := 30.

Record Channel := mkAlertChannel {
  c_ID : Z; c_ProjectID : Z; c_Kind : string; c_Enabled : bool; c_Target : string;
  c_Secret : string; SecretBroken : bool; Trusted : bool }.

Definition Channel_Deliverable (c : Channel) : bool := c_Enabled c && negb (SecretBroken c).

(** A row of [alert_project_budget]. *)
Record Budget := mkBudget { window_start : Z; sent : Z; suppressed : Z; allowed : bool; digest_at : option Z }.

Record AlertTables := mkAlertTables {
  rules : gmap Z Rule; next_rule : Z;
  channels : gmap Z Channel; next_channel : Z;
  throttle : gmap (Z * Z) Z; (** [alert_throttle]: last_sent_at by issue and rule *)
  budgets : gmap Z Budget;
  alert_now : Z;
  meant : gmap Z string;
  refused : Z; reported : Z; lostSuppressed : Z; elsewhere : Z }.

Inductive alert_error :=
| ErrNotFound | ErrInvalidRule | ErrInvalidChannel | ErrSecretBroken | ErrAlertSQL | ErrSeal (e : box_error).

(** ** Strings of Go's library *)

(** [strconv.ParseInt(s, 10, 64)] *)
Fixpoint parse_digits (acc : Z) (s : string) : option Z :=
  match s with
  | EmptyString => Some acc
  | String c s => if is_digit c then parse_digits (10 * acc + (byte_of c - 48)) s else None
  end.

Definition ParseInt (s : string) : option Z :=
  let '(neg, ds) := match s with
                    | String c r => if Ascii.eqb c "-" then (true, r) else if Ascii.eqb c "+" then (false, r) else (false, s)
                    | EmptyString => (false, s)
                    end in
  match ds with
  | EmptyString => None
  | _ => match parse_digits 0 ds with
         | Some n => let n := if neg : bool then - n else n in
                     if (- 2 ^ 63 <=? n) && (n <? 2 ^ 63) then Some n else None
         | None => None
         end
  end.

(** ** Validation *)

Definition validRuleKind (kind : string) : bool :=
  String.eqb kind KindNewIssue || String.eqb kind KindRegression || String.eqb kind KindSpike.

Definition validateRule (r : Rule) : result alert_error () :=
  if negb (validRuleKind (r_Kind r)) then Err ErrInvalidRule
  else if String.eqb (r_Kind r) KindSpike && ((Threshold r <=? 0) || (WindowMinutes r <=? 0)) then Err ErrInvalidRule
  else if ThrottleMinutes r <? 0 then Err ErrInvalidRule
  else Ok tt.

(** The parsers of addresses: [mail.ParseAddress] gives the address,
    [url.Parse] the scheme and the host. *)
Class Addresses := { ParseAddress : string -> option string; url_Parse : string -> option (string * string) }.

Section validation.
Context `{Addresses}.

Definition normalizeChannelTarget (c : Channel) : Channel :=
  let c := c <| c_Target := TrimSpace (c_Target c) |> in
  if String.eqb (c_Kind c) ChannelEmail then
    match ParseAddress (c_Target c) with Some a => c <| c_Target := a |> | None => c end
  else c.

Definition validateChannel (c : Channel) : result alert_error () :=
  if String.eqb (c_Kind c) ChannelEmail then
    match ParseAddress (c_Target c) with Some _ => Ok tt | None => Err ErrInvalidChannel end
  else if String.eqb (c_Kind c) ChannelWebhook then
    match url_Parse (c_Target c) with
    | Some (scheme, host) =>
        if String.eqb host "" || (negb (String.eqb scheme "http") && negb (String.eqb scheme "https"))
        then Err ErrInvalidChannel else Ok tt
    | None => Err ErrInvalidChannel
    end
  else if String.eqb (c_Kind c) ChannelTelegram then
    if String.eqb (c_Secret c) "" then Err ErrInvalidChannel
    else match ParseInt (c_Target c) with Some _ => Ok tt | None => Err ErrInvalidChannel end
  else Err ErrInvalidChannel.

Definition validateChannelForUpdate (c : Channel) : result alert_error () :=
  validateChannel (if String.eqb (c_Kind c) ChannelTelegram && String.eqb (c_Secret c) "" then c <| c_Secret := "keep" |> else c).
End validation.

(** ** Rules *)

Definition same_rule (p : Z) (kind : string) (r : Rule) : bool := (r_ProjectID r =? p) && String.eqb (r_Kind r) kind.

Definition find_rule (p : Z) (kind : string) (t : AlertTables) : option (Z * Rule) :=
  head (List.filter (fun '(_, r) => same_rule p kind r) (map_to_list (rules t))).

(** [INSERT ... ON CONFLICT (project_id, kind) DO UPDATE]; the identity is
    drawn from its sequence whether or not the row is new. *)
Definition upsert_rule (r : Rule) (t : AlertTables) : Z * AlertTables :=
  let '(id, row) := match find_rule (r_ProjectID r) (r_Kind r) t with
                    | Some (id, old) => (id, r <| r_ID := r_ID old |>)
                    | None => (next_rule t, r <| r_ID := next_rule t |>)
                    end in
  (id, t <| rules := <[id := row]> (rules t) |> <| next_rule := next_rule t + 1 |>).

(** The three integer columns are [int4]. *)
Definition rule_fits (r : Rule) : bool := fits_int4 (Threshold r) && fits_int4 (WindowMinutes r) && fits_int4 (ThrottleMinutes r).

Definition default_rules (p : Z) (t : AlertTables) : AlertTables :=
  foldl (fun t kind =>
    match find_rule p kind t with
    | Some _ => t <| next_rule := next_rule t + 1 |>
    | None => (upsert_rule (mkRule 0 p kind true 0 0 DefaultThrottleMinutes) t).2
    end) t [KindNewIssue; KindRegression].

Definition by_kind (a b : Rule) : Prop := go_string_lt (r_Kind b) (r_Kind a) = false.
#[export] Instance by_kind_dec a b : Decision (by_kind a b).
Proof. unfold by_kind. apply _. Defined.

Definition delete_where {A} (p : A -> bool) (m : gmap Z A) : gmap Z A := filter (fun '(_, x) => p x = false) m.
Definition affected {A} (p : A -> bool) (m : gmap Z A) : bool := existsb (fun '(_, x) => p x) (map_to_list m).
Definition update_rows {A} (p : A -> bool) (f : A -> A) (m : gmap Z A) : gmap Z A := (fun x => if p x then f x else x) <$> m.

Section rules.
Context {D : Type} `{Has AlertTables D}.

Definition Rules (projectID : Z) : prog D (result alert_error (list Rule)) :=
  ask ErrAlertSQL (fun d => merge_sort by_kind (List.filter (fun r => r_ProjectID r =? projectID) (map snd (map_to_list (rules (get d)))))).

Definition UpsertRule (r : Rule) : prog D (result alert_error Z) :=
  match validateRule r with
  | Err e => mret (Err e)
  | Ok _ => callE ErrAlertSQL (on (fun t => if rule_fits r then let '(id, t) := upsert_rule r t in (Ok id, t) else (Err ErrAlertSQL, t)))
  end.

Fixpoint first_invalid (rs : list Rule) : option alert_error :=
  match rs with
  | [] => None
  | r :: rs => match validateRule r with Err e => Some e | Ok _ => first_invalid rs end
  end.

(** Everything is validated before the one transaction that writes. *)
Definition UpsertRules (rs : list Rule) : prog D (result alert_error ()) :=
  match first_invalid rs with
  | Some e => mret (Err e)
  | None =>
      callE ErrAlertSQL (on (fun t =>
        if forallb rule_fits rs then (Ok tt, foldl (fun t r => (upsert_rule r t).2) t rs) else (Err ErrAlertSQL, t)))
  end.

(** Deleting a rule deletes its throttling rows. *)
Definition DeleteRule (projectID ruleID : Z) : prog D (result alert_error ()) :=
  let this r := (r_ID r =? ruleID) && (r_ProjectID r =? projectID) in
  tryE: found ← call ErrAlertSQL (on (fun t =>
      (affected this (rules t),
       let gone k := match rules t !! k with Some r => this r | None => false end in
       t <| rules := delete_where this (rules t) |>
         <| throttle := filter (fun '(k, _) => gone k.2 = false) (throttle t) |>))) catch e => mret (Err e);
  if found : bool then mret (Ok tt) else mret (Err ErrNotFound).

Definition EnsureDefaultRules (projectID : Z) : prog D (result alert_error ()) :=
  call ErrAlertSQL (on (fun t => (tt, default_rules projectID t))).
End rules.

(** ** Channels *)

Section channels.
Context `{Addresses} `{Box} {D : Type} `{Has AlertTables D} `{Has OutTables D}.
(** The ring of the service, when a key is set. *)
Context (ring : option Keyring).

Definition read_secret (c : Channel) : Channel :=
  match ring with
  | Some r => match Open r (c_Secret c) with
              | Ok s => c <| c_Secret := s |>
              | Err _ => c <| c_Secret := "" |> <| SecretBroken := true |>
              end
  | None => if IsEncrypted (c_Secret c) then c <| c_Secret := "" |> <| SecretBroken := true |> else c
  end.

Definition by_channel_id (a b : Channel) : Prop := c_ID a <= c_ID b.
#[export] Instance by_channel_id_dec a b : Decision (by_channel_id a b).
Proof. unfold by_channel_id. apply _. Defined.

Definition list_channels (projectID : Z) (t : AlertTables) : list Channel :=
  map read_secret (merge_sort by_channel_id (List.filter (fun c => c_ProjectID c =? projectID) (map snd (map_to_list (channels t))))).

Definition Channels (projectID : Z) : prog D (result alert_error (list Channel)) :=
  ask ErrAlertSQL (fun d => list_channels projectID (get d)).

(** The secret as it is stored; [nonce] is what the random source gives. *)
Definition stored_secret (nonce : option bytes) (secret : string) : result alert_error string :=
  match ring with
  | None => Ok secret
  | Some r => match Seal r nonce secret with Ok s => Ok s | Err e => Err (ErrSeal e) end
  end.

Definition insert_channel (c : Channel) (stored : string) (t : AlertTables) : Z * AlertTables :=
  let id := next_channel t in
  (id, t <| channels := <[id := c <| c_ID := id |> <| c_Secret := stored |> <| SecretBroken := false |>]> (channels t) |>
         <| next_channel := id + 1 |> <| meant := <[id := c_Secret c]> (meant t) |>).

Definition CreateChannel (nonce : option bytes) (c : Channel) : prog D (result alert_error Z) :=
  match validateChannel c with
  | Err e => mret (Err e)
  | Ok _ =>
      let c := normalizeChannelTarget c in
      match stored_secret nonce (c_Secret c) with
      | Err e => mret (Err e)
      | Ok stored => call ErrAlertSQL (on (insert_channel c stored))
      end
  end.

Definition secret_of (stored : string) (channelID : Z) : result alert_error string :=
  match ring with
  | None => if IsEncrypted stored then Err ErrSecretBroken else Ok stored
  | Some r => match Open r stored with Ok s => Ok s | Err e => Err (ErrSeal e) end
  end.

Definition ChannelSecret (channelID : Z) : prog D (result alert_error string) :=
  tryE: row ← ask ErrAlertSQL (fun d => channels (get d) !! channelID) catch e => mret (Err e);
  match row with
  | None => mret (Err ErrNotFound)
  | Some c => mret (secret_of (c_Secret c) channelID)
  end.

(** The row with this id, in this project. *)
Definition this_channel (projectID channelID : Z) (c : Channel) : bool := (c_ID c =? channelID) && (c_ProjectID c =? projectID).

Definition update_channel (c : Channel) (stored : option string) (t : AlertTables) : bool * AlertTables :=
  let this := this_channel (c_ProjectID c) (c_ID c) in
  let set row := let row := row <| c_Target := c_Target c |> <| c_Enabled := c_Enabled c |> <| Trusted := Trusted c |> in
                 match stored with Some s => row <| c_Secret := s |> | None => row end in
  (affected this (channels t),
   t <| channels := update_rows this set (channels t) |>
     <| meant := match stored with
                 | Some _ => if affected this (channels t) then <[c_ID c := c_Secret c]> (meant t) else meant t
                 | None => meant t
                 end |>).

Definition found_or (p : prog D (result alert_error bool)) : prog D (result alert_error ()) :=
  tryE: found ← p catch e => mret (Err e);
  if found : bool then mret (Ok tt) else mret (Err ErrNotFound).

(** An empty secret keeps the one stored. *)
Definition UpdateChannel (nonce : option bytes) (c : Channel) : prog D (result alert_error ()) :=
  match validateChannelForUpdate c with
  | Err e => mret (Err e)
  | Ok _ =>
      let c := normalizeChannelTarget c in
      if String.eqb (c_Secret c) "" then found_or (call ErrAlertSQL (on (update_channel c None))) else
      match stored_secret nonce (c_Secret c) with
      | Err e => mret (Err e)
      | Ok stored => found_or (call ErrAlertSQL (on (update_channel c (Some stored))))
      end
  end.

Definition drop_channels (p : Channel -> bool) (t : AlertTables) : AlertTables := t <| channels := delete_where p (channels t) |>.

(** Deleting a channel deletes its rows of the outbox. *)
Definition DeleteChannel (projectID channelID : Z) : prog D (result alert_error ()) :=
  found_or (call ErrAlertSQL (fun d =>
    let t := get d in
    let this := this_channel projectID channelID in
    let found := affected this (channels t) in
    let d := put (drop_channels this t) d in
    (found, if found then put (set_outbox (filter (fun '(_, r) => o_channel r <> channelID) (notification_outbox (get d))) (get d)) d else d))).

(** ** Moving secrets to the current key *)

(** The update holds only while the stored value is the one read. *)
Definition rewrap_row (id : Z) (prev out : string) (t : AlertTables) : bool * AlertTables :=
  let this c := (c_ID c =? id) && String.eqb (c_Secret c) prev in
  (affected this (channels t), t <| channels := update_rows this (fun c => c <| c_Secret := out |>) (channels t) |>).

Definition rewrapChannelSecret (id : Z) (prev out : string) : prog D (result alert_error bool) :=
  call ErrAlertSQL (on (rewrap_row id prev out)).

Fixpoint rewrap_batch (r : Keyring) (rand : Z -> option bytes) (batch : list (Z * string)) (updated : Z) : prog D Z :=
  match batch with
  | [] => mret updated
  | (id, secret) :: batch =>
      match Rewrap r (rand id) secret with
      | (_, _, Some _) => rewrap_batch r rand batch updated
      | (_, false, None) => rewrap_batch r rand batch updated
      | (out, true, None) =>
          res ← rewrapChannelSecret id secret out;
          rewrap_batch r rand batch (match res with Ok true => updated + 1 | _ => updated end)
      end
  end.

Definition RewrapSecrets (rand : Z -> option bytes) : prog D (result alert_error Z) :=
  match ring with
  | None => mret (Ok 0)
  | Some r =>
      tryE: batch ← ask ErrAlertSQL (fun d => map (fun '(id, c) => (id, c_Secret c)) (map_to_list (channels (get d))))
        catch e => mret (Err e);
      n ← rewrap_batch r rand batch 0;
      mret (Ok n)
  end.
End channels.

(** ** No secret is lost *)

Section secrets.
Context `{Addresses} `{BoxLaw} {D : Type} `{Has AlertTables D} `{Has OutTables D} `{!Apart OutTables AlertTables D}.
(** The ring everything is read with, and those the replicas write with. *)
Context (r : Keyring) (writer : Keyring -> Prop).
Context (Hr : hex_id (curID r)) (Hwriter : forall w, writer w -> hex_id (curID w) /\ keyByID r (curID w) = Some (cur w)).

(** Every stored secret opens to what was last meant. *)
Record secrets_ok (t : AlertTables) : Prop := {
  se_open id c : channels t !! id = Some c ->
    c_ID c = id /\ SecretBroken c = false /\ exists m, meant t !! id = Some m /\ Open r (c_Secret c) = Ok m;
  se_fresh id c : channels t !! id = Some c -> id < next_channel t }.

Definition seals (nonce : option bytes) : Prop := match nonce with Some n => is_nonce n | None => True end.

Lemma stored_opens w nonce secret stored : writer w -> seals nonce ->
  stored_secret (Some w) nonce secret = Ok stored -> Open r stored = Ok secret.
Proof.
  intros Hw Hn. unfold stored_secret. destruct nonce as [n|]; [|done]. destruct (Hwriter w Hw) as [Hid Hk].
  destruct (Seal_envelope w n secret Hn Hid) as (s & Hs & _ & Hp). rewrite Hs. intros [= <-].
  eapply Open_v2; [exact Hp|apply Hn|exact Hk].
Qed.

Lemma same_channels t t' : channels t' = channels t -> next_channel t' = next_channel t -> meant t' = meant t ->
  secrets_ok t -> secrets_ok t'.
Proof. intros Hc Hn Hm [Hse Hfr]. constructor; rewrite ?Hc, ?Hn, ?Hm; done. Qed.

Lemma insert_channel_ok c stored t : Open r stored = Ok (c_Secret c) -> secrets_ok t -> secrets_ok (insert_channel c stored t).2.
Proof.
  intros Ho [Hse Hfr]. unfold insert_channel. destruct t as [ru nr ch nc th bu now me rf rp lo el], c as [i p k e tg s b tr]. cbn in *. unfold constant.
  constructor; cbn; unfold constant; intros id c; rewrite lookup_insert_Some; intros [[<- <-]|[Hne Hc]]; cbn.
  - split_and!; [done..|]. exists s. by rewrite lookup_insert_eq.
  - rewrite lookup_insert_ne by done. by apply Hse.
  - lia.
  - specialize (Hfr id c Hc). lia.
Qed.

Lemma affected_spec {A} (p : A -> bool) (m : gmap Z A) : affected p m = true <-> exists id x, m !! id = Some x /\ p x = true.
Proof.
  unfold affected. rewrite existsb_exists. split.
  - intros ([id x] & Hin & Hp). exists id, x. split; [|done]. by apply elem_of_map_to_list, list_elem_of_In.
  - intros (id & x & Hx & Hp). exists (id, x). split; [|done]. by apply list_elem_of_In, elem_of_map_to_list.
Qed.

Lemma update_channel_ok c stored t :
  match stored with Some s => Open r s = Ok (c_Secret c) | None => True end -> secrets_ok t -> secrets_ok (update_channel c stored t).2.
Proof.
  intros Ho [Hse Hfr]. unfold update_channel. set (this := this_channel _ _).
  destruct t as [ru nr ch nc th bu now me rf rp lo el]. cbn in *. unfold constant in *. unfold update_rows.
  constructor; cbn; unfold constant; intros id row'; rewrite lookup_fmap_Some; intros (row & <- & Hrow);
    [|by eapply Hfr]. destruct (Hse id row Hrow) as (Hid & Hb & m & Hm & Hopen).
  destruct (this row) eqn:Ht.
  - assert (c_ID c = id) as Heq by (unfold this, this_channel in Ht; rewrite andb_true_iff, !Z.eqb_eq in Ht; lia).
    destruct row as [i p k e tg s b tr]. cbn in *. destruct stored as [st|]; cbn; unfold constant; split_and!; try done; [|by exists m].
    assert (affected this ch = true) as -> by (apply affected_spec; eauto). exists (c_Secret c). by rewrite Heq, lookup_insert_eq.
  - split_and!; try done. exists m. split; [|done]. destruct stored; [|done]. destruct (affected this ch) eqn:Ha; [|done].
    rewrite lookup_insert_ne; [done|]. intros Heq. apply affected_spec in Ha as (id' & row' & Hrow' & Ht').
    assert (id' = id) as ->; [|congruence]. destruct (Hse id' row' Hrow') as [Hid' _]. unfold this, this_channel in Ht'.
    rewrite andb_true_iff, !Z.eqb_eq in Ht'. lia.
Qed.

Lemma delete_channel_ok p (t : AlertTables) : secrets_ok t -> secrets_ok (drop_channels p t).
Proof.
  intros [Hse Hfr]. unfold drop_channels, delete_where. destruct t as [ru nr ch nc th bu now me rf rp lo el]. cbn in *. unfold constant in *.
  constructor; cbn; unfold constant; intros id c [Hc _]%map_lookup_filter_Some; eauto.
Qed.

(** The compare-and-set of the re-wrapping. *)
Lemma rewrap_row_ok id prev out t :
  (exists m, Open r prev = Ok m /\ Open r out = Ok m) -> secrets_ok t -> secrets_ok (rewrap_row id prev out t).2.
Proof.
  intros (m & Hprev & Hout) [Hse Hfr]. unfold rewrap_row, update_rows.
  destruct t as [ru nr ch nc th bu now me rf rp lo el]. cbn in *. unfold constant in *.
  constructor; cbn; unfold constant; intros id' row'; rewrite lookup_fmap_Some; intros (row & <- & Hrow);
    [|by eapply Hfr]. destruct (Hse id' row Hrow) as (Hid & Hb & m' & Hm & Hopen).
  destruct ((c_ID row =? id) && String.eqb (c_Secret row) prev) eqn:Ht; [|split_and!; eauto].
  apply andb_true_iff in Ht as [_ Heq%String.eqb_eq]. destruct row as [i p k e tg s b tr]. cbn in *. unfold constant.
  split_and!; [done..|]. exists m'. split; [done|]. congruence.
Qed.

Lemma upsert_rule_ok x t : secrets_ok t -> secrets_ok (upsert_rule x t).2.
Proof. unfold upsert_rule. destruct (find_rule _ _ t) as [[id old]|]; by apply same_channels; destruct t. Qed.

Abbreviation good := (fun d : D => secrets_ok (get d)).
Abbreviation keeps p := (always good p (fun _ => True)).

Lemma tables_keep {A E} (e : E) (q : AlertTables -> A * AlertTables) :
  (forall t, secrets_ok t -> secrets_ok (q t).2) -> keeps (call e (on q)).
Proof. intros Hq. apply always_call. intros d Hd. rewrite get_on. by apply Hq. Qed.

Lemma tables_keepE {A E} (e : E) (q : AlertTables -> result E A * AlertTables) :
  (forall t, secrets_ok t -> secrets_ok (q t).2) -> keeps (callE e (on q)).
Proof. intros Hq f d Hd. split; [|done]. destruct f; [|done|]; rewrite get_on; by apply Hq. Qed.

Lemma keeps_found p : keeps p -> keeps (found_or p).
Proof. intros Hp. eapply always_bind; [exact Hp|]. by intros [[]|] _. Qed.

Lemma foldl_ok {X} (f : AlertTables -> X -> AlertTables) l t :
  (forall t x, secrets_ok t -> secrets_ok (f t x)) -> secrets_ok t -> secrets_ok (foldl f t l).
Proof. intros Hf. revert t. induction l as [|x l IH]; intros t Ht; [done|]. simpl. auto. Qed.

(** One call of the service of a replica. *)
Inductive alert_call : prog D () -> Prop :=
| call_CreateChannel w nonce c : writer w -> seals nonce -> alert_call (_ ← CreateChannel (Some w) nonce c; mret tt)
| call_UpdateChannel w nonce c : writer w -> seals nonce -> alert_call (_ ← UpdateChannel (Some w) nonce c; mret tt)
| call_DeleteChannel p id : alert_call (_ ← DeleteChannel p id; mret tt)
| call_RewrapSecrets rand : (forall id, seals (rand id)) -> alert_call (_ ← RewrapSecrets (Some r) rand; mret tt)
| call_UpsertRule x : alert_call (_ ← UpsertRule x; mret tt)
| call_UpsertRules xs : alert_call (_ ← UpsertRules xs; mret tt)
| call_DeleteRule p id : alert_call (_ ← DeleteRule p id; mret tt)
| call_EnsureDefaultRules p : alert_call (_ ← EnsureDefaultRules p; mret tt).

Lemma Rewrap_same nonce prev out : seals nonce -> Rewrap r nonce prev = (out, true, None) ->
  exists m, Open r prev = Ok m /\ Open r out = Ok m.
Proof.
  intros Hn. unfold Rewrap. destruct (String.eqb prev ""); [done|]. destruct (match version _ with envV2 => _ | _ => false end); [done|].
  destruct (Open r prev) as [m|]; [|done]. destruct nonce as [n|]; [|done].
  destruct (Seal_envelope r n m Hn Hr) as (s & Hs & _ & Hp). rewrite Hs. intros [= <-]. exists m. split; [done|].
  eapply Open_v2; [exact Hp|apply Hn|]. unfold keyByID. by rewrite String.eqb_refl.
Qed.

Lemma rewrap_batch_keeps rand batch n : (forall id, seals (rand id)) -> keeps (rewrap_batch r rand batch n).
Proof.
  intros Hrand. revert n. induction batch as [|[id secret] batch IH]; intros n; [done|]. cbn [rewrap_batch].
  destruct (Rewrap r (rand id) secret) as [[out [|]] [e|]] eqn:Hw; try apply IH.
  eapply always_bind; [|intros res _; apply IH]. apply tables_keep. intros t. apply rewrap_row_ok. by eapply Rewrap_same.
Qed.

Lemma alert_call_keeps p : alert_call p -> keeps p.
Proof.
  intros Hp. assert (forall A (p : prog D A), keeps p -> keeps (_ ← p; mret tt)) as Hthen.
  { intros A q Hq. eapply always_bind; [exact Hq|done]. }
  destruct Hp as [w nonce c Hw Hn|w nonce c Hw Hn|p id|rand Hrand|x|xs|p id|p]; apply Hthen.
  - unfold CreateChannel. destruct (validateChannel c); [|done]. cbv zeta. set (c' := normalizeChannelTarget c).
    destruct (stored_secret (Some w) nonce (c_Secret c')) as [st|] eqn:Hs; [|done].
    apply tables_keep. intros t. apply insert_channel_ok. by eapply stored_opens.
  - unfold UpdateChannel. destruct (validateChannelForUpdate c); [|done]. cbv zeta. set (c' := normalizeChannelTarget c).
    destruct (String.eqb (c_Secret c') ""); [apply keeps_found, tables_keep; intros t; by apply update_channel_ok|].
    destruct (stored_secret (Some w) nonce (c_Secret c')) as [st|] eqn:Hs; [|done].
    apply keeps_found, tables_keep. intros t. apply update_channel_ok. by eapply stored_opens.
  - apply keeps_found, always_call. intros d Hd. cbn [snd]. destruct (affected _ _); rewrite ?get_put_apart, get_put; by apply delete_channel_ok.
  - unfold RewrapSecrets. eapply always_bind; [apply always_ask|]. intros [batch|e] _; [|done].
    eapply always_bind; [by apply rewrap_batch_keeps|done].
  - unfold UpsertRule. destruct (validateRule x); [|done]. apply tables_keepE. intros t Ht. destruct (rule_fits x); [|done].
    pose proof (upsert_rule_ok x t Ht) as Hu. by destruct (upsert_rule x t).
  - unfold UpsertRules. destruct (first_invalid xs); [done|]. apply tables_keepE. intros t Ht. destruct (forallb _ _); [|done].
    cbn [snd]. apply foldl_ok; [|done]. intros t' x. apply upsert_rule_ok.
  - unfold DeleteRule. eapply always_bind; [|by intros [[]|] _]. apply tables_keep. intros t. by apply same_channels; destruct t.
  - apply tables_keep. intros t Ht. unfold default_rules. cbn [snd]. apply foldl_ok; [|done]. intros t' k Ht'.
    destruct (find_rule p k t'); [by apply (same_channels t'); destruct t'|by apply upsert_rule_ok].
Qed.
End secrets.

(** What the other parts of the service do to these tables: projects disappear
    with their channels, rules and budgets move. *)
Definition others_move (t t' : AlertTables) : Prop :=
  channels t' ⊆ channels t /\ next_channel t' = next_channel t /\ meant t' = meant t.

(** C19: no secret is lost or mixed up.  Whatever the replicas do at once while
    the key is rotated -- edits of channels under the old or the new key,
    several re-wrapping passes, failures between any two statements -- every
    channel still reads back the secret last given to it. *)
Theorem secrets_survive `{Addresses} `{BoxLaw} {D} `{Has AlertTables D} `{Has OutTables D} `{!Apart OutTables AlertTables D}
    (r : Keyring) (writer : Keyring -> Prop) (env : D -> D -> Prop) d0 s :
  hex_id (curID r) -> (forall w, writer w -> hex_id (curID w) /\ keyByID r (curID w) = Some (cur w)) ->
  (forall d d', env d d' -> others_move (get d) (get d')) ->
  secrets_ok r (get d0) ->
  rtc (pool_step (alert_call r writer) env) (Pool d0 [] 0) s ->
  let t := get (shared s) in
  (forall projectID c, c ∈ list_channels (Some r) projectID t -> SecretBroken c = false /\ meant t !! c_ID c = Some (c_Secret c)) /\
  (forall id c, channels t !! id = Some c -> exists m, meant t !! id = Some m /\ secret_of (Some r) (c_Secret c) id = Ok m).
Proof.
  intros Hid Hw Henv Ht0 Hrun t. assert (secrets_ok r t) as [Hse _].
  { apply (pool_always (fun d : D => secrets_ok r (get d)) (alert_call r writer) env d0); [|intros d d' Hd [Hse Hfr]|exact Ht0|exact Hrun].
    - intros p. by apply alert_call_keeps.
    - destruct (Henv d d' Hd) as (Hsub & Hn & Hm). constructor; rewrite ?Hn, ?Hm; intros id c Hc; [apply Hse|apply (Hfr id c)];
        by eapply lookup_weaken. }
  split.
  - intros projectID c. unfold list_channels. intros (row & Hrow & Hin)%list_elem_of_fmap.
    rewrite merge_sort_Permutation, list_elem_of_In, filter_In, <- list_elem_of_In in Hin. destruct Hin as [([id row'] & -> & Hin)%list_elem_of_fmap _].
    apply elem_of_map_to_list in Hin. destruct (Hse id row' Hin) as (Hc & Hb & m & Hm & Ho). simpl in Hrow. unfold read_secret in Hrow. rewrite Ho in Hrow.
    subst c. destruct row'. cbn in *. unfold constant. by subst.
  - intros id c Hc. destruct (Hse id c Hc) as (_ & _ & m & Hm & Ho). exists m. unfold secret_of. by rewrite Ho.
Qed.

(** ** The theorem at work *)

#[local] Existing Instance ex_box.
#[local] Existing Instance ex_box_law.
#[local] Instance ex_addresses : Addresses := {| ParseAddress := Some; url_Parse := fun _ => Some ("https", "hooks.corp.example") |}.

Definition key_old : bytes := repeat 1 32.
Definition key_new : bytes := repeat 2 32.
(** The key is being rotated; this channel was sealed under the old one. *)
Definition ex_old : Keyring := mkKeyring key_old "0123abcd" zero_key "" false.
Definition ex_ring : Keyring := mkKeyring key_new "4567cdef" key_old "0123abcd" true.
Definition ex_sealed : string := match Seal ex_old (Some ex_nonce) "first" with Ok s => s | Err _ => "" end.
Definition ex_channel (secret : string) : Channel := mkAlertChannel 1 7 ChannelWebhook true "https://hooks.corp.example" secret false false.
Definition ex_alerts : AlertTables := mkAlertTables ∅ 1 {[1 := ex_channel ex_sealed]} 2 ∅ ∅ 0 {[1 := "first"]} 0 0 0 0.
Abbreviation ex_world := ((ex_alerts, mkOutTables ∅ 1 0 []) : AlertTables * OutTables).

(** Between the read and the update of the re-wrapping the secret is edited by
    a replica that still has the old key. *)
Definition ex_rewrap : prog (AlertTables * OutTables) () := _ ← RewrapSecrets (Some ex_ring) (fun _ => Some ex_nonce); mret tt.
Definition ex_edit : prog (AlertTables * OutTables) () := _ ← UpdateChannel (Some ex_old) (Some ex_nonce) (ex_channel "second"); mret tt.

#[local] Instance ex_apart : Apart OutTables AlertTables (AlertTables * OutTables).
Proof. by intros t [a o]. Qed.

Lemma ex_nonce_ok : is_nonce ex_nonce.
Proof. split; [done|]. repeat constructor; done. Qed.

Lemma ex_alerts_ok : secrets_ok ex_ring ex_alerts.
Proof.
  constructor; intros id c; unfold ex_alerts; cbn [channels next_channel meant]; intros [<- <-]%lookup_singleton_Some; [|done].
  split_and!; [done..|]. exists "first". rewrite lookup_singleton_eq. split; [done|]. vm_compute. done.
Qed.

Lemma secrets_survive_witness :
  exists s : pool (AlertTables * OutTables),
    rtc (pool_step (alert_call ex_ring (eq ex_old)) eq) (Pool ex_world [] 0) s /\ procs s = [] /\
    exists c, c ∈ list_channels (Some ex_ring) 7 (shared s).1 /\ c_Secret c = "second" /\ SecretBroken c = false.
Proof.
  assert (exists s : pool (AlertTables * OutTables),
    rtc (pool_step (alert_call ex_ring (eq ex_old)) eq) (Pool ex_world [] 0) s /\ procs s = [] /\
    meant (shared s).1 !! 1 = Some "second" /\ map c_ID (list_channels (Some ex_ring) 7 (shared s).1) = [1]) as (s & Hrun & Hnil & Hm & Hid).
  { eexists. split; [|split].
    - eapply rtc_l; [apply (pool_spawn _ _ _ _ ex_rewrap), call_RewrapSecrets; intros id; apply ex_nonce_ok|].
      eapply rtc_l; [apply (pool_run _ _ ex_world [] _ _ [] 0 FNone)|].
      eapply rtc_l; [apply (pool_spawn _ _ _ _ ex_edit), call_UpdateChannel; [done|apply ex_nonce_ok]|].
      etrans; [apply (pool_runs _ _ ex_edit (fun p => p) _ [] _ _); by split|].
      eapply rtc_l; [apply (pool_crash _ _ _ [])|].
      etrans; [apply (pool_runs _ _ _ (fun p => p) _ [] [] _); by split|].
      eapply rtc_l; [apply (pool_crash _ _ _ [])|]. apply rtc_refl.
    - done.
    - split; vm_compute; reflexivity. }
  pose proof (secrets_survive ex_ring (eq ex_old) eq ex_world s eq_refl) as Hth.
  destruct Hth as [Hread _]; [|intros d ? <-; split_and!; done|exact ex_alerts_ok|exact Hrun|].
  - intros w <-. split; [reflexivity|]. vm_compute. reflexivity.
  - exists s. do 2 (split; [done|]). destruct (list_channels (Some ex_ring) 7 (shared s).1) as [|c l] eqn:Hl; [done|].
    exists c. split; [left|]. destruct (Hread 7 c) as [Hb Hs]; [change (get (shared s)) with (shared s).1; rewrite Hl; left|].
    split; [|exact Hb]. injection Hid as Hc _. rewrite Hc in Hs. change (get (shared s)) with (shared s).1 in Hs. congruence.
Defined.
