(* ===== verification/Netguard.v ===== *)
(** The filter of outgoing connections: [internal/netguard/netguard.go].

    Every address a checker or a webhook is about to connect to goes through
    [control], which refuses what [IsBlockedIP] finds inside the operator's
    network.  The parsers of Go's [net] the decision rests on are executable
    definitions; an IP is its 4 or 16 bytes. *)
From stdpp Require Import base tactics list strings.
From Stdlib Require Import ZArith Lia Ascii Btauto.
From S2P Require Import Prelude.
From S2P Require Import GoString.
From S2P Require Import Secretbox.

Open Scope Z_scope.

(** ** Parsing addresses *)

Fixpoint octet_digits (acc : Z) (l : chars) : option Z :=
  match l with
  | [] => Some acc
  | x :: l =>
      if is_digit x then
        let acc := 10 * acc + (byte_of x - 48) in if 255 <? acc then None else octet_digits acc l
      else None
  end.

(** No empty field, no leading zero. *)
Definition octet (l : chars) : option Z :=
  match l with
  | [] => None
  | [x] => octet_digits 0 l
  | x :: _ => if Ascii.eqb x "0" then None else octet_digits 0 l
  end.

Definition parseIPv4 (l : chars) : option bytes :=
  match map octet (split_on "." l) with
  | [Some a; Some b; Some c; Some d] => Some [a; b; c; d]
  | _ => None
  end.

Definition hex_value (c : ascii) : option Z :=
  let b := byte_of c in
  if is_digit c then Some (b - 48)
  else if (97 <=? b) && (b <=? 102) then Some (b - 87)
  else if (65 <=? b) && (b <=? 70) then Some (b - 55)
  else None.

(** A group of hexadecimal digits: its value, how many, and the rest; more
    than four is an error. *)
Fixpoint hex_group (off : nat) (acc : Z) (l : chars) : option (Z * nat * chars) :=
  match l with
  | x :: r =>
      match hex_value x with
      | Some v => if (3 <? off)%nat then None else hex_group (S off) (Z.lor (Z.shiftl acc 4) v) r
      | None => Some (acc, off, l)
      end
  | [] => Some (acc, off, [])
  end.

(** The loop over the groups: the bytes so far, where the ellipsis was, and
    what is left of the text. *)
Fixpoint ipv6_groups (fuel : nat) (ip : bytes) (ellipsis : option nat) (l : chars) : option (bytes * option nat * chars) :=
  match fuel with
  | O => Some (ip, ellipsis, l)
  | S fuel =>
      match hex_group 0 0 l with
      | None | Some (_, O, _) => None
      | Some (_, _, "."%char :: _) =>
          if is_nil ellipsis && negb (Nat.eqb (length ip) 12) then None
          else if (16 <? length ip + 4)%nat then None
          else match parseIPv4 l with Some v4 => Some (ip ++ v4, ellipsis, []) | None => None end
      | Some (acc, _, r) =>
          let ip := ip ++ [Z.shiftr acc 8; Z.land acc 255] in
          match r with
          | [] => Some (ip, ellipsis, [])
          | ":"%char :: [] => None
          | ":"%char :: ":"%char :: r =>
              if is_nil ellipsis then
                match r with [] => Some (ip, Some (length ip), []) | _ => ipv6_groups fuel ip (Some (length ip)) r end
              else None
          | ":"%char :: r => ipv6_groups fuel ip ellipsis r
          | _ => None
          end
      end
  end.

(** At most eight groups of two bytes. *)
Definition parseIPv6 (l : chars) : option bytes :=
  let '(ellipsis, l) := match l with ":"%char :: ":"%char :: r => (Some O, r) | _ => (None, l) end in
  if bool_decide (l = []) then (if is_nil ellipsis then None else Some (repeat 0 16)) else
  match ipv6_groups 8 [] ellipsis l with
  | Some (ip, ellipsis, []) =>
      match ellipsis with
      | None => if (length ip <? 16)%nat then None else Some ip
      | Some e => if (length ip <? 16)%nat then Some (take e ip ++ repeat 0 (16 - length ip) ++ drop e ip) else None
      end
  | _ => None
  end.

(** [net.ParseIP]: sixteen bytes; an address with a zone is not accepted. *)
Definition ParseIP (s : string) : option bytes :=
  let l := String.list_ascii_of_string s in
  match head (List.filter (fun c => existsb (Ascii.eqb c) ["."; ":"; "%"]%char) l) with
  | Some "."%char => match parseIPv4 l with Some v4 => Some (repeat 0 10 ++ [255; 255] ++ v4) | None => None end
  | Some ":"%char => match index "%" l with Some _ => None | None => parseIPv6 l end
  | _ => None
  end.

(** [net.SplitHostPort]: the host. *)
Definition SplitHostPort (address : string) : option string :=
  let l := String.list_ascii_of_string address in
  match last_index ":" l with
  | None => None
  | Some i =>
      match l with
      | "["%char :: _ =>
          match index "]" l with
          | None => None
          | Some e =>
              if negb (Nat.eqb (e + 1) i) then None
              else if is_nil (index "[" (drop 1 l)) && is_nil (index "]" (drop (e + 1) l))
              then Some (text (take (e - 1) (drop 1 l))) else None
          end
      | _ =>
          let host := take i l in
          if is_nil (index ":" host) && is_nil (index "[" l) && is_nil (index "]" l) then Some (text host) else None
      end
  end.

Example parse_addresses :
  ParseIP "192.168.0.1" = Some (repeat 0 10 ++ [255; 255; 192; 168; 0; 1]) /\
  ParseIP "64:ff9b::10.0.0.1" = Some ([0; 100; 255; 155] ++ repeat 0 8 ++ [10; 0; 0; 1]) /\
  ParseIP "::1" = Some (repeat 0 15 ++ [1]) /\ ParseIP "fe80::1%eth0" = None /\ ParseIP "010.0.0.1" = None /\
  ParseIP "1::2::3" = None /\ SplitHostPort "[::1]:443" = Some "::1" /\ SplitHostPort "10.0.0.1:80" = Some "10.0.0.1" /\
  SplitHostPort "::1:80" = None.
Proof. vm_compute. done. Qed.

(** ** Classification *)

Definition To4 (ip : bytes) : option bytes :=
  if Nat.eqb (length ip) 4 then Some ip
  else if Nat.eqb (length ip) 16 && bool_decide (take 12 ip = repeat 0 10 ++ [255; 255]) then Some (drop 12 ip)
  else None.

Definition To16 (ip : bytes) : option bytes :=
  if Nat.eqb (length ip) 4 then Some (repeat 0 10 ++ [255; 255] ++ ip)
  else if Nat.eqb (length ip) 16 then Some ip else None.

Definition IPv4 (a b c d : Z) : bytes := repeat 0 10 ++ [255; 255] ++ [a; b; c; d].

Definition at_byte (ip : bytes) (n : nat) : Z := List.nth n ip 0.

Definition IPv6loopback : bytes := repeat 0 15 ++ [1].

(** [Equal] takes an IPv4 address and its IPv6 form for the same. *)
Definition Equal (a b : bytes) : bool := bool_decide (To16 a = To16 b) && bool_decide (is_Some (To16 a)).

Definition IsUnspecified (ip : bytes) : bool := Equal ip [0; 0; 0; 0] || Equal ip (repeat 0 16).

Definition IsLoopback (ip : bytes) : bool :=
  match To4 ip with Some v4 => at_byte v4 0 =? 127 | None => Equal ip IPv6loopback end.

Definition IsPrivate (ip : bytes) : bool :=
  match To4 ip with
  | Some v4 =>
      (at_byte v4 0 =? 10) || ((at_byte v4 0 =? 172) && (Z.land (at_byte v4 1) 240 =? 16)) ||
      ((at_byte v4 0 =? 192) && (at_byte v4 1 =? 168))
  | None => Nat.eqb (length ip) 16 && (Z.land (at_byte ip 0) 254 =? 252)
  end.

Definition IsLinkLocalUnicast (ip : bytes) : bool :=
  match To4 ip with
  | Some v4 => (at_byte v4 0 =? 169) && (at_byte v4 1 =? 254)
  | None => Nat.eqb (length ip) 16 && (at_byte ip 0 =? 254) && (Z.land (at_byte ip 1) 192 =? 128)
  end.

Definition IsLinkLocalMulticast (ip : bytes) : bool :=
  match To4 ip with
  | Some v4 => (at_byte v4 0 =? 224) && (at_byte v4 1 =? 0) && (at_byte v4 2 =? 0)
  | None => Nat.eqb (length ip) 16 && (at_byte ip 0 =? 255) && (Z.land (at_byte ip 1) 15 =? 2)
  end.

Definition IsMulticast (ip : bytes) : bool :=
  match To4 ip with
  | Some v4 => Z.land (at_byte v4 0) 240 =? 224
  | None => Nat.eqb (length ip) 16 && (at_byte ip 0 =? 255)
  end.

(** [CIDRMask(ones, bits)] as bytes, and [IPNet.Contains]. *)
Record IPNet := mkIPNet { net_IP : bytes; net_ones : nat }.

Definition CIDRMask (ones n : nat) : bytes :=
  map (fun i => Z.land (Z.shiftl 255 (8 - Z.of_nat (Nat.min 8 (ones - 8 * i)))) 255) (seq 0 n).

Definition Contains (n : IPNet) (ip : bytes) : bool :=
  let nn := default (net_IP n) (To4 (net_IP n)) in
  let ip := default ip (To4 ip) in
  Nat.eqb (length ip) (length nn) &&
  bool_decide (zip_with Z.land nn (CIDRMask (net_ones n) (length nn)) = zip_with Z.land ip (CIDRMask (net_ones n) (length nn))).

Definition cgnatRange : IPNet := mkIPNet (IPv4 100 64 0 0) 10.
Definition nat64Range : IPNet := mkIPNet ([0; 100; 255; 155] ++ repeat 0 12) 96.
Definition sixToFourRange : IPNet := mkIPNet ([32; 2] ++ repeat 0 14) 16.
Definition ipv4CompatRange : IPNet := mkIPNet (repeat 0 16) 96.

(** ** The filter *)

(** The last line of [IsBlockedIP]. *)
Definition inside (ip : bytes) : bool :=
  IsLoopback ip || IsPrivate ip || IsLinkLocalUnicast ip || IsLinkLocalMulticast ip || IsUnspecified ip ||
  IsMulticast ip || Contains cgnatRange ip.

(** [None] is the nil address.  The recursion is on an IPv4 address, so that
    two calls are enough. *)
Fixpoint is_blocked (fuel : nat) (ip : option bytes) : bool :=
  match fuel, ip with
  | O, _ => true
  | S _, None => true
  | S fuel, Some ip =>
      let ip := default ip (To4 ip) in
      match To4 ip, To16 ip with
      | None, Some ip16 =>
          let v4 i := Some (IPv4 (at_byte ip16 i) (at_byte ip16 (i + 1)) (at_byte ip16 (i + 2)) (at_byte ip16 (i + 3))) in
          if Contains nat64Range ip16 then is_blocked fuel (v4 12%nat)
          else if Contains sixToFourRange ip16 then is_blocked fuel (v4 2%nat)
          else if Contains ipv4CompatRange ip16 && negb (IsUnspecified ip) && negb (IsLoopback ip) then is_blocked fuel (v4 12%nat)
          else inside ip
      | _, _ => inside ip
      end
  end.

Definition IsBlockedIP (ip : option bytes) : bool := is_blocked 2 ip.

(** Called with the address about to be connected to, after resolution. *)
Definition control (address : string) : bool :=
  let host := default address (SplitHostPort address) in
  negb (IsBlockedIP (ParseIP host)).

(** ** The reference: address ranges *)

(** Addresses as numbers of 32 or 128 bits. *)
Inductive address := V4 (n : Z) | V6 (n : Z).

Definition num (l : bytes) : Z := foldl (fun acc b => 256 * acc + b) 0 l.

Definition denotes (ip : bytes) : address :=
  let n := num ip in
  if Nat.eqb (length ip) 4 then V4 n
  else if Z.shiftr n 32 =? 0xffff then V4 (n mod 2 ^ 32) else V6 n.

(** [n] is in [base/plen]. *)
Definition in_cidr (w n : Z) (c : Z * Z) : bool := Z.shiftr n (w - c.2) =? Z.shiftr c.1 (w - c.2).

Definition quad (a b c d : Z) : Z := num [a; b; c; d].

Definition forbidden4 : list (Z * Z) :=
  [(quad 127 0 0 0, 8); (quad 10 0 0 0, 8); (quad 172 16 0 0, 12); (quad 192 168 0 0, 16); (quad 169 254 0 0, 16);
   (quad 0 0 0 0, 32); (quad 224 0 0 0, 4); (quad 100 64 0 0, 10)].

Definition forbidden6 : list (Z * Z) :=
  [(1, 128); (Z.shiftl 0xfc00 112, 7); (Z.shiftl 0xfe80 112, 10); (0, 128); (Z.shiftl 0xff00 112, 8)].

(** The IPv4 address a transition mechanism would deliver to: NAT64, 6to4 and
    IPv4-compatible addresses. *)
Definition embedded (n : Z) : option Z :=
  if Z.shiftr n 32 =? Z.shiftl 0x64ff9b 64 then Some (n mod 2 ^ 32)
  else if Z.shiftr n 112 =? 0x2002 then Some (Z.shiftr n 80 mod 2 ^ 32)
  else if (Z.shiftr n 32 =? 0) && (1 <? n) then Some (n mod 2 ^ 32)
  else None.

Definition forbidden (a : address) : bool :=
  match a with
  | V4 n => existsb (in_cidr 32 n) forbidden4
  | V6 n => match embedded n with
            | Some v4 => existsb (in_cidr 32 v4) forbidden4
            | None => existsb (in_cidr 128 n) forbidden6
            end
  end.

Definition ip_ok (ip : bytes) : Prop := (length ip = 4%nat \/ length ip = 16%nat) /\ Forall is_byte ip.

(** ** Bytes and numbers *)

Lemma num_from acc l : foldl (fun acc b => 256 * acc + b) acc l = acc * 256 ^ Z.of_nat (length l) + num l.
Proof.
  unfold num. revert acc. induction l as [|b l IH]; intros acc; [simpl; lia|]. cbn [foldl length]. rewrite IH, (IH (256 * 0 + b)).
  rewrite Nat2Z.inj_succ, Z.pow_succ_r by lia. lia.
Qed.

Lemma num_app l1 l2 : num (l1 ++ l2) = num l1 * 256 ^ Z.of_nat (length l2) + num l2.
Proof. unfold num at 1. rewrite foldl_app. apply num_from. Qed.

Lemma num_range l : Forall is_byte l -> 0 <= num l < 256 ^ Z.of_nat (length l).
Proof.
  induction l as [|b l IH] using rev_ind; intros Hl; [done|]. apply Forall_app in Hl as [Hl [Hb _]%Forall_cons].
  rewrite num_app, length_app, Nat2Z.inj_add, Z.pow_add_r by lia. specialize (IH Hl). unfold is_byte in Hb. cbn. lia.
Qed.

Lemma num_inj l l' : length l = length l' -> Forall is_byte l -> Forall is_byte l' -> num l = num l' -> l = l'.
Proof.
  revert l'. induction l as [|b l IH] using rev_ind; intros l' Hlen Hl Hl' Hn; [by destruct l'|].
  destruct l' as [|b' l' _] using rev_ind; [rewrite length_app in Hlen; simpl in Hlen; lia|].
  rewrite !length_app in Hlen. simpl in Hlen. apply Forall_app in Hl as [Hl [Hb _]%Forall_cons], Hl' as [Hl' [Hb' _]%Forall_cons].
  rewrite !num_app in Hn. unfold is_byte in *. cbn in Hn. rewrite (IH l') by (done || lia). f_equal. f_equal. lia.
Qed.

(** Cutting a number at a byte, and within one. *)
Lemma num_high l1 l2 k : Forall is_byte l2 -> 0 <= k ->
  Z.shiftr (num (l1 ++ l2)) (8 * Z.of_nat (length l2) + k) = Z.shiftr (num l1) k.
Proof.
  intros Hl Hk. rewrite <- Z.shiftr_shiftr, num_app by lia. f_equal. rewrite Z.shiftr_div_pow2 by lia.
  pose proof (num_range l2 Hl). change 256 with (2 ^ 8) in *. rewrite <- Z.pow_mul_r in * by lia.
  rewrite Z.div_add_l by lia. rewrite Z.div_small by lia. lia.
Qed.

Lemma num_low l1 l2 : Forall is_byte l2 -> num (l1 ++ l2) mod 256 ^ Z.of_nat (length l2) = num l2.
Proof.
  intros Hl. rewrite num_app. pose proof (num_range l2 Hl). rewrite Z.add_comm, Z.mod_add by lia. by apply Z.mod_small.
Qed.

Lemma by_bytes (P : Z -> bool) : forallb P (map Z.of_nat (seq 0 256)) = true -> forall b, is_byte b -> P b = true.
Proof.
  intros Hall b Hb. rewrite List.forallb_forall in Hall. apply Hall. apply List.in_map_iff. exists (Z.to_nat b).
  unfold is_byte in Hb. split; [lia|]. apply List.in_seq. lia.
Qed.

(** The bit masks of [net], on a byte. *)
Lemma mask_bits b : is_byte b ->
  Z.land b 240 = 16 * (b / 16) /\ Z.land b 254 = 2 * (b / 2) /\ Z.land b 192 = 64 * (b / 64) /\ Z.land b 255 = b /\ Z.land b 0 = 0.
Proof.
  intros Hb. split_and!; [| | | |apply Z.land_0_r]; apply Z.eqb_eq; revert b Hb; apply by_bytes; by vm_compute.
Qed.

(** ** The filter is the reference *)

Lemma shiftr_eqb n c k : 0 <= k -> (Z.shiftr n k =? c) = (c * 2 ^ k <=? n) && (n <? (c + 1) * 2 ^ k).
Proof.
  intros Hk. rewrite Z.shiftr_div_pow2 by done. assert (0 < 2 ^ k) by (by apply Z.pow_pos_nonneg).
  apply eq_iff_eq_true. rewrite andb_true_iff, Z.eqb_eq, Z.leb_le, Z.ltb_lt. split; [intros <-|]; Z.to_euclidean_division_equations; nia.
Qed.

Ltac closed_arith :=
  repeat match goal with
  | |- context [Z.shiftr ?x ?k] => let v := eval vm_compute in (Z.shiftr x k) in lazymatch v with Z0 => idtac | Zpos _ => idtac end; change (Z.shiftr x k) with v
  | |- context [2 ^ ?k] => let v := eval vm_compute in (2 ^ k) in lazymatch v with Zpos _ => idtac end; change (2 ^ k) with v
  end.

Lemma same_bool (x y : bool) : (x = true <-> y = true) -> x = y.
Proof. destruct x, y; naive_solver. Qed.

Ltac interval :=
  rewrite ?andb_true_iff, ?Z.eqb_eq, ?Z.leb_le, ?Z.ltb_lt; repeat match goal with n := _ |- _ => subst n end;
  Z.to_euclidean_division_equations; lia.

Lemma To4_four a b c d : To4 [a; b; c; d] = Some [a; b; c; d].
Proof. done. Qed.

Lemma inside_four a b c d : is_byte a -> is_byte b -> is_byte c -> is_byte d ->
  inside [a; b; c; d] = existsb (in_cidr 32 (num [a; b; c; d])) forbidden4.
Proof.
  intros Ha Hb Hc Hd. destruct (mask_bits a Ha) as (Ha240 & _), (mask_bits b Hb) as (Hb240 & _ & Hb192 & Hb255 & Hb0).
  assert (IsUnspecified [a; b; c; d] = (a =? 0) && (b =? 0) && (c =? 0) && (d =? 0)) as Hun.
  { unfold IsUnspecified, Equal. cbn [To16 Nat.eqb length]. rewrite !bool_decide_eq_true_2 with (P := is_Some (Some _)) by done.
    rewrite (bool_decide_eq_false_2 (Some _ = Some (repeat 0 16))) by done. rewrite orb_false_r, andb_true_r.
    apply eq_iff_eq_true. rewrite bool_decide_eq_true, !andb_true_iff, !Z.eqb_eq. simpl. split; [by intros [=]|by intros [[[-> ->] ->] ->]]. }
  assert (Contains cgnatRange [a; b; c; d] = (a =? 100) && (b / 64 =? 1)) as Hcg.
  { unfold Contains. rewrite To4_four. change (default (net_IP cgnatRange) (To4 (net_IP cgnatRange))) with [100; 64; 0; 0].
    change (CIDRMask (net_ones cgnatRange) (length [100; 64; 0; 0])) with [255; 192; 0; 0]. cbn [default from_option id length Nat.eqb andb zip_with].
    change (Z.land 100 255) with 100. change (Z.land 64 192) with 64. rewrite Hb192, !Z.land_0_r. destruct (mask_bits a Ha) as (_ & _ & _ & -> & _).
    apply eq_iff_eq_true. rewrite bool_decide_eq_true, andb_true_iff, !Z.eqb_eq. split; [intros [=]; lia|intros [-> ->]; done]. }
  unfold inside, IsLoopback, IsPrivate, IsLinkLocalUnicast, IsLinkLocalMulticast, IsMulticast.
  rewrite Hun, Hcg, To4_four. unfold at_byte. cbn [List.nth]. rewrite Ha240, Hb240.
  unfold forbidden4, in_cidr, quad. cbn [existsb fst snd]. rewrite !shiftr_eqb by lia. unfold is_byte in *. unfold num. cbn [foldl]. closed_arith.
  set (n := 256 * (256 * (256 * (256 * 0 + a) + b) + c) + d).
  rewrite (same_bool (a =? 127) ((127 * 16777216 <=? n) && (n <? (127 + 1) * 16777216))) by interval.
  rewrite (same_bool (a =? 10) ((10 * 16777216 <=? n) && (n <? (10 + 1) * 16777216))) by interval.
  rewrite (same_bool ((a =? 172) && (16 * (b / 16) =? 16)) ((2753 * 1048576 <=? n) && (n <? (2753 + 1) * 1048576))) by interval.
  rewrite (same_bool ((a =? 192) && (b =? 168)) ((49320 * 65536 <=? n) && (n <? (49320 + 1) * 65536))) by interval.
  rewrite (same_bool ((a =? 169) && (b =? 254)) ((43518 * 65536 <=? n) && (n <? (43518 + 1) * 65536))) by interval.
  rewrite (same_bool ((a =? 0) && (b =? 0) && (c =? 0) && (d =? 0)) ((0 * 1 <=? n) && (n <? (0 + 1) * 1))) by interval.
  rewrite (same_bool ((a =? 100) && (b / 64 =? 1)) ((401 * 4194304 <=? n) && (n <? (401 + 1) * 4194304))) by interval.
  assert ((a =? 224) && (b =? 0) && (c =? 0) = true -> (16 * (a / 16) =? 224) = true) as Hll by interval.
  rewrite (same_bool (16 * (a / 16) =? 224) ((14 * 268435456 <=? n) && (n <? (14 + 1) * 268435456))) in * by interval.
  revert Hll. generalize ((a =? 224) && (b =? 0) && (c =? 0)).
  repeat match goal with |- context [(?x <=? n) && ?y] => generalize ((x <=? n) && y) end. intros.
  match goal with H : ?l = true -> ?x = true |- _ => destruct l; [rewrite (H eq_refl)|] end; rewrite ?orb_false_r, ?orb_true_r; btauto.
Qed.

Lemma repeat_0_bytes n : Forall is_byte (repeat 0 n).
Proof. apply Forall_forall. intros x ->%list_elem_of_In%List.repeat_spec. done. Qed.

Lemma Contains_prefix p k ones ip : Forall is_byte p -> (length p + k = 16)%nat -> To4 (p ++ repeat 0 k) = None ->
  CIDRMask ones 16 = repeat 255 (length p) ++ repeat 0 k -> length ip = 16%nat -> To4 ip = None -> Forall is_byte ip ->
  Contains (mkIPNet (p ++ repeat 0 k) ones) ip = bool_decide (take (length p) ip = p).
Proof.
  intros Hp Hk Hn Hm Hlen Hip Hb. unfold Contains. cbn [net_IP net_ones]. rewrite Hn, Hip. cbn [default from_option id].
  assert (length (p ++ repeat 0 k) = 16%nat) as -> by (rewrite length_app, List.repeat_length; lia).
  rewrite Hlen, Hm. cbn [Nat.eqb andb].
  assert (forall (l q : bytes) (m : nat), Forall is_byte l -> length l = (length q + m)%nat ->
    zip_with Z.land l (repeat 255 (length q) ++ repeat 0 m) = take (length q) l ++ repeat 0 m) as Hz.
  { clear. intros l q. revert l. induction q as [|y q IH]; intros l m Hl Hlen; cbn [length repeat app take] in *.
    - revert m Hlen. induction Hl as [|x l Hx Hl IHl]; intros [|m]; cbn; try (intros; lia || done). intros Hlen.
      rewrite Z.land_0_r. f_equal. apply IHl. lia.
    - destruct Hl as [|x l Hx Hl]; [done|]. cbn. f_equal; [by apply mask_bits|]. apply IH; [done|simpl in Hlen; lia]. }
  rewrite (Hz (p ++ repeat 0 k) p k); [|by apply Forall_app; split; [|apply repeat_0_bytes]|by rewrite length_app, List.repeat_length].
  rewrite (Hz ip p k) by (done || lia).
  apply bool_decide_ext. rewrite take_app_length. split; [by intros Heq%app_inv_tail|by intros ->].
Qed.

Section sixteen.
Context (ip : bytes) (Hlen : length ip = 16%nat) (Hb : Forall is_byte ip).

Lemma split_high n : (n <= 16)%nat -> Z.shiftr (num ip) (8 * Z.of_nat (16 - n)) = num (take n ip).
Proof.
  intros Hn. rewrite <- (take_drop n ip) at 1. replace (16 - n)%nat with (length (drop n ip)) by (rewrite length_drop; lia).
  rewrite <- (Z.add_0_r (8 * _)), num_high by (done || by apply Forall_drop). apply Z.shiftr_0_r.
Qed.

Lemma split_low n : (n <= 16)%nat -> num ip mod 256 ^ Z.of_nat (16 - n) = num (drop n ip).
Proof.
  intros Hn. rewrite <- (take_drop n ip) at 1. replace (16 - n)%nat with (length (drop n ip)) by (rewrite length_drop; lia).
  apply num_low. by apply Forall_drop.
Qed.

Lemma high_is n (p : bytes) : length p = n -> (n <= 16)%nat -> Forall is_byte p -> (num (take n ip) =? num p) = bool_decide (take n ip = p).
Proof.
  intros Hp Hn Hpb. apply same_bool. rewrite Z.eqb_eq, bool_decide_eq_true. split; [|by intros ->].
  apply num_inj; [rewrite length_take; lia|by apply Forall_take|done].
Qed.

Lemma To4_sixteen : To4 ip = if num (take 12 ip) =? 0xffff then Some (drop 12 ip) else None.
Proof.
  unfold To4. rewrite Hlen. cbn [Nat.eqb andb]. change 0xffff with (num (repeat 0 10 ++ [255; 255])).
  rewrite high_is; [done|done|lia|repeat constructor; done].
Qed.

Lemma denotes_sixteen : denotes ip = match To4 ip with Some v4 => V4 (num v4) | None => V6 (num ip) end.
Proof.
  unfold denotes. rewrite Hlen. cbn [Nat.eqb]. change 32 with (8 * Z.of_nat (16 - 12)) at 1. rewrite split_high, To4_sixteen by lia.
  destruct (num (take 12 ip) =? 0xffff); [|done]. change (2 ^ 32) with (256 ^ Z.of_nat (16 - 12)). by rewrite split_low by lia.
Qed.

Lemma whole_is (p : bytes) : length p = 16%nat -> Forall is_byte p -> bool_decide (ip = p) = (num ip =? num p).
Proof.
  intros Hp Hpb. apply same_bool. rewrite Z.eqb_eq, bool_decide_eq_true. split; [by intros ->|]. apply num_inj; [lia|done|done].
Qed.

Context (Hv6 : To4 ip = None).

Lemma Unspecified_sixteen : IsUnspecified ip = (num ip =? 0).
Proof.
  unfold IsUnspecified, Equal. assert (To16 ip = Some ip) as -> by (unfold To16; by rewrite Hlen).
  rewrite !(bool_decide_eq_true_2 (is_Some _)), !andb_true_r by done. cbn [To16 length Nat.eqb].
  rewrite (bool_decide_eq_false_2 (Some ip = Some (repeat 0 10 ++ _))).
  - cbn [orb]. trans (bool_decide (ip = repeat 0 16)); [apply bool_decide_ext; split; [intros [= Heq]; exact Heq|by intros ->]|]. rewrite whole_is; [done|done|apply repeat_0_bytes].
  - intros Hip. apply (inj Some) in Hip. rewrite Hip in Hv6. by vm_compute in Hv6.
Qed.

Lemma Loopback_sixteen : IsLoopback ip = (num ip =? 1).
Proof.
  unfold IsLoopback. rewrite Hv6. unfold Equal. assert (To16 ip = Some ip) as -> by (unfold To16; by rewrite Hlen).
  rewrite (bool_decide_eq_true_2 (is_Some _)), andb_true_r by done. change (To16 IPv6loopback) with (Some IPv6loopback).
  trans (bool_decide (ip = IPv6loopback)); [apply bool_decide_ext; split; [intros [= Heq]; exact Heq|by intros ->]|]. rewrite whole_is; [done|done|repeat constructor; done].
Qed.
End sixteen.

Lemma first_two (x0 x1 : Z) (l : bytes) : is_byte x0 -> is_byte x1 -> Forall is_byte l -> length l = 14%nat ->
  let n := num (x0 :: x1 :: l) in
  (Z.shiftr n 121 =? 126) = (Z.land x0 254 =? 252) /\
  (Z.shiftr n 118 =? 1018) = (x0 =? 254) && (Z.land x1 192 =? 128) /\
  (Z.shiftr n 120 =? 255) = (x0 =? 255).
Proof.
  intros H0 H1 Hl Hlen n. destruct (mask_bits x0 H0) as (_ & -> & _), (mask_bits x1 H1) as (_ & _ & -> & _).
  assert (Z.shiftr n 120 = x0) as E120.
  { change (x0 :: x1 :: l) with ([x0] ++ x1 :: l) in n. unfold n. change 120 with (8 * 15 + 0). replace 15 with (Z.of_nat (length (x1 :: l))) by (simpl; lia).
    rewrite num_high by (done || by constructor). rewrite Z.shiftr_0_r. unfold num. cbn [foldl]. lia. }
  assert (Z.shiftr n 112 = 256 * x0 + x1) as E112.
  { change (x0 :: x1 :: l) with ([x0; x1] ++ l) in n. unfold n. change 112 with (8 * 14 + 0). replace 14 with (Z.of_nat (length l)) by lia.
    rewrite num_high by done. rewrite Z.shiftr_0_r. unfold num. cbn [foldl]. lia. }
  assert (Z.shiftr n 121 = x0 / 2) as -> by (change 121 with (120 + 1); rewrite <- Z.shiftr_shiftr, E120, Z.shiftr_div_pow2 by lia; done).
  assert (Z.shiftr n 118 = (256 * x0 + x1) / 64) as -> by (change 118 with (112 + 6); rewrite <- Z.shiftr_shiftr, E112, Z.shiftr_div_pow2 by lia; done).
  rewrite E120. unfold is_byte in *. split_and!; [| |done]; apply same_bool; rewrite ?andb_true_iff, ?Z.eqb_eq; Z.to_euclidean_division_equations; lia.
Qed.

Lemma inside_sixteen ip : length ip = 16%nat -> Forall is_byte ip -> To4 ip = None ->
  inside ip = existsb (in_cidr 128 (num ip)) forbidden6.
Proof.
  intros Hlen Hb Hv6. destruct ip as [|x0 [|x1 l]]; [done|done|].
  pose proof Hb as [H0 [H1 Hl]%Forall_cons]%Forall_cons. destruct (first_two x0 x1 l H0 H1 Hl) as (E121 & E118 & E120); [simpl in Hlen; lia|].
  unfold inside. rewrite Loopback_sixteen, Unspecified_sixteen by done.
  unfold IsPrivate, IsLinkLocalUnicast, IsLinkLocalMulticast, IsMulticast. rewrite Hv6, Hlen.
  assert (Contains cgnatRange (x0 :: x1 :: l) = false) as ->.
  { unfold Contains. rewrite Hv6. cbn [default from_option id]. by rewrite Hlen. }
  unfold at_byte. cbn [List.nth Nat.eqb andb]. rewrite <- E121, <- E118, <- E120.
  unfold forbidden6, in_cidr. cbn [existsb fst snd].
  change (128 - 128) with 0. rewrite !Z.shiftr_0_r.
  change (Z.shiftr (Z.shiftl 64512 112) (128 - 7)) with 126. change (Z.shiftr (Z.shiftl 65152 112) (128 - 10)) with 1018.
  change (Z.shiftr (Z.shiftl 65280 112) (128 - 8)) with 255. change (128 - 7) with 121. change (128 - 10) with 118. change (128 - 8) with 120.
  generalize (Z.shiftr (num (x0 :: x1 :: l)) 120 =? 255). intros ff. destruct ff; rewrite ?orb_true_r, ?orb_false_r; [by rewrite ?orb_true_r|btauto].
Qed.

Lemma To4_length ip v4 : To4 ip = Some v4 -> length v4 = 4%nat /\ (Forall is_byte ip -> Forall is_byte v4).
Proof.
  unfold To4. destruct (Nat.eqb (length ip) 4) eqn:H4; [intros [= <-]; by apply Nat.eqb_eq in H4|].
  destruct (Nat.eqb (length ip) 16) eqn:H16; [|done]. apply Nat.eqb_eq in H16. case_bool_decide; [|done]. intros [= <-].
  split; [rewrite length_drop; lia|by apply Forall_drop].
Qed.

Lemma inside_v4 v4 : length v4 = 4%nat -> Forall is_byte v4 -> inside v4 = existsb (in_cidr 32 (num v4)) forbidden4.
Proof.
  intros Hlen Hb. destruct v4 as [|a [|b [|c [|d [|]]]]]; try done.
  apply Forall_cons in Hb as [? [? [? [? _]%Forall_cons]%Forall_cons]%Forall_cons]. by apply inside_four.
Qed.

Lemma is_blocked_v4 fuel v4 : length v4 = 4%nat -> Forall is_byte v4 ->
  is_blocked (S fuel) (Some (repeat 0 10 ++ [255; 255] ++ v4)) = existsb (in_cidr 32 (num v4)) forbidden4.
Proof.
  intros Hlen Hb. cbn [is_blocked].
  assert (To4 (repeat 0 10 ++ [255; 255] ++ v4) = Some v4) as ->.
  { unfold To4. rewrite !length_app, List.repeat_length, Hlen. cbn [Nat.add length Nat.eqb andb].
    by rewrite (app_assoc _ [255; 255]), take_app_length', drop_app_length', bool_decide_eq_true_2. }
  cbn [default from_option id]. assert (To4 v4 = Some v4) as -> by (unfold To4; by rewrite Hlen). by apply inside_v4.
Qed.

(** Four bytes in the middle. *)
Lemma bytes_at ip n : (n + 4 <= length ip)%nat -> [at_byte ip n; at_byte ip (n + 1); at_byte ip (n + 2); at_byte ip (n + 3)] = take 4 (drop n ip).
Proof.
  unfold at_byte. intros Hn. replace (n + 1)%nat with (S n) by lia. replace (n + 2)%nat with (S (S n)) by lia. replace (n + 3)%nat with (S (S (S n))) by lia.
  revert ip Hn. induction n as [|n IH]; intros ip Hn; (destruct ip as [|a ip]; [simpl in Hn; lia|]); [|simpl in Hn; by apply IH; lia].
  destruct ip as [|b [|c [|d ip]]]; simpl in Hn; try lia. done.
Qed.

Lemma Contains_num p k ones ip : Forall is_byte p -> (length p + k = 16)%nat -> To4 (p ++ repeat 0 k) = None ->
  CIDRMask ones 16 = repeat 255 (length p) ++ repeat 0 k -> length ip = 16%nat -> To4 ip = None -> Forall is_byte ip ->
  Contains (mkIPNet (p ++ repeat 0 k) ones) ip = (Z.shiftr (num ip) (8 * Z.of_nat k) =? num p).
Proof.
  intros Hp Hk Hn Hm Hlen Hip Hb. rewrite Contains_prefix by done. replace k with (16 - length p)%nat by lia.
  rewrite (split_high ip Hlen Hb) by lia. symmetry. apply (high_is ip Hlen Hb); [done|lia|done].
Qed.

Lemma is_blocked_spec fuel ip : ip_ok ip -> is_blocked (S (S fuel)) (Some ip) = forbidden (denotes ip).
Proof.
  intros [Hlen Hb]. remember (S fuel) as rec eqn:Hrec. cbn [is_blocked]. subst rec. destruct (To4 ip) as [v4|] eqn:Hv4; cbn [default from_option id].
  - destruct (To4_length _ _ Hv4) as [Hl4 Hb4]. assert (To4 v4 = Some v4) as -> by (unfold To4; by rewrite Hl4).
    rewrite inside_v4 by auto. destruct Hlen as [Hlen|Hlen]; [|by rewrite denotes_sixteen, Hv4].
    unfold To4 in Hv4. rewrite Hlen in Hv4. injection Hv4 as <-. unfold denotes. by rewrite Hlen.
  - destruct Hlen as [Hlen|Hlen]; [unfold To4 in Hv4; by rewrite Hlen in Hv4|]. rewrite Hv4. assert (To16 ip = Some ip) as -> by (unfold To16; by rewrite Hlen).
    rewrite denotes_sixteen, Hv4 by done. cbn [forbidden]. unfold embedded.
    assert (Contains nat64Range ip = (Z.shiftr (num ip) 32 =? Z.shiftl 0x64ff9b 64)) as ->.
    { apply (Contains_num ([0; 100; 255; 155] ++ repeat 0 8) 4); try done. by repeat constructor. }
    assert (Contains sixToFourRange ip = (Z.shiftr (num ip) 112 =? 0x2002)) as ->.
    { apply (Contains_num [32; 2] 14); try done. by repeat constructor. }
    assert (Contains ipv4CompatRange ip = (Z.shiftr (num ip) 32 =? 0)) as ->.
    { apply (Contains_num (repeat 0 12) 4); try done. apply repeat_0_bytes. }
    rewrite (Unspecified_sixteen ip Hlen Hb Hv4), (Loopback_sixteen ip Hlen Hb Hv4).
    assert (num ip mod 2 ^ 32 = num (drop 12 ip)) as -> by (change (2 ^ 32) with (256 ^ Z.of_nat (16 - 12)); by rewrite (split_low ip Hlen Hb) by lia).
    unfold IPv4. rewrite !bytes_at by lia.
    assert (length (take 4 (drop 12 ip)) = 4%nat /\ Forall is_byte (take 4 (drop 12 ip)) /\ length (take 4 (drop 2 ip)) = 4%nat /\ Forall is_byte (take 4 (drop 2 ip))) as (? & ? & ? & ?).
    { rewrite !length_take, !length_drop. split_and!; try lia; apply Forall_take, Forall_drop; done. }
    destruct (Z.shiftr (num ip) 32 =? Z.shiftl 0x64ff9b 64); [rewrite is_blocked_v4 by done; by rewrite (take_ge (drop 12 ip)) by (rewrite length_drop; lia)|].
    destruct (Z.shiftr (num ip) 112 =? 0x2002).
    { rewrite is_blocked_v4 by done. do 2 f_equal.
      change 80 with (8 * Z.of_nat (16 - 6)). rewrite (split_high ip Hlen Hb) by lia. rewrite <- (take_drop 2 (take 6 ip)).
      replace (take 4 (drop 2 ip)) with (drop 2 (take 6 ip)) by (by rewrite take_drop_commute).
      assert (length (drop 2 (take 6 ip)) = 4%nat) as H4 by (rewrite length_drop, length_take; lia).
      pose proof (num_low (take 2 (take 6 ip)) (drop 2 (take 6 ip)) (Forall_drop _ _ _ (Forall_take _ _ _ Hb))) as Hlow.
      rewrite H4 in Hlow. symmetry. exact Hlow. }
    pose proof (num_range ip Hb) as Hn. assert (negb (num ip =? 0) && negb (num ip =? 1) = (1 <? num ip)) as Hz by (apply same_bool; rewrite andb_true_iff, !negb_true_iff, !Z.eqb_neq, Z.ltb_lt; lia).
    rewrite <- andb_assoc, Hz. destruct ((Z.shiftr (num ip) 32 =? 0) && (1 <? num ip)); [|by apply inside_sixteen].
    rewrite is_blocked_v4 by done. by rewrite (take_ge (drop 12 ip)) by (rewrite length_drop; lia).
Qed.

(** ** What the parsers return *)

Lemma octet_digits_byte acc l v : 0 <= acc < 256 -> octet_digits acc l = Some v -> is_byte v.
Proof.
  revert acc. induction l as [|x l IH]; intros acc Hacc; cbn [octet_digits]; [by intros [= <-]|].
  destruct (is_digit x) eqn:Hx; [|done]. unfold is_digit in Hx. destruct (255 <? _) eqn:Hlt; [done|]. apply IH. lia.
Qed.

Lemma octet_byte l v : octet l = Some v -> is_byte v.
Proof.
  unfold octet. destruct l as [|x [|y l]]; [done|by apply octet_digits_byte|]. destruct (Ascii.eqb x "0"); [done|by apply octet_digits_byte].
Qed.

Lemma parseIPv4_ok l v4 : parseIPv4 l = Some v4 -> length v4 = 4%nat /\ Forall is_byte v4.
Proof.
  unfold parseIPv4. destruct (split_on "." l) as [|a [|b [|c [|d [|]]]]]; simpl; try (repeat case_match; done).
  destruct (octet a) eqn:Ha, (octet b) eqn:Hb, (octet c) eqn:Hc, (octet d) eqn:Hd; try done. intros [= <-].
  split; [done|]. repeat constructor; by eapply octet_byte.
Qed.

Lemma hex_value_range c v : hex_value c = Some v -> 0 <= v < 16.
Proof.
  unfold hex_value, is_digit. intros Hv. repeat case_match; simplify_eq; rewrite ?andb_true_iff in *; lia.
Qed.

Lemma hex_group_range off acc l v n r : 0 <= acc < 16 ^ Z.of_nat off -> (off <= 4)%nat -> hex_group off acc l = Some (v, n, r) -> 0 <= v < 65536.
Proof.
  assert (forall off acc, 0 <= acc < 16 ^ Z.of_nat off -> (off <= 4)%nat -> 0 <= acc < 65536) as Hsmall.
  { clear. intros off acc Ha Hoff. change 65536 with (16 ^ 4). assert (16 ^ Z.of_nat off <= 16 ^ 4) by (apply Z.pow_le_mono_r; lia). lia. }
  revert off acc. induction l as [|x l IH]; intros off acc Ha Hoff; cbn [hex_group]; [intros [= <- _ _]; by eapply Hsmall|].
  destruct (hex_value x) as [h|] eqn:Hh; [|intros [= <- _ _]; by eapply Hsmall]. apply hex_value_range in Hh.
  destruct (Nat.ltb_spec 3 off); [done|]. apply IH; [|lia]. rewrite Z.shiftl_mul_pow2 by lia. change (2 ^ 4) with 16.
  rewrite (lor_add 4); [|lia|by apply Z.mod_mul|done]. rewrite Nat2Z.inj_succ, Z.pow_succ_r by lia. lia.
Qed.

Definition groups_ok (ip : bytes) (ellipsis : option nat) : Prop :=
  (length ip <= 16)%nat /\ Forall is_byte ip /\ match ellipsis with Some e => (e <= length ip)%nat | None => True end.

Lemma group_pushed ip e v : 0 <= v < 65536 -> (length ip + 2 <= 16)%nat -> groups_ok ip e -> groups_ok (ip ++ [Z.shiftr v 8; Z.land v 255]) e.
Proof.
  intros Hv Hl (_ & Hb & He). split_and!; [rewrite length_app; simpl; lia| |destruct e; [rewrite length_app; lia|done]].
  apply Forall_app. split; [done|]. rewrite land_255, Z.shiftr_div_pow2 by lia. unfold is_byte. change (2 ^ 8) with 256.
  repeat constructor; Z.to_euclidean_division_equations; lia.
Qed.

Lemma ipv6_groups_ok fuel ip e l ip' e' r : (length ip + 2 * fuel <= 16)%nat -> groups_ok ip e ->
  ipv6_groups fuel ip e l = Some (ip', e', r) -> groups_ok ip' e'.
Proof.
  revert ip e l. induction fuel as [|fuel IH]; intros ip e l Hl Hip; cbn [ipv6_groups]; [by intros [= <- <- _]|].
  destruct (hex_group 0 0 l) as [[[v [|n]] r0]|] eqn:Hg; [done| |done].
  apply hex_group_range in Hg; [|done|lia]. assert (groups_ok (ip ++ [Z.shiftr v 8; Z.land v 255]) e) as Hpush by (apply group_pushed; [done|lia|done]).
  set (ip1 := ip ++ _) in *. assert (length ip1 + 2 * fuel <= 16)%nat as Hl1 by (unfold ip1; rewrite length_app; simpl; lia). clearbody ip1.
  assert (groups_ok ip1 (Some (length ip1))) as Hell by (destruct Hpush as (? & ? & _); split_and!; auto).
  assert (forall v4, parseIPv4 l = Some v4 -> (16 <? length ip + 4)%nat = false -> groups_ok (ip ++ v4) e) as Hv4.
  { intros v4 (H4 & Hb4)%parseIPv4_ok Hroom%Nat.ltb_ge. destruct Hip as (_ & Hb & He). split_and!.
    - rewrite length_app. lia.
    - by apply Forall_app.
    - destruct e; [rewrite length_app; lia|done]. }
  clear Hip. repeat case_match; intros Heq; simplify_eq; eauto.
Qed.

Lemma parseIPv6_ok l ip : parseIPv6 l = Some ip -> length ip = 16%nat /\ Forall is_byte ip.
Proof.
  unfold parseIPv6. destruct (match l with ":"%char :: ":"%char :: r => (Some O, r) | _ => (None, l) end) as [e l0] eqn:Hl.
  assert (groups_ok [] e) as H0.
  { split_and!; [simpl; lia|done|]. repeat case_match; simplify_eq; simpl; done || lia. }
  case_bool_decide; [destruct (is_nil e); [done|]; intros [= <-]; split; [done|apply (repeat_0_bytes 16)]|].
  destruct (ipv6_groups 8 [] e l0) as [[[ip' e'] [|]]|] eqn:Hg; [|done..].
  apply ipv6_groups_ok in Hg as (Hlen & Hb & He); [|simpl; lia|done].
  destruct e' as [e'|]; [|destruct (Nat.ltb_spec (length ip') 16); [done|]; intros [= <-]; split; [lia|done]].
  destruct (Nat.ltb_spec (length ip') 16); [|done]. intros [= <-]. split.
  - rewrite !length_app, List.repeat_length, length_take, length_drop. lia.
  - apply Forall_app. split; [by apply Forall_take|]. apply Forall_app. split; [apply repeat_0_bytes|by apply Forall_drop].
Qed.

Lemma ParseIP_ok s ip : ParseIP s = Some ip -> ip_ok ip.
Proof.
  unfold ParseIP. set (l := String.list_ascii_of_string s). set (c := head _). clearbody l c. intros Hp. unfold ip_ok. repeat case_match; simplify_eq.
  - destruct (parseIPv4_ok _ _ ltac:(eassumption)) as [H4 Hb]. split; [right; rewrite !length_app, List.repeat_length, H4; done|].
    apply Forall_app. split; [apply repeat_0_bytes|]. apply Forall_app. split; [by repeat constructor|done].
  - apply parseIPv6_ok in Hp as [? ?]. auto.
Qed.

(** C29: the filter is exactly the reference: an address is blocked when the
    range it belongs to is private, local or special, as it stands, as the IPv4
    address it is a form of, or as the IPv4 address NAT64, 6to4 or an
    IPv4-compatible prefix would deliver it to; a deeper recursion would change
    nothing.  A connection the dialer lets through goes to a parsed address
    outside all of them. *)
Theorem IsBlockedIP_reference (ip : bytes) (fuel : nat) :
  ip_ok ip ->
  is_blocked (2 + fuel) (Some ip) = forbidden (denotes ip) /\ IsBlockedIP (Some ip) = forbidden (denotes ip) /\
  forall addr, control addr = true ->
    exists target, ParseIP (default addr (SplitHostPort addr)) = Some target /\ ip_ok target /\ forbidden (denotes target) = false.
Proof.
  intros Hip. split_and!; [by apply is_blocked_spec|by apply is_blocked_spec|]. intros addr. unfold control.
  destruct (ParseIP _) as [target|] eqn:Hp; [|done]. pose proof (ParseIP_ok _ _ Hp) as Hok. unfold IsBlockedIP. rewrite is_blocked_spec by done.
  intros Hb. exists target. split_and!; [done|done|by apply negb_true_iff].
Qed.

(** The metadata service behind a NAT64 gateway. *)
Lemma IsBlockedIP_reference_witness :
  let ip := [0; 100; 255; 155] ++ repeat 0 8 ++ [169; 254; 169; 254] in
  ParseIP "64:ff9b::a9fe:a9fe" = Some ip /\ IsBlockedIP (Some ip) = true /\
  (control "[64:ff9b::a9fe:a9fe]:80" = false /\ control "93.184.216.34:443" = true).
Proof.
  intros ip. split; [vm_compute; reflexivity|]. split; [|split; vm_compute; reflexivity].
  destruct (IsBlockedIP_reference ip 0) as (_ & -> & _).
  - split; [by right|]. repeat constructor; done.
  - vm_compute. reflexivity.
Defined.
