(* ===== verification/AlertBudget.v ===== *)
(** The notification budget of a project: [internal/alert] budget.go, digest.go
    and evaluator.go.

    [OnIssue] turns an event into notifications unless the rule is throttled
    ([claimThrottle]) or the project has used up its budget ([claimBudget]);
    what the budget refuses is counted and reported later by the digest
    ([Digester_Tick]).  The clock is the database's.  [refused], [reported]
    and [elsewhere] record what happened to the refused notifications. *)
From stdpp Require Import base tactics list gmap strings sorting pretty.
From Stdlib Require Import ZArith Lia.
From coqutil Require Import Datatypes.RecordSetters.
From S2P Require Import Prelude.
From S2P Require Import Prog.
From S2P Require Import Rely.
From S2P Require Import Environment.
From S2P Require Import Secretbox.
From S2P Require Import Notify.
From S2P Require Import Escalation.
From S2P Require Import Dispatch.
From S2P Require Import Alert.

Import RecordSetters.TriangleBracketNotations.
Open Scope Z_scope.
Open Scope go_scope.

(** ** The budget *)

Definition defaultAlertBudgetWindow : Z := hour.
Definition defaultAlertBudgetLimit : Z := 50.

Record BudgetDecision := mkDecision { Allowed : bool; Suppressed : Z }.

(** The budget settings of the service. *)
Record Settings := mkSettings { budgetWindow : Z; budgetLimit : Z; budgetSet : bool }.

Definition SetBudget (window limit : Z) (s : Settings) : Settings :=
  mkSettings (if 0 <? window then window else budgetWindow s) limit true.

Definition budgetParams (s : Settings) : Z * Z :=
  if negb (budgetSet s) then (defaultAlertBudgetWindow, defaultAlertBudgetLimit)
  else (if budgetWindow s <=? 0 then defaultAlertBudgetWindow else budgetWindow s, budgetLimit s).

(** [window_start <= now() - make_interval(secs => $2)] *)
Definition window_over (now secs : Z) (b : Budget) : bool := window_start b <=? now - secs * second.

(** The row after the statement of [claimBudget]. *)
Definition charge_budget (now secs limit : Z) (row : option Budget) : Budget :=
  match row with
  | None => mkBudget now 1 0 true None
  | Some b =>
      let over := window_over now secs b in
      mkBudget (if over then now else window_start b)
        (if over then 1 else if sent b <? limit then sent b + 1 else sent b)
        (if over then suppressed b else if sent b <? limit then suppressed b else suppressed b + 1)
        (over || (sent b <? limit)) (digest_at b)
  end.

Definition claim_budget (secs limit projectID : Z) (t : AlertTables) : BudgetDecision * AlertTables :=
  let b := charge_budget (alert_now t) secs limit (budgets t !! projectID) in
  let t := t <| budgets := <[projectID := b]> (budgets t) |> in
  (mkDecision (allowed b) (suppressed b), if allowed b then t else t <| refused := refused t + 1 |>).

Definition refund_budget (secs projectID : Z) (t : AlertTables) : AlertTables :=
  match budgets t !! projectID with
  | Some b =>
      if (alert_now t - secs * second <? window_start b) && (0 <? sent b)
      then t <| budgets := <[projectID := mkBudget (window_start b) (sent b - 1) (suppressed b) (allowed b) (digest_at b)]> (budgets t) |>
      else t
  | None => t
  end.

Record SuppressedBatch := mkBatch { sb_ProjectID : Z; sb_Suppressed : Z; Since : Z }.

Definition by_project (a b : Z * Budget) : Prop := a.1 <= b.1.
#[export] Instance by_project_dec a b : Decision (by_project a b).
Proof. unfold by_project. apply _. Defined.

(** The rows [FOR UPDATE SKIP LOCKED] takes; [skips] are those other
    transactions hold. *)
Definition closed_rows (secs : Z) (limit : nat) (skips : Z -> bool) (t : AlertTables) : list (Z * Budget) :=
  take limit (List.filter (fun '(p, b) => (0 <? suppressed b) && window_over (alert_now t) secs b && negb (skips p))
    (merge_sort by_project (map_to_list (budgets t)))).

Definition clear_row (now : Z) (b : Budget) : Budget := mkBudget (window_start b) (sent b) 0 (allowed b) (Some now).

Definition claim_suppressed (secs : Z) (limit : nat) (skips : Z -> bool) (t : AlertTables) : list SuppressedBatch * AlertTables :=
  let rows := closed_rows secs limit skips t in
  (map (fun '(p, b) => mkBatch p (suppressed b) (window_start b)) rows,
   t <| budgets := foldl (fun m p => alter (clear_row (alert_now t)) p m) (budgets t) (map fst rows) |>).

Definition restore_row (projectID count : Z) (t : AlertTables) : AlertTables :=
  t <| budgets := alter (fun b => mkBudget (window_start b) (sent b) (suppressed b + count) (allowed b) (digest_at b)) projectID (budgets t) |>.

Section budget.
Context {D : Type} `{Has AlertTables D} (cfg : Settings).

Definition claimBudget (projectID : Z) : prog D (result alert_error BudgetDecision) :=
  let '(window, limit) := budgetParams cfg in
  if limit <=? 0 then mret (Ok (mkDecision true 0)) else
  tryE: d ← call ErrAlertSQL (on (claim_budget (window / second) limit projectID)) catch e => mret (Err e);
  mret (Ok (if Allowed d then mkDecision true 0 else d)).

Definition refundBudget (projectID : Z) : prog D (result alert_error ()) :=
  let '(window, limit) := budgetParams cfg in
  if limit <=? 0 then mret (Ok tt) else
  call ErrAlertSQL (on (fun t => (tt, refund_budget (window / second) projectID t))).

Definition ClaimSuppressed (limit : nat) (skips : Z -> bool) : prog D (result alert_error (list SuppressedBatch)) :=
  let '(window, _) := budgetParams cfg in
  call ErrAlertSQL (on (claim_suppressed (window / second) limit skips)).

(** A project deleted meanwhile has no row, and nothing to restore. *)
Definition RestoreSuppressed (projectID count : Z) : prog D (result alert_error ()) :=
  if count <=? 0 then mret (Ok tt) else
  call ErrAlertSQL (on (fun t => (tt, restore_row projectID count t))).
End budget.

(** ** The digest *)

Definition digestBatch : nat := 50.

Section digest.
Context `{Catalogue} `{Box} {D : Type} `{Has AlertTables D}.
Context (cfg : Settings) (ring : option Keyring).

(** A [Digester]: [BaseURL], [EmailEnabled], the policy on details, and
    [humanize.Time]. *)
Record Digester := mkDigester {
  dg_Outbox : Enqueuer D; dg_BaseURL : string; dg_EmailEnabled : bool; dg_AllowsDetails : Channel -> bool; humanTime : Z -> string }.

Definition digest_payload (d : Digester) (b : SuppressedBatch) (ch : Channel) : payload :=
  let url := dg_BaseURL d +:+ "/projects/" +:+ pretty (sb_ProjectID b) +:+ "/issues" in
  let count := pretty (sb_Suppressed b) in
  let subject := Tf "notify.digest.subject" [("count", count)] in
  let body := Tf "notify.digest.body" [("count", count); ("since", humanTime d (Since b)); ("url", url)] in
  let p := list_to_map [("kind", VStr "suppressed_digest"); ("project_id", VInt (sb_ProjectID b)); ("count", VInt (sb_Suppressed b));
    ("url", VStr url); ("subject", VStr subject); ("body", VStr body); ("channel_kind", VStr (c_Kind ch)); ("target", VStr (c_Target ch))] in
  if dg_AllowsDetails d ch then p else RedactExternalPayload p.

(** The [continue]s of the loops over channels. *)
Definition worth_sending (emailEnabled : bool) (ch : Channel) : bool :=
  Channel_Deliverable ch && negb (String.eqb (c_Kind ch) ChannelEmail && negb emailEnabled).

Definition digest_key (b : SuppressedBatch) (ch : Channel) : string :=
  "alert:digest:" +:+ pretty (c_ID ch) +:+ ":" +:+ pretty (Since b / second).

(** Whether every channel worth sending to took the digest. *)
Fixpoint digest_loop (d : Digester) (b : SuppressedBatch) (chs : list Channel) : prog D bool :=
  match chs with
  | [] => mret true
  | ch :: chs =>
      if negb (worth_sending (dg_EmailEnabled d) ch) then digest_loop d b chs else
      r ← enq_idempotent (dg_Outbox d) (c_ID ch) (digest_payload d b ch) (digest_key b ch);
      rest ← digest_loop d b chs;
      mret (match r with Ok _ => rest | Err _ => false end)
  end.

Definition send (d : Digester) (b : SuppressedBatch) : prog D bool :=
  tryE: chs ← Channels ring (sb_ProjectID b) catch e => mret false;
  digest_loop d b chs.

(** What becomes of a batch. *)
Definition note_reported (n : Z) (t : AlertTables) : AlertTables := t <| reported := reported t + n |>.
Definition lose (n : Z) (t : AlertTables) : AlertTables := t <| lostSuppressed := lostSuppressed t + n |>.

Definition restore_or_lose (b : SuppressedBatch) : prog D () :=
  tryE: _x ← RestoreSuppressed (sb_ProjectID b) (sb_Suppressed b)
    catch e => pmodify (fun d => put (lose (sb_Suppressed b) (get d)) d);
  mret tt.

Fixpoint restoreSkipped (skipped : list SuppressedBatch) : prog D () :=
  match skipped with
  | [] => mret tt
  | b :: skipped => _ ← restore_or_lose b; restoreSkipped skipped
  end.

(** The loop of [Tick]; [late i]: the budget of the tick is found exhausted
    before batch [i]. *)
Fixpoint digest_batches (d : Digester) (late : nat -> bool) (i : nat) (batches : list SuppressedBatch) : prog D () :=
  match batches with
  | [] => mret tt
  | b :: rest =>
      if late i then restoreSkipped (b :: rest) else
      sent ← send d b;
      _ ← (if sent : bool then pmodify (fun s => put (note_reported (sb_Suppressed b) (get s)) s) else restore_or_lose b);
      digest_batches d late (S i) rest
  end.

Definition Digester_Tick (d : Digester) (late : nat -> bool) (skips : Z -> bool) : prog D () :=
  tryE: batches ← ClaimSuppressed cfg digestBatch skips catch e => mret tt;
  digest_batches d late 0 batches.
End digest.
Arguments Digester D : clear implicits.

(** ** Events *)

Record Event := mkEvent {
  ev_ProjectID : Z; ev_IssueID : Z; ev_Kind : string;
  Title : string; Culprit : string; Level : string; TimesSeen : Z }.

(** [INSERT ... ON CONFLICT (issue_id, rule_id) DO UPDATE ... WHERE last_sent_at
    <= now() - make_interval(mins => $3)]: whether a row came back. *)
Definition claim_throttle (issueID ruleID mins : Z) (t : AlertTables) : bool * AlertTables :=
  let stamped := t <| throttle := <[(issueID, ruleID) := alert_now t]> (throttle t) |> in
  match throttle t !! (issueID, ruleID) with
  | None => (true, stamped)
  | Some last => if last <=? alert_now t - mins * minute then (true, stamped) else (false, t)
  end.

Definition release_throttle (issueID ruleID : Z) (t : AlertTables) : AlertTables :=
  t <| throttle := delete (issueID, ruleID) (throttle t) |>.

Section evaluator.
Context `{Catalogue} `{Box} {D : Type} `{Has AlertTables D}.
Context (cfg : Settings) (ring : option Keyring).

Record Evaluator := mkEvaluator {
  ev_Outbox : Enqueuer D; ev_BaseURL : string; ev_EmailEnabled : bool; ev_AllowsDetails : Channel -> bool;
  Maint : option (Z -> prog D (result alert_error bool));
  ev_Projects : option (Z -> prog D (result esc_error string)) }.

Definition issueAlertKindLabel (kind : string) : string :=
  if String.eqb kind "new_issue" || String.eqb kind "regression" || String.eqb kind "spike"
  then i18n_T ("notify.issue.kind." +:+ kind) else kind.

Definition ruleByKind (projectID : Z) (kind : string) : prog D (result alert_error (option Rule)) :=
  ask ErrAlertSQL (fun d => match find_rule projectID kind (get d) with Some (_, r) => Some r | None => None end).

Definition claimThrottle (issueID ruleID mins : Z) : prog D (result alert_error bool) :=
  call ErrAlertSQL (on (claim_throttle issueID ruleID mins)).

Definition releaseThrottle (issueID ruleID : Z) : prog D (result alert_error ()) :=
  call ErrAlertSQL (on (fun t => (tt, release_throttle issueID ruleID t))).

Definition dispatch_channel (e : Evaluator) (ch : Channel) : DispatchChannel :=
  mkChannel (c_ID ch) (c_Kind ch) (c_Target ch) (String.eqb (c_Kind ch) ChannelEmail) (Channel_Deliverable ch) (ev_AllowsDetails e ch).

Definition issue_input (e : Evaluator) (ev : Event) (chs : list Channel) : DispatchInput :=
  let url := ev_BaseURL e +:+ "/issues/" +:+ pretty (ev_IssueID ev) in
  mkInput (ev_ProjectID ev) (ev_Kind ev)
    (Tf "notify.issue.subject" [("kind", issueAlertKindLabel (ev_Kind ev)); ("title", Title ev)])
    (Tf "notify.issue.body" [("title", Title ev); ("culprit", Culprit ev); ("level", Level ev); ("count", pretty (TimesSeen ev)); ("url", url)])
    url ""
    (list_to_map [("issue_id", VInt (ev_IssueID ev)); ("title", VStr (Title ev)); ("culprit", VStr (Culprit ev));
      ("level", VStr (Level ev)); ("times_seen", VInt (TimesSeen ev))])
    [] (map (dispatch_channel e) chs) "".

(** A window of maintenance silences the event; a failed check does not. *)
Definition in_maintenance (e : Evaluator) (projectID : Z) : prog D bool :=
  match Maint e with
  | None => mret false
  | Some check => tryE: m ← check projectID catch err => mret false; mret m
  end.

(** Notify, and give throttle and budget back when no channel took it. *)
Definition notify_issue (e : Evaluator) (ev : Event) (rule : Rule) (chs : list Channel) : prog D () :=
  r ← Dispatch (mkDeps D (ev_Outbox e) (ev_EmailEnabled e) (ev_Projects e)) (issue_input e ev chs);
  match r.1 with
  | [] =>
      _ ← releaseThrottle (ev_IssueID ev) (r_ID rule);
      _ ← refundBudget cfg (ev_ProjectID ev);
      mret tt
  | _ => mret tt
  end.

Definition OnIssue (e : Evaluator) (ev : Event) : prog D () :=
  tryE: found ← ruleByKind (ev_ProjectID ev) (ev_Kind ev) catch err => mret tt;
  match found with
  | None => mret tt
  | Some rule =>
      if negb (r_Enabled rule) then mret tt else
      silent ← in_maintenance e (ev_ProjectID ev);
      if silent : bool then mret tt else
      tryE: chs ← Channels ring (ev_ProjectID ev) catch err => mret tt;
      if Nat.eqb (length (List.filter (worth_sending (ev_EmailEnabled e)) chs)) 0 then mret tt else
      tryE: claimed ← claimThrottle (ev_IssueID ev) (r_ID rule) (ThrottleMinutes rule) catch err => mret tt;
      if negb claimed then mret tt else
      tryE: budget ← claimBudget cfg (ev_ProjectID ev) catch err => mret tt;
      if negb (Allowed budget) then mret tt else
      notify_issue e ev rule chs
  end.
End evaluator.
Arguments Evaluator D : clear implicits.

(** ** Every refused notification is accounted for *)

(** What this process holds of the refused notifications: claimed, and neither
    reported, nor restored, nor counted lost. *)
Definition in_flight (t : AlertTables) : Z :=
  refused t - map_sum suppressed (budgets t) - reported t - lostSuppressed t - elsewhere t.

Definition rows_kept (ps : list Z) (t : AlertTables) : Prop := forall p, p ∈ ps -> is_Some (budgets t !! p).

(** What the rest of the service may do meanwhile: refuse, restore, claim for
    other digests, change rules and channels -- but not delete projects. *)
Definition others_act (t t' : AlertTables) : Prop :=
  in_flight t' = in_flight t /\ forall p, is_Some (budgets t !! p) -> is_Some (budgets t' !! p).

Lemma claim_budget_acts secs limit p t : others_act t (claim_budget secs limit p t).2.
Proof.
  unfold claim_budget. set (b := charge_budget _ _ _ _).
  assert (map_sum suppressed (<[p := b]> (budgets t)) = map_sum suppressed (budgets t) + if allowed b then 0 else 1) as Hs.
  { subst b. destruct (budgets t !! p) as [b0|] eqn:Hb.
    - rewrite (map_sum_update suppressed p b0) by done. simpl. destruct (window_over _ _ b0), (sent b0 <? limit); simpl; lia.
    - rewrite map_sum_insert by done. simpl. lia. }
  clearbody b. unfold others_act, in_flight. destruct t as [ru nr ch nc th bu now me rf rp lo el].
  split; [|intros q Hq]; destruct (allowed b); cbn in *; unfold constant in *; rewrite ?Hs; try lia;
    (destruct (decide (q = p)) as [->|]; [by rewrite lookup_insert_eq|by rewrite lookup_insert_ne]).
Qed.

Lemma refund_budget_acts secs p t : others_act t (refund_budget secs p t).
Proof.
  unfold refund_budget. destruct (budgets t !! p) as [b|] eqn:Hb; [|by split].
  destruct ((_ <? _) && _); [|by split]. unfold others_act, in_flight. destruct t as [ru nr ch nc th bu now me rf rp lo el]. cbn in *. unfold constant in *. split.
  - rewrite (map_sum_update suppressed p b) by done. simpl. lia.
  - intros q Hq. destruct (decide (q = p)) as [->|]; [by rewrite lookup_insert_eq|by rewrite lookup_insert_ne].
Qed.

(** The counts of a list of batches. *)
Definition total (bs : list SuppressedBatch) : Z := foldr (fun b n => sb_Suppressed b + n) 0 bs.

Lemma map_sum_alter (g : Budget -> Budget) p (m : gmap Z Budget) b : m !! p = Some b ->
  map_sum suppressed (alter g p m) = map_sum suppressed m - suppressed b + suppressed (g b).
Proof.
  intros Hb. assert (alter g p m = <[p := g b]> m) as ->; [|by rewrite (map_sum_update suppressed p b)].
  apply map_eq. intros q. destruct (decide (q = p)) as [->|]; [by rewrite lookup_alter_eq, Hb, lookup_insert_eq|by rewrite lookup_alter_ne, lookup_insert_ne].
Qed.

Lemma alter_kept (g : Budget -> Budget) p (m : gmap Z Budget) q : is_Some (m !! q) -> is_Some (alter g p m !! q).
Proof. intros [b Hb]. destruct (decide (q = p)) as [->|]; [rewrite lookup_alter_eq, Hb|rewrite lookup_alter_ne, Hb by done]; eauto. Qed.

Lemma closed_rows_spec secs limit skips t :
  NoDup (map fst (closed_rows secs limit skips t)) /\ forall p b, (p, b) ∈ closed_rows secs limit skips t -> budgets t !! p = Some b.
Proof.
  assert (Permutation (merge_sort by_project (map_to_list (budgets t))) (map_to_list (budgets t))) as Hp by apply merge_sort_Permutation.
  unfold closed_rows. set (l := List.filter _ _). assert (NoDup (map fst l)) as Hl.
  { apply NoDup_filter_fst. rewrite Hp. apply NoDup_fst_map_to_list. }
  split.
  - clearbody l. rewrite <- (take_drop limit l), List.map_app in Hl. by apply NoDup_app in Hl as [Hl _].
  - intros p b (i & Hin & _)%elem_of_take. apply list_elem_of_lookup_2 in Hin. subst l. apply list_elem_of_In, List.filter_In in Hin as [Hin _]. apply list_elem_of_In in Hin. rewrite Hp in Hin. by apply elem_of_map_to_list.
Qed.

Lemma claim_suppressed_spec secs limit skips t :
  let bs := (claim_suppressed secs limit skips t).1 in let t' := (claim_suppressed secs limit skips t).2 in
  in_flight t' = in_flight t + total bs /\ (forall p, is_Some (budgets t !! p) -> is_Some (budgets t' !! p)) /\
  rows_kept (map sb_ProjectID bs) t /\ Forall (fun b => 0 < sb_Suppressed b) bs.
Proof.
  unfold claim_suppressed. cbn [fst snd]. destruct (closed_rows_spec secs limit skips t) as [Hnd Hin].
  assert (Forall (fun '(_, b) => 0 < suppressed b) (closed_rows secs limit skips t)) as Hpos.
  { apply Forall_forall. intros [p b] (i & Hi & _)%elem_of_take. apply list_elem_of_lookup_2, list_elem_of_In, List.filter_In in Hi as [_ Hc]. lia. }
  set (rows := closed_rows secs limit skips t) in *. clearbody rows.
  set (clr := fun (m : gmap Z Budget) (p : Z) => alter (clear_row (alert_now t)) p m).
  assert (forall m, (forall p b, (p, b) ∈ rows -> m !! p = Some b) ->
    map_sum suppressed (foldl clr m (map fst rows)) = map_sum suppressed m - total (map (fun '(p, b) => mkBatch p (suppressed b) (window_start b)) rows) /\
    forall p, is_Some (m !! p) -> is_Some (foldl clr m (map fst rows) !! p)) as Hfold.
  { clear Hin Hpos. induction rows as [|[p b] rows IH]; intros m Hm; [simpl; split; [lia|done]|].
    cbn [map foldl fst] in *. apply NoDup_cons in Hnd as [Hp Hnd]. pose proof (Hm p b ltac:(left)) as Hb.
    destruct (IH Hnd (clr m p)) as [Hs Hk].
    - intros q c Hq. unfold clr. rewrite lookup_alter_ne; [apply Hm; by right|]. intros ->. apply Hp. apply list_elem_of_In, List.in_map_iff. exists (q, c). split; [done|by apply list_elem_of_In].
    - split; [|intros q Hq; by apply Hk, alter_kept]. rewrite Hs. unfold clr. rewrite (map_sum_alter _ p m b) by done. simpl. lia. }
  destruct (Hfold (budgets t) Hin) as [Hs Hk]. split_and!.
  - unfold in_flight. destruct t as [ru nr ch nc th bu now me rf rp lo el]. cbn in *. unfold constant in *. rewrite Hs. lia.
  - destruct t as [ru nr ch nc th bu now me rf rp lo el]. cbn in *. unfold constant in *. exact Hk.
  - intros p. rewrite List.map_map. intros (row & Hrow & Hr)%list_elem_of_In%List.in_map_iff. destruct row as [q b]. simpl in Hrow. subst q.
    apply list_elem_of_In in Hr. rewrite (Hin p b Hr). eauto.
  - apply Forall_fmap. eapply Forall_impl; [exact Hpos|]. by intros [p b].
Qed.

Lemma restore_row_spec p n t : is_Some (budgets t !! p) ->
  in_flight (restore_row p n t) = in_flight t - n /\ forall q, is_Some (budgets t !! q) -> is_Some (budgets (restore_row p n t) !! q).
Proof.
  intros [b Hb]. unfold restore_row, in_flight. destruct t as [ru nr ch nc th bu now me rf rp lo el]. cbn in *. unfold constant in *. split.
  - rewrite (map_sum_alter _ p bu b) by done. simpl. lia.
  - intros q. apply alter_kept.
Qed.

Lemma lose_spec n t : in_flight (lose n t) = in_flight t - n /\ budgets (lose n t) = budgets t.
Proof. unfold lose, in_flight. destruct t. cbn. unfold constant. split; [lia|done]. Qed.

Lemma note_reported_spec n t : in_flight (note_reported n t) = in_flight t - n /\ budgets (note_reported n t) = budgets t.
Proof. unfold note_reported, in_flight. destruct t. cbn. unfold constant. split; [lia|done]. Qed.

Section accounts.
Context `{Catalogue} `{Box} {D : Type} `{Has AlertTables D}.
Context (env : D -> D -> Prop) (Henv : forall d d', env d d' -> others_act (get d) (get d')).
Context (cfg : Settings) (ring : option Keyring) (dg : Digester D).

Abbreviation told := (fun f : fault => f <> FLostReply).
Definition holds (n : Z) (ps : list Z) (d : D) : Prop := in_flight (get d) = n /\ rows_kept ps (get d).

(** The queue leaves the budget alone. *)
Context (Hout : forall ch p key n ps, ensures env told (holds n ps) (enq_idempotent (dg_Outbox dg) ch p key) (fun _ => holds n ps)).

Lemma kept_holds n ps : kept env (holds n ps).
Proof. intros d d' Hd [Hn Hp]. destruct (Henv d d' Hd) as [Hf Hk]. split; [congruence|]. intros p Hin. by apply Hk, Hp. Qed.

Lemma ens_Channels p n ps : ensures env told (holds n ps) (Channels ring p) (fun _ => holds n ps).
Proof. apply ens_call; [done|apply kept_holds|intros _; apply kept_holds|done|done]. Qed.

Lemma ens_digest_loop b chs n ps : ensures env told (holds n ps) (digest_loop dg b chs) (fun _ => holds n ps).
Proof.
  induction chs as [|ch chs IH]; [apply ens_ret; [apply kept_holds|done]|]. cbn [digest_loop]. destruct (negb _); [done|].
  eapply ens_bind; [apply Hout|]. intros r. eapply ens_bind; [apply IH|]. intros rest. apply ens_ret; [apply kept_holds|done].
Qed.

Lemma ens_send b n ps : ensures env told (holds n ps) (send ring dg b) (fun _ => holds n ps).
Proof. eapply ens_bind; [apply ens_Channels|]. intros [chs|e]; [apply ens_digest_loop|apply ens_ret; [apply kept_holds|done]]. Qed.

Lemma ens_restore_or_lose b n ps : 0 < sb_Suppressed b -> sb_ProjectID b ∈ ps ->
  ensures env told (holds (n + sb_Suppressed b) ps) (restore_or_lose b) (fun _ => holds n ps).
Proof.
  intros Hpos Hin. unfold restore_or_lose, RestoreSuppressed. destruct (Z.leb_spec (sb_Suppressed b) 0); [lia|].
  eapply (ens_bind _ _ _ _ _ (fun r => match r with Ok _ => holds n ps | Err _ => holds (n + sb_Suppressed b) ps end)).
  - apply ens_call; [done|apply kept_holds|intros []; apply kept_holds|done|]. intros d [Hn Hp]. unfold holds. rewrite get_on. cbn [snd].
    destruct (restore_row_spec (sb_ProjectID b) (sb_Suppressed b) (get d) (Hp _ Hin)) as [Hf Hk]. split; [lia|]. intros q Hq. by apply Hk, Hp.
  - intros [u|e]; [apply ens_ret; [apply kept_holds|done]|]. apply ens_pmodify; [apply kept_holds|apply kept_holds|].
    intros d [Hn Hp]. unfold holds. rewrite get_put. destruct (lose_spec (sb_Suppressed b) (get d)) as [Hf Hb]. split; [lia|].
    intros q Hq. rewrite Hb. by apply Hp.
Qed.

Lemma ens_restoreSkipped bs n ps : Forall (fun b => 0 < sb_Suppressed b /\ sb_ProjectID b ∈ ps) bs ->
  ensures env told (holds (n + total bs) ps) (restoreSkipped bs) (fun _ => holds n ps).
Proof.
  induction 1 as [|b bs [Hpos Hin] _ IH]; [apply ens_ret; [apply kept_holds|]; simpl; intros d; by rewrite Z.add_0_r|].
  cbn [restoreSkipped total foldr]. eapply ens_bind; [|intros u; apply IH].
  eapply ens_weaken; [apply (ens_restore_or_lose b (n + total bs) ps); done| |done]. intros d. by replace (n + total bs + sb_Suppressed b) with (n + (sb_Suppressed b + foldr (fun b n => sb_Suppressed b + n) 0 bs)) by (unfold total; lia).
Qed.

Lemma ens_digest_batches late i bs n ps : Forall (fun b => 0 < sb_Suppressed b /\ sb_ProjectID b ∈ ps) bs ->
  ensures env told (holds (n + total bs) ps) (digest_batches ring dg late i bs) (fun _ => holds n ps).
Proof.
  revert i. induction bs as [|b bs IH]; intros i Hbs; [apply ens_ret; [apply kept_holds|]; simpl; intros d; by rewrite Z.add_0_r|].
  cbn [digest_batches]. destruct (late i); [by apply ens_restoreSkipped|]. apply Forall_cons in Hbs as [[Hpos Hin] Hbs].
  assert (n + total (b :: bs) = (n + total bs) + sb_Suppressed b) as -> by (simpl; unfold total; lia).
  eapply ens_bind; [apply ens_send|]. intros sent. cbn beta.
  eapply (ens_bind _ _ _ _ _ (fun _ => holds (n + total bs) ps)); [|intros u; by apply IH].
  destruct sent; [|by apply ens_restore_or_lose]. apply ens_pmodify; [apply kept_holds|apply kept_holds|].
  intros d [Hn Hp]. unfold holds. rewrite get_put. destruct (note_reported_spec (sb_Suppressed b) (get d)) as [Hf Hb]. split; [lia|].
  intros q Hq. rewrite Hb. by apply Hp.
Qed.

Lemma ens_Digester_Tick late skips n : ensures env told (holds n []) (Digester_Tick cfg ring dg late skips) (fun _ => holds n []).
Proof.
  unfold Digester_Tick, ClaimSuppressed. destruct (budgetParams cfg) as [window limit].
  eapply (ens_bind _ _ _ _ _ (fun r => match r with
    | Ok bs => fun d => Forall (fun b => 0 < sb_Suppressed b) bs /\ holds (n + total bs) (map sb_ProjectID bs) d | Err _ => holds n [] end)).
  - apply ens_call; [done|apply kept_holds| |done|].
    + intros [bs|e]; [|apply kept_holds]. intros d d' Hd [Hpos Hh]. split; [done|]. by eapply kept_holds.
    + intros d [Hn _]. unfold holds. rewrite get_on, on_val.
      destruct (claim_suppressed_spec (window / second) digestBatch skips (get d)) as (Hf & Hk & Hrows & Hpos). split; [done|]. split; [lia|].
      intros p Hp. by apply Hk, Hrows.
  - intros [bs|e]; [|apply ens_ret; [apply kept_holds|done]].
    intros fs d a d' Hr Hf [Hpos Hh]. assert (holds n (map sb_ProjectID bs) d') as [Hn _]; [|by split; [|intros p ?%elem_of_nil]].
    revert Hh. eapply (ens_digest_batches late 0 bs n (map sb_ProjectID bs)); [|exact Hr|exact Hf].
    apply Forall_forall. intros b Hb. split; [by eapply Forall_forall in Hpos|]. apply list_elem_of_In, List.in_map. by apply list_elem_of_In.
Qed.
End accounts.

Lemma ens_moves {D A} (env : D -> D -> Prop) (met : fault -> Prop) (G : D -> D -> Prop) (S : D -> Prop) (p : prog D A) :
  kept env S -> moves G p -> (forall d d', G d d' -> S d -> S d') -> ensures env met S p (fun _ => S).
Proof.
  intros HS Hp HG fs d a d' Hr _. revert Hp. induction Hr as [a d d' Hd|q k f fs d d1 a d' Hd Hr IH]; intros Hp HSd.
  - exact (kept_rtc env S d d' HS Hd HSd).
  - destruct (Hp f d1) as [Hq Hk]. apply IH; [exact Hk|]. eapply HG; [exact Hq|]. exact (kept_rtc env S d d1 HS Hd HSd).
Qed.

(** A queue that leaves the tables of alerting alone. *)
Definition keeps_alerts {D} `{Has AlertTables D} (q : Enqueuer D) : Prop :=
  forall ch p key, moves (fun d d' => get (T := AlertTables) d' = get d) (enq_idempotent q ch p key).

(** The queue of [Notify]. *)
Definition the_outbox {D} `{Has OutTables D} : Enqueuer D := mkEnqueuer _ Enqueue EnqueueIdempotent.

Lemma the_outbox_keeps {D} `{Has AlertTables D} `{Has OutTables D} `{!Apart OutTables AlertTables D} : keeps_alerts (D := D) the_outbox.
Proof.
  assert (forall A E (e : E) (f : OutTables -> A * OutTables), moves (fun d d' : D => get (T := AlertTables) d' = get d) (call e (on f))) as Hcall.
  { intros A E e f. apply moves_call; [done|]. intros d. unfold on. destruct (f (get d)). apply get_put_apart. }
  intros ch p key. unfold the_outbox, enq_idempotent, EnqueueIdempotent. case_decide; [|apply Hcall].
  apply moves_bind; [apply Hcall|]. by intros [].
Qed.


Definition ex_settings : Settings := mkSettings hour 1 true.
Definition hook : Channel := mkAlertChannel 1 7 ChannelWebhook true "https://hooks.corp.example" "" false false.
Definition ex_budgets : gmap Z Budget := {[7 := mkBudget 0 1 3 false None; 8 := mkBudget (5000 * second) 1 0 true None]}.
Definition ex_tables : AlertTables := mkAlertTables ∅ 1 {[1 := hook]} 2 ∅ ex_budgets (5001 * second) ∅ 3 0 0 0.
Abbreviation ExWorld := (AlertTables * OutTables)%type.

(** Meanwhile project 8 is refused one notification. *)
Definition ex_refuse (_ : unit) (d : ExWorld) : ExWorld := ((claim_budget 3600 1 8 d.1).2, d.2).

#[local] Instance ex_catalogue : Catalogue := fun key => key.
#[local] Instance ex_boards_apart : Apart OutTables AlertTables ExWorld.
Proof. by intros t [a o]. Qed.
#[local] Existing Instance ex_box.

Definition ex_digester : Digester ExWorld := mkDigester the_outbox "https://gotcha.example" false (fun _ => false) (fun _ => "then").

(** The queue cannot be reached: the claimed count goes back. *)
Definition ex_schedule : list (fault * list unit) := [(FNone, []); (FNone, [tt]); (FLost, []); (FNone, [])].


(** A digest whose project has no channel left to send it to is gone: it is
    neither pending nor counted as lost. *)
Lemma digest_without_channels_vanishes :
  let d' := (exec0 (Digester_Tick ex_settings None ex_digester (fun _ => false) (fun _ => false))
    (mkAlertTables ∅ 1 ∅ 2 ∅ ex_budgets (5001 * second) ∅ 3 0 0 0, mkOutTables ∅ 1 0 [])).2 in
  (suppressed <$> budgets d'.1 !! 7) = Some 0 /\ lostSuppressed d'.1 = 0 /\ notification_outbox d'.2 = ∅.
Proof. vm_compute. done. Qed.

(** A refund is given to the window that is open now, even when the place was
    taken in an earlier one: a limit of one lets two through. *)
Lemma refund_crosses_windows :
  let t0 := mkAlertTables ∅ 1 ∅ 2 ∅ {[7 := mkBudget 0 1 0 true None]} (3601 * second) ∅ 0 0 0 0 in
  let '(d1, t1) := claim_budget 3600 1 7 t0 in
  let t2 := refund_budget 3600 7 t1 in
  let '(d2, t3) := claim_budget 3600 1 7 t2 in
  Allowed d1 = true /\ Allowed d2 = true /\ (window_start <$> budgets t3 !! 7) = Some (3601 * second).
Proof. vm_compute. done. Qed.
