(* ===== verification/Trace.v ===== *)
(** Transactions and spans: [internal/trace], trace.go and sample.go. *)
From stdpp Require Import base tactics list gmap strings.
From Stdlib Require Import ZArith Lia QArith.
From S2P Require Import Prelude.
From S2P Require Import GoString.
From S2P Require Import Json.
From S2P Require Import Secretbox.

Open Scope Z_scope.

(** [Measurements], values in floating point that nothing here reads, are left
    out of a [Transaction]. *)
Record Span := mkSpan {
  s_SpanID : string; ParentSpanID : string; s_Op : string; s_Description : string;
  s_Start : Z; s_End : Z; s_Status : string; Data : gmap string json }.

Record Transaction := mkTransaction {
  t_TraceID : string; t_SpanID : string; t_Name : string; t_Op : string; t_Status : string;
  t_Start : Z; t_End : Z; t_Environment : string; t_Release : string; t_ServerName : string; t_UserID : string;
  t_Tags : gmap string string; t_Spans : list Span; t_Source : string }.

Definition MaxUint32 : Z := 4294967295.

Definition durationUS (start end_ : Z) : Z :=
  let d := end_ - start in
  if d <=? 0 then 0 else let us := d / 1000 in if MaxUint32 <? us then MaxUint32 else us.

Definition Span_DurationUS (s : Span) : Z := durationUS (s_Start s) (s_End s).
Definition Transaction_DurationUS (t : Transaction) : Z := durationUS (t_Start t) (t_End t).

(** [binary.BigEndian.Uint64(sum[:8])] *)
Definition be_uint64 (sum : bytes) : Z := foldl (fun n b => 256 * n + b) 0 (take 8 sum).

Definition DescriptionHash (op description : string) : Z :=
  be_uint64 (Sum256 (to_bytes op ++ 0 :: to_bytes description)).

(** A rate is [None] for NaN.  Both sides of the comparison of the source are
    exact in binary64. *)
Definition Keep `{Unicode} (traceID : string) (rate : option Q) : bool :=
  match rate with
  | None => false
  | Some rate =>
      if Qle_bool rate 0 then false
      else if Qle_bool 1 rate then true
      else let h := be_uint64 (Sum256 (to_bytes (ToLower (TrimSpace traceID)))) in
           negb (Qle_bool rate (Z.shiftr h 11 # 9007199254740992))
  end.
