(* ===== verification/Normalize.v ===== *)
(** Normal forms of span descriptions: [internal/trace/normalize.go].

    A position in the text is the rest of it, and a function that returns the
    end of a token returns how many bytes it takes. *)
From stdpp Require Import base tactics list strings.
From Stdlib Require Import ZArith Lia Ascii.
From S2P Require Import Prelude.
From S2P Require Import GoString.

Open Scope nat_scope.

Definition maxNormalizedDescription : nat := 2000.

Definition capRunes (s : chars) (n : nat) : chars :=
  if (length s <=? n) || (RuneCount s <=? n) then s else of_runes (take n (runes s)).

(** ** Characters *)

Definition isSQLSpace (c : ascii) : bool := existsb (Z.eqb (byte_of c)) [32; 9; 10; 13; 11; 12]%Z.
Definition isDigit (c : ascii) : bool := is_digit c.
Definition isHexDigit (c : ascii) : bool := is_hex c || ((65 <=? byte_of c) && (byte_of c <=? 70))%Z.
Definition isIdentStart (c : ascii) : bool := Ascii.eqb c "_" || is_lower c || is_upper c || (128 <=? byte_of c)%Z.
Definition isIdentPart (c : ascii) : bool := isIdentStart c || isDigit c.

(** The next character satisfies [p]. *)
Definition next_is (p : ascii -> bool) (l : chars) : bool := match l with c :: _ => p c | [] => false end.

Definition isStringPrefix (word : chars) : bool :=
  match word with [c] => existsb (Ascii.eqb c) ["e"; "E"; "n"; "N"; "b"; "B"; "x"; "X"]%char | _ => false end.

(** ** String literals *)

(** Behind the opening quote: the bytes up to and with the closing one, and
    whether there is one. *)
Fixpoint skipStandardString (l : chars) : nat * bool :=
  match l with
  | [] => (0, false)
  | c :: r =>
      if negb (Ascii.eqb c "'") then (let '(n, closed) := skipStandardString r in (S n, closed))
      else match r with
           | d :: r' => if Ascii.eqb d "'" then (let '(n, closed) := skipStandardString r' in (S (S n), closed)) else (1, true)
           | [] => (1, true)
           end
  end.

Fixpoint skipBackslashString (l : chars) : nat * bool :=
  match l with
  | [] => (0, false)
  | c :: r =>
      if Ascii.eqb c "\" then match r with _ :: r' => let '(n, closed) := skipBackslashString r' in (S (S n), closed) | [] => (1, false) end
      else if Ascii.eqb c "'" then
        match r with
        | d :: r' => if Ascii.eqb d "'" then (let '(n, closed) := skipBackslashString r' in (S (S n), closed)) else (1, true)
        | [] => (1, true)
        end
      else let '(n, closed) := skipBackslashString r in (S n, closed)
  end.

(** An odd number of backslashes before the closing quote. *)
Definition closedByEscapedQuote (literal : chars) : bool :=
  Nat.odd (span (fun c => Ascii.eqb c "\") (drop 1 (rev literal))).

(** [buildQuotePrefix] counts the quotes before every position once;
    [oddQuotesFrom] compares two of the counts. *)
Fixpoint quote_prefix (n : nat) (q : chars) : list nat :=
  n :: match q with [] => [] | c :: q => quote_prefix (if Ascii.eqb c "'" then S n else n) q end.
Definition buildQuotePrefix (q : chars) : list nat := quote_prefix 0 q.
Definition oddQuotesFrom (quotePfx : list nat) (from : nat) : bool :=
  Nat.odd (List.last quotePfx 0 - List.nth from quotePfx 0).

(** The literal that begins at [i], quotes included. *)
Definition skipSQLString (quotePfx : list nat) (i : nat) (l : chars) : nat :=
  let '(n, closed) := skipStandardString (tail l) in
  if negb closed || negb (closedByEscapedQuote (take n (tail l))) then S n
  else if negb (oddQuotesFrom quotePfx (i + S n)) then S n
  else let '(m, altClosed) := skipBackslashString (tail l) in if altClosed then S m else S n.

(** Behind the opening quote of an identifier. *)
Fixpoint skip_quoted (quote : ascii) (l : chars) : nat :=
  match l with
  | [] => 0
  | c :: r =>
      if negb (Ascii.eqb c quote) then S (skip_quoted quote r)
      else match r with
           | d :: r' => if Ascii.eqb d quote then S (S (skip_quoted quote r')) else 1
           | [] => 1
           end
  end.
Definition skipQuoted (l : chars) (quote : ascii) : nat := S (skip_quoted quote (tail l)).

Definition skip_exponent (l : chars) (i : nat) : nat :=
  match drop i l with
  | c :: r =>
      if Ascii.eqb c "e" || Ascii.eqb c "E" then
        let sign := if next_is (fun c => Ascii.eqb c "+" || Ascii.eqb c "-") r then 1 else 0 in
        if next_is isDigit (drop sign r) then i + 1 + sign + span isDigit (drop sign r) else i
      else i
  | [] => i
  end.

Definition skip_radix (l : chars) (i : nat) : nat :=
  match drop i l with
  | c :: r => if existsb (Ascii.eqb c) ["x"; "X"; "b"; "B"]%char && next_is isHexDigit r then i + 1 + span isHexDigit r else i
  | [] => i
  end.

Definition skipNumber (l : chars) : nat := skip_radix l (skip_exponent l (span (fun c => isDigit c || Ascii.eqb c ".") l)).

(** ** SQL *)

(** Behind [/*]: up to and with the end of the comment. *)
Fixpoint block_comment (l : chars) : nat :=
  match l with
  | [] => 0
  | c :: r => if Ascii.eqb c "*" && next_is (Ascii.eqb "/") r then 2 else S (block_comment r)
  end.

(** One turn of the loop of [NormalizeSQL] at position [i]: what is written,
    nothing for white space and comments, and the bytes it takes. *)
Definition sql_token (quotePfx : list nat) (i : nat) (l : chars) : option chars * nat :=
  match l with
  | [] => (None, 0)
  | c :: r =>
      if isSQLSpace c then (None, 1)
      else if Ascii.eqb c "-" && next_is (Ascii.eqb "-") r then (None, span (fun c => negb (byte_of c =? 10)%Z) l)
      else if Ascii.eqb c "/" && next_is (Ascii.eqb "*") r then (None, 2 + block_comment (tail r))
      else if Ascii.eqb c "'" then (Some ["?"%char], skipSQLString quotePfx i l)
      else if (byte_of c =? 34)%Z || Ascii.eqb c "`" then (let n := skipQuoted l c in (Some (take n l), n))
      else if Ascii.eqb c "$" && next_is isDigit r then (let n := S (span isDigit r) in (Some (take n l), n))
      else if Ascii.eqb c ":" && next_is (fun d => isIdentStart d || isDigit d) r then (let n := S (span isIdentPart r) in (Some (take n l), n))
      else if isDigit c || (Ascii.eqb c "." && next_is isDigit r) then (Some ["?"%char], skipNumber l)
      else if isIdentStart c then
        (let j := S (span isIdentPart r) in
         if next_is (Ascii.eqb "'") (drop j l) && isStringPrefix (take j l)
         then (Some ["?"%char], j + skipSQLString quotePfx (i + j) (drop j l))
         else (Some (take j l), j))
      else (Some [c], 1)
  end.

(** [started]: something has been written. *)
Fixpoint sql_loop (fuel : nat) (quotePfx : list nat) (i : nat) (pendingSpace started : bool) (l : chars) : chars :=
  match fuel, l with
  | S fuel, _ :: _ =>
      match sql_token quotePfx i l with
      | (None, n) => sql_loop fuel quotePfx (i + n) true started (drop n l)
      | (Some tok, n) =>
          (if pendingSpace && started then [" "%char] else []) ++ tok ++ sql_loop fuel quotePfx (i + n) false true (drop n l)
      end
  | _, _ => []
  end.

(** [(?i)\b(in)\s*\(\s*\?(?:\s*,\s*\?)*\s*\)], from a place where a word may
    begin.  [re_spaces]: [\s*]. *)
Definition re_space (c : ascii) : bool := existsb (Z.eqb (byte_of c)) [32; 9; 10; 12; 13]%Z.
Definition re_spaces (l : chars) : nat := span re_space l.
Definition same_letter (a : ascii) (c : ascii) : bool := Ascii.eqb (lower_char c) a.

(** [(?:\s*,\s*\?)*\s*\)] *)
Fixpoint in_list_rest (fuel : nat) (l : chars) : option nat :=
  match fuel with
  | O => None
  | S fuel =>
      let n := re_spaces l in
      match drop n l with
      | c :: r =>
          if Ascii.eqb c "," then
            (let m := re_spaces r in
             if next_is (Ascii.eqb "?") (drop m r)
             then match in_list_rest fuel (drop (S m) r) with Some k => Some (n + 1 + m + 1 + k) | None => None end
             else None)
          else if Ascii.eqb c ")" then Some (n + 1) else None
      | [] => None
      end
  end.

Definition in_list (prev : option ascii) (l : chars) : option (nat * chars) :=
  match l with
  | a :: b :: r =>
      if at_word_start prev && same_letter "i" a && same_letter "n" b then
        let n := re_spaces r in
        if next_is (Ascii.eqb "(") (drop n r) then
          let r := drop (S n) r in
          let m := re_spaces r in
          if next_is (Ascii.eqb "?") (drop m r) then
            match in_list_rest (S (length r)) (drop (S m) r) with
            | Some k => Some (2 + (n + 1) + (m + 1) + k, [a; b] ++ chars_of " (?)")
            | None => None
            end
          else None
        else None
      else None
  | _ => None
  end.

Definition collapseINList (q : chars) : chars := replace_all in_list 0 None q.

Definition NormalizeSQL (q : chars) : chars :=
  collapseINList (sql_loop (length q) (buildQuotePrefix q) 0 false false q).

(** ** Cache keys *)

Definition isValueSegment (seg : chars) (lastInKey : bool) : bool :=
  if bool_decide (seg = []) then false else if lastInKey then true else existsb isDigit seg.

Definition maskKeyToken (tok : chars) : chars :=
  let segs := split_on ":" tok in
  let last := length segs - 1 in
  join [":"%char] (imap (fun i seg => if isValueSegment seg ((i =? last) && (0 <? last)) then ["?"%char] else seg) segs).

Definition NormalizeCacheKey (desc : chars) : chars :=
  match Fields desc with
  | [] => []
  | command :: args => join [" "%char] (command :: map maskKeyToken args)
  end.

(** ** URLs *)

Definition idHexSegmentLen : nat := 16.
Definition idDigitSegmentLen : nat := 8.

Definition isHexSegment (s : chars) : bool := forallb isHexDigit s.
Definition isNumericSegment (s : chars) : bool := if bool_decide (s = []) then false else forallb isDigit s.

Definition isUUIDSegment (s : chars) : bool :=
  (length s =? 36) &&
  forallb (fun '(i, c) => if existsb (Nat.eqb i) [8; 13; 18; 23] then Ascii.eqb c "-" else isHexDigit c) (zip (seq 0 36) s).

Definition isIDSegment (s : chars) : bool :=
  if bool_decide (s = []) then false
  else if isNumericSegment s || isUUIDSegment s then true
  else if (idHexSegmentLen <=? length s) && isHexSegment s then true
  else if length s <? idDigitSegmentLen then false
  else negb (existsb (fun c => Ascii.eqb c ".") s) && existsb isDigit s.

Section unicode.
Context `{Unicode}.

Definition isHTTPMethod (s : chars) : bool :=
  existsb (fun m => bool_decide (to_upper s = chars_of m))
    ["GET"; "POST"; "PUT"; "PATCH"; "DELETE"; "HEAD"; "OPTIONS"; "TRACE"; "CONNECT"].

(** The method and its space, when the text begins with one. *)
Definition cut_method (s : chars) : chars * chars :=
  match index " " s with
  | Some i => if (0 <? i) && isHTTPMethod (take i s) then (take i s ++ [" "%char], trim_space (drop (S i) s)) else ([], s)
  | None => ([], s)
  end.

(** [scheme://host] and the path. *)
Definition cut_host (s : chars) : chars * chars :=
  match index_sub (chars_of "://") s with
  | Some i =>
      match index "/" (drop (i + 3) s) with
      | Some j => (take (i + 3 + j) s, drop (i + 3 + j) s)
      | None => (s, [])
      end
  | None => ([], s)
  end.

(** Up to the query or the fragment. *)
Definition cut_query (s : chars) : chars := take (span (fun c => negb (Ascii.eqb c "?" || Ascii.eqb c "#")) s) s.

Definition NormalizeURL (u : chars) : chars :=
  let s := trim_space u in
  if bool_decide (s = []) then [] else
  let '(method, s) := cut_method s in
  let '(host, s) := cut_host (cut_query s) in
  let s := if bool_decide (s = []) then s
           else join ["/"%char] (map (fun seg => if isIDSegment seg then chars_of "{id}" else seg) (split_on "/" s)) in
  method ++ host ++ s.

(** ** Descriptions *)

Definition has_prefix (p : string) (l : chars) : bool := negb (is_nil (strip (chars_of p) l)).

Definition isSQLOp (lop : chars) : bool :=
  bool_decide (lop = chars_of "db") || has_prefix "db.sql" lop || has_prefix "db.query" lop.

Definition NormalizeDescription (op description : string) : string :=
  let lop := to_lower (trim_space (chars_of op)) in
  let description := chars_of description in
  let out := if isSQLOp lop then NormalizeSQL description
             else if has_prefix "db" lop then NormalizeCacheKey description
             else if has_prefix "http" lop then NormalizeURL description
             else trim_space description in
  text (capRunes out maxNormalizedDescription).
End unicode.

(** Unicode of ASCII alone. *)
Definition ascii_only : Unicode := {| rune_lower := fun r => r; rune_upper := fun r => r; letter_or_number := fun _ => false |}.


(** ** No literal survives *)

(** No quote, and no digit outside an identifier or a placeholder: every digit
    follows a character of a name, a [$] or a [:]. *)
Definition carries_digit (prev : option ascii) : bool :=
  match prev with Some p => isIdentPart p || Ascii.eqb p "$" || Ascii.eqb p ":" | None => false end.

Fixpoint no_literal (prev : option ascii) (l : chars) : bool :=
  match l with
  | [] => true
  | c :: r => negb (Ascii.eqb c "'") && (negb (isDigit c) || carries_digit prev) && no_literal (Some c) r
  end.

(** No quoted identifiers. *)
Definition unquoted (l : chars) : bool := forallb (fun c => negb ((byte_of c =? 34)%Z || Ascii.eqb c "`")) l.

Lemma skipSQLString_pos pfx i l : 0 < skipSQLString pfx i l.
Proof.
  unfold skipSQLString. destruct (skipStandardString _) as [n cl], (skipBackslashString _) as [m alt].
  destruct (_ || _); [lia|]. destruct (negb _); [lia|]. destruct alt; lia.
Qed.

Lemma skipNumber_pos c r : isDigit c || (Ascii.eqb c "." && next_is isDigit r) = true -> 0 < skipNumber (c :: r).
Proof.
  intros Hc. unfold skipNumber.
  assert (forall l i, i <= skip_exponent l i /\ i <= skip_radix l i) as Hle.
  { intros l i. unfold skip_exponent, skip_radix. destruct (drop i l); [done|]. cbv zeta. split; repeat case_match; lia. }
  eapply Nat.lt_le_trans; [|apply Hle]. eapply Nat.lt_le_trans; [|apply Hle]. cbn [span].
  destruct (isDigit c); [simpl; lia|]. apply andb_true_iff in Hc as [-> _]. simpl. lia.
Qed.

Lemma digit_not_quote c : isDigit c = true -> Ascii.eqb c "'" = false.
Proof. intros H. apply Ascii.eqb_neq. intros ->. discriminate H. Qed.

Lemma ident_not_quote c : isIdentPart c = true -> Ascii.eqb c "'" = false.
Proof. intros H. apply Ascii.eqb_neq. intros ->. discriminate H. Qed.

Lemma ident_start_not_digit c : isIdentStart c = true -> isDigit c = false.
Proof.
  unfold isIdentStart, isDigit, is_digit, is_lower, is_upper. intros H. apply not_true_is_false. intros [Hd He]%andb_true_iff.
  rewrite !orb_true_iff, !andb_true_iff in H. rewrite ?Z.leb_le in *. destruct H as [[[->%Ascii.eqb_eq|H]|H]|H]; [|lia..].
  vm_compute in He. done.
Qed.

(** Characters of a name behind one that carries a digit. *)
Lemma no_literal_name prev l : carries_digit prev = true -> no_literal prev (take (span isIdentPart l) l) = true.
Proof.
  revert prev. induction l as [|c l IH]; intros prev Hp; [done|]. cbn [span]. destruct (isIdentPart c) eqn:Hc; [|done].
  cbn [take no_literal]. rewrite (ident_not_quote _ Hc), Hp, IH by (simpl; by rewrite Hc). by rewrite orb_true_r.
Qed.

Lemma no_literal_digits prev l : carries_digit prev = true -> no_literal prev (take (span isDigit l) l) = true.
Proof.
  revert prev. induction l as [|c l IH]; intros prev Hp; [done|]. cbn [span]. destruct (isDigit c) eqn:Hc; [|done].
  cbn [take no_literal]. rewrite (digit_not_quote _ Hc), Hp, IH; [by rewrite orb_true_r|].
  simpl. unfold isIdentPart. by rewrite Hc, orb_true_r.
Qed.

Lemma no_literal_app prev a b :
  no_literal prev (a ++ b) = no_literal prev a && no_literal (match List.rev a with c :: _ => Some c | [] => prev end) b.
Proof.
  revert prev. induction a as [|c a IH]; intros prev; [done|]. cbn [app no_literal]. rewrite IH. cbn [rev].
  rewrite <- !andb_assoc. do 3 f_equal. destruct (rev a) as [|d a']; done.
Qed.

(** A token is literal-free whatever stands before it. *)
Lemma sql_token_spec pfx i c r o n : sql_token pfx i (c :: r) = (o, n) ->
  0 < n /\ (unquoted (c :: r) = true -> forall tok, o = Some tok -> forall prev, no_literal prev tok = true).
Proof.
  unfold sql_token. intros Ht.
  destruct (isSQLSpace c) eqn:Hsp; [simplify_eq; split; [lia|done]|].
  destruct (Ascii.eqb c "-" && _) eqn:Hdash.
  { simplify_eq. split; [|done]. apply andb_true_iff in Hdash as [->%Ascii.eqb_eq _]. vm_compute. lia. }
  destruct (Ascii.eqb c "/" && _); [simplify_eq; split; [lia|done]|].
  destruct (Ascii.eqb c "'") eqn:Hq.
  { simplify_eq. split; [apply skipSQLString_pos|]. intros _ tok [= <-] prev. done. }
  destruct ((byte_of c =? 34)%Z || Ascii.eqb c "`") eqn:Hid.
  { cbv zeta in Ht. simplify_eq. split; [unfold skipQuoted; lia|]. unfold unquoted. cbn [forallb]. by rewrite Hid. }
  destruct (Ascii.eqb c "$" && next_is isDigit r) eqn:Hd.
  { cbv zeta in Ht. simplify_eq. split; [lia|]. intros _ tok [= <-] prev. apply andb_true_iff in Hd as [->%Ascii.eqb_eq _].
    cbn [take no_literal]. rewrite no_literal_digits by done. done. }
  destruct (Ascii.eqb c ":" && _) eqn:Hcol.
  { cbv zeta in Ht. simplify_eq. split; [lia|]. intros _ tok [= <-] prev. apply andb_true_iff in Hcol as [->%Ascii.eqb_eq _].
    cbn [take no_literal]. rewrite no_literal_name by done. done. }
  destruct (isDigit c || _) eqn:Hnum.
  { simplify_eq. split; [by apply skipNumber_pos|]. intros _ tok [= <-] prev. done. }
  apply orb_false_iff in Hnum as [Hdig _].
  destruct (isIdentStart c) eqn:His.
  - cbv zeta in Ht. destruct (next_is _ _ && _); simplify_eq; (split; [lia|]); intros _ tok [= <-] prev; [done|].
    cbn [take no_literal]. rewrite Hq, Hdig, no_literal_name; [done|]. simpl. unfold isIdentPart. by rewrite His.
  - simplify_eq. split; [lia|]. intros _ tok [= <-] prev. cbn [no_literal]. by rewrite Hq, Hdig.
Qed.

Lemma unquoted_drop n l : unquoted l = true -> unquoted (drop n l) = true.
Proof. unfold unquoted. rewrite !forallb_forall. intros H x Hx. apply H. apply list_elem_of_In in Hx. apply list_elem_of_In. rewrite <- (take_drop n l). apply elem_of_app. by right. Qed.

Lemma sql_loop_no_literal fuel pfx i pending started l prev :
  unquoted l = true -> no_literal prev (sql_loop fuel pfx i pending started l) = true.
Proof.
  revert i pending started l prev. induction fuel as [|fuel IH]; intros i pending started l prev Hu; [done|].
  destruct l as [|c r]; [done|]. cbn [sql_loop]. destruct (sql_token pfx i (c :: r)) as [[tok|] n] eqn:Ht.
  - destruct (sql_token_spec _ _ _ _ _ _ Ht) as [_ Htok]. rewrite !no_literal_app, (Htok Hu tok eq_refl).
    rewrite IH by (by apply unquoted_drop). by destruct (pending && started).
  - apply IH. by apply unquoted_drop.
Qed.

(** The fuel is enough. *)
Lemma sql_loop_fuel fuel pfx i pending started l : length l <= fuel ->
  sql_loop fuel pfx i pending started l = sql_loop (length l) pfx i pending started l.
Proof.
  assert (forall fuel fuel' i pending started l, length l <= fuel -> length l <= fuel' ->
    sql_loop fuel pfx i pending started l = sql_loop fuel' pfx i pending started l) as H; [|intros; by apply H].
  clear. intros fuel. induction fuel as [|fuel IH]; intros [|fuel'] i pending started [|c r] H1 H2; simpl in H1, H2; try done; try lia.
  cbn [sql_loop]. destruct (sql_token pfx i (c :: r)) as [o n] eqn:Ht. destruct (sql_token_spec _ _ _ _ _ _ Ht) as [Hn _].
  assert (length (drop n (c :: r)) <= length r) by (rewrite length_drop; simpl; lia).
  destruct o as [tok|]; by rewrite (IH fuel') by lia.
Qed.

(** What [ReplaceAllString] keeps: [ok prev l] is closed under dropping a
    prefix, and a match may be replaced. *)
Lemma replace_all_drop m n prev l : exists prev', replace_all m n prev l = replace_all m 0 prev' (drop n l).
Proof.
  revert prev l. induction n as [|n IH]; intros prev [|c l]; [by exists prev..|]. cbn [replace_all drop]. apply IH.
Qed.

Lemma in_list_rest_ends fuel l k : in_list_rest fuel l = Some k -> exists pre post, l = pre ++ ")"%char :: post /\ k = S (length pre).
Proof.
  revert l k. induction fuel as [|fuel IH]; intros l k Hk; [done|]. cbn [in_list_rest] in Hk. cbv zeta in Hk.
  destruct (drop (re_spaces l) l) as [|c r] eqn:Hd; [done|].
  assert (l = take (re_spaces l) l ++ c :: r) as Hl by (by rewrite <- Hd, take_drop).
  assert (length (take (re_spaces l) l) = re_spaces l) as Hlen.
  { rewrite length_take. apply Nat.min_l. apply (f_equal length) in Hd. rewrite length_drop in Hd. simpl in Hd. lia. }
  destruct (Ascii.eqb c ",").
  - destruct (next_is _ (drop (re_spaces r) r)) eqn:Hn; [|done].
    destruct (in_list_rest fuel _) as [k'|] eqn:Hk'; [|done]. injection Hk as <-.
    destruct (IH _ _ Hk') as (pre & post & Hr & ->).
    assert (r = take (S (re_spaces r)) r ++ pre ++ ")"%char :: post) as Hr' by (by rewrite <- Hr, take_drop).
    exists (take (re_spaces l) l ++ c :: take (S (re_spaces r)) r ++ pre), post. split.
    + rewrite Hl at 1. rewrite <- app_assoc. simpl. rewrite <- app_assoc. by rewrite <- Hr'.
    + rewrite length_app. cbn [length]. rewrite length_app, Hlen.
      assert (length (take (S (re_spaces r)) r) = S (re_spaces r)) as ->; [|lia].
      rewrite length_take. apply Nat.min_l. destruct (drop (re_spaces r) r) eqn:Hdr; [done|].
      apply (f_equal length) in Hdr. rewrite length_drop in Hdr. simpl in Hdr. lia.
  - destruct (Ascii.eqb_spec c ")") as [->|]; [|done]. injection Hk as <-.
    exists (take (re_spaces l) l), r. split; [done|]. rewrite Hlen. lia.
Qed.

Lemma in_list_spec prev l n repl : in_list prev l = Some (n, repl) ->
  exists a b pre post, l = pre ++ ")"%char :: post /\ n = S (length pre) /\ repl = [a; b] ++ chars_of " (?)" /\
    forall p, no_literal p repl = true.
Proof.
  unfold in_list. intros Hm. destruct l as [|a [|b r]]; [done..|].
  destruct (at_word_start prev && same_letter "i" a && same_letter "n" b) eqn:Hab; [|done].
  apply andb_true_iff in Hab as [[_ Ha]%andb_true_iff Hb]. cbv zeta in Hm.
  destruct (next_is _ (drop (re_spaces r) r)) eqn:Hn; [|done].
  set (r1 := drop (S (re_spaces r)) r) in *. destruct (next_is _ (drop (re_spaces r1) r1)) eqn:Hn1; [|done].
  destruct (in_list_rest _ _) as [k|] eqn:Hk; [|done]. injection Hm as <- <-.
  destruct (in_list_rest_ends _ _ _ Hk) as (pre & post & Hpost & ->).
  assert (forall r, next_is (Ascii.eqb "(") (drop (re_spaces r) r) = true \/ next_is (Ascii.eqb "?") (drop (re_spaces r) r) = true ->
    length (take (S (re_spaces r)) r) = S (re_spaces r)) as Hlen.
  { intros l Hl. rewrite length_take. apply Nat.min_l. destruct (drop (re_spaces l) l) eqn:Hdr; [by destruct Hl|].
    apply (f_equal length) in Hdr. rewrite length_drop in Hdr. simpl in Hdr. lia. }
  exists a, b, (a :: b :: take (S (re_spaces r)) r ++ take (S (re_spaces r1)) r1 ++ pre), post. split_and!.
  - cbn [app]. do 2 f_equal. rewrite <- !app_assoc, <- Hpost, take_drop. unfold r1. by rewrite take_drop.
  - cbn [length]. rewrite !length_app, !Hlen by auto. lia.
  - done.
  - assert (forall x c, same_letter x c = true -> is_lower x = true -> Ascii.eqb c "'" = false /\ isDigit c = false) as Hletter.
    { intros x c Hx Hlow. unfold same_letter in Hx. apply Ascii.eqb_eq in Hx. unfold lower_char in Hx.
      destruct (is_upper c) eqn:Hup; [|subst x]; split; apply not_true_is_false; intros Hc.
      - apply Ascii.eqb_eq in Hc as ->. done.
      - unfold is_upper in Hup. unfold isDigit, is_digit in Hc. rewrite !andb_true_iff, !Z.leb_le in *. lia.
      - apply Ascii.eqb_eq in Hc as ->. done.
      - unfold is_lower in Hlow. unfold isDigit, is_digit in Hc. rewrite !andb_true_iff, !Z.leb_le in *. lia. }
    destruct (Hletter _ _ Ha eq_refl) as [Ha1 Ha2], (Hletter _ _ Hb eq_refl) as [Hb1 Hb2].
    intros p. cbn. by rewrite Ha1, Ha2, Hb1, Hb2.
Qed.

Lemma collapse_no_literal l prev p : no_literal p l = true -> no_literal p (replace_all in_list 0 prev l) = true.
Proof.
  remember (length l) as n eqn:Hn. revert l prev p Hn. induction n as [n IH] using lt_wf_ind. intros l prev p -> Hl.
  destruct l as [|c r]; [done|]. cbn [replace_all]. destruct (in_list prev (c :: r)) as [[k repl]|] eqn:Hm.
  - destruct (in_list_spec _ _ _ _ Hm) as (a & b & pre & post & Heq & -> & -> & Hrepl).
    rewrite no_literal_app, Hrepl. cbn [app rev chars_of String.list_ascii_of_string andb].
    replace (S (length pre) - 1) with (length pre) by lia.
    destruct (replace_all_drop in_list (length pre) (Some c) r) as [prev' ->].
    assert (drop (length pre) r = post) as ->.
    { destruct pre as [|d pre]; [by injection Heq|]. injection Heq as -> ->. cbn [length]. by rewrite cons_middle, app_assoc, drop_app_length' by (rewrite length_app; simpl; lia). }
    rewrite Heq, no_literal_app in Hl. apply andb_true_iff in Hl as [_ Hl]. cbn [no_literal] in Hl. apply andb_true_iff in Hl as [_ Hl].
    eapply IH; [|reflexivity|exact Hl]. rewrite Heq, length_app. simpl. lia.
  - cbn [no_literal] in *. apply andb_true_iff in Hl as [-> Hl]. eapply IH; [|reflexivity|exact Hl]. simpl. lia.
Qed.

(** The table of prefix counts answers what counting the rest would. *)
Lemma oddQuotesFrom_counts q i : i <= length q ->
  oddQuotesFrom (buildQuotePrefix q) i = Nat.odd (length (List.filter (Ascii.eqb "'") (drop i q))).
Proof.
  unfold oddQuotesFrom, buildQuotePrefix. intros Hi. f_equal.
  assert (forall q n, List.last (quote_prefix n q) 0 = n + length (List.filter (Ascii.eqb "'") q)) as Hlast.
  { clear. induction q as [|c q IH]; intros n; [simpl; lia|]. specialize (IH (if Ascii.eqb c "'" then S n else n)).
    cbn [quote_prefix List.filter]. rewrite (Ascii.eqb_sym "'" c). destruct (quote_prefix _ q) as [|x l] eqn:Hq; [by destruct q|].
    change (List.last (n :: x :: l) 0) with (List.last (x :: l) 0). rewrite IH. destruct (Ascii.eqb c "'"); simpl; lia. }
  assert (forall q n i, i <= length q -> List.nth i (quote_prefix n q) 0 + length (List.filter (Ascii.eqb "'") (drop i q)) = n + length (List.filter (Ascii.eqb "'") q)) as Hnth.
  { clear. induction q as [|c q IH]; intros n [|i] Hi; simpl in Hi; try lia; [done|done|]. cbn [quote_prefix List.nth drop]. rewrite IH by lia.
    cbn [List.filter]. rewrite (Ascii.eqb_sym "'" c). destruct (Ascii.eqb c "'"); simpl; lia. }
  specialize (Hnth q 0 i Hi). rewrite Hlast. lia.
Qed.


(** A literal with an escaped quote, a list and a number. *)
Definition ex_query : chars := chars_of "select * from users where pass='it\'s 42' and age in (30, 31) or x=9".


(** ** Examples *)

Definition sql (s : string) : string := text (NormalizeSQL (chars_of s)).
Example sql_ex : sql "select  * from t -- all
 where id IN ( 1, 2,3 ) and c='O''Hara' and p = $12 and q=E'x' and f=1.2e-5 and `k 1` = :name::int"
 = "select * from t where id IN (?) and c=? and p = $12 and q=? and f=? and `k 1` = :name::int".
Proof. vm_compute. reflexivity. Qed.
Example sql_ex_dialect : sql "a='C:\' and b='x'" = "a=? and b=?".
Proof. vm_compute. reflexivity. Qed.
Example sql_ex_escaped : sql "a='it\'s' and b=1" = "a=? and b=?".
Proof. vm_compute. reflexivity. Qed.

Section examples.
#[local] Existing Instance ascii_only.
Example url_ex : text (NormalizeURL (chars_of " GET https://api.corp/users/42/download2024?x=1#y")) = "GET https://api.corp/users/{id}/{id}".
Proof. vm_compute. reflexivity. Qed.
Example key_ex : NormalizeDescription "db.redis" "GET user:42:name config" = "GET user:?:? config".
Proof. vm_compute. reflexivity. Qed.
End examples.
