(* ===== verification/Detect.v ===== *)
(** Detection of performance problems in a transaction:
    [internal/trace/detect.go].

    [Detect] is pure: N+1 queries, slow queries and floods of outgoing calls,
    merged by fingerprint and capped.  A [spanGroup] behind a pointer is a
    value put back in its index. *)
From stdpp Require Import base tactics list gmap strings sorting.
From Stdlib Require Import ZArith Lia Ascii.
From S2P Require Import Prelude.
From S2P Require Import GoString.
From S2P Require Import Json.
From S2P Require Import Secretbox.
From S2P Require Import Trace.
From S2P Require Import Normalize.

Open Scope Z_scope.

(** ** Configuration *)

Definition KindNPlusOne : string := "n_plus_one".
Definition KindSlowDBQuery : string := "slow_db_query".
Definition KindHTTPFlood : string := "http_flood".

Definition slowDBSharePercent : Z := 30.
Definition httpSequentialPercent : Z := 80.
Definition maxEvidenceSpanIDs : nat := 10.
Definition maxEvidenceURLs : nat := 10.
Definition slowDBShareFloorDivisor : Z := 5.
Definition maxFindingsPerTransaction : nat := 20.
Definition zeroClockCountFactor : Z := 2.
Definition opPrefixDB : string := "db".
Definition opPrefixHTTPClient : string := "http.client".

Record DetectorConfig := mkDetectorConfig { NPlusOneMin : Z; NPlusOneMinTotalMs : Z; SlowDBMs : Z; HTTPFloodMin : Z }.

Definition DefaultDetectorConfig : DetectorConfig := mkDetectorConfig 5 20 500 10.

Definition withDefaults (c : DetectorConfig) : DetectorConfig :=
  let or_default f := if f c <=? 0 then f DefaultDetectorConfig else f c in
  mkDetectorConfig (or_default NPlusOneMin) (or_default NPlusOneMinTotalMs) (or_default SlowDBMs) (or_default HTTPFloodMin).

(** [uint64(x) * n] of a non-negative [int]. *)
Definition mul_uint64 (x n : Z) : Z := (x * n) mod 2 ^ 64.
(** Two's complement of 64 bits. *)
Definition int64 (x : Z) : Z := (x + 2 ^ 63) mod 2 ^ 64 - 2 ^ 63.

(** ** Findings *)

(** What [Evidence] holds; the types matter to the assertions of
    [mergeEvidence]. *)
Inductive evidence := EInt (n : Z) | EInt64 (n : Z) | EStr (s : string) | EStrs (l : list string).

Record Finding := mkFinding {
  f_Kind : string; f_Culprit : string; f_Fingerprint : string; f_Description : string; Evidence : gmap string evidence }.

Definition as_int (e : option evidence) : option Z := match e with Some (EInt n) => Some n | _ => None end.
Definition as_int64 (e : option evidence) : option Z := match e with Some (EInt64 n) => Some n | _ => None end.
Definition as_strs (e : option evidence) : list string := match e with Some (EStrs l) => l | _ => [] end.

Definition srcSpanIDs (ev : gmap string evidence) : list string := as_strs (ev !! "span_ids").

Definition mergeEvidence (dst src : gmap string evidence) : gmap string evidence :=
  let dst := match as_int (src !! "count") with
             | Some c => <["count" := EInt (default 0 (as_int (dst !! "count")) + c)]> dst | None => dst end in
  let dst := match as_int64 (src !! "total_us") with
             | Some us => <["total_us" := EInt64 (default 0 (as_int64 (dst !! "total_us")) + us)]> dst | None => dst end in
  let dst := match as_int64 (src !! "max_us") with
             | Some us => if default 0 (as_int64 (dst !! "max_us")) <? us then <["max_us" := EInt64 us]> dst else dst | None => dst end in
  let ids := as_strs (dst !! "span_ids") in
  <["span_ids" := EStrs (ids ++ take (maxEvidenceSpanIDs - length ids) (srcSpanIDs src))]> dst.

(** [fs] in order; [out] holds the first finding of each fingerprint, with the
    evidence of the others merged into it. *)
Fixpoint merge_into (f : Finding) (out : list Finding) : list Finding :=
  match out with
  | [] => [f]
  | g :: out =>
      if String.eqb (f_Fingerprint g) (f_Fingerprint f)
      then mkFinding (f_Kind g) (f_Culprit g) (f_Fingerprint g) (f_Description g) (mergeEvidence (Evidence g) (Evidence f)) :: out
      else g :: merge_into f out
  end.

Definition mergeByFingerprint (fs : list Finding) : list Finding :=
  match fs with [] | [_] => fs | _ => foldl (fun out f => merge_into f out) [] fs end.

Definition total_us (f : Finding) : Z := default 0 (as_int64 (Evidence f !! "total_us")).

Definition stronger (a b : Finding) : bool :=
  if negb (total_us a =? total_us b) then total_us b <? total_us a else go_string_lt (f_Fingerprint a) (f_Fingerprint b).

(** [SliceStable] with [stronger]: insertion keeps the order of equals. *)
Fixpoint insert_finding (f : Finding) (l : list Finding) : list Finding :=
  match l with
  | [] => [f]
  | g :: l => if stronger f g then f :: g :: l else g :: insert_finding f l
  end.

Definition capFindings (fs : list Finding) : list Finding :=
  if (length fs <=? maxFindingsPerTransaction)%nat then fs
  else take maxFindingsPerTransaction (foldl (fun l f => insert_finding f l) [] fs).

(** ** Groups of spans *)

Record spanGroup := mkGroup { g_desc : string; g_parentOp : string; g_count : Z; g_totalUS : Z; g_maxUS : Z; g_spanIDs : list string }.

Definition new_group (desc parentOp : string) : spanGroup := mkGroup desc parentOp 0 0 0 [].

Definition group_add (s : Span) (g : spanGroup) : spanGroup :=
  let us := Span_DurationUS s in
  mkGroup (g_desc g) (g_parentOp g) (g_count g + 1) (g_totalUS g + us) (if g_maxUS g <? us then us else g_maxUS g)
    (if (length (g_spanIDs g) <? maxEvidenceSpanIDs)%nat then g_spanIDs g ++ [s_SpanID s] else g_spanIDs g).

Record groupIndex := mkGroupIndex { order : list string; groups : gmap string spanGroup }.

Definition newGroupIndex : groupIndex := mkGroupIndex [] ∅.

(** [gi.get(key, desc, parentOp).add(s)] *)
Definition get_add (key desc parentOp : string) (s : Span) (gi : groupIndex) : groupIndex :=
  match groups gi !! key with
  | Some g => mkGroupIndex (order gi) (<[key := group_add s g]> (groups gi))
  | None => mkGroupIndex (order gi ++ [key]) (<[key := group_add s (new_group desc parentOp)]> (groups gi))
  end.

Definition each {A} (fn : spanGroup -> list A) (gi : groupIndex) : list A :=
  flat_map (fun key => match groups gi !! key with Some g => fn g | None => [] end) (order gi).

Definition baseEvidence (g : spanGroup) : gmap string evidence :=
  list_to_map [("count", EInt (g_count g)); ("total_us", EInt64 (g_totalUS g)); ("span_ids", EStrs (g_spanIDs g))].

Definition fingerprintOf (kind culprit desc : string) : string :=
  hex_string (Sum256 (to_bytes kind ++ 0 :: to_bytes culprit ++ 0 :: to_bytes desc)).

(** [t.SpanID] first: a span may have the same id. *)
Definition spanOps (t : Transaction) : gmap string string :=
  foldl (fun ops s => <[s_SpanID s := s_Op s]> ops) {[t_SpanID t := t_Op t]} (t_Spans t).

Section unicode.
Context `{Unicode}.

Definition fingerprintCulprit (name : string) : string := TrimSpace (text (NormalizeURL (chars_of name))).

Definition newFinding (kind culprit desc : string) (ev : gmap string evidence) : Finding :=
  mkFinding kind culprit (fingerprintOf kind (fingerprintCulprit culprit) desc)
    (text (capRunes (chars_of desc) (maxNormalizedDescription + 64))) ev.

Definition hasOpPrefix (op prefix : string) : bool :=
  match strip (chars_of prefix) (to_lower (trim_space (chars_of op))) with
  | Some [] => true
  | Some (c :: _) => Ascii.eqb c "."
  | None => false
  end.

Definition NUL : string := text [char_of 0].

(** ** N+1 *)

Definition detectNPlusOne (t : Transaction) (cfg : DetectorConfig) : list Finding :=
  let parentOps := spanOps t in
  let gi := foldl (fun gi s =>
    if negb (hasOpPrefix (s_Op s) opPrefixDB) then gi else
    let desc := NormalizeDescription (s_Op s) (s_Description s) in
    get_add (ParentSpanID s +:+ NUL +:+ desc) desc (default "" (parentOps !! ParentSpanID s)) s gi) newGroupIndex (t_Spans t) in
  let minTotalUS := mul_uint64 (NPlusOneMinTotalMs cfg) 1000 in
  each (fun g =>
    if g_count g <? NPlusOneMin cfg then [] else
    let zeroClock := (g_totalUS g =? 0) && (int64 (zeroClockCountFactor * NPlusOneMin cfg) <=? g_count g) in
    if (g_totalUS g <? minTotalUS) && negb zeroClock then [] else
    [newFinding KindNPlusOne (t_Name t) (g_desc g) (<["parent_op" := EStr (g_parentOp g)]> (baseEvidence g))]) gi.

(** ** Slow queries *)

Definition detectSlowDBQueries (t : Transaction) (cfg : DetectorConfig) : list Finding :=
  let txUS := Transaction_DurationUS t in
  let thresholdUS := mul_uint64 (SlowDBMs cfg) 1000 in
  let floorUS := thresholdUS / slowDBShareFloorDivisor in
  let gi := foldl (fun gi s =>
    if negb (hasOpPrefix (s_Op s) opPrefixDB) then gi else
    let us := Span_DurationUS s in
    let bigShare := (0 <? txUS) && (floorUS <? us) && (txUS * slowDBSharePercent <? us * 100) in
    if (us <=? thresholdUS) && negb bigShare then gi else
    let desc := NormalizeDescription (s_Op s) (s_Description s) in
    get_add desc desc "" s gi) newGroupIndex (t_Spans t) in
  each (fun g => [newFinding KindSlowDBQuery (t_Name t) (g_desc g) (<["max_us" := EInt64 (g_maxUS g)]> (baseEvidence g))]) gi.

(** ** Floods of outgoing calls *)

Definition isSequential (totalUS wallUS : Z) : bool :=
  if (totalUS =? 0) || (wallUS =? 0) then false else totalUS * httpSequentialPercent <=? wallUS * 100.

Definition sequentialPct (totalUS wallUS : Z) : Z := if totalUS =? 0 then 0 else wallUS * 100 / totalUS.

Definition isBoundedWaterfall (count concurrency floodMin : Z) : bool :=
  if concurrency <=? 0 then false else floodMin <=? count / concurrency.

(** Edges of spans: the instant and the change. *)
Definition edge_le (a b : Z * Z) : Prop := a.1 < b.1 \/ a.1 = b.1 /\ a.2 <= b.2.
#[export] Instance edge_le_dec a b : Decision (edge_le a b).
Proof. unfold edge_le. apply _. Defined.

Definition measurable (s : Span) : bool := negb (Span_DurationUS s =? 0).

Definition edges (spans : list Span) : list (Z * Z) :=
  flat_map (fun s => [(s_Start s, 1); (s_End s, -1)]) (List.filter measurable spans).

(** The running sum [cur] and its maximum. *)
Fixpoint peak_from (cur peak : Z) (es : list (Z * Z)) : Z :=
  match es with
  | [] => peak
  | (_, delta) :: es => let cur := cur + delta in peak_from cur (if peak <? cur then cur else peak) es
  end.

Definition maxConcurrency (spans : list Span) : Z := peak_from 0 0 (merge_sort edge_le (edges spans)).

Definition intervals (spans : list Span) : list (Z * Z) := map (fun s => (s_Start s, s_End s)) (List.filter measurable spans).

(** [cur] is the segment being extended, [total] the length of those closed. *)
Fixpoint merge_wall (total : Z) (cur : Z * Z) (ivs : list (Z * Z)) : Z :=
  match ivs with
  | [] => total + (cur.2 - cur.1)
  | v :: ivs =>
      if cur.2 <? v.1 then merge_wall (total + (cur.2 - cur.1)) v ivs
      else if cur.2 <? v.2 then merge_wall total (cur.1, v.2) ivs
      else merge_wall total cur ivs
  end.

Definition mergedWallUS (spans : list Span) : Z :=
  match merge_sort edge_le (intervals spans) with
  | [] => 0
  | iv :: ivs => let us := merge_wall 0 iv ivs / 1000 in if us <? 0 then 0 else us
  end.

(** The distinct addresses, the first ten of them. *)
Definition flood_urls (calls : list Span) : list string :=
  take maxEvidenceURLs (foldl (fun seen s =>
    let u := NormalizeDescription (s_Op s) (s_Description s) in
    if String.eqb u "" || bool_decide (u ∈ seen) then seen else seen ++ [u]) [] calls).

Definition detectHTTPFlood (t : Transaction) (cfg : DetectorConfig) : list Finding :=
  let calls := List.filter (fun s => hasOpPrefix (s_Op s) opPrefixHTTPClient) (t_Spans t) in
  let g := foldl (fun g s => group_add s g) (new_group "" "") calls in
  if g_count g <? HTTPFloodMin cfg then [] else
  let wallUS := mergedWallUS calls in
  let concurrency := maxConcurrency calls in
  if negb (isSequential (g_totalUS g) wallUS) && negb (isBoundedWaterfall (g_count g) concurrency (HTTPFloodMin cfg)) then [] else
  let ev := <["urls" := EStrs (flood_urls calls)]> (<["transaction_op" := EStr (t_Op t)]>
    (<["max_concurrency" := EInt concurrency]> (<["sequential_pct" := EInt (sequentialPct (g_totalUS g) wallUS)]> (baseEvidence g)))) in
  [newFinding KindHTTPFlood (t_Name t) "" ev].

Definition Detect (t : Transaction) (cfg : DetectorConfig) : list Finding :=
  let cfg := withDefaults cfg in
  if String.eqb (fingerprintCulprit (t_Name t)) "" then [] else
  capFindings (mergeByFingerprint (detectNPlusOne t cfg ++ detectSlowDBQueries t cfg ++ detectHTTPFlood t cfg)).
End unicode.

(** ** The peak of concurrency *)

(** How many calls are under way at the instant [i]. *)
Definition under_way (i : Z) (s : Span) : bool := (s_Start s <=? i) && (i <? s_End s).
Definition live (spans : list Span) (i : Z) : Z := Z.of_nat (length (List.filter (under_way i) (List.filter measurable spans))).

(** How long at least one is, counted in nanoseconds of the window. *)
Definition busy (spans : list Span) (i : Z) : bool := existsb (under_way i) (List.filter measurable spans).
Definition busy_time (spans : list Span) (lo n : Z) : Z := Z.of_nat (length (List.filter (busy spans) (seqZ lo n))).

Lemma measurable_positive s : measurable s = true -> s_Start s < s_End s.
Proof.
  unfold measurable, Span_DurationUS, durationUS. intros Hm.
  destruct (Z.leb_spec (s_End s - s_Start s) 0); [done|lia].
Qed.

Definition deltas (es : list (Z * Z)) : Z := foldr (fun e n => e.2 + n) 0 es.

Lemma deltas_app a b : deltas (a ++ b) = deltas a + deltas b.
Proof. induction a as [|e a IH]; [done|]. simpl. rewrite IH. lia. Qed.

#[local] Instance deltas_perm : Proper (Permutation ==> eq) deltas.
Proof. induction 1; simpl; lia. Qed.

Definition until (i : Z) (es : list (Z * Z)) : list (Z * Z) := List.filter (fun e => e.1 <=? i) es.

Lemma deltas_until spans i : deltas (until i (edges spans)) = live spans i.
Proof.
  unfold edges, live, until.
  assert (Forall (fun s => s_Start s < s_End s) (List.filter measurable spans)) as Hpos.
  { apply Forall_forall. intros s Hs. apply measurable_positive. apply list_elem_of_In, List.filter_In in Hs. apply Hs. }
  induction Hpos as [|s l Hs Hl IH]; [done|]. cbn [flat_map app List.filter fst]. unfold under_way at 1.
  destruct (Z.leb_spec (s_Start s) i), (Z.leb_spec (s_End s) i), (Z.ltb_spec i (s_End s)); try lia;
    cbn [deltas foldr snd andb length]; change (foldr (fun e n => e.2 + n) 0) with deltas; unfold until in *; rewrite IH; lia.
Qed.

Lemma peak_from_spec es cur peak :
  peak <= peak_from cur peak es /\
  (forall p q, es = p ++ q -> p <> [] -> cur + deltas p <= peak_from cur peak es) /\
  (peak_from cur peak es = peak \/ exists p q, es = p ++ q /\ p <> [] /\ peak_from cur peak es = cur + deltas p).
Proof.
  revert cur peak. induction es as [|[at_ d] es IH]; intros cur peak.
  { split_and!; [done| |by left]. intros p q Hp Hne. by destruct p. }
  cbn [peak_from]. set (peak' := if peak <? cur + d then cur + d else peak).
  assert (peak <= peak' /\ cur + d <= peak' /\ (peak' = peak \/ peak' = cur + d)) as (Hp1 & Hp2 & Hp3).
  { subst peak'. destruct (Z.ltb_spec peak (cur + d)); lia. }
  destruct (IH (cur + d) peak') as (H1 & H2 & H3). cbv zeta. fold peak'. split_and!; [lia| |].
  - intros [|e p] q Hp Hne; [done|]. injection Hp as <- Hes. cbn [deltas foldr snd]. change (foldr (fun e n => e.2 + n) 0 p) with (deltas p).
    destruct p as [|e' p]; [simpl; lia|]. specialize (H2 (e' :: p) q Hes ltac:(done)). lia.
  - destruct H3 as [H3|(p & q & -> & Hne & H3)].
    + rewrite H3. destruct Hp3 as [->| ->]; [by left|]. right. exists [(at_, d)], es. split_and!; [done..|simpl; lia].
    + right. exists ((at_, d) :: p), q. split_and!; [done..|]. rewrite H3. cbn [deltas foldr snd]. change (foldr (fun e n => e.2 + n) 0 p) with (deltas p). lia.
Qed.

Lemma sorted_until es i : StronglySorted edge_le es -> exists p q, es = p ++ q /\ p = until i es.
Proof.
  induction 1 as [|e es Hs IH Hall]; [by exists [], []|]. unfold until. cbn [List.filter].
  destruct (Z.leb_spec e.1 i) as [Hle|Hgt].
  - destruct IH as (p & q & -> & Hp). exists (e :: p), q. split; [done|]. by rewrite Hp at 1.
  - exists [], (e :: es). split; [done|]. symmetry. clear IH Hs. induction Hall as [|x l [Hx|[Hx _]] _ IHl]; [done| |]; cbn [List.filter];
      (destruct (Z.leb_spec x.1 i); [lia|exact IHl]).
Qed.

#[local] Instance edge_le_total : Total edge_le.
Proof. intros a b. unfold edge_le. destruct (Z.lt_total a.1 b.1) as [|[|]]; lia. Qed.
#[local] Instance edge_le_trans : Transitive edge_le.
Proof. intros a b c. unfold edge_le. lia. Qed.

Lemma edges_delta es spans e : es ≡ₚ edges spans -> e ∈ es -> e.2 = 1 \/ e.2 = -1.
Proof.
  intros Hp He. rewrite Hp in He. unfold edges in He. apply list_elem_of_In, List.in_flat_map in He as (s & _ & [<-|[<-|[]]]); auto.
Qed.

Lemma maxConcurrency_peak spans :
  (forall i, live spans i <= maxConcurrency spans) /\ exists i, live spans i = maxConcurrency spans.
Proof.
  unfold maxConcurrency. set (es := merge_sort edge_le (edges spans)).
  assert (es ≡ₚ edges spans) as Hperm by apply merge_sort_Permutation.
  assert (StronglySorted edge_le es) as Hsort by apply (StronglySorted_merge_sort edge_le).
  clearbody es.
  assert (forall i, deltas (until i es) = live spans i) as Hlive.
  { intros i. rewrite <- deltas_until. unfold until. by rewrite Hperm. }
  destruct (peak_from_spec es 0 0) as (H0 & Hpre & Hmax).
  assert (forall i, live spans i <= peak_from 0 0 es) as Hle.
  { intros i. rewrite <- Hlive. destruct (sorted_until es i Hsort) as (p & q & Hes & Hp). rewrite <- Hp.
    destruct p as [|e p]; [done|]. specialize (Hpre _ _ Hes ltac:(done)). lia. }
  split; [exact Hle|]. destruct Hmax as [Hz|(p & q & Hes & Hne & Hpeak)].
  - rewrite Hz in *. exists (foldr (fun e m => Z.min e.1 m) 0 es - 1). rewrite <- Hlive.
    assert (forall e, e ∈ es -> foldr (fun e m => Z.min e.1 m) 0 es <= e.1) as Hmin.
    { clear. induction es as [|x l IH]; intros e He; [by apply elem_of_nil in He|]. simpl. apply elem_of_cons in He as [->|He]; [lia|]. specialize (IH e He). lia. }
    assert (forall l m, (forall e, e ∈ l -> m <= e.1) -> until (m - 1) l = []) as Hnil.
    { clear. induction l as [|x l IH]; intros m Hm; [done|]. unfold until. simpl. destruct (Z.leb_spec x.1 (m - 1)); [specialize (Hm x (list_elem_of_here _ _)); lia|].
      apply IH. intros e He. apply Hm. by right. }
    by rewrite Hnil.
  - destruct (exists_last Hne) as (p' & [tau d] & ->).
    assert (d = 1) as ->.
    { destruct (edges_delta es spans (tau, d) Hperm) as [Hd|Hd]; [rewrite Hes; set_solver|exact Hd|]. exfalso. simpl in Hd. subst d.
      rewrite deltas_app in Hpeak. simpl in Hpeak. destruct p' as [|e p']; [simpl in Hpeak; lia|].
      assert (es = (e :: p') ++ (tau, -1) :: q) as Hes' by (rewrite Hes, <- app_assoc; done).
      specialize (Hpre _ _ Hes' ltac:(done)). lia. }
    exists tau. apply Z.le_antisymm; [apply Hle|]. rewrite <- Hlive, Hpeak.
    assert (until tau es = (p' ++ [(tau, 1)]) ++ until tau q) as ->.
    { rewrite Hes in Hsort |- *. unfold until. rewrite List.filter_app. f_equal.
      assert (Forall (fun e => e.1 <= tau) (p' ++ [(tau, 1)])) as Hall.
      { apply Forall_app. split; [|by repeat constructor]. apply Forall_forall. intros e He.
        apply list_elem_of_lookup in He as [j Hj]. rewrite <- app_assoc in Hsort.
        pose proof (StronglySorted_lookup_lt edge_le _ j (length p') e (tau, 1) Hsort) as Hlt. unfold edge_le in Hlt. simpl in Hlt.
        apply lookup_lt_Some in Hj as Hjlt. rewrite lookup_app_l in Hlt by done. rewrite list_lookup_middle in Hlt by done. specialize (Hlt Hj eq_refl Hjlt). lia. }
      clear -Hall. induction Hall as [|x l Hx _ IH]; [done|]. cbn [List.filter]. destruct (Z.leb_spec x.1 tau); [by rewrite IH|lia]. }
    rewrite (deltas_app (p' ++ [(tau, 1)])). enough (0 <= deltas (until tau q)) by lia.
    assert (Forall (fun e => e.1 <= tau -> 1 <= e.2) q) as Hq.
    { apply Forall_forall. intros e He. apply list_elem_of_lookup in He as [j Hj]. rewrite Hes, <- app_assoc in Hsort.
      pose proof (StronglySorted_lookup_lt edge_le _ (length p') (length p' + S j) (tau, 1) e Hsort) as Hlt. unfold edge_le in Hlt. simpl in Hlt.
      rewrite list_lookup_middle in Hlt by done. rewrite lookup_app_r in Hlt by lia. replace (length p' + S j - length p')%nat with (S j) in Hlt by lia.
      simpl in Hlt. specialize (Hlt eq_refl Hj ltac:(lia)). lia. }
    clear -Hq. induction Hq as [|e l He _ IH]; [done|]. unfold until. cbn [List.filter]. destruct (Z.leb_spec e.1 tau); [|exact IH].
    cbn [deltas foldr]. fold (deltas (until tau l)). specialize (He ltac:(lia)). unfold until in *. change (foldr (fun e n => e.2 + n) 0) with deltas. lia.
Qed.

(** ** The wall time *)

Definition count_in (P : Z -> bool) (lo n : Z) : Z := Z.of_nat (length (List.filter P (seqZ lo n))).

Lemma count_in_ext P Q lo n : (forall i, lo <= i < lo + n -> P i = Q i) -> count_in P lo n = count_in Q lo n.
Proof.
  intros H. unfold count_in. do 2 f_equal. apply List.filter_ext_in. intros i Hi. apply H.
  apply list_elem_of_In, elem_of_seqZ in Hi. lia.
Qed.

Lemma count_in_disjoint P Q lo n : (forall i, P i = true -> Q i = false) ->
  count_in (fun i => P i || Q i) lo n = count_in P lo n + count_in Q lo n.
Proof.
  intros H. unfold count_in. induction (seqZ lo n) as [|i l IH]; [done|]. cbn [List.filter].
  specialize (H i). destruct (P i), (Q i); cbn [orb length]; try lia; by specialize (H eq_refl).
Qed.

Lemma count_in_interval a b lo n : lo <= a -> a <= b -> b <= lo + n -> count_in (fun i => (a <=? i) && (i <? b)) lo n = b - a.
Proof.
  intros Ha Hab Hb. unfold count_in.
  assert (forall lo n (P : Z -> bool) v, (forall i, lo <= i < lo + n -> P i = v) -> 0 <= n ->
    Z.of_nat (length (List.filter P (seqZ lo n))) = if v : bool then n else 0) as Hconst.
  { clear. intros lo n P v H Hn. assert (List.filter P (seqZ lo n) = if v : bool then seqZ lo n else []) as ->.
    - assert (forall i, i ∈ seqZ lo n -> P i = v) as HP by (intros i Hi; apply H; apply elem_of_seqZ in Hi; lia).
      clear H. induction (seqZ lo n) as [|i l IH]; [by destruct v|]. cbn [List.filter].
      rewrite (HP i), IH by set_solver. by destruct v.
    - destruct v; [|done]. rewrite length_seqZ. lia. }
  replace n with ((a - lo) + ((b - a) + (lo + n - b))) by lia. rewrite !seqZ_app by lia. rewrite !List.filter_app, !length_app, !Nat2Z.inj_add.
  rewrite (Hconst _ _ _ false), (Hconst _ _ _ true), (Hconst _ _ _ false); try lia;
    intros i Hi; destruct (Z.leb_spec a i), (Z.ltb_spec i b); simpl; try done; lia.
Qed.

Definition within (v : Z * Z) (i : Z) : bool := (v.1 <=? i) && (i <? v.2).
Definition covered (ivs : list (Z * Z)) (i : Z) : bool := existsb (fun v => within v i) ivs.

Lemma merge_wall_spec lo n ivs total cur :
  StronglySorted edge_le (cur :: ivs) -> Forall (fun v => lo <= v.1 /\ v.1 < v.2 /\ v.2 <= lo + n) (cur :: ivs) ->
  merge_wall total cur ivs = total + count_in (covered (cur :: ivs)) lo n.
Proof.
  revert total cur. induction ivs as [|v ivs IH]; intros total cur Hs Hall; apply Forall_cons in Hall as [Hc Hall].
  - cbn [merge_wall]. rewrite (count_in_ext _ (fun i => (cur.1 <=? i) && (i <? cur.2))), count_in_interval by
      (lia || (intros i _; unfold covered, within; simpl; by rewrite orb_false_r)). lia.
  - apply StronglySorted_inv in Hs as [Hs Hcv]. apply Forall_cons in Hcv as [Hcv Hcr]. pose proof Hall as Hall'.
    apply Forall_cons in Hall' as [Hv Hr]. pose proof Hs as [_ Hvr]%StronglySorted_inv. cbn [merge_wall].
    destruct (Z.ltb_spec cur.2 v.1) as [Hgap|Hover].
    + rewrite IH by done. rewrite (count_in_ext (covered (cur :: v :: ivs)) (fun i => within cur i || covered (v :: ivs) i)) by done.
      rewrite count_in_disjoint; [unfold within at 1; rewrite count_in_interval by lia; lia|].
      intros i Hi. unfold covered. apply not_true_is_false. intros (w & Hw & Hiw)%existsb_exists. unfold within in *.
      assert (v.1 <= w.1) as Hvw.
      { destruct Hw as [->|Hw]; [lia|]. rewrite Forall_forall in Hvr. apply list_elem_of_In in Hw. specialize (Hvr w Hw). unfold edge_le in Hvr. lia. }
      rewrite !andb_true_iff, !Z.leb_le, !Z.ltb_lt in *. lia.
    + unfold edge_le in Hcv. destruct (Z.ltb_spec cur.2 v.2) as [Hext|Habs].
      * rewrite IH.
        -- f_equal. apply count_in_ext. intros i _. unfold covered, within. cbn [existsb fst snd]. rewrite orb_assoc. f_equal.
           destruct (Z.leb_spec cur.1 i), (Z.ltb_spec i cur.2), (Z.leb_spec v.1 i), (Z.ltb_spec i v.2); simpl; try done; lia.
        -- constructor; [by apply (StronglySorted_inv Hs)|]. apply Forall_forall. intros w Hw. rewrite Forall_forall in Hvr. specialize (Hvr w Hw).
           unfold edge_le in *. cbn [fst snd]. lia.
        -- constructor; [cbn [fst snd]; lia|done].
      * rewrite IH.
        -- f_equal. apply count_in_ext. intros i _. unfold covered, within. cbn [existsb]. rewrite orb_assoc. f_equal.
           destruct (Z.leb_spec cur.1 i), (Z.ltb_spec i cur.2), (Z.leb_spec v.1 i), (Z.ltb_spec i v.2); simpl; try done; lia.
        -- constructor; [by apply (StronglySorted_inv Hs)|done].
        -- by constructor.
Qed.

(** The window from [lo], of [n] nanoseconds, holds the calls. *)
Definition spans_within (spans : list Span) (lo n : Z) : Prop :=
  Forall (fun s => lo <= s_Start s /\ s_End s <= lo + n) (List.filter measurable spans).

Lemma mergedWallUS_union spans lo n : spans_within spans lo n -> mergedWallUS spans = busy_time spans lo n / 1000.
Proof.
  intros Hw. unfold mergedWallUS. pose proof (merge_sort_Permutation edge_le (intervals spans)) as Hp.
  pose proof (StronglySorted_merge_sort edge_le (intervals spans)) as Hs. destruct (merge_sort edge_le (intervals spans)) as [|iv ivs].
  - apply Permutation_nil in Hp. unfold busy_time, busy, intervals in *. apply map_eq_nil in Hp. rewrite Hp. simpl.
    assert (List.filter (fun _ => false) (seqZ lo n) = []) as ->; [|done]. by induction (seqZ lo n).
  - assert (Forall (fun v => lo <= v.1 /\ v.1 < v.2 /\ v.2 <= lo + n) (iv :: ivs)) as Hall.
    { rewrite Hp. unfold intervals. apply Forall_forall. intros v Hv. apply list_elem_of_In, List.in_map_iff in Hv as (s & <- & Hin).
      apply list_elem_of_In in Hin as Hin'. unfold spans_within in Hw. rewrite Forall_forall in Hw. specialize (Hw s Hin').
      apply List.filter_In in Hin as [_ Hm]. apply measurable_positive in Hm. simpl. lia. }
    rewrite (merge_wall_spec lo n ivs 0 iv Hs Hall), Z.add_0_l. unfold busy_time. fold (count_in (busy spans) lo n).
    rewrite (count_in_ext (covered (iv :: ivs)) (busy spans)).
    + assert (0 <= count_in (busy spans) lo n / 1000) by (apply Z.div_pos; unfold count_in; lia).
      destruct (Z.ltb_spec (count_in (busy spans) lo n / 1000) 0); [lia|done].
    + intros i _. unfold covered, busy. apply eq_true_iff_eq. rewrite !existsb_exists. split.
      * intros (v & Hv & Hi). apply list_elem_of_In in Hv. rewrite Hp in Hv. apply list_elem_of_In, List.in_map_iff in Hv as (s & <- & Hin). by exists s.
      * intros (s & Hin & Hi). exists (s_Start s, s_End s). split; [|exact Hi]. apply list_elem_of_In. rewrite Hp. apply list_elem_of_In, List.in_map_iff. by exists s.
Qed.

(** ** The decision *)

Lemma flood_group calls g : g_count (foldl (fun g s => group_add s g) g calls) = g_count g + Z.of_nat (length calls) /\
  g_totalUS (foldl (fun g s => group_add s g) g calls) = g_totalUS g + foldr (fun s n => Span_DurationUS s + n) 0 calls.
Proof.
  revert g. induction calls as [|s calls IH]; intros g; [simpl; lia|]. cbn [foldl length foldr].
  destruct (IH (group_add s g)) as [-> ->]. cbn [g_count g_totalUS group_add]. lia.
Qed.

Section flood.
Context `{Unicode}.

Definition http_calls (t : Transaction) : list Span := List.filter (fun s => hasOpPrefix (s_Op s) opPrefixHTTPClient) (t_Spans t).
Definition total_time (calls : list Span) : Z := foldr (fun s n => Span_DurationUS s + n) 0 calls.

End flood.

(** Ten calls, two at a time: five waves. *)
Definition ex_call (i : Z) : Span :=
  mkSpan "s" "p" "http.client" "GET https://api.corp/v1" (i / 2 * 3000000) (i / 2 * 3000000 + 2000000 + i mod 2 * 500000) "ok" ∅.
Definition ex_flood : Transaction :=
  mkTransaction "t" "root" "GET /orders" "http.server" "ok" 0 15000000 "" "" "" "" ∅ (map ex_call (seqZ 0 10)) "sentry".


(** ** Groups are the spans with the same key *)

(** Spans with their key, description and parent operation. *)
Record item := mkItem { i_key : string; i_desc : string; i_parentOp : string; i_span : Span }.

Definition index_of (items : list item) : groupIndex :=
  foldl (fun gi it => get_add (i_key it) (i_desc it) (i_parentOp it) (i_span it) gi) newGroupIndex items.

Definition with_key (key : string) (items : list item) : list item := List.filter (fun it => String.eqb (i_key it) key) items.

(** The group of a key, all at once. *)
Definition group_of (items : list item) : option spanGroup :=
  match items with
  | [] => None
  | it :: _ => Some (foldl (fun g it => group_add (i_span it) g) (new_group (i_desc it) (i_parentOp it)) items)
  end.

Definition distinct_keys (items : list item) : list string :=
  foldl (fun ks it => if bool_decide (i_key it ∈ ks) then ks else ks ++ [i_key it]) [] items.

Lemma with_key_snoc key items it : with_key key (items ++ [it]) = with_key key items ++ (if String.eqb (i_key it) key then [it] else []).
Proof. unfold with_key. rewrite List.filter_app. simpl. by destruct (String.eqb _ _). Qed.

Lemma group_of_snoc items it : group_of (items ++ [it]) =
  Some (group_add (i_span it) (default (new_group (i_desc it) (i_parentOp it)) (group_of items))).
Proof. destruct items as [|x items]; [done|]. simpl. by rewrite foldl_app. Qed.

Lemma index_of_spec items :
  order (index_of items) = distinct_keys items /\ (forall key, groups (index_of items) !! key = group_of (with_key key items)) /\
  forall key, key ∈ distinct_keys items <-> with_key key items <> [].
Proof.
  induction items as [|it items (Ho & Hg & Hk)] using rev_ind.
  { split_and!; [done|done|]. intros key. split; [by intros ?%elem_of_nil|done]. }
  unfold index_of, distinct_keys in *. rewrite !foldl_app. cbn [foldl]. set (gi := foldl _ newGroupIndex items) in *. set (ks := foldl _ [] items) in *.
  assert (groups gi !! i_key it = None <-> i_key it ∉ ks) as Hin.
  { rewrite Hg, Hk. destruct (with_key (i_key it) items) as [|x l]; simpl; [|split; [done|intros []; done]].
    split; [intros _ Hn; by apply Hn|done]. }
  split_and!.
  - unfold get_add. destruct (groups gi !! i_key it) eqn:Hl; simpl; rewrite Ho.
    + rewrite bool_decide_true; [done|]. apply dec_stable. intros Hn. apply Hin in Hn. congruence.
    + rewrite bool_decide_false by (by apply Hin). done.
  - intros key. rewrite with_key_snoc. unfold get_add. destruct (String.eqb_spec (i_key it) key) as [<-|Hne].
    + rewrite group_of_snoc, <- Hg. destruct (groups gi !! i_key it) as [g|]; simpl; by rewrite lookup_insert_eq.
    + rewrite app_nil_r, <- Hg. destruct (groups gi !! i_key it); simpl; by rewrite lookup_insert_ne.
  - intros key. rewrite with_key_snoc. case_bool_decide as Hd.
    + rewrite Hk. destruct (String.eqb_spec (i_key it) key) as [<-|Hne]; [|by rewrite app_nil_r].
      apply Hk in Hd. split; [|done]. by intros _ [? ?]%app_nil.
    + rewrite elem_of_app, list_elem_of_singleton, Hk. destruct (String.eqb_spec (i_key it) key) as [<-|Hne].
      * split; [|by right]. by intros _ [? ?]%app_nil.
      * rewrite app_nil_r. naive_solver.
Qed.

Lemma each_elem {A} (fn : spanGroup -> list A) items x :
  x ∈ each fn (index_of items) <-> exists key g, group_of (with_key key items) = Some g /\ x ∈ fn g.
Proof.
  destruct (index_of_spec items) as (Ho & Hg & Hk). unfold each. rewrite Ho, list_elem_of_In, List.in_flat_map. split.
  - intros (key & _ & Hx). rewrite Hg in Hx. destruct (group_of _) as [g|] eqn:Hgr; [|done]. exists key, g. split; [done|]. by apply list_elem_of_In.
  - intros (key & g & Hgr & Hx). exists key. split; [|rewrite Hg, Hgr; by apply list_elem_of_In].
    apply list_elem_of_In, Hk. by intros Hn; rewrite Hn in Hgr.
Qed.

Lemma group_add_all l g0 : (length (g_spanIDs g0) <= maxEvidenceSpanIDs)%nat ->
  let g := foldl (fun g it => group_add (i_span it) g) g0 l in
  g_count g = g_count g0 + Z.of_nat (length l) /\ g_totalUS g = g_totalUS g0 + foldr (fun it n => Span_DurationUS (i_span it) + n) 0 l /\
  g_desc g = g_desc g0 /\ g_parentOp g = g_parentOp g0 /\
  g_spanIDs g = take maxEvidenceSpanIDs (g_spanIDs g0 ++ map (fun it => s_SpanID (i_span it)) l).
Proof.
  revert g0. induction l as [|x l IH]; intros g0 Hids.
  { simpl. rewrite app_nil_r, take_ge by done. split_and!; (done || lia). }
  cbn [foldl]. cbv zeta. destruct (IH (group_add (i_span x) g0)) as (-> & -> & -> & -> & ->).
  - cbn [g_spanIDs group_add]. destruct (Nat.ltb_spec (length (g_spanIDs g0)) maxEvidenceSpanIDs); [|lia]. rewrite length_app. simpl. lia.
  - cbn [foldr length map g_count g_totalUS g_desc g_parentOp g_spanIDs group_add]. split_and!; [lia|lia|done..|].
    destruct (Nat.ltb_spec (length (g_spanIDs g0)) maxEvidenceSpanIDs).
    + by rewrite <- app_assoc.
    + assert (length (g_spanIDs g0) = maxEvidenceSpanIDs) as <- by lia. by rewrite !take_app_length.
Qed.

Lemma group_of_totals items : match group_of items, head items with
  | Some g, Some it => g_count g = Z.of_nat (length items) /\ g_totalUS g = foldr (fun it n => Span_DurationUS (i_span it) + n) 0 items /\
      g_desc g = i_desc it /\ g_parentOp g = i_parentOp it /\ g_spanIDs g = take maxEvidenceSpanIDs (map (fun it => s_SpanID (i_span it)) items)
  | None, None => True
  | _, _ => False
  end.
Proof.
  destruct items as [|it items]; [done|]. cbn [group_of head].
  destruct (group_add_all (it :: items) (new_group (i_desc it) (i_parentOp it))) as (-> & -> & -> & -> & ->); [simpl; lia|].
  split_and!; done.
Qed.

Section nplusone.
Context `{Unicode}.

(** The queries of [t]: the spans of a database, under their parents. *)
Definition queries (t : Transaction) : list item :=
  map (fun s => let desc := NormalizeDescription (s_Op s) (s_Description s) in
    mkItem (ParentSpanID s +:+ NUL +:+ desc) desc (default "" (spanOps t !! ParentSpanID s)) s)
  (List.filter (fun s => hasOpPrefix (s_Op s) opPrefixDB) (t_Spans t)).

Definition spent (items : list item) : Z := foldr (fun it n => Span_DurationUS (i_span it) + n) 0 items.

Lemma detectNPlusOne_index t cfg : exists fn, detectNPlusOne t cfg = each fn (index_of (queries t)) /\
  forall g, fn g = if (NPlusOneMin cfg <=? g_count g) && ((mul_uint64 (NPlusOneMinTotalMs cfg) 1000 <=? g_totalUS g) ||
      ((g_totalUS g =? 0) && (int64 (zeroClockCountFactor * NPlusOneMin cfg) <=? g_count g)))
    then [newFinding KindNPlusOne (t_Name t) (g_desc g) (<["parent_op" := EStr (g_parentOp g)]> (baseEvidence g))] else [].
Proof.
  unfold detectNPlusOne. cbv zeta. eexists. split.
  - f_equal. unfold index_of, queries.
    generalize newGroupIndex. induction (t_Spans t) as [|s l IH]; intros gi; [done|]. cbn [foldl List.filter].
    destruct (hasOpPrefix (s_Op s) opPrefixDB); cbn [negb map foldl]; apply IH.
  - intros g. cbv beta. destruct (Z.ltb_spec (g_count g) (NPlusOneMin cfg)), (Z.leb_spec (NPlusOneMin cfg) (g_count g)); try lia; [done|].
    destruct (Z.ltb_spec (g_totalUS g) (mul_uint64 (NPlusOneMinTotalMs cfg) 1000)), (Z.leb_spec (mul_uint64 (NPlusOneMinTotalMs cfg) 1000) (g_totalUS g)); try lia; [|done].
    simpl. by destruct ((g_totalUS g =? 0) && _).
Qed.

(** N+1 is reported exactly for the queries repeated under one parent.
    With thresholds in range, a finding comes from one key -- parent span and
    normal form -- whose spans are at least [NPlusOneMin] and took at least the
    minimal time together, or are twice as many with a broken clock; and
    every such key gives its finding, with the count, the time and the first
    ids of its spans. *)
Theorem detectNPlusOne_reference t cfg f :
  0 <= NPlusOneMin cfg < 2 ^ 61 -> 0 <= NPlusOneMinTotalMs cfg < 2 ^ 53 ->
  f ∈ detectNPlusOne t cfg <->
  exists key it, let spans := with_key key (queries t) in
    head spans = Some it /\
    NPlusOneMin cfg <= Z.of_nat (length spans) /\
    (NPlusOneMinTotalMs cfg * 1000 <= spent spans \/ (spent spans = 0 /\ 2 * NPlusOneMin cfg <= Z.of_nat (length spans))) /\
    f = newFinding KindNPlusOne (t_Name t) (i_desc it) (list_to_map [("parent_op", EStr (i_parentOp it));
      ("count", EInt (Z.of_nat (length spans))); ("total_us", EInt64 (spent spans));
      ("span_ids", EStrs (take maxEvidenceSpanIDs (map (fun it => s_SpanID (i_span it)) spans)))]).
Proof.
  intros Hmin Hms. destruct (detectNPlusOne_index t cfg) as (fn & -> & Hfn). rewrite each_elem.
  assert (mul_uint64 (NPlusOneMinTotalMs cfg) 1000 = NPlusOneMinTotalMs cfg * 1000) as Hu by (unfold mul_uint64; rewrite Z.mod_small; lia).
  assert (int64 (zeroClockCountFactor * NPlusOneMin cfg) = 2 * NPlusOneMin cfg) as Hi by (unfold int64, zeroClockCountFactor; rewrite Z.mod_small; lia).
  split.
  - intros (key & g & Hg & Hf). pose proof (group_of_totals (with_key key (queries t))) as Ht. rewrite Hg in Ht.
    destruct (head (with_key key (queries t))) as [it|] eqn:Hh; [|done]. destruct Ht as (Hc & Hs & Hd & Hp & Hids).
    exists key, it. cbv zeta. rewrite Hfn, Hu, Hi in Hf. destruct (_ && _) eqn:Hq in Hf; [|by apply elem_of_nil in Hf].
    apply list_elem_of_singleton in Hf. fold (spent (with_key key (queries t))) in Hs.
    rewrite andb_true_iff, orb_true_iff, andb_true_iff, Z.eqb_eq, !Z.leb_le, Hc, Hs in Hq.
    split_and!; [done|lia|tauto|]. rewrite Hf. unfold baseEvidence. by rewrite Hc, Hs, Hd, Hp, Hids.
  - intros (key & it & Hh & Hc & Hs & Hf). pose proof (group_of_totals (with_key key (queries t))) as Ht. rewrite Hh in Ht.
    destruct (group_of (with_key key (queries t))) as [g|] eqn:Hg; [|done]. destruct Ht as (Hc' & Hs' & Hd & Hp & Hids).
    exists key, g. split; [done|]. rewrite Hfn, Hu, Hi. fold (spent (with_key key (queries t))) in Hs'.
    assert ((NPlusOneMin cfg <=? g_count g) && ((NPlusOneMinTotalMs cfg * 1000 <=? g_totalUS g) || ((g_totalUS g =? 0) && (2 * NPlusOneMin cfg <=? g_count g))) = true) as ->.
    { rewrite andb_true_iff, orb_true_iff, andb_true_iff, Z.eqb_eq, !Z.leb_le, Hc', Hs'. tauto. }
    apply list_elem_of_singleton. rewrite Hf. unfold baseEvidence. by rewrite Hc', Hs', Hd, Hp, Hids.
Qed.
End nplusone.

(** Six lookups of one user's orders under span p, two under q. *)
Definition ex_lookup (i : Z) : Span :=
  mkSpan "s" (if i <? 6 then "p" else "q") "db.sql.query" (text (chars_of "select * from orders where user_id = " ++ [char_of (48 + i)])) (i * 9000000) (i * 9000000 + 4000000) "ok" ∅.
Definition ex_lookups : Transaction :=
  mkTransaction "t" "root" "GET /orders" "http.server" "ok" 0 90000000 "" "" "" "" ∅ (map ex_lookup (seqZ 0 8)) "sentry".

Lemma detectNPlusOne_reference_witness :
  exists f, f ∈ @detectNPlusOne ascii_only ex_lookups DefaultDetectorConfig /\ Evidence f !! "count" = Some (EInt 6).
Proof.
  eexists. split.
  - apply (@detectNPlusOne_reference ascii_only ex_lookups DefaultDetectorConfig); [vm_compute; by split|vm_compute; by split|].
    exists ("p" +:+ NUL +:+ "select * from orders where user_id = ?"). eexists. cbv zeta.
    split; [vm_compute; reflexivity|]. split; [vm_compute; discriminate|]. split; [left; vm_compute; discriminate|]. reflexivity.
  - vm_compute. reflexivity.
Defined.

(** ** What a transaction reports *)

Definition sum_of (fp : string) (fs : list Finding) : Z :=
  foldr (fun f n => (if String.eqb (f_Fingerprint f) fp then total_us f else 0) + n) 0 fs.

Definition timed (f : Finding) : Prop := is_Some (as_int64 (Evidence f !! "total_us")).

Lemma sum_of_app fp a b : sum_of fp (a ++ b) = sum_of fp a + sum_of fp b.
Proof. induction a as [|f a IH]; [done|]. simpl. rewrite IH. lia. Qed.

Lemma mergeEvidence_total dst src :
  as_int64 (mergeEvidence dst src !! "total_us") =
    match as_int64 (src !! "total_us") with
    | Some us => Some (default 0 (as_int64 (dst !! "total_us")) + us)
    | None => as_int64 (dst !! "total_us")
    end.
Proof.
  unfold mergeEvidence. rewrite lookup_insert_ne by done.
  set (d1 := match as_int (src !! "count") with Some c => _ | None => _ end).
  assert (d1 !! "total_us" = dst !! "total_us") as <- by (subst d1; destruct (as_int _); [by rewrite lookup_insert_ne|done]).
  clearbody d1. set (d2 := match as_int64 (src !! "total_us") with Some us => _ | None => _ end).
  assert (forall (d3 : gmap string evidence), d3 = match as_int64 (src !! "max_us") with
    | Some us => if default 0 (as_int64 (d2 !! "max_us")) <? us then <["max_us":=EInt64 us]> d2 else d2 | None => d2 end -> d3 !! "total_us" = d2 !! "total_us") as ->.
  { intros d3 ->. destruct (as_int64 (src !! "max_us")); [|done]. destruct (_ <? _); [by rewrite lookup_insert_ne|done]. }
  - subst d2. destruct (as_int64 (src !! "total_us")) as [us|]; [|done]. by rewrite lookup_insert_eq.
  - done.
Qed.

(** [out] is what the findings [fs] merge to. *)
Record merged (fs out : list Finding) : Prop := {
  mg_distinct : NoDup (map f_Fingerprint out);
  mg_total : Forall (fun f => timed f /\ total_us f = sum_of (f_Fingerprint f) fs) out;
  mg_same : forall fp, fp ∈ map f_Fingerprint out <-> fp ∈ map f_Fingerprint fs }.

Lemma merge_into_keys f out fp : fp ∈ map f_Fingerprint (merge_into f out) <-> fp = f_Fingerprint f \/ fp ∈ map f_Fingerprint out.
Proof.
  induction out as [|g out IH]; simpl; [set_solver|]. destruct (String.eqb_spec (f_Fingerprint g) (f_Fingerprint f)) as [He|].
  - simpl. rewrite He. set_solver.
  - simpl. rewrite !elem_of_cons, IH. tauto.
Qed.

Lemma sum_of_absent fp fs : fp ∉ map f_Fingerprint fs -> sum_of fp fs = 0.
Proof.
  induction fs as [|f fs IH]; intros Hn; [done|]. simpl in *. apply not_elem_of_cons in Hn as [Hne Hn].
  destruct (String.eqb_spec (f_Fingerprint f) fp); [congruence|]. rewrite IH by done. lia.
Qed.

Lemma merge_into_spec fs out f : timed f -> merged fs out -> merged (fs ++ [f]) (merge_into f out).
Proof.
  intros Hf [Hnd Htot Hsame].
  assert (forall fp, sum_of fp (fs ++ [f]) = sum_of fp fs + if String.eqb (f_Fingerprint f) fp then total_us f else 0) as Hsum.
  { intros fp. rewrite sum_of_app. simpl. lia. }
  constructor.
  - clear Htot Hsame Hsum. induction out as [|g out IH]; simpl; [apply NoDup_singleton|].
    apply NoDup_cons in Hnd as [Hg Hnd]. destruct (String.eqb_spec (f_Fingerprint g) (f_Fingerprint f)) as [He|Hne]; simpl; apply NoDup_cons; [done|].
    split; [|by apply IH]. rewrite merge_into_keys. by intros [?|?].
  - assert (f_Fingerprint f ∉ map f_Fingerprint out -> total_us f = sum_of (f_Fingerprint f) (fs ++ [f])) as Hnew.
    { intros Hn. rewrite Hsum, sum_of_absent, String.eqb_refl; [lia|]. by rewrite <- Hsame. }
    clear Hsame. induction out as [|g out IH]; simpl.
    { constructor; [|done]. split; [done|]. apply Hnew. simpl. set_solver. }
    apply Forall_cons in Htot as [[Hg Hgt] Htot]. apply NoDup_cons in Hnd as [Hng Hnd].
    destruct (String.eqb_spec (f_Fingerprint g) (f_Fingerprint f)) as [He|Hne].
    + constructor.
      * unfold timed, total_us in *. cbn [Evidence f_Fingerprint] in *. rewrite mergeEvidence_total. destruct Hf as [us Hus]. rewrite Hus.
        split; [done|]. cbn [default from_option id]. rewrite Hsum, He, String.eqb_refl, <- He, <- Hgt. unfold total_us. rewrite Hus. simpl. lia.
      * apply Forall_forall. intros h Hh. rewrite Forall_forall in Htot. destruct (Htot h Hh) as [Hht Hhs]. split; [done|]. rewrite Hhs, Hsum.
        destruct (String.eqb_spec (f_Fingerprint f) (f_Fingerprint h)) as [Hfh|]; [|lia]. exfalso. apply Hng. rewrite He, Hfh.
        apply list_elem_of_In, List.in_map. by apply list_elem_of_In.
    + constructor.
      * split; [done|]. rewrite Hgt, Hsum. destruct (String.eqb_spec (f_Fingerprint f) (f_Fingerprint g)); [congruence|lia].
      * apply IH; [done|done|]. intros Hn. apply Hnew. simpl. intros [?|?]%elem_of_cons; [congruence|done].
  - intros fp. rewrite merge_into_keys, Hsame, map_app, elem_of_app. simpl. rewrite list_elem_of_singleton. tauto.
Qed.

Lemma mergeByFingerprint_spec fs : Forall timed fs -> merged fs (mergeByFingerprint fs).
Proof.
  intros Ht. assert (merged fs (foldl (fun out f => merge_into f out) [] fs)) as Hm.
  { induction fs as [|f fs IH] using rev_ind.
    - constructor; [constructor|constructor|done].
    - apply Forall_app in Ht as [Ht [Hf _]%Forall_cons]. rewrite foldl_app. cbn [foldl]. apply merge_into_spec; [done|by apply IH]. }
  by destruct fs as [|f [|g fs]].
Qed.

Definition no_weaker (a b : Finding) : Prop := total_us b <= total_us a.

Lemma insert_finding_spec f l : insert_finding f l ≡ₚ f :: l /\ (StronglySorted no_weaker l -> StronglySorted no_weaker (insert_finding f l)).
Proof.
  induction l as [|g l [Hp Hs]]; simpl; [split; [done|]; intros _; repeat constructor|].
  assert (if stronger f g then no_weaker f g else no_weaker g f) as Hfg.
  { unfold stronger, no_weaker. destruct (Z.eqb_spec (total_us f) (total_us g)) as [He|Hne]; simpl; [destruct (go_string_lt _ _); lia|].
    destruct (Z.ltb_spec (total_us g) (total_us f)); lia. }
  destruct (stronger f g).
  - split; [done|]. intros Hl. constructor; [done|]. apply StronglySorted_inv in Hl as [_ Hl]. constructor; [done|].
    eapply Forall_impl; [exact Hl|]. unfold no_weaker in *. intros x Hx. lia.
  - split; [rewrite Hp; apply perm_swap|]. intros Hl. apply StronglySorted_inv in Hl as [Hl Hg]. constructor; [by apply Hs|].
    rewrite Hp. by constructor.
Qed.

Lemma sorted_findings fs : foldl (fun l f => insert_finding f l) [] fs ≡ₚ fs /\ StronglySorted no_weaker (foldl (fun l f => insert_finding f l) [] fs).
Proof.
  induction fs as [|f fs [Hp Hs]] using rev_ind; [split; [done|constructor]|]. rewrite foldl_app. cbn [foldl].
  destruct (insert_finding_spec f (foldl (fun l f => insert_finding f l) [] fs)) as [H1 H2]. split; [|by apply H2].
  rewrite H1, Hp. apply Permutation_cons_append.
Qed.

Section detect.
Context `{Unicode}.

Definition raw_findings (t : Transaction) (cfg : DetectorConfig) : list Finding :=
  detectNPlusOne t cfg ++ detectSlowDBQueries t cfg ++ detectHTTPFlood t cfg.

Lemma raw_timed t cfg : Forall timed (raw_findings t cfg).
Proof.
  assert (forall ev kind culprit desc n, ev !! "total_us" = Some (EInt64 n) -> timed (newFinding kind culprit desc ev)) as Hnew.
  { intros ev kind culprit desc n Hn. unfold timed. simpl. by rewrite Hn. }
  unfold raw_findings. rewrite !Forall_app. split_and!; apply Forall_forall; intros f Hf.
  - destruct (detectNPlusOne_index t cfg) as (fn & Heq & Hfn). rewrite Heq, each_elem in Hf. destruct Hf as (key & g & _ & Hf).
    rewrite Hfn in Hf. destruct (_ && _) in Hf; [|by apply elem_of_nil in Hf]. apply list_elem_of_singleton in Hf as ->. eapply Hnew. done.
  - unfold detectSlowDBQueries, each in Hf. apply list_elem_of_In, List.in_flat_map in Hf as (key & _ & Hf).
    destruct (groups _ !! key); [|done]. destruct Hf as [<-|[]]. eapply Hnew. done.
  - unfold detectHTTPFlood in Hf. cbv zeta in Hf. destruct (_ <? _) in Hf; [by apply elem_of_nil in Hf|].
    destruct (_ && _) in Hf; [by apply elem_of_nil in Hf|]. apply list_elem_of_singleton in Hf as ->. eapply Hnew. done.
Qed.

(** a transaction reports each problem once, with all its time, and the
    heaviest when there are too many.  The findings have distinct
    fingerprints, are at most [maxFindingsPerTransaction], and each carries
    the total time of everything the detectors found under its fingerprint;
    a fingerprint is left out only when the limit is reached, by findings
    that all took at least as long. *)
Theorem Detect_summary t cfg :
  let found := Detect t cfg in
  let raw := raw_findings t (withDefaults cfg) in
  fingerprintCulprit (t_Name t) <> "" ->
  NoDup (map f_Fingerprint found) /\ (length found <= maxFindingsPerTransaction)%nat /\
  (forall f, f ∈ found -> f_Fingerprint f ∈ map f_Fingerprint raw /\ total_us f = sum_of (f_Fingerprint f) raw) /\
  (forall g, g ∈ raw -> f_Fingerprint g ∉ map f_Fingerprint found ->
    length found = maxFindingsPerTransaction /\ forall f, f ∈ found -> sum_of (f_Fingerprint g) raw <= total_us f).
Proof.
  intros found raw Hname. subst found. unfold Detect. destruct (String.eqb_spec (fingerprintCulprit (t_Name t)) ""); [done|].
  fold (raw_findings t (withDefaults cfg)). fold raw. destruct (mergeByFingerprint_spec raw (raw_timed _ _)) as [Hnd Htot Hsame].
  set (ms := mergeByFingerprint raw) in *. clearbody ms. rewrite Forall_forall in Htot. unfold capFindings.
  assert (forall f, f ∈ ms -> f_Fingerprint f ∈ map f_Fingerprint raw /\ total_us f = sum_of (f_Fingerprint f) raw) as Hms.
  { intros f Hf. destruct (Htot f Hf) as [_ Hs]. split; [|done]. apply Hsame. apply list_elem_of_In, List.in_map. by apply list_elem_of_In. }
  destruct (Nat.leb_spec (length ms) maxFindingsPerTransaction) as [Hle|Hgt].
  - split_and!; [done..|]. intros g Hg Hn. destruct Hn. apply Hsame, list_elem_of_In, List.in_map. by apply list_elem_of_In.
  - destruct (sorted_findings ms) as [Hp Hs]. set (l := foldl _ [] ms) in *. clearbody l.
    assert (length (take maxFindingsPerTransaction l) = maxFindingsPerTransaction) as Hlen.
    { rewrite length_take, Hp. apply Nat.min_l. lia. }
    split_and!; [|lia| |].
    + rewrite <- Hp in Hnd. rewrite <- (take_drop maxFindingsPerTransaction l), map_app in Hnd. by apply NoDup_app in Hnd as (? & _ & _).
    + intros f Hf. apply Hms. rewrite <- Hp, <- (take_drop maxFindingsPerTransaction l). apply elem_of_app. by left.
    + intros g Hg Hn. split; [done|]. intros f Hf.
      assert (f_Fingerprint g ∈ map f_Fingerprint ms) as Hin by (apply Hsame, list_elem_of_In, List.in_map; by apply list_elem_of_In).
      apply list_elem_of_In, List.in_map_iff in Hin as (h & Hhg & Hh%list_elem_of_In).
      destruct (Hms h Hh) as [_ Hht]. rewrite <- Hhg, <- Hht.
      rewrite <- Hp, <- (take_drop maxFindingsPerTransaction l) in Hh. apply elem_of_app in Hh as [Hh|Hh].
      { destruct Hn. rewrite <- Hhg. apply list_elem_of_In, List.in_map. by apply list_elem_of_In. }
      rewrite <- (take_drop maxFindingsPerTransaction l) in Hs.
      apply list_elem_of_lookup in Hf as [i Hi], Hh as [j Hj].
      eapply (StronglySorted_lookup_lt no_weaker _ i (length (take maxFindingsPerTransaction l) + j) f h Hs).
      * by apply lookup_app_l_Some.
      * rewrite lookup_app_r by lia. by rewrite Nat.add_comm, Nat.add_sub.
      * apply lookup_lt_Some in Hi. lia.
Qed.
End detect.

Lemma Detect_summary_witness :
  NoDup (map f_Fingerprint (@Detect ascii_only ex_lookups DefaultDetectorConfig)) /\
  map f_Kind (@Detect ascii_only ex_lookups DefaultDetectorConfig) = ["n_plus_one"].
Proof.
  split; [|vm_compute; reflexivity].
  apply (@Detect_summary ascii_only ex_lookups DefaultDetectorConfig). vm_compute. discriminate.
Defined.
