(* ===== verification/Fingerprint.v ===== *)
(** Fingerprints of events: [internal/fingerprint].

    Events with the same fingerprint are one issue.  [preimage] is what
    [Compute] hashes; SHA-1 is executable, and the theorems are about the
    preimage. *)
From stdpp Require Import base tactics list strings.
From Stdlib Require Import ZArith Lia Ascii.
From S2P Require Import Prelude.
From S2P Require Import GoString.
From S2P Require Import Secretbox.

Open Scope Z_scope.

(** ** SHA-1 *)

(** The newest word first. *)
Fixpoint sha1_expand (n : nat) (w : list Z) : list Z :=
  match n with
  | O => w
  | S n => sha1_expand n (rotr (Z.lxor (Z.lxor (nth_word w 2) (nth_word w 7)) (Z.lxor (nth_word w 13) (nth_word w 15))) 31 :: w)
  end.

Definition sha1_mix (i : nat) (b c d : Z) : Z * Z :=
  if (i <? 20)%nat then (Z.lor (Z.land b c) (Z.land (Z.lxor b (Z.ones 32)) d), 1518500249)
  else if (i <? 40)%nat then (Z.lxor (Z.lxor b c) d, 1859775393)
  else if (i <? 60)%nat then (Z.lor (Z.lor (Z.land b c) (Z.land b d)) (Z.land c d), 2400959708)
  else (Z.lxor (Z.lxor b c) d, 3395469782).

Definition sha1_round (s : list Z) (iw : nat * Z) : list Z :=
  match s with
  | [a; b; c; d; e] =>
      let '(f, k) := sha1_mix iw.1 b c d in
      [w32 (rotr a 27 + f + e + k + iw.2); a; rotr b 2; c; d]
  | _ => s
  end.

Definition sha1_block (h w : list Z) : list Z :=
  zip_with (fun x y => w32 (x + y)) h (foldl sha1_round h (zip (seq 0 80) (rev (sha1_expand 64 (rev w))))).

Fixpoint sha1_blocks (fuel : nat) (h w : list Z) : list Z :=
  match fuel, w with
  | S fuel, _ :: _ => sha1_blocks fuel (sha1_block h (take 16 w)) (drop 16 w)
  | _, _ => h
  end.

Definition Sha1Sum (l : bytes) : bytes :=
  let w := words (sha_pad l) in
  flat_map (be_bytes 4) (sha1_blocks (length w) [1732584193; 4023233417; 2562383102; 271733878; 3285377520] w).

(** ** Messages *)

Definition is_hex_any (c : ascii) : bool := is_hex c || (65 <=? byte_of c) && (byte_of c <=? 70).

(** [n] hexadecimal digits and then [k]. *)
Fixpoint hex_run (n : nat) (k : chars -> option nat) (l : chars) : option nat :=
  match n, l with
  | O, _ => k l
  | S n, c :: l => if is_hex_any c then match hex_run n k l with Some m => Some (S m) | None => None end else None
  | _, [] => None
  end.
Definition dash (k : chars -> option nat) (l : chars) : option nat :=
  match l with c :: l => if Ascii.eqb c "-" then match k l with Some m => Some (S m) | None => None end else None | [] => None end.

(** [reUUID], [reHex] and [reNum]: the match that begins here. *)
Definition uuid_match (_ : option ascii) (l : chars) : option (nat * chars) :=
  match hex_run 8 (dash (hex_run 4 (dash (hex_run 4 (dash (hex_run 4 (dash (hex_run 12 (fun _ => Some O))))))))) l with
  | Some n => Some (n, chars_of "<uuid>")
  | None => None
  end.

Definition hex_match (prev : option ascii) (l : chars) : option (nat * chars) :=
  if negb (at_word_start prev) then None else
  let plain :=
    let n := span is_hex_any l in
    if (8 <=? n)%nat && at_word_end (drop n l) then Some (n, chars_of "<hex>") else None in
  match l with
  | z :: x :: r =>
      if Ascii.eqb z "0" && (Ascii.eqb x "x" || Ascii.eqb x "X") then
        let n := span is_hex_any r in
        if (0 <? n)%nat && at_word_end (drop n r) then Some ((2 + n)%nat, chars_of "<hex>") else plain
      else plain
  | _ => plain
  end.

Definition num_match (prev : option ascii) (l : chars) : option (nat * chars) :=
  if negb (at_word_start prev) then None else
  match span is_digit l with O => None | n => Some (n, chars_of "<num>") end.

Definition NormalizeMessage (s : chars) : chars :=
  replace_all num_match 0 None (replace_all hex_match 0 None (replace_all uuid_match 0 None s)).

(** ** Stacks *)

Record Frame := mkFrame { fr_Module : string; fr_Function : string; InApp : bool }.
Record Exception := mkException { ex_Type : string; ex_Value : string; Frames : list Frame }.
Record Input := mkFpInput { Custom : list string; Exceptions : list Exception; in_Message : string }.

Definition newline : chars := [char_of 10].
Definition NUL : chars := [char_of 0].

Definition usable (f : Frame) : bool := negb (String.eqb (fr_Module f) "" && String.eqb (fr_Function f) "").

Definition frame_line (f : Frame) : chars := chars_of (fr_Module f) ++ ["|"%char] ++ chars_of (fr_Function f) ++ newline.

Definition exception_component (ex : Exception) : chars :=
  let inApp := List.filter InApp (Frames ex) in
  let frames := match inApp with [] => Frames ex | _ => inApp end in
  match List.filter usable frames with
  | [] => []
  | written => flat_map frame_line written ++ chars_of (ex_Type ex) ++ newline
  end.

Definition stackComponent (excs : list Exception) : chars := flat_map exception_component excs.

Definition defaultComponent (i : Input) : chars :=
  match stackComponent (Exceptions i) with
  | [] =>
      let message := chars_of "msg" ++ NUL ++ NormalizeMessage (chars_of (in_Message i)) in
      match last (Exceptions i) with
      | Some ex => if negb (String.eqb (ex_Type ex) "")
                   then chars_of "exc" ++ NUL ++ chars_of (ex_Type ex) ++ NUL ++ NormalizeMessage (chars_of (ex_Value ex))
                   else message
      | None => message
      end
  | stack => chars_of "stack" ++ NUL ++ stack
  end.

(** What is hashed. *)
Definition preimage (i : Input) : chars :=
  let base := defaultComponent i in
  match Custom i with
  | [] => base
  | parts => chars_of "custom" ++ NUL ++
      join NUL (map (fun p => if String.eqb (TrimSpace p) "{{ default }}" then base else chars_of p) parts)
  end.

Definition hash (l : chars) : string := hex_string (Sha1Sum (map byte_of l)).

Definition Compute (i : Input) : string := hash (preimage i).

(** ** Messages that differ in a number *)

Definition space : ascii := " "%char.

(** A matcher that never looks past a space, nor matches one. *)
Definition stops_at_space (m : option ascii -> chars -> option (nat * chars)) : Prop :=
  forall prev l rest, m prev (l ++ space :: rest) = m prev (l ++ [space]) /\
    match m prev (l ++ space :: rest) with Some (n, _) => (1 <= n <= length l)%nat | None => True end.

Lemma replace_all_split m k prev l rest : stops_at_space m -> (k <= length l)%nat ->
  replace_all m k prev (l ++ space :: rest) = replace_all m k prev (l ++ [space]) ++ replace_all m 0 (Some space) rest.
Proof.
  intros Hm. revert k prev. induction l as [|c l IH]; intros k prev Hk.
  - destruct k; [|simpl in Hk; lia]. destruct (Hm prev [] rest) as [He Hn]. simpl in *. rewrite He in *.
    by destruct (m prev [space]) as [[n r]|]; [lia|].
  - destruct k as [|k].
    + destruct (Hm prev (c :: l) rest) as [He Hn]. simpl in *. rewrite He in *. destruct (m prev (c :: l ++ [space])) as [[n r]|].
      * rewrite IH by lia. by rewrite <- app_assoc.
      * by rewrite IH by lia.
    + simpl in *. by rewrite IH by lia.
Qed.

(** A pass over a text of two parts, and that the space stays. *)
Lemma replace_all_keeps_space m k prev l : stops_at_space m -> (k <= length l)%nat ->
  exists l', replace_all m k prev (l ++ [space]) = l' ++ [space].
Proof.
  intros Hm. revert k prev. induction l as [|c l IH]; intros k prev Hk.
  - destruct k; [|simpl in Hk; lia]. destruct (Hm prev [] []) as [_ Hn]. exists []. simpl in *.
    by destruct (m prev [space]) as [[n r]|]; [lia|].
  - destruct k as [|k].
    + destruct (Hm prev (c :: l) []) as [_ Hn]. simpl in *. destruct (m prev (c :: l ++ [space])) as [[n r]|].
      * destruct (IH (n - 1)%nat (Some c)) as [l' ->]; [lia|]. exists (r ++ l'). by rewrite app_assoc.
      * destruct (IH O (Some c)) as [l' ->]; [lia|]. by exists (c :: l').
    + simpl in *. destruct (IH k (Some c)) as [l' ->]; [lia|]. by exists l'.
Qed.

Lemma hex_run_stops n k l rest r :
  (forall l, k (l ++ space :: rest) = k (l ++ [space]) /\ match k (l ++ space :: rest) with Some j => (j <= length l)%nat | None => True end) ->
  r = hex_run n k (l ++ space :: rest) ->
  r = hex_run n k (l ++ [space]) /\ match r with Some j => (j <= length l)%nat | None => True end.
Proof.
  intros Hk ->. revert l. induction n as [|n IH]; intros l; [apply Hk|].
  destruct l as [|c l]; [done|]. simpl. destruct (is_hex_any c); [|done]. destruct (IH l) as [He Hn]. rewrite <- He.
  destruct (hex_run n k (l ++ space :: rest)); [|done]. split; [done|lia].
Qed.

Lemma dash_stops k l rest :
  (forall l, k (l ++ space :: rest) = k (l ++ [space]) /\ match k (l ++ space :: rest) with Some j => (j <= length l)%nat | None => True end) ->
  dash k (l ++ space :: rest) = dash k (l ++ [space]) /\ match dash k (l ++ space :: rest) with Some j => (j <= length l)%nat | None => True end.
Proof.
  intros Hk. destruct l as [|c l]; [done|]. simpl. destruct (Ascii.eqb c "-"); [|done]. destruct (Hk l) as [He Hn]. rewrite <- He.
  destruct (k (l ++ space :: rest)); [|done]. split; [done|lia].
Qed.

Lemma hex_run_long n k l j : hex_run n k l = Some j -> (n <= j)%nat.
Proof.
  revert l j. induction n as [|n IH]; intros l j; [lia|]. destruct l as [|c l]; [done|]. simpl. destruct (is_hex_any c); [|done].
  destruct (hex_run n k l) as [i|] eqn:Hi; [|done]. intros [= <-]. apply IH in Hi. lia.
Qed.

Lemma uuid_stops : stops_at_space uuid_match.
Proof.
  intros prev l rest. unfold uuid_match.
  match goal with |- context [hex_run 8 ?k ?l] => pose proof (hex_run_stops 8 k) as H8 end.
  destruct (H8 l rest _ ltac:(repeat first [intros ?; apply dash_stops | intros ?; eapply hex_run_stops; [|reflexivity]]; intros l'; simpl; split; [done|lia]) eq_refl) as [He Hn].
  rewrite <- He. clear H8 He. destruct (hex_run 8 _ (l ++ space :: rest)) as [j|] eqn:Hj; [|done]. apply hex_run_long in Hj. split; [done|lia].
Qed.

Lemma span_stops p l rest : p space = false -> span p (l ++ space :: rest) = span p l.
Proof. intros Hp. induction l as [|c l IH]; simpl; [by rewrite Hp|]. by rewrite IH. Qed.

Lemma span_le p l : (span p l <= length l)%nat.
Proof. induction l as [|c l IH]; simpl; [lia|]. destruct (p c); lia. Qed.

Lemma at_word_end_stops n l rest : (n <= length l)%nat -> at_word_end (drop n (l ++ space :: rest)) = at_word_end (drop n (l ++ [space])).
Proof.
  intros Hn. rewrite !drop_app_le by done. by destruct (drop n l).
Qed.

Lemma hex_stops : stops_at_space hex_match.
Proof.
  intros prev l rest. unfold hex_match. destruct (negb (at_word_start prev)); [done|].
  assert (forall l, span is_hex_any (l ++ space :: rest) = span is_hex_any (l ++ [space]) /\ (span is_hex_any (l ++ space :: rest) <= length l)%nat /\
    at_word_end (drop (span is_hex_any (l ++ [space])) (l ++ space :: rest)) = at_word_end (drop (span is_hex_any (l ++ [space])) (l ++ [space]))) as Hspan.
  { intros l'. rewrite !span_stops by done. pose proof (span_le is_hex_any l'). split_and!; [done|done|]. by apply at_word_end_stops. }
  set (plain := fun l => let n := span is_hex_any l in if (8 <=? n)%nat && at_word_end (drop n l) then Some (n, chars_of "<hex>") else None).
  assert (plain (l ++ space :: rest) = plain (l ++ [space]) /\ match plain (l ++ space :: rest) with Some (n, _) => (1 <= n <= length l)%nat | None => True end) as [Hp1 Hp2].
  { unfold plain. destruct (Hspan l) as (-> & Hle & ->). split; [done|].
    destruct (Nat.leb_spec 8 (span is_hex_any (l ++ [space]))); [|done]. simpl. destruct (at_word_end _); [lia|done]. }
  fold (plain (l ++ space :: rest)) (plain (l ++ [space])). rewrite <- Hp1. clear Hp1.
  destruct l as [|z [|x l]]; [by destruct rest|simpl in *; by rewrite andb_false_r|]. simpl in *.
  destruct (Ascii.eqb z "0" && _); [|done].
  destruct (Hspan l) as (-> & Hle & ->).
  destruct (_ && _); [|done]. split; [done|lia].
Qed.

Lemma num_stops : stops_at_space num_match.
Proof.
  intros prev l rest. unfold num_match. destruct (negb _); [done|]. rewrite !span_stops by done. pose proof (span_le is_digit l).
  destruct (span is_digit l); [done|]. split; [done|lia].
Qed.

(** A short number: too few digits to be taken for hexadecimal. *)
Definition short_number (d : chars) : Prop := Forall (fun c => is_digit c = true) d /\ (1 <= length d < 8)%nat.

Lemma digit_word c : is_digit c = true -> is_word c = true.
Proof. unfold is_word. by intros ->. Qed.

Lemma digits_uuid d : Forall (fun c => is_digit c = true) d -> (length d < 8)%nat -> forall prev,
  replace_all uuid_match 0 prev (d ++ [space]) = d ++ [space].
Proof.
  assert (forall k n d, (length d < n)%nat -> hex_run n k (d ++ [space]) = None) as Hrun.
  { intros k n. induction n as [|n IH]; intros l Hl; [lia|]. destruct l as [|c l]; [done|]. simpl in *. destruct (is_hex_any c); [|done]. by rewrite IH by lia. }
  assert (forall prev d, (length d < 8)%nat -> uuid_match prev (d ++ [space]) = None) as Hno.
  { intros prev l Hl. unfold uuid_match. by rewrite Hrun. }
  intros Hd Hlen. clear Hd Hrun. induction d as [|c d IH]; intros prev.
  - pose proof (Hno prev [] Hlen) as Hc. cbn [app replace_all] in *. by rewrite Hc.
  - pose proof (Hno prev (c :: d) Hlen) as Hc. cbn [app replace_all] in *. rewrite Hc. f_equal. apply IH. simpl in Hlen. lia.
Qed.

Lemma digits_hex d : Forall (fun c => is_digit c = true) d -> (length d < 8)%nat -> forall prev,
  replace_all hex_match 0 prev (d ++ [space]) = d ++ [space].
Proof.
  intros Hd Hlen.
  assert (forall d, Forall (fun c => is_digit c = true) d -> (length d < 8)%nat -> forall prev, hex_match prev (d ++ [space]) = None) as Hno.
  { clear. intros l Hl Hlen prev. unfold hex_match. destruct (negb _); [done|].
    assert ((8 <=? span is_hex_any (l ++ [space]))%nat = false) as ->.
    { rewrite span_stops by done. pose proof (span_le is_hex_any l). apply Nat.leb_gt. lia. }
    cbn [andb]. destruct l as [|z [|x l]]; [done|simpl; by rewrite andb_false_r|]. simpl.
    apply Forall_cons in Hl as [_ [Hx _]%Forall_cons].
    assert (Ascii.eqb x "x" || Ascii.eqb x "X" = false) as ->; [|by rewrite andb_false_r].
    apply orb_false_iff. split; apply Ascii.eqb_neq; intros ->; done. }
  induction Hd as [|c d Hc Hd IH]; intros prev.
  - pose proof (Hno [] ltac:(constructor) ltac:(simpl; lia) prev) as Hn. cbn [app replace_all] in *. by rewrite Hn.
  - pose proof (Hno (c :: d) ltac:(by constructor) Hlen prev) as Hn. cbn [app replace_all] in *. rewrite Hn. f_equal. apply IH. simpl in Hlen. lia.
Qed.

Lemma digits_num d : short_number d -> replace_all num_match 0 (Some space) (d ++ [space]) = chars_of "<num> ".
Proof.
  intros [Hd Hlen].
  assert (forall n prev l, length l = n -> replace_all num_match n prev (l ++ [space]) = [space]) as Hskip.
  { induction n as [|n IH]; intros prev l Hl; destruct l as [|c l]; try done; simpl in *.
    - unfold num_match. destruct (negb _); done.
    - apply IH. lia. }
  assert (span is_digit (d ++ [space]) = length d) as Hs.
  { rewrite span_stops by done. clear -Hd. induction Hd as [|c d Hc Hd IH]; [done|]. simpl. by rewrite Hc, IH. }
  destruct d as [|c d]; [simpl in Hlen; lia|]. cbn [app replace_all]. unfold num_match at 1. cbn [negb at_word_start].
  change (negb (negb (is_word space))) with false. cbn iota. cbn [app] in Hs. rewrite Hs. simpl. by rewrite Nat.sub_0_r, Hskip.
Qed.

(** Three passes over a message with a number between two spaces. *)
Lemma NormalizeMessage_number a d b : short_number d ->
  NormalizeMessage (a ++ space :: d ++ space :: b) =
  NormalizeMessage (a ++ [space]) ++ chars_of "<num> " ++
    replace_all num_match 0 (Some space) (replace_all hex_match 0 (Some space) (replace_all uuid_match 0 (Some space) b)).
Proof.
  intros Hd. assert (Forall (fun c => is_digit c = true) d /\ (length d < 8)%nat) as [Hdig Hlen] by (destruct Hd; split; [done|lia]).
  unfold NormalizeMessage.
  assert (forall m prev l rest, stops_at_space m ->
    replace_all m 0 prev (l ++ space :: rest) = replace_all m 0 prev (l ++ [space]) ++ replace_all m 0 (Some space) rest) as Hsplit.
  { intros m prev l rest Hm. apply replace_all_split; [done|lia]. }
  rewrite (Hsplit uuid_match None a) by apply uuid_stops. rewrite (Hsplit uuid_match (Some space) d) by apply uuid_stops.
  rewrite (digits_uuid d) by done.
  destruct (replace_all_keeps_space uuid_match 0 None a uuid_stops ltac:(lia)) as [a1 ->].
  rewrite <- !app_assoc. cbn [app]. rewrite (Hsplit hex_match None a1) by apply hex_stops. rewrite (Hsplit hex_match (Some space) d) by apply hex_stops.
  rewrite (digits_hex d) by done.
  destruct (replace_all_keeps_space hex_match 0 None a1 hex_stops ltac:(lia)) as [a2 ->].
  rewrite <- !app_assoc. cbn [app]. rewrite (Hsplit num_match None a2) by apply num_stops. rewrite (Hsplit num_match (Some space) d) by apply num_stops.
  by rewrite (digits_num d).
Qed.

Definition with_number (a d b : chars) : string := text (a ++ space :: d ++ space :: b).


(** A number of eight digits is taken for hexadecimal: the message of order
    99999999 and that of order 9999999 are different issues. *)
Lemma long_numbers_split :
  NormalizeMessage (chars_of "order 9999999 failed") = chars_of "order <num> failed" /\
  NormalizeMessage (chars_of "order 99999999 failed") = chars_of "order <hex> failed".
Proof. vm_compute. done. Qed.

Definition timeout_input (d vd : string) : Input :=
  mkFpInput [] [mkException "Timeout" (with_number (chars_of "after") (chars_of vd) (chars_of "ms")) []] (with_number (chars_of "job") (chars_of d) (chars_of "late")).


(** ** Examples *)

Example sha1_abc : hash (chars_of "abc") = "a9993e364706816aba3e25717850c26c9cd0d89d".
Proof. vm_compute. reflexivity. Qed.
Example normalize_ex : text (NormalizeMessage (chars_of "user 42 of 0xFFee at deadbeef12 v2 id 123e4567-e89b-12d3-a456-426614174000 x1234567890abcdefg")) =
  "user <num> of <hex> at <hex> v2 id <uuid> x1234567890abcdefg".
Proof. vm_compute. reflexivity. Qed.
