(* ===== verification/Issue.v ===== *)
(** Issues: groups of events with one fingerprint: [internal/issue].

    issue.go counts an event into its issue; query.go lists, filters, exports
    and edits issues.  A filter is the predicate its SQL condition denotes;
    [LIKE] patterns are matched rune by rune, and the case folding of the
    database is the parameter [Collation]. *)
From stdpp Require Import base tactics list gmap strings sorting relations.
From Stdlib Require Import ZArith Lia Ascii.
From coqutil Require Import Datatypes.RecordSetters.
From S2P Require Import Prelude.
From S2P Require Import GoString.
From S2P Require Import Runes.
From S2P Require Import Prog.
From S2P Require Import Environment.

Import RecordSetters.TriangleBracketNotations.
Open Scope Z_scope.
Open Scope go_scope.

(** ** Data *)

Record Issue := mkIssue {
  is_ID : Z; is_ProjectID : Z; is_Fingerprint : string; is_Title : string; is_Culprit : string; is_Level : string;
  is_Status : string; FirstSeen : Z; LastSeen : Z; is_TimesSeen : Z; AssigneeID : option Z }.

Record UpsertResult := mkUpsert { up_IssueID : Z; New : bool; Regression : bool }.

(** [issues] under [UNIQUE (project_id, fingerprint)], [issue_environments]
    with the project of each row, and the users' addresses. *)
Record IssueTables := mkIssueTables {
  issues : gmap Z Issue; next_issue : Z; issue_environments : gmap (Z * string) Z; user_email : gmap Z string }.

Inductive issue_error := ErrIssueNotFound | ErrInvalidStatus | ErrExportSnapshotTooLarge | ErrIssueSQL | ErrCallback.

Definition StatusUnresolved : string := "unresolved".
Definition StatusResolved : string := "resolved".
Definition StatusIgnored : string := "ignored".
Definition Statuses : list string := [StatusUnresolved; StatusResolved; StatusIgnored].
Definition IsValidStatus (v : string) : bool := existsb (String.eqb v) Statuses.

Definition Levels : list string := ["debug"; "info"; "warning"; "error"; "fatal"].
Definition IsValidLevel (v : string) : bool := existsb (String.eqb v) Levels.

(** ** Counting an event *)

Definition find_issue (projectID : Z) (fingerprint : string) (t : IssueTables) : option Issue :=
  match List.filter (fun '(_, i) => (is_ProjectID i =? projectID) && String.eqb (is_Fingerprint i) fingerprint) (map_to_list (issues t)) with
  | (_, i) :: _ => Some i
  | [] => None
  end.

(** [WITH old]: what the statement saw when it began. *)
Definition old_status (projectID : Z) (fingerprint : string) (t : IssueTables) : option string :=
  is_Status <$> find_issue projectID fingerprint t.

(** [DO UPDATE SET ...] *)
Definition seen_again (title culprit level : string) (seenAt : Z) (i : Issue) : Issue :=
  mkIssue (is_ID i) (is_ProjectID i) (is_Fingerprint i) title culprit level
    (if String.eqb (is_Status i) StatusResolved then StatusUnresolved else is_Status i)
    (FirstSeen i) (Z.max (LastSeen i) seenAt) (is_TimesSeen i + 1) (AssigneeID i).

(** [ON CONFLICT (issue_id, environment) DO NOTHING] *)
Definition insert_env (id projectID : Z) (environment : string) (envs : gmap (Z * string) Z) : gmap (Z * string) Z :=
  if String.eqb environment "" then envs
  else match envs !! (id, environment) with Some _ => envs | None => <[(id, environment) := projectID]> envs end.

Definition upsert_row (projectID : Z) (fingerprint title culprit level environment : string) (seenAt : Z) (t : IssueTables) : Z * IssueTables :=
  let '(id, issues', next) :=
    match find_issue projectID fingerprint t with
    | Some i => (is_ID i, <[is_ID i := seen_again title culprit level seenAt i]> (issues t), next_issue t)
    | None => (next_issue t,
               <[next_issue t := mkIssue (next_issue t) projectID fingerprint title culprit level StatusUnresolved seenAt seenAt 1 None]> (issues t),
               next_issue t + 1)
    end in
  (id, mkIssueTables issues' next (insert_env id projectID environment (issue_environments t)) (user_email t)).

Section service.
Context {D : Type} `{Has IssueTables D}.

(** One statement, whose query of the old row reads the snapshot it began
    with, while its upsert works on the newest row. *)
Definition Upsert (projectID : Z) (fingerprint title culprit level environment : string) (seenAt : Z) : prog D (result issue_error UpsertResult) :=
  tryE: old ← ask ErrIssueSQL (fun d => old_status projectID fingerprint (get d)) catch e => mret (Err e);
  tryE: id ← call ErrIssueSQL (on (upsert_row projectID fingerprint title culprit level environment seenAt)) catch e => mret (Err e);
  mret (Ok (mkUpsert id (is_nil old) (bool_decide (old = Some StatusResolved)))).

(** [LEFT JOIN users]: an issue with the address of its assignee. *)
Definition joined : Type := Issue * string.
Definition join_assignee (t : IssueTables) (i : Issue) : joined :=
  (i, match AssigneeID i with Some u => default "" (user_email t !! u) | None => "" end).

Definition Get (issueID : Z) : prog D (result issue_error joined) :=
  tryE: found ← ask ErrIssueSQL (fun d => join_assignee (get d) <$> issues (get d) !! issueID) catch e => mret (Err e);
  mret (match found with Some i => Ok i | None => Err ErrIssueNotFound end).

Definition Exists (projectID : Z) : prog D (result issue_error bool) :=
  ask ErrIssueSQL (fun d => existsb (fun '(_, i) => is_ProjectID i =? projectID) (map_to_list (issues (get d)))).

(** ** Editing *)

(** [UPDATE issues ... WHERE]: the rows affected. *)
Definition update_issues (where_ : Issue -> bool) (f : Issue -> Issue) (t : IssueTables) : Z * IssueTables :=
  (Z.of_nat (length (List.filter (fun '(_, i) => where_ i) (map_to_list (issues t)))),
   t <| issues := (fun i => if where_ i then f i else i) <$> issues t |>).

Definition set_status (status : string) (i : Issue) : Issue := i <| is_Status := status |>.

Definition SetStatus (issueID : Z) (status : string) : prog D (result issue_error ()) :=
  if negb (IsValidStatus status) then mret (Err ErrInvalidStatus) else
  tryE: n ← call ErrIssueSQL (on (update_issues (fun i => is_ID i =? issueID) (set_status status))) catch e => mret (Err e);
  mret (if n =? 0 then Err ErrIssueNotFound else Ok tt).

Definition SetStatusBulk (projectID : Z) (ids : list Z) (status : string) : prog D (result issue_error Z) :=
  if negb (IsValidStatus status) then mret (Err ErrInvalidStatus) else
  call ErrIssueSQL (on (update_issues (fun i => (is_ProjectID i =? projectID) && existsb (Z.eqb (is_ID i)) ids) (set_status status))).

Definition Assign (issueID : Z) (userID : option Z) : prog D (result issue_error ()) :=
  tryE: n ← call ErrIssueSQL (on (update_issues (fun i => is_ID i =? issueID) (fun i => i <| AssigneeID := userID |>))) catch e => mret (Err e);
  mret (if n =? 0 then Err ErrIssueNotFound else Ok tt).
End service.

(** ** Filters *)

Record Filter := mkFilter {
  fl_Status : string; fl_Level : string; fl_Query : string; fl_Sort : string; fl_Environment : string;
  Since : option Z; Until : option Z; Page : Z; PerPage : Z }.

Inductive like_token := Lit (r : Z) | Any | One.

(** A [LIKE] pattern with its escapes; one may not end it. *)
Fixpoint like_tokens (p : list Z) : list like_token :=
  match p with
  | [] => []
  | c :: p =>
      if c =? 92 then match p with d :: p => Lit d :: like_tokens p | [] => [] end
      else (if c =? 37 then Any else if c =? 95 then One else Lit c) :: like_tokens p
  end.

Fixpoint like (p : list like_token) : list Z -> bool :=
  match p with
  | [] => fun s => match s with [] => true | _ => false end
  | Lit c :: p => fun s => match s with d :: s => (c =? d) && like p s | [] => false end
  | One :: p => fun s => match s with _ :: s => like p s | [] => false end
  | Any :: p => fix any s := like p s || match s with _ :: s => any s | [] => false end
  end.

(** [strings.NewReplacer] of the three special characters. *)
Definition is_like_special (c : ascii) : bool := existsb (Ascii.eqb c) ["\"; "%"; "_"]%char.
Definition escape_like (q : chars) : chars := flat_map (fun c => if is_like_special c then ["\"%char; c] else [c]) q.

(** Folding of case, one rune to one. *)
Class Collation := { fold : Z -> Z }.

Section filter.
Context `{Collation}.

Definition ilike (s pattern : chars) : bool := like (like_tokens (map fold (runes pattern))) (map fold (runes s)).

Definition search_pattern (query : string) : chars := "%"%char :: escape_like (chars_of query) ++ ["%"%char].

(** The condition [buildIssueFilter] writes. *)
Definition buildIssueFilter (projectID : Z) (f : Filter) (t : IssueTables) (i : Issue) : bool :=
  let when b c := if b : bool then c else true in
  (is_ProjectID i =? projectID)
  && when (negb (String.eqb (fl_Status f) "")) (String.eqb (is_Status i) (fl_Status f))
  && when (negb (String.eqb (fl_Level f) "")) (String.eqb (is_Level i) (fl_Level f))
  && when (negb (String.eqb (fl_Query f) ""))
       (let p := search_pattern (fl_Query f) in ilike (chars_of (is_Title i)) p || ilike (chars_of (is_Culprit i)) p)
  && when (negb (String.eqb (fl_Environment f) "")) (negb (is_nil (issue_environments t !! (is_ID i, fl_Environment f))))
  && match Since f with Some s => s <=? LastSeen i | None => true end
  && match Until f with Some u => LastSeen i <? u | None => true end.

(** [ORDER BY last_seen DESC, id DESC] *)
Definition newer (a b : Issue) : Prop := LastSeen b < LastSeen a \/ LastSeen b = LastSeen a /\ is_ID b <= is_ID a.
#[export] Instance newer_dec a b : Decision (newer a b).
Proof. unfold newer. apply _. Defined.

Definition matching (projectID : Z) (f : Filter) (t : IssueTables) : list Issue :=
  List.filter (buildIssueFilter projectID f t) (map snd (map_to_list (issues t))).

Definition newest_ids (projectID : Z) (f : Filter) (limit : nat) (t : IssueTables) : list Z :=
  map is_ID (take limit (merge_sort newer (matching projectID f t))).

(** ** Lists *)

Definition DefaultPerPage : Z := 25.
Definition maxPerPage : Z := 100.
Definition exportPageSize : nat := 500.

(** [sortColumns]: descending, and ties in whatever order the server likes. *)
Definition sort_key (sort : string) (i : Issue) : Z :=
  if String.eqb sort "first_seen" then FirstSeen i else if String.eqb sort "times_seen" then is_TimesSeen i else LastSeen i.
Definition ordered_by (sort : string) (l : list Issue) : Prop := StronglySorted (fun a b => sort_key sort b <= sort_key sort a) l.

Section queries.
Context {D : Type} `{Has IssueTables D}.
(** [ORDER BY] one column: ties come in an order of the server's; and the
    order of text under the collation of the database. *)
Context (server_order : string -> list Issue -> list Issue) (text_order : list string -> list string).

Definition List_ (projectID : Z) (f : Filter) : prog D (result issue_error (list joined * Z)) :=
  let page := if Page f <? 1 then 1 else Page f in
  let perPage := if PerPage f <=? 0 then DefaultPerPage else PerPage f in
  let perPage := if maxPerPage <? perPage then maxPerPage else perPage in
  let offset := (page - 1) * perPage in
  tryE: total ← ask ErrIssueSQL (fun d => Z.of_nat (length (matching projectID f (get d)))) catch e => mret (Err e);
  if total <=? offset then mret (Ok ([], 0)) else
  tryE: items ← ask ErrIssueSQL (fun d =>
    map (join_assignee (get d)) (take (Z.to_nat perPage) (drop (Z.to_nat offset) (server_order (fl_Sort f) (matching projectID f (get d)))))) catch e => mret (Err e);
  mret (Ok (items, total)).

Definition IDsForFilter (projectID : Z) (f : Filter) (limit : nat) : prog D (result issue_error (list Z * bool)) :=
  tryE: ids ← ask ErrIssueSQL (fun d => newest_ids projectID f (S limit) (get d)) catch e => mret (Err e);
  mret (Ok (if (limit <? length ids)%nat then (take limit ids, true) else (ids, false))).

Definition ActiveSince (projectID since : Z) : prog D (result issue_error (list Issue)) :=
  ask ErrIssueSQL (fun d => server_order "last_seen"
    (List.filter (fun i => (is_ProjectID i =? projectID) && (since <=? LastSeen i)) (map snd (map_to_list (issues (get d)))))).

Definition CountNewSince (projectID since : Z) : prog D (result issue_error Z) :=
  ask ErrIssueSQL (fun d => Z.of_nat (length
    (List.filter (fun i => (is_ProjectID i =? projectID) && (since <=? FirstSeen i)) (map snd (map_to_list (issues (get d))))))).

Definition ByIDs (projectID : Z) (ids : list Z) : prog D (result issue_error (list Issue)) :=
  if (length ids =? 0)%nat then mret (Ok []) else
  ask ErrIssueSQL (fun d => server_order "last_seen"
    (List.filter (fun i => (is_ProjectID i =? projectID) && existsb (Z.eqb (is_ID i)) ids) (map snd (map_to_list (issues (get d)))))).

(** ** Export *)

(** Pairs of the primary key: no environment twice. *)
Definition environments_of (t : IssueTables) (id : Z) : list string :=
  text_order (map (fun '(k, _) => k.2) (List.filter (fun '(k, _) => k.1 =? id) (map_to_list (issue_environments t)))).

Definition Environments (projectID : Z) : prog D (result issue_error (list string)) :=
  ask ErrIssueSQL (fun d => text_order (remove_dups (map (fun '(k, _) => k.2)
    (List.filter (fun '(_, p) => p =? projectID) (map_to_list (issue_environments (get d))))))).

(** An exported issue with its environments. *)
Definition exported : Type := joined * list string.

(** The rows of one page, in the order of the snapshot. *)
Definition page_rows (projectID : Z) (page : list Z) (t : IssueTables) : list joined :=
  omap (fun id => match issues t !! id with Some i => if is_ProjectID i =? projectID then Some (join_assignee t i) else None | None => None end) page.

(** [fn] on each row of a page; it may refuse. *)
Fixpoint emit (fn : exported -> prog D (result issue_error ())) (rows : list exported) : prog D (result issue_error ()) :=
  match rows with
  | [] => mret (Ok tt)
  | row :: rows => tryE: _x ← fn row catch e => mret (Err e); emit fn rows
  end.

Definition export_page (projectID : Z) (page : list Z) (fn : exported -> prog D (result issue_error ())) : prog D (result issue_error ()) :=
  tryE: rows ← ask ErrIssueSQL (fun d => page_rows projectID page (get d)) catch e => mret (Err e);
  tryE: envs ← (if (length rows =? 0)%nat then mret (Ok (fun _ => [])) else ask ErrIssueSQL (fun d => environments_of (get d))) catch e => mret (Err e);
  emit fn (map (fun it => (it, envs (is_ID it.1))) rows).

Fixpoint export_pages (fuel : nat) (projectID : Z) (ids : list Z) (fn : exported -> prog D (result issue_error ())) : prog D (result issue_error ()) :=
  match fuel, ids with
  | S fuel, _ :: _ =>
      tryE: _x ← export_page projectID (take exportPageSize ids) fn catch e => mret (Err e);
      export_pages fuel projectID (drop exportPageSize ids) fn
  | _, _ => mret (Ok tt)
  end.

Definition streamForExport (projectID : Z) (f : Filter) (snapshotLimit : nat) (fn : exported -> prog D (result issue_error ())) : prog D (result issue_error ()) :=
  tryE: ids ← ask ErrIssueSQL (fun d => newest_ids projectID f (S snapshotLimit) (get d)) catch e => mret (Err e);
  if (snapshotLimit <? length ids)%nat then mret (Err ErrExportSnapshotTooLarge)
  else export_pages (length ids) projectID ids fn.
End queries.
End filter.

(** ** One row per fingerprint *)

Definition same_issue (projectID : Z) (fingerprint : string) (i : Issue) : bool :=
  (is_ProjectID i =? projectID) && String.eqb (is_Fingerprint i) fingerprint.

Lemma same_issue_true p fp i : same_issue p fp i = true <-> is_ProjectID i = p /\ is_Fingerprint i = fp.
Proof. unfold same_issue. rewrite andb_true_iff, Z.eqb_eq, String.eqb_eq. done. Qed.

Record issues_wf (t : IssueTables) : Prop := {
  wf_key k i : issues t !! k = Some i -> is_ID i = k /\ k < next_issue t;
  wf_one k k' i i' : issues t !! k = Some i -> issues t !! k' = Some i' ->
    is_ProjectID i = is_ProjectID i' -> is_Fingerprint i = is_Fingerprint i' -> k = k' }.

Lemma find_issue_found p fp t i :
  find_issue p fp t = Some i -> issues t !! is_ID i = Some i \/ exists k, issues t !! k = Some i.
Proof.
  unfold find_issue. destruct (List.filter _ _) as [|[k j] l] eqn:Hl; [done|]. intros [= ->]. right. exists k.
  assert (In (k, i) ((k, i) :: l)) as Hin by by left. rewrite <- Hl in Hin. apply filter_In in Hin as [Hin _].
  by apply elem_of_map_to_list, list_elem_of_In.
Qed.

Lemma find_issue_spec p fp t i : issues_wf t ->
  find_issue p fp t = Some i <-> issues t !! is_ID i = Some i /\ same_issue p fp i = true.
Proof.
  intros Hwf. unfold find_issue. change (fun '(_, i) => _) with (fun kv : Z * Issue => let '(_, i) := kv in same_issue p fp i).
  destruct (List.filter _ _) as [|[k j] l] eqn:Hl.
  - split; [done|]. intros [Hi Hs]. exfalso.
    assert (In (is_ID i, i) []) as []. rewrite <- Hl. apply filter_In. split; [|done]. by apply list_elem_of_In, elem_of_map_to_list.
  - assert (In (k, j) ((k, j) :: l)) as Hin by by left. rewrite <- Hl in Hin. apply filter_In in Hin as [Hin Hj].
    apply list_elem_of_In, elem_of_map_to_list in Hin. destruct (wf_key t Hwf k j Hin) as [Hk _]. split.
    + intros [= <-]. by rewrite Hk.
    + intros [Hi Hs]. f_equal. apply same_issue_true in Hj as [Hj1 Hj2]. apply same_issue_true in Hs as [Hs1 Hs2].
      assert (k = is_ID i) as -> by (eapply (wf_one t Hwf); [done..| |]; congruence). congruence.
Qed.

Lemma find_issue_none p fp t : issues_wf t ->
  find_issue p fp t = None <-> forall k i, issues t !! k = Some i -> same_issue p fp i = false.
Proof.
  intros Hwf. split.
  - intros Hn k i Hi. destruct (same_issue p fp i) eqn:Hs; [|done]. destruct (wf_key t Hwf k i Hi) as [Hk _].
    assert (find_issue p fp t = Some i) as Hf by (apply find_issue_spec; by rewrite ?Hk). by rewrite Hn in Hf.
  - intros Hno. destruct (find_issue p fp t) as [i|] eqn:Hf; [|done]. apply find_issue_spec in Hf as [Hi Hs]; [|done].
    by rewrite (Hno _ _ Hi) in Hs.
Qed.

(** The row a statement leaves. *)
Definition counted (projectID : Z) (fingerprint title culprit level : string) (seenAt : Z) (next : Z) (old : option Issue) : Issue :=
  match old with
  | Some i => seen_again title culprit level seenAt i
  | None => mkIssue next projectID fingerprint title culprit level StatusUnresolved seenAt seenAt 1 None
  end.

Lemma same_seen_again p fp title culprit level seenAt i :
  same_issue p fp (seen_again title culprit level seenAt i) = same_issue p fp i.
Proof. done. Qed.

Lemma upsert_row_issues p fp title culprit level env at_ t : issues_wf t ->
  let '(id, t') := upsert_row p fp title culprit level env at_ t in
  issues t' = <[id := counted p fp title culprit level at_ (next_issue t) (find_issue p fp t)]> (issues t) /\
  id = is_ID (counted p fp title culprit level at_ (next_issue t) (find_issue p fp t)) /\
  next_issue t <= next_issue t' /\ id < next_issue t' /\
  same_issue p fp (counted p fp title culprit level at_ (next_issue t) (find_issue p fp t)) = true.
Proof.
  intros Hwf. unfold upsert_row. destruct (find_issue p fp t) as [i|] eqn:Hf; simpl.
  - apply find_issue_spec in Hf as [Hi Hs]; [|done]. destruct (wf_key t Hwf _ i Hi) as [_ ?]. split_and!; try done; lia.
  - split_and!; try done; try lia. unfold same_issue. simpl. by rewrite Z.eqb_refl, String.eqb_refl.
Qed.

Lemma upsert_row_wf p fp title culprit level env at_ t :
  issues_wf t -> issues_wf (upsert_row p fp title culprit level env at_ t).2.
Proof.
  intros Hwf. pose proof (upsert_row_issues p fp title culprit level env at_ t Hwf) as H.
  destruct (upsert_row p fp title culprit level env at_ t) as [id t']. destruct H as (Hi & Hid & Hn & Hlt & Hs). simpl.
  apply same_issue_true in Hs as [Hs1 Hs2].
  assert (forall k i, issues t !! k = Some i -> is_ProjectID i = p -> is_Fingerprint i = fp -> k = id) as Hone.
  { intros k i Hk Hp Hfp. destruct (wf_key t Hwf k i Hk) as [Hkey _].
    assert (find_issue p fp t = Some i) as Hf by (apply find_issue_spec; [done|]; rewrite Hkey; split; [done|by apply same_issue_true]).
    rewrite Hf in Hid. rewrite Hid. simpl. done. }
  split.
  - intros k i. rewrite Hi. intros [[-> <-]|[_ Hk]]%lookup_insert_Some; [done|]. destruct (wf_key t Hwf k i Hk). split; [done|lia].
  - intros k k' i i'. rewrite Hi. intros [[<- <-]|[Hne Hk]]%lookup_insert_Some [[<- <-]|[Hne' Hk']]%lookup_insert_Some Hp Hfp; [done| | |].
    + symmetry. apply (Hone k' i'); congruence.
    + apply (Hone k i); congruence.
    + by apply (wf_one t Hwf k k' i i').
Qed.

(** Where a fingerprint is found after an event. *)
Lemma find_upsert_row p fp title culprit level env at_ p' fp' t : issues_wf t ->
  find_issue p' fp' (upsert_row p fp title culprit level env at_ t).2 =
  if (p =? p') && String.eqb fp fp' then Some (counted p fp title culprit level at_ (next_issue t) (find_issue p fp t))
  else find_issue p' fp' t.
Proof.
  intros Hwf. pose proof (upsert_row_wf p fp title culprit level env at_ t Hwf) as Hwf'.
  pose proof (upsert_row_issues p fp title culprit level env at_ t Hwf) as H.
  destruct (upsert_row p fp title culprit level env at_ t) as [id t']. destruct H as (Hi & Hid & Hn & Hlt & Hs). simpl in *.
  destruct (_ && _) eqn:Hsame.
  - apply andb_prop in Hsame as [->%Z.eqb_eq ->%String.eqb_eq]. apply find_issue_spec; [done|]. split; [|done].
    rewrite Hi, <- Hid. apply lookup_insert_eq.
  - assert (same_issue p' fp' (counted p fp title culprit level at_ (next_issue t) (find_issue p fp t)) = false) as Hother.
    { apply not_true_is_false. intros [H1 H2]%same_issue_true. apply same_issue_true in Hs as [H3 H4].
      apply not_true_iff_false in Hsame. apply Hsame. apply andb_true_iff. rewrite Z.eqb_eq, String.eqb_eq. split; congruence. }
    destruct (find_issue p' fp' t) as [i|] eqn:Hf.
    + apply find_issue_spec in Hf as [Hk Hsi]; [|done]. apply find_issue_spec; [done|]. split; [|done].
      rewrite Hi. apply lookup_insert_Some. right. split; [|done]. intros Heq.
      assert (find_issue p fp t = None \/ exists j, find_issue p fp t = Some j) as [Hnone|[j Hj]] by (destruct (find_issue p fp t); eauto).
      * rewrite Hnone in Hid. simpl in Hid. pose proof (wf_key t Hwf _ _ Hk). lia.
      * rewrite Hj in Hid, Hother. simpl in Hid, Hother. apply find_issue_spec in Hj as [Hj _]; [|done].
        rewrite same_seen_again in Hother. assert (i = j) by congruence. congruence.
    + apply find_issue_none; [done|]. intros k i. rewrite Hi. intros [[_ <-]|[_ Hk]]%lookup_insert_Some; [done|].
      by apply (proj1 (find_issue_none p' fp' t Hwf) Hf k i).
Qed.

(** ** A history of events and edits *)

Record sighting := mkSighting { sg_Title : string; sg_Culprit : string; sg_Level : string; sg_Environment : string; sg_At : Z }.

Inductive issue_op :=
| OpEvent (projectID : Z) (fingerprint : string) (s : sighting)
| OpStatus (issueID : Z) (status : string)
| OpBulk (projectID : Z) (ids : list Z) (status : string)
| OpAssign (issueID : Z) (userID : option Z).

Definition perform (op : issue_op) : prog IssueTables (option UpsertResult) :=
  match op with
  | OpEvent p fp s =>
      tryE: r ← Upsert p fp (sg_Title s) (sg_Culprit s) (sg_Level s) (sg_Environment s) (sg_At s) catch _e => mret None;
      mret (Some r)
  | OpStatus id status => mbind (fun _ => mret None) (SetStatus id status)
  | OpBulk p ids status => mbind (fun _ => mret None) (SetStatusBulk p ids status)
  | OpAssign id user => mbind (fun _ => mret None) (Assign id user)
  end.

Definition no_issues : IssueTables := mkIssueTables ∅ 1 ∅ ∅.

(** The operations in order, and what each returned. *)
Definition issue_history (ops : list issue_op) : list (issue_op * option UpsertResult) * IssueTables :=
  foldl (fun '(rs, t) op => let '(r, t') := exec0 (perform op) t in (rs ++ [(op, r)], t')) ([], no_issues) ops.

Definition sightings (projectID : Z) (fingerprint : string) (ops : list issue_op) : list sighting :=
  omap (fun op => match op with
                  | OpEvent p fp s => if (p =? projectID) && String.eqb fp fingerprint then Some s else None
                  | _ => None
                  end) ops.

(** What [New] told the callers that counted this fingerprint. *)
Definition told_new (projectID : Z) (fingerprint : string) (rs : list (issue_op * option UpsertResult)) : list bool :=
  omap (fun '(op, r) => match op, r with
                        | OpEvent p fp _, Some r => if (p =? projectID) && String.eqb fp fingerprint then Some (New r) else None
                        | _, _ => None
                        end) rs.

(** The issue of the sightings [l]. *)
Definition tallies (projectID : Z) (l : list sighting) (o : option Issue) (t : IssueTables) : Prop :=
  match l with
  | [] => o = None
  | s :: l' =>
      exists i, o = Some i /\ is_TimesSeen i = Z.of_nat (length l) /\ FirstSeen i = sg_At s /\
        LastSeen i = foldl Z.max (sg_At s) (map sg_At l') /\
        (exists s', last l = Some s' /\ is_Title i = sg_Title s' /\ is_Culprit i = sg_Culprit s' /\ is_Level i = sg_Level s') /\
        forall s', s' ∈ l -> sg_Environment s' <> ""%string -> is_Some (issue_environments t !! (is_ID i, sg_Environment s'))
  end.

Lemma update_issues_find p fp where_ f t : issues_wf t ->
  (forall i, is_ID (f i) = is_ID i /\ is_ProjectID (f i) = is_ProjectID i /\ is_Fingerprint (f i) = is_Fingerprint i) ->
  let t' := (update_issues where_ f t).2 in
  issues_wf t' /\ issue_environments t' = issue_environments t /\
  find_issue p fp t' = (fun i => if where_ i then f i else i) <$> find_issue p fp t.
Proof.
  intros Hwf Hf. simpl. set (g := fun i : Issue => if where_ i then f i else i).
  assert (forall i, is_ID (g i) = is_ID i /\ is_ProjectID (g i) = is_ProjectID i /\ is_Fingerprint (g i) = is_Fingerprint i) as Hg.
  { intros i. unfold g. by destruct (where_ i). }
  clearbody g. clear Hf.
  set (t' := t <| issues := g <$> issues t |>). change (issues_wf t' /\ issue_environments t' = issue_environments t /\ find_issue p fp t' = g <$> find_issue p fp t).
  assert (issues t' = g <$> issues t) as Hi by done. assert (next_issue t' = next_issue t) as Hn by done.
  assert (issue_environments t' = issue_environments t) as He by done. clearbody t'.
  assert (issues_wf t') as Hwf'.
  { split.
    - intros k i. rewrite Hi, lookup_fmap, fmap_Some, Hn. intros (j & Hk & ->). destruct (Hg j) as (-> & _). by apply (wf_key t Hwf).
    - intros k k' i i'. rewrite Hi, !lookup_fmap, !fmap_Some. intros (j & Hk & ->) (j' & Hk' & ->).
      destruct (Hg j) as (_ & -> & ->), (Hg j') as (_ & -> & ->). by apply (wf_one t Hwf). }
  split_and!; [done..|]. destruct (find_issue p fp t) as [i|] eqn:Hfi; simpl.
  - apply find_issue_spec in Hfi as [Hk Hs]; [|done]. apply find_issue_spec; [done|]. destruct (Hg i) as (-> & Hp & Hfp).
    rewrite Hi, lookup_fmap, Hk. split; [done|]. apply same_issue_true. rewrite Hp, Hfp. by apply same_issue_true.
  - apply find_issue_none; [done|]. intros k i. rewrite Hi, lookup_fmap, fmap_Some. intros (j & Hk & ->).
    pose proof (proj1 (find_issue_none p fp t Hwf) Hfi k j Hk) as Hno. unfold same_issue in *. by destruct (Hg j) as (_ & -> & ->).
Qed.

Lemma tallies_kept p l (o : option Issue) (t t' : IssueTables) (g : Issue -> Issue) :
  (forall i, is_ID (g i) = is_ID i /\ is_TimesSeen (g i) = is_TimesSeen i /\ FirstSeen (g i) = FirstSeen i /\ LastSeen (g i) = LastSeen i /\
     is_Title (g i) = is_Title i /\ is_Culprit (g i) = is_Culprit i /\ is_Level (g i) = is_Level i) ->
  (forall k, is_Some (issue_environments t !! k) -> is_Some (issue_environments t' !! k)) ->
  tallies p l o t -> tallies p l (g <$> o) t'.
Proof.
  intros Hg He. destruct l as [|s l]; simpl; [by intros ->|].
  intros (i & -> & H1 & H2 & H3 & H4 & H5). exists (g i). destruct (Hg i) as (G1 & G2 & G3 & G4 & G5 & G6 & G7).
  rewrite G1, G2, G3, G4, G5, G6, G7. split_and!; eauto.
Qed.


(** The rows an edit changes, and how. *)
Definition edit_of (op : issue_op) : option ((Issue -> bool) * (Issue -> Issue)) :=
  match op with
  | OpEvent _ _ _ => None
  | OpStatus id st => if IsValidStatus st then Some (fun i => is_ID i =? id, set_status st) else None
  | OpBulk p ids st => if IsValidStatus st then Some (fun i => (is_ProjectID i =? p) && existsb (Z.eqb (is_ID i)) ids, set_status st) else None
  | OpAssign id u => Some (fun i => is_ID i =? id, fun i => i <| AssigneeID := u |>)
  end.

Lemma perform_edit op t : match op with OpEvent _ _ _ => False | _ => True end ->
  exec0 (perform op) t = (None, match edit_of op with Some (w, f) => (update_issues w f t).2 | None => t end).
Proof.
  intros Hop. destruct op as [|id st|p ids st|id u]; [done|..]; cbn [perform edit_of]; autorewrite with exec0;
    unfold SetStatus, SetStatusBulk, Assign; try (destruct (IsValidStatus st) eqn:Hst; cbn [negb]; [|done]);
    autorewrite with exec0; cbn [fst snd]; autorewrite with exec0; done.
Qed.

Definition counters_kept (g : Issue -> Issue) : Prop := forall i,
  is_ID (g i) = is_ID i /\ is_ProjectID (g i) = is_ProjectID i /\ is_Fingerprint (g i) = is_Fingerprint i /\
  is_TimesSeen (g i) = is_TimesSeen i /\ FirstSeen (g i) = FirstSeen i /\ LastSeen (g i) = LastSeen i /\
  is_Title (g i) = is_Title i /\ is_Culprit (g i) = is_Culprit i /\ is_Level (g i) = is_Level i.

Lemma edit_of_kept op w f : edit_of op = Some (w, f) -> counters_kept f.
Proof. destruct op as [|id st|p ids st|id u]; simpl; [done|..]; try destruct (IsValidStatus st); intros [= <- <-]; by repeat split. Qed.

Lemma Upsert_alone p fp s t :
  exec0 (perform (OpEvent p fp s)) t =
  let '(id, t') := upsert_row p fp (sg_Title s) (sg_Culprit s) (sg_Level s) (sg_Environment s) (sg_At s) t in
  (Some (mkUpsert id (is_nil (old_status p fp t)) (bool_decide (old_status p fp t = Some StatusResolved))), t').
Proof.
  cbn [perform]. unfold Upsert. autorewrite with exec0. cbn [fst snd]. autorewrite with exec0.
  cbn [fst snd]. unfold on. cbn [get put has_self]. by destruct (upsert_row _ _ _ _ _ _ _ t).
Qed.

Lemma upsert_row_envs p fp title culprit level env at_ t k :
  let '(id, t') := upsert_row p fp title culprit level env at_ t in
  (is_Some (issue_environments t !! k) -> is_Some (issue_environments t' !! k)) /\
  (env <> ""%string -> is_Some (issue_environments t' !! (id, env))).
Proof.
  unfold upsert_row. destruct (match find_issue p fp t with Some _ => _ | None => _ end) as [[id iss] nx]. simpl. unfold insert_env.
  destruct (String.eqb_spec env "") as [He|He]; [done|]. destruct (issue_environments t !! (id, env)) eqn:Hl; simpl.
  - split; [done|]. intros _. by rewrite Hl.
  - split; intros Hk.
    + destruct (decide ((id, env) = k)) as [<-|Hne]; [rewrite lookup_insert_eq; eauto|by rewrite lookup_insert_ne].
    + rewrite lookup_insert_eq. eauto.
Qed.

Lemma tallies_counted p l o t t' fp s :
  (forall k, is_Some (issue_environments t !! k) -> is_Some (issue_environments t' !! k)) ->
  let i' := counted p fp (sg_Title s) (sg_Culprit s) (sg_Level s) (sg_At s) (next_issue t) o in
  (sg_Environment s <> ""%string -> is_Some (issue_environments t' !! (is_ID i', sg_Environment s))) ->
  tallies p l o t -> tallies p (l ++ [s]) (Some i') t'.
Proof.
  intros He i' Hnew Hl. subst i'. destruct l as [|s0 l]; simpl in *.
  - subst o. eexists. split; [done|]. split_and!; try done; [by exists s|]. intros s' Hs'%list_elem_of_singleton. subst s'. exact Hnew.
  - destruct Hl as (i & -> & H1 & H2 & H3 & H4 & H5). simpl in *. eexists. split; [done|]. simpl.
    split_and!; [|done| | |].
    + rewrite length_app. simpl in *. lia.
    + by rewrite map_app, foldl_app, H3.
    + exists s. change (s0 :: l ++ [s]) with ((s0 :: l) ++ [s]). by rewrite last_snoc.
    + intros s' Hs' Hne. change (s0 :: l ++ [s]) with ((s0 :: l) ++ [s]) in Hs'.
      apply elem_of_app in Hs' as [Hs'|Hs'%list_elem_of_singleton]; [by apply He, H5|]. subst s'. by apply Hnew.
Qed.

Lemma sightings_snoc p fp ops op : sightings p fp (ops ++ [op]) = sightings p fp ops ++ sightings p fp [op].
Proof. apply omap_app. Qed.
Lemma told_new_snoc p fp rs r : told_new p fp (rs ++ [r]) = told_new p fp rs ++ told_new p fp [r].
Proof. apply omap_app. Qed.

Lemma history_snoc ops op :
  issue_history (ops ++ [op]) =
  ((issue_history ops).1 ++ [(op, (exec0 (perform op) (issue_history ops).2).1)], (exec0 (perform op) (issue_history ops).2).2).
Proof.
  unfold issue_history. rewrite foldl_app. simpl. destruct (foldl _ _ ops) as [rs t]. simpl. by destruct (exec0 (perform op) t).
Qed.

(** What [New] has told after [n] events. *)
Definition new_once (n : nat) : list bool := match n with O => [] | S n => true :: replicate n false end.

Lemma new_once_snoc n : new_once (S n) = new_once n ++ [(n =? 0)%nat].
Proof. destruct n as [|n]; [done|]. simpl. f_equal. by rewrite replicate_cons_app. Qed.

(** C13: After any sequence of events and edits each fingerprint seen in a
    project has exactly one issue, which counted every sighting, and [New]
    was told to the caller of the first one only. *)
Theorem issues_count_events (ops : list issue_op) :
  let '(rs, t) := issue_history ops in
  issues_wf t /\ forall p fp,
    tallies p (sightings p fp ops) (find_issue p fp t) t /\
    told_new p fp rs = new_once (length (sightings p fp ops)).
Proof.
  destruct (issue_history ops) as [rs t] eqn:Hh. revert rs t Hh. induction ops as [|op ops IH] using rev_ind; intros rs t Hh.
  { injection Hh as <- <-. split; [by split; [intros k i|intros k k' i i']; cbn [issues no_issues]; rewrite lookup_empty|]. intros p fp. by split. }
  rewrite history_snoc in Hh. destruct (issue_history ops) as [rs0 t0] eqn:Hh0. destruct (IH _ _ eq_refl) as [Hwf Hall]. clear IH. simpl in Hh.
  injection Hh as <- <-. destruct (match op with OpEvent _ _ _ => false | _ => true end) eqn:Hedit.
  - assert (match op with OpEvent _ _ _ => False | _ => True end) as Hop by (by destruct op).
    rewrite (perform_edit op t0 Hop). cbn [fst snd]. split.
    { destruct (edit_of op) as [[w f]|] eqn:He; [|done]. apply (update_issues_find 0 "" w f t0 Hwf). intros i. destruct (edit_of_kept _ _ _ He i) as (? & ? & ? & _). done. }
    intros p fp. destruct (Hall p fp) as [Ht Hn]. rewrite sightings_snoc, told_new_snoc.
    assert (sightings p fp [op] = [] /\ told_new p fp [(op, None)] = []) as [-> ->] by (by destruct op). rewrite !app_nil_r. split; [|done].
    destruct (edit_of op) as [[w f]|] eqn:He; [|done]. apply edit_of_kept in He.
    destruct (update_issues_find p fp w f t0 Hwf) as (_ & Henv & ->); [intros i; destruct (He i) as (? & ? & ? & _); done|].
    apply (tallies_kept p _ _ t0); [|by rewrite Henv|done]. intros i. destruct (w i); [|done]. destruct (He i) as (? & _ & _ & ?). done.
  - destruct op as [p0 fp0 s| | |]; try done. rewrite Upsert_alone.
    pose proof (upsert_row_wf p0 fp0 (sg_Title s) (sg_Culprit s) (sg_Level s) (sg_Environment s) (sg_At s) t0 Hwf) as Hwf'.
    pose proof (upsert_row_issues p0 fp0 (sg_Title s) (sg_Culprit s) (sg_Level s) (sg_Environment s) (sg_At s) t0 Hwf) as Hid.
    pose proof (upsert_row_envs p0 fp0 (sg_Title s) (sg_Culprit s) (sg_Level s) (sg_Environment s) (sg_At s) t0) as Henv.
    pose proof (fun p fp => find_upsert_row p0 fp0 (sg_Title s) (sg_Culprit s) (sg_Level s) (sg_Environment s) (sg_At s) p fp t0 Hwf) as Hfind.
    destruct (upsert_row _ _ _ _ _ _ _ t0) as [id t'] eqn:Hu. destruct Hid as (_ & Hid & _). simpl in *. split; [done|]. intros p fp.
    destruct (Hall p fp) as [Ht Hn]. rewrite sightings_snoc, told_new_snoc, Hfind, Hn. simpl.
    destruct ((p0 =? p) && String.eqb fp0 fp) eqn:Hsame; [|rewrite !app_nil_r; split; [|done];
      rewrite <- (option_fmap_id (find_issue p fp t0)); by apply (tallies_kept p _ _ t0 t'); [done|intros k; apply (proj1 (Henv k))|]].
    apply andb_prop in Hsame as [->%Z.eqb_eq ->%String.eqb_eq]. split.
    + apply tallies_counted; [intros k; apply Henv| |done]. intros Hne. rewrite <- Hid. by apply (Henv (0, ""%string)).
    + rewrite length_app. simpl. rewrite Nat.add_1_r, new_once_snoc. do 2 f_equal. unfold old_status.
      destruct (sightings p fp ops) as [|s0 l]; simpl in Ht; [by rewrite Ht|]. by destruct Ht as (i & -> & _).
Qed.

(** ** Search *)

Definition like_special (r : Z) : Prop := r = 92 \/ r = 37 \/ r = 95.

(** Folding of case leaves the special characters of patterns alone. *)
Class CollationLaws `(Collation) := { fold_special r : like_special (fold r) \/ like_special r -> fold r = r }.

Definition is_special_rune (r : Z) : bool := (r =? 92) || (r =? 37) || (r =? 95).

Lemma is_special_rune_true r : is_special_rune r = true <-> like_special r.
Proof. unfold is_special_rune, like_special. rewrite !orb_true_iff, !Z.eqb_eq. tauto. Qed.

Definition escape_rune (r : Z) : list Z := if is_special_rune r then [92; r] else [r].

Lemma like_any p s : like (Any :: p) s = true <-> exists a b, s = a ++ b /\ like p b = true.
Proof.
  induction s as [|c s IH].
  - change (like (Any :: p) []) with (like p [] || false). rewrite orb_false_r. split; [intros H; by exists [], []|].
    intros (a & b & [-> ->]%eq_sym%app_nil & H). done.
  - change (like (Any :: p) (c :: s)) with (like p (c :: s) || like (Any :: p) s). rewrite orb_true_iff, IH. split.
    + intros [H|(a & b & -> & H)]; [by exists [], (c :: s)|by exists (c :: a), b].
    + intros ([|d a] & b & Hs & H); [simpl in Hs; subst; by left|]. injection Hs as -> ->. right. by exists a, b.
Qed.

Lemma like_lits q p s : like (map Lit q ++ p) s = true <-> exists b, s = q ++ b /\ like p b = true.
Proof.
  revert s. induction q as [|c q IH]; intros s; simpl.
  - split; [by exists s|by intros (b & -> & H)].
  - destruct s as [|d s]; [split; [done|by intros (b & ? & _)]|]. rewrite andb_true_iff, Z.eqb_eq, IH. split.
    + intros [-> (b & -> & H)]. by exists b.
    + intros (b & [= -> ->] & H). eauto.
Qed.

Lemma like_rest s : like [Any] s = true.
Proof. apply like_any. exists s, []. by rewrite app_nil_r. Qed.

Lemma like_substring q s :
  like (Any :: map Lit q ++ [Any]) s = true <-> exists a b, s = a ++ q ++ b.
Proof.
  rewrite like_any. split.
  - intros (a & b & -> & (c & -> & _)%like_lits). by exists a, c.
  - intros (a & b & ->). exists a, (q ++ b). split; [done|]. apply like_lits. exists b. split; [done|apply like_rest].
Qed.

Lemma tokens_escaped q rest : like_tokens (flat_map escape_rune q ++ rest) = map Lit q ++ like_tokens rest.
Proof.
  induction q as [|c q IH]; [done|]. cbn [flat_map map]. rewrite <- app_assoc. unfold escape_rune at 1.
  destruct (is_special_rune c) eqn:Hc; simpl; rewrite IH; [done|]. unfold is_special_rune in Hc. by destruct (c =? 92), (c =? 37), (c =? 95).
Qed.

(** *** Runes of an escaped text *)

Definition is_cont (c : ascii) : bool := continuation 128 191 c.
Definition conts (l : chars) : chars := take (span is_cont l) l.

Lemma conts_cons c l : conts (c :: l) = if is_cont c then c :: conts l else [].
Proof. unfold conts. simpl. by destruct (is_cont c). Qed.

Lemma continuation_is_cont lo hi c : 128 <= lo -> hi <= 191 -> continuation lo hi c = true -> is_cont c = true.
Proof. unfold is_cont, continuation. rewrite !andb_true_iff, !Z.leb_le. lia. Qed.

(** A rune is decided by its first byte and the continuation bytes after it. *)
Lemma decode_rune_conts a l : decode_rune (a :: l) = decode_rune (a :: conts l).
Proof.
  unfold decode_rune. destruct (byte_of a <? 128); [done|]. destruct (_ || _); [done|].
  set (lo := if byte_of a =? 224 then 160 else if byte_of a =? 240 then 144 else 128).
  set (hi := if byte_of a =? 237 then 159 else if byte_of a =? 244 then 143 else 191).
  assert (128 <= lo /\ hi <= 191) as [Hlo Hhi] by (unfold lo, hi; repeat destruct (_ =? _); lia). clearbody lo hi.
  destruct l as [|b l]; [done|]. rewrite conts_cons.
  destruct (continuation lo hi b) eqn:Hb; cbn [negb].
  2: { destruct (is_cont b); [by rewrite Hb|done]. }
  rewrite (continuation_is_cont lo hi b Hlo Hhi Hb), Hb. cbn [negb]. destruct (byte_of a <? 224); [done|].
  destruct l as [|c l]; [done|]. rewrite conts_cons. fold (is_cont c). destruct (is_cont c) eqn:Hc; cbn [negb]; [|done].
  fold (is_cont c). rewrite Hc. cbn [negb]. destruct (byte_of a <? 240); [done|].
  destruct l as [|d l]; [done|]. rewrite conts_cons. fold (is_cont d). destruct (is_cont d) eqn:Hd; cbn [negb]; [|done].
  fold (is_cont d). by rewrite Hd.
Qed.

Lemma decode_rune_width a l : (1 <= (decode_rune (a :: l)).2 <= S (length (conts l)))%nat.
Proof.
  rewrite decode_rune_conts. generalize (conts l). clear l. intros l. unfold decode_rune. destruct (byte_of a <? 128); [simpl; lia|].
  destruct (_ || _); [simpl; lia|]. destruct l as [|b l]; [simpl; lia|]. destruct (negb _); [simpl; lia|]. destruct (byte_of a <? 224); [simpl; lia|].
  destruct l as [|c l]; [simpl; lia|]. destruct (negb _); [simpl; lia|]. destruct (byte_of a <? 240); [simpl; lia|].
  destruct l as [|d l]; [simpl; lia|]. destruct (negb _); simpl; lia.
Qed.

Lemma runes_cons a l : runes (a :: l) = (decode_rune (a :: l)).1 :: runes (drop ((decode_rune (a :: l)).2 - 1) l).
Proof.
  unfold runes. cbn [rune_spans]. pose proof (decode_rune_width a l). destruct (decode_rune (a :: l)) as [x n]. simpl in *.
  by rewrite rune_spans_drop.
Qed.

(** An ASCII character stands alone. *)
Lemma runes_ascii a l : (byte_of a <? 128) = true -> runes (a :: l) = byte_of a :: runes l.
Proof. intros Ha. rewrite runes_cons. unfold decode_rune. by rewrite Ha. Qed.

Definition escape_char (c : ascii) : chars := if is_like_special c then ["\"%char; c] else [c].

Lemma conts_escape l rest : (forall c r, rest = c :: r -> is_cont c = false) -> conts (flat_map escape_char l ++ rest) = conts l.
Proof.
  intros Hrest. induction l as [|c l IH]; simpl.
  - destruct rest as [|c r]; [done|]. rewrite conts_cons. by rewrite (Hrest c r).
  - unfold escape_char. destruct (is_like_special c) eqn:Hc.
    + assert (is_cont c = false) as Hno.
      { unfold is_like_special in Hc. simpl in Hc. rewrite !orb_true_iff in Hc.
        destruct Hc as [H|[H|[H|H]]]; [apply Ascii.eqb_eq in H; by subst..|done]. }
      simpl. rewrite !conts_cons, Hno. done.
    + simpl. rewrite !conts_cons. destruct (is_cont c); [by f_equal|done].
Qed.

Lemma low6_mod c : low6 c = byte_of c mod 64.
Proof. unfold low6. by rewrite (Z.land_ones _ 6). Qed.

(** A rune outside ASCII is not one of ASCII. *)
Lemma decode_rune_beyond a l : (byte_of a <? 128) = false -> 128 <= (decode_rune (a :: l)).1.
Proof.
  intros Ha. pose proof (byte_range a) as Hra. unfold decode_rune. rewrite Ha. apply Z.ltb_ge in Ha.
  destruct ((byte_of a <? 194) || (244 <? byte_of a)) eqn:Hlead; [done|].
  apply orb_false_elim in Hlead as [H194%Z.ltb_ge H244%Z.ltb_ge].
  set (lo := if byte_of a =? 224 then 160 else if byte_of a =? 240 then 144 else 128).
  set (hi := if byte_of a =? 237 then 159 else if byte_of a =? 244 then 143 else 191).
  assert (128 <= lo /\ hi <= 191 /\ (byte_of a = 224 -> lo = 160) /\ (byte_of a = 240 -> lo = 144)) as (Hlo & Hhi & H224 & H240).
  { unfold lo, hi. destruct (Z.eqb_spec (byte_of a) 224), (Z.eqb_spec (byte_of a) 240), (Z.eqb_spec (byte_of a) 237), (Z.eqb_spec (byte_of a) 244); lia. }
  clearbody lo hi. destruct l as [|b l]; [done|]. destruct (continuation lo hi b) eqn:Hb; cbn [negb]; [|done].
  unfold continuation in Hb. rewrite andb_true_iff, !Z.leb_le in Hb.
  assert (forall c, 0 <= low6 c) as Hlow by (intros c; rewrite low6_mod; apply Z.mod_pos_bound; lia).
  pose proof (low6_mod b) as Hb6.
  destruct (Z.ltb_spec (byte_of a) 224) as [Hs|Hs].
  { cbn [fst]. rewrite (Z.land_ones _ 5) by lia. change (2 ^ 5) with 32. pose proof (Hlow b).
    assert (2 <= byte_of a mod 32) by (rewrite Z.mod_eq by lia; assert (byte_of a / 32 = 6) as -> by (symmetry; apply Z.div_unique with (byte_of a - 192); lia); lia). lia. }
  destruct l as [|c l]; [done|]. destruct (continuation 128 191 c); cbn [negb]; [|done]. pose proof (Hlow b). pose proof (Hlow c).
  destruct (Z.ltb_spec (byte_of a) 240) as [Hs3|Hs3].
  { cbn [fst]. rewrite (Z.land_ones _ 4) by lia. change (2 ^ 4) with 16.
    assert (byte_of a mod 16 = byte_of a - 224) as -> by (rewrite Z.mod_eq by lia; assert (byte_of a / 16 = 14) as -> by (symmetry; apply Z.div_unique with (byte_of a - 224); lia); lia).
    destruct (decide (byte_of a = 224)) as [He|He]; [|lia]. rewrite (H224 He) in Hb. rewrite Hb6.
    assert (byte_of b mod 64 = byte_of b - 128) by (rewrite Z.mod_eq by lia; assert (byte_of b / 64 = 2) as -> by (symmetry; apply Z.div_unique with (byte_of b - 128); lia); lia). lia. }
  destruct l as [|d l]; [done|]. destruct (continuation 128 191 d); cbn [negb]; [|done]. pose proof (Hlow d). cbn [fst].
  rewrite (Z.land_ones _ 3) by lia. change (2 ^ 3) with 8.
  assert (byte_of a mod 8 = byte_of a - 240) as -> by (rewrite Z.mod_eq by lia; assert (byte_of a / 8 = 30) as -> by (symmetry; apply Z.div_unique with (byte_of a - 240); lia); lia).
  destruct (decide (byte_of a = 240)) as [He|He]; [|lia]. rewrite (H240 He) in Hb. rewrite Hb6.
  assert (byte_of b mod 64 = byte_of b - 128) by (rewrite Z.mod_eq by lia; assert (byte_of b / 64 = 2) as -> by (symmetry; apply Z.div_unique with (byte_of b - 128); lia); lia). lia.
Qed.

Lemma is_like_special_byte c : is_like_special c = is_special_rune (byte_of c).
Proof.
  apply eq_true_iff_eq. unfold is_like_special. simpl. rewrite !orb_true_iff, is_special_rune_true. unfold like_special. rewrite !Ascii.eqb_eq. split.
  - intros [->|[->|[->|[=]]]]; vm_compute; auto.
  - assert (forall b, byte_of c = b -> c = char_of b) as Hc.
    { intros b <-. unfold char_of, byte_of. by rewrite N2Z.id, ascii_N_embedding. }
    intros [H|[H|H]]; apply Hc in H; subst c; vm_compute; auto.
Qed.

Lemma drop_escape n l rest : (n <= length (conts l))%nat ->
  drop n (flat_map escape_char l ++ rest) = flat_map escape_char (drop n l) ++ rest.
Proof.
  revert l. induction n as [|n IH]; intros l Hn; [done|]. destruct l as [|c l]; [simpl in Hn; lia|]. rewrite conts_cons in Hn.
  destruct (is_cont c) eqn:Hc; [|simpl in Hn; lia]. simpl in Hn. cbn [flat_map]. unfold escape_char at 1.
  assert (is_like_special c = false) as ->.
  { rewrite is_like_special_byte. unfold is_cont, continuation in Hc. rewrite andb_true_iff, !Z.leb_le in Hc.
    unfold is_special_rune. rewrite !orb_false_iff, !Z.eqb_neq. lia. }
  simpl. apply IH. lia.
Qed.

Lemma runes_escape rest : (forall c r, rest = c :: r -> is_cont c = false) -> forall n l, (length l <= n)%nat ->
  runes (flat_map escape_char l ++ rest) = flat_map escape_rune (runes l) ++ runes rest.
Proof.
  intros Hrest n. induction n as [|n IH]; intros [|c l] Hn; try (simpl in Hn; lia); [done..|]. simpl in Hn.
  destruct (is_like_special c) eqn:Hc.
  - cbn [flat_map]. unfold escape_char at 1. rewrite Hc. pose proof Hc as Hc'. rewrite is_like_special_byte in Hc.
    assert ((byte_of c <? 128) = true) as Hascii by (apply is_special_rune_true in Hc; destruct Hc as [H|[H|H]]; by rewrite H).
    simpl. rewrite (runes_ascii "\"%char) by done. rewrite !(runes_ascii c) by done. rewrite IH by lia.
    cbn [flat_map]. unfold escape_rune at 2. rewrite Hc. done.
  - cbn [flat_map]. unfold escape_char at 1. rewrite Hc. simpl. rewrite !runes_cons.
    assert (decode_rune (c :: flat_map escape_char l ++ rest) = decode_rune (c :: l)) as ->.
    { rewrite decode_rune_conts, conts_escape by done. by rewrite <- decode_rune_conts. }
    pose proof (decode_rune_width c l) as Hw. rewrite drop_escape by lia.
    rewrite IH by (rewrite length_drop; lia). cbn [flat_map].
    assert (escape_rune (decode_rune (c :: l)).1 = [(decode_rune (c :: l)).1]) as ->; [|done].
    unfold escape_rune. assert (is_special_rune (decode_rune (c :: l)).1 = false) as ->; [|done].
    destruct (byte_of c <? 128) eqn:Hascii.
    + unfold decode_rune. rewrite Hascii. cbn [fst]. by rewrite <- is_like_special_byte.
    + pose proof (decode_rune_beyond c l Hascii). unfold is_special_rune. rewrite !orb_false_iff, !Z.eqb_neq. lia.
Qed.

Section search.
Context `{CollationLaws}.

Lemma fold_escaped q : map fold (flat_map escape_rune q) = flat_map escape_rune (map fold q).
Proof.
  induction q as [|r q IH]; [done|]. simpl. rewrite map_app, IH. f_equal. unfold escape_rune.
  destruct (is_special_rune r) eqn:Hr.
  - apply is_special_rune_true in Hr as Hs. rewrite (fold_special r) by by right. rewrite Hr. simpl.
    rewrite (fold_special r), (fold_special 92) by (unfold like_special; auto). done.
  - destruct (is_special_rune (fold r)) eqn:Hf; [|done]. apply is_special_rune_true in Hf as Hs.
    rewrite (fold_special r) in Hf by by left. by rewrite Hf in Hr.
Qed.

(** A search finds the text typed, whatever its characters, in any case. *)
Lemma ilike_search s query :
  ilike s (search_pattern query) = true <->
  exists a b, map fold (runes s) = a ++ map fold (runes (chars_of query)) ++ b.
Proof.
  unfold ilike, search_pattern. rewrite (runes_ascii "%"%char) by done.
  rewrite (runes_escape ["%"%char]) with (n := length (chars_of query)); [|by intros c r [= <- _]|done].
  rewrite (runes_ascii "%"%char) by done. change (byte_of "%"%char) with 37. cbn [map]. rewrite map_app, fold_escaped. cbn [map].
  rewrite (fold_special 37) by (unfold like_special; auto). cbn [like_tokens]. change (37 =? 92) with false. change (37 =? 37) with true. cbn iota.
  rewrite tokens_escaped. apply like_substring.
Qed.

Definition found_in (query : string) (s : string) : Prop :=
  exists a b, map fold (runes (chars_of s)) = a ++ map fold (runes (chars_of query)) ++ b.

(** C33: A filter selects exactly the issues it describes: every field left empty
    selects all, the window of time is half-open, and the text searched for
    is taken literally, with its percent signs, underscores and backslashes. *)
Theorem buildIssueFilter_selects projectID f t i :
  buildIssueFilter projectID f t i = true <->
  is_ProjectID i = projectID /\
  (fl_Status f = ""%string \/ is_Status i = fl_Status f) /\
  (fl_Level f = ""%string \/ is_Level i = fl_Level f) /\
  (fl_Query f = ""%string \/ found_in (fl_Query f) (is_Title i) \/ found_in (fl_Query f) (is_Culprit i)) /\
  (fl_Environment f = ""%string \/ is_Some (issue_environments t !! (is_ID i, fl_Environment f))) /\
  (forall s, Since f = Some s -> s <= LastSeen i) /\ (forall u, Until f = Some u -> LastSeen i < u).
Proof.
  assert (forall (s : string) (b : bool) (P : Prop), (b = true <-> P) -> (if negb (String.eqb s "") then b else true) = true <-> s = ""%string \/ P) as Hopt.
  { intros s b P Hb. destruct (String.eqb_spec s "") as [->|Hne]; simpl; [tauto|]. rewrite Hb. tauto. }
  unfold buildIssueFilter. rewrite !andb_true_iff, Z.eqb_eq.
  rewrite (Hopt _ _ _ (String.eqb_eq _ _)), (Hopt _ _ _ (String.eqb_eq _ _)).
  rewrite (Hopt (fl_Query f) _ (found_in (fl_Query f) (is_Title i) \/ found_in (fl_Query f) (is_Culprit i)))
    by (rewrite orb_true_iff, !ilike_search; reflexivity).
  rewrite (Hopt (fl_Environment f) _ (is_Some (issue_environments t !! (is_ID i, fl_Environment f))))
    by (destruct (issue_environments t !! _) as [?|]; simpl; split; [eauto|done|done|by intros [? ?]]).
  assert ((match Since f with Some s => s <=? LastSeen i | None => true end) = true <-> (forall s, Since f = Some s -> s <= LastSeen i)) as ->.
  { destruct (Since f) as [s|]; [rewrite Z.leb_le|]; split; [by intros ? ? [= <-]|auto|done|done]. }
  assert ((match Until f with Some u => LastSeen i <? u | None => true end) = true <-> (forall u, Until f = Some u -> LastSeen i < u)) as ->.
  { destruct (Until f) as [u|]; [rewrite Z.ltb_lt|]; split; [by intros ? ? [= <-]|auto|done|done]. }
  tauto.
Qed.
End search.

(** ** Exports *)
Section exports.
Context {D : Type} `{Has IssueTables D} (env : D -> D -> Prop) (met : fault -> Prop) (log : D -> list exported).
Context (text_order : list string -> list string) `{Collation} (projectID : Z) (alive : gset Z).

(** The issues of [alive] belong to the project and are not deleted. *)
Definition living (d : D) : Prop :=
  issues_wf (get d) /\ forall id, id ∈ alive -> exists i, issues (get d) !! id = Some i /\ is_ProjectID i = projectID.

Definition logged (l : list exported) (d : D) : Prop := living d /\ log d = l.

Context (env_living : forall d d', env d d' -> living d -> living d') (env_log : forall d d', env d d' -> log d' = log d).
Context (fn : exported -> prog D (result issue_error ())).
Context (fn_logs : forall l row, ensures env met (logged l) (fn row) (fun r d => match r with Ok _ => logged (l ++ [row]) d | Err _ => True end)).

Definition row_id (row : exported) : Z := is_ID row.1.1.

Lemma kept_logged l : kept env (logged l).
Proof. intros d d' He [Hl <-]. split; [by eapply env_living|by apply env_log]. Qed.

Lemma emit_logs rows l :
  ensures env met (logged l) (emit fn rows) (fun r d => match r with Ok _ => logged (l ++ rows) d | Err _ => True end).
Proof.
  revert l. induction rows as [|row rows IH]; intros l; simpl.
  - apply ens_ret; [apply kept_logged|]. intros d Hd. by rewrite app_nil_r.
  - eapply ens_tryE; [apply fn_logs| |].
    + intros e. eapply ens_weaken; [apply ens_err|done|]. by intros [] ?.
    + intros []. replace (l ++ row :: rows) with ((l ++ [row]) ++ rows) by by rewrite <- app_assoc. apply IH.
Qed.

(** What a page of the snapshot [ids] gives. *)
Definition page_of (ids : list Z) (rows : list exported) : Prop :=
  map row_id rows `sublist_of` ids /\ (forall id, id ∈ ids -> id ∈ alive -> id ∈ map row_id rows) /\
  Forall (fun row => is_ProjectID row.1.1 = projectID) rows.

Lemma page_rows_ids page t : issues_wf t ->
  map (fun it : joined => is_ID it.1) (page_rows projectID page t) `sublist_of` page /\
  Forall (fun it : joined => is_ProjectID it.1 = projectID) (page_rows projectID page t).
Proof.
  intros Hwf. induction page as [|id page [IH1 IH2]]; [by split|]. unfold page_rows in *. simpl.
  destruct (issues t !! id) as [i|] eqn:Hi; [|by split; [constructor|]].
  destruct (Z.eqb_spec (is_ProjectID i) projectID) as [Hp|Hp]; [|by split; [constructor|]].
  simpl. destruct (wf_key t Hwf id i Hi) as [-> _]. split; by constructor.
Qed.

Lemma page_rows_alive page d id : living d -> id ∈ page -> id ∈ alive ->
  id ∈ map (fun it : joined => is_ID it.1) (page_rows projectID page (get d)).
Proof.
  intros [Hwf Hlive] Hin Hal. destruct (Hlive id Hal) as (i & Hi & Hp). apply list_elem_of_fmap. exists (join_assignee (get d) i).
  split; [simpl; by destruct (wf_key _ Hwf id i Hi)|]. apply list_elem_of_omap. exists id. split; [done|]. rewrite Hi. by rewrite Hp, Z.eqb_refl.
Qed.

Lemma export_page_logs page l :
  ensures env met (logged l) (export_page text_order projectID page fn)
    (fun r d => match r with Ok _ => exists rows, page_of page rows /\ logged (l ++ rows) d | Err _ => True end).
Proof.
  unfold export_page.
  eapply (ens_tryE env met _ _ _ _ (fun its d => logged l d /\ page_of page (map (fun it => (it, [])) its))).
  - apply ens_ask; [apply kept_logged| |done|].
    + intros [its|e]; [|done]. intros d d' He [Hl Hp]. split; [by eapply kept_logged|done].
    + intros d Hd. split; [done|]. destruct Hd as [Hl _]. split_and!.
      * rewrite map_map. by apply page_rows_ids, Hl.
      * intros id Hin Hal. rewrite map_map. by apply page_rows_alive.
      * apply Forall_map. by apply page_rows_ids, Hl.
  - intros e. eapply ens_weaken; [apply ens_err|done|]. by intros [] ?.
  - intros its. eapply (ens_tryE env met _ _ _ _ (fun _ d => logged l d /\ page_of page (map (fun it => (it, [])) its))).
    + destruct (_ =? 0)%nat.
      * apply ens_ret; [|done]. intros d d' He [Hl Hp]. split; [by eapply kept_logged|done].
      * apply ens_ask; [|intros [?|?]; [|done]|done|done]; intros d d' He [Hl Hp]; (split; [by eapply kept_logged|done]).
    + intros e. eapply ens_weaken; [apply ens_err|done|]. by intros [] ?.
    + intros envs fs d r d' Hr Hf [Hl Hp].
      pose proof (emit_logs _ l fs d r d' Hr Hf Hl) as Hq. destruct r as [|e]; [|done]. eexists. split; [|exact Hq].
      destruct Hp as (H1 & H2 & H3). rewrite map_map in H1. split_and!.
      * by rewrite map_map.
      * intros id ??. rewrite map_map. rewrite map_map in H2. by apply H2.
      * apply Forall_map. rewrite Forall_map in H3. exact H3.
Qed.

Lemma page_of_nil : page_of [] [].
Proof. split_and!; [constructor|intros id Hin; by apply elem_of_nil in Hin|constructor]. Qed.

Lemma page_of_app ids ids' rows rows' : page_of ids rows -> page_of ids' rows' -> page_of (ids ++ ids') (rows ++ rows').
Proof.
  intros (H1 & H2 & H3) (H1' & H2' & H3'). split_and!; [| |by apply Forall_app].
  - rewrite map_app. by apply sublist_app.
  - intros id Hin Hal. rewrite map_app. apply elem_of_app. apply elem_of_app in Hin as [Hin|Hin]; auto.
Qed.

Lemma export_pages_log fuel ids l : (length ids <= fuel)%nat ->
  ensures env met (logged l) (export_pages text_order fuel projectID ids fn)
    (fun r d => match r with Ok _ => exists rows, page_of ids rows /\ logged (l ++ rows) d | Err _ => True end).
Proof.
  revert ids l. induction fuel as [|fuel IH]; intros ids l Hlen.
  - destruct ids; [|simpl in Hlen; lia]. apply ens_ret; [apply kept_logged|]. intros d Hd. exists []. rewrite app_nil_r. split; [apply page_of_nil|done].
  - destruct ids as [|id ids]; [apply ens_ret; [apply kept_logged|]; intros d Hd; exists []; rewrite app_nil_r; split; [apply page_of_nil|done]|].
    change (export_pages text_order (S fuel) projectID (id :: ids) fn) with
      (tryE: _x ← export_page text_order projectID (take exportPageSize (id :: ids)) fn catch e => mret (Err e);
       export_pages text_order fuel projectID (drop exportPageSize (id :: ids)) fn)%go.
    intros fs d r d' (r1 & d1 & fs1 & fs2 & -> & Hr1 & Hr2)%runs_bind_inv [Hf1 Hf2]%Forall_app Hd.
    pose proof (export_page_logs _ _ _ _ _ _ Hr1 Hf1 Hd) as Hp. destruct r1 as [u|e]; [|by inversion Hr2].
    destruct Hp as (rows1 & Hp1 & Hl1).
    pose proof (IH (drop exportPageSize (id :: ids)) (l ++ rows1) ltac:(rewrite length_drop; unfold exportPageSize; simpl in *; lia) _ _ _ _ Hr2 Hf2 Hl1) as Hp.
    destruct r as [u'|e]; [|done]. destruct Hp as (rows2 & Hp2 & Hl2). exists (rows1 ++ rows2). rewrite app_assoc. split; [|done].
    rewrite <- (take_drop exportPageSize (id :: ids)). by apply page_of_app.
Qed.

(** The issues of a snapshot. *)
Definition snapshot_of (f : Filter) (snapshotLimit : nat) (ids : list Z) : Prop :=
  (length ids <= snapshotLimit)%nat /\ exists d, living d /\ ids = newest_ids projectID f (S snapshotLimit) (get d).

Lemma streamForExport_logs f snapshotLimit :
  ensures env met (logged []) (streamForExport text_order projectID f snapshotLimit fn)
    (fun r d => match r with Ok _ => exists ids, snapshot_of f snapshotLimit ids /\ page_of ids (log d) | Err _ => True end).
Proof.
  unfold streamForExport.
  eapply (ens_tryE env met _ _ _ _ (fun ids d => logged [] d /\ exists d0, living d0 /\ ids = newest_ids projectID f (S snapshotLimit) (get d0))).
  - apply ens_ask; [apply kept_logged| |done|].
    + intros [ids|e]; [|done]. intros d d' He [Hl Hp]. split; [by eapply kept_logged|done].
    + intros d Hd. split; [done|]. exists d. split; [by destruct Hd|done].
  - intros e. eapply ens_weaken; [apply ens_err|done|]. by intros [] ?.
  - intros ids. destruct (Nat.ltb_spec snapshotLimit (length ids)) as [Hlt|Hle].
    { eapply ens_weaken; [apply ens_err|done|]. by intros [] ?. }
    intros fs d r d' Hr Hf [Hl Hsnap]. pose proof (export_pages_log (length ids) ids [] ltac:(done) _ _ _ _ Hr Hf Hl) as Hp.
    destruct r as [u|e]; [|done]. destruct Hp as (rows & Hrows & [_ Hlog]). exists ids. split; [by split|]. by rewrite Hlog.
Qed.
End exports.

(** A snapshot has no issue twice. *)
Lemma NoDup_map_filter {A B} (f : A -> B) (P : A -> bool) (l : list A) : NoDup (map f l) -> NoDup (map f (List.filter P l)).
Proof.
  induction l as [|a l IH]; [done|]. simpl. intros [Hn Hl]%NoDup_cons. destruct (P a); [|by apply IH]. simpl. constructor; [|by apply IH].
  intros (b & Hb & Hin)%list_elem_of_fmap. apply Hn. apply list_elem_of_fmap. exists b. split; [done|].
  apply list_elem_of_In, filter_In in Hin as [Hin _]. by apply list_elem_of_In.
Qed.

Lemma newest_ids_NoDup `{Collation} projectID f limit t : issues_wf t -> NoDup (newest_ids projectID f limit t).
Proof.
  intros Hwf. unfold newest_ids.
  assert (NoDup (map is_ID (merge_sort newer (matching projectID f t)))) as Hall.
  { rewrite merge_sort_Permutation. apply NoDup_map_filter. rewrite map_map.
    assert (map (fun x : Z * Issue => is_ID x.2) (map_to_list (issues t)) = map fst (map_to_list (issues t))) as ->.
    { apply map_ext_in. intros [k i] Hin. apply list_elem_of_In, elem_of_map_to_list in Hin. simpl. by destruct (wf_key t Hwf k i Hin). }
    apply NoDup_fst_map_to_list. }
  rewrite <- (take_drop limit (merge_sort newer _)), map_app in Hall. by apply NoDup_app in Hall as [? _].
Qed.

Lemma snapshot_newest `{Collation} projectID f limit t id : issues_wf t ->
  id ∈ newest_ids projectID f limit t -> exists i, issues t !! id = Some i /\ buildIssueFilter projectID f t i = true.
Proof.
  intros Hwf (i & -> & Hin)%list_elem_of_fmap. assert (i ∈ matching projectID f t) as Hm.
  { rewrite <- (merge_sort_Permutation newer). rewrite <- (take_drop limit (merge_sort _ _)). apply elem_of_app. by left. }
  apply list_elem_of_In, filter_In in Hm as [Hm Hf]. apply list_elem_of_In, list_elem_of_fmap in Hm as ([k j] & -> & Hkj).
  apply elem_of_map_to_list in Hkj. simpl in *. destruct (wf_key t Hwf k j Hkj) as [-> _]. eauto.
Qed.


(** ** Interleavings of [Upsert] *)

Definition at_issue (id : Z) (status : string) : Issue := mkIssue id 1 "fp" "boom" "main" "error" status 10 10 1 None.
Definition tables_with (status : string) : IssueTables := mkIssueTables {[7 := at_issue 7 status]} 8 ∅ ∅.

(** What another request does between the snapshot and the upsert. *)
Inductive other := Resolves (id : Z) | Counts (p : Z) (fp : string).
Definition other_acts (o : other) (t : IssueTables) : IssueTables :=
  match o with
  | Resolves id => (exec0 (SetStatus id StatusResolved) t).2
  | Counts p fp => (exec0 (Upsert p fp "boom" "main" "error" "" 11) t).2
  end.

Definition upsert_met (between : list other) (t : IssueTables) : option (result issue_error UpsertResult * IssueTables) :=
  drive other_acts (Upsert 1 "fp" "boom" "main" "error" "" 12) [(FNone, []); (FNone, between)] t.

(** Resolved between the two: the issue is open again and nobody is told. *)
Lemma regression_unseen :
  match upsert_met [Resolves 7] (tables_with StatusUnresolved) with
  | Some (Ok r, t) => New r = false /\ Regression r = false /\ is_Status <$> issues t !! 7 = Some StatusUnresolved
  | _ => False
  end.
Proof. vm_compute. done. Qed.

(** Two first events at once: both are told [New]. *)
Lemma new_told_twice :
  match upsert_met [Counts 1 "fp"] no_issues with
  | Some (Ok r, t) => New r = true /\ is_TimesSeen <$> issues t !! 1 = Some 2
  | _ => False
  end.
Proof. vm_compute. done. Qed.

(** Lists page through an order with ties left to the server: two pages may
    repeat an issue and miss another. *)
Lemma pages_may_repeat :
  let t := mkIssueTables {[1 := mkIssue 1 1 "a" "a" "" "error" StatusUnresolved 5 5 1 None; 2 := mkIssue 2 1 "b" "b" "" "error" StatusUnresolved 5 5 1 None]} 3 ∅ ∅ in
  let rows := map snd (map_to_list (issues t)) in
  ordered_by "last_seen" rows /\ ordered_by "last_seen" (rev rows) /\
  map is_ID (take 1 rows) = map is_ID (take 1 (drop 1 (rev rows))).
Proof.
  intros t rows. assert (rows = rev (rev rows)) as _ by by rewrite rev_involutive. unfold ordered_by. split_and!.
  - apply (bool_decide_unpack _). vm_compute. done.
  - apply (bool_decide_unpack _). vm_compute. done.
  - vm_compute. done.
Qed.

(** ** Instances *)

#[local] Instance ascii_fold : Collation := {| fold r := if (65 <=? r) && (r <=? 90) then r + 32 else r |}.
#[local] Instance ascii_fold_laws : CollationLaws ascii_fold.
Proof.
  split. intros r. simpl. unfold like_special. destruct (Z.leb_spec 65 r), (Z.leb_spec r 90); simpl; lia.
Qed.

Lemma buildIssueFilter_selects_example :
  ilike (chars_of "Payment FAILED: 100% of_it") (search_pattern "100% OF_") = true /\
  ilike (chars_of "Payment FAILED: 1000 of it") (search_pattern "100% OF_") = false.
Proof. vm_compute. done. Qed.

Definition no_filter : Filter := mkFilter "" "" "" "" "" None None 1 0.

(** The callback of the examples writes its rows to a file. *)
Definition file_of (row : exported) : prog (IssueTables * list exported) (result issue_error ()) :=
  mbind (fun _ => mret (Ok tt)) (pmodify (fun d => (d.1, d.2 ++ [row]))).

Definition two_issues : IssueTables :=
  mkIssueTables {[1 := mkIssue 1 1 "a" "a" "" "error" StatusUnresolved 5 5 1 None; 2 := mkIssue 2 1 "b" "b" "" "error" StatusUnresolved 5 6 1 None]} 3 {[ (1, "prod") := 1 ]} ∅.

Lemma two_issues_living : living 1 {[1; 2]} (two_issues, [] : list exported).
Proof.
  split.
  - split.
    + intros k i. cbn -[lookup]. rewrite lookup_insert_Some, lookup_singleton_Some. by intros [[<- <-]|[_ [<- <-]]].
    + intros k k' i i'. cbn -[lookup]. rewrite !lookup_insert_Some, !lookup_singleton_Some.
      intros [[<- <-]|[_ [<- <-]]] [[<- <-]|[_ [<- <-]]]; done.
  - intros id. rewrite elem_of_union, !elem_of_singleton. intros [->| ->]; eexists; split; reflexivity.
Qed.

(** Others resolve issues while the export runs. *)
Definition resolve_issue (id : Z) (d : IssueTables * list exported) : IssueTables * list exported :=
  ((update_issues (fun i => is_ID i =? id) (set_status StatusResolved) d.1).2, d.2).
Definition resolving (d d' : IssueTables * list exported) : Prop := exists id, d' = resolve_issue id d.

Lemma resolving_living p alive d d' : resolving d d' -> living p alive d -> living p alive d'.
Proof.
  intros (id & ->) [Hwf Hlive].
  destruct (update_issues_find 0 "" (fun i => is_ID i =? id) (set_status StatusResolved) d.1 Hwf) as (Hwf' & _); [done|].
  split; [exact Hwf'|]. intros k Hk. destruct (Hlive k Hk) as (i & Hi & Hp). eexists.
  change (issues (get (resolve_issue id d))) with ((fun i => if is_ID i =? id then set_status StatusResolved i else i) <$> issues d.1). rewrite lookup_fmap.
  change (get d) with d.1 in Hi. rewrite Hi. simpl. split; [done|]. by destruct (_ =? id).
Qed.

Lemma file_of_logs l row :
  ensures resolving (fun _ => True) (logged snd 1 {[1; 2]} l) (file_of row)
    (fun r d => match r with Ok _ => logged snd 1 {[1; 2]} (l ++ [row]) d | Err _ => True end).
Proof.
  assert (forall l, kept resolving (logged snd 1 {[1; 2]} l)) as Hkept.
  { intros l'. apply kept_logged; [apply resolving_living|by intros d ? [id ->]]. }
  eapply (ens_bind _ _ _ _ _ (fun _ => logged snd 1 {[1; 2]} (l ++ [row]))).
  - apply ens_pmodify; [done..|]. intros d [Hl <-]. done.
  - intros _. by apply ens_ret.
Qed.

Definition export_run : option (result issue_error () * (IssueTables * list exported)) :=
  drive resolve_issue (streamForExport (fun l => l) 1 no_filter 10 file_of)
    [(FNone, []); (FNone, [2]); (FNone, []); (FNone, [1]); (FNone, [])] (two_issues, []).


Lemma buildIssueFilter_selects_witness :
  found_in "100% OF_" "Payment FAILED: 100% of_it" /\
  buildIssueFilter 1 (mkFilter "" "" "100% OF_" "" "" None (Some 6) 1 0) two_issues (mkIssue 1 1 "a" "Payment FAILED: 100% of_it" "" "error" StatusUnresolved 5 5 1 None) = true.
Proof.
  split.
  - apply ilike_search. vm_compute. done.
  - apply buildIssueFilter_selects. simpl. split_and!; [done|by left|by left| |by left|done|by intros u [= <-]].
    right. left. apply ilike_search. vm_compute. done.
Defined.
