(* ===== verification/PerfIssue.v ===== *)
(** Performance issues: [internal/trace/perfissue.go].

    [Record] counts a finding into its issue and creates the issue if there is
    none, at most [MaxNewPerfIssuesPerHour] of them in one window of a
    project.  Workers of several replicas record at the same time; service
    and database read one clock. *)
From stdpp Require Import base tactics list gmap strings relations.
From Stdlib Require Import ZArith Lia.
From coqutil Require Import Datatypes.RecordSetters.
From S2P Require Import Prelude.
From S2P Require Import GoString.
From S2P Require Import Prog.
From S2P Require Import Rely.
From S2P Require Import Ledger.
From S2P Require Import Detect.

Import RecordSetters.TriangleBracketNotations.
Open Scope Z_scope.
Open Scope go_scope.

(** ** Data *)

Inductive perf_error := ErrPerfNotFound | ErrPerfInvalidStatus | ErrPerfSQL.

Definition validStatuses : list string := ["unresolved"; "resolved"; "ignored"].
Definition is_valid_status (s : string) : bool := existsb (String.eqb s) validStatuses.

Definition defaultListLimit : Z := 50.
Definition maxListLimit : Z := 200.
Definition perfSampleTTL : Z := hour.

(** A row, with the column [sample_at] that is not read back. *)
Record PerfIssue := mkPerfIssue {
  pi_ID : Z; pi_ProjectID : Z; pi_Fingerprint : string; pi_Kind : string; pi_Description : string; pi_Title : string; pi_Culprit : string;
  pi_Status : string; pi_Count : Z; pi_FirstSeen : Z; pi_LastSeen : Z; SampleTraceID : string; pi_Evidence : gmap string evidence; sample_at : Z }.

Record RecordResult := mkRecord { rr_Issue : option PerfIssue; Created : bool; rr_Regression : bool; Suppressed : bool }.

Record Throttle := mkThrottle { window_start : Z; created : Z; suppressed : Z }.

Record PerfTables := mkPerfTables { perf_issues : gmap Z PerfIssue; next_perf : Z; perf_issue_throttle : gmap Z Throttle }.

Definition MaxNewPerfIssuesPerHour : Z := 100.
Definition perfIssueWindow : Z := hour.

(** ** Statements *)

Definition with_issue (k : Z) (i : PerfIssue) (t : PerfTables) : PerfTables :=
  mkPerfTables (<[k := i]> (perf_issues t)) (next_perf t) (perf_issue_throttle t).
Definition with_window (projectID : Z) (w : Throttle) (t : PerfTables) : PerfTables :=
  mkPerfTables (perf_issues t) (next_perf t) (<[projectID := w]> (perf_issue_throttle t)).

Definition find_perf (projectID : Z) (fingerprint : string) (t : PerfTables) : option (Z * PerfIssue) :=
  head (List.filter (fun '(_, i) => (pi_ProjectID i =? projectID) && String.eqb (pi_Fingerprint i) fingerprint) (map_to_list (perf_issues t))).

Definition reopened (status : string) : string := if String.eqb status "resolved" then "unresolved" else status.
Definition last_seen_now (now : Z) (i : PerfIssue) : Z := if String.eqb (pi_Status i) "ignored" then pi_LastSeen i else now.

(** [UPDATE perf_issues SET ...] of [touch]. *)
Definition touched (f : Finding) (traceID : string) (sampleCutoff now : Z) (i : PerfIssue) : PerfIssue :=
  let stale := sample_at i <=? sampleCutoff in
  mkPerfIssue (pi_ID i) (pi_ProjectID i) (pi_Fingerprint i) (f_Kind f) (f_Description f) (pi_Title i) (f_Culprit f)
    (reopened (pi_Status i)) (pi_Count i + 1) (pi_FirstSeen i) (last_seen_now now i)
    (if stale then traceID else SampleTraceID i) (if stale then Evidence f else pi_Evidence i) (if stale then now else sample_at i).

(** [ON CONFLICT ... DO UPDATE SET ...] of [create]. *)
Definition conflicted (f : Finding) (now : Z) (i : PerfIssue) : PerfIssue :=
  mkPerfIssue (pi_ID i) (pi_ProjectID i) (pi_Fingerprint i) (f_Kind f) (f_Description f) (pi_Title i) (f_Culprit f)
    (reopened (pi_Status i)) (pi_Count i + 1) (pi_FirstSeen i) (last_seen_now now i) (SampleTraceID i) (pi_Evidence i) (sample_at i).

Definition new_perf (id projectID : Z) (f : Finding) (traceID : string) (now : Z) : PerfIssue :=
  mkPerfIssue id projectID (f_Fingerprint f) (f_Kind f) (f_Description f) "" (f_Culprit f) "unresolved" 1 now now traceID (Evidence f) now.

Definition touch_row (projectID : Z) (f : Finding) (traceID : string) (sampleCutoff now : Z) (t : PerfTables) : option PerfIssue * PerfTables :=
  match find_perf projectID (f_Fingerprint f) t with
  | Some (k, i) => let i := touched f traceID sampleCutoff now i in (Some i, with_issue k i t)
  | None => (None, t)
  end.

(** The row and whether it was inserted, [xmax = 0]. *)
Definition create_row (projectID : Z) (f : Finding) (traceID : string) (now : Z) (t : PerfTables) : (PerfIssue * bool) * PerfTables :=
  match find_perf projectID (f_Fingerprint f) t with
  | Some (k, i) => let i := conflicted f now i in ((i, false), with_issue k i t)
  | None => let i := new_perf (next_perf t) projectID f traceID now in
            ((i, true), mkPerfTables (<[next_perf t := i]> (perf_issues t)) (next_perf t + 1) (perf_issue_throttle t))
  end.

(** [created] of the row inserted or updated; no row when the window is full. *)
Definition claim_row (projectID cutoff now : Z) (t : PerfTables) : option Z * PerfTables :=
  let put w := (Some (created w), with_window projectID w t) in
  match perf_issue_throttle t !! projectID with
  | None => put (mkThrottle now 1 0)
  | Some w =>
      let over := window_start w <=? cutoff in
      if over || (created w <? MaxNewPerfIssuesPerHour)
      then put (mkThrottle (if over then now else window_start w) (if over then 1 else created w + 1) (if over then 0 else suppressed w))
      else (None, t)
  end.

Definition suppress_row (projectID : Z) (t : PerfTables) : option Z * PerfTables :=
  match perf_issue_throttle t !! projectID with
  | Some w => (Some (suppressed w + 1),
               with_window projectID (mkThrottle (window_start w) (created w) (suppressed w + 1)) t)
  | None => (None, t)
  end.

(** ** The service *)
Section service.
Context {D : Type} `{Has PerfTables D} (clock : D -> Z).

Definition perf_status (projectID : Z) (f : Finding) (d : D) : option string :=
  pi_Status ∘ snd <$> find_perf projectID (f_Fingerprint f) (get d).

(** A statement whose query of the old row reads the snapshot it began with;
    the update works on the newest row. *)
Definition touch (projectID : Z) (f : Finding) (traceID : string) (sampleCutoff : Z) : prog D (result perf_error (option RecordResult)) :=
  tryE: old ← ask ErrPerfSQL (perf_status projectID f) catch e => mret (Err e);
  match old with
  | None => mret (Ok None)
  | Some status =>
      tryE: up ← call ErrPerfSQL (fun d => on (touch_row projectID f traceID sampleCutoff (clock d)) d) catch e => mret (Err e);
      mret (Ok ((fun i => mkRecord (Some i) false (String.eqb status "resolved") false) <$> up))
  end.

Definition create (projectID : Z) (f : Finding) (traceID : string) : prog D (result perf_error RecordResult) :=
  tryE: old ← ask ErrPerfSQL (perf_status projectID f) catch e => mret (Err e);
  tryE: up ← call ErrPerfSQL (fun d => on (create_row projectID f traceID (clock d)) d) catch e => mret (Err e);
  mret (Ok (mkRecord (Some up.1) up.2 (negb up.2 && bool_decide (old = Some "resolved")) false)).

Definition claimNewIssue (projectID : Z) : prog D (result perf_error (bool * Z)) :=
  cutoff ← pgets (fun d => clock d - perfIssueWindow);
  tryE: row ← call ErrPerfSQL (fun d => on (claim_row projectID cutoff (clock d)) d) catch e => mret (Err e);
  match row with
  | Some _ => mret (Ok (true, 0))
  | None =>
      tryE: n ← call ErrPerfSQL (on (suppress_row projectID)) catch e => mret (Err e);
      mret (match n with Some n => Ok (false, n) | None => Err ErrPerfSQL end)
  end.

Definition Record_ (projectID : Z) (f : Finding) (traceID : string) : prog D (result perf_error RecordResult) :=
  sampleCutoff ← pgets (fun d => clock d - perfSampleTTL);
  tryE: res ← touch projectID f traceID sampleCutoff catch e => mret (Err e);
  match res with
  | Some r => mret (Ok r)
  | None =>
      tryE: c ← claimNewIssue projectID catch e => mret (Err e);
      if negb (fst c) then mret (Ok (mkRecord None false false true)) else create projectID f traceID
  end.

(** ** Reading and editing *)

Definition perf_rows (projectID : Z) (t : PerfTables) : list PerfIssue :=
  List.filter (fun i => pi_ProjectID i =? projectID) (map snd (map_to_list (perf_issues t))).

(** [ORDER BY last_seen DESC], ties in an order of the server's. *)
Definition perf_List (server_order : list PerfIssue -> list PerfIssue) (projectID : Z) (status culprit : string) (limit : Z) : prog D (result perf_error (list PerfIssue)) :=
  if negb (String.eqb status "") && negb (is_valid_status status) then mret (Err ErrPerfInvalidStatus) else
  let limit := if limit <=? 0 then defaultListLimit else limit in
  let limit := if maxListLimit <? limit then maxListLimit else limit in
  ask ErrPerfSQL (fun d => take (Z.to_nat limit) (server_order (List.filter (fun i =>
    (String.eqb status "" || String.eqb (pi_Status i) status) && (String.eqb culprit "" || String.eqb (pi_Culprit i) culprit))
    (perf_rows projectID (get d))))).

Definition perf_row (projectID id : Z) (t : PerfTables) : option PerfIssue :=
  match perf_issues t !! id with Some i => if pi_ProjectID i =? projectID then Some i else None | None => None end.

Definition perf_Get (projectID id : Z) : prog D (result perf_error PerfIssue) :=
  tryE: found ← ask ErrPerfSQL (fun d => perf_row projectID id (get d)) catch e => mret (Err e);
  mret (match found with Some i => Ok i | None => Err ErrPerfNotFound end).

Definition ProjectOf (id : Z) : prog D (result perf_error (option Z)) :=
  ask ErrPerfSQL (fun d => pi_ProjectID <$> perf_issues (get d) !! id).

Definition set_perf_status (projectID id : Z) (status : string) (t : PerfTables) : Z * PerfTables :=
  match perf_row projectID id t with
  | Some i => (1, with_issue id (i <| pi_Status := status |>) t)
  | None => (0, t)
  end.

Definition perf_SetStatus (projectID id : Z) (status : string) : prog D (result perf_error ()) :=
  if negb (is_valid_status status) then mret (Err ErrPerfInvalidStatus) else
  tryE: n ← call ErrPerfSQL (on (set_perf_status projectID id status)) catch e => mret (Err e);
  mret (if n =? 0 then Err ErrPerfNotFound else Ok tt).
End service.

(** ** The cap on new issues *)
Section cap.
Context {D : Type} `{Has PerfTables D} (clock : D -> Z) (t0 : Z).

(** The issues of a project. *)
Definition perf_count (projectID : Z) (t : PerfTables) : Z := map_sum (fun i => if pi_ProjectID i =? projectID then 1 else 0) (perf_issues t).

Record perf_wf (d : D) : Prop := {
  wf_clock : t0 <= clock d;
  wf_fresh k : next_perf (get d) <= k -> perf_issues (get d) !! k = None;
  wf_window p w : perf_issue_throttle (get d) !! p = Some w -> t0 <= window_start w <= clock d /\ 1 <= created w <= MaxNewPerfIssuesPerHour }.

(** What the windows opened so far allow. *)
Definition allowed (projectID : Z) (t : PerfTables) : Z :=
  match perf_issue_throttle t !! projectID with
  | Some w => MaxNewPerfIssuesPerHour * ((window_start w - t0) / perfIssueWindow) + created w
  | None => 0
  end.

Definition overdraft (d : D) (projectID : Z) : Z := perf_count projectID (get d) - allowed projectID (get d).

(** Time passes. *)
Definition later (d d' : D) : Prop := clock d <= clock d'.
#[local] Instance later_pre : PreOrder later.
Proof. split; [intros d; unfold later; lia|intros x y z; unfold later; lia]. Qed.

Context (clock_put : forall (t : PerfTables) (d : D), clock (put t d) = clock d).

Abbreviation hold := (holds false perf_wf later overdraft).
Definition nothing (_ : Z) : Z := 0.
Definition one_claim (projectID p : Z) : Z := if p =? projectID then 1 else 0.

Lemma find_perf_in p fp t k i : find_perf p fp t = Some (k, i) -> perf_issues t !! k = Some i /\ pi_ProjectID i = p.
Proof.
  unfold find_perf. destruct (List.filter _ _) as [|x l] eqn:Hl; [done|]. intros [= ->].
  assert (In (k, i) ((k, i) :: l)) as Hin by by left. rewrite <- Hl in Hin. apply filter_In in Hin as [Hin Hs]. split.
  - by apply elem_of_map_to_list, list_elem_of_In.
  - by apply andb_prop in Hs as [?%Z.eqb_eq _].
Qed.

(** New tables that are well formed, and what becomes of the account of each
    project. *)
Definition fair (t' : PerfTables) (own : Z -> Z) (own' : Z -> Z) (d : D) : Prop :=
  (forall k, next_perf t' <= k -> perf_issues t' !! k = None) /\
  (forall p w, perf_issue_throttle t' !! p = Some w -> t0 <= window_start w <= clock d /\ 1 <= created w <= MaxNewPerfIssuesPerHour) /\
  (forall p, 0 <= own' p /\ perf_count p t' - allowed p t' + own' p <= perf_count p (get d) - allowed p (get d) + own p).

Lemma fair_put t' own own' d : perf_wf d -> fair t' own own' d ->
  perf_wf (put t' d) /\ later d (put t' d) /\ settles false overdraft own d own' (put t' d).
Proof.
  intros Hwf (H1 & H2 & H3). split_and!.
  - split; rewrite ?get_put, ?clock_put; [apply (wf_clock d Hwf)|done|done].
  - unfold later. rewrite clock_put. lia.
  - intros p. unfold overdraft. rewrite get_put. simpl. apply H3.
Qed.

(** A call whose statement is fair, with a reply or without. *)
Lemma hold_call {A} (S : D -> Prop) (q : D -> PerfTables -> A * PerfTables) own (own' : result perf_error A -> Z -> Z) :
  stable perf_wf later S ->
  (forall d, perf_wf d -> S d -> fair (q d (get d)).2 own (own' (Ok (q d (get d)).1)) d /\ fair (q d (get d)).2 own (own' (Err ErrPerfSQL)) d) ->
  (forall p, 0 <= own' (Err ErrPerfSQL) p <= own p) ->
  hold S (call ErrPerfSQL (fun d => on (q d) d)) own own' (fun _ => S).
Proof.
  intros HS Hq Herr. apply holds_step; [done|]. intros f d Hwf Hd _. destruct (Hq d Hwf Hd) as [Hok Hlost].
  assert ((on (q d) d).2 = put (q d (get d)).2 d /\ (on (q d) d).1 = (q d (get d)).1) as [E1 E2].
  { unfold on. by destruct (q d (get d)). }
  destruct f; simpl; rewrite ?E1, ?E2.
  - destruct (fair_put _ own _ d Hwf Hok) as (? & ? & ?). split_and!; [done..|]. by apply (HS d).
  - split_and!; [done|reflexivity| |done]. intros p. specialize (Herr p). split; [lia|]. simpl. lia.
  - destruct (fair_put _ own _ d Hwf Hlost) as (? & ? & ?). split_and!; [done..|]. by apply (HS d).
Qed.

Lemma perf_wf_fresh d : perf_wf d -> perf_issues (get d) !! next_perf (get d) = None.
Proof. intros Hwf. apply (wf_fresh d Hwf). lia. Qed.

(** An issue changed in place. *)
Lemma fair_update own own' d k i i' : perf_wf d -> perf_issues (get d) !! k = Some i -> pi_ProjectID i' = pi_ProjectID i ->
  (forall p, 0 <= own' p <= own p) ->
  fair (with_issue k i' (get d)) own own' d.
Proof.
  intros Hwf Hi Hp Hown. split_and!; simpl.
  - intros k' Hk'. pose proof (wf_fresh d Hwf k' Hk') as Hn. rewrite lookup_insert_ne; [done|]. congruence.
  - apply (wf_window d Hwf).
  - intros p. split; [apply Hown|]. specialize (Hown p). unfold perf_count, allowed. simpl.
    rewrite (map_sum_update _ k i) by done. rewrite Hp. lia.
Qed.

Lemma fair_same own own' d : perf_wf d -> (forall p, 0 <= own' p <= own p) -> fair (get d) own own' d.
Proof.
  intros Hwf Hown. split_and!; [apply (wf_fresh d Hwf)|apply (wf_window d Hwf)|]. intros p. specialize (Hown p). lia.
Qed.

Lemma fair_touch p f tr cutoff d own own' : perf_wf d -> (forall p, 0 <= own' p <= own p) ->
  fair (touch_row p f tr cutoff (clock d) (get d)).2 own own' d.
Proof.
  intros Hwf Hown. unfold touch_row. destruct (find_perf p (f_Fingerprint f) (get d)) as [[k i]|] eqn:Hf.
  - apply find_perf_in in Hf as Hin. destruct Hin as [Hk _].
    pose proof (fair_update own own' d k i (touched f tr cutoff (clock d) i) Hwf Hk eq_refl Hown) as Hfair.
    exact Hfair.
  - by apply fair_same.
Qed.

Lemma fair_create p f tr d own' : perf_wf d -> (forall p', 0 <= own' p' <= 0) ->
  fair (create_row p f tr (clock d) (get d)).2 (one_claim p) own' d.
Proof.
  intros Hwf Hown. unfold create_row. destruct (find_perf p (f_Fingerprint f) (get d)) as [[k i]|] eqn:Hf.
  - apply find_perf_in in Hf as Hin. destruct Hin as [Hk _].
    pose proof (fair_update (one_claim p) own' d k i (conflicted f (clock d) i) Hwf Hk eq_refl) as Hfair.
    apply Hfair. intros p'. specialize (Hown p'). unfold one_claim. destruct (p' =? p); lia.
  - cbn [snd]. split_and!; simpl.
    + intros k Hk. rewrite lookup_insert_ne by lia. apply (wf_fresh d Hwf). lia.
    + apply (wf_window d Hwf).
    + intros p'. specialize (Hown p'). split; [lia|]. unfold perf_count, allowed. simpl.
      rewrite map_sum_insert by by apply perf_wf_fresh. unfold one_claim. simpl. rewrite (Z.eqb_sym p p'). destruct (p' =? p); lia.
Qed.

Lemma fair_suppress p d own own' : perf_wf d -> (forall p, 0 <= own' p <= own p) ->
  fair (suppress_row p (get d)).2 own own' d.
Proof.
  intros Hwf Hown. unfold suppress_row. destruct (perf_issue_throttle (get d) !! p) as [w|] eqn:Hw; cbn [snd]; [|by apply fair_same].
  - split_and!; simpl; [apply (wf_fresh d Hwf)| |].
    + intros p' w' [[<- <-]|[_ Hw']]%lookup_insert_Some; [apply (wf_window d Hwf p w Hw)|by apply (wf_window d Hwf p')].
    + intros p'. specialize (Hown p'). split; [lia|]. unfold perf_count, allowed. simpl.
      destruct (decide (p = p')) as [<-|Hne]; [rewrite lookup_insert_eq, Hw; simpl; lia|rewrite lookup_insert_ne by done; lia].
Qed.

Lemma div_window_next a b : a + perfIssueWindow <= b -> (a - t0) / perfIssueWindow + 1 <= (b - t0) / perfIssueWindow.
Proof.
  intros Hab. assert (0 < perfIssueWindow) by (vm_compute; done).
  rewrite <- (Z.div_add _ 1) by lia. apply Z.div_le_mono; lia.
Qed.

Lemma div_window_nonneg a : t0 <= a -> 0 <= (a - t0) / perfIssueWindow.
Proof. intros Ha. apply Z.div_pos; [lia|]. by vm_compute. Qed.

(** A claim pays for one issue. *)
Lemma fair_claim p cutoff d : perf_wf d -> cutoff + perfIssueWindow <= clock d ->
  fair (claim_row p cutoff (clock d) (get d)).2 nothing (match (claim_row p cutoff (clock d) (get d)).1 with Some _ => one_claim p | None => nothing end) d.
Proof.
  intros Hwf Hcut. pose proof (wf_clock d Hwf) as Hclock.
  assert (forall w, t0 <= window_start w <= clock d -> 1 <= created w <= MaxNewPerfIssuesPerHour ->
    (match perf_issue_throttle (get d) !! p with Some w0 => MaxNewPerfIssuesPerHour * ((window_start w0 - t0) / perfIssueWindow) + created w0 | None => 0 end) + 1
      <= MaxNewPerfIssuesPerHour * ((window_start w - t0) / perfIssueWindow) + created w ->
    fair (with_window p w (get d)) nothing (one_claim p) d) as Hopen.
  { intros w Hw1 Hw2 Hmore. split_and!; simpl; [apply (wf_fresh d Hwf)| |].
    - intros p' w' [[<- <-]|[_ Hw']]%lookup_insert_Some; [done|by apply (wf_window d Hwf p')].
    - intros p'. unfold one_claim, nothing, perf_count, allowed. simpl. destruct (Z.eqb_spec p' p) as [->|Hne].
      + rewrite lookup_insert_eq. lia.
      + rewrite lookup_insert_ne by done. lia. }
  unfold claim_row. destruct (perf_issue_throttle (get d) !! p) as [w|] eqn:Hw.
  - destruct (wf_window d Hwf p w Hw) as [Hw1 Hw2]. destruct (Z.leb_spec (window_start w) cutoff) as [Hover|Hcur]; cbn [orb].
    + cbn [fst snd]. apply (Hopen (mkThrottle (clock d) 1 0)); simpl; [lia|unfold MaxNewPerfIssuesPerHour; lia|].
      pose proof (div_window_next (window_start w) (clock d) ltac:(lia)). unfold MaxNewPerfIssuesPerHour in *. lia.
    + destruct (Z.ltb_spec (created w) MaxNewPerfIssuesPerHour) as [Hroom|Hfull].
      * cbn [fst snd]. apply (Hopen (mkThrottle (window_start w) (created w + 1) (suppressed w))); simpl; lia.
      * by apply fair_same.
  - cbn [fst snd]. apply (Hopen (mkThrottle (clock d) 1 0)); simpl; [lia|unfold MaxNewPerfIssuesPerHour; lia|].
    pose proof (div_window_nonneg (clock d) Hclock). unfold MaxNewPerfIssuesPerHour. lia.
Qed.

Abbreviation free p := (hold (fun _ => True) p nothing (fun _ => nothing) (fun _ _ => True)).

Lemma one_claim_bounds projectID p : 0 <= one_claim projectID p.
Proof. unfold one_claim. destruct (_ =? _); lia. Qed.

(** A query; something held may be given up. *)
Lemma hold_ask {A} (S : D -> Prop) (f : D -> A) own (W : result perf_error A -> Z -> Z) : stable perf_wf later S ->
  (forall r p, 0 <= W r p <= own p) -> hold S (ask ErrPerfSQL f) own W (fun _ => S).
Proof.
  intros HS HW. apply holds_step; [done|]. intros g d Hwf Hd _.
  assert ((match g with FLost => d | _ => d end) = d) as E by by destruct g. cbn [snd]. rewrite E. split_and!; [done|reflexivity| |done].
  match goal with |- settles _ _ _ _ (W ?r) _ => generalize r end. intros r p. specialize (HW r p). split; [lia|]. unfold meets. lia.
Qed.

(** A call and what follows; an error gives up what was held. *)
Lemma hold_try {A B} (S T : D -> Prop) (p : prog D (result perf_error A)) (k : A -> prog D (result perf_error B)) own (W : result perf_error A -> Z -> Z) :
  hold S p own W (fun _ => T) -> (forall e x, W (Err e) x = 0) ->
  (forall a, hold T (k a) (W (Ok a)) (fun _ => nothing) (fun _ _ => True)) ->
  hold S (mbind (fun r => match r with Ok a => k a | Err e => mret (Err e) end) p) own (fun _ => nothing) (fun _ _ => True).
Proof. intros Hp Herr Hk. eapply holds_bind; [exact Hp|]. intros [a|e]; [apply Hk|]. by apply holds_ret. Qed.

Definition claim_of {A} (projectID : Z) (r : result perf_error A) : Z -> Z := match r with Ok _ => one_claim projectID | Err _ => nothing end.

Lemma touch_free S p f tr cutoff : stable perf_wf later S -> hold S (touch clock p f tr cutoff) nothing (fun _ => nothing) (fun _ _ => True).
Proof.
  intros HS. unfold touch. eapply (hold_try S S _ _ _ (fun _ => nothing)); [by apply hold_ask|done|]. intros [status|]; [|by apply holds_ret].
  eapply (hold_try S S _ _ _ (fun _ => nothing)); [|done|intros up; by apply holds_ret].
  apply hold_call; [done| |done]. intros d Hwf _. split; by apply fair_touch.
Qed.

Lemma create_pays S p f tr : stable perf_wf later S -> hold S (create clock p f tr) (one_claim p) (fun _ => nothing) (fun _ _ => True).
Proof.
  intros HS. unfold create. eapply (hold_try S S _ _ _ (claim_of p)); [apply hold_ask; [done|]|done|].
  - intros r x. pose proof (one_claim_bounds p x). destruct r; unfold claim_of, nothing; lia.
  - intros old. eapply (hold_try S S _ _ _ (fun _ => nothing)); [|done|intros up; by apply holds_ret].
    apply hold_call; [done| |intros x; pose proof (one_claim_bounds p x); cbv beta; unfold claim_of, nothing; lia].
    intros d Hwf _. split; by apply fair_create.
Qed.

(** What a claim leaves in hand. *)
Definition claimed (projectID : Z) (r : result perf_error (bool * Z)) : Z -> Z := match r with Ok (true, _) => one_claim projectID | _ => nothing end.

Lemma claimNewIssue_claims p : hold (fun _ => True) (claimNewIssue clock p) nothing (claimed p) (fun _ _ => True).
Proof.
  unfold claimNewIssue.
  eapply (holds_bind _ _ _ _ _ _ _ _ (fun _ => nothing) (fun cutoff d => cutoff + perfIssueWindow <= clock d)).
  { apply holds_step; [|intros g d Hwf _ _; split_and!; [done|reflexivity|done|lia]]. intros cutoff d d' _ _ Hl. unfold later in Hl. lia. }
  intros cutoff. set (S := fun d => cutoff + perfIssueWindow <= clock d). assert (stable perf_wf later S) as HS.
  { intros d d' _ _ Hl. unfold later, S in *. lia. }
  set (W := fun r : result perf_error (option Z) => match r with Ok (Some _) => one_claim p | _ => nothing end).
  eapply (holds_bind _ _ _ _ _ _ _ _ W (fun _ => S)).
  - apply hold_call; [done| |done]. intros d Hwf Hcut.
    pose proof (fair_claim p cutoff d Hwf Hcut) as Hfair. split.
    + unfold W. destruct (claim_row p cutoff (clock d) (get d)) as [[n|] t]; exact Hfair.
    + destruct Hfair as (H1 & H2 & H3). split_and!; [done..|]. intros x. specialize (H3 x). unfold W.
      pose proof (one_claim_bounds p x). destruct (claim_row p cutoff (clock d) (get d)).1; unfold nothing in *; lia.
  - intros [[n|]|e]; [by apply holds_ret| |by apply holds_ret].
    eapply (holds_bind _ _ _ _ _ _ _ _ (fun _ => nothing) (fun _ => S)).
    + apply hold_call; [done| |done]. intros d Hwf _. split; by apply fair_suppress.
    + intros [[m|]|e]; by apply holds_ret.
Qed.

Lemma Record_free p f tr : free (Record_ clock p f tr).
Proof.
  unfold Record_. eapply (holds_bind _ _ _ _ _ _ _ _ (fun _ => nothing) (fun _ _ => True)).
  { apply holds_step; [intros ?; apply stable_true|]. intros g d Hwf _ _. by split_and!. }
  intros cutoff. eapply (hold_try _ (fun _ => True) _ _ _ (fun _ => nothing)); [apply touch_free, stable_true|done|].
  intros [r|]; [by apply holds_ret|].
  eapply holds_bind; [apply claimNewIssue_claims|]. intros [[[] n]|e]; [apply create_pays, stable_true|by apply holds_ret..].
Qed.

Lemma SetStatus_free p id status : free (perf_SetStatus p id status).
Proof.
  unfold perf_SetStatus. destruct (negb _); [by apply holds_ret|].
  eapply (hold_try _ (fun _ => True) _ _ _ (fun _ => nothing)); [|done|intros n; by apply holds_ret].
  apply (hold_call _ (fun _ => set_perf_status p id status)); [apply stable_true| |done].
  intros d Hwf _. assert (fair (set_perf_status p id status (get d)).2 nothing nothing d); [|by split].
  unfold set_perf_status, perf_row. destruct (perf_issues (get d) !! id) as [i|] eqn:Hi; [|by apply fair_same].
  destruct (_ =? _); [|by apply fair_same]. by apply (fair_update _ _ _ _ i).
Qed.

(** What runs: workers that record findings, people who edit statuses. *)
Inductive perf_process : prog D () -> Prop :=
| runs_record p f tr : perf_process (mbind (fun _ => mret tt) (Record_ clock p f tr))
| runs_status p id status : perf_process (mbind (fun _ => mret tt) (perf_SetStatus p id status)).

(** Time passes, and the rest of the service works on other tables. *)
Definition perf_env (d d' : D) : Prop := get d' = get d /\ clock d <= clock d'.

(** C14: A project never has more issues than the hours since the service began
    allow: at most [MaxNewPerfIssuesPerHour] for each hour begun, whichever
    workers record findings at the same time, however long one waits between
    its claim and its insert, and whatever statements fail or processes die. *)
Theorem perf_issues_capped d0 s projectID :
  perf_issues (get d0) = ∅ -> perf_issue_throttle (get d0) = ∅ -> clock d0 = t0 ->
  rtc (pool_step perf_process perf_env) (Pool d0 [] 0) s ->
  perf_count projectID (get (shared s)) <= MaxNewPerfIssuesPerHour * ((clock (shared s) - t0) / perfIssueWindow + 1).
Proof.
  intros Hi Ht Hc Hr.
  destruct (credit_reach false perf_wf later overdraft perf_process perf_env) with (d0 := d0) (s := s) as [Hwf Hbal]; try done.
  - intros q [p f tr|p id status]; (eapply holds_bind; [apply Record_free || apply SetStatus_free|]); intros r; by apply holds_ret.
  - intros d d' [Hget Hclk] Hwf. split_and!; [|done|].
    + split; rewrite ?Hget; [pose proof (wf_clock d Hwf); lia|apply (wf_fresh d Hwf)|].
      intros p w Hw. destruct (wf_window d Hwf p w Hw). split; lia.
    + intros p. unfold meets, overdraft. rewrite Hget. lia.
  - split; [lia|intros k _; by rewrite Hi, lookup_empty|]. intros p w. by rewrite Ht, lookup_empty.
  - intros p. unfold overdraft, perf_count, allowed. by rewrite Hi, Ht, lookup_empty, map_sum_empty.
  - specialize (Hbal projectID). unfold overdraft, allowed in Hbal.
    destruct (perf_issue_throttle (get (shared s)) !! projectID) as [w|] eqn:Hw.
    + destruct (wf_window _ Hwf _ _ Hw) as [? ?].
      assert ((window_start w - t0) / perfIssueWindow <= (clock (shared s) - t0) / perfIssueWindow).
      { apply Z.div_le_mono; [by vm_compute|lia]. }
      unfold MaxNewPerfIssuesPerHour in *. lia.
    + pose proof (wf_clock _ Hwf). pose proof (div_window_nonneg (clock (shared s)) ltac:(lia)). unfold MaxNewPerfIssuesPerHour. lia.
Qed.
End cap.

(** ** Instance *)

Definition slow_query (n : string) : Finding := mkFinding "slow_db_query" "GET /" n "SELECT ?" ∅.

(** Two findings of one project, one after the other. *)
Definition ex_start : PerfTables * Z := (mkPerfTables ∅ 1 ∅, 0).
Definition ex_record (n : string) : prog (PerfTables * Z) () := mbind (fun _ => mret tt) (Record_ snd 7 (slow_query n) "t").

Lemma perf_issues_capped_witness :
  exists s, rtc (pool_step (perf_process snd) (perf_env snd)) (Pool ex_start [] 0) s /\
    perf_count 7 (get (shared s)) = 2 /\
    perf_count 7 (get (shared s)) <= MaxNewPerfIssuesPerHour * ((snd (shared s) - 0) / perfIssueWindow + 1).
Proof.
  set (d1 := (exec0 (ex_record "a") ex_start).2). set (d2 := (exec0 (ex_record "b") d1).2).
  assert (rtc (pool_step (perf_process snd) (perf_env snd)) (Pool ex_start [] 0) (Pool d2 [] 0)) as Hr.
  { etrans; [apply (pool_exec _ _ (ex_record "a")); apply runs_record|]. apply (pool_exec _ _ (ex_record "b") d1 0). apply runs_record. }
  exists (Pool d2 [] 0). split; [exact Hr|]. split; [vm_compute; reflexivity|].
  exact (perf_issues_capped snd 0 (fun t d => eq_refl) ex_start (Pool d2 [] 0) 7 eq_refl eq_refl eq_refl Hr).
Defined.
