(* ===== verification/Ingest.v ===== *)
(** The ingestion pipeline: [internal/ingest/pipeline.go].

    [Enqueue] and [EnqueueTransaction], called by any number of requests, put
    tasks in a bounded queue under a budget of bytes; workers take them out,
    group events into issues, scrub them and hand them to the buffers in front
    of ClickHouse.  A task is stored or counted as dropped, for one of five
    reasons; the drops of an organisation are gathered and flushed.

    [Pipeline] is the struct, its atomic counters and its channel; the last
    four fields record what happened and are read by nobody. *)
From stdpp Require Import base tactics list gmap strings relations.
From Stdlib Require Import ZArith Lia.
From coqutil Require Import Datatypes.RecordSetters.
From S2P Require Import Prelude.
From S2P Require Import GoString.
From S2P Require Import Json.
From S2P Require Import Prog.
From S2P Require Import Rely.
From S2P Require Import Ledger.
From S2P Require Import Environment.
From S2P Require Batcher.
From S2P Require Import Quota.
From S2P Require Import Alert.
From S2P Require AlertBudget.
From S2P Require Import Trace.
From S2P Require Import Normalize.
From S2P Require Import Detect.
From S2P Require Import Scrub.
From S2P Require Import Fingerprint.
From S2P Require Import Issue.
From S2P Require Import PerfIssue.

Import RecordSetters.TriangleBracketNotations.
Open Scope Z_scope.
Open Scope go_scope.

(** ** Data *)

Inductive DropReason := DropQueueFull | DropQueueBytes | DropStorageError | DropPanic | DropClosed.
#[export] Instance DropReason_eq_dec : EqDecision DropReason.
Proof. solve_decision. Defined.

Definition dropReasons : list DropReason := [DropQueueFull; DropQueueBytes; DropStorageError; DropPanic; DropClosed].

Definition dropEvent : Z := 0.
Definition dropTransaction : Z := 1.

(** Organisation, kind and month. *)
Definition dropAggKey : Type := Z * Z * Z.
Definition dropMonthKey (t : Z) : Z := monthStart t.

Record ParsedEvent := mkParsed {
  EventID : string; pe_Timestamp : Z; pe_Level : string; pe_Message : string; pe_Exceptions : list Exception;
  StacktraceJSON : string; pe_Environment : string; pe_Release : string; pe_ServerName : string; pe_SDK : string;
  pe_UserID : string; pe_UserIP : string; pe_UserEmail : string; pe_Tags : gmap string string;
  ContextsJSON : string; BreadcrumbsJSON : string; RequestJSON : string; pe_Fingerprint : list string;
  pe_Title : string; pe_Culprit : string; pe_TraceID : string; pe_SpanID : string }.

Inductive payload := TaskEvent (ev : ParsedEvent) | TaskTransaction (tx : Transaction).
Record task := mkTask { tk_projectID : Z; tk_orgID : Z; work : payload; tk_bytes : Z }.

Record Pipeline := mkPipeline {
  queue : list task; queueBytes : Z; maxQueueBytes : Z; closed : bool; stopping : bool; readers : Z;
  drops : DropReason -> Z; dropAgg : gmap dropAggKey Z; backpressureWaits : Z; backpressureWaitNanos : Z;
  offered : Z; billable : Z -> Z; drained : Z -> Z; crashed : bool }.

Definition queueCap : Z := 1000.
Definition defaultMaxQueueBytes : Z := Z.shiftl 64 20.
Definition backpressureWaitBudget : Z := 2 * second.
Definition backpressurePollInterval : Z := 50 * 1000000.
Definition perfDetectBudget : Z := 10 * second.

Definition NewPipeline : Pipeline :=
  mkPipeline [] 0 0 false false 0 (fun _ => 0) ∅ 0 0 0 (fun _ => 0) (fun _ => 0) false.

(** ** The weight of a task *)

Definition len := Batcher.len.

Fixpoint dataValueBytes (v : json) : Z :=
  match v with
  | JStr s => len s
  | JObj m => map_fold (fun k v n => len k + dataValueBytes v + n) 0 m
  | JArr l => foldr (fun v n => dataValueBytes v + n) 0 l
  | _ => 8
  end.

Definition dataMapBytes (m : gmap string json) : Z := map_fold (fun k v n => len k + dataValueBytes v + n) 0 m.
Definition tagBytes (tags : gmap string string) : Z := map_fold (fun k v n => len k + len v + n) 0 tags.
Definition total {A} (f : A -> Z) (l : list A) : Z := foldr (fun a n => f a + n) 0 l.

Definition taskOverheadBytes : Z := 256.

Definition payloadBytes (w : payload) : Z :=
  match w with
  | TaskEvent ev =>
      len (ContextsJSON ev) + len (BreadcrumbsJSON ev) + len (RequestJSON ev) + len (StacktraceJSON ev) +
      len (pe_Message ev) + len (pe_Culprit ev) + len (pe_Title ev) +
      total (fun exc => len (ex_Type exc) + len (ex_Value exc) +
        total (fun fr => len (fr_Function fr) + len (fr_Module fr)) (Frames exc)) (pe_Exceptions ev) +
      tagBytes (pe_Tags ev)
  | TaskTransaction tx =>
      len (t_Name tx) + len (t_TraceID tx) + len (t_Environment tx) + tagBytes (t_Tags tx) +
      total (fun sp => len (s_Description sp) + len (s_Op sp) + len (s_SpanID sp) + len (s_Status sp) + dataMapBytes (Data sp)) (t_Spans tx)
  end.
Definition taskBytes (w : payload) : Z := payloadBytes w + taskOverheadBytes.

Definition taskDropKind (w : payload) : Z := match w with TaskTransaction _ => dropTransaction | TaskEvent _ => dropEvent end.

(** ** Counters *)

Definition queueLimit (p : Pipeline) : Z := if 0 <? maxQueueBytes p then maxQueueBytes p else defaultMaxQueueBytes.
Definition SetMaxQueueBytes (n : Z) (p : Pipeline) : Pipeline := p <| maxQueueBytes := if n <=? 0 then defaultMaxQueueBytes else n |>.

Definition bump {A} `{EqDecision A} (a : A) (n : Z) (f : A -> Z) : A -> Z := fun b => if decide (b = a) then f b + n else f b.

(** The drop of a task whose organisation is billed for drops is recorded. *)
Definition drop_one (reason : DropReason) (orgID : Z) (p : Pipeline) : Pipeline :=
  p <| drops := bump reason 1 (drops p) |> <| billable := if 0 <? orgID then bump orgID 1 (billable p) else billable p |>.

Definition agg_add (orgID kind month n : Z) (p : Pipeline) : Pipeline :=
  p <| dropAgg := <[(orgID, kind, month) := default 0 (dropAgg p !! (orgID, kind, month)) + n]> (dropAgg p) |>.

(** What the pending drops of an organisation come to. *)
Definition agg_of (orgID : Z) (m : gmap dropAggKey Z) : Z := map_fold (fun k n acc => (if k.1.1 =? orgID then n else 0) + acc) 0 m.

Definition drain_agg (p : Pipeline) : gmap dropAggKey Z * Pipeline :=
  (dropAgg p, p <| dropAgg := ∅ |> <| drained := fun org => drained p org + agg_of org (dropAgg p) |>).

Definition Dropped (p : Pipeline) : Z := total (drops p) dropReasons.
Definition Queued (p : Pipeline) : Z := Z.of_nat (length (queue p)).

(** ** The budget and the queue *)

(** The loop around [CompareAndSwap] succeeds on the value last read. *)
Definition admit_bytes (size : Z) (p : Pipeline) : bool * Pipeline :=
  if queueLimit p <? queueBytes p + size then (false, p) else (true, p <| queueBytes := queueBytes p + size |>).
Definition release_bytes (size : Z) (p : Pipeline) : Pipeline := p <| queueBytes := queueBytes p - size |>.

(** [closeMu.RLock] and the test of [closed]: once it is set no reader is
    waited for. *)
Definition enter (p : Pipeline) : bool * Pipeline :=
  let p := p <| offered := offered p + 1 |> in
  if closed p then (false, p) else (true, p <| readers := readers p + 1 |>).
Definition leave (p : Pipeline) : Pipeline := p <| readers := readers p - 1 |>.

(** A send that does not wait; on a closed channel it would end the process. *)
Definition try_send (t : task) (p : Pipeline) : bool * Pipeline :=
  if closed p then (false, p <| crashed := true |>)
  else if Queued p <? queueCap then (true, p <| queue := queue p ++ [t] |>) else (false, p).

Definition receive (p : Pipeline) : option task * Pipeline :=
  match queue p with t :: q => (Some t, p <| queue := q |>) | [] => (None, p) end.

(** [closeMu.Lock] is had when no reader is left. *)
Definition close_queue (p : Pipeline) : option bool * Pipeline :=
  if closed p then (Some false, p)
  else if readers p =? 0 then (Some true, p <| closed := true |> <| stopping := true |>) else (None, p).

(** ** What the pipeline calls *)

(** The interfaces of its fields.  [full] is [saturationOf(sink) >= 1.0]; a
    call that returns [false] panicked. *)
Record EventSink D := mkEventSink { events_add : Batcher.Event -> prog D (); events_full : D -> bool }.
Record SpanSink D := mkSpanSink { spans_add : Z -> Z -> Transaction -> prog D (); spans_full : D -> bool }.
Record PerfNotifier D := mkPerfNotifier {
  NotifyNew : Z -> option PerfIssue -> prog D (result () ()); NotifyRegression : Z -> option PerfIssue -> prog D (result () ()) }.
Arguments events_add {D}. Arguments events_full {D}. Arguments spans_add {D}. Arguments spans_full {D}.
Arguments NotifyNew {D}. Arguments NotifyRegression {D}.

Record Sinks D := mkSinks {
  batcher : EventSink D;
  Alerts : option (AlertBudget.Event -> prog D bool);
  Spans : option (SpanSink D);
  Perf : option (Z -> Finding -> string -> prog D (option (result perf_error RecordResult)));
  PerfAlerts : option (PerfNotifier D);
  Maint : option (Z -> Z -> prog D (result () bool));
  Projects : option (Z -> prog D (result () DetectorConfig));
  DropCounter : option (dropAggKey -> Z -> prog D (result () ())) }.
Arguments batcher {D}. Arguments Alerts {D}. Arguments Spans {D}. Arguments Perf {D}. Arguments PerfAlerts {D}.
Arguments Maint {D}. Arguments Projects {D}. Arguments DropCounter {D}.

(** Code of ours that may panic: it does when the statement is lost. *)
Definition may_panic {D} : prog D bool := Step (fun _ d => d) (fun f _ => Ret (match f with FNone => true | _ => false end)).

Section pipeline.
Context `{Unicode} {D : Type} `{Has Pipeline D} `{Has IssueTables D}.
Context (clock : D -> Z) (scrubber : option Scrubber) (sinks : Sinks D).
(** The ticks of one wait before its deadline. *)
Context (ticks : nat).

(** An atomic operation on the counters, or a critical section. *)
Definition upd {A} (f : Pipeline -> A * Pipeline) : prog D A := locked (on f).
Definition set_ (f : Pipeline -> Pipeline) : prog D () := upd (fun p => (tt, f p)).

(** ** Drops *)

Definition countDropped (reason : DropReason) (orgID : Z) : prog D () := set_ (drop_one reason orgID).

(** [fresh]: the drops were recorded nowhere before. *)
Definition countDroppedOrg (fresh : bool) (orgID kind n : Z) : prog D () :=
  if is_nil (DropCounter sinks) || (orgID <=? 0) || (n <=? 0) then mret tt else
  now ← pgets clock;
  set_ (fun p => agg_add orgID kind (dropMonthKey now) n (if fresh then p <| billable := bump orgID n (billable p) |> else p)).

Definition dropped_task (reason : DropReason) (orgID kind : Z) : prog D () :=
  _x ← countDropped reason orgID; countDroppedOrg false orgID kind 1.

Definition drainDropAgg : prog D (gmap dropAggKey Z) := upd drain_agg.

Fixpoint flush_keys (inc : dropAggKey -> Z -> prog D (result () ())) (l : list (dropAggKey * Z)) : prog D () :=
  match l with
  | [] => mret tt
  | (key, n) :: l => _x ← inc key n; flush_keys inc l
  end.

Definition flushDropped : prog D () :=
  match DropCounter sinks with
  | None => mret tt
  | Some inc => agg ← drainDropAgg; flush_keys inc (map_to_list agg)
  end.

(** ** Admission *)

Definition admit_task (size : Z) : prog D bool := upd (admit_bytes size).
Definition release (size : Z) : prog D () := set_ (release_bytes size).

(** [Enqueue] and [EnqueueTransaction]. *)
Definition enqueue (projectID orgID : Z) (w : payload) : prog D bool :=
  let kind := taskDropKind w in
  open ← upd enter;
  if negb open then _x ← dropped_task DropClosed orgID kind; mret false else
  let t := mkTask projectID orgID w (taskBytes w) in
  admitted ← admit_task (tk_bytes t);
  sent ← (if negb admitted then _x ← dropped_task DropQueueBytes orgID kind; mret false else
          sent ← upd (try_send t);
          if sent : bool then mret true else
          _x ← release (tk_bytes t); _x ← dropped_task DropQueueFull orgID kind; mret false);
  _x ← set_ leave;
  mret sent.

Definition Enqueue (projectID orgID : Z) (ev : ParsedEvent) : prog D bool := enqueue projectID orgID (TaskEvent ev).
Definition EnqueueTransaction (projectID orgID : Z) (tx : Transaction) : prog D bool := enqueue projectID orgID (TaskTransaction tx).

Definition TracingEnabled : bool := negb (is_nil (Spans sinks)).

(** ** Waiting for room *)

Fixpoint wait_ticks (n : nat) (full : D -> bool) : prog D () :=
  match n with
  | O => mret tt
  | S n =>
      stop ← pgets (fun d => stopping (get d));
      if stop : bool then mret tt else
      still ← pgets full;
      if still : bool then wait_ticks n full else mret tt
  end.

Definition waitForRoom (full : D -> bool) : prog D () :=
  saturated ← pgets full;
  if negb saturated then mret tt else
  start ← pgets clock;
  _x ← set_ (fun p => p <| backpressureWaits := backpressureWaits p + 1 |>);
  _x ← wait_ticks ticks full;
  now ← pgets clock;
  set_ (fun p => p <| backpressureWaitNanos := backpressureWaitNanos p + (now - start) |>).

(** ** Events *)

Definition alert_issue (projectID : Z) (ev : ParsedEvent) (title : string) (res : UpsertResult) : prog D bool :=
  match Alerts sinks with
  | Some OnIssue =>
      if New res || Regression res then
        found ← Issue.Get (up_IssueID res);
        let timesSeen := match found with Ok (i, _) => is_TimesSeen i | Err _ => 1 end in
        OnIssue (AlertBudget.mkEvent projectID (up_IssueID res) (if Regression res then KindRegression else KindNewIssue)
          title (pe_Culprit ev) (pe_Level ev) timesSeen)
      else mret true
  | None => mret true
  end.

Definition last_exception (ev : ParsedEvent) : string * string :=
  match last (pe_Exceptions ev) with Some ex => (ex_Type ex, ex_Value ex) | None => ("", "") end.

(** The row of an event, scrubbed. *)
Definition event_row (projectID orgID : Z) (ev : ParsedEvent) (issueID : Z) : Batcher.Event :=
  let '(excType, excValue) := last_exception ev in
  let '(ip, email) := op_ScrubUser scrubber (pe_UserIP ev) (pe_UserEmail ev) in
  Batcher.mkEvent (EventID ev) orgID projectID issueID (pe_Timestamp ev) (pe_Level ev)
    (op_ScrubMessage scrubber (pe_Message ev)) excType (op_ScrubMessage scrubber excValue)
    (op_ScrubJSON scrubber (StacktraceJSON ev)) (pe_Environment ev) (pe_Release ev) (pe_ServerName ev) (pe_SDK ev)
    (pe_UserID ev) ip email (map_to_list (op_ScrubTags scrubber (pe_Tags ev)))
    (op_ScrubJSON scrubber (ContextsJSON ev)) (op_ScrubJSON scrubber (BreadcrumbsJSON ev)) (op_ScrubJSON scrubber (RequestJSON ev))
    (pe_TraceID ev) (pe_SpanID ev).

(** [false]: panicked before the event was handed over. *)
Definition process_event (projectID orgID : Z) (ev : ParsedEvent) : prog D bool :=
  fine ← may_panic;
  if negb fine then mret false else
  let fp := Compute (mkFpInput (pe_Fingerprint ev) (pe_Exceptions ev) (pe_Message ev)) in
  let title := op_ScrubMessage scrubber (pe_Title ev) in
  upserted ← Upsert projectID fp title (pe_Culprit ev) (pe_Level ev) (pe_Environment ev) (pe_Timestamp ev);
  match upserted with
  | Err _ => _x ← dropped_task DropStorageError orgID dropEvent; mret true
  | Ok res =>
      fine ← alert_issue projectID ev title res;
      if negb fine then mret false else
      fine ← may_panic;
      if negb fine then mret false else
      _x ← waitForRoom (events_full (batcher sinks));
      _x ← events_add (batcher sinks) (event_row projectID orgID ev (up_IssueID res));
      mret true
  end.

(** ** Transactions *)

Definition detectorConfig (projectID : Z) : prog D DetectorConfig :=
  match Projects sinks with
  | None => mret DefaultDetectorConfig
  | Some resolve => cfg ← resolve projectID; mret (match cfg with Ok c => c | Err _ => DefaultDetectorConfig end)
  end.

(** [None]: panicked. *)
Definition recordFinding (record : Z -> Finding -> string -> prog D (option (result perf_error RecordResult)))
    (projectID : Z) (tx : Transaction) (f : Finding) : prog D (option ()) :=
  recorded ← record projectID f (t_TraceID tx);
  match recorded, PerfAlerts sinks with
  | None, _ => mret None
  | Some (Err _), _ | _, None => mret (Some tt)
  | Some (Ok res), Some alerts =>
      if negb (Created res) && negb (rr_Regression res) then mret (Some tt) else
      quiet ← match Maint sinks with
              | None => mret false
              | Some inMaintenance =>
                  now ← pgets clock;
                  r ← inMaintenance projectID now;
                  mret (match r with Ok b => b | Err _ => false end)
              end;
      if quiet : bool then mret (Some tt) else
      _x ← (if rr_Regression res then NotifyRegression alerts else NotifyNew alerts) projectID (rr_Issue res);
      mret (Some tt)
  end.

Fixpoint record_findings (record : Z -> Finding -> string -> prog D (option (result perf_error RecordResult)))
    (deadline projectID : Z) (tx : Transaction) (fs : list Finding) : prog D () :=
  match fs with
  | [] => mret tt
  | f :: fs =>
      late ← pgets (fun d => deadline <=? clock d);
      if late : bool then mret tt else
      r ← recordFinding record projectID tx f;
      match r with None => mret tt | Some _ => record_findings record deadline projectID tx fs end
  end.

(** A panic ends the detection and nothing else. *)
Definition detectPerfIssues (projectID : Z) (tx : Transaction) : prog D () :=
  match Perf sinks with
  | None => mret tt
  | Some record =>
      now ← pgets clock;
      cfg ← detectorConfig projectID;
      fine ← may_panic;
      if negb fine then mret tt else
      record_findings record (now + perfDetectBudget) projectID tx (Detect tx cfg)
  end.

Definition scrub_span (sp : Span) : Span :=
  mkSpan (s_SpanID sp) (ParentSpanID sp) (s_Op sp) (op_ScrubMessage scrubber (s_Description sp)) (s_Start sp) (s_End sp) (s_Status sp)
    (op_ScrubData scrubber (Data sp)).

Definition scrub_transaction (tx : Transaction) : Transaction :=
  mkTransaction (t_TraceID tx) (t_SpanID tx) (op_ScrubMessage scrubber (t_Name tx)) (t_Op tx) (t_Status tx) (t_Start tx) (t_End tx)
    (t_Environment tx) (t_Release tx) (t_ServerName tx) (t_UserID tx) (op_ScrubTags scrubber (t_Tags tx)) (map scrub_span (t_Spans tx)) (t_Source tx).

Definition processTransaction (orgID projectID : Z) (tx : Transaction) : prog D bool :=
  match Spans sinks with
  | None => mret true
  | Some spans =>
      fine ← may_panic;
      if negb fine then mret false else
      let tx := scrub_transaction tx in
      _x ← waitForRoom (spans_full spans);
      _x ← spans_add spans orgID projectID tx;
      _x ← detectPerfIssues projectID tx;
      mret true
  end.

(** ** Workers *)

Definition process (t : task) : prog D bool :=
  match work t with
  | TaskTransaction tx => processTransaction (tk_orgID t) (tk_projectID t) tx
  | TaskEvent ev => process_event (tk_projectID t) (tk_orgID t) ev
  end.

(** The recovery runs before the deferred release. *)
Definition processGuarded (t : task) : prog D () :=
  fine ← process t;
  _x ← (if fine : bool then mret tt else dropped_task DropPanic (tk_orgID t) (taskDropKind (work t)));
  release (tk_bytes t).

(** [n] turns of [for t := range p.queue]; an empty queue is waited on. *)
Fixpoint worker (n : nat) : prog D () :=
  match n with
  | O => mret tt
  | S n =>
      t ← upd receive;
      match t with
      | Some t => _x ← processGuarded t; worker n
      | None => worker n
      end
  end.

(** ** Shutdown *)

(** [None]: still waiting for the lock. *)
Fixpoint Close (patience : nat) : prog D (option ()) :=
  match patience with
  | O => mret None
  | S patience =>
      r ← upd close_queue;
      match r with
      | None => Close patience
      | Some false => mret (Some tt)
      | Some true => _x ← flushDropped; mret (Some tt)
      end
  end.

(** The sink of the buffers behind the pipeline. *)
Definition CountDroppedEvents (orgID n : Z) : prog D () := countDroppedOrg true orgID dropEvent n.
Definition CountDroppedTransactions (orgID n : Z) : prog D () := countDroppedOrg true orgID dropTransaction n.
End pipeline.

(** ** Accounts *)

Inductive account := ATasks | ABytes | AReaders | AOwed (orgID : Z).
#[export] Instance account_eq_dec : EqDecision account.
Proof. solve_decision. Defined.

(** What the pipeline records; [stored] is what its sinks were handed. *)
Definition book (p : Pipeline) (stored : Z) (k : account) : Z :=
  match k with
  | ATasks => Queued p + stored + Dropped p - offered p
  | ABytes => total tk_bytes (queue p) - queueBytes p
  | AReaders => - readers p
  | AOwed org => agg_of org (dropAgg p) + drained p org - billable p org
  end.

Record pipe_ok (p : Pipeline) : Prop := {
  ok_alive : crashed p = false;
  ok_closed : closed p = true -> readers p = 0;
  ok_limit : queueBytes p <= queueLimit p;
  ok_cap : Queued p <= queueCap;
  ok_bytes : Forall (fun t => 0 <= tk_bytes t) (queue p) }.

(** Tasks, bytes, locks and unreported drops in hand. *)
Definition hand (tasks bytes locks : Z) (owed : Z -> Z) (k : account) : Z :=
  match k with ATasks => tasks | ABytes => bytes | AReaders => locks | AOwed org => owed org end.
Definition none (_ : Z) : Z := 0.
Definition owes (orgID n org : Z) : Z := if decide (org = orgID) then n else 0.
Definition free_handed : account -> Z := hand 0 0 0 none.

Lemma total_app {A} (f : A -> Z) l l' : total f (l ++ l') = total f l + total f l'.
Proof. induction l as [|a l IH]; [done|]. simpl. unfold total in *. rewrite IH. lia. Qed.

Lemma total_nonneg {A} (f : A -> Z) l : Forall (fun a => 0 <= f a) l -> 0 <= total f l.
Proof. induction 1; simpl; [done|]. unfold total in *. lia. Qed.

Lemma Dropped_bump r n p : Dropped (p <| drops := bump r n (drops p) |>) = Dropped p + n.
Proof. destruct p. unfold Dropped, dropReasons, bump. destruct r; cbn; unfold constant; repeat case_decide; try done; lia. Qed.

Lemma agg_of_empty org : agg_of org ∅ = 0.
Proof. apply map_fold_empty. Qed.

Lemma agg_of_insert org k n m : m !! k = None -> agg_of org (<[k := n]> m) = (if k.1.1 =? org then n else 0) + agg_of org m.
Proof. intros Hk. unfold agg_of. rewrite map_fold_insert_L; [done|intros; destruct (_ =? _), (_ =? _); lia|done]. Qed.

Lemma agg_of_add org k n m : agg_of org (<[k := default 0 (m !! k) + n]> m) = agg_of org m + if k.1.1 =? org then n else 0.
Proof.
  destruct (m !! k) as [a|] eqn:Hk; simpl.
  - rewrite <- (insert_delete_id m k a Hk) at 2. rewrite <- insert_delete_eq. rewrite !agg_of_insert by apply lookup_delete_eq.
    destruct (_ =? _); lia.
  - rewrite agg_of_insert by done. destruct (_ =? _); lia.
Qed.

(** *** Weights *)

Lemma map_fold_nonneg {A} (f : string -> A -> Z) (m : gmap string A) :
  map_Forall (fun k a => 0 <= f k a) m -> 0 <= map_fold (fun k a n => f k a + n) 0 m.
Proof.
  apply (map_fold_weak_ind (fun r m => map_Forall (fun k a => 0 <= f k a) m -> 0 <= r)); [done|].
  intros k a m' r Hk IH Hall. apply map_Forall_insert in Hall as [Ha Hm]; [|done]. specialize (IH Hm). lia.
Qed.

Lemma len_nonneg s : 0 <= len s.
Proof. unfold len, Batcher.len. lia. Qed.

Lemma json_bytes_nonneg v : 0 <= dataValueBytes v.
Proof.
  induction v as [v Hv|l IH|m IH] using json_ind'.
  - destruct v; simpl; try done; apply len_nonneg.
  - simpl. induction IH as [|v l Hv _ IHl]; simpl; [done|lia].
  - apply (map_fold_nonneg (fun k v => len k + dataValueBytes v)). intros k v Hk. specialize (IH k v Hk). simpl in IH. pose proof (len_nonneg k). lia.
Qed.

Lemma tagBytes_nonneg m : 0 <= tagBytes m.
Proof.
  apply (map_fold_nonneg (fun k v => len k + len v)). intros k v _. pose proof (len_nonneg k). pose proof (len_nonneg v). lia.
Qed.

Lemma total_all {A} (f : A -> Z) l : (forall a, 0 <= f a) -> 0 <= total f l.
Proof. intros Hf. apply total_nonneg, Forall_forall. auto. Qed.

Lemma taskBytes_pos w : taskOverheadBytes <= taskBytes w.
Proof.
  unfold taskBytes. assert (0 <= payloadBytes w); [|lia]. destruct w as [ev|tx]; simpl.
  - pose proof (total_all (fun exc => len (ex_Type exc) + len (ex_Value exc) + total (fun fr => len (fr_Function fr) + len (fr_Module fr)) (Frames exc)) (pe_Exceptions ev)) as He.
    specialize (He ltac:(intros exc; pose proof (len_nonneg (ex_Type exc)); pose proof (len_nonneg (ex_Value exc));
      pose proof (total_all (fun fr => len (fr_Function fr) + len (fr_Module fr)) (Frames exc) ltac:(intros fr; pose proof (len_nonneg (fr_Function fr)); pose proof (len_nonneg (fr_Module fr)); lia)); lia)).
    pose proof (tagBytes_nonneg (pe_Tags ev)). unfold len, Batcher.len in *. lia.
  - pose proof (total_all (fun sp => len (s_Description sp) + len (s_Op sp) + len (s_SpanID sp) + len (s_Status sp) + dataMapBytes (Data sp)) (t_Spans tx)) as Hs.
    specialize (Hs ltac:(intros sp; assert (0 <= dataMapBytes (Data sp)) by (apply (json_bytes_nonneg (JObj (Data sp)))); unfold len, Batcher.len; lia)).
    pose proof (tagBytes_nonneg (t_Tags tx)). unfold len, Batcher.len in *. lia.
Qed.

Lemma total_cons {A} (f : A -> Z) a l : total f (a :: l) = f a + total f l.
Proof. done. Qed.
#[local] Arguments total : simpl never.
#[local] Arguments Z.of_nat : simpl never.

(** *** One operation each *)

(** From what is in hand before to what is in hand after. *)
Definition pays (p : Pipeline) (own : account -> Z) (p' : Pipeline) (own' : account -> Z) : Prop :=
  pipe_ok p' /\ forall s k, 0 <= own' k /\ book p' s k + own' k = book p s k + own k.

(** Open a pipeline into its fields. *)
Ltac pipe p Hok :=
  destruct p as [q qb mq cl st rd dr ag bw bn off bi dn cr]; destruct Hok as [H1 H2 H3 H4 H5];
  unfold queueLimit, Queued, queueCap in *; cbn in *; unfold constant in *; subst.
Ltac account :=
  intros s0 k0; destruct k0 as [ | | | org]; unfold free_handed, book, Queued, Dropped, none, owes, bump in *; cbn in *; unfold constant in *;
  try (split; lia).

Lemma pays_enter p : pipe_ok p -> pays p free_handed (enter p).2 (hand 1 0 (if (enter p).1 then 1 else 0) none).
Proof.
  intros Hok. unfold enter. pipe p Hok. destruct cl; (split; [split; cbn; unfold constant, queueLimit, Queued; cbn; done || lia|]); account.
Qed.

Lemma pays_admit p size : pipe_ok p -> 0 <= size ->
  pays p (hand 1 0 1 none) (admit_bytes size p).2 (hand 1 (if (admit_bytes size p).1 then size else 0) 1 none).
Proof.
  intros Hok Hs. unfold admit_bytes. pipe p Hok.
  destruct (Z.ltb_spec (if 0 <? mq then mq else defaultMaxQueueBytes) (qb + size)); (split; [split; cbn; unfold constant, queueLimit, Queued; cbn; done || lia|]); account.
Qed.

(** A reader that found the queue open still finds it open. *)
Lemma pays_send p t b : pipe_ok p -> tk_bytes t = b -> 0 <= b -> 1 <= readers p ->
  pays p (hand 1 b 1 none) (try_send t p).2 (if (try_send t p).1 then hand 0 0 1 none else hand 1 b 1 none).
Proof.
  intros Hok Hb Hpos Hr. unfold try_send. pipe p Hok. destruct cl; [specialize (H2 eq_refl); lia|].
  unfold Queued, queueCap. cbn. destruct (Z.ltb_spec (Z.of_nat (length q)) 1000) as [Hroom|Hfull].
  - split; [split; cbn; unfold constant, queueLimit, Queued, queueCap; cbn; try done|].
    + rewrite length_app. simpl. lia.
    + apply Forall_app. split; [done|]. repeat constructor. lia.
    + intros s0 k0. destruct k0 as [ | | | org]; unfold book, Queued, Dropped; cbn; unfold constant; try (split; [done|lia]).
      * rewrite length_app. simpl. split; lia.
      * rewrite total_app, total_cons. change (total tk_bytes []) with 0. split; lia.
  - split; [by split; cbn; unfold queueLimit, Queued, queueCap; cbn|]. account; split; lia.
Qed.

Lemma pays_release p t size l o : pipe_ok p -> 0 <= t -> 0 <= l -> (forall org, 0 <= o org) -> 0 <= size ->
  pays p (hand t size l o) (release_bytes size p) (hand t 0 l o).
Proof.
  intros Hok Ht Hl Ho Hs. unfold release_bytes. pipe p Hok.
  split; [split; cbn; unfold constant, queueLimit, Queued; cbn; done || lia|]. account. specialize (Ho org). split; lia.
Qed.

Lemma pays_drop p reason org b l : pipe_ok p -> 0 <= b -> 0 <= l ->
  pays p (hand 1 b l none) (drop_one reason org p) (hand 0 b l (owes org (if 0 <? org then 1 else 0))).
Proof.
  intros Hok Hb Hl. split; [unfold drop_one; pipe p Hok; split; cbn; unfold constant, queueLimit, Queued; cbn; done || lia|].
  intros s k. destruct k as [ | | | org']; unfold drop_one.
  - pose proof (Dropped_bump reason 1 p) as Hd. destruct p as [q qb mq cl st rd dr ag bw bn off bi dn cr]. unfold book, Queued, Dropped in *. cbn in *. unfold constant in *. split; lia.
  - destruct p. cbn. unfold constant. split; lia.
  - destruct p. cbn. unfold constant. split; lia.
  - destruct p. unfold owes, none, book. cbn. unfold constant, bump. destruct (Z.ltb_spec 0 org), (decide (org' = org)); split; lia.
Qed.

Lemma pays_agg p (fresh : bool) org kind month n t b l : pipe_ok p -> 0 < n -> 0 <= t -> 0 <= b -> 0 <= l ->
  pays p (hand t b l (if fresh then none else owes org n))
    (agg_add org kind month n (if fresh then p <| billable := bump org n (billable p) |> else p)) (hand t b l none).
Proof.
  intros Hok Hn Ht Hb Hl. split; [unfold agg_add; pipe p Hok; destruct fresh; split; cbn; unfold constant, queueLimit, Queued; cbn; done || lia|].
  intros s k. destruct k as [ | | | org']; unfold agg_add; destruct p as [q qb mq cl st rd dr ag bw bn off bi dn cr];
    destruct fresh; unfold book, Queued, Dropped, none, owes; cbn; unfold constant, bump; try (split; lia);
    rewrite agg_of_add; cbn; rewrite (Z.eqb_sym org org'); destruct (Z.eqb_spec org' org), (decide (org' = org)); try done; split; lia.
Qed.

Lemma pays_leave p t b o : pipe_ok p -> 1 <= readers p -> 0 <= t -> 0 <= b -> (forall org, 0 <= o org) ->
  pays p (hand t b 1 o) (leave p) (hand t b 0 o).
Proof.
  intros Hok Hr Ht Hb Ho. unfold leave. pipe p Hok. split.
  - split; cbn; unfold constant, queueLimit, Queued; cbn; try (done || lia). intros Hc. specialize (H2 Hc). lia.
  - account. specialize (Ho org). split; lia.
Qed.

Lemma pays_receive p : pipe_ok p ->
  pays p free_handed (receive p).2 (match (receive p).1 with Some t => hand 1 (tk_bytes t) 0 none | None => free_handed end) /\
  match (receive p).1 with Some t => 0 <= tk_bytes t | None => True end.
Proof.
  intros Hok. unfold receive. destruct (queue p) as [|t q'] eqn:Hq.
  - split; [|done]. split; [done|]. account.
  - pose proof (ok_bytes p Hok) as Hb. rewrite Hq in Hb. apply Forall_cons in Hb as [Ht Hb]. split; [|done].
    pipe p Hok. split.
    + split; cbn; unfold constant, queueLimit, Queued; cbn; try done. rewrite length_cons in H4. unfold queueCap. lia.
    + account; rewrite ?length_cons, ?total_cons; split; lia.
Qed.

Lemma pays_close p : pipe_ok p -> pays p free_handed (close_queue p).2 free_handed.
Proof.
  intros Hok. unfold close_queue. pipe p Hok. destruct cl; [|destruct (Z.eqb_spec rd 0)];
    (split; [split; cbn; unfold constant, queueLimit, Queued; cbn; done || lia|]); account; split; lia.
Qed.

Lemma pays_drain p : pipe_ok p -> pays p free_handed (drain_agg p).2 free_handed.
Proof.
  intros Hok. unfold drain_agg. pipe p Hok. split; [split; cbn; unfold constant, queueLimit, Queued; cbn; done|].
  account. rewrite agg_of_empty. split; lia.
Qed.

(** ** The books are kept *)
Section accounting.
Context `{Unicode} {D : Type} `{Has Pipeline D} `{Has IssueTables D}.
Context (clock : D -> Z) (scrubber : option Scrubber) (sinks : Sinks D) (ticks : nat) (stored : D -> Z).

(** What leaves the pipeline and its sinks alone. *)
Definition untouched (d d' : D) : Prop := get (T := Pipeline) d' = get d /\ stored d' = stored d.
Definition same_pipeline (d d' : D) : Prop := get (T := Pipeline) d' = get d.

(** What the pipeline relies on: a sink that is handed a task records it once,
    and nothing it calls touches the pipeline. *)
Record SinkLaws : Prop := {
  law_stored (p : Pipeline) (d : D) : stored (put p d) = stored d;
  law_issues (t : IssueTables) (d : D) : untouched d (put t d);
  law_events ev : deposits same_pipeline stored 1 (events_add (batcher sinks) ev);
  law_spans s org projectID tx : Spans sinks = Some s -> deposits same_pipeline stored 1 (spans_add s org projectID tx);
  law_alerts f ev : Alerts sinks = Some f -> moves untouched (f ev);
  law_perf f projectID fd traceID : Perf sinks = Some f -> moves untouched (f projectID fd traceID);
  law_notify a projectID iss : PerfAlerts sinks = Some a -> moves untouched (NotifyNew a projectID iss) /\ moves untouched (NotifyRegression a projectID iss);
  law_maint f projectID at_ : Maint sinks = Some f -> moves untouched (f projectID at_);
  law_projects f projectID : Projects sinks = Some f -> moves untouched (f projectID);
  law_drops : exists f, DropCounter sinks = Some f /\ forall key n, moves untouched (f key n) }.
Context (laws : SinkLaws).

Definition kept (d : D) : Prop := pipe_ok (get d).
Definition balance (d : D) (k : account) : Z := book (get d) (stored d) k.
Definition any (_ _ : D) : Prop := True.
#[local] Instance any_pre : PreOrder any.
Proof. by split. Qed.

(** [P] is a fact known throughout. *)
Abbreviation hold P p own W := (holds true kept any balance (fun _ => P) p own W (fun _ _ => P)).

Lemma stable_fact (P : Prop) : stable kept any (fun _ => P).
Proof. by intros d d'. Qed.

Lemma hold_bind {A B} (P : Prop) (p : prog D A) (k : A -> prog D B) own W W' :
  hold P p own W -> (forall a, hold P (k a) (W a) W') -> hold P (mbind k p) own W'.
Proof. intros Hp Hk. eapply holds_bind; [exact Hp|]. exact Hk. Qed.

Lemma hold_ret {A} (P : Prop) (a : A) own (W : A -> account -> Z) : (forall k, own k = W a k) -> hold P (mret a) own W.
Proof. by split. Qed.

Lemma hold_own {A} (P : Prop) (p : prog D A) own own' W : (forall k, own k = own' k) -> hold P p own W -> hold P p own' W.
Proof. intros Ho. by apply holds_weaken. Qed.

Lemma hold_upd {A} (P : Prop) (f : Pipeline -> A * Pipeline) own (W : A -> account -> Z) :
  (P -> forall p, pipe_ok p -> own AReaders <= readers p -> pays p own (f p).2 (W (f p).1)) -> hold P (upd f) own W.
Proof.
  intros Hf. apply (holds_step _ _ _ _ (fun _ => P) _ _ own W (fun _ _ => P)); [intros a; apply stable_fact|].
  intros g d Hk HP Hc.
  assert (own AReaders <= readers (get d)) as Hr by (specialize (Hc AReaders); unfold balance in Hc; simpl in Hc; lia).
  destruct (Hf HP (get d) Hk Hr) as [Hok Hpay]. unfold on. destruct (f (get d)) as [a p'] eqn:Hfd. simpl in *.
  split_and!; [by unfold kept; rewrite get_put|done| |done].
  intros k. unfold meets, balance. rewrite get_put, (law_stored laws). apply Hpay.
Qed.

Lemma hold_set (P : Prop) (f : Pipeline -> Pipeline) own own' :
  (P -> forall p, pipe_ok p -> own AReaders <= readers p -> pays p own (f p) own') -> hold P (set_ f) own (fun _ => own').
Proof. intros Hf. by apply hold_upd. Qed.

Lemma untouched_balance d d' : kept d -> untouched d d' -> kept d' /\ any d d' /\ forall k, balance d' k = balance d k.
Proof. intros Hk [Hp Hs]. unfold kept, balance. rewrite Hp, Hs. done. Qed.

Lemma hold_moves {A} (P : Prop) (p : prog D A) own : solvent own -> moves untouched p -> hold P p own (fun _ => own).
Proof. intros Hown Hp. apply (holds_moves _ _ _ _ untouched); [done|apply stable_fact|done|apply untouched_balance]. Qed.

Lemma untouched_refl d : untouched d d.
Proof. done. Qed.
Hint Resolve untouched_refl : core.

Lemma moves_same {A} (p : prog D A) : moves eq p -> moves untouched p.
Proof. apply moves_mono. by intros d d' <-. Qed.

Lemma hold_pgets {A} (P : Prop) (f : D -> A) own : solvent own -> hold P (pgets f) own (fun _ => own).
Proof. intros Hown. apply hold_moves; [done|]. by apply moves_same, moves_pgets. Qed.

Lemma hold_panic (P : Prop) own : solvent own -> hold P may_panic own (fun _ => own).
Proof. intros Hown. apply hold_moves; [done|]. by intros f d. Qed.

Lemma same_balance d d' : kept d -> same_pipeline d d' ->
  kept d' /\ any d d' /\ forall k, balance d' k = balance d k + if decide (k = ATasks) then stored d' - stored d else 0.
Proof.
  intros Hk Hp. unfold kept, balance, same_pipeline in *. rewrite Hp. split_and!; [done..|].
  intros k. destruct (decide (k = ATasks)) as [->|Hne]; [simpl; lia|]. destruct k; try done; simpl; lia.
Qed.

(** A task handed over. *)
Lemma hold_deposit {A} (P : Prop) (p : prog D A) t b l o : 1 <= t -> 0 <= b -> 0 <= l -> (forall org, 0 <= o org) ->
  deposits same_pipeline stored 1 p -> hold P p (hand t b l o) (fun _ => hand (t - 1) b l o).
Proof.
  intros Ht Hb Hl Ho Hp. eapply holds_conseq; [apply (holds_deposits true kept any balance ATasks same_pipeline stored 1)| |done].
  - intros [| | |org]; simpl; auto; lia.
  - simpl. lia.
  - apply stable_fact.
  - done.
  - apply same_balance.
  - intros a [| | |org]; unfold spend; by case_decide.
Qed.

Lemma hand_solvent t b l o : 0 <= t -> 0 <= b -> 0 <= l -> (forall org, 0 <= o org) -> solvent (hand t b l o).
Proof. intros ? ? ? ? [| | |org]; simpl; auto. Qed.

Lemma none_nonneg org : 0 <= none org.
Proof. done. Qed.
Lemma free_solvent : solvent free_handed.
Proof. by apply hand_solvent. Qed.
Hint Resolve hand_solvent none_nonneg free_solvent : core.

(** *** Drops *)

Lemma hold_dropped (P : Prop) reason orgID kind b l : 0 <= b -> 0 <= l ->
  hold P (dropped_task clock sinks reason orgID kind) (hand 1 b l none) (fun _ => hand 0 b l none).
Proof.
  intros Hb Hl. unfold dropped_task, countDropped. eapply hold_bind.
  { apply hold_set. intros _ p Hok _. by apply (pays_drop p reason orgID b l). }
  intros []. unfold countDroppedOrg. destruct (law_drops laws) as (inc & -> & _). cbn [is_nil orb].
  destruct (Z.leb_spec orgID 0) as [Hle|Hpos]; cbn [orb].
  { apply hold_ret. intros [| | |org]; simpl; try done. unfold owes, none. destruct (Z.ltb_spec 0 orgID); [lia|]. by case_decide. }
  change (1 <=? 0) with false. cbn iota. destruct (Z.ltb_spec 0 orgID) as [_|]; [|lia].
  eapply hold_bind; [apply hold_pgets, hand_solvent; try lia; intros org; unfold owes; case_decide; lia|]. intros now.
  apply hold_set. intros _ p Hok _. by apply (pays_agg p false).
Qed.

Lemma hold_reported (P : Prop) orgID kind n : hold P (countDroppedOrg clock sinks true orgID kind n) free_handed (fun _ => free_handed).
Proof.
  unfold countDroppedOrg. destruct (is_nil _ || _ || _) eqn:Hc; [by apply hold_ret|].
  apply orb_false_elim in Hc as [_ Hn%Z.leb_gt]. eapply hold_bind; [by apply hold_pgets|]. intros now.
  apply hold_set. intros _ p Hok _. by apply (pays_agg p true).
Qed.

Lemma hold_flush_keys (P : Prop) inc agg : (forall key n, moves untouched (inc key n)) ->
  hold P (flush_keys inc agg) free_handed (fun _ => free_handed).
Proof.
  intros Hinc. induction agg as [|[key n] agg IH]; [by apply hold_ret|]. simpl.
  eapply hold_bind; [apply hold_moves; [done|apply Hinc]|]. intros ?. exact IH.
Qed.

Lemma hold_flush (P : Prop) : hold P (flushDropped sinks) free_handed (fun _ => free_handed).
Proof.
  unfold flushDropped. destruct (law_drops laws) as (inc & -> & Hinc). eapply hold_bind; [|intros agg; by apply hold_flush_keys].
  apply (hold_upd P drain_agg free_handed (fun _ => free_handed)). intros _ p Hok _. by apply pays_drain.
Qed.

(** *** Admission *)

Lemma hold_enqueue projectID orgID w : hold True (enqueue clock sinks projectID orgID w) free_handed (fun _ => free_handed).
Proof.
  unfold enqueue. pose proof (taskBytes_pos w) as Hw. unfold taskOverheadBytes in Hw.
  eapply hold_bind; [apply (hold_upd _ enter _ (fun open => hand 1 0 (if open then 1 else 0) none)); intros _ p Hok _; by apply pays_enter|].
  intros [|]; cbn [negb].
  2: { eapply hold_bind; [by apply (hold_dropped _ _ _ _ 0 0)|]. intros ?. by apply hold_ret. }
  cbn [tk_bytes]. generalize dependent (taskBytes w). intros size Hw.
  eapply hold_bind; [apply (hold_upd _ (admit_bytes size) _ (fun ok => hand 1 (if ok then size else 0) 1 none)); intros _ p Hok _; apply pays_admit; [done|lia]|].
  intros admitted. eapply (hold_bind _ _ _ _ (fun _ => hand 0 0 1 none)).
  - destruct admitted; cbn [negb].
    2: { eapply hold_bind; [by apply (hold_dropped _ _ _ _ 0 1)|]. intros ?. by apply hold_ret. }
    set (t := mkTask projectID orgID w size).
    eapply hold_bind.
    { apply (hold_upd _ (try_send t) _ (fun ok => if ok then hand 0 0 1 none else hand 1 size 1 none)). intros _ p Hok Hr. apply pays_send; [done|done|lia|exact Hr]. }
    intros [|]; [by apply hold_ret|].
    eapply hold_bind; [apply hold_set; intros _ p Hok _; apply (pays_release p 1 size 1 none); try done; lia|]. intros ?.
    eapply hold_bind; [by apply (hold_dropped _ _ _ _ 0 1)|]. intros ?. by apply hold_ret.
  - intros sent. eapply hold_bind; [apply hold_set; intros _ p Hok Hr; apply (pays_leave p 0 0 none); try done|]. intros ?. by apply hold_ret.
Qed.

(** *** Processing *)

Lemma pays_same p p' own : pipe_ok p' -> (forall s k, book p' s k = book p s k) -> solvent own -> pays p own p' own.
Proof. intros Hok Hb Hown. split; [done|]. intros s k. rewrite Hb. specialize (Hown k). lia. Qed.

Lemma hold_wait (P : Prop) full own : solvent own -> hold P (waitForRoom clock ticks full) own (fun _ => own).
Proof.
  intros Hown. unfold waitForRoom. eapply hold_bind; [by apply hold_pgets|]. intros [|]; cbn [negb]; [|by apply hold_ret].
  eapply hold_bind; [by apply hold_pgets|]. intros start.
  eapply hold_bind.
  { apply (hold_set _ _ _ own). intros _ p Hok _. apply pays_same; [destruct p, Hok; split; assumption|by intros s []; destruct p|done]. }
  intros ?. eapply hold_bind.
  { induction ticks as [|n IH]; [apply (hold_ret P tt own (fun _ => own)); done|]. eapply hold_bind; [by apply hold_pgets|]. intros [|]; [by apply hold_ret|].
    eapply hold_bind; [by apply hold_pgets|]. intros [|]; [apply IH|by apply hold_ret]. }
  intros ?. eapply hold_bind; [by apply hold_pgets|]. intros now.
  apply (hold_set _ _ _ own). intros _ p Hok _. apply pays_same; [destruct p, Hok; split; assumption|by intros s []; destruct p|done].
Qed.

Lemma moves_issue_call {A} (q : IssueTables -> A * IssueTables) : moves untouched (call ErrIssueSQL (on q) : prog D (result issue_error A)).
Proof. apply moves_call; [done|]. intros d. unfold on. destruct (q (get d)) as [a t]. apply (law_issues laws). Qed.

Lemma moves_ask {A E} (e : E) (f : D -> A) : moves untouched (ask e f).
Proof. by apply moves_call. Qed.

Lemma Upsert_untouched p fp title culprit level env at_ : moves untouched (Upsert p fp title culprit level env at_).
Proof.
  unfold Upsert. apply moves_bind; [apply moves_ask|]. intros [old|e]; [|done].
  apply moves_bind; [apply moves_issue_call|]. by intros [id|e].
Qed.

Lemma alert_untouched p ev title res : moves untouched (alert_issue sinks p ev title res).
Proof.
  unfold alert_issue. destruct (Alerts sinks) as [f|] eqn:Hf; [|done]. destruct (_ || _); [|done].
  apply moves_bind; [apply moves_bind; [apply moves_ask|by intros [?|?]]|]. intros found. by apply (law_alerts laws).
Qed.

(** A task processed, or not. *)
Definition after (b : Z) (fine : bool) : account -> Z := hand (if fine then 0 else 1) b 0 none.

Lemma hold_process_event (P : Prop) projectID orgID ev b : 0 <= b ->
  hold P (process_event clock scrubber sinks ticks projectID orgID ev) (hand 1 b 0 none) (after b).
Proof.
  intros Hb. assert (solvent (hand 1 b 0 none)) as Hs by (by apply hand_solvent). unfold process_event.
  eapply hold_bind; [by apply hold_panic|]. intros [|]; cbn [negb]; [|by apply hold_ret].
  eapply hold_bind; [apply hold_moves; [done|apply Upsert_untouched]|]. intros [res|e].
  2: { eapply hold_bind; [by apply hold_dropped|]. intros ?. by apply hold_ret. }
  eapply hold_bind; [apply hold_moves; [done|apply alert_untouched]|]. intros [|]; cbn [negb]; [|by apply hold_ret].
  eapply hold_bind; [by apply hold_panic|]. intros [|]; cbn [negb]; [|by apply hold_ret].
  eapply hold_bind; [by apply hold_wait|]. intros ?.
  eapply hold_bind; [apply (hold_deposit _ _ 1 b 0 none); [done..|apply (law_events laws)]|]. intros ?. by apply hold_ret.
Qed.

Lemma record_untouched record projectID tx f : Perf sinks = Some record -> moves untouched (recordFinding clock sinks record projectID tx f).
Proof.
  intros Hr. unfold recordFinding. apply moves_bind; [by apply (law_perf laws)|]. intros [[res|e]|]; [|by destruct (PerfAlerts sinks)|done].
  destruct (PerfAlerts sinks) as [alerts|] eqn:Ha; [|done]. destruct (_ && _); [done|]. apply moves_bind.
  - destruct (Maint sinks) as [m|] eqn:Hm; [|done]. apply moves_bind; [by apply moves_same, moves_pgets|]. intros now.
    apply moves_bind; [by apply (law_maint laws)|]. by intros [?|?].
  - intros [|]; [done|]. destruct (law_notify laws alerts projectID (rr_Issue res) Ha) as [Hnew Hreg]. destruct (rr_Regression res); by apply moves_bind.
Qed.

Lemma detect_untouched projectID tx : moves untouched (detectPerfIssues clock sinks projectID tx).
Proof.
  unfold detectPerfIssues. destruct (Perf sinks) as [record|] eqn:Hr; [|done].
  apply moves_bind; [by apply moves_same, moves_pgets|]. intros now. apply moves_bind.
  { unfold detectorConfig. destruct (Projects sinks) as [f|] eqn:Hf; [|done]. apply moves_bind; [by apply (law_projects laws)|done]. }
  intros cfg. apply moves_bind; [by intros f d|]. intros [|]; [|done]. cbn [negb].
  generalize (Detect tx cfg). intros fs. induction fs as [|f fs IH]; [done|]. apply moves_bind; [by apply moves_same, moves_pgets|].
  intros [|]; [done|]. apply moves_bind; [by apply record_untouched|]. by intros [[]|].
Qed.

Lemma hold_processTransaction (P : Prop) orgID projectID tx b : 0 <= b -> is_Some (Spans sinks) ->
  hold P (processTransaction clock scrubber sinks ticks orgID projectID tx) (hand 1 b 0 none) (after b).
Proof.
  intros Hb [spans Hspans]. assert (solvent (hand 1 b 0 none)) as Hs by (by apply hand_solvent). unfold processTransaction. rewrite Hspans.
  eapply hold_bind; [by apply hold_panic|]. intros [|]; cbn [negb]; [|by apply hold_ret].
  eapply hold_bind; [by apply hold_wait|]. intros ?.
  eapply hold_bind; [apply (hold_deposit _ _ 1 b 0 none); [done..|by apply (law_spans laws)]|]. intros ?.
  eapply hold_bind; [apply hold_moves; [by apply hand_solvent|apply detect_untouched]|]. intros ?. by apply hold_ret.
Qed.

Lemma hold_processGuarded t b : 0 <= b -> is_Some (Spans sinks) ->
  hold (tk_bytes t = b) (processGuarded clock scrubber sinks ticks t) (hand 1 b 0 none) (fun _ => free_handed).
Proof.
  intros Hb Hspans. unfold processGuarded. eapply (hold_bind _ _ _ _ (after b)).
  { unfold process. destruct (work t); [by apply hold_process_event|by apply hold_processTransaction]. }
  intros fine. eapply (hold_bind _ _ _ _ (fun _ => hand 0 b 0 none)).
  { destruct fine; [by apply hold_ret|by apply hold_dropped]. }
  intros _. apply hold_set. intros <- p Hok _. by apply (pays_release p 0 (tk_bytes t) 0 none).
Qed.

(** *** Workers *)

Definition received (t : option task) : account -> Z :=
  match t with Some t => hand 1 (Z.max 0 (tk_bytes t)) 0 none | None => free_handed end.

Lemma hold_receive : holds true kept any balance (fun _ => True) (upd receive) free_handed received
  (fun t _ => match t with Some t => tk_bytes t = Z.max 0 (tk_bytes t) | None => True end).
Proof.
  apply holds_step; [by intros [t|] d d'|]. intros g d Hk _ _. destruct (pays_receive (get d) Hk) as [[Hok Hpay] Hb].
  unfold on. destruct (receive (get d)) as [t p'] eqn:Hr. simpl in *. split_and!; [by unfold kept; rewrite get_put|done| |by destruct t; [lia|]].
  intros k. unfold meets, balance. rewrite get_put, (law_stored laws). specialize (Hpay (stored d) k).
  destruct t as [t|]; [|exact Hpay]. simpl in *. rewrite Z.max_r by done. exact Hpay.
Qed.

Lemma hold_worker n : is_Some (Spans sinks) -> hold True (worker clock scrubber sinks ticks n) free_handed (fun _ => free_handed).
Proof.
  intros Hspans. induction n as [|n IH]; [by apply hold_ret|]. eapply holds_bind; [apply hold_receive|].
  intros [t|]; [|exact IH]. cbn [received]. eapply (holds_bind _ _ _ _ _ _ _ _ (fun _ => free_handed) (fun _ _ => True)).
  - eapply holds_conseq; [apply (hold_processGuarded t (Z.max 0 (tk_bytes t))); [lia|done]|done..].
  - intros ?. exact IH.
Qed.

Lemma hold_close patience : hold True (Close sinks patience) free_handed (fun _ => free_handed).
Proof.
  induction patience as [|n IH]; [by apply hold_ret|].
  eapply hold_bind; [apply (hold_upd _ close_queue _ (fun _ => free_handed)); intros _ p Hok _; by apply pays_close|].
  intros [[|]|]; [|by apply hold_ret|exact IH]. eapply hold_bind; [apply hold_flush|]. intros ?. by apply hold_ret.
Qed.

(** What runs: requests, workers, the flushes of the drops, reports of drops
    behind the pipeline, and the shutdown.  A transaction is only offered
    while tracing is enabled, as the handler does. *)
Inductive pipeline_process : prog D () -> Prop :=
| runs_event projectID orgID ev : pipeline_process (mbind (fun _ => mret tt) (Enqueue clock sinks projectID orgID ev))
| runs_transaction projectID orgID tx : pipeline_process (mbind (fun _ => mret tt) (EnqueueTransaction clock sinks projectID orgID tx))
| runs_worker n : pipeline_process (worker clock scrubber sinks ticks n)
| runs_flush : pipeline_process (flushDropped sinks)
| runs_report_events orgID n : pipeline_process (CountDroppedEvents clock sinks orgID n)
| runs_report_transactions orgID n : pipeline_process (CountDroppedTransactions clock sinks orgID n)
| runs_close patience : pipeline_process (mbind (fun _ => mret tt) (Close sinks patience)).

Lemma pipeline_process_holds p : is_Some (Spans sinks) -> pipeline_process p -> closes true kept any balance (fun _ => True) p (fun _ => 0).
Proof.
  intros Hspans Hp. assert (hold True p free_handed (fun _ => free_handed)) as Hf.
  { destruct Hp; try (eapply hold_bind; [apply hold_enqueue || apply hold_close|]; intros ?; by apply hold_ret).
    - by apply hold_worker.
    - apply hold_flush.
    - apply hold_reported.
    - apply hold_reported. }
  unfold closes. eapply holds_conseq; [eapply holds_weaken; [| |exact Hf]; [done|by intros [| | |org]]|by intros ? [| | |org]|done].
Qed.

(** What others do to the rest of the state. *)
Definition elsewhere (d d' : D) : Prop := untouched d d'.

End accounting.

(** ** In front of the batcher *)

(** A program of a component, run on the state of the whole. *)
Fixpoint zoom {T D A : Type} `{Has T D} (p : prog T A) : prog D A :=
  match p with
  | Ret a => Ret a
  | Step q k => Step (fun f d => put (q f (get d)) d) (fun f d => zoom (k f (get d)))
  | Fork p k => Fork (zoom p) (zoom k)
  end.

Lemma deposits_zoom {T D A} `{Has T D} (G : D -> D -> Prop) (acc : T -> Z) (acc' : D -> Z) n (p : prog T A) :
  (forall t d, G d (put t d)) -> (forall t d, acc' (put t d) - acc' d = acc t - acc (get d)) ->
  deposits (fun _ _ => True) acc n p -> deposits G acc' n (zoom p).
Proof.
  intros HG Hacc. revert n. induction p as [A a|A q k IH|A p IHp k IHk]; intros n Hp; simpl in *; [done| |naive_solver].
  intros f d. destruct (Hp f (get d)) as (_ & Hle & Hk). specialize (Hacc (q f (get d)) d). split_and!; [done|lia|lia|].
  rewrite Hacc. by apply IH.
Qed.

Definition events_added (w : Batcher.World) : Z := Z.of_nat (length (Batcher.added w)).

Lemma Add_deposits ev : deposits (fun _ _ => True) events_added 1 (Batcher.Add ev).
Proof.
  assert (forall sink drops, deposits (fun _ _ => True) events_added 0 (Batcher.reportDrops sink drops)) as Hreport.
  { intros [] drops; [|done]. apply (deposits_step _ _ 0); [done|]. intros f d. split; [done|]. by rewrite Z.add_0_r. }
  assert (deposits (fun _ _ => True) events_added 0 Batcher.kick_now) as Hkick.
  { apply (deposits_step _ _ 0); [done|]. intros f d. split; [done|]. by rewrite Z.add_0_r. }
  unfold Batcher.Add. apply (deposits_bind _ _ 1 0); [done| |].
  - apply deposits_step; [done|]. intros f w. split; [done|]. destruct (Batcher.add_locked ev (Batcher.batcher w)) as [[[drops sink] full] b]. destruct w as [b0 e t c a].
    unfold events_added. cbn. unfold constant. rewrite length_app. simpl. lia.
  - intros [[drops sink] full]. apply (deposits_bind _ _ 0 0); [done|apply Hreport|]. intros _. by destruct full.
Qed.

(** The state of the pipeline, the issues, the batcher and the transactions
    its sink was handed. *)
Definition service : Type := Pipeline * IssueTables * Batcher.World * list Transaction.

Definition service_stored (d : service) : Z := events_added d.1.2 + Z.of_nat (length d.2).

Definition service_sinks : Sinks service :=
  mkSinks service
    (mkEventSink _ (fun ev => zoom (Batcher.Add ev)) (fun d => Batcher.maxBuf (Batcher.batcher d.1.2) <=? Batcher.blen (Batcher.batcher d.1.2)))
    None (Some (mkSpanSink _ (fun _ _ tx => pmodify (fun d => (d.1, d.2 ++ [tx]))) (fun _ => false)))
    None None None None (Some (fun _ _ => mret (Ok tt))).

(** The batcher and the service of issues keep what the pipeline relies on. *)
Lemma service_laws : SinkLaws service_sinks service_stored.
Proof.
  split.
  - by intros p [[[p0 i] w] l].
  - by intros t [[[p0 i] w] l].
  - intros ev. apply (deposits_zoom _ events_added); [by intros t [[[p i] w] l]| |apply Add_deposits].
    intros t [[[p i] w] l]. unfold service_stored. simpl. lia.
  - intros s org projectID tx [= <-]. apply deposits_step; [done|]. intros f [[[p i] w] l]. split; [done|].
    unfold service_stored. simpl. rewrite length_app. simpl. lia.
  - done.
  - done.
  - done.
  - done.
  - done.
  - exists (fun _ _ => mret (Ok tt)). by split.
Qed.

(** ** Examples *)

Definition start : service := (NewPipeline, mkIssueTables ∅ 1 ∅ ∅, Batcher.ex_world, []).
Definition an_event : ParsedEvent :=
  mkParsed "e1" 5 "error" "boom" [] "" "prod" "" "" "" "" "" "" ∅ "" "" "" [] "boom" "main" "" "".
Definition a_transaction : Transaction := mkTransaction "t1" "s1" "GET /" "http" "ok" 1 2 "prod" "" "" "" ∅ [] "url".

Abbreviation offer_event := (mbind (fun _ => mret tt) (Enqueue (fun _ => 0) service_sinks 7 3 an_event)).
Abbreviation offer_transaction := (mbind (fun _ => mret tt) (EnqueueTransaction (fun _ => 0) service_sinks 7 3 a_transaction)).
Abbreviation work_once := (@worker ascii_only _ _ _ (fun _ => 0) None service_sinks 40 1).
Abbreviation shut := (mbind (fun _ => mret tt) (Close service_sinks 1)).

Definition d1 : service := (exec0 offer_event start).2.
Definition d2 : service := (exec0 offer_transaction d1).2.
Definition d3 : service := (exec0 work_once d2).2.
Definition d4 : service := (exec0 shut d3).2.
Definition d5 : service := (exec0 offer_event d4).2.

