(* ===== verification/Org.v ===== *)
(** Organisations, their members and teams: [internal/org/org.go],
    [member.go] and [team.go].

    The transactions that change a membership read some rows, lock them
    ([FOR UPDATE]), decide, write and commit; at READ COMMITTED every
    statement sees the rows committed before it began, and a row that changed
    while the statement waited for its lock is read again.  A statement that
    waits polls its lock: [wait] bounds the polls, and a wait that is not
    over by then was cancelled.  Versions written by a transaction are seen
    by nobody else before [commit], which is where the model writes them.

    [unguarded] (the organisations an owner left without the guard against
    it having seen an owner) and [changes] (who changed whose role) are
    ghosts. *)
From stdpp Require Import base tactics list gmap strings sorting relations.
From Stdlib Require Import ZArith Lia Ascii.
From S2P Require Import Prelude.
From S2P Require Import GoString.
From S2P Require Import Prog.
From S2P Require Import Rely.

Open Scope Z_scope.
Open Scope go_scope.

(** ** Data *)

Abbreviation Role := string.
Definition RoleOwner : Role := "owner".
Definition RoleAdmin : Role := "admin".
Definition RoleMember : Role := "member".

Definition validRole (r : Role) : bool := String.eqb r RoleOwner || String.eqb r RoleAdmin || String.eqb r RoleMember.

Inductive org_error :=
| ErrNotFound | ErrSlugTaken | ErrInvalidSlug | ErrInvalidName | ErrInvalidRole
| ErrNotMember | ErrLastOwner | ErrOwnerOnly | ErrOrgSQL.

Record Org := mkOrg {
  o_ID : Z; o_Slug : string; o_Name : string;
  EventQuota : Z; TransactionQuota : Z; MetricQuota : Z; ProfileQuota : Z; LogQuota : Z }.

Record Team := mkTeam { tm_ID : Z; tm_OrgID : Z; tm_Slug : string; tm_Name : string }.

(** What a commit did to a role, and the role its actor then had. *)
Record change := mkChange {
  ch_actor : option Z; ch_org : Z; ch_user : Z;
  ch_before : option Role; ch_after : option Role; ch_actor_role : option Role }.

Record Orgs := mkOrgs {
  organizations : gmap Z Org; next_org : Z;
  org_members : gmap (Z * Z) Role; (** by organisation and user *)
  teams : gmap Z Team; next_team : Z;
  team_members : gmap (Z * Z) Z; (** by team and user: [org_id] *)
  locks : gmap (Z * Z) Z; (** rows of [org_members] and the transaction that locks them *)
  active : gset Z; next_xid : Z;
  unguarded : gset Z; changes : list change }.

Definition set_organizations (m : gmap Z Org) (n : Z) (t : Orgs) : Orgs :=
  mkOrgs m n (org_members t) (teams t) (next_team t) (team_members t) (locks t) (active t) (next_xid t) (unguarded t) (changes t).
Definition set_members (m : gmap (Z * Z) Role) (t : Orgs) : Orgs :=
  mkOrgs (organizations t) (next_org t) m (teams t) (next_team t) (team_members t) (locks t) (active t) (next_xid t) (unguarded t) (changes t).
Definition set_teams (m : gmap Z Team) (n : Z) (t : Orgs) : Orgs :=
  mkOrgs (organizations t) (next_org t) (org_members t) m n (team_members t) (locks t) (active t) (next_xid t) (unguarded t) (changes t).
Definition set_team_members (m : gmap (Z * Z) Z) (t : Orgs) : Orgs :=
  mkOrgs (organizations t) (next_org t) (org_members t) (teams t) (next_team t) m (locks t) (active t) (next_xid t) (unguarded t) (changes t).
Definition set_txs (l : gmap (Z * Z) Z) (a : gset Z) (n : Z) (t : Orgs) : Orgs :=
  mkOrgs (organizations t) (next_org t) (org_members t) (teams t) (next_team t) (team_members t) l a n (unguarded t) (changes t).
Definition set_ghosts (u : gset Z) (c : list change) (t : Orgs) : Orgs :=
  mkOrgs (organizations t) (next_org t) (org_members t) (teams t) (next_team t) (team_members t) (locks t) (active t) (next_xid t) u c.

(** [^[a-z0-9](?:[a-z0-9-]{0,62}[a-z0-9])?$] *)
Definition validSlug (slug : string) : bool :=
  let alnum c := is_lower c || is_digit c in
  let l := chars_of slug in
  match l with
  | [] => false
  | c :: r => alnum c && (length l <=? 64)%nat && forallb (fun c => alnum c || (byte_of c =? 45)) r &&
              match last r with Some c => alnum c | None => true end
  end.

(** A row of [org_members] that disappears takes those of [team_members]
    along: [team_members_member_fk ON DELETE CASCADE]. *)
Definition cascade_teams (t : Orgs) : Orgs :=
  set_team_members (filter (fun '((_, u), o) => is_Some (org_members t !! (o, u))) (team_members t)) t.

Section programs.
Context {D : Type} `{Has Orgs D}.
(** How often a statement polls a lock it waits for. *)
Variable wait : nat.
(** The order in which a scan without [ORDER BY] returns its rows. *)
Variable scan : list (Z * Z) -> list (Z * Z).

(** ** Transactions and row locks *)

Definition begin_tx (t : Orgs) : Z * Orgs :=
  (next_xid t, set_txs (locks t) ({[next_xid t]} ∪ active t) (next_xid t + 1) t).

(** The end of a transaction, either way, releases its locks. *)
Definition end_tx (x : Z) (t : Orgs) : Orgs :=
  set_txs (filter (fun '(_, y) => y <> x) (locks t)) (active t ∖ {[x]}) (next_xid t) t.

Definition Begin : prog D (result org_error Z) := call ErrOrgSQL (on begin_tx).
Definition Rollback (x : Z) : prog D () :=
  _ ← call (E := org_error) ErrOrgSQL (on (fun t => (tt, end_tx x t))); mret tt.

(** What one transaction writes: a role for a row or its deletion, on whose
    behalf, and whether the guard had seen an owner. *)
Record write := mkWrite { w_key : Z * Z; w_role : option Role; w_actor : option Z; w_blind : bool }.

Definition apply_write (w : write) (t : Orgs) : Orgs :=
  let '(o, u) := w_key w in
  let ch := mkChange (w_actor w) o u (org_members t !! w_key w) (w_role w)
              (match w_actor w with Some a => org_members t !! (o, a) | None => None end) in
  let t' := set_members (match w_role w with Some r => <[w_key w := r]> | None => delete (w_key w) end (org_members t)) t in
  cascade_teams (set_ghosts (if w_blind w then {[o]} ∪ unguarded t else unguarded t) (changes t ++ [ch]) t').

(** Every statement of a transaction that is over fails. *)
Definition commit_tx (x : Z) (w : write) (t : Orgs) : result org_error () * Orgs :=
  if decide (x ∈ active t) then (Ok tt, end_tx x (apply_write w t)) else (Err ErrOrgSQL, t).

Definition Commit (x : Z) (w : write) : prog D (result org_error ()) := callE ErrOrgSQL (on (commit_tx x w)).

(** [tx, err := s.pool.Begin(ctx)], [defer tx.Rollback(ctx)], the body and
    [tx.Commit(ctx)]. *)
Definition in_tx (body : Z -> prog D (result org_error write)) : prog D (result org_error ()) :=
  tryE: x ← Begin catch err => mret (Err err);
  r ← body x;
  match r with
  | Err err => _ ← Rollback x; mret (Err err)
  | Ok w =>
      c ← Commit x w;
      match c with
      | Err err => _ ← Rollback x; mret (Err err)
      | Ok _ => mret (Ok tt)
      end
  end.

(** The newest version of a row, locked; [None] while another transaction
    holds it. *)
Definition try_lock (x : Z) (k : Z * Z) (t : Orgs) : result org_error (option (option Role)) * Orgs :=
  if decide (x ∈ active t) then
    match locks t !! k with
    | Some y => if decide (y = x) then (Ok (Some (org_members t !! k)), t) else (Ok None, t)
    | None =>
        match org_members t !! k with
        | Some r => (Ok (Some (Some r)), set_txs (<[k := x]> (locks t)) (active t) (next_xid t) t)
        | None => (Ok (Some None), t)
        end
    end
  else (Err ErrOrgSQL, t).

(** A statement that may have to wait. *)
Fixpoint waiting {A} (n : nat) (q : Orgs -> result org_error (option A) * Orgs) : prog D (result org_error A) :=
  match n with
  | O => mret (Err ErrOrgSQL)
  | S n =>
      tryE: r ← callE ErrOrgSQL (on q) catch err => mret (Err err);
      match r with Some a => mret (Ok a) | None => waiting n q end
  end.

Definition lock_row (x : Z) (k : Z * Z) : prog D (result org_error (option Role)) := waiting wait (try_lock x k).

(** [SELECT ... FOR UPDATE] over the rows [ks] of its snapshot: one lock
    after the other, and the rows that still satisfy [p]. *)
Fixpoint lock_rows (x : Z) (p : Role -> bool) (ks : list (Z * Z)) : prog D (result org_error (list (Z * Role))) :=
  match ks with
  | [] => mret (Ok [])
  | k :: ks =>
      tryE: v ← lock_row x k catch err => mret (Err err);
      tryE: rest ← lock_rows x p ks catch err => mret (Err err);
      mret (Ok (match v with Some r => if p r then (k.2, r) :: rest else rest | None => rest end))
  end.

(** The snapshot of a [SELECT] over one organisation. *)
Definition rows_of (o : Z) (pu : Z -> bool) (pr : Role -> bool) (t : Orgs) : list (Z * Z) :=
  map fst (List.filter (fun '((o', u), r) => (o' =? o) && pu u && pr r) (map_to_list (org_members t))).

Definition select_for_update (x o : Z) (pu : Z -> bool) (pr : Role -> bool) (order : list (Z * Z) -> list (Z * Z)) :
    prog D (result org_error (list (Z * Role))) :=
  tryE: ks ← ask ErrOrgSQL (fun d => order (rows_of o pu pr (get d))) catch err => mret (Err err);
  lock_rows x pr ks.

(** [UPDATE] and [DELETE] of one row: [RowsAffected], the row locked. *)
Definition rows_affected (x o u : Z) : prog D (result org_error Z) :=
  tryE: v ← lock_row x (o, u) catch err => mret (Err err);
  mret (Ok (match v with Some _ => 1 | None => 0 end)).

(** ** Guards *)

Definition ContainsID (l : list Z) (x : Z) : bool := existsb (Z.eqb x) l.

(** How many owners it saw and locked. *)
Definition ensureNotLastOwner (x orgID userID : Z) : prog D (result org_error Z) :=
  tryE: rows ← select_for_update x orgID (fun _ => true) (fun r => String.eqb r RoleOwner) scan catch err => mret (Err err);
  let isOwner := existsb (fun row => fst row =? userID) rows in
  let owners := Z.of_nat (length rows) in
  if isOwner && (owners <=? 1) then mret (Err ErrLastOwner) else mret (Ok owners).

(** [ORDER BY user_id] *)
Definition by_user (a b : Z * Z) : Prop := a.2 <= b.2.
#[local] Instance by_user_dec a b : Decision (by_user a b).
Proof. unfold by_user. apply _. Defined.

Definition role_in (u : Z) (roles : list (Z * Role)) : option Role :=
  snd <$> head (List.filter (fun row => row.1 =? u) roles).

Definition checkOwnerLevelGuard (x orgID actorID targetID : Z) (requestedRole : Role) : prog D (result org_error ()) :=
  tryE: roles ← select_for_update x orgID (ContainsID [actorID; targetID]) (fun _ => true) (merge_sort by_user)
    catch err => mret (Err err);
  match role_in actorID roles with
  | None => mret (Err ErrNotMember)
  | Some actorRole =>
      if negb (String.eqb actorRole RoleOwner) && negb (String.eqb actorRole RoleAdmin) then mret (Err ErrNotMember) else
      match role_in targetID roles with
      | None => mret (Err ErrNotMember)
      | Some targetRole =>
          if negb (String.eqb actorRole RoleOwner) && (String.eqb requestedRole RoleOwner || String.eqb targetRole RoleOwner)
          then mret (Err ErrOwnerOnly) else mret (Ok tt)
      end
  end.

(** ** Members *)

Definition Role_of (orgID userID : Z) : prog D (result org_error Role) :=
  tryE: r ← ask ErrOrgSQL (fun d => org_members (get d) !! (orgID, userID)) catch err => mret (Err err);
  match r with Some r => mret (Ok r) | None => mret (Err ErrNotMember) end.

(** [INSERT INTO org_members].  A user that does not exist violates a foreign
    key, which is one of the ways any statement may fail. *)
Definition insert_member (o u : Z) (role : Role) (t : Orgs) : result org_error () * Orgs :=
  match organizations t !! o, org_members t !! (o, u) with
  | Some _, None => (Ok tt, set_members (<[(o, u) := role]> (org_members t)) t)
  | _, _ => (Err ErrOrgSQL, t)
  end.

(** The same [ON CONFLICT (org_id, user_id) DO NOTHING]. *)
Definition ensure_member (o u : Z) (role : Role) (t : Orgs) : result org_error () * Orgs :=
  match org_members t !! (o, u) with Some _ => (Ok tt, t) | None => insert_member o u role t end.

Definition AddMember (orgID userID : Z) (role : Role) : prog D (result org_error ()) :=
  if negb (validRole role) then mret (Err ErrInvalidRole) else
  callE ErrOrgSQL (on (insert_member orgID userID role)).

Definition EnsureMember (orgID userID : Z) (role : Role) : prog D (result org_error ()) :=
  if negb (validRole role) then mret (Err ErrInvalidRole) else
  callE ErrOrgSQL (on (ensure_member orgID userID role)).

(** The tail [SetRole] and [SetRoleAs] share, and that of the removals. *)
Definition update_role (x orgID userID : Z) (role : Role) (actor : option Z) : prog D (result org_error write) :=
  tryE: owners ← (if negb (String.eqb role RoleOwner) then ensureNotLastOwner x orgID userID else mret (Ok 1))
    catch err => mret (Err err);
  tryE: n ← rows_affected x orgID userID catch err => mret (Err err);
  if n =? 0 then mret (Err ErrNotMember)
  else mret (Ok (mkWrite (orgID, userID) (Some role) actor (owners =? 0))).

Definition delete_row (x orgID userID : Z) (actor : option Z) : prog D (result org_error write) :=
  tryE: owners ← ensureNotLastOwner x orgID userID catch err => mret (Err err);
  tryE: n ← rows_affected x orgID userID catch err => mret (Err err);
  if n =? 0 then mret (Err ErrNotMember)
  else mret (Ok (mkWrite (orgID, userID) None actor (owners =? 0))).

Definition SetRole (orgID userID : Z) (role : Role) : prog D (result org_error ()) :=
  if negb (validRole role) then mret (Err ErrInvalidRole) else
  in_tx (fun x => update_role x orgID userID role None).

Definition RemoveMember (orgID userID : Z) : prog D (result org_error ()) :=
  in_tx (fun x => delete_row x orgID userID None).

Definition SetRoleAs (orgID actorID targetID : Z) (role : Role) : prog D (result org_error ()) :=
  if negb (validRole role) then mret (Err ErrInvalidRole) else
  in_tx (fun x =>
    chk: checkOwnerLevelGuard x orgID actorID targetID role;
    update_role x orgID targetID role (Some actorID)).

Definition RemoveMemberAs (orgID actorID targetID : Z) : prog D (result org_error ()) :=
  in_tx (fun x =>
    chk: checkOwnerLevelGuard x orgID actorID targetID "";
    delete_row x orgID targetID (Some actorID)).

(** ** Organisations *)

(** One transaction: nobody sees the organisation before its owner. *)
Definition create_org (slug name : string) (quotas : Z * Z * Z * Z * Z) (ownerID : Z) (t : Orgs) : result org_error Org * Orgs :=
  let '(e, tr, m, p, l) := quotas in
  if existsb (fun '(_, o) => String.eqb (o_Slug o) slug) (map_to_list (organizations t)) then (Err ErrSlugTaken, t)
  else
    let o := mkOrg (next_org t) slug name e tr m p l in
    (Ok o, set_members (<[(next_org t, ownerID) := RoleOwner]> (org_members t))
             (set_organizations (<[next_org t := o]> (organizations t)) (next_org t + 1) t)).

Definition CreateOrg (slug name : string) (quotas : Z * Z * Z * Z * Z) (ownerID : Z) : prog D (result org_error Org) :=
  if negb (validSlug slug) then mret (Err ErrInvalidSlug) else
  callE ErrOrgSQL (on (create_org slug name quotas ownerID)).

(** Whether another transaction holds one of the rows a cascade deletes. *)
Definition cascade_blocked (p : Z * Z -> bool) (t : Orgs) : bool := existsb (fun '(k, _) => p k) (map_to_list (locks t)).

Definition delete_members (p : Z * Z -> bool) (t : Orgs) : gmap (Z * Z) Role := filter (fun '(k, _) => p k = false) (org_members t).

Definition delete_org (o : Z) (t : Orgs) : result org_error (option bool) * Orgs :=
  if cascade_blocked (fun k => k.1 =? o) t then (Ok None, t) else
  match organizations t !! o with
  | None => (Ok (Some false), t)
  | Some _ =>
      (Ok (Some true),
       cascade_teams (set_teams (filter (fun '(_, tm) => tm_OrgID tm <> o) (teams t)) (next_team t)
         (set_members (delete_members (fun k => k.1 =? o) t)
           (set_organizations (delete o (organizations t)) (next_org t) t))))
  end.

Definition DeleteOrg (orgID : Z) : prog D (result org_error ()) :=
  tryE: found ← waiting wait (delete_org orgID) catch err => mret (Err err);
  if (found : bool) then mret (Ok tt) else mret (Err ErrNotFound).

(** The rows of [org_members] that go with a user, and the organisations
    where that was an owner. *)
Definition forget_user (u : Z) (t : Orgs) : option Orgs :=
  if cascade_blocked (fun k => k.2 =? u) t then None else
  let lost := list_to_set (omap (fun '((o, v), r) => if (v =? u) && String.eqb r RoleOwner then Some o else None)
                (map_to_list (org_members t))) in
  Some (cascade_teams (set_ghosts (lost ∪ unguarded t) (changes t) (set_members (delete_members (fun k => k.2 =? u) t) t))).

Definition SoleOwnedOrgNames (userID : Z) : prog D (result org_error (list string)) :=
  ask ErrOrgSQL (fun d : D =>
    let t := get d in
    omap (fun '(o, org) =>
        if bool_decide (org_members t !! (o, userID) = Some RoleOwner) && (length (rows_of o (fun _ => true) (fun r => String.eqb r RoleOwner) t) =? 1)%nat
        then Some (o_Name org) else None)
      (map_to_list (organizations t))).

(** ** Teams *)

Definition create_team (orgID : Z) (slug name : string) (t : Orgs) : result org_error Team * Orgs :=
  if existsb (fun '(_, tm) => (tm_OrgID tm =? orgID) && String.eqb (tm_Slug tm) slug) (map_to_list (teams t)) then (Err ErrSlugTaken, t)
  else match organizations t !! orgID with
       | None => (Err ErrOrgSQL, t)
       | Some _ => let tm := mkTeam (next_team t) orgID slug name in
                   (Ok tm, set_teams (<[next_team t := tm]> (teams t)) (next_team t + 1) t)
       end.

Definition CreateTeam (orgID : Z) (slug name : string) : prog D (result org_error Team) :=
  if negb (validSlug slug) then mret (Err ErrInvalidSlug) else
  callE ErrOrgSQL (on (create_team orgID slug name)).

Definition RenameTeam (orgID teamID : Z) (name : string) : prog D (result org_error ()) :=
  if String.eqb (TrimSpace name) "" then mret (Err ErrInvalidName) else
  callE ErrOrgSQL (on (fun t : Orgs =>
    match teams t !! teamID with
    | Some tm => if tm_OrgID tm =? orgID
                 then (Ok tt, set_teams (<[teamID := mkTeam (tm_ID tm) (tm_OrgID tm) (tm_Slug tm) name]> (teams t)) (next_team t) t)
                 else (Err ErrNotFound, t)
    | None => (Err ErrNotFound, t)
    end)).

Definition DeleteTeam (orgID teamID : Z) : prog D (result org_error ()) :=
  callE ErrOrgSQL (on (fun t : Orgs =>
    match teams t !! teamID with
    | Some tm => if tm_OrgID tm =? orgID
                 then (Ok tt, set_team_members (filter (fun '((tm, _), _) => tm <> teamID) (team_members t))
                                (set_teams (delete teamID (teams t)) (next_team t) t))
                 else (Err ErrNotFound, t)
    | None => (Err ErrNotFound, t)
    end)).

Definition TeamOrg (teamID : Z) : prog D (result org_error Z) :=
  tryE: tm ← ask ErrOrgSQL (fun d => teams (get d) !! teamID) catch err => mret (Err err);
  match tm with Some tm => mret (Ok (tm_OrgID tm)) | None => mret (Err ErrNotFound) end.

(** The foreign keys make the member one of the team's organisation; a
    second membership (code 23505) is no error. *)
Definition AddTeamMember (teamID userID : Z) : prog D (result org_error ()) :=
  callE ErrOrgSQL (on (fun t : Orgs =>
    match teams t !! teamID with
    | Some tm =>
        match org_members t !! (tm_OrgID tm, userID) with
        | Some _ => (Ok tt, match team_members t !! (teamID, userID) with
                            | Some _ => t
                            | None => set_team_members (<[(teamID, userID) := tm_OrgID tm]> (team_members t)) t
                            end)
        | None => (Err ErrNotMember, t)
        end
    | None => (Err ErrNotMember, t)
    end)).

Definition RemoveTeamMember (teamID userID : Z) : prog D (result org_error ()) :=
  callE ErrOrgSQL (on (fun t : Orgs =>
    match team_members t !! (teamID, userID) with
    | Some _ => (Ok tt, set_team_members (delete (teamID, userID) (team_members t)) t)
    | None => (Err ErrNotMember, t)
    end)).
End programs.

(** ** The invariant of the tables *)

(** Owner-level access is given and taken by owners only. *)
Definition change_ok (c : change) : Prop :=
  forall a, ch_actor c = Some a ->
    ch_actor_role c = Some RoleOwner \/
    ch_actor_role c = Some RoleAdmin /\ ch_before c <> Some RoleOwner /\ ch_after c <> Some RoleOwner.

Definition has_owner (o : Z) (t : Orgs) : Prop := exists u, org_members t !! (o, u) = Some RoleOwner.

Record org_wf (t : Orgs) : Prop := {
  ow_locks : forall k x, locks t !! k = Some x -> x ∈ active t;
  ow_locked : forall k x, locks t !! k = Some x -> is_Some (org_members t !! k);
  ow_fresh : forall x, x ∈ active t -> x < next_xid t;
  ow_orgs : forall o, is_Some (organizations t !! o) -> o < next_org t;
  ow_owner : forall o, is_Some (organizations t !! o) -> o ∉ unguarded t -> has_owner o t;
  ow_member : forall o u r, org_members t !! (o, u) = Some r -> is_Some (organizations t !! o);
  ow_team : forall tm u o, team_members t !! (tm, u) = Some o -> is_Some (org_members t !! (o, u));
  ow_changes : Forall change_ok (changes t) }.

(** A transaction that is over stays so; while it lasts nobody else takes its
    locks or writes the rows under them. *)
Record org_moves (t t' : Orgs) : Prop := {
  om_next : next_xid t <= next_xid t';
  om_over : forall x, x < next_xid t -> x ∉ active t -> x ∉ active t';
  om_held : forall k x, x < next_xid t -> x ∈ active t -> x ∈ active t' -> locks t !! k = Some x ->
    locks t' !! k = Some x /\ org_members t' !! k = org_members t !! k }.

#[export] Instance org_moves_preorder : PreOrder org_moves.
Proof.
  split.
  - intros t. by constructor.
  - intros t1 t2 t3 [N12 O12 H12] [N23 O23 H23]. constructor; [lia| |].
    + intros x Hx Ha. apply O23; [lia|]. by apply O12.
    + intros k x Hx Ha1 Ha3 Hl. destruct (decide (x ∈ active t2)) as [Ha2|Ha2].
      * destruct (H12 k x Hx Ha1 Ha2 Hl) as [Hl2 <-]. apply H23; [lia|done..].
      * exfalso. apply (O23 x); [lia|done..].
Qed.

Section guarantees.
Context {D : Type} `{Has Orgs D}.
Variable wait : nat.
Variable scan : list (Z * Z) -> list (Z * Z).
Hypothesis scan_perm : forall l, scan l ≡ₚ l.

Abbreviation P := (fun d : D => org_wf (get d)).
Abbreviation R := (fun d d' : D => org_moves (get d) (get d')).
#[local] Instance R_preorder : PreOrder R.
Proof. split; [intros d; reflexivity|intros d1 d2 d3; apply org_moves_preorder]. Qed.

(** [F] holds for as long as transaction [x] lasts. *)
Definition during (x : Z) (F : Orgs -> Prop) (d : D) : Prop :=
  x < next_xid (get d) /\ (x ∈ active (get d) -> F (get d)).

(** Row [k] is locked by [x] and holds [r]. *)
Definition holds_row (x : Z) (k : Z * Z) (r : Role) (t : Orgs) : Prop := locks t !! k = Some x /\ org_members t !! k = Some r.

(** Facts about rows a transaction has locked outlive the moves of others. *)
Definition about_locked (x : Z) (F : Orgs -> Prop) : Prop :=
  forall t t', F t -> (forall k, locks t !! k = Some x -> locks t' !! k = Some x /\ org_members t' !! k = org_members t !! k) -> F t'.

Lemma during_stable x F : about_locked x F -> stable P R (during x F).
Proof.
  intros HF d d' HP HP' [N O Hh] [Hx Hd]. split; [lia|]. intros Ha.
  assert (x ∈ active (get d)) as Ha0 by (destruct (decide (x ∈ active (get d))); [done|exfalso; by apply (O x)]).
  apply (HF (get d)); [by apply Hd|]. intros k Hk. by apply Hh.
Qed.

Lemma holds_row_locked x k r : about_locked x (holds_row x k r).
Proof. intros t t' [Hl Hm] Hk. destruct (Hk k Hl) as [? Hm']. split; [done|congruence]. Qed.
Lemma locked_and x F G : about_locked x F -> about_locked x G -> about_locked x (fun t => F t /\ G t).
Proof. intros HF HG t t' [? ?] Hk. split; [by apply (HF t)|by apply (HG t)]. Qed.
Lemma locked_pure x (φ : Prop) : about_locked x (fun _ => φ).
Proof. by intros t t'. Qed.
Lemma locked_imp x (φ : Prop) F : about_locked x F -> about_locked x (fun t => φ -> F t).
Proof. intros HF t t' Ht Hk Hφ. apply (HF t); [by apply Ht|done]. Qed.
Lemma locked_ex {A} x (F : A -> Orgs -> Prop) : (forall a, about_locked x (F a)) -> about_locked x (fun t => exists a, F a t).
Proof. intros HF t t' [a Ha] Hk. exists a. by apply (HF a t). Qed.
Lemma locked_all {A} x (F : A -> Orgs -> Prop) : (forall a, about_locked x (F a)) -> about_locked x (fun t => forall a, F a t).
Proof. intros HF t t' Ha Hk a. by apply (HF a t). Qed.
End guarantees.
#[export] Hint Resolve holds_row_locked locked_and locked_pure locked_imp locked_ex locked_all during_stable : gotcha.

Ltac org_cbn := cbn [fst snd organizations next_org org_members teams next_team team_members locks active next_xid unguarded changes
  set_organizations set_members set_teams set_team_members set_txs set_ghosts cascade_teams] in *.

Ltac keep_locked := repeat first
  [apply holds_row_locked | apply locked_pure | apply locked_and | apply locked_all | apply locked_ex | apply locked_imp
  |match goal with |- forall _, about_locked _ _ => intros ? end].

Lemma begin_wf t : org_wf t -> org_wf (begin_tx t).2 /\ org_moves t (begin_tx t).2.
Proof.
  intros W. destruct W. unfold begin_tx. split; constructor; org_cbn; try done.
  - intros k x Hk. apply elem_of_union_r. eauto.
  - intros x [->%elem_of_singleton|Hx]%elem_of_union; [lia|]. specialize (ow_fresh0 x Hx). lia.
  - lia.
  - intros x Hx Hn. set_unfold. intros [->|]; [lia|done].
Qed.

Lemma end_wf x t : org_wf t -> org_wf (end_tx x t) /\ org_moves t (end_tx x t).
Proof.
  intros W. destruct W. unfold end_tx. split; constructor; org_cbn; try done.
  - intros k y [Hk Hy]%map_lookup_filter_Some. apply elem_of_difference. split; [eauto|]. by intros ->%elem_of_singleton.
  - intros k y [Hk _]%map_lookup_filter_Some. eauto.
  - intros y [Hy _]%elem_of_difference. auto.
  - set_solver.
  - intros k y Hy Ha [_ Hne]%elem_of_difference Hk. split; [|done].
    apply map_lookup_filter_Some. split; [done|]. set_solver.
Qed.

Lemma try_lock_wf x k t :
  org_wf t -> x < next_xid t -> org_wf (try_lock x k t).2 /\ org_moves t (try_lock x k t).2 /\
  match (try_lock x k t).1 with
  | Ok (Some (Some r)) => holds_row x k r (try_lock x k t).2
  | _ => True
  end.
Proof.
  intros W Hx. unfold try_lock. destruct (decide (x ∈ active t)) as [Ha|]; [|done].
  destruct (locks t !! k) as [y|] eqn:Hl.
  - destruct (decide (y = x)) as [->|]; [|done]. cbn. split_and!; [done..|]. by destruct (org_members t !! k) eqn:Hm.
  - destruct (org_members t !! k) as [r|] eqn:Hm; [|done]. split_and!.
    + destruct W. constructor; org_cbn; try done; intros k' y [[<- <-]|[_ Hk]]%lookup_insert_Some; eauto.
    + constructor; org_cbn; try done. intros k' y Hy Ha1 Ha2 Hk. split; [|done].
      rewrite lookup_insert_ne; [done|]. congruence.
    + split; org_cbn; [by rewrite lookup_insert_eq|done].
Qed.

Section guards.
Context {D : Type} `{Has Orgs D}.
Variable wait : nat.
Variable scan : list (Z * Z) -> list (Z * Z).
Hypothesis scan_perm : forall l, scan l ≡ₚ l.

Abbreviation P := (fun d : D => org_wf (get d)).
Abbreviation R := (fun d d' : D => org_moves (get d) (get d')).
Abbreviation org_rg := (rg P R).
#[local] Existing Instance R_preorder.

(** A statement on the tables, inside transaction [x] of which [F] is known. *)
Lemma rg_on {A} x F G (q : Orgs -> result org_error A * Orgs) :
  about_locked x F -> (forall a, about_locked x (G a)) ->
  (forall t, org_wf t -> x < next_xid t -> org_wf (q t).2 /\ org_moves t (q t).2 /\
     match (q t).1 with Ok a => G a (q t).2 | Err _ => True end) ->
  org_rg (during x F) (callE ErrOrgSQL (on q))
    (fun r d => match r with Ok a => during x (fun t => F t /\ G a t) d | Err _ => during x F d end).
Proof.
  intros HF HG Hq. eapply rg_mono.
  - apply (rg_callE P R (during x F) ErrOrgSQL (on q) (fun a => during x (G a))); [auto with gotcha..|].
    intros d HP [Hx HFd]. rewrite get_on, on_val. destruct (Hq (get d) HP Hx) as (? & Hm & Ha). split_and!; [done..|].
    destruct ((q (get d)).1); [|done]. destruct Hm. split; [rewrite get_on; lia|]. rewrite get_on. by intros _.
  - intros [a|e] d _ [[? ?] Hr]; [|done]. destruct Hr. split; auto.
Qed.

Lemma rg_waiting {A} x F G (q : Orgs -> result org_error (option A) * Orgs) n :
  about_locked x F -> (forall a, about_locked x (G a)) ->
  (forall t, org_wf t -> x < next_xid t -> org_wf (q t).2 /\ org_moves t (q t).2 /\
     match (q t).1 with Ok (Some a) => G a (q t).2 | _ => True end) ->
  org_rg (during x F) (waiting n q)
    (fun r d => match r with Ok a => during x (fun t => F t /\ G a t) d | Err _ => during x F d end).
Proof.
  intros HF HG Hq. induction n as [|n IH]; [by intros d|]. cbn [waiting]. eapply rg_bind.
  - apply (rg_on x F (fun r t => match r with Some a => G a t | None => True end)); [done| |].
    + intros [a|]; auto with gotcha.
    + intros t Ht Hx. destruct (Hq t Ht Hx) as (? & ? & ?). split_and!; [done..|]. destruct (q t).1 as [[a|]|]; done.
  - intros [[a|]|e]; [by intros d| |by intros d]. eapply rg_weaken; [|exact IH]. intros d _ [? Hd]. split; [done|]. intros Ha. by apply Hd.
Qed.

Lemma rg_lock_row x F k :
  about_locked x F ->
  org_rg (during x F) (lock_row wait x k)
    (fun r d => match r with
                | Ok v => during x (fun t => F t /\ match v with Some r => holds_row x k r t | None => True end) d
                | Err _ => during x F d
                end).
Proof.
  intros HF. apply rg_waiting; [done|intros [r|]; auto with gotcha|]. intros t Ht Hx.
  destruct (try_lock_wf x k t Ht Hx) as (? & ? & Hr). split_and!; [done..|]. by destruct (try_lock x k t).1 as [[[]|]|].
Qed.

(** The rows a [SELECT ... FOR UPDATE] returns are locked and up to date, and
    none is returned twice. *)
Definition locked_rows (x o : Z) (p : Role -> bool) (us : list Z) (rows : list (Z * Role)) (t : Orgs) : Prop :=
  map fst rows `sublist_of` us /\ forall u r, (u, r) ∈ rows -> p r = true /\ holds_row x (o, u) r t.

Lemma locked_rows_locked x o p us rows : about_locked x (locked_rows x o p us rows).
Proof. unfold locked_rows. keep_locked. Qed.

Lemma rg_lock_rows x o F p ks :
  about_locked x F -> Forall (fun k => fst k = o) ks ->
  org_rg (during x F) (lock_rows wait x p ks)
    (fun r d => match r with
                | Ok rows => during x (fun t => F t /\ locked_rows x o p (map snd ks) rows t) d
                | Err _ => during x F d
                end).
Proof.
  intros HF. revert F HF. induction ks as [|k ks IH]; intros F HF Hks; cbn [lock_rows].
  - intros d _ [? Hd]. split; [done|]. intros Ha. split; [by apply Hd|]. split; [by constructor|]. by intros u r ?%not_elem_of_nil.
  - apply Forall_cons in Hks as [Hk Hks]. eapply rg_bind; [by apply rg_lock_row|]. intros [v|e]; [|by intros d].
    eapply rg_bind; [apply IH; [|done]; destruct v; auto with gotcha|]. intros [rows|e]; intros d _ [? Hd].
    + split; [done|]. intros Ha. destruct (Hd Ha) as [[? Hv] [Hsub Hrows]]. split; [done|].
      destruct v as [r|]; [|split; [by constructor|done]]. destruct (p r) eqn:Hp; [|split; [by constructor|done]].
      split; [by constructor|]. intros u' r' [[= -> ->]|Hin]%elem_of_cons; [|by apply Hrows].
      split; [done|]. rewrite <- Hk. by destruct k.
    + split; [done|]. intros Ha. by apply Hd.
Qed.

Lemma elem_of_rows_of o pu pr t k :
  k ∈ rows_of o pu pr t <-> exists u r, k = (o, u) /\ org_members t !! (o, u) = Some r /\ pu u = true /\ pr r = true.
Proof.
  unfold rows_of. rewrite list_elem_of_fmap. split.
  - intros ([[o' u] r] & -> & Hin). apply list_elem_of_In, filter_In in Hin as [Hin Hc]. apply list_elem_of_In, elem_of_map_to_list in Hin.
    apply andb_true_iff in Hc as [[->%Z.eqb_eq ?]%andb_true_iff ?]. by exists u, r.
  - intros (u & r & -> & Hm & Hu & Hr). exists ((o, u), r). split; [done|]. apply list_elem_of_In, filter_In.
    split; [by apply list_elem_of_In, elem_of_map_to_list|]. by rewrite Z.eqb_refl, Hu, Hr.
Qed.

Lemma rows_of_NoDup o pu pr t : NoDup (rows_of o pu pr t).
Proof.
  unfold rows_of. pose proof (NoDup_fst_map_to_list (org_members t)) as Hnd. induction (map_to_list (org_members t)) as [|kr l IH]; [constructor|].
  cbn in *. apply NoDup_cons in Hnd as [Hk Hnd]. destruct kr as [[o' u] r]. destruct (_ && _); [|by apply IH]. cbn. constructor; [|by apply IH].
  contradict Hk. apply list_elem_of_fmap in Hk as (kr & Heq & Hin). apply list_elem_of_fmap. exists kr. split; [done|].
  apply list_elem_of_In, filter_In in Hin as [Hin _]. by apply list_elem_of_In.
Qed.

Lemma rg_select x o F pu pr order :
  (forall l, order l ≡ₚ l) -> about_locked x F ->
  org_rg (during x F) (select_for_update wait x o pu pr order)
    (fun r d => match r with
                | Ok rows => during x (fun t => F t /\ NoDup (map fst rows) /\
                    forall u r, (u, r) ∈ rows -> pu u = true /\ pr r = true /\ holds_row x (o, u) r t) d
                | Err _ => during x F d
                end).
Proof.
  intros Hord HF. unfold select_for_update. eapply rg_bind.
  - apply (rg_ask P R (during x F) ErrOrgSQL _ (fun ks _ => exists t, ks = order (rows_of o pu pr t))); [auto with gotcha..|].
    intros d _ _. by exists (get d).
  - intros [ks|e]; [|by intros d _ [? _]]. eapply rg_weaken with (S := fun d => (exists t, ks = order (rows_of o pu pr t)) /\ during x F d); [tauto|].
    apply rg_pure. intros [t0 ->]. assert (forall k, k ∈ order (rows_of o pu pr t0) -> exists u, k = (o, u) /\ pu u = true) as Hin.
    { intros k. rewrite Hord, elem_of_rows_of. intros (u & r & -> & _ & ? & _). eauto. }
    eapply rg_mono; [apply (rg_lock_rows x o); [done|]; apply Forall_forall; intros k (u & -> & _)%Hin; done|].
    intros [rows|e] d _ Hd; [|done]. destruct Hd as [Hx Hd]. split; [done|]. intros Ha. destruct (Hd Ha) as (? & Hsub & Hrows).
    split; [done|]. split.
    + eapply sublist_NoDup; [|exact Hsub]. apply (NoDup_fmap_2_strong snd).
      * intros k1 k2 (u1 & -> & _)%Hin (u2 & -> & _)%Hin. cbn. by intros ->.
      * rewrite Hord. apply rows_of_NoDup.
    + intros u r Hur. destruct (Hrows u r Hur). split_and!; [|done..].
      assert (u ∈ map snd (order (rows_of o pu pr t0))) as Hu.
      { eapply elem_of_sublist; [|exact Hsub]. apply list_elem_of_fmap. by exists (u, r). }
      apply list_elem_of_fmap in Hu as (k & -> & (v & -> & ?)%Hin). done.
Qed.

(** Another owner is left. *)
Definition other_owner (x o u : Z) (t : Orgs) : Prop := exists v, v <> u /\ holds_row x (o, v) RoleOwner t.

Lemma other_owner_locked x o u : about_locked x (other_owner x o u).
Proof. unfold other_owner. keep_locked. Qed.

(** The guard passes only when it has locked another owner, or none at all. *)
Lemma rg_ensureNotLastOwner x o u F :
  about_locked x F ->
  org_rg (during x F) (ensureNotLastOwner wait scan x o u)
    (fun r d => match r with
                | Ok n => during x (fun t => F t /\ (n <> 0 -> other_owner x o u t)) d
                | Err _ => during x F d
                end).
Proof.
  intros HF. unfold ensureNotLastOwner. eapply rg_bind; [by apply rg_select|]. intros [rows|e]; [|by intros d].
  destruct (existsb _ rows && _) eqn:Hlast; intros d _ [Hx Hd]; (split; [done|]); intros Ha; destruct (Hd Ha) as (HFd & Hnd & Hrows); [done|].
  split; [done|]. intros Hn. assert (exists v r, (v, r) ∈ rows /\ v <> u) as (v & r & Hv & Hvu).
  { destruct rows as [|[v1 r1] rows]; [done|]. destruct (decide (v1 = u)) as [->|]; [|by exists v1, r1; split; [left|]].
    destruct rows as [|[v2 r2] rows].
    - exfalso. cbn in Hlast. rewrite Z.eqb_refl in Hlast. done.
    - exists v2, r2. split; [right; left|]. intros ->. cbn in Hnd. apply NoDup_cons in Hnd as [Hu _]. apply Hu. left. }
  exists v. destruct (Hrows v r Hv) as (_ & ->%String.eqb_eq & ?). done.
Qed.

(** What [checkOwnerLevelGuard] lets through. *)
Definition permitted (x o actor target : Z) (req : Role) (t : Orgs) : Prop :=
  exists ra rt, holds_row x (o, actor) ra t /\ holds_row x (o, target) rt t /\
    (ra = RoleOwner \/ ra = RoleAdmin /\ req <> RoleOwner /\ rt <> RoleOwner).

Lemma permitted_locked x o a u req : about_locked x (permitted x o a u req).
Proof. unfold permitted. keep_locked. Qed.

Lemma role_in_elem u rows r : role_in u rows = Some r -> (u, r) ∈ rows.
Proof.
  unfold role_in. destruct (List.filter _ rows) as [|[v r'] l] eqn:Hf; [done|]. cbn. intros [= ->].
  assert ((v, r) ∈ (v, r) :: l) as Hin by left. rewrite <- Hf in Hin. apply list_elem_of_In, filter_In in Hin as [Hin Hv%Z.eqb_eq]. cbn in Hv. subst v.
  by apply list_elem_of_In.
Qed.

Lemma rg_checkOwnerLevelGuard x o a u req :
  org_rg (during x (fun _ => True)) (checkOwnerLevelGuard wait x o a u req)
    (fun r d => match r with
                | Ok _ => during x (permitted x o a u req) d
                | Err _ => during x (fun _ => True) d
                end).
Proof.
  unfold checkOwnerLevelGuard. eapply rg_bind.
  { apply rg_select; [|apply locked_pure]. intros l. apply merge_sort_Permutation. }
  intros [rows|e]; [|by intros d].
  assert (forall e : org_error, org_rg (during x (fun t => True /\ NoDup (map fst rows) /\ forall v r, (v, r) ∈ rows ->
      ContainsID [a; u] v = true /\ true = true /\ holds_row x (o, v) r t))
    (mret (Err e) : prog D (result org_error ())) (fun r d => match r with
      | Ok _ => during x (permitted x o a u req) d | Err _ => during x (fun _ => True) d end)) as Herr by (by intros e d _ [? _]).
  destruct (role_in a rows) as [ra|] eqn:Hra; [|apply Herr].
  destruct (negb (String.eqb ra RoleOwner) && negb (String.eqb ra RoleAdmin)) eqn:Hadmin; [apply Herr|].
  destruct (role_in u rows) as [rt|] eqn:Hrt; [|apply Herr].
  destruct (negb (String.eqb ra RoleOwner) && (String.eqb req RoleOwner || String.eqb rt RoleOwner)) eqn:Howner; [apply Herr|].
  intros d _ [Hx Hd]. split; [done|]. intros Ha. destruct (Hd Ha) as (_ & _ & Hrows). exists ra, rt.
  apply role_in_elem in Hra, Hrt. destruct (Hrows _ _ Hra) as (_ & _ & ?), (Hrows _ _ Hrt) as (_ & _ & ?). split_and!; [done..|].
  destruct (String.eqb_spec ra RoleOwner) as [|Hno]; [by left|right]. cbn in Hadmin, Howner.
  destruct (String.eqb_spec ra RoleAdmin); [|done]. split_and!; [done|..]; intros ->; rewrite String.eqb_refl in Howner; [done|by rewrite orb_true_r in Howner].
Qed.

(** What a transaction knows when it commits [w]. *)
Definition ready (x : Z) (w : write) (t : Orgs) : Prop :=
  let '(o, u) := w_key w in
  (exists r, holds_row x (o, u) r t) /\
  (w_role w <> Some RoleOwner /\ w_blind w = false -> other_owner x o u t) /\
  (forall a, w_actor w = Some a -> permitted x o a u (default "" (w_role w)) t).

Lemma commit_wf x w t : org_wf t -> x ∈ active t -> ready x w t -> org_wf (end_tx x (apply_write w t)).
Proof.
  intros W Ha Hr. destruct w as [[o u] role actor blind]. destruct Hr as ([r [Hl Hm]] & Hother & Hperm).
  cbn [w_key w_role w_actor w_blind] in *. unfold apply_write, end_tx. cbn [w_key w_role w_actor w_blind].
  assert (forall k, k <> (o, u) -> match role with Some r => <[(o, u) := r]> | None => delete (o, u) end (org_members t) !! k = org_members t !! k) as Hne.
  { intros k Hk. destruct role; [by rewrite lookup_insert_ne|by rewrite lookup_delete_ne]. }
  destruct W. constructor; org_cbn; [..|done| | | |].
  - intros k y [Hk Hy]%map_lookup_filter_Some. apply elem_of_difference. split; [eauto|]. by intros ->%elem_of_singleton.
  - intros k y [Hk Hy]%map_lookup_filter_Some. rewrite Hne by congruence. eauto.
  - intros y [Hy _]%elem_of_difference. auto.
  - intros o' Ho' Hu. assert (o' ∉ unguarded t) as Hu' by (destruct blind; set_solver).
    destruct (decide (o' = o)) as [->|Hoo].
    + destruct (decide (role = Some RoleOwner)) as [->|Hrole]; [exists u; org_cbn; by rewrite lookup_insert_eq|].
      destruct blind; [set_solver|]. destruct Hother as (v & Hv & _ & Hvm); [done|]. exists v. org_cbn. rewrite Hne; [done|congruence].
    + destruct (ow_owner0 o' Ho' Hu') as [v Hv]. exists v. org_cbn. rewrite Hne; [done|congruence].
  - intros o' v r'. destruct (decide ((o', v) = (o, u))) as [[= -> ->]|Hk]; [|rewrite Hne by done; apply ow_member0].
    intros _. by eapply ow_member0.
  - intros tm v o'. by intros [_ ?]%map_lookup_filter_Some.
  - apply Forall_app; split; [done|]. apply Forall_singleton. intros a Hact. destruct actor as [a'|]; [|done]. injection Hact as ->.
    destruct (Hperm a eq_refl) as (ra & rt & [_ Hra] & [_ Hrt] & Hp). cbn. rewrite Hra, Hrt.
    destruct Hp as [->|(-> & Hreq & Hnot)]; [by left|right]. split_and!; [done|congruence|]. intros ->. by apply Hreq.
Qed.

Lemma commit_tx_wf x w t :
  org_wf t -> (x ∈ active t -> ready x w t) -> org_wf (commit_tx x w t).2 /\ org_moves t (commit_tx x w t).2.
Proof.
  intros W Hr. unfold commit_tx. destruct (decide (x ∈ active t)) as [Ha|]; [|by split].
  specialize (Hr Ha). pose proof (commit_wf x w t W Ha Hr). split; [done|].
  destruct w as [[o u] role actor blind]. destruct Hr as ([r [Hl Hm]] & _ & _). cbn in Hl.
  constructor; unfold end_tx, apply_write; cbn [w_key w_role w_actor w_blind]; org_cbn; [done|set_solver|].
  intros k y Hy Hay [_ Hne]%elem_of_difference Hk. assert (y <> x) as Hyx by set_solver. split; [by apply map_lookup_filter_Some|].
  assert (k <> (o, u)) by congruence. destruct role; [by rewrite lookup_insert_ne|by rewrite lookup_delete_ne].
Qed.

Lemma ready_locked x w : about_locked x (ready x w).
Proof.
  destruct w as [[o u] role actor blind]. unfold ready. cbn. repeat first [apply other_owner_locked | apply permitted_locked | progress keep_locked].
Qed.

(** ** The programs *)

Lemma rg_rows_affected x o u F :
  about_locked x F ->
  org_rg (during x F) (rows_affected wait x o u)
    (fun r d => match r with
                | Ok n => during x (fun t => F t /\ (n <> 0 -> exists r, holds_row x (o, u) r t)) d
                | Err _ => during x F d
                end).
Proof.
  intros HF. unfold rows_affected. eapply rg_bind; [by apply rg_lock_row|]. intros [v|e]; intros d _ [Hx Hd]; [|done].
  split; [done|]. intros Ha. destruct (Hd Ha) as [? Hv]. split; [done|]. destruct v as [r|]; [by exists r|done].
Qed.

(** A guard that counts owners, the statement that writes, and what is known
    of the write. *)
Lemma rg_guarded_write x o u role actor F (guard : prog D (result org_error Z)) :
  about_locked x F ->
  (forall t a, F t -> actor = Some a -> permitted x o a u (default "" role) t) ->
  org_rg (during x F) guard (fun r d => match r with
    | Ok n => during x (fun t => F t /\ (role <> Some RoleOwner -> n <> 0 -> other_owner x o u t)) d
    | Err _ => during x F d
    end) ->
  org_rg (during x F)
    (tryE: owners ← guard catch err => mret (Err err);
     tryE: n ← rows_affected wait x o u catch err => mret (Err err);
     if n =? 0 then mret (Err ErrNotMember) else mret (Ok (mkWrite (o, u) role actor (owners =? 0))))
    (fun r d => match r with Ok w => during x (ready x w) d | Err _ => True end).
Proof.
  intros HF Hperm Hg. eapply rg_bind; [exact Hg|]. intros [n|e]; [|done]. eapply rg_bind; [apply rg_rows_affected|].
  - repeat first [exact HF | apply other_owner_locked | progress keep_locked].
  - intros [m|e]; [|done]. destruct (Z.eqb_spec m 0) as [|Hm]; [done|]. intros d _ [Hx Hd]. split; [done|]. intros Ha.
    destruct (Hd Ha) as ((HFd & Hother) & Hrow). unfold ready. cbn. split_and!; [by apply Hrow| |by intros a ->; apply Hperm].
    intros [Hrole Hn%Z.eqb_neq]. by apply Hother.
Qed.

Lemma rg_update_role x o u role actor F :
  about_locked x F -> (forall t a, F t -> actor = Some a -> permitted x o a u role t) ->
  org_rg (during x F) (update_role wait scan x o u role actor)
    (fun r d => match r with Ok w => during x (ready x w) d | Err _ => True end).
Proof.
  intros HF Hperm. apply rg_guarded_write; [done|done|].
  destruct (String.eqb_spec role RoleOwner) as [->|Hne]; cbn [negb].
  - intros d _ [Hx Hd]. split; [done|]. intros Ha. split; [by apply Hd|done].
  - eapply rg_mono; [by apply rg_ensureNotLastOwner|]. intros [n|e] d _ Hd; [|done]. destruct Hd as [Hx Hd]. split; [done|]. intros Ha.
    destruct (Hd Ha). split; [done|]. auto.
Qed.

Lemma rg_delete_row x o u actor F :
  about_locked x F -> (forall t a, F t -> actor = Some a -> permitted x o a u "" t) ->
  org_rg (during x F) (delete_row wait scan x o u actor)
    (fun r d => match r with Ok w => during x (ready x w) d | Err _ => True end).
Proof.
  intros HF Hperm. apply (rg_guarded_write x o u None); [done|done|].
  eapply rg_mono; [by apply rg_ensureNotLastOwner|]. intros [n|e] d _ Hd; [|done]. destruct Hd as [Hx Hd]. split; [done|]. intros Ha.
  destruct (Hd Ha). split; [done|]. auto.
Qed.

Abbreviation org_safe p := (rg P R (fun _ : D => True) p (fun _ _ => True)).

Lemma safe_on {A} S (q : Orgs -> result org_error A * Orgs) :
  (forall d : D, org_wf (get d) -> S d -> org_wf (q (get d)).2 /\ org_moves (get d) (q (get d)).2) ->
  org_rg S (callE ErrOrgSQL (on q)) (fun _ _ => True).
Proof.
  intros Hq f d HP HS. destruct (Hq d HP HS) as [Hw Hm]. rewrite <- get_on in Hw, Hm.
  split; [by destruct f|]. split; [destruct f; [done|reflexivity|done]|]. by exists (fun _ => True).
Qed.

Lemma safe_rollback x : org_safe (Rollback x).
Proof.
  unfold Rollback. eapply rg_bind; [|by intros r]. apply (safe_on _ (fun t => (Ok tt, end_tx x t))). intros d HP _. by apply end_wf.
Qed.

Lemma safe_in_tx body :
  (forall x, org_rg (during x (fun _ => True)) (body x) (fun r d => match r with Ok w => during x (ready x w) d | Err _ => True end)) ->
  org_safe (in_tx body).
Proof.
  intros Hb. unfold in_tx. eapply rg_bind.
  { apply (rg_call P R (fun _ => True) ErrOrgSQL (on begin_tx) (fun x => during x (fun _ => True))); [done|auto with gotcha|].
    intros d HP _. rewrite get_on, on_val. destruct (begin_wf (get d) HP). split_and!; [done..|]. unfold during. rewrite get_on. split; [cbn; lia|done]. }
  assert (forall S x (r : result org_error ()), org_rg S (mbind (fun _ : () => mret r) (Rollback x)) (fun _ _ => True)) as Hroll.
  { intros S x r. apply rg_safe. eapply rg_bind; [apply safe_rollback|done]. }
  intros [x|e]; [|done]. eapply rg_weaken with (S := during x (fun _ => True)); [tauto|]. eapply rg_bind; [apply Hb|].
  intros [w|e]; [|apply Hroll]. eapply rg_bind.
  - apply safe_on. intros d HP [Hx Hd]. by apply commit_tx_wf.
  - intros [?|e]; [done|apply Hroll].
Qed.
End guards.

(** ** Statements outside transactions *)

(** What such a statement may do. *)
Definition org_keeps {A} (q : Orgs -> A * Orgs) : Prop := forall t, org_wf t -> org_wf (q t).2 /\ org_moves t (q t).2.

Lemma insert_member_keeps o u r : org_keeps (insert_member o u r).
Proof.
  intros t W. unfold insert_member. destruct (organizations t !! o) as [org|] eqn:Ho; [|done].
  destruct (org_members t !! (o, u)) eqn:Hm; [done|]. assert (forall k v, org_members t !! k = Some v -> <[(o, u) := r]> (org_members t) !! k = Some v) as Hk.
  { intros k v Hk. rewrite lookup_insert_ne; [done|]. congruence. }
  destruct W. split; constructor; org_cbn; try done.
  - intros k x Hl. destruct (ow_locked0 k x Hl) as [v Hv]. exists v. by apply Hk.
  - intros o' Ho' Hu. destruct (ow_owner0 o' Ho' Hu) as [v Hv]. exists v. org_cbn. by apply Hk.
  - intros o' v r' [[[= <- <-] _]|[_ Hv]]%lookup_insert_Some; [by rewrite Ho|by eapply ow_member0].
  - intros tm v o' Ht. destruct (ow_team0 tm v o' Ht) as [r' Hr]. exists r'. by apply Hk.
  - intros k x _ _ _ Hl. split; [done|]. destruct (ow_locked0 k x Hl) as [v Hv]. rewrite Hv. by apply Hk.
Qed.

Lemma ensure_member_keeps o u r : org_keeps (ensure_member o u r).
Proof. intros t W. unfold ensure_member. destruct (org_members t !! (o, u)); [done|]. by apply insert_member_keeps. Qed.

Lemma create_org_keeps slug name quotas u : org_keeps (create_org slug name quotas u).
Proof.
  intros t W. unfold create_org. destruct quotas as [[[[e tr] m] p] l]. destruct (existsb _ _); [done|]. cbn [snd].
  assert (forall v, org_members t !! (next_org t, v) = None) as Hnew.
  { intros v. destruct (org_members t !! (next_org t, v)) as [r|] eqn:Hv; [|done].
    pose proof (ow_orgs t W (next_org t) (ow_member t W _ _ _ Hv)). lia. }
  assert (forall k v, org_members t !! k = Some v -> <[(next_org t, u) := RoleOwner]> (org_members t) !! k = Some v) as Hk.
  { intros k v Hk. rewrite lookup_insert_ne; [done|]. intros <-. by rewrite Hnew in Hk. }
  destruct W. split; constructor; org_cbn; try done.
  - intros k x Hl. destruct (ow_locked0 k x Hl) as [v Hv]. exists v. by apply Hk.
  - intros o' [v Hv]. apply lookup_insert_Some in Hv as [[<- _]|[_ Hv]]; [lia|].
    assert (o' < next_org t) by (apply ow_orgs0; by eexists). lia.
  - intros o' [v Hv] Hu. apply lookup_insert_Some in Hv as [[<- _]|[_ Hv]].
    + exists u. org_cbn. by rewrite lookup_insert_eq.
    + destruct (ow_owner0 o') as [w Hw]; [by eexists|done|]. exists w. org_cbn. by apply Hk.
  - intros o' v r' [[[= <- <-] _]|[_ Hv]]%lookup_insert_Some; [by rewrite lookup_insert_eq|].
    destruct (ow_member0 o' v r' Hv) as [org Horg]. rewrite lookup_insert_ne; [by eexists|]. intros <-. by rewrite Hnew in Hv.
  - intros tm v o' Ht. destruct (ow_team0 tm v o' Ht) as [r' Hr]. exists r'. by apply Hk.
  - intros k x _ _ _ Hl. split; [done|]. destruct (ow_locked0 k x Hl) as [v Hv]. rewrite Hv. by apply Hk.
Qed.

Lemma cascade_blocked_false p t k x : cascade_blocked p t = false -> locks t !! k = Some x -> p k = false.
Proof.
  unfold cascade_blocked. intros Hb Hl. apply not_true_is_false. intros Hp. apply (not_true_iff_false _) in Hb. apply Hb.
  apply existsb_exists. exists (k, x). split; [by apply list_elem_of_In, elem_of_map_to_list|done].
Qed.

(** A cascade that meets no lock: rows of organisations that are gone too, or
    whose owner left unguarded. *)
Lemma delete_members_keeps p orgs ts ts_next us t :
  org_wf t -> cascade_blocked p t = false ->
  (forall o, is_Some (orgs !! o) -> is_Some (organizations t !! o)) ->
  (forall o, is_Some (orgs !! o) -> o ∉ us -> exists v, p (o, v) = false /\ org_members t !! (o, v) = Some RoleOwner) ->
  (forall o v, p (o, v) = false -> is_Some (organizations t !! o) -> is_Some (orgs !! o)) ->
  let t' := cascade_teams (set_ghosts us (changes t)
              (set_teams ts ts_next (set_members (delete_members p t) (set_organizations orgs (next_org t) t)))) in
  org_wf t' /\ org_moves t t'.
Proof.
  intros W Hb Horgs Howner Hkeep t'. pose proof (fun k x => cascade_blocked_false p t k x Hb) as Hfree. subst t'.
  assert (forall k v, p k = false -> org_members t !! k = Some v -> delete_members p t !! k = Some v) as Hk.
  { intros k v Hp Hv. unfold delete_members. by apply map_lookup_filter_Some. }
  destruct W. split; constructor; org_cbn; try done.
  - intros k x Hl. destruct (ow_locked0 k x Hl) as [v Hv]. exists v. apply Hk; [by eapply Hfree|done].
  - intros o Ho. by apply ow_orgs0, Horgs.
  - intros o Ho Hu. destruct (Howner o Ho Hu) as (v & Hp & Hv). exists v. org_cbn. by apply Hk.
  - unfold delete_members. intros o v r [Hv Hp]%map_lookup_filter_Some. eapply Hkeep; [exact Hp|by eapply ow_member0].
  - intros tm v o. by intros [_ ?]%map_lookup_filter_Some.
  - intros k x _ _ _ Hl. split; [done|]. destruct (ow_locked0 k x Hl) as [v Hv]. rewrite Hv. apply Hk; [by eapply Hfree|done].
Qed.

Lemma delete_org_keeps o : org_keeps (delete_org o).
Proof.
  intros t W. unfold delete_org. destruct (cascade_blocked _ t) eqn:Hb; [done|]. destruct (organizations t !! o) as [org|] eqn:Ho; [|done].
  apply (delete_members_keeps (fun k => k.1 =? o) (delete o (organizations t)) (filter (fun '(_, tm) => tm_OrgID tm <> o) (teams t)) (next_team t) (unguarded t)); [done|done| | |].
  - intros o' [v [_ Hv]%lookup_delete_Some]. by eexists.
  - intros o' [v [Hne Hv]%lookup_delete_Some] Hu. destruct (ow_owner t W o') as [w Hw]; [by eexists|done|].
    exists w. split; [|done]. cbn. by apply Z.eqb_neq.
  - intros o' v Hp%Z.eqb_neq [w Hw]. exists w. cbn in Hp. by rewrite lookup_delete_ne.
Qed.

Lemma forget_user_keeps u t t' : org_wf t -> forget_user u t = Some t' -> org_wf t' /\ org_moves t t'.
Proof.
  intros W. unfold forget_user. destruct (cascade_blocked _ t) eqn:Hb; [done|]. intros [= <-].
  apply (delete_members_keeps (fun k => k.2 =? u) (organizations t) (teams t) (next_team t)); [done|done|done| |done].
  intros o Ho Hu. apply not_elem_of_union in Hu as [Hu Hu']. destruct (ow_owner t W o Ho Hu') as [v Hv]. exists v. split; [|done].
  cbn. apply Z.eqb_neq. intros ->. apply Hu, elem_of_list_to_set, list_elem_of_omap.
  exists ((o, u), RoleOwner). split; [by apply elem_of_map_to_list|]. by rewrite Z.eqb_refl, String.eqb_refl.
Qed.

Lemma teams_keep ts n t : org_wf t -> org_wf (set_teams ts n t) /\ org_moves t (set_teams ts n t).
Proof. intros []. by split; constructor. Qed.

Lemma team_members_keep ms t :
  org_wf t -> (forall tm u o, ms !! (tm, u) = Some o -> is_Some (org_members t !! (o, u))) ->
  org_wf (set_team_members ms t) /\ org_moves t (set_team_members ms t).
Proof. intros [] Hms. by split; constructor. Qed.

(** ** Every operation *)

Inductive org_op :=
| OpCreateOrg (slug name : string) (quotas : Z * Z * Z * Z * Z) (ownerID : Z)
| OpDeleteOrg (orgID : Z)
| OpAddMember (orgID userID : Z) (role : Role)
| OpEnsureMember (orgID userID : Z) (role : Role)
| OpSetRole (orgID userID : Z) (role : Role)
| OpRemoveMember (orgID userID : Z)
| OpSetRoleAs (orgID actorID targetID : Z) (role : Role)
| OpRemoveMemberAs (orgID actorID targetID : Z)
| OpCreateTeam (orgID : Z) (slug name : string)
| OpRenameTeam (orgID teamID : Z) (name : string)
| OpDeleteTeam (orgID teamID : Z)
| OpAddTeamMember (teamID userID : Z)
| OpRemoveTeamMember (teamID userID : Z).

Definition ignore {D A} (p : prog D A) : prog D () := mbind (fun _ => mret tt) p.

Lemma rg_ignore {D A} (P : D -> Prop) (R : D -> D -> Prop) (p : prog D A) :
  rg P R (fun _ => True) p (fun _ _ => True) -> rg P R (fun _ => True) (ignore p) (fun _ _ => True).
Proof. intros Hp. by eapply rg_bind. Qed.

Definition org_prog {D} `{Has Orgs D} (wait : nat) (scan : list (Z * Z) -> list (Z * Z)) (op : org_op) : prog D () :=
  match op with
  | OpCreateOrg slug name quotas u => ignore (CreateOrg slug name quotas u)
  | OpDeleteOrg o => ignore (DeleteOrg wait o)
  | OpAddMember o u r => ignore (AddMember o u r)
  | OpEnsureMember o u r => ignore (EnsureMember o u r)
  | OpSetRole o u r => ignore (SetRole wait scan o u r)
  | OpRemoveMember o u => ignore (RemoveMember wait scan o u)
  | OpSetRoleAs o a u r => ignore (SetRoleAs wait scan o a u r)
  | OpRemoveMemberAs o a u => ignore (RemoveMemberAs wait scan o a u)
  | OpCreateTeam o slug name => ignore (CreateTeam o slug name)
  | OpRenameTeam o tm name => ignore (RenameTeam o tm name)
  | OpDeleteTeam o tm => ignore (DeleteTeam o tm)
  | OpAddTeamMember tm u => ignore (AddTeamMember tm u)
  | OpRemoveTeamMember tm u => ignore (RemoveTeamMember tm u)
  end.

Section operations.
Context {D : Type} `{Has Orgs D}.
Variable wait : nat.
Variable scan : list (Z * Z) -> list (Z * Z).
Hypothesis scan_perm : forall l, scan l ≡ₚ l.

Abbreviation P := (fun d : D => org_wf (get d)).
Abbreviation R := (fun d d' : D => org_moves (get d) (get d')).
Abbreviation org_safe p := (rg P R (fun _ : D => True) p (fun _ _ => True)).
#[local] Existing Instance R_preorder.

Lemma safe_keeps {A} (q : Orgs -> result org_error A * Orgs) : org_keeps q -> org_safe (callE ErrOrgSQL (on q)).
Proof. intros Hq. apply safe_on. intros d HP _. by apply Hq. Qed.

Lemma safe_waiting {A} (q : Orgs -> result org_error (option A) * Orgs) n : org_keeps q -> org_safe (waiting n q).
Proof.
  intros Hq. induction n as [|n IH]; [by intros d|]. cbn [waiting]. eapply rg_bind; [by apply safe_keeps|]. by intros [[a|]|e].
Qed.

Lemma org_prog_safe op : org_safe (org_prog wait scan op).
Proof.
  destruct op; apply rg_ignore; unfold CreateOrg, DeleteOrg, AddMember, EnsureMember, SetRole, RemoveMember, SetRoleAs, RemoveMemberAs,
    CreateTeam, RenameTeam, DeleteTeam, AddTeamMember, RemoveTeamMember; try (case_match; [done|]).
  - apply safe_keeps, create_org_keeps.
  - eapply rg_bind; [apply safe_waiting, delete_org_keeps|]. by intros [[]|].
  - apply safe_keeps, insert_member_keeps.
  - apply safe_keeps, ensure_member_keeps.
  - apply (safe_in_tx scan scan_perm). intros x. apply (rg_update_role wait scan); [done|apply locked_pure|done].
  - apply (safe_in_tx scan scan_perm). intros x. apply (rg_delete_row wait scan); [done|apply locked_pure|done].
  - apply (safe_in_tx scan scan_perm). intros x. eapply rg_bind; [apply rg_checkOwnerLevelGuard|]. intros [[]|e]; [|done].
    apply (rg_update_role wait scan); [done|apply permitted_locked|]. by intros t a Ht [= <-].
  - apply (safe_in_tx scan scan_perm). intros x. eapply rg_bind; [apply rg_checkOwnerLevelGuard|]. intros [[]|e]; [|done].
    apply (rg_delete_row wait scan); [done|apply permitted_locked|]. by intros t a Ht [= <-].
  - apply safe_keeps. intros t W. unfold create_team. destruct (existsb _ _); [done|]. case_match; [by apply teams_keep|done].
  - apply safe_keeps. intros t W. case_match; [|done]. case_match; [by apply teams_keep|done].
  - apply safe_keeps. intros t W. case_match; [|done]. case_match; [|done].
    destruct (teams_keep (delete teamID (teams t)) (next_team t) t W) as [W1 M1].
    destruct (team_members_keep (filter (fun '((tm, _), _) => tm <> teamID) (team_members t)) _ W1) as [W2 M2].
    { intros tm' u' o' [Hm _]%map_lookup_filter_Some. by eapply (ow_team t W). }
    split; [exact W2|]. etrans; [exact M1|exact M2].
  - apply safe_keeps. intros t W. case_match; [|done]. case_match eqn:Hm; [|done]. case_match; [done|].
    apply team_members_keep; [done|]. intros tm' u' o' [[[= <- <-] <-]|[_ Ht]]%lookup_insert_Some; [by rewrite Hm|by eapply ow_team].
  - apply safe_keeps. intros t W. case_match; [|done]. apply team_members_keep; [done|]. intros tm' u' o' [_ Hm]%lookup_delete_Some. by eapply ow_team.
Qed.
End operations.

(** a connection that dies, or statements on other tables *)
Definition org_env {D} `{Has Orgs D} (d d' : D) : Prop :=
  get d' = get d \/ (exists x, get d' = end_tx x (get d)) \/ (exists u t, forget_user u (get d) = Some t /\ get d' = t).

(** C5: nobody can take an organisation from its owners. However the operations
    of any number of replicas interleave statement by statement, with row
    locks that are waited for, crashes, lost connections and accounts that are
    deleted: an organisation has an owner unless an owner deleted the account
    or left while the guard could see no owner at all; whatever was done to a
    member in somebody's name, who did it was at that moment an owner, or an
    admin and neither the old nor the new role was the owner's; and members of
    teams are members of their organisation. *)
Theorem owners_kept {D} `{Has Orgs D} (wait : nat) (scan : list (Z * Z) -> list (Z * Z)) (d0 : D) (s : pool D) :
  (forall l, scan l ≡ₚ l) -> org_wf (get d0) ->
  rtc (pool_step (fun p => exists op, p = org_prog wait scan op) org_env) (Pool d0 [] 0) s ->
  let t := get (shared s) in
  (forall o, is_Some (organizations t !! o) -> o ∉ unguarded t -> has_owner o t) /\
  Forall change_ok (changes t) /\
  (forall tm u o, team_members t !! (tm, u) = Some o -> is_Some (org_members t !! (o, u))).
Proof.
  intros Hscan H0 Hr t. assert (org_wf t) as []; [|by split_and!].
  eapply (rg_pool (fun d : D => org_wf (get d)) (fun d d' : D => org_moves (get d) (get d'))); [| |exact H0|exact Hr].
  - intros p [op ->]. by apply org_prog_safe.
  - intros d d' [->|[[x ->]|(u & t1 & Ht & ->)]] HP; [done|by apply end_wf|by eapply forget_user_keeps].
Qed.

(** Organisation 1 with the owner 10 and the member 11. *)
Definition ex_orgs : Orgs :=
  mkOrgs {[1 := mkOrg 1 "acme" "Acme" 0 0 0 0 0]} 2 {[(1, 10) := RoleOwner; (1, 11) := RoleMember]} ∅ 1 ∅ ∅ ∅ 0 ∅ [].

Lemma ex_orgs_wf : org_wf ex_orgs.
Proof.
  constructor; cbn; try done.
  - intros o [v [<- _]%lookup_singleton_Some]. done.
  - intros o [v [<- _]%lookup_singleton_Some] _. by exists 10.
  - intros o u r [[[= <- <-] _]|[_ [[= <- <-] _]%lookup_singleton_Some]]%lookup_insert_Some; by eexists.
Qed.

Definition ex_op (op : org_op) : prog Orgs () := org_prog 2 (fun l => l) op.
Definition steps (n : nat) : list (pool_move (D := Orgs)) := replicate n (MStep 0 FNone).

(** The owner makes 11 an owner too and leaves. *)
Definition ex_handover : list (pool_move (D := Orgs)) :=
  MStart (ex_op (OpSetRoleAs 1 10 11 RoleOwner)) :: steps 6 ++ [MDie 0] ++
  MStart (ex_op (OpRemoveMember 1 10)) :: steps 6 ++ [MDie 0].

Lemma ex_starts (ms : list (pool_move (D := Orgs))) :
  Forall (fun m => match m with MStart p => exists op, p = ex_op op | _ => True end) ms ->
  Forall (starts (fun p => exists op, p = org_prog 2 (fun l => l) op)) ms.
Proof. intros Hms. eapply Forall_impl; [exact Hms|]. by intros []. Qed.

Lemma owners_kept_witness :
  exists s : pool Orgs, org_members (shared s) = {[(1, 11) := RoleOwner]} /\
    (forall o, is_Some (organizations (get (shared s)) !! o) -> o ∉ unguarded (get (shared s)) -> has_owner o (get (shared s))) /\
    Forall change_ok (changes (get (shared s))) /\
    (forall tm u o, team_members (get (shared s)) !! (tm, u) = Some o -> is_Some (org_members (get (shared s)) !! (o, u))).
Proof.
  destruct (play ex_handover (Pool ex_orgs [] 0)) as [s|] eqn:Hs; [|vm_compute in Hs; discriminate Hs].
  exists s. split; [by vm_compute in Hs; injection Hs as <-|].
  apply (owners_kept 2 (fun l => l) ex_orgs s); [done|exact ex_orgs_wf|].
  refine (play_reach _ _ ex_handover _ _ _ Hs). apply ex_starts. repeat constructor; by eexists.
Defined.

(** The guard takes an empty list of owners for a harmless one. 11 leaves:
    the statement has found one owner, 10, and is about to lock that row.
    Meanwhile 10 hands the organisation over to 11 and leaves.  No row of the
    snapshot is an owner's any more, so the guard lets 11 go. *)
Definition ex_orphan : list (pool_move (D := Orgs)) :=
  MStart (ex_op (OpRemoveMember 1 11)) :: steps 2 ++ ex_handover ++ steps 3.

Lemma ensureNotLastOwner_blind :
  exists s : pool Orgs, rtc (pool_step (fun p => exists op, p = org_prog 2 (fun l => l) op) org_env) (Pool ex_orgs [] 0) s /\
    is_Some (organizations (shared s) !! 1) /\ org_members (shared s) = ∅.
Proof.
  destruct (play ex_orphan (Pool ex_orgs [] 0)) as [s|] eqn:Hs; [|vm_compute in Hs; discriminate Hs].
  exists s. split; [|by vm_compute in Hs; injection Hs as <-].
  refine (play_reach _ _ ex_orphan _ _ _ Hs). apply ex_starts. repeat constructor; by eexists.
Qed.
