(* ===== verification/Invite.v ===== *)
(** Invitations: [internal/org/invite.go].

    [org_invites] keeps the hash of a token only.  Accepting is one
    transaction whose first statement takes the row of the invitation, so two
    attempts on one invitation come one after the other; it is one step here,
    and an error leaves everything as it was.  [joined] records every
    acceptance. *)
From stdpp Require Import base tactics list gmap strings sorting relations.
From Stdlib Require Import ZArith Lia Ascii.
From S2P Require Import Prelude.
From S2P Require Import GoString.
From S2P Require Import Prog.
From S2P Require Import Rely.
From S2P Require Import Secretbox.
From S2P Require Import Org.

Open Scope Z_scope.
Open Scope go_scope.

(** ** Data *)

Definition InviteTTL : Z := 7 * 24 * hour.
Definition maxPendingInvitesPerOrg : Z := 200.

Inductive invite_error :=
| ErrInviteRole | ErrInviteInvalid | ErrInviteEmailMismatch | ErrTooManyPendingInvites | ErrInviteSQL.

Record InviteRow := mkInvite {
  i_id : Z; i_org : Z; i_email : string; i_role : Role; i_hash : bytes;
  i_expires : Z; i_accepted : option Z; i_created : Z }.

(** Who joined by which invitation, by its token or by the address alone, with
    which address, and when. *)
Record joining := mkJoining { j_invite : InviteRow; j_user : Z; j_token : option string; j_email : string; j_at : Z }.

Record Invites := mkInvites {
  org_invites : gmap Z InviteRow; next_invite : Z; inv_now : Z;
  joined : list joining }.

Definition set_invites (m : gmap Z InviteRow) (t : Invites) : Invites := mkInvites m (next_invite t) (inv_now t) (joined t).

(** [strings.EqualFold] compares runes by simple case folding; [rune_fold] is
    the least rune of a class.  [citext] compares what [lower] of the
    database makes of two values. *)
Class Folding := { rune_fold : Z -> Z; db_lower : string -> string }.

Section programs.
Context `{Folding}.

Definition EqualFold (a b : string) : bool :=
  bool_decide (map rune_fold (runes (chars_of a)) = map rune_fold (runes (chars_of b))).
Definition citext_eq (a b : string) : bool := String.eqb (db_lower a) (db_lower b).

Definition inviteTokenHash (token : string) : bytes := Sum256 (to_bytes token).

(** [accepted_at IS NULL AND expires_at > now()] *)
Definition pending (now : Z) (i : InviteRow) : bool := is_nil (i_accepted i) && (now <? i_expires i).

Definition invites_where (p : InviteRow -> bool) (t : Invites) : list InviteRow :=
  List.filter p (map snd (map_to_list (org_invites t))).

(** [ORDER BY created_at DESC] *)
Definition newer (a b : InviteRow) : Prop := i_created b <= i_created a.
#[local] Instance invite_newer_dec a b : Decision (newer a b).
Proof. unfold newer. apply _. Defined.

(** [token_hash] is unique. *)
Definition insert_invite (o : Z) (email : string) (role : Role) (hash : bytes) (expires : Z) (t : Invites) : result invite_error () * Invites :=
  match invites_where (fun i => bool_decide (i_hash i = hash)) t with
  | _ :: _ => (Err ErrInviteSQL, t)
  | [] =>
      let row := mkInvite (next_invite t) o email role hash expires None (inv_now t) in
      (Ok tt, mkInvites (<[next_invite t := row]> (org_invites t)) (next_invite t + 1) (inv_now t) (joined t))
  end.

Definition accept_row (i : InviteRow) (now : Z) : InviteRow :=
  mkInvite (i_id i) (i_org i) (i_email i) (i_role i) (i_hash i) (i_expires i) (Some now) (i_created i).

(** Marking an invitation and making the user a member, both or neither. *)
Definition accept (i : InviteRow) (userID : Z) (token : option string) (email : string) (ti : Invites) (o : Orgs) : result invite_error (Invites * Orgs) :=
  match ensure_member (i_org i) userID (i_role i) o with
  | (Ok _, o') =>
      Ok (mkInvites (<[i_id i := accept_row i (inv_now ti)]> (org_invites ti)) (next_invite ti) (inv_now ti)
            (joined ti ++ [mkJoining i userID token email (inv_now ti)]), o')
  | (Err _, _) => Err ErrInviteSQL
  end.

Context {D : Type} `{Has Invites D, Has Orgs D}.

(** [token] is what [rand.Read] and base64 produced. *)
Definition Invite (orgID : Z) (email : string) (role : Role) (token : string) : prog D (result invite_error string) :=
  if negb (String.eqb role RoleAdmin) && negb (String.eqb role RoleMember) then mret (Err ErrInviteRole) else
  tryE: n ← ask ErrInviteSQL (fun d : D => Z.of_nat (length (invites_where (fun i => (i_org i =? orgID) && pending (inv_now (get d)) i) (get d))))
    catch err => mret (Err err);
  if maxPendingInvitesPerOrg <=? n then mret (Err ErrTooManyPendingInvites) else
  now ← pgets (fun d : D => inv_now (get d));
  tryE: _u ← callE ErrInviteSQL (on (insert_invite orgID email role (inviteTokenHash token) (now + InviteTTL))) catch err => mret (Err err);
  mret (Ok token).

Definition PendingInvites (orgID : Z) : prog D (result invite_error (list InviteRow)) :=
  ask ErrInviteSQL (fun d : D =>
    merge_sort newer (invites_where (fun i => (i_org i =? orgID) && pending (inv_now (get d)) i) (get d))).

Definition RevokeInvite (orgID inviteID : Z) : prog D (result invite_error ()) :=
  callE ErrInviteSQL (on (fun t : Invites =>
    match org_invites t !! inviteID with
    | Some i => if (i_org i =? orgID) && is_nil (i_accepted i) then (Ok tt, set_invites (delete inviteID (org_invites t)) t)
                else (Err ErrInviteInvalid, t)
    | None => (Err ErrInviteInvalid, t)
    end)).

(** A transaction over both tables. *)
Definition both {A} (q : Invites -> Orgs -> result invite_error (A * (Invites * Orgs))) (d : D) : result invite_error A * D :=
  match q (get d) (get d) with
  | Ok (a, (ti, o)) => (Ok a, put ti (put o d))
  | Err e => (Err e, d)
  end.

Definition accept_by_token (token : string) (userID : Z) (acceptingEmail : string) (t : Invites) (o : Orgs) :
    result invite_error (Z * (Invites * Orgs)) :=
  match invites_where (fun i => bool_decide (i_hash i = inviteTokenHash token) && pending (inv_now t) i) t with
  | [] => Err ErrInviteInvalid
  | i :: _ =>
      if negb (EqualFold (i_email i) acceptingEmail) then Err ErrInviteEmailMismatch else
      match accept i userID (Some token) acceptingEmail t o with Ok s => Ok (i_org i, s) | Err e => Err e end
  end.

Definition AcceptInvite (token : string) (userID : Z) (acceptingEmail : string) : prog D (result invite_error Z) :=
  callE ErrInviteSQL (both (accept_by_token token userID acceptingEmail)).

(** [o.name] and what else the page of an invitation shows. *)
Definition InviteByToken (token : string) : prog D (result invite_error (Z * string * string * Role)) :=
  tryE: rows ← ask ErrInviteSQL (fun d : D =>
      omap (fun i => match organizations (get d) !! i_org i with
                     | Some o => Some (i_org i, o_Name o, i_email i, i_role i)
                     | None => None
                     end)
        (invites_where (fun i => bool_decide (i_hash i = inviteTokenHash token) && pending (inv_now (get d)) i) (get d)))
    catch err => mret (Err err);
  match rows with [] => mret (Err ErrInviteInvalid) | r :: _ => mret (Ok r) end.

Definition HasPendingInvite (email : string) : prog D (result invite_error bool) :=
  ask ErrInviteSQL (fun d : D => existsb (fun i => citext_eq (i_email i) email && pending (inv_now (get d)) i)
    (map snd (map_to_list (org_invites (get d))))).

Definition accept_by_email (email : string) (userID : Z) (t : Invites) (o : Orgs) : result invite_error (option Z * (Invites * Orgs)) :=
  match merge_sort newer (invites_where (fun i => citext_eq (i_email i) email && pending (inv_now t) i) t) with
  | [] => Ok (None, (t, o))
  | i :: _ => match accept i userID None email t o with Ok s => Ok (Some (i_org i), s) | Err e => Err e end
  end.

Definition AcceptPendingInviteByEmail (email : string) (userID : Z) : prog D (result invite_error (option Z)) :=
  callE ErrInviteSQL (both (accept_by_email email userID)).

Definition PurgeExpiredInvites : prog D (result invite_error Z) :=
  call ErrInviteSQL (on (fun t : Invites =>
    let gone i := (i_expires i <? inv_now t) || negb (is_nil (i_accepted i)) in
    (Z.of_nat (length (invites_where gone t)), set_invites (filter (fun '(_, i) => gone i = false) (org_invites t)) t))).

Definition DeleteInvitesByEmail (email : string) : prog D (result invite_error Z) :=
  call ErrInviteSQL (on (fun t : Invites =>
    (Z.of_nat (length (invites_where (fun i => citext_eq (i_email i) email) t)),
     set_invites (filter (fun '(_, i) => citext_eq (i_email i) email = false) (org_invites t)) t))).
End programs.

(** ** Invariant *)

Section invariant.
Context `{Folding}.

Definition joining_ok (t : Invites) (j : joining) : Prop :=
  let i := j_invite j in
  i_id i < next_invite t /\ j_at j < i_expires i /\ i_expires i <= i_created i + InviteTTL /\
  (i_role i = RoleAdmin \/ i_role i = RoleMember) /\
  match j_token j with
  | Some token => i_hash i = inviteTokenHash token /\ EqualFold (i_email i) (j_email j) = true
  | None => citext_eq (i_email i) (j_email j) = true
  end.

Record row_ok (t : Invites) (k : Z) (i : InviteRow) : Prop := {
  ro_id : i_id i = k;
  ro_next : k < next_invite t;
  ro_role : i_role i = RoleAdmin \/ i_role i = RoleMember;
  ro_ttl : i_expires i <= i_created i + InviteTTL;
  ro_open : i_accepted i = None -> k ∉ map (fun j => i_id (j_invite j)) (joined t) }.

Record invites_wf (t : Invites) : Prop := {
  iv_rows : forall k i, org_invites t !! k = Some i -> row_ok t k i;
  iv_joined : Forall (joining_ok t) (joined t);
  iv_once : NoDup (map (fun j => i_id (j_invite j)) (joined t)) }.

Definition invites_move (t t' : Invites) : Prop := inv_now t <= inv_now t'.

#[export] Instance invites_move_preorder : PreOrder invites_move.
Proof. unfold invites_move. split; [intros t|intros t1 t2 t3]; lia. Qed.

Lemma elem_of_invites_where p t i :
  i ∈ invites_where p t <-> p i = true /\ exists k, org_invites t !! k = Some i.
Proof.
  unfold invites_where. rewrite list_elem_of_In, filter_In, <- list_elem_of_In, list_elem_of_fmap. split.
  - intros [([k i'] & -> & Hin) ?]. split; [done|]. exists k. by apply elem_of_map_to_list in Hin.
  - intros [? [k Hk]]. split; [|done]. exists (k, i). by rewrite elem_of_map_to_list.
Qed.

Lemma shrink_wf m t : invites_wf t -> m ⊆ org_invites t -> invites_wf (set_invites m t).
Proof.
  intros [Hrows Hj Hn] Hm. constructor; [|exact Hj|exact Hn]. intros k i Hk.
  destruct (Hrows k i) as []; [by eapply lookup_weaken|]. by constructor.
Qed.

Lemma insert_invite_wf o email role hash expires t :
  invites_wf t -> role = RoleAdmin \/ role = RoleMember -> expires <= inv_now t + InviteTTL ->
  invites_wf (insert_invite o email role hash expires t).2 /\ invites_move t (insert_invite o email role hash expires t).2.
Proof.
  intros W Hrole He. unfold insert_invite. destruct (invites_where _ t); [|by split]. destruct W as [Hrows Hj Hn]. cbn [snd].
  split; [|unfold invites_move; cbn; lia]. constructor; cbn [org_invites next_invite joined inv_now].
  - intros k i [[<- <-]|[_ Hk]]%lookup_insert_Some.
    + constructor; cbn; [done|lia|done|done|]. intros _ (j & Hid & Hin)%list_elem_of_fmap.
      rewrite Forall_forall in Hj. destruct (Hj j Hin) as [Hlt _]. lia.
    + destruct (Hrows k i Hk). constructor; cbn; [done|lia|done..].
  - eapply Forall_impl; [exact Hj|]. unfold joining_ok. cbn. intros j (? & ?). split; [lia|done].
  - done.
Qed.

Lemma accept_wf i u token email t o t' o' :
  invites_wf t -> (exists k, org_invites t !! k = Some i) -> pending (inv_now t) i = true ->
  match token with
  | Some token => i_hash i = inviteTokenHash token /\ EqualFold (i_email i) email = true
  | None => citext_eq (i_email i) email = true
  end ->
  accept i u token email t o = Ok (t', o') -> invites_wf t' /\ invites_move t t'.
Proof.
  intros W [k Hk] Hp Hmail. unfold accept. destruct (ensure_member _ _ _ o) as [[?|?] ?]; [|done]. intros [= <- _].
  destruct W as [Hrows Hj Hn], (Hrows k i Hk). unfold pending in Hp. apply andb_true_iff in Hp as [Hnone Hlt%Z.ltb_lt].
  assert (i_accepted i = None) as Hi by (unfold is_nil in Hnone; by destruct (i_accepted i)).
  split; [|unfold invites_move; cbn; lia]. rewrite ro_id0. constructor; cbn [org_invites next_invite joined inv_now].
  - intros k' i' [[<- <-]|[Hne Hk']]%lookup_insert_Some; [by constructor|]. destruct (Hrows k' i' Hk'). constructor; cbn; [done..|].
    intros Hopen. rewrite map_app, elem_of_app. cbn [map j_invite]. rewrite list_elem_of_singleton, ro_id0. intros [|]; [by apply ro_open1|done].
  - apply Forall_app; split; [done|]. apply Forall_singleton. unfold joining_ok. cbn. split_and!; [lia|done..].
  - rewrite map_app. cbn [map j_invite]. apply NoDup_app. split_and!; [done| |apply NoDup_singleton].
    intros id Hid ->%list_elem_of_singleton. cbn in Hid. rewrite ro_id0 in Hid. by apply ro_open0.
Qed.
End invariant.

(** ** The operations *)

Inductive invite_op :=
| OpInvite (orgID : Z) (email : string) (role : Role) (token : string)
| OpRevokeInvite (orgID inviteID : Z)
| OpAcceptInvite (token : string) (userID : Z) (acceptingEmail : string)
| OpAcceptByEmail (email : string) (userID : Z)
| OpPurgeInvites
| OpDeleteInvites (email : string).

Definition invite_prog `{Folding} {D} `{Has Invites D, Has Orgs D} (op : invite_op) : prog D () :=
  match op with
  | OpInvite o email role token => ignore (Invite o email role token)
  | OpRevokeInvite o id => ignore (RevokeInvite o id)
  | OpAcceptInvite token u email => ignore (AcceptInvite token u email)
  | OpAcceptByEmail email u => ignore (AcceptPendingInviteByEmail email u)
  | OpPurgeInvites => ignore PurgeExpiredInvites
  | OpDeleteInvites email => ignore (DeleteInvitesByEmail email)
  end.

Section operations.
Context `{Folding} {D : Type} `{HI : Has Invites D, HO : Has Orgs D, !Apart Orgs Invites D}.

Abbreviation P := (fun d : D => invites_wf (get d)).
Abbreviation R := (fun d d' : D => invites_move (get d) (get d')).
Abbreviation invite_safe p := (rg P R (fun _ : D => True) p (fun _ _ => True)).
#[local] Instance invite_R_preorder : PreOrder R.
Proof. split; [intros d; reflexivity|intros d1 d2 d3; apply invites_move_preorder]. Qed.

Lemma invite_safe_stmt {A} S (q : D -> result invite_error A * D) :
  (forall d, P d -> S d -> P (q d).2 /\ R d (q d).2) -> rg P R S (callE ErrInviteSQL q) (fun _ _ => True).
Proof.
  intros Hq f d HP HS. destruct (Hq d HP HS). split; [by destruct f|]. split; [destruct f; [done|reflexivity|done]|].
  by exists (fun _ => True).
Qed.

Lemma invite_safe_on {A} (q : Invites -> result invite_error A * Invites) :
  (forall t, invites_wf t -> invites_wf (q t).2 /\ invites_move t (q t).2) -> invite_safe (callE ErrInviteSQL (on q)).
Proof. intros Hq. apply invite_safe_stmt. intros d HP _. rewrite get_on. by apply Hq. Qed.

Lemma safe_both {A} (q : Invites -> Orgs -> result invite_error (A * (Invites * Orgs))) :
  (forall t o a t' o', invites_wf t -> q t o = Ok (a, (t', o')) -> invites_wf t' /\ invites_move t t') ->
  invite_safe (callE ErrInviteSQL (both q)).
Proof.
  intros Hq. apply invite_safe_stmt. intros d HP _. unfold both. destruct (q (get d) (get d)) as [[a [t' o']]|e] eqn:Hqd; [|done].
  cbn [snd]. rewrite get_put. by eapply Hq.
Qed.

Lemma shrink_safe (p : gmap Z InviteRow -> gmap Z InviteRow) t :
  invites_wf t -> p (org_invites t) ⊆ org_invites t -> invites_wf (set_invites (p (org_invites t)) t) /\ invites_move t (set_invites (p (org_invites t)) t).
Proof. intros W Hp. split; [by apply shrink_wf|]. unfold invites_move. cbn. lia. Qed.

Lemma invite_prog_safe op : invite_safe (invite_prog op).
Proof.
  destruct op; apply rg_ignore;
    unfold Invite, RevokeInvite, AcceptInvite, AcceptPendingInviteByEmail, PurgeExpiredInvites, DeleteInvitesByEmail.
  - destruct (negb (String.eqb role RoleAdmin) && negb (String.eqb role RoleMember)) eqn:Hrole; [done|].
    assert (role = RoleAdmin \/ role = RoleMember) as Hr.
    { destruct (String.eqb_spec role RoleAdmin) as [|]; [by left|]. destruct (String.eqb_spec role RoleMember); [by right|done]. }
    apply rg_seq; [done|apply _|]. intros [n|e]; [|done]. case_match; [done|].
    eapply rg_bind.
    + apply (rg_pgets P R (fun _ => True) _ (fun now d => now <= inv_now (get d))); [done| |done].
      intros now d d' _ _ Hm. unfold invites_move in Hm. lia.
    + intros now. eapply rg_bind; [|by intros []]. apply invite_safe_stmt. intros d HP [_ Hnow]. rewrite get_on.
      apply insert_invite_wf; [done|done|lia].
  - apply invite_safe_on. intros t W. case_match; [|done]. case_match; [|done]. apply (shrink_safe (delete inviteID)); [done|apply delete_subseteq].
  - apply safe_both. intros t o a t' o' W. unfold accept_by_token.
    destruct (invites_where _ t) as [|i l] eqn:Hw; [done|]. destruct (EqualFold (i_email i) acceptingEmail) eqn:He; [|done]. cbn [negb].
    assert (i ∈ i :: l) as Hin by left. rewrite <- Hw in Hin.
    apply elem_of_invites_where in Hin as [[Hh%bool_decide_eq_true Hp]%andb_true_iff Hk].
    destruct (accept i userID _ acceptingEmail t o) as [[t1 o1]|] eqn:Ha; [|done]. intros [= _ <- <-].
    by apply (accept_wf _ _ _ _ _ _ _ _ W Hk Hp) in Ha.
  - apply safe_both. intros t o a t' o' W. unfold accept_by_email.
    destruct (merge_sort newer _) as [|i l] eqn:Hw; [by intros [= _ <- <-]|].
    assert (i ∈ i :: l) as Hin by left. rewrite <- Hw, merge_sort_Permutation in Hin.
    apply elem_of_invites_where in Hin as [[He Hp]%andb_true_iff Hk].
    destruct (accept i userID _ email t o) as [[t1 o1]|] eqn:Ha; [|done]. intros [= _ <- <-].
    by apply (accept_wf _ _ _ _ _ _ _ _ W Hk Hp) in Ha.
  - apply invite_safe_stmt. intros d HP _. cbn [snd]. rewrite get_on. apply (shrink_safe (filter _)); [done|apply map_filter_subseteq].
  - apply invite_safe_stmt. intros d HP _. cbn [snd]. rewrite get_on. apply (shrink_safe (filter _)); [done|apply map_filter_subseteq].
Qed.
End operations.

(** C11: an invitation is worth one membership to whom it was sent. However the
    invitations are written, accepted, revoked and purged at the same time,
    with crashes and lost replies: each is accepted at most once, before it
    expires and so within a week of being written; it never makes an owner;
    accepting by the link takes the token and the address invited, joining
    without the link the address invited. *)
Theorem invites_honoured `{Folding} {D} `{HI : Has Invites D, HO : Has Orgs D, !Apart Orgs Invites D}
    (env : D -> D -> Prop) (d0 : D) (s : pool D) :
  (forall d d', env d d' -> let t := get (T := Invites) d in
     exists now, inv_now t <= now /\ get d' = mkInvites (org_invites t) (next_invite t) now (joined t)) ->
  invites_wf (get d0) ->
  rtc (pool_step (fun p => exists op, p = invite_prog op) env) (Pool d0 [] 0) s ->
  let t := get (T := Invites) (shared s) in
  NoDup (map (fun j => i_id (j_invite j)) (joined t)) /\ Forall (joining_ok t) (joined t).
Proof.
  intros Henv H0 Hr t. assert (invites_wf t) as []; [|by split].
  eapply (rg_pool (fun d : D => invites_wf (get d)) (fun d d' : D => invites_move (get d) (get d'))); [| |exact H0|exact Hr].
  - intros p [op ->]. apply invite_prog_safe.
  - intros d d' (now & Hnow & ->)%Henv [Hrows Hj Hn]. split; [|done]. constructor; [|done..].
    intros k i Hk. destruct (Hrows k i Hk). by constructor.
Qed.

(** Folding of ASCII letters. *)
#[local] Instance ex_folding : Folding :=
  {| rune_fold := fun r => if (65 <=? r) && (r <=? 90) then r + 32 else r;
     db_lower := fun s => text (map lower_char (chars_of s)) |}.
#[local] Instance ex_invite_apart : Apart Orgs Invites (Invites * Orgs).
Proof. done. Defined.

Definition ex_invite : InviteRow := mkInvite 1 1 "bob@x.io" RoleAdmin (inviteTokenHash "t0k") 700 None 100.
Definition ex_invites : Invites * Orgs := (mkInvites {[1 := ex_invite]} 2 200 [], ex_orgs).
Definition ex_accept (u : Z) : prog (Invites * Orgs) () := invite_prog (OpAcceptInvite "t0k" u "Bob@X.io").

(** Two users follow the same link at the same time: one joins. *)
Lemma invites_honoured_witness :
  exists s : pool (Invites * Orgs),
    org_members (shared s).2 !! (1, 20) = Some RoleAdmin /\ org_members (shared s).2 !! (1, 21) = None /\
    NoDup (map (fun j => i_id (j_invite j)) (joined (get (shared s)))) /\ Forall (joining_ok (get (shared s))) (joined (get (shared s))).
Proof.
  destruct (play [MStart (ex_accept 21); MStart (ex_accept 20); MStep 0 FLostReply; MStep 1 FNone] (Pool ex_invites [] 0)) as [s|] eqn:Hs;
    [|vm_compute in Hs; discriminate Hs].
  exists s. split; [by vm_compute in Hs; injection Hs as <-|]. split; [by vm_compute in Hs; injection Hs as <-|].
  apply (invites_honoured (fun d d' => d' = d) ex_invites s).
  - intros d d' ->. exists (inv_now (get d)). split; [lia|]. by destruct (get (T := Invites) d).
  - constructor; [|constructor|constructor]. intros k i Hk. change (({[1 := ex_invite]} : gmap Z InviteRow) !! k = Some i) in Hk.
    apply lookup_singleton_Some in Hk as [<- <-]. constructor; [done|done|by left|by vm_compute|by intros _ ?%not_elem_of_nil].
  - refine (play_reach _ _ _ _ _ _ Hs). repeat constructor; by eexists.
Defined.
