(* ===== verification/Password.v ===== *)
(** Passwords at rest: [internal/auth/password.go].

    The key derivation of golang.org/x/crypto/argon2 is the parameter
    [Argon2]; the text of a stored hash, its parser -- [fmt.Sscanf] and
    unpadded base64 -- and the bounds checked before the derivation is called
    are definitions. *)
From stdpp Require Import base tactics list sets strings pretty.
From Stdlib Require Import ZArith Lia Ascii.
From S2P Require Import Prelude.
From S2P Require Import GoString.
From S2P Require Import Secretbox.

Open Scope Z_scope.

(** ** base64, [base64.RawStdEncoding] *)

Definition is_pad (c : ascii) : bool := Ascii.eqb c "=".

Definition RawEncodeToString (l : bytes) : chars := List.filter (fun c => negb (is_pad c)) (b64_encode l).

(** The text with the padding it lacks. *)
Definition with_padding (l : chars) : chars := l ++ replicate ((4 - length l mod 4) mod 4)%nat "="%char.

Definition RawDecodeString (s : chars) : option bytes :=
  let l := List.filter (fun c => negb (newline c)) s in
  if existsb is_pad l then None else b64_decode (with_padding l).

(** ** [fmt.Sscanf] *)

(** White space before a verb; a line break is an error. *)
Fixpoint skip_space (skip : nat) (l : chars) : option chars :=
  match l with
  | [] => Some []
  | c :: r =>
      match skip with
      | S skip => skip_space skip r
      | O => if Ascii.eqb c "010" then None
             else match space_width l with Some n => skip_space (n - 1) r | None => Some l end
      end
  end.

Definition digit_value (c : ascii) : Z := byte_of c - 48.

(** The digits at the front, read onto [acc], and the rest. *)
Fixpoint digits (acc : Z) (l : chars) : Z * chars :=
  match l with
  | c :: r => if is_digit c then digits (10 * acc + digit_value c) r else (acc, l)
  | [] => (acc, [])
  end.

Definition scan_digits (l : chars) : option (Z * chars) :=
  match l with c :: _ => if is_digit c then Some (digits 0 l) else None | [] => None end.

(** [%d] into an unsigned integer of [w] bits. *)
Definition scan_uint (w : Z) (l : chars) : option (Z * chars) :=
  match skip_space 0 l with
  | Some l => match scan_digits l with
              | Some (n, r) => if n <? 2 ^ w then Some (n, r) else None
              | None => None
              end
  | None => None
  end.

(** [%d] into an [int]. *)
Definition scan_int (l : chars) : option (Z * chars) :=
  match skip_space 0 l with
  | Some (c :: r) =>
      let '(neg, l) := if Ascii.eqb c "-" then (true, r) else if Ascii.eqb c "+" then (false, r) else (false, c :: r) in
      match scan_digits l with
      | Some (n, r) => if neg then (if n <=? 2 ^ 63 then Some (- n, r) else None)
                       else if n <? 2 ^ 63 then Some (n, r) else None
      | None => None
      end
  | _ => None
  end.

Definition literal (p : string) (l : chars) : option chars := strip (chars_of p) l.

(** [Sscanf(s, "v=%d", &version)]: input behind the last verb is ignored. *)
Definition scan_version (l : chars) : option Z :=
  match literal "v=" l with
  | Some l => fst <$> scan_int l
  | None => None
  end.

(** [Sscanf(s, "m=%d,t=%d,p=%d", &m, &t, &p)] *)
Definition scan_params (l : chars) : option (Z * Z * Z) :=
  match literal "m=" l with
  | Some l =>
      match scan_uint 32 l with
      | Some (m, l) =>
          match literal ",t=" l with
          | Some l =>
              match scan_uint 32 l with
              | Some (t, l) =>
                  match literal ",p=" l with
                  | Some l => match scan_uint 8 l with Some (p, _) => Some (m, t, p) | None => None end
                  | None => None
                  end
              | None => None
              end
          | None => None
          end
      | None => None
      end
  | None => None
  end.

(** ** The derivation *)

(** [IDKey(password, salt, time, memory, threads, keyLen)]; [None] is a panic,
    documented for a time or parallelism below one. *)
Class Argon2 := {
  argon2_Version : Z;
  argon2_Version_int : 0 <= argon2_Version < 2 ^ 63;
  IDKey : bytes -> bytes -> Z -> Z -> Z -> Z -> option bytes;
  IDKey_defined pw salt t m p n : 1 <= t -> 1 <= p -> 4 <= n < 2 ^ 32 ->
    exists k, IDKey pw salt t m p n = Some k /\ Forall is_byte k /\ Z.of_nat (length k) = n }.

Inductive password_error := ErrMalformedHash.

Section passwords.
Context `{Argon2}.

Definition argonTime : Z := 1.
Definition argonMemory : Z := 64 * 1024.
Definition argonThreads : Z := 4.
Definition argonKeyLen : Z := 32.
Definition argonSaltLen : Z := 16.

(** The format of [Sprintf]. *)
Definition encode_hash (salt key : bytes) : string :=
  text (chars_of "$argon2id$v=" ++ chars_of (pretty argon2_Version) ++ chars_of "$m=" ++ chars_of (pretty argonMemory) ++
    chars_of ",t=" ++ chars_of (pretty argonTime) ++ chars_of ",p=" ++ chars_of (pretty argonThreads) ++
    "$"%char :: RawEncodeToString salt ++ "$"%char :: RawEncodeToString key).

(** [salt] is what [rand.Read] gave. *)
Definition HashPassword (password : string) (salt : bytes) : option string :=
  encode_hash salt <$> IDKey (to_bytes password) salt argonTime argonMemory argonThreads argonKeyLen.

(** What a stored hash says: memory, time, parallelism, salt and key; [None]
    is [ErrMalformedHash]. *)
Definition parse_hash (encoded : string) : option (Z * Z * Z * bytes * bytes) :=
  match split_on "$" (chars_of encoded) with
  | [_; p1; p2; p3; p4; p5] =>
      if negb (bool_decide (p1 = chars_of "argon2id")) then None else
      match scan_version p2 with
      | None => None
      | Some version =>
          match scan_params p3 with
          | None => None
          | Some (m, t, p) =>
              if negb (version =? argon2_Version) then None else
              if (t <? 1) || (16 <? t) || (p <? 1) || (m <? 8 * p) || (2 ^ 21 <? m) then None else
              match RawDecodeString p4 with
              | None => None
              | Some salt =>
                  match RawDecodeString p5 with
                  | None => None
                  | Some want =>
                      if (Z.of_nat (length salt) =? 0) || (Z.of_nat (length want) <? 16) then None
                      else Some (m, t, p, salt, want)
                  end
              end
          end
      end
  | _ => None
  end.

(** [ConstantTimeCompare] answers whether its arguments are equal; [None] is a
    panic. *)
Definition VerifyPassword (password encoded : string) : option (result password_error bool) :=
  match parse_hash encoded with
  | None => Some (Err ErrMalformedHash)
  | Some (m, t, p, salt, want) =>
      match IDKey (to_bytes password) salt t m p (Z.of_nat (length want) mod 2 ^ 32) with
      | Some got => Some (Ok (bool_decide (got = want)))
      | None => None
      end
  end.
End passwords.

(** ** base64 without padding reads what it wrote *)

Lemma b64_char_no_pad v : 0 <= v < 64 -> is_pad (b64_char v) = false.
Proof.
  intros Hv. unfold is_pad. destruct (Ascii.eqb_spec (b64_char v) "=") as [Heq|]; [|done].
  pose proof (b64_value_char v Hv) as Hc. by rewrite Heq in Hc.
Qed.

Lemma sextet_no_pad v s : is_pad (b64_char (sextet v s)) = false.
Proof. apply b64_char_no_pad. rewrite land_63. by apply Z.mod_pos_bound. Qed.

Lemma padding_back l : with_padding (RawEncodeToString l) = b64_encode l.
Proof.
  unfold RawEncodeToString. revert l. fix IH 1. intros [|a [|b [|c l]]]; [done|..]; cbn [b64_encode quantum map take app List.filter];
    rewrite ?sextet_no_pad; cbn [negb].
  - done.
  - done.
  - rewrite <- (IH l) at 2. unfold with_padding. cbn [app length]. set (n := length _).
    replace (S (S (S (S n))) mod 4)%nat with (n mod 4)%nat; [done|].
    replace (S (S (S (S n)))) with (n + 1 * 4)%nat by lia. by rewrite Nat.Div0.mod_add.
Qed.

Lemma RawDecode_RawEncode l : Forall is_byte l -> RawDecodeString (RawEncodeToString l) = Some l.
Proof.
  intros Hl. unfold RawDecodeString. assert (List.filter (fun c => negb (newline c)) (RawEncodeToString l) = RawEncodeToString l) as ->.
  { apply List.forallb_filter_id, List.forallb_forall. intros c [Hin _]%filter_In. rewrite <- encode_plain in Hin.
    by apply filter_In in Hin as [_ ?]. }
  destruct (existsb is_pad _) eqn:Hp; [|by rewrite padding_back, decode_encode].
  apply existsb_exists in Hp as (c & [_ Hc]%filter_In & Hpc). by rewrite Hpc in Hc.
Qed.

(** Neither padding nor the separator is a character of the alphabet. *)
Lemma raw_no_dollar l : "$"%char ∉ RawEncodeToString l.
Proof.
  intros [Hin _]%list_elem_of_In%filter_In. apply list_elem_of_In in Hin. revert Hin.
  assert (forall v s, "$"%char <> b64_char (sextet v s)) as Hne.
  { intros v s Heq. pose proof (sextet_value v s) as Hv. rewrite <- Heq in Hv. done. }
  revert l. fix IH 1. intros [|a [|b [|c l]]]; cbn [b64_encode quantum map take app]; [by intros ?%not_elem_of_nil|..].
  - intros Hin. repeat (apply elem_of_cons in Hin as [Heq|Hin]; [by apply Hne in Heq || discriminate Heq|]). by apply not_elem_of_nil in Hin.
  - intros Hin. repeat (apply elem_of_cons in Hin as [Heq|Hin]; [by apply Hne in Heq || discriminate Heq|]). by apply not_elem_of_nil in Hin.
  - intros Hin. do 4 (apply elem_of_cons in Hin as [Heq|Hin]; [by apply Hne in Heq|]). by apply (IH l).
Qed.

(** ** Numbers as [%d] writes them *)

Definition no_digit (l : chars) : Prop := match l with c :: _ => is_digit c = false | [] => True end.

Lemma digits_stop n l : no_digit l -> digits n l = (n, l).
Proof. destruct l as [|c l]; [done|]. cbn. by intros ->. Qed.

Lemma digit_char n : (n < 10)%N -> is_digit (pretty_N_char n) = true /\ digit_value (pretty_N_char n) = Z.of_N n.
Proof.
  intros Hn. assert (n ∈ map N.of_nat (seq 0 10)) as Hc.
  { apply list_elem_of_fmap. exists (N.to_nat n). rewrite N2Nat.id, elem_of_seq. split; [done|lia]. }
  cbn in Hc. by repeat (apply elem_of_cons in Hc as [->|Hc]; [done|]); apply not_elem_of_nil in Hc.
Qed.

Lemma digits_go n s r : digits 0 (chars_of (pretty_N_go n s) ++ r) = digits (Z.of_N n) (chars_of s ++ r).
Proof.
  revert s. induction (N.lt_wf_0 n) as [n _ IH]. intros s. destruct (decide (0 < n)%N) as [Hpos|].
  - rewrite pretty_N_go_step by done. rewrite IH by (apply N.div_lt; lia).
    assert (n `mod` 10 < 10)%N as Hmod by (apply N.mod_lt; lia). destruct (digit_char _ Hmod) as [Hd Hv].
    unfold chars_of. cbn [String.list_ascii_of_string app digits]. rewrite Hd, Hv. f_equal. rewrite N2Z.inj_div, N2Z.inj_mod.
    pose proof (Z.div_mod (Z.of_N n) 10). lia.
  - assert (n = 0%N) as -> by lia. done.
Qed.

Lemma pretty_chars n : 0 <= n -> exists c l, chars_of (pretty n) = c :: l /\ is_digit c = true /\ forallb is_digit l = true.
Proof.
  intros Hn. assert (forall m s, (0 < m)%N -> forallb is_digit (chars_of s) = true ->
    exists c l, chars_of (pretty_N_go m s) = c :: l /\ is_digit c = true /\ forallb is_digit l = true) as Hgo.
  { intros m. induction (N.lt_wf_0 m) as [m _ IH]. intros s Hm Hs. rewrite pretty_N_go_step by done.
    destruct (digit_char (m `mod` 10)%N) as [Hd _]; [apply N.mod_lt; lia|].
    destruct (decide (0 < m `div` 10)%N) as [Hpos|Hz].
    - apply IH; [apply N.div_lt; lia|done|]. unfold chars_of in *. cbn. by rewrite Hd, Hs.
    - assert ((m `div` 10)%N = 0%N) as -> by (by apply N.le_0_r, N.nlt_ge). exists (pretty_N_char (m `mod` 10)), (chars_of s). done. }
  destruct n as [|p|p]; [by exists "0"%char, []| |lia]. by apply (Hgo (Npos p) "").
Qed.

Lemma digits_pretty n r : 0 <= n -> no_digit r -> digits 0 (chars_of (pretty n) ++ r) = (n, r).
Proof.
  intros Hn Hr. destruct n as [|p|p]; [|change (pretty (Z.pos p)) with (pretty_N_go (Npos p) ""); rewrite digits_go; by apply digits_stop|lia].
  cbn. by apply digits_stop.
Qed.

Lemma space_width_digit c l : is_digit c = true -> space_width (c :: l) = None.
Proof. intros Hc. destruct c as [[] [] [] [] [] [] [] []]; vm_compute in Hc; try discriminate Hc; reflexivity. Qed.

Lemma scan_pretty n r : 0 <= n -> no_digit r ->
  skip_space 0 (chars_of (pretty n) ++ r) = Some (chars_of (pretty n) ++ r) /\ scan_digits (chars_of (pretty n) ++ r) = Some (n, r).
Proof.
  intros Hn Hr. pose proof (digits_pretty n r Hn Hr) as Hd. destruct (pretty_chars n Hn) as (c & l & Heq & Hc & _). rewrite Heq in *.
  cbn [app skip_space scan_digits]. rewrite space_width_digit, Hc by done. split; [|by f_equal].
  destruct (Ascii.eqb_spec c "010") as [->|]; [discriminate Hc|done].
Qed.

Lemma scan_uint_pretty w n r : 0 <= n < 2 ^ w -> no_digit r -> scan_uint w (chars_of (pretty n) ++ r) = Some (n, r).
Proof.
  intros Hn Hr. destruct (scan_pretty n r) as [Hs Hd]; [lia|done|]. unfold scan_uint. rewrite Hs, Hd.
  destruct (Z.ltb_spec n (2 ^ w)); [done|lia].
Qed.

Lemma scan_int_pretty n : 0 <= n < 2 ^ 63 -> scan_int (chars_of (pretty n)) = Some (n, []).
Proof.
  intros Hn. destruct (scan_pretty n []) as [Hs Hd]; [lia|done|]. rewrite app_nil_r in Hs, Hd. unfold scan_int. rewrite Hs.
  destruct (pretty_chars n) as (c & l & Heq & Hc & _); [lia|]. rewrite Heq in *.
  destruct (Ascii.eqb_spec c "-") as [->|]; [discriminate Hc|]. destruct (Ascii.eqb_spec c "+") as [->|]; [discriminate Hc|].
  rewrite Hd. destruct (Z.ltb_spec n (2 ^ 63)); [done|lia].
Qed.

Lemma pretty_no_dollar n : 0 <= n -> "$"%char ∉ chars_of (pretty n).
Proof.
  intros Hn. destruct (pretty_chars n Hn) as (c & l & -> & Hc & Hl). intros [<-|Hin]%elem_of_cons; [done|].
  rewrite List.forallb_forall in Hl. apply list_elem_of_In, Hl in Hin. done.
Qed.

(** ** The stored hash *)

Lemma Hash_pieces `{Argon2} salt key :
  split_on "$" (chars_of (encode_hash salt key)) =
    [[]; chars_of "argon2id"; chars_of "v=" ++ chars_of (pretty argon2_Version);
     chars_of "m=" ++ chars_of (pretty argonMemory) ++ chars_of ",t=" ++ chars_of (pretty argonTime) ++ chars_of ",p=" ++ chars_of (pretty argonThreads);
     RawEncodeToString salt; RawEncodeToString key].
Proof.
  pose proof argon2_Version_int. unfold encode_hash. rewrite chars_text. rewrite <- (split_join "$" [[]; _; _; _; _; _]); [f_equal; cbn; by rewrite <- ?app_assoc|done|].
  repeat constructor; try apply raw_no_dollar.
  - by apply not_elem_of_nil.
  - by vm_compute; set_solver.
  - rewrite elem_of_app. intros [Hin|Hin]; [by vm_compute in Hin; set_solver|]. revert Hin. apply pretty_no_dollar. lia.
  - by vm_compute; set_solver.
Qed.

Lemma parse_Hash `{Argon2} salt key :
  Forall is_byte salt -> length salt = Z.to_nat argonSaltLen -> Forall is_byte key -> length key = 32%nat ->
  parse_hash (encode_hash salt key) = Some (argonMemory, argonTime, argonThreads, salt, key).
Proof.
  intros Hsalt Hlen Hkey Hklen. unfold parse_hash. rewrite Hash_pieces, bool_decide_eq_true_2 by done.
  cbn [negb]. pose proof argon2_Version_int. unfold scan_version, literal.
  assert (forall l, strip (chars_of "v=") (chars_of "v=" ++ l) = Some l) as -> by done.
  rewrite scan_int_pretty by lia. change (fst <$> Some (argon2_Version, [])) with (Some argon2_Version). cbv beta iota.
  match goal with |- context [scan_params ?l] => assert (scan_params l = Some (argonMemory, argonTime, argonThreads)) as -> by (vm_compute; reflexivity) end.
  rewrite Z.eqb_refl. cbn [negb]. change ((argonTime <? 1) || _ || _ || _ || _) with false. cbv beta iota.
  rewrite !RawDecode_RawEncode by done. by rewrite Hlen, Hklen.
Qed.

Lemma decode_length l r : b64_decode l = Some r -> (4 * length r <= 3 * length l)%nat.
Proof.
  revert l r. fix IH 1. intros [|c1 [|c2 [|c3 [|c4 l]]]] r; cbn [b64_decode]; try done; [by intros [= <-]|].
  destruct (b64_value c1) as [v1|], (b64_value c2) as [v2|]; try done. destruct (b64_value c3) as [v3|].
  - destruct (b64_value c4) as [v4|].
    + destruct (b64_decode l) as [r'|] eqn:Hr; [|done]. intros [= <-]. apply IH in Hr. cbn [length]. lia.
    + destruct (_ && _); [|done]. intros [= <-]. cbn. lia.
  - destruct (_ && _); [|done]. intros [= <-]. cbn. lia.
Qed.

Lemma RawDecode_length l r : RawDecodeString l = Some r -> (4 * length r <= 3 * (length l + 3))%nat.
Proof.
  unfold RawDecodeString. pose proof (length_filter_le (fun c => negb (newline c)) l) as Hf.
  set (f := List.filter _ l) in *. destruct (existsb _ _); [done|]. intros Hr%decode_length. unfold with_padding in Hr.
  rewrite length_app, length_replicate in Hr. pose proof (Nat.mod_upper_bound (4 - length f mod 4) 4 ltac:(done)). lia.
Qed.

Lemma chars_length s : length (chars_of s) = String.length s.
Proof. unfold chars_of. induction s as [|c s IH]; [done|]. cbn. by rewrite IH. Qed.

Lemma split_on_length c l p : p ∈ split_on c l -> (length p <= length l)%nat.
Proof.
  revert p. induction l as [|x l IH]; intros p; simpl; [by intros ->%list_elem_of_singleton|].
  destruct (Ascii.eqb x c).
  - intros [->|Hp]%elem_of_cons; [simpl; lia|]. apply IH in Hp. lia.
  - destruct (split_on c l) as [|f fs]; [intros ->%list_elem_of_singleton; simpl; lia|].
    intros [->|Hp]%elem_of_cons; [simpl; specialize (IH f ltac:(by left)); lia|]. specialize (IH p ltac:(by right)). lia.
Qed.

(** What a stored text may ask the derivation for. *)
Lemma parse_hash_bounds `{Argon2} encoded m t p salt want :
  parse_hash encoded = Some (m, t, p, salt, want) ->
  1 <= t <= 16 /\ 1 <= p /\ 8 * p <= m <= 2 ^ 21 /\ 0 < Z.of_nat (length salt) /\
  16 <= Z.of_nat (length want) /\ 4 * Z.of_nat (length want) <= 3 * (Z.of_nat (String.length encoded) + 3).
Proof.
  unfold parse_hash. destruct (split_on _ _) as [|p0 [|p1 [|p2 [|p3 [|p4 [|p5 [|]]]]]]] eqn:Hs; try done.
  destruct (negb _); [done|]. destruct (scan_version p2); [|done]. destruct (scan_params p3) as [[[m' t'] p']|]; [|done].
  destruct (negb _); [done|]. destruct ((t' <? 1) || (16 <? t') || (p' <? 1) || (m' <? 8 * p') || (2 ^ 21 <? m')) eqn:Hb; [done|].
  destruct (RawDecodeString p4) as [salt'|]; [|done]. destruct (RawDecodeString p5) as [want'|] eqn:Hw; [|done].
  destruct ((Z.of_nat (length salt') =? 0) || (Z.of_nat (length want') <? 16)) eqn:Hl; [done|]. intros [= -> -> -> -> ->].
  repeat (apply orb_false_iff in Hb as [Hb ?]). apply orb_false_iff in Hl as [? ?]. apply RawDecode_length in Hw.
  assert (length p5 <= length (chars_of encoded))%nat as Hp5 by (apply (split_on_length "$"); rewrite Hs; set_solver).
  rewrite chars_length in Hp5. lia.
Qed.

(** C24: a password opens what it was stored under, and only what derives the same
    key does. The hash [HashPassword] writes reads back, through the parser
    of the stored text, to its own parameters, salt and key, so verifying a
    password against it compares the two derived keys; and whatever a stored
    text holds, broken or hostile, verifying against it ends in an answer or
    [ErrMalformedHash], never in a panic of the derivation. *)
Theorem VerifyPassword_HashPassword `{Argon2} (salt : bytes) (pw : string) :
  Forall is_byte salt -> length salt = Z.to_nat argonSaltLen ->
  (exists h key, HashPassword pw salt = Some h /\
     IDKey (to_bytes pw) salt argonTime argonMemory argonThreads argonKeyLen = Some key /\
     forall pw', exists key', IDKey (to_bytes pw') salt argonTime argonMemory argonThreads argonKeyLen = Some key' /\
       VerifyPassword pw' h = Some (Ok (bool_decide (key' = key)))) /\
  forall pw' encoded, Z.of_nat (String.length encoded) < 2 ^ 32 -> is_Some (VerifyPassword pw' encoded).
Proof.
  intros Hsalt Hlen. split.
  - destruct (IDKey_defined (to_bytes pw) salt argonTime argonMemory argonThreads argonKeyLen) as (key & Hk & Hb & Hn); [by vm_compute..|].
    exists (encode_hash salt key), key. unfold HashPassword. rewrite Hk. split_and!; [done..|]. intros pw'.
    destruct (IDKey_defined (to_bytes pw') salt argonTime argonMemory argonThreads argonKeyLen) as (key' & Hk' & _); [by vm_compute..|].
    exists key'. split; [done|]. assert (length key = 32%nat) as Hkl by (unfold argonKeyLen in Hn; lia).
    unfold VerifyPassword. rewrite parse_Hash by done. rewrite Hkl. change (Z.of_nat 32 mod 2 ^ 32) with argonKeyLen. by rewrite Hk'.
  - intros pw' encoded He. unfold VerifyPassword. destruct (parse_hash encoded) as [[[[[m t] p] salt'] want]|] eqn:Hp; [|done].
    apply parse_hash_bounds in Hp as (Ht & Hp & Hm & _ & Hw & Hlw).
    destruct (IDKey_defined (to_bytes pw') salt' t m p (Z.of_nat (length want) mod 2 ^ 32)) as (k & -> & _); [lia..| |done].
    rewrite Z.mod_small by lia. lia.
Qed.

(** A derivation that copies its input. *)
Definition ex_derive (pw salt : bytes) (t m p n : Z) : option bytes :=
  if (t <? 1) || (p <? 1) then None
  else Some (map (fun b => Z.land b 255) (take (Z.to_nat n) (pw ++ salt ++ replicate (Z.to_nat n) 0))).

Lemma ex_derive_defined pw salt t m p n : 1 <= t -> 1 <= p -> 4 <= n < 2 ^ 32 ->
  exists k, ex_derive pw salt t m p n = Some k /\ Forall is_byte k /\ Z.of_nat (length k) = n.
Proof.
  intros Ht Hp Hn. unfold ex_derive. rewrite (proj2 (Z.ltb_ge t 1)), (proj2 (Z.ltb_ge p 1)) by lia. eexists. split_and!; [done|..].
  - apply Forall_forall. intros b (x & -> & _)%list_elem_of_fmap. unfold is_byte. rewrite land_255. by apply Z.mod_pos_bound.
  - rewrite length_map, length_take, !length_app, length_replicate. lia.
Qed.

#[local] Instance ex_argon : Argon2.
Proof. refine {| argon2_Version := 19; IDKey := ex_derive; IDKey_defined := ex_derive_defined |}. by vm_compute. Defined.

Definition ex_salt : bytes := map Z.of_nat (seq 200 16).
Definition ex_hash : string := default "" (HashPassword "correct horse" ex_salt).

Lemma VerifyPassword_HashPassword_witness :
  VerifyPassword "correct horse" ex_hash = Some (Ok true) /\ VerifyPassword "battery staple" ex_hash = Some (Ok false) /\
  VerifyPassword "x" "$argon2id$v=19$m=8,t=0,p=1$AAAA$AAAA" = Some (Err ErrMalformedHash) /\
  (exists h key, HashPassword "correct horse" ex_salt = Some h /\
     IDKey (to_bytes "correct horse") ex_salt argonTime argonMemory argonThreads argonKeyLen = Some key /\
     forall pw', exists key', IDKey (to_bytes pw') ex_salt argonTime argonMemory argonThreads argonKeyLen = Some key' /\
       VerifyPassword pw' h = Some (Ok (bool_decide (key' = key)))) /\
  forall pw' encoded, Z.of_nat (String.length encoded) < 2 ^ 32 -> is_Some (VerifyPassword pw' encoded).
Proof.
  split; [by vm_compute|]. split; [by vm_compute|]. split; [by vm_compute|].
  apply (VerifyPassword_HashPassword ex_salt "correct horse"); [|done].
  unfold ex_salt, is_byte. apply Forall_forall. intros b (n & -> & Hn%elem_of_seq)%list_elem_of_fmap. lia.
Defined.
