(* ===== verification/Auth.v ===== *)
(** Accounts: [internal/auth], its users, sessions, password resets and
    external identities.

    Ghosts: [tick] numbers the sessions as they are created, [killed] is the
    number a user's newest replacement of the password began at, [consumed]
    the reset tokens used, [orphaned] whether an account was made without
    there being an administrator, or the administrator's was removed by
    [DeleteUser]. *)
From stdpp Require Import base tactics list gmap strings sorting relations.
From Stdlib Require Import ZArith Lia Ascii.
From S2P Require Import Prelude.
From S2P Require Import GoString.
From S2P Require Import Prog.
From S2P Require Import Rely.
From S2P Require Import Secretbox.
From S2P Require Import Password.
From S2P Require Import Org.
From S2P Require Import Invite.

Open Scope Z_scope.
Open Scope go_scope.

(** ** Data *)

Definition SessionTTL : Z := 30 * 24 * hour.
Definition PasswordResetTTL : Z := hour.

Inductive auth_error :=
| ErrEmailTaken | ErrWeakPassword | ErrInvalidCredentials | ErrInvalidEmail | ErrNotInstanceAdmin | ErrSelfTransfer
| ErrNoSession | ErrResetTokenInvalid | ErrPasswordAlreadySet | ErrNoIdentity | ErrIdentityTaken | ErrAlreadyLinked
| ErrUserNotFound | ErrInstanceAdminBlocked | ErrMalformed | ErrPanic | ErrAuthSQL.

Record User := mkUser {
  u_email : string; u_hash : option string; u_admin : bool;
  u_locale : string; u_theme : string; u_hide : bool; killed : Z }.

Record SessionRow := mkSession { s_user : Z; s_expires : Z; s_tick : Z }.
Record ResetRow := mkReset { r_user : Z; r_hash : bytes; r_expires : Z; r_used : option Z; r_created : Z }.
Record Identity := mkIdentity { id_user : Z; id_email : string; id_created : Z }.

Record Accounts := mkAccounts {
  users : gmap Z User; next_user : Z;
  sessions : gmap bytes SessionRow; (** by [token_hash] *)
  password_resets : gmap Z ResetRow; next_reset : Z;
  user_identities : gmap (string * string) Identity; (** by provider and subject *)
  acc_now : Z;
  tick : Z; consumed : list (Z * Z * ResetRow); orphaned : bool }.

Definition set_users (m : gmap Z User) (n : Z) (t : Accounts) : Accounts :=
  mkAccounts m n (sessions t) (password_resets t) (next_reset t) (user_identities t) (acc_now t) (tick t) (consumed t) (orphaned t).
Definition set_sessions (m : gmap bytes SessionRow) (n : Z) (t : Accounts) : Accounts :=
  mkAccounts (users t) (next_user t) m (password_resets t) (next_reset t) (user_identities t) (acc_now t) n (consumed t) (orphaned t).
Definition set_resets (m : gmap Z ResetRow) (n : Z) (c : list (Z * Z * ResetRow)) (t : Accounts) : Accounts :=
  mkAccounts (users t) (next_user t) (sessions t) m n (user_identities t) (acc_now t) (tick t) c (orphaned t).
Definition set_identities (m : gmap (string * string) Identity) (t : Accounts) : Accounts :=
  mkAccounts (users t) (next_user t) (sessions t) (password_resets t) (next_reset t) m (acc_now t) (tick t) (consumed t) (orphaned t).
Definition set_orphaned (b : bool) (t : Accounts) : Accounts :=
  mkAccounts (users t) (next_user t) (sessions t) (password_resets t) (next_reset t) (user_identities t) (acc_now t) (tick t) (consumed t) b.

Definition with_hash (h : string) (u : User) : User :=
  mkUser (u_email u) (Some h) (u_admin u) (u_locale u) (u_theme u) (u_hide u) (killed u).
Definition with_admin (b : bool) (u : User) : User :=
  mkUser (u_email u) (u_hash u) b (u_locale u) (u_theme u) (u_hide u) (killed u).
Definition with_killed (n : Z) (u : User) : User :=
  mkUser (u_email u) (u_hash u) (u_admin u) (u_locale u) (u_theme u) (u_hide u) n.
Definition with_prefs (locale theme : string) (hide : bool) (u : User) : User :=
  mkUser (u_email u) (u_hash u) (u_admin u) locale theme hide (killed u).

(** ** Addresses *)

(** What the character classes of [reEmail] leave out. *)
Definition email_char (c : ascii) : bool := negb (Ascii.eqb c "@") && (32 <? byte_of c) && negb (byte_of c =? 127).

(** One [@], both sides not empty, a dot inside the domain. *)
Definition reEmail (l : chars) : bool :=
  match split_on "@" l with
  | [local; domain] =>
      negb (bool_decide (local = [])) && forallb email_char local && forallb email_char domain &&
      existsb (fun c => Ascii.eqb c ".") (drop 1 (removelast domain))
  | _ => false
  end.

Definition ValidEmailFormat (email : string) : bool := (String.length email <=? 254)%nat && reEmail (chars_of email).

Section programs.
Context `{Unicode, Folding, Argon2}.

Definition normalizeEmail (email : string) : string := ToLower (TrimSpace email).

Definition strong (password : string) : bool := (8 <=? String.length password)%nat && (String.length password <=? 512)%nat.

Definition tokenHash (token : string) : bytes := Sum256 (to_bytes token).

Definition user_by_email (email : string) (t : Accounts) : option (Z * User) :=
  head (List.filter (fun '(_, u) => citext_eq (u_email u) email) (map_to_list (users t))).

Definition admins (t : Accounts) : list Z := map fst (List.filter (fun '(_, u) => u_admin u) (map_to_list (users t))).

(** ** Users *)

Definition insert_user (email : string) (hash : option string) (admin : bool) (t : Accounts) : result auth_error Z * Accounts :=
  match user_by_email email t with
  | Some _ => (Err ErrEmailTaken, t)
  | None => (Ok (next_user t), set_users (<[next_user t := mkUser email hash admin "" "" false 0]> (users t)) (next_user t + 1) t)
  end.

(** [NOT EXISTS (SELECT 1 FROM users)], under the lock that orders all
    registrations and self-deletions. *)
Definition register (email hash : string) (t : Accounts) : result auth_error Z * Accounts :=
  insert_user email (Some hash) (bool_decide (users t = ∅)) t.

Definition create_oauth_user (email : string) (t : Accounts) : result auth_error Z * Accounts :=
  match insert_user email None false t with
  | (Ok id, t') => (Ok id, set_orphaned (orphaned t || bool_decide (admins t = [])) t')
  | r => r
  end.

(** [ON DELETE CASCADE]. *)
Definition remove_user (uid : Z) (t : Accounts) : Accounts :=
  mkAccounts (delete uid (users t)) (next_user t) (filter (fun '(_, s) => s_user s <> uid) (sessions t))
    (filter (fun '(_, r) => r_user r <> uid) (password_resets t)) (next_reset t)
    (filter (fun '(_, i) => id_user i <> uid) (user_identities t)) (acc_now t) (tick t) (consumed t) (orphaned t).

Definition is_admin (uid : Z) (t : Accounts) : bool := match users t !! uid with Some u => u_admin u | None => false end.

(** The gate and the deletion, in one transaction. *)
Definition self_delete (uid : Z) (t : Accounts) : result auth_error Accounts :=
  match users t !! uid with
  | None => Err ErrAuthSQL
  | Some u => if u_admin u && negb (bool_decide (delete uid (users t) = ∅)) then Err ErrInstanceAdminBlocked
              else Ok (remove_user uid t)
  end.

Definition transfer (fromUID toUID : Z) (t : Accounts) : result auth_error () * Accounts :=
  match users t !! fromUID with
  | Some u =>
      if u_admin u then
        let m := <[fromUID := with_admin false u]> (users t) in
        match m !! toUID with
        | Some v => (Ok tt, set_users (<[toUID := with_admin true v]> m) (next_user t) t)
        | None => (Err ErrUserNotFound, t)
        end
      else (Err ErrNotInstanceAdmin, t)
  | None => (Err ErrNotInstanceAdmin, t)
  end.

(** A change of columns no constraint is about. *)
Definition update_user (uid : Z) (f : User -> User) (t : Accounts) : Accounts :=
  match users t !! uid with Some u => set_users (<[uid := f u]> (users t)) (next_user t) t | None => t end.

(** ** Sessions and resets *)

Definition insert_session (h : bytes) (uid expires : Z) (t : Accounts) : result auth_error () * Accounts :=
  match sessions t !! h, users t !! uid with
  | None, Some _ => (Ok tt, set_sessions (<[h := mkSession uid expires (tick t)]> (sessions t)) (tick t + 1) t)
  | _, _ => (Err ErrAuthSQL, t)
  end.

Definition live_session (now : Z) (s : SessionRow) : bool := now <? s_expires s.
Definition live_reset (now : Z) (r : ResetRow) : bool := is_nil (r_used r) && (now <? r_expires r).

(** The sessions [DELETE FROM sessions WHERE user_id = $1] finds. *)
Definition sessions_of (uid : Z) (t : Accounts) : list bytes :=
  map fst (List.filter (fun '(_, s) => s_user s =? uid) (map_to_list (sessions t))).

(** The commit of a replaced password: the hash, and the sessions found at
    [stamp] gone. *)
Definition replace_password (uid : Z) (hash : string) (found : list bytes) (stamp : Z) (t : Accounts) : Accounts :=
  set_sessions (filter (fun '(h, _) => h ∉ found) (sessions t)) (tick t)
    (update_user uid (fun u => with_killed (Z.max (killed u) stamp) (with_hash hash u)) t).

Definition resets_of (uid : Z) (t : Accounts) : list Z :=
  map fst (List.filter (fun '(_, r) => r_user r =? uid) (map_to_list (password_resets t))).

Definition insert_reset (uid : Z) (hash : bytes) (expires : Z) (found : list Z) (t : Accounts) : result auth_error () * Accounts :=
  let rest := filter (fun '(k, _) => k ∉ found) (password_resets t) in
  match users t !! uid, List.filter (fun '(_, r) => bool_decide (r_hash r = hash)) (map_to_list rest) with
  | Some _, [] => (Ok tt, set_resets (<[next_reset t := mkReset uid hash expires None (acc_now t)]> rest) (next_reset t + 1) (consumed t) t)
  | _, _ => (Err ErrAuthSQL, t)
  end.

Definition find_reset (hash : bytes) (now : Z) (t : Accounts) : option (Z * ResetRow) :=
  head (List.filter (fun '(_, r) => bool_decide (r_hash r = hash) && live_reset now r) (map_to_list (password_resets t))).

(** The commit of a reset: the row is still there and unused -- otherwise the
    [UPDATE] had waited for whoever used it and found nothing. *)
Definition consume_reset (k now : Z) (hash : string) (found : list bytes) (stamp : Z) (t : Accounts) : result auth_error () * Accounts :=
  match password_resets t !! k with
  | Some r =>
      match r_used r with
      | None => let r' := mkReset (r_user r) (r_hash r) (r_expires r) (Some now) (r_created r) in
                (Ok tt, replace_password (r_user r) hash found stamp
                          (set_resets (<[k := r']> (password_resets t)) (next_reset t) (consumed t ++ [(k, now, r)]) t))
      | Some _ => (Err ErrResetTokenInvalid, t)
      end
  | None => (Err ErrResetTokenInvalid, t)
  end.

(** ** Identities *)

Definition link (uid : Z) (provider subject email : string) (t : Accounts) : result auth_error () * Accounts :=
  match user_identities t !! (provider, subject) with
  | Some _ => (Err ErrIdentityTaken, t)
  | None =>
      if existsb (fun '((p, _), i) => (id_user i =? uid) && String.eqb p provider) (map_to_list (user_identities t))
      then (Err ErrAlreadyLinked, t)
      else match users t !! uid with
           | None => (Err ErrAuthSQL, t)
           | Some _ => (Ok tt, set_identities (<[(provider, subject) := mkIdentity uid email (acc_now t)]> (user_identities t)) t)
           end
  end.

Definition identities_of (uid : Z) (t : Accounts) : list ((string * string) * Identity) :=
  List.filter (fun '(_, i) => id_user i =? uid) (map_to_list (user_identities t)).

(** ** The service *)

Context {D : Type} `{Has Accounts D, Has Orgs D}.
(** How often a statement polls a lock it waits for. *)
Variable wait : nat.

Definition query {A} (f : Accounts -> A) : prog D (result auth_error A) := ask ErrAuthSQL (fun d => f (get d)).
Definition stmt {A} (q : Accounts -> result auth_error A * Accounts) : prog D (result auth_error A) := callE ErrAuthSQL (on q).
(** [UPDATE] and [DELETE]: what they return cannot be an error of their own. *)
Definition exec_sql (q : Accounts -> Accounts) : prog D (result auth_error ()) := stmt (fun t => (Ok tt, q t)).

Definition hash_password (password : string) (salt : bytes) : result auth_error string :=
  match HashPassword password salt with Some h => Ok h | None => Err ErrPanic end.

Definition Register (email password : string) (salt : bytes) : prog D (result auth_error Z) :=
  let email := normalizeEmail email in
  if negb (ValidEmailFormat email) then mret (Err ErrInvalidEmail) else
  if negb (strong password) then mret (Err ErrWeakPassword) else
  match hash_password password salt with
  | Err err => mret (Err err)
  | Ok hash => stmt (register email hash)
  end.

Definition UserCount : prog D (result auth_error Z) := query (fun t => Z.of_nat (size (users t))).

Definition UserByEmail (email : string) : prog D (result auth_error Z) :=
  tryE: u ← query (user_by_email (normalizeEmail email)) catch err => mret (Err err);
  match u with Some (id, _) => mret (Ok id) | None => mret (Err ErrUserNotFound) end.

(** A column of one row; no row is an error. *)
Definition user_column {A} (uid : Z) (f : User -> A) : prog D (result auth_error A) :=
  tryE: u ← query (fun t => users t !! uid) catch err => mret (Err err);
  match u with Some u => mret (Ok (f u)) | None => mret (Err ErrAuthSQL) end.

Definition UserIsInstanceAdmin (userID : Z) : prog D (result auth_error bool) := user_column userID u_admin.
Definition UserEmail (userID : Z) : prog D (result auth_error string) := user_column userID u_email.
Definition UserLocale (userID : Z) : prog D (result auth_error string) := user_column userID u_locale.
Definition UserTheme (userID : Z) : prog D (result auth_error string) := user_column userID u_theme.
Definition HideGettingStarted (userID : Z) : prog D (result auth_error bool) := user_column userID u_hide.

Definition UserEmails (ids : list Z) : prog D (result auth_error (gmap Z string)) :=
  if decide (ids = []) then mret (Ok ∅) else
  query (fun t => u_email <$> filter (fun '(id, _) => id ∈ ids) (users t)).

Definition SetLocale (userID : Z) (code : string) : prog D (result auth_error ()) :=
  exec_sql (update_user userID (fun u => with_prefs code (u_theme u) (u_hide u) u)).
Definition SetTheme (userID : Z) (code : string) : prog D (result auth_error ()) :=
  exec_sql (update_user userID (fun u => with_prefs (u_locale u) code (u_hide u) u)).
Definition SetHideGettingStarted (userID : Z) : prog D (result auth_error ()) :=
  exec_sql (update_user userID (fun u => with_prefs (u_locale u) (u_theme u) true u)).

Definition TransferInstanceAdmin (fromUID : Z) (toEmail : string) : prog D (result auth_error Z) :=
  tryE: toUID ← UserByEmail toEmail catch err => mret (Err err);
  if toUID =? fromUID then mret (Err ErrSelfTransfer) else
  tryE: _u ← stmt (transfer fromUID toUID) catch err => mret (Err err);
  mret (Ok toUID).

(** The hash that equalises the time of a refusal decides nothing. *)
Definition Authenticate (email password : string) : prog D (result auth_error Z) :=
  tryE: u ← query (user_by_email (normalizeEmail email)) catch err => mret (Err err);
  match u with
  | None => mret (Err ErrInvalidCredentials)
  | Some (id, u) =>
      match u_hash u with
      | None => mret (Err ErrInvalidCredentials)
      | Some hash =>
          match VerifyPassword password hash with
          | Some (Ok true) => mret (Ok id)
          | Some (Ok false) => mret (Err ErrInvalidCredentials)
          | Some (Err _) => mret (Err ErrMalformed)
          | None => mret (Err ErrPanic)
          end
      end
  end.

(** The tail of every replacement: one transaction whose [DELETE] finds the
    sessions there are. *)
Definition setPasswordAndKillSessions (uid : Z) (hash : string) : prog D (result auth_error ()) :=
  tryE: seen ← query (fun t => (sessions_of uid t, tick t)) catch err => mret (Err err);
  exec_sql (replace_password uid hash (fst seen) (snd seen)).

Definition ChangePassword (userID : Z) (oldPassword newPassword : string) (salt : bytes) : prog D (result auth_error ()) :=
  tryE: u ← query (fun t => users t !! userID) catch err => mret (Err err);
  match mbind u_hash u with
  | None => mret (Err ErrInvalidCredentials)
  | Some hash =>
      match VerifyPassword oldPassword hash with
      | None => mret (Err ErrPanic)
      | Some (Err _) => mret (Err ErrMalformed)
      | Some (Ok false) => mret (Err ErrInvalidCredentials)
      | Some (Ok true) =>
          if negb (strong newPassword) then mret (Err ErrWeakPassword) else
          match hash_password newPassword salt with
          | Err err => mret (Err err)
          | Ok newHash => setPasswordAndKillSessions userID newHash
          end
      end
  end.

Definition HasPassword (userID : Z) : prog D (result auth_error bool) :=
  tryE: u ← query (fun t => users t !! userID) catch err => mret (Err err);
  match u with None => mret (Err ErrInvalidCredentials) | Some u => mret (Ok (negb (is_nil (u_hash u)))) end.

(** [UPDATE ... WHERE id = $1 AND password_hash IS NULL] *)
Definition set_first_password (uid : Z) (hash : string) (t : Accounts) : result auth_error Z * Accounts :=
  match users t !! uid with
  | Some u => match u_hash u with
              | None => (Ok 1, update_user uid (with_hash hash) t)
              | Some _ => (Ok 0, t)
              end
  | None => (Ok 0, t)
  end.

Definition SetPassword (userID : Z) (newPassword : string) (salt : bytes) : prog D (result auth_error ()) :=
  if negb (strong newPassword) then mret (Err ErrWeakPassword) else
  match hash_password newPassword salt with
  | Err err => mret (Err err)
  | Ok hash =>
      tryE: n ← stmt (set_first_password userID hash) catch err => mret (Err err);
      if n =? 0 then
        tryE: u ← query (fun t => users t !! userID) catch err => mret (Err err);
        match u with None => mret (Err ErrInvalidCredentials) | Some _ => mret (Err ErrPasswordAlreadySet) end
      else mret (Ok tt)
  end.

(** Two statements: what the [DELETE] finds goes with the commit, and so does
    nothing that was inserted in between. *)
Definition RequestPasswordReset (email token : string) : prog D (result auth_error (option string)) :=
  uid ← UserByEmail email;
  match uid with
  | Err ErrUserNotFound => mret (Ok None)
  | Err err => mret (Err err)
  | Ok uid =>
      tryE: found ← query (resets_of uid) catch err => mret (Err err);
      now ← pgets (fun d : D => acc_now (get d));
      tryE: _u ← stmt (insert_reset uid (tokenHash token) (now + PasswordResetTTL) found) catch err => mret (Err err);
      mret (Ok (Some token))
  end.

Definition ValidPasswordResetToken (token : string) : prog D bool :=
  r ← query (fun t => find_reset (tokenHash token) (acc_now t) t);
  match r with Ok r => mret (negb (is_nil r)) | Err _ => mret false end.

Definition ResetPassword (token newPassword : string) (salt : bytes) : prog D (result auth_error ()) :=
  if negb (strong newPassword) then mret (Err ErrWeakPassword) else
  tryE: seen ← query (fun t => match find_reset (tokenHash token) (acc_now t) t with
                               | Some (k, r) => Some (k, acc_now t, sessions_of (r_user r) t, tick t)
                               | None => None
                               end) catch err => mret (Err err);
  match seen with
  | None => mret (Err ErrResetTokenInvalid)
  | Some (k, now, found, stamp) =>
      match hash_password newPassword salt with
      | Err err => mret (Err err)
      | Ok hash => stmt (consume_reset k now hash found stamp)
      end
  end.

Definition PurgeExpiredPasswordResets : prog D (result auth_error Z) :=
  stmt (fun t =>
    let gone r := (r_expires r <? acc_now t) || negb (is_nil (r_used r)) in
    let kept := filter (fun '(_, r) => gone r = false) (password_resets t) in
    (Ok (Z.of_nat (size (password_resets t)) - Z.of_nat (size kept)), set_resets kept (next_reset t) (consumed t) t)).

Definition AdminSetPassword (email newPassword : string) (salt : bytes) : prog D (result auth_error ()) :=
  if negb (strong newPassword) then mret (Err ErrWeakPassword) else
  tryE: uid ← UserByEmail email catch err => mret (Err err);
  match hash_password newPassword salt with
  | Err err => mret (Err err)
  | Ok hash => setPasswordAndKillSessions uid hash
  end.

Definition CreateSession (userID : Z) (token : string) : prog D (result auth_error string) :=
  now ← pgets (fun d : D => acc_now (get d));
  tryE: _u ← stmt (insert_session (tokenHash token) userID (now + SessionTTL)) catch err => mret (Err err);
  mret (Ok token).

Definition session_user (token : string) (t : Accounts) : option Z :=
  match sessions t !! tokenHash token with
  | Some s => if live_session (acc_now t) s then Some (s_user s) else None
  | None => None
  end.

Definition SessionUser (token : string) : prog D (result auth_error Z) :=
  tryE: s ← query (session_user token) catch err => mret (Err err);
  match s with Some uid => mret (Ok uid) | None => mret (Err ErrNoSession) end.

Definition DestroySession (token : string) : prog D (result auth_error ()) :=
  exec_sql (fun t => set_sessions (delete (tokenHash token) (sessions t)) (tick t) t).

Definition remove_sessions (p : bytes -> SessionRow -> bool) (t : Accounts) : result auth_error Z * Accounts :=
  let kept := filter (fun '(h, s) => p h s = false) (sessions t) in
  (Ok (Z.of_nat (size (sessions t)) - Z.of_nat (size kept)), set_sessions kept (tick t) t).

Definition DestroyOtherSessions (userID : Z) (keepToken : string) : prog D (result auth_error Z) :=
  stmt (remove_sessions (fun h s => (s_user s =? userID) && negb (bool_decide (h = tokenHash keepToken)))).

Definition DeleteExpiredSessions : prog D (result auth_error Z) :=
  stmt (fun t => remove_sessions (fun _ s => s_expires s <=? acc_now t) t).

Definition IdentityUser (provider subject : string) : prog D (result auth_error Z) :=
  tryE: i ← query (fun t => user_identities t !! (provider, subject)) catch err => mret (Err err);
  match i with Some i => mret (Ok (id_user i)) | None => mret (Err ErrNoIdentity) end.

Definition LinkIdentity (userID : Z) (provider subject email : string) : prog D (result auth_error ()) :=
  stmt (link userID provider subject (normalizeEmail email)).

Definition UpdateIdentityEmail (provider subject email : string) : prog D (result auth_error ()) :=
  exec_sql (fun t => set_identities (alter (fun i => mkIdentity (id_user i) (normalizeEmail email) (id_created i)) (provider, subject) (user_identities t)) t).

Definition UnlinkIdentity (userID : Z) (provider : string) : prog D (result auth_error ()) :=
  stmt (fun t =>
    let mine := fun '((p, _), i) => (id_user i =? userID) && String.eqb p provider in
    if existsb mine (map_to_list (user_identities t))
    then (Ok tt, set_identities (filter (fun kv => mine kv = false) (user_identities t)) t) else (Err ErrNoIdentity, t)).

(** [ORDER BY created_at] *)
Definition linked_before (a b : (string * string) * Identity) : Prop := id_created a.2 <= id_created b.2.
#[local] Instance linked_before_dec a b : Decision (linked_before a b).
Proof. unfold linked_before. apply _. Defined.

Definition ListIdentities (userID : Z) : prog D (result auth_error (list ((string * string) * Identity))) :=
  query (fun t => merge_sort linked_before (identities_of userID t)).

Definition CreateOAuthUser (email : string) : prog D (result auth_error Z) :=
  let email := normalizeEmail email in
  if negb (ValidEmailFormat email) then mret (Err ErrInvalidEmail) else stmt (create_oauth_user email).

(** Deleting a user waits for the memberships the cascade takes along. *)
Definition cascade (uid : Z) (q : Accounts -> result auth_error Accounts) (d : D) : result auth_error (option ()) * D :=
  match q (get d) with
  | Err e => (Err e, d)
  | Ok t => match forget_user uid (get d) with
            | None => (Ok None, d)
            | Some o => (Ok (Some tt), put t (put o d))
            end
  end.

Fixpoint polling (n : nat) (q : D -> result auth_error (option ()) * D) : prog D (result auth_error ()) :=
  match n with
  | O => mret (Err ErrAuthSQL)
  | S n =>
      tryE: r ← callE ErrAuthSQL q catch err => mret (Err err);
      match r with Some u => mret (Ok u) | None => polling n q end
  end.

Definition DeleteUser (userID : Z) : prog D (result auth_error ()) :=
  polling wait (cascade userID (fun t => Ok (set_orphaned (orphaned t || is_admin userID t) (remove_user userID t)))).

Definition DeleteSelfAccount (userID : Z) : prog D (result auth_error ()) := polling wait (cascade userID (self_delete userID)).

(** One tick of the janitor: an error of one cleanup stops none of the others. *)
Definition Janitor_tick (extra : list (prog D (result auth_error Z))) : prog D () :=
  _s ← DeleteExpiredSessions;
  _r ← PurgeExpiredPasswordResets;
  foldr (fun fn k => mbind (fun _ : result auth_error Z => k) fn) (mret tt) extra.
End programs.

(** ** Invariants *)

Ltac acc_cbn := cbn [fst snd users next_user sessions password_resets next_reset user_identities acc_now tick consumed orphaned
  set_users set_sessions set_resets set_identities set_orphaned remove_user] in *.

Section invariants.
Context `{HU : Unicode, HF : Folding, HA : Argon2}.

(** One account per address, at most one administrator, and one as long as
    there are accounts. *)
Record users_wf (t : Accounts) : Prop := {
  uw_next : forall k u, users t !! k = Some u -> k < next_user t;
  uw_email : forall k k' u u', users t !! k = Some u -> users t !! k' = Some u' -> citext_eq (u_email u) (u_email u') = true -> k = k';
  uw_one : forall k k' u u', users t !! k = Some u -> users t !! k' = Some u' -> u_admin u = true -> u_admin u' = true -> k = k';
  uw_some : orphaned t = false -> users t <> ∅ -> exists k u, users t !! k = Some u /\ u_admin u = true }.

(** No session is older than the newest replacement of its user's password. *)
Record sessions_wf (t : Accounts) : Prop := {
  sw_pos : 0 <= tick t;
  sw_user : forall h s, sessions t !! h = Some s -> exists u, users t !! s_user s = Some u /\ killed u <= s_tick s;
  sw_tick : forall h s, sessions t !! h = Some s -> s_tick s < tick t;
  sw_killed : forall k u, users t !! k = Some u -> killed u <= tick t }.

Definition reset_used_ok (t : Accounts) (c : Z * Z * ResetRow) : Prop :=
  let '(k, now, r) := c in k < next_reset t /\ now < r_expires r /\ r_expires r <= r_created r + PasswordResetTTL.

Record resets_wf (t : Accounts) : Prop := {
  rw_user : forall k r, password_resets t !! k = Some r -> is_Some (users t !! r_user r);
  rw_next : forall k r, password_resets t !! k = Some r -> k < next_reset t;
  rw_ttl : forall k r, password_resets t !! k = Some r -> r_expires r <= r_created r + PasswordResetTTL;
  rw_open : forall k r, password_resets t !! k = Some r -> r_used r = None -> k ∉ map (fun c => c.1.1) (consumed t);
  rw_consumed : Forall (reset_used_ok t) (consumed t);
  rw_once : NoDup (map (fun c => c.1.1) (consumed t)) }.

Record identities_wf (t : Accounts) : Prop := {
  dw_user : forall k i, user_identities t !! k = Some i -> is_Some (users t !! id_user i);
  dw_one : forall p s s' i i', user_identities t !! (p, s) = Some i -> user_identities t !! (p, s') = Some i' ->
    id_user i = id_user i' -> s = s' }.

Record acc_wf (t : Accounts) : Prop := {
  aw_users : users_wf t; aw_sessions : sessions_wf t; aw_resets : resets_wf t; aw_identities : identities_wf t }.

Record acc_moves (t t' : Accounts) : Prop := {
  am_now : acc_now t <= acc_now t';
  am_tick : tick t <= tick t';
  am_reset : next_reset t <= next_reset t';
  am_session : forall h s, sessions t' !! h = Some s -> sessions t !! h = Some s \/ tick t <= s_tick s;
  am_row : forall k r', password_resets t' !! k = Some r' ->
    next_reset t <= k \/ exists r, password_resets t !! k = Some r /\ r_user r' = r_user r /\ r_expires r' = r_expires r }.

#[export] Instance acc_moves_preorder : PreOrder acc_moves.
Proof.
  split.
  - intros t. constructor; [lia..|by left|]. intros k r Hr. right. by exists r.
  - intros t1 t2 t3 [] []. constructor; [lia..| |].
    + intros h s [Hs|Hs]%am_session1; [|right; lia]. by apply am_session0.
    + intros k r [Hk|(r2 & Hr2 & -> & ->)]%am_row1; [left; lia|]. by apply am_row0.
Qed.

Definition acc_keeps (q : Accounts -> Accounts) : Prop := forall t, acc_wf t -> acc_wf (q t) /\ acc_moves t (q t).

(** A table of users in which everybody is still there. *)
Lemma set_users_keeps m n orph t :
  acc_wf t -> users_wf (set_orphaned orph (set_users m n t)) -> (forall k u, m !! k = Some u -> killed u <= tick t) ->
  (forall k u, users t !! k = Some u -> exists u', m !! k = Some u' /\ killed u' = killed u) ->
  acc_wf (set_orphaned orph (set_users m n t)) /\ acc_moves t (set_orphaned orph (set_users m n t)).
Proof.
  intros [_ [] [] []] Hu Hk Hgrow. split; [constructor; [done|..]|]; constructor; acc_cbn; try done; try lia; eauto.
  - intros h s Hs. destruct (sw_user0 h s Hs) as (u & Hus & ?). destruct (Hgrow _ _ Hus) as (u' & ? & ?). exists u'. split; [done|lia].
  - intros k r Hr. destruct (rw_user0 k r Hr) as [u Hus]. destruct (Hgrow _ _ Hus) as (u' & ? & ?). by exists u'.
  - intros k i Hi. destruct (dw_user0 k i Hi) as [u Hus]. destruct (Hgrow _ _ Hus) as (u' & ? & ?). by exists u'.
Qed.

Lemma user_by_email_none email t k u : user_by_email email t = None -> users t !! k = Some u -> citext_eq (u_email u) email = false.
Proof.
  unfold user_by_email. intros Hn Hk. apply not_true_is_false. intros He. destruct (List.filter _ _) as [|x l] eqn:Hf; [|done].
  assert ((k, u) ∈ List.filter (fun '(_, u) => citext_eq (u_email u) email) (map_to_list (users t))) as Hin.
  { apply list_elem_of_In, filter_In. split; [by apply list_elem_of_In, elem_of_map_to_list|done]. }
  rewrite Hf in Hin. by apply not_elem_of_nil in Hin.
Qed.

Lemma citext_eq_sym a b : citext_eq a b = citext_eq b a.
Proof. unfold citext_eq. apply String.eqb_sym. Qed.
Lemma citext_eq_refl a : citext_eq a a = true.
Proof. unfold citext_eq. apply String.eqb_refl. Qed.

Lemma no_admins t : admins t = [] -> forall k u, users t !! k = Some u -> u_admin u = false.
Proof.
  unfold admins. intros Hn k u Hk. apply not_true_is_false. intros Ha. apply map_eq_nil in Hn.
  assert ((k, u) ∈ List.filter (fun '(_, u) => u_admin u) (map_to_list (users t))) as Hin.
  { apply list_elem_of_In, filter_In. split; [by apply list_elem_of_In, elem_of_map_to_list|done]. }
  rewrite Hn in Hin. by apply not_elem_of_nil in Hin.
Qed.

(** [adm]: who is administrator once the account is there. *)
Lemma insert_user_wf email hash admin orph t :
  acc_wf t -> (admin = true -> users t = ∅) -> (orph = false -> orphaned t = false /\ (admin = true \/ exists k, k ∈ admins t)) ->
  user_by_email email t = None ->
  let t' := set_orphaned orph (set_users (<[next_user t := mkUser email hash admin "" "" false 0]> (users t)) (next_user t + 1) t) in
  acc_wf t' /\ acc_moves t t'.
Proof.
  intros W Hadm Horph Hmail t'. pose proof W as [[] _ _ _]. subst t'.
  assert (users t !! next_user t = None) as Hnew.
  { destruct (users t !! next_user t) as [u|] eqn:Hu; [|done]. pose proof (uw_next0 _ _ Hu). lia. }
  assert (forall k u, users t !! k = Some u -> k <> next_user t) as Hne by congruence.
  apply set_users_keeps; [done|..].
  - constructor; acc_cbn.
    + intros k u [[<- _]|[_ Hk]]%lookup_insert_Some; [lia|]. specialize (uw_next0 k u Hk). lia.
    + intros k k' u u' [[<- <-]|[_ Hk]]%lookup_insert_Some [[<- <-]|[_ Hk']]%lookup_insert_Some; [done|..]; cbn.
      * rewrite citext_eq_sym, (user_by_email_none _ _ _ _ Hmail Hk'). done.
      * by rewrite (user_by_email_none _ _ _ _ Hmail Hk).
      * eauto.
    + intros k k' u u' [[<- <-]|[_ Hk]]%lookup_insert_Some [[<- <-]|[_ Hk']]%lookup_insert_Some; [done|..|eauto]; cbn; intros Ha Ha'.
      * rewrite (Hadm Ha) in Hk'. by rewrite lookup_empty in Hk'.
      * rewrite (Hadm Ha') in Hk. by rewrite lookup_empty in Hk.
    + intros Ho _. destruct (Horph Ho) as [_ [->|[k Hk]]]; [by exists (next_user t), (mkUser email hash true "" "" false 0); rewrite lookup_insert_eq|].
      unfold admins in Hk. apply list_elem_of_fmap in Hk as ([k' u] & -> & Hin). apply list_elem_of_In, filter_In in Hin as [Hin Ha].
      apply list_elem_of_In, elem_of_map_to_list in Hin. exists k', u. split; [|done]. rewrite lookup_insert_ne; [done|]. by apply not_eq_sym, (Hne _ u).
  - intros k u [[<- <-]|[_ Hk]]%lookup_insert_Some; [by apply W|]. by eapply sw_killed; [apply W|].
  - intros k u Hk. exists u. split; [|done]. rewrite lookup_insert_ne; [done|]. by apply not_eq_sym, (Hne _ u).
Qed.

Lemma register_keeps email hash t : acc_wf t -> acc_wf (register email hash t).2 /\ acc_moves t (register email hash t).2.
Proof.
  intros W. unfold register, insert_user. destruct (user_by_email email t) eqn:He; [done|].
  apply (insert_user_wf email (Some hash) (bool_decide (users t = ∅)) (orphaned t)); [done|by intros ?%bool_decide_eq_true| |done].
  intros Ho. split; [done|]. case_bool_decide as Hu; [by left|right]. destruct (uw_some t (aw_users t W) Ho Hu) as (k & u & Hk & Ha).
  exists k. unfold admins. apply list_elem_of_fmap. exists (k, u). split; [done|]. apply list_elem_of_In, filter_In.
  split; [by apply list_elem_of_In, elem_of_map_to_list|done].
Qed.

Lemma create_oauth_user_keeps email t : acc_wf t -> acc_wf (create_oauth_user email t).2 /\ acc_moves t (create_oauth_user email t).2.
Proof.
  intros W. unfold create_oauth_user, insert_user. destruct (user_by_email email t) eqn:He; [done|].
  apply (insert_user_wf email None false (orphaned t || bool_decide (admins t = []))); [done|done| |done].
  intros [Ho Ha%bool_decide_eq_false]%orb_false_iff. split; [done|right]. destruct (admins t) as [|k l]; [done|]. exists k. left.
Qed.

Lemma same_orphaned m n t : set_orphaned (orphaned t) (set_users m n t) = set_users m n t.
Proof. done. Qed.

(** Columns that neither identify nor qualify the account. *)
Lemma update_user_keeps uid f t :
  (forall u, u_email (f u) = u_email u /\ u_admin (f u) = u_admin u /\ killed (f u) = killed u) ->
  acc_wf t -> acc_wf (update_user uid f t) /\ acc_moves t (update_user uid f t).
Proof.
  intros Hf W. unfold update_user. destruct (users t !! uid) as [u0|] eqn:Hu0; [|by split].
  assert (forall k u', <[uid := f u0]> (users t) !! k = Some u' -> exists u, users t !! k = Some u /\
    u_email u' = u_email u /\ u_admin u' = u_admin u /\ killed u' = killed u) as Hback.
  { intros k u' [[<- <-]|[_ Hk]]%lookup_insert_Some; [exists u0; by destruct (Hf u0) as (? & ? & ?)|by exists u']. }
  pose proof W as [[] [] _ _]. rewrite <- same_orphaned. apply (set_users_keeps (<[uid := f u0]> (users t)) (next_user t) (orphaned t) t); [done| | |].
  - constructor; acc_cbn.
    + intros k u' (u & Hk & _)%Hback. eauto.
    + intros k k' u1 u2 (v1 & Hk & -> & _)%Hback (v2 & Hk' & -> & _)%Hback. eauto.
    + intros k k' u1 u2 (v1 & Hk & _ & -> & _)%Hback (v2 & Hk' & _ & -> & _)%Hback. eauto.
    + intros Ho _. destruct (uw_some0 Ho) as (k & u & Hk & Ha); [intros He; by rewrite He, lookup_empty in Hu0|].
      destruct (decide (k = uid)) as [->|Hne]; [|exists k, u; by rewrite lookup_insert_ne].
      exists uid, (f u0). rewrite lookup_insert_eq. split; [done|]. destruct (Hf u0) as (_ & -> & _). congruence.
  - intros k u' (u & Hk & _ & _ & ->)%Hback. eauto.
  - intros k u Hk. destruct (decide (k = uid)) as [->|Hne]; [|exists u; by rewrite lookup_insert_ne].
    exists (f u0). rewrite lookup_insert_eq. split; [done|]. destruct (Hf u0) as (_ & _ & ->). congruence.
Qed.

Lemma transfer_keeps a b t : acc_wf t -> a <> b -> acc_wf (transfer a b t).2 /\ acc_moves t (transfer a b t).2.
Proof.
  intros W Hab. unfold transfer. destruct (users t !! a) as [ua|] eqn:Ha; [|done]. destruct (u_admin ua) eqn:Hadm; [|done].
  rewrite lookup_insert_ne by done. destruct (users t !! b) as [ub|] eqn:Hb; [|done]. cbn [snd].
  assert (forall k u', <[b := with_admin true ub]> (<[a := with_admin false ua]> (users t)) !! k = Some u' -> exists u,
    users t !! k = Some u /\ u_email u' = u_email u /\ killed u' = killed u /\ (u_admin u' = true -> k = b)) as Hback.
  { intros k u' [[<- <-]|[_ [[<- <-]|[Hne Hk]]%lookup_insert_Some]]%lookup_insert_Some; [by exists ub|by exists ua|].
    exists u'. split_and!; [done..|]. intros Hu. exfalso. apply Hne. by eapply (uw_one t (aw_users t W)). }
  pose proof W as [[] [] _ _]. rewrite <- same_orphaned. apply (set_users_keeps (<[b := with_admin true ub]> (<[a := with_admin false ua]> (users t))) (next_user t) (orphaned t) t); [done| | |].
  - constructor; acc_cbn.
    + intros k u' (u & Hk & _)%Hback. eauto.
    + intros k k' u1 u2 (v1 & Hk & -> & _)%Hback (v2 & Hk' & -> & _)%Hback. eauto.
    + intros k k' u1 u2 (v1 & _ & _ & _ & H1)%Hback (v2 & _ & _ & _ & H2)%Hback E1 E2. by rewrite (H1 E1), (H2 E2).
    + intros _ _. exists b, (with_admin true ub). by rewrite lookup_insert_eq.
  - intros k u' (u & Hk & _ & -> & _)%Hback. eauto.
  - intros k u Hk. destruct (decide (k = b)) as [->|Hnb]; [exists (with_admin true ub); rewrite lookup_insert_eq; by simplify_eq|].
    rewrite lookup_insert_ne by done. destruct (decide (k = a)) as [->|Hna]; [exists (with_admin false ua); rewrite lookup_insert_eq; by simplify_eq|].
    exists u. by rewrite lookup_insert_ne.
Qed.

Lemma remove_user_keeps uid orph t :
  acc_wf t -> (orph = false -> orphaned t = false /\ (is_admin uid t = true -> delete uid (users t) = ∅)) ->
  acc_wf (set_orphaned orph (remove_user uid t)) /\ acc_moves t (set_orphaned orph (remove_user uid t)).
Proof.
  intros [[] [] [] []] Horph. split; [constructor|]; constructor; acc_cbn; try done; try lia.
  - intros k u [_ Hk]%lookup_delete_Some. eauto.
  - intros k k' u u' [_ Hk]%lookup_delete_Some [_ Hk']%lookup_delete_Some. eauto.
  - intros k k' u u' [_ Hk]%lookup_delete_Some [_ Hk']%lookup_delete_Some. eauto.
  - intros Ho Hne. destruct (Horph Ho) as [Ho' Hadm]. destruct (uw_some0 Ho') as (k & u & Hk & Ha); [intros He; by rewrite He, delete_empty in Hne|].
    destruct (decide (k = uid)) as [->|Hk']; [|exists k, u; by rewrite lookup_delete_ne]. exfalso. apply Hne, Hadm. unfold is_admin. by rewrite Hk.
  - intros h s [Hs Hne]%map_lookup_filter_Some. destruct (sw_user0 h s Hs) as (u & Hu & ?). exists u. by rewrite lookup_delete_ne.
  - intros h s [Hs _]%map_lookup_filter_Some. eauto.
  - intros k u [_ Hk]%lookup_delete_Some. eauto.
  - intros k r [Hr Hne]%map_lookup_filter_Some. rewrite lookup_delete_ne by done. eauto.
  - intros k r [Hr _]%map_lookup_filter_Some. eauto.
  - intros k r [Hr _]%map_lookup_filter_Some. eauto.
  - intros k r [Hr _]%map_lookup_filter_Some. eauto.
  - intros k i [Hi Hne]%map_lookup_filter_Some. rewrite lookup_delete_ne by done. eauto.
  - intros p s s' i i' [Hi _]%map_lookup_filter_Some [Hi' _]%map_lookup_filter_Some. eauto.
  - intros h s [Hs _]%map_lookup_filter_Some. by left.
  - intros k r [Hr _]%map_lookup_filter_Some. right. by exists r.
Qed.

Lemma self_delete_keeps uid t t' : acc_wf t -> self_delete uid t = Ok t' -> acc_wf t' /\ acc_moves t t'.
Proof.
  intros W. unfold self_delete. destruct (users t !! uid) as [u|] eqn:Hu; [|done].
  destruct (u_admin u && negb (bool_decide (delete uid (users t) = ∅))) eqn:Hg; [done|]. intros [= <-].
  apply (remove_user_keeps uid (orphaned t)); [done|]. intros Ho. split; [done|]. unfold is_admin. rewrite Hu. intros Ha.
  rewrite Ha in Hg. by case_bool_decide.
Qed.

Lemma DeleteUser_keeps uid t :
  acc_wf t -> let t' := set_orphaned (orphaned t || is_admin uid t) (remove_user uid t) in acc_wf t' /\ acc_moves t t'.
Proof. intros W. apply remove_user_keeps; [done|]. intros [Ho Ha]%orb_false_iff. split; [done|congruence]. Qed.

(** Fewer sessions, resets or identities. *)
Lemma shrink_sessions_keeps m t : acc_wf t -> m ⊆ sessions t -> acc_wf (set_sessions m (tick t) t) /\ acc_moves t (set_sessions m (tick t) t).
Proof.
  intros [[] [] [] []] Hm. assert (forall h s, m !! h = Some s -> sessions t !! h = Some s) as Hin by (intros h s Hs; by eapply lookup_weaken).
  split; [constructor|]; constructor; acc_cbn; try done; try lia; eauto.
Qed.

Lemma shrink_resets_keeps m t :
  acc_wf t -> m ⊆ password_resets t -> acc_wf (set_resets m (next_reset t) (consumed t) t) /\ acc_moves t (set_resets m (next_reset t) (consumed t) t).
Proof.
  intros [[] [] [] []] Hm. assert (forall k r, m !! k = Some r -> password_resets t !! k = Some r) as Hin by (intros k r Hr; by eapply lookup_weaken).
  split; [constructor|]; constructor; acc_cbn; try done; try lia; eauto. intros k r Hr. right. exists r. auto.
Qed.

Lemma shrink_identities_keeps m t :
  acc_wf t -> m ⊆ user_identities t -> acc_wf (set_identities m t) /\ acc_moves t (set_identities m t).
Proof.
  intros [[] [] [] []] Hm. assert (forall k i, m !! k = Some i -> user_identities t !! k = Some i) as Hin by (intros k i Hi; by eapply lookup_weaken).
  split; [constructor|]; constructor; acc_cbn; try done; try lia; eauto.
Qed.

Lemma insert_session_keeps h uid e t : acc_wf t -> acc_wf (insert_session h uid e t).2 /\ acc_moves t (insert_session h uid e t).2.
Proof.
  intros W. unfold insert_session. destruct (sessions t !! h) eqn:Hh; [done|]. destruct (users t !! uid) as [u|] eqn:Hu; [|done].
  destruct W as [[] [] [] []]. split; [constructor|]; constructor; acc_cbn; try done; try lia.
  - intros h' s [[<- <-]|[_ Hs]]%lookup_insert_Some; [exists u; acc_cbn; split; [done|]; by eapply sw_killed0|by eapply sw_user0].
  - intros h' s [[<- <-]|[_ Hs]]%lookup_insert_Some; cbn; [lia|]. specialize (sw_tick0 h' s Hs). lia.
  - intros k v Hv. specialize (sw_killed0 k v Hv). lia.
  - intros h' s [[<- <-]|[_ Hs]]%lookup_insert_Some; cbn; [right; lia|by left].
  - intros k r Hr. right. by exists r.
Qed.

Lemma link_keeps uid p s email t : acc_wf t -> acc_wf (link uid p s email t).2 /\ acc_moves t (link uid p s email t).2.
Proof.
  intros W. unfold link. destruct (user_identities t !! (p, s)) eqn:Hi; [done|]. destruct (existsb _ _) eqn:He; [done|].
  destruct (users t !! uid) as [u|] eqn:Hu; [|done]. destruct W as [[] [] [] []].
  assert (forall s' i, user_identities t !! (p, s') = Some i -> id_user i <> uid) as Hno.
  { intros s' i Hi' <-. apply (not_true_iff_false _) in He. apply He, existsb_exists. exists ((p, s'), i).
    split; [by apply list_elem_of_In, elem_of_map_to_list|]. by rewrite Z.eqb_refl, String.eqb_refl. }
  split; [constructor|]; constructor; acc_cbn; try done; try lia.
  - intros k i [[<- <-]|[_ Hk]]%lookup_insert_Some; [by exists u|by eapply dw_user0].
  - intros p' s1 s2 i1 i2 [[E1 <-]|[_ H1]]%lookup_insert_Some [[E2 <-]|[_ H2]]%lookup_insert_Some Heq; simplify_eq; cbn in *;
      [done|exfalso; by eapply Hno|exfalso; by eapply Hno|eauto].
  - intros h s' Hs. by left.
  - intros k r Hr. right. by exists r.
Qed.

Lemma update_identity_keeps k f t :
  (forall i, id_user (f i) = id_user i) -> acc_wf t ->
  acc_wf (set_identities (alter f k (user_identities t)) t) /\ acc_moves t (set_identities (alter f k (user_identities t)) t).
Proof.
  intros Hf [[] [] [] []]. assert (forall k' i', alter f k (user_identities t) !! k' = Some i' -> exists i, user_identities t !! k' = Some i /\ id_user i' = id_user i) as Hback.
  { intros k' i'. destruct (decide (k = k')) as [<-|Hne]; [|rewrite lookup_alter_ne by done; by exists i'].
    rewrite lookup_alter_eq. intros (i & Hi & ->)%fmap_Some. by exists i. }
  split; [constructor|]; constructor; acc_cbn; try done; try lia.
  - intros k' i' (i & Hi & ->)%Hback. eauto.
  - intros p s1 s2 i1 i2 (j1 & H1 & ->)%Hback (j2 & H2 & ->)%Hback. eauto.
  - intros h s Hs. by left.
  - intros k' r Hr. right. by exists r.
Qed.

(** What the [DELETE] of a replacement found is all there was at [stamp]. *)
Definition found_all (uid : Z) (found : list bytes) (stamp : Z) (t : Accounts) : Prop :=
  stamp <= tick t /\ forall h s, sessions t !! h = Some s -> s_user s = uid -> h ∈ found \/ stamp <= s_tick s.

Lemma found_all_here uid t : found_all uid (sessions_of uid t) (tick t) t.
Proof.
  split; [lia|]. intros h s Hs Hu. left. unfold sessions_of. apply list_elem_of_fmap. exists (h, s). split; [done|].
  apply list_elem_of_In, filter_In. split; [by apply list_elem_of_In, elem_of_map_to_list|]. by apply Z.eqb_eq.
Qed.

Lemma found_all_moves uid found stamp t t' : acc_moves t t' -> found_all uid found stamp t -> found_all uid found stamp t'.
Proof.
  intros [] [Hs Hf]. split; [lia|]. intros h s [Hh|Hh]%am_session0 Hu; [by apply Hf|right; lia].
Qed.

Lemma replace_password_keeps uid hash found stamp t :
  acc_wf t -> found_all uid found stamp t ->
  acc_wf (replace_password uid hash found stamp t) /\ acc_moves t (replace_password uid hash found stamp t).
Proof.
  intros W [Hstamp Hfound]. unfold replace_password, update_user.
  pose proof (shrink_sessions_keeps (filter (fun '(h, _) => h ∉ found) (sessions t)) t W (map_filter_subseteq _ _)) as [W1 M1].
  destruct (users t !! uid) as [u0|] eqn:Hu0; [|exact (conj W1 M1)].
  set (u1 := with_killed (Z.max (killed u0) stamp) (with_hash hash u0)).
  assert (forall k u', <[uid := u1]> (users t) !! k = Some u' -> exists u, users t !! k = Some u /\
    u_email u' = u_email u /\ u_admin u' = u_admin u /\ killed u' <= Z.max (killed u) stamp) as Hback.
  { intros k u' [[<- <-]|[_ Hk]]%lookup_insert_Some; [exists u0; subst u1; cbn; split_and!; [done..|lia]|exists u'; split_and!; [done..|lia]]. }
  assert (forall k u, users t !! k = Some u -> is_Some (<[uid := u1]> (users t) !! k)) as Hgrow.
  { intros k u Hk. destruct (decide (k = uid)) as [->|]; [by rewrite lookup_insert_eq|by rewrite lookup_insert_ne]. }
  destruct W as [[] [] [] []]. split; [constructor|]; constructor; acc_cbn; try done; try lia.
  - intros k u' (u & Hk & _)%Hback. eauto.
  - intros k k' v1 v2 (w1 & Hk & -> & _)%Hback (w2 & Hk' & -> & _)%Hback. eauto.
  - intros k k' v1 v2 (w1 & Hk & _ & -> & _)%Hback (w2 & Hk' & _ & -> & _)%Hback. eauto.
  - intros Ho _. destruct (uw_some0 Ho) as (k & u & Hk & Ha); [intros He; by rewrite He, lookup_empty in Hu0|].
    destruct (decide (k = uid)) as [->|Hne]; [|exists k, u; by rewrite lookup_insert_ne].
    exists uid, u1. rewrite lookup_insert_eq. split; [done|]. subst u1. cbn. congruence.
  - intros h s [Hs Hh]%map_lookup_filter_Some. destruct (sw_user0 h s Hs) as (u & Hu & Hkill).
    destruct (decide (s_user s = uid)) as [Heq|Hne]; [|exists u; rewrite lookup_insert_ne by congruence; done].
    exists u1. rewrite Heq, lookup_insert_eq. split; [done|]. subst u1. cbn. rewrite Heq in Hu. rewrite Hu0 in Hu. injection Hu as <-.
    destruct (Hfound h s Hs Heq); [done|lia].
  - intros h s [Hs _]%map_lookup_filter_Some. eauto.
  - intros k u' (u & Hk & _ & _ & Hkill)%Hback. specialize (sw_killed0 k u Hk). lia.
  - intros k r Hr. destruct (rw_user0 k r Hr) as [u Hu]. by eapply Hgrow.
  - intros k i Hi. destruct (dw_user0 k i Hi) as [u Hu]. by eapply Hgrow.
  - intros h s [Hs _]%map_lookup_filter_Some. by left.
  - intros k r Hr. right. by exists r.
Qed.

Lemma insert_reset_keeps uid hash e found t :
  acc_wf t -> e <= acc_now t + PasswordResetTTL ->
  acc_wf (insert_reset uid hash e found t).2 /\ acc_moves t (insert_reset uid hash e found t).2.
Proof.
  intros W He. unfold insert_reset. destruct (users t !! uid) as [u|] eqn:Hu; [|done].
  destruct (List.filter _ _); [|done]. cbn [snd]. destruct W as [[] [] [] []].
  split; [constructor|]; constructor; acc_cbn; try done; try lia.
  - intros k r [[<- <-]|[_ [Hr _]%map_lookup_filter_Some]]%lookup_insert_Some; [by exists u|eauto].
  - intros k r [[<- <-]|[_ [Hr _]%map_lookup_filter_Some]]%lookup_insert_Some; [lia|]. specialize (rw_next0 k r Hr). lia.
  - intros k r [[<- <-]|[_ [Hr _]%map_lookup_filter_Some]]%lookup_insert_Some; [done|eauto].
  - intros k r [[<- <-]|[_ [Hr _]%map_lookup_filter_Some]]%lookup_insert_Some; [|eauto]. intros _ (c & Hk & Hc)%list_elem_of_fmap.
    rewrite Forall_forall in rw_consumed0. specialize (rw_consumed0 c Hc). destruct c as [[k' now] r']. destruct rw_consumed0 as [? _]. cbn in Hk. lia.
  - eapply Forall_impl; [exact rw_consumed0|]. intros [[k now] r] (? & ? & ?). split_and!; [acc_cbn; lia|done..].
  - intros h s Hs. by left.
  - intros k r [[<- <-]|[_ [Hr _]%map_lookup_filter_Some]]%lookup_insert_Some; [left; lia|right; by exists r].
Qed.

(** The row a reset found, whatever became of it. *)
Definition found_row (k uid now : Z) (t : Accounts) : Prop :=
  k < next_reset t /\ forall r, password_resets t !! k = Some r -> r_user r = uid /\ now < r_expires r.

Lemma found_row_moves k uid now t t' : acc_moves t t' -> found_row k uid now t -> found_row k uid now t'.
Proof.
  intros [] [Hk Hf]. split; [lia|]. intros r [?|(r0 & Hr & -> & ->)]%am_row0; [lia|by apply Hf].
Qed.

Lemma consume_reset_keeps k uid now hash found stamp t :
  acc_wf t -> found_row k uid now t -> found_all uid found stamp t ->
  acc_wf (consume_reset k now hash found stamp t).2 /\ acc_moves t (consume_reset k now hash found stamp t).2.
Proof.
  intros W [Hk Hrow] Hall. unfold consume_reset. destruct (password_resets t !! k) as [r|] eqn:Hr; [|done].
  destruct (r_used r) eqn:Hused; [done|]. cbn [snd]. destruct (Hrow r eq_refl) as [Huid Hnow].
  set (r1 := mkReset (r_user r) (r_hash r) (r_expires r) (Some now) (r_created r)).
  set (t1 := set_resets (<[k := r1]> (password_resets t)) (next_reset t) (consumed t ++ [(k, now, r)]) t).
  assert (acc_wf t1 /\ acc_moves t t1) as [W1 M1].
  { pose proof W as [[] [] [] []]. subst t1. split; [constructor; [done..| |done]|]; constructor; acc_cbn; try done; try lia.
    - intros k' r' [[<- <-]|[_ Hr']]%lookup_insert_Some; [by eapply (rw_user0 k r)|eauto].
    - intros k' r' [[<- <-]|[_ Hr']]%lookup_insert_Some; [done|eauto].
    - intros k' r' [[<- <-]|[_ Hr']]%lookup_insert_Some; [by apply (rw_ttl0 k r)|eauto].
    - intros k' r' [[<- <-]|[Hne Hr']]%lookup_insert_Some; [done|]. intros Ho. rewrite map_app, elem_of_app. cbn [map fst].
      rewrite list_elem_of_singleton. intros [|]; [by eapply rw_open0|congruence].
    - apply Forall_app; split; [done|]. apply Forall_singleton. split_and!; [done|done|]. by apply (rw_ttl0 k r).
    - rewrite map_app. cbn [map fst]. apply NoDup_app. split_and!; [done| |apply NoDup_singleton].
      intros k' Hk' ->%list_elem_of_singleton. by eapply (rw_open0 k r).
    - intros h s Hs. by left.
    - intros k' r' [[<- <-]|[_ Hr']]%lookup_insert_Some; [right; by exists r|right; by exists r']. }
  destruct (replace_password_keeps (r_user r) hash found stamp t1 W1) as [W2 M2]; [by subst uid|].
  split; [exact W2|]. etrans; [exact M1|exact M2].
Qed.
End invariants.

(** ** The operations *)

Inductive auth_op :=
| OpRegister (email password : string) (salt : bytes)
| OpCreateOAuthUser (email : string)
| OpSetLocale (uid : Z) (code : string)
| OpSetTheme (uid : Z) (code : string)
| OpHideGettingStarted (uid : Z)
| OpTransferInstanceAdmin (fromUID : Z) (toEmail : string)
| OpChangePassword (uid : Z) (oldPassword newPassword : string) (salt : bytes)
| OpSetPassword (uid : Z) (newPassword : string) (salt : bytes)
| OpRequestPasswordReset (email token : string)
| OpResetPassword (token newPassword : string) (salt : bytes)
| OpAdminSetPassword (email newPassword : string) (salt : bytes)
| OpCreateSession (uid : Z) (token : string)
| OpDestroySession (token : string)
| OpDestroyOtherSessions (uid : Z) (keepToken : string)
| OpLinkIdentity (uid : Z) (provider subject email : string)
| OpUpdateIdentityEmail (provider subject email : string)
| OpUnlinkIdentity (uid : Z) (provider : string)
| OpDeleteUser (uid : Z)
| OpDeleteSelfAccount (uid : Z)
| OpJanitor.

Definition auth_prog `{Unicode, Folding, Argon2} {D} `{Has Accounts D, Has Orgs D} (wait : nat) (op : auth_op) : prog D () :=
  match op with
  | OpRegister email pw salt => ignore (Register email pw salt)
  | OpCreateOAuthUser email => ignore (CreateOAuthUser email)
  | OpSetLocale uid code => ignore (SetLocale uid code)
  | OpSetTheme uid code => ignore (SetTheme uid code)
  | OpHideGettingStarted uid => ignore (SetHideGettingStarted uid)
  | OpTransferInstanceAdmin a email => ignore (TransferInstanceAdmin a email)
  | OpChangePassword uid old new salt => ignore (ChangePassword uid old new salt)
  | OpSetPassword uid new salt => ignore (SetPassword uid new salt)
  | OpRequestPasswordReset email token => ignore (RequestPasswordReset email token)
  | OpResetPassword token new salt => ignore (ResetPassword token new salt)
  | OpAdminSetPassword email new salt => ignore (AdminSetPassword email new salt)
  | OpCreateSession uid token => ignore (CreateSession uid token)
  | OpDestroySession token => ignore (DestroySession token)
  | OpDestroyOtherSessions uid keep => ignore (DestroyOtherSessions uid keep)
  | OpLinkIdentity uid p s email => ignore (LinkIdentity uid p s email)
  | OpUpdateIdentityEmail p s email => ignore (UpdateIdentityEmail p s email)
  | OpUnlinkIdentity uid p => ignore (UnlinkIdentity uid p)
  | OpDeleteUser uid => ignore (DeleteUser wait uid)
  | OpDeleteSelfAccount uid => ignore (DeleteSelfAccount wait uid)
  | OpJanitor => Janitor_tick []
  end.

Section operations.
Context `{UC : Unicode, FC : Folding, AC : Argon2} {D : Type} `{Has Accounts D, Has Orgs D}.

Abbreviation P := (fun d : D => acc_wf (get d)).
Abbreviation R := (fun d d' : D => acc_moves (get d) (get d')).
Abbreviation acc_rg := (rg P R).
Abbreviation acc_safe p := (rg P R (fun _ : D => True) p (fun _ _ => True)).
#[local] Instance auth_R_preorder : PreOrder R.
Proof. split; [intros d; reflexivity|intros d1 d2 d3; apply acc_moves_preorder]. Qed.

(** Facts the moves of others keep. *)
Lemma stable_moves (F : Accounts -> Prop) : (forall t t', acc_moves t t' -> F t -> F t') -> stable P R (fun d => F (get d)).
Proof. intros HF d d' _ _ Hm. by apply HF. Qed.

Lemma safe_stmt {A} S (q : Accounts -> result auth_error A * Accounts) :
  (forall d : D, acc_wf (get d) -> S d -> acc_wf (q (get d)).2 /\ acc_moves (get d) (q (get d)).2) ->
  acc_rg S (stmt q) (fun _ _ => True).
Proof.
  intros Hq f d HP HS. destruct (Hq d HP HS) as [Hw Hm]. rewrite <- get_on in Hw, Hm.
  split; [by destruct f|]. split; [destruct f; [done|reflexivity|done]|]. by exists (fun _ => True).
Qed.

Lemma safe_exec S (q : Accounts -> Accounts) : acc_keeps q -> acc_rg S (exec_sql q) (fun _ _ => True).
Proof. intros Hq. apply safe_stmt. intros d HP _. by apply Hq. Qed.

Lemma safe_query {A B} (f : Accounts -> A) (k : result auth_error A -> prog D B) :
  (forall r, acc_safe (k r)) -> acc_safe (mbind k (query f)).
Proof. intros Hk. unfold query. apply rg_seq; [done|apply _|exact Hk]. Qed.

(** A query and what it established. *)
Lemma rg_query {A} (f : Accounts -> A) (F : A -> Accounts -> Prop) :
  (forall a t t', acc_moves t t' -> F a t -> F a t') -> (forall t, acc_wf t -> F (f t) t) ->
  acc_rg (fun _ => True) (query f) (fun r d => match r with Ok a => F a (get d) | Err _ => True end).
Proof.
  intros HF Hf. eapply rg_mono.
  - apply (rg_ask P R (fun _ => True) ErrAuthSQL (fun d => f (get d)) (fun a d => F a (get d))); [done|intros a; apply (stable_moves (F a)), HF|].
    intros d HP _. by apply Hf.
  - by intros r d _ [_ Hr].
Qed.


Lemma safe_UserByEmail email : acc_safe (UserByEmail email).
Proof. apply safe_query. by intros [[[id u]|]|e]. Qed.

Lemma safe_replace uid hash : acc_safe (setPasswordAndKillSessions uid hash).
Proof.
  unfold setPasswordAndKillSessions. eapply rg_bind.
  - apply (rg_query _ (fun seen => found_all uid seen.1 seen.2)); [intros [found stamp] t t'; apply found_all_moves|intros t _; apply found_all_here].
  - intros [[found stamp]|e]; [|done]. apply safe_stmt. intros d HP Hf. by apply replace_password_keeps.
Qed.

Lemma safe_now_stmt {A B} (q : Z -> Accounts -> result auth_error A * Accounts) (k : Z -> result auth_error A -> prog D B) :
  (forall now t, now <= acc_now t -> acc_wf t -> acc_wf (q now t).2 /\ acc_moves t (q now t).2) ->
  (forall now r, acc_safe (k now r)) ->
  acc_safe (mbind (fun now => mbind (k now) (stmt (q now))) (pgets (fun d : D => acc_now (get d)))).
Proof.
  intros Hq Hk. eapply rg_bind.
  - apply (rg_pgets P R (fun _ => True) (fun d : D => acc_now (get d)) (fun now d => now <= acc_now (get d))); [done| |done].
    intros now d d' _ _ []. lia.
  - intros now. eapply rg_bind; [|intros r; apply Hk]. apply safe_stmt. intros d HP [_ Hnow]. by apply Hq.
Qed.

Lemma safe_polling uid q n :
  (forall t t', acc_wf t -> q t = Ok t' -> acc_wf t' /\ acc_moves t t') -> acc_safe (polling n (cascade uid q)).
Proof.
  intros Hq. induction n as [|n IH]; [by intros d|]. cbn [polling]. eapply rg_bind with (Q := fun _ _ => True); [|by intros [[u|]|e]].
  assert (forall d, P d -> P (cascade uid q d).2 /\ R d (cascade uid q d).2) as Hc.
  { intros d HP. unfold cascade. destruct (q (get d)) as [t|e] eqn:Ht; [|done]. destruct (forget_user uid (get d)) as [o|]; [|done].
    cbn [snd]. rewrite get_put. by apply Hq. }
  intros f d HP _. destruct (Hc d HP). split; [by destruct f|]. split; [destruct f; [done|reflexivity|done]|]. by exists (fun _ => True).
Qed.

Lemma find_reset_spec hash now t k r :
  acc_wf t -> find_reset hash now t = Some (k, r) -> found_row k (r_user r) now t /\ r_hash r = hash.
Proof.
  intros W. unfold find_reset. intros Hh%head_Some_elem_of. apply list_elem_of_In, filter_In in Hh as [Hin Hl].
  apply list_elem_of_In, elem_of_map_to_list in Hin. apply andb_true_iff in Hl as [Hhash%bool_decide_eq_true Hlive].
  unfold live_reset in Hlive. apply andb_true_iff in Hlive as [_ Hlt%Z.ltb_lt]. split; [|done].
  split; [by eapply (rw_next t (aw_resets t W))|]. intros r' Hr'. by simplify_eq.
Qed.

Lemma safe_ResetPassword token pw salt : acc_safe (ResetPassword token pw salt).
Proof.
  unfold ResetPassword. case_match; [done|]. eapply rg_bind.
  - apply (rg_query _ (fun seen t => match seen with
      | Some (k, now, found, stamp) => exists uid, found_row k uid now t /\ found_all uid found stamp t
      | None => True end)).
    + intros [[[[k now] found] stamp]|] t t' Hm; [|done]. intros (uid & ? & ?). exists uid. split; [by eapply found_row_moves|by eapply found_all_moves].
    + intros t W. destruct (find_reset _ _ t) as [[k r]|] eqn:Hf; [|done]. exists (r_user r). split; [by eapply find_reset_spec|apply found_all_here].
  - intros [[[[[k now] found] stamp]|]|e]; [|done|done]. destruct (hash_password pw salt) as [hash|]; [|done].
    apply safe_stmt. intros d HP (uid & ? & ?). by eapply consume_reset_keeps.
Qed.

Lemma keeps_refl q : (forall t, acc_wf t -> acc_wf (q t) /\ acc_moves t (q t)) -> acc_keeps q.
Proof. done. Qed.

Lemma auth_prog_safe wait op : acc_safe (auth_prog wait op).
Proof.
  destruct op; cbn [auth_prog]; try apply rg_ignore.
  - unfold Register. destruct (negb (ValidEmailFormat _)); [done|]. destruct (negb (strong _)); [done|]. destruct (hash_password _ _); [|done]. apply safe_stmt. intros d HP _. by apply register_keeps.
  - unfold CreateOAuthUser. case_match; [done|]. apply safe_stmt. intros d HP _. by apply create_oauth_user_keeps.
  - apply safe_exec. intros t. by apply update_user_keeps.
  - apply safe_exec. intros t. by apply update_user_keeps.
  - apply safe_exec. intros t. by apply update_user_keeps.
  - unfold TransferInstanceAdmin. eapply rg_bind; [apply safe_UserByEmail|]. intros [toUID|e]; [|done].
    destruct (Z.eqb_spec toUID fromUID) as [|Hne]; [done|]. eapply rg_bind; [|by intros []]. apply safe_stmt.
    intros d HP _. apply transfer_keeps; [done|congruence].
  - unfold ChangePassword. apply safe_query. intros [u|e]; [|done]. destruct (mbind u_hash u) as [hash|]; [|done].
    destruct (VerifyPassword oldPassword hash) as [[[]|]|]; try done. case_match; [done|]. case_match; [apply safe_replace|done].
  - unfold SetPassword. case_match; [done|]. case_match; [|done]. eapply rg_bind.
    + apply safe_stmt. intros d HP _. unfold set_first_password. case_match; [|done]. case_match; [done|]. by apply update_user_keeps.
    + intros [n|e]; [|done]. case_match; [|done]. apply safe_query. by intros [[u|]|e].
  - unfold RequestPasswordReset. eapply rg_bind; [apply safe_UserByEmail|]. intros [uid|e]; [|by destruct e].
    apply safe_query. intros [found|e]; [|done].
    apply (safe_now_stmt (fun now => insert_reset uid (tokenHash token) (now + PasswordResetTTL) found)); [|by intros now []].
    intros now t Hnow W. apply insert_reset_keeps; [done|lia].
  - apply safe_ResetPassword.
  - unfold AdminSetPassword. case_match; [done|]. eapply rg_bind; [apply safe_UserByEmail|]. intros [uid|e]; [|done].
    case_match; [apply safe_replace|done].
  - apply (safe_now_stmt (fun now => insert_session (tokenHash token) uid (now + SessionTTL))); [|by intros now []].
    intros now t _ W. by apply insert_session_keeps.
  - apply safe_exec. intros t W. apply shrink_sessions_keeps; [done|apply delete_subseteq].
  - apply safe_stmt. intros d HP _. apply shrink_sessions_keeps; [done|apply map_filter_subseteq].
  - apply safe_stmt. intros d HP _. by apply link_keeps.
  - apply safe_exec. intros t. by apply update_identity_keeps.
  - apply safe_stmt. intros d HP _. cbv beta zeta. destruct (existsb _ _); [|done]. apply shrink_identities_keeps; [done|apply map_filter_subseteq].
  - apply safe_polling. intros t t' W [= <-]. by apply DeleteUser_keeps.
  - apply safe_polling. intros t t'. by apply self_delete_keeps.
  - unfold Janitor_tick. eapply rg_bind.
    + apply safe_stmt. intros d HP _. apply shrink_sessions_keeps; [done|apply map_filter_subseteq].
    + intros ?. eapply rg_bind; [|by intros ?]. apply safe_stmt. intros d HP _. apply shrink_resets_keeps; [done|apply map_filter_subseteq].
Qed.
End operations.

(** ** Theorems *)

(** Statements on other tables, and the clock. *)
Definition acc_env {D} `{Has Accounts D} (d d' : D) : Prop :=
  let t := get d in exists now, acc_now t <= now /\
    get d' = mkAccounts (users t) (next_user t) (sessions t) (password_resets t) (next_reset t) (user_identities t) now
               (tick t) (consumed t) (orphaned t).

Lemma acc_reach `{UC : Unicode, FC : Folding, AC : Argon2} {D} `{Has Accounts D, Has Orgs D} wait (d0 : D) (s : pool D) :
  acc_wf (get d0) ->
  rtc (pool_step (fun p => exists op, p = auth_prog wait op) acc_env) (Pool d0 [] 0) s -> acc_wf (get (shared s)).
Proof.
  intros HW Hr. eapply (rg_pool (fun d : D => acc_wf (get d)) (fun d d' : D => acc_moves (get d) (get d'))); [| |exact HW|exact Hr].
  - intros p [op ->]. apply auth_prog_safe.
  - intros d d' (now & Hnow & ->) [[] [] [] []]. split; [constructor|]; constructor; cbn; try done; try lia.
    + intros h s' Hs. by left.
    + intros k r Hr'. right. by exists r.
Qed.


(** C3: a replaced password ends every session there was. However logins,
    password changes and resets interleave, statement by statement, with
    crashes and lost replies: a session that is honoured belongs to an account
    that exists, has not expired, and was created after the newest
    replacement of the account's password had begun to delete sessions; a
    reset link replaces a password at most once, before it expires and so
    within an hour. *)
Theorem sessions_justified `{UC : Unicode, FC : Folding, AC : Argon2} {D} `{Has Accounts D, Has Orgs D} (wait : nat) (d0 : D) (s : pool D) :
  acc_wf (get d0) ->
  rtc (pool_step (fun p => exists op, p = auth_prog wait op) acc_env) (Pool d0 [] 0) s ->
  let t := get (shared s) in
  (forall token uid, session_user token t = Some uid -> exists r u,
     sessions t !! tokenHash token = Some r /\ s_user r = uid /\ acc_now t < s_expires r /\
     users t !! uid = Some u /\ killed u <= s_tick r) /\
  NoDup (map (fun c => c.1.1) (consumed t)) /\ Forall (reset_used_ok t) (consumed t).
Proof.
  intros HW Hr t. destruct (acc_reach wait d0 s HW Hr) as [_ [] [] _]. split; [|by split].
  intros token uid. unfold session_user. destruct (sessions t !! tokenHash token) as [r|] eqn:Hs; [|done].
  destruct (live_session (acc_now t) r) eqn:Hl; [|done]. intros [= <-]. destruct (sw_user0 _ _ Hs) as (u & Hu & Hk).
  exists r, u. apply Z.ltb_lt in Hl. done.
Qed.

#[local] Instance ex_runes : Unicode := {| rune_lower := fun r => r; rune_upper := fun r => r; letter_or_number := fun _ => false |}.
#[local] Existing Instances ex_folding ex_argon.

Definition ex_accounts : Accounts * Orgs := (mkAccounts ∅ 1 ∅ ∅ 1 ∅ 1000 0 [] false, ex_orgs).

Lemma ex_accounts_wf : acc_wf (get ex_accounts).
Proof.
  constructor; constructor; intros; cbn in *; try done; try (by rewrite lookup_empty in *); try constructor.
Qed.

Definition ex_auth (op : auth_op) : prog (Accounts * Orgs) () := auth_prog 2 op.
Definition ex_run (n : nat) : list (pool_move (D := Accounts * Orgs)) := replicate n (MStep 0 FNone).

Lemma ex_auth_starts (ms : list (pool_move (D := Accounts * Orgs))) :
  Forall (fun m => match m with MStart p => exists op, p = ex_auth op | _ => True end) ms ->
  Forall (starts (fun p => exists op, p = auth_prog 2 op)) ms.
Proof. intros Hms. eapply Forall_impl; [exact Hms|]. by intros []. Qed.

(** Two accounts; the first hands its role over and leaves. *)
Definition ex_admin_moves : list (pool_move (D := Accounts * Orgs)) :=
  MStart (ex_auth (OpRegister "Ann@x.io" "correct horse" ex_salt)) :: ex_run 1 ++
  MStart (ex_auth (OpRegister "bob@x.io" "battery staple" ex_salt)) :: ex_run 1 ++
  MStart (ex_auth (OpTransferInstanceAdmin 1 " BOB@x.io")) :: ex_run 2 ++
  MStart (ex_auth (OpDeleteSelfAccount 1)) :: ex_run 1.


(** A session from before, a reset, and a login between its two statements. *)
Definition ex_reset_moves : list (pool_move (D := Accounts * Orgs)) :=
  MStart (ex_auth (OpRegister "Ann@x.io" "correct horse" ex_salt)) :: ex_run 1 ++
  MStart (ex_auth (OpCreateSession 1 "s1")) :: ex_run 2 ++
  MStart (ex_auth (OpRequestPasswordReset "ann@x.io" "r1")) :: ex_run 4 ++ [MDie 0] ++
  MStart (ex_auth (OpResetPassword "r1" "battery staple" ex_salt)) :: ex_run 1 ++
  MStart (ex_auth (OpCreateSession 1 "s2")) :: ex_run 2 ++ [MDie 0] ++ ex_run 1.

Lemma sessions_justified_witness :
  exists s : pool (Accounts * Orgs),
    session_user "s1" (shared s).1 = None /\ session_user "s2" (shared s).1 = Some 1 /\
    (forall token uid, session_user token (get (shared s)) = Some uid -> exists r u,
       sessions (get (shared s)) !! tokenHash token = Some r /\ s_user r = uid /\ acc_now (get (shared s)) < s_expires r /\
       users (get (shared s)) !! uid = Some u /\ killed u <= s_tick r) /\
    NoDup (map (fun c => c.1.1) (consumed (get (shared s)))) /\ Forall (reset_used_ok (get (shared s))) (consumed (get (shared s))).
Proof.
  destruct (play ex_reset_moves (Pool ex_accounts [] 0)) as [s|] eqn:Hs; [|vm_compute in Hs; discriminate Hs].
  exists s. split; [by vm_compute in Hs; injection Hs as <-|]. split; [by vm_compute in Hs; injection Hs as <-|].
  apply (sessions_justified 2 ex_accounts s); [exact ex_accounts_wf|].
  refine (play_reach _ _ ex_reset_moves _ _ _ Hs). apply ex_auth_starts. repeat constructor; by eexists.
Defined.

(** Two requests for the same account at the same time: neither [DELETE]
    finds the other's token, and both links work. *)
Definition ex_two_requests : list (pool_move (D := Accounts * Orgs)) :=
  MStart (ex_auth (OpRegister "Ann@x.io" "correct horse" ex_salt)) :: ex_run 1 ++ [MDie 0] ++
  MStart (ex_auth (OpRequestPasswordReset "ann@x.io" "r1")) :: MStart (ex_auth (OpRequestPasswordReset "ann@x.io" "r2")) ::
  ex_run 3 ++ replicate 3 (MStep 1 FNone) ++ ex_run 1 ++ [MStep 1 FNone].

Lemma RequestPasswordReset_two_live :
  exists s : pool (Accounts * Orgs), rtc (pool_step (fun p => exists op, p = auth_prog 2 op) acc_env) (Pool ex_accounts [] 0) s /\
    forallb (fun token => negb (is_nil (find_reset (tokenHash token) (acc_now (shared s).1) (shared s).1))) ["r1"; "r2"] = true.
Proof.
  destruct (play ex_two_requests (Pool ex_accounts [] 0)) as [s|] eqn:Hs; [|vm_compute in Hs; discriminate Hs].
  exists s. split; [|by vm_compute in Hs; injection Hs as <-].
  refine (play_reach _ _ ex_two_requests _ _ _ Hs). apply ex_auth_starts. repeat constructor; by eexists.
Qed.

(** The first account of an instance is made through a provider: it is no
    administrator, and whoever registers later is none either. *)
Definition ex_oauth_first : list (pool_move (D := Accounts * Orgs)) :=
  MStart (ex_auth (OpCreateOAuthUser "ann@x.io")) :: ex_run 1 ++
  MStart (ex_auth (OpRegister "bob@x.io" "battery staple" ex_salt)) :: ex_run 1 ++
  MStart (ex_auth (OpTransferInstanceAdmin 1 "bob@x.io")) :: ex_run 2.

Lemma CreateOAuthUser_no_admin :
  exists s : pool (Accounts * Orgs), rtc (pool_step (fun p => exists op, p = auth_prog 2 op) acc_env) (Pool ex_accounts [] 0) s /\
    size (users (shared s).1) = 2%nat /\ admins (shared s).1 = [].
Proof.
  destruct (play ex_oauth_first (Pool ex_accounts [] 0)) as [s|] eqn:Hs; [|vm_compute in Hs; discriminate Hs].
  exists s. split; [|by vm_compute in Hs; injection Hs as <-].
  refine (play_reach _ _ ex_oauth_first _ _ _ Hs). apply ex_auth_starts. repeat constructor; by eexists.
Qed.
