(* ===== verification/Login.v ===== *)
(** Ways in: [internal/org/sso.go] and the handlers of [internal/web] that
    open a session -- auth.go, oauthflow.go and sso.go.

    A handler is given what net/http read from the request; what it answers
    is a [response].  [Identity] is what the exchange with the provider
    returned, if it did; the signed cookie of a flow is given parsed and
    verified, or not at all. *)
From stdpp Require Import base tactics list gmap strings sorting pretty.
From Stdlib Require Import ZArith Lia Ascii.
From S2P Require Import Prelude.
From S2P Require Import GoString.
From S2P Require Import Prog.
From S2P Require Import Secretbox.
From S2P Require Import Password.
From S2P Require Import Org.
From S2P Require Import Invite.
From S2P Require Import Auth.

Open Scope Z_scope.
Open Scope go_scope.

(** ** Single sign-on of an organisation *)

Record SSOConfig := mkSSO {
  sso_OrgID : Z; Issuer : string; ClientID : string; ClientSecret : string; sso_Domain : string;
  DefaultRole : string; Enforced : bool }.

Inductive sso_error := ErrDomainTaken | ErrInvalidSSO | ErrSSORole | ErrSSOSecret (e : box_error) | ErrNoMasterKey | ErrSSOSQL.

(** What a callback needs of a configuration; kept in memory for a while. *)
Record ssoMeta := mkMeta { m_OrgID : Z; m_Domain : string; m_DefaultRole : string }.

Definition ssoCacheTTL : Z := 5 * minute.

Record SSOTable := mkSSOTable {
  org_sso : gmap Z SSOConfig; (** the secrets as stored *)
  entries : gmap Z (ssoMeta * Z); (** [ssoCache]: until when *)
  sso_now : Z }.

(** The service's ring, if [SetKeyring] was called, and whether [net/url]
    finds an https address with a host. *)
Class SSOEnv := { ring : option Keyring; https_url : string -> bool }.

Section sso.
Context `{Unicode, Folding, Box, SSOEnv} {D : Type} `{Has SSOTable D}.

Definition normalizeDomain (d : string) : string := ToLower (TrimSpace d).

Definition upsert_sso (c : SSOConfig) (t : SSOTable) : result sso_error () * SSOTable :=
  if existsb (fun '(o, c') => negb (o =? sso_OrgID c) && citext_eq (sso_Domain c') (sso_Domain c)) (map_to_list (org_sso t))
  then (Err ErrDomainTaken, t)
  else (Ok tt, mkSSOTable (<[sso_OrgID c := c]> (org_sso t)) (entries t) (sso_now t)).

Definition with_secret (c : SSOConfig) (secret : string) : SSOConfig :=
  mkSSO (sso_OrgID c) (Issuer c) (ClientID c) secret (sso_Domain c) (DefaultRole c) (Enforced c).

Definition UpsertSSO (cfg : SSOConfig) (nonce : option bytes) : prog D (result sso_error ()) :=
  let domain := normalizeDomain (sso_Domain cfg) in
  if String.eqb (Issuer cfg) "" || String.eqb (ClientID cfg) "" || String.eqb (ClientSecret cfg) "" || String.eqb domain ""
  then mret (Err ErrInvalidSSO) else
  if negb (https_url (Issuer cfg)) then mret (Err ErrInvalidSSO) else
  let role := if String.eqb (DefaultRole cfg) "" then RoleMember else DefaultRole cfg in
  if negb (String.eqb role RoleAdmin) && negb (String.eqb role RoleMember) then mret (Err ErrSSORole) else
  match (match ring with Some r => Seal r nonce (ClientSecret cfg) | None => Ok (ClientSecret cfg) end) with
  | Err e => mret (Err (ErrSSOSecret e))
  | Ok stored => callE ErrSSOSQL (on (upsert_sso (mkSSO (sso_OrgID cfg) (Issuer cfg) (ClientID cfg) stored domain role (Enforced cfg))))
  end.

Definition decryptSSO (c : SSOConfig) : result sso_error SSOConfig :=
  match ring with
  | None => if IsEncrypted (ClientSecret c) then Err ErrNoMasterKey else Ok c
  | Some r => match Open r (ClientSecret c) with Ok s => Ok (with_secret c s) | Err e => Err (ErrSSOSecret e) end
  end.

Definition opened (c : option SSOConfig) : result sso_error (option SSOConfig) :=
  match c with
  | None => Ok None
  | Some c => match decryptSSO c with Ok c => Ok (Some c) | Err e => Err e end
  end.

Definition SSOByOrg (orgID : Z) : prog D (result sso_error (option SSOConfig)) :=
  tryE: c ← ask ErrSSOSQL (fun d : D => org_sso (get d) !! orgID) catch err => mret (Err err);
  mret (opened c).

Definition sso_by_domain (domain : string) (t : SSOTable) : option SSOConfig :=
  head (List.filter (fun c => citext_eq (sso_Domain c) domain) (map snd (map_to_list (org_sso t)))).

Definition SSOByDomain (domain : string) : prog D (result sso_error (option SSOConfig)) :=
  let domain := normalizeDomain domain in
  if String.eqb domain "" then mret (Ok None) else
  tryE: c ← ask ErrSSOSQL (fun d : D => sso_by_domain domain (get d)) catch err => mret (Err err);
  mret (opened c).

Definition DeleteSSO (orgID : Z) : prog D (result sso_error ()) :=
  call ErrSSOSQL (on (fun t : SSOTable => (tt, mkSSOTable (delete orgID (org_sso t)) (entries t) (sso_now t)))).

(** ** The cache of providers *)

Definition ssoCache_get (orgID now : Z) (t : SSOTable) : option ssoMeta :=
  match entries t !! orgID with Some (m, expires) => if now <? expires then Some m else None | None => None end.
Definition ssoCache_put (orgID : Z) (m : ssoMeta) (now : Z) (t : SSOTable) : SSOTable :=
  mkSSOTable (org_sso t) (<[orgID := (m, now + ssoCacheTTL)]> (entries t)) (sso_now t).
Definition ssoCache_invalidate (orgID : Z) (t : SSOTable) : SSOTable :=
  mkSSOTable (org_sso t) (delete orgID (entries t)) (sso_now t).

(** [LastIndexByte], and all dots at the end cut off. *)
Definition emailDomain (email : string) : string :=
  let l := chars_of (ToLower (TrimSpace email)) in
  match last_index "@" l with
  | None => ""
  | Some i => let d := drop (S i) l in
              if bool_decide (d = []) then "" else text (rev (drop (span (fun c => Ascii.eqb c ".") (rev d)) (rev d)))
  end.

Definition enforcedSSO (domain : string) : prog D (result sso_error bool) :=
  if String.eqb domain "" then mret (Ok false) else
  tryE: c ← SSOByDomain domain catch err => mret (Err err);
  mret (Ok (match c with Some c => Enforced c | None => false end)).
End sso.

(** ** Requests and answers *)

Inductive response :=
| Refused (status : Z)
| Redirect (dest : string)
| LoggedIn (uid : Z) (token : string) (dest : string). (** the cookie is set *)

Record OAuthIdentity := mkOAuthIdentity { Subject : string; Email : string; EmailVerified : bool; TrustedIssuer : bool }.
Record oauthFlow := mkFlow { f_Provider : string; f_State : string; f_Link : bool; f_UID : Z; f_IssuedAt : Z }.

Definition oauthFlowTTL : Z := 600.
Definition flow_fresh (nowUnix : Z) (f : oauthFlow) : bool :=
  negb ((oauthFlowTTL <? nowUnix - f_IssuedAt f) || (nowUnix <? f_IssuedAt f)).

Definition ssoProviderPrefix : string := "sso-".

(** [strconv.ParseInt(s, 10, 64)] *)
Definition parse_int (l : chars) : option Z :=
  let '(neg, l) := match l with
                   | c :: r => if Ascii.eqb c "-" then (true, r) else if Ascii.eqb c "+" then (false, r) else (false, l)
                   | [] => (false, [])
                   end in
  match scan_digits l with
  | Some (n, []) => if neg then (if n <=? 2 ^ 63 then Some (- n) else None) else if n <? 2 ^ 63 then Some n else None
  | _ => None
  end.

Definition isLocalPath (p : string) : bool :=
  HasPrefix p "/" && negb (HasPrefix p "//") && negb (HasPrefix p "/\") &&
  forallb (fun c => (32 <=? byte_of c) && negb (byte_of c =? 127)) (chars_of p).

Definition redirectLocal (dest : string) : string := if isLocalPath dest then dest else "/".

(** [/invite/{token}] *)
Definition inviteTokenFromNext (next : string) : option string :=
  match CutPrefix "/invite/" next with
  | None => None
  | Some token =>
      if String.eqb token "" || existsb (fun c => existsb (Ascii.eqb c) (chars_of "/?#")) (chars_of token) then None else Some token
  end.

(** [None] is not served at all: the origin, the form or a limiter said no. *)
Record Request := mkRequest {
  q_admitted : bool; q_email : string; q_password : string; q_password2 : string; q_next : string;
  q_session : option string; q_cookie : option oauthFlow; q_state : string; q_code : string;
  q_fresh : string; (** what [rand.Read] gives for a session token *)
  q_salt : bytes; q_nowUnix : Z }.

(** The configured providers, the registration mode, and whether a secret key
    is set. *)
Class WebConfig := { registry : string -> bool; RegistrationMode : string; secret_set : bool }.

Section handlers.
Context `{Unicode, Folding, Argon2, Box, SSOEnv, WebConfig}.
Context {D : Type} `{Has Accounts D, Has Orgs D, Has Invites D, Has SSOTable D}.
Variable wait : nat.

Definition oauthLogin (uid : Z) (q : Request) (dest : string) : prog D response :=
  tryE: token ← CreateSession uid (q_fresh q) catch err => mret (Refused 500);
  mret (LoggedIn uid token dest).

Definition sessionUID (q : Request) : prog D (option Z) :=
  match q_session q with
  | None => mret None
  | Some token => r ← SessionUser token; mret (match r with Ok uid => Some uid | Err _ => None end)
  end.

Definition resolveProvider (name : string) : prog D (option (option ssoMeta)) :=
  match CutPrefix ssoProviderPrefix name with
  | None => mret (if registry name then Some None else None)
  | Some rest =>
      match parse_int (chars_of rest) with
      | None => mret None
      | Some orgID =>
          now ← pgets (fun d : D => sso_now (get d));
          hit ← pgets (fun d : D => ssoCache_get orgID now (get d));
          match hit with
          | Some m => mret (Some (Some m))
          | None =>
              c ← SSOByOrg orgID;
              match c with
              | Ok (Some c) =>
                  let m := mkMeta orgID (sso_Domain c) (DefaultRole c) in
                  _u ← pmodify (fun d : D => put (ssoCache_put orgID m now (get d)) d);
                  mret (Some (Some m))
              | _ => mret None
              end
          end
      end
  end.

(** ** Passwords *)

Definition loginSubmit (q : Request) (next : string) : prog D response :=
  if negb (q_admitted q) then mret (Refused 429) else
  tryE: enforced ← enforcedSSO (emailDomain (q_email q)) catch err => mret (Refused 500);
  if (enforced : bool) then mret (Refused 422) else
  tryE: uid ← Authenticate (q_email q) (q_password q) catch err => mret (Refused 422);
  tryE: token ← CreateSession uid (q_fresh q) catch err => mret (Refused 500);
  mret (LoggedIn uid token (redirectLocal next)).

(** Whether the registration may go on, or what is answered. *)
Definition invitedByToken (next email : string) : prog D (result response ()) :=
  if negb (String.eqb RegistrationMode "invite") then mret (Err (Refused 403)) else
  match inviteTokenFromNext next with
  | None => mret (Err (Refused 403))
  | Some token =>
      inv ← InviteByToken token;
      match inv with
      | Err ErrInviteInvalid => mret (Err (Refused 403))
      | Err _ => mret (Err (Refused 500))
      | Ok (_, _, invited, _) => if EqualFold invited email then mret (Ok tt) else mret (Err (Refused 403))
      end
  end.

Definition registerSubmit (q : Request) (next : string) : prog D response :=
  if negb (q_admitted q) then mret (Refused 429) else
  tryE: _g ←
    (if String.eqb RegistrationMode "open" then mret (Ok tt) else
     tryE: n ← UserCount catch err => mret (Err (Refused 500));
     if 0 <? n then invitedByToken next (normalizeEmail (q_email q)) else mret (Ok tt))
    catch resp => mret resp;
  if negb (String.eqb (q_password q) (q_password2 q)) then mret (Refused 422) else
  tryE: enforced ← enforcedSSO (emailDomain (q_email q)) catch err => mret (Refused 500);
  if (enforced : bool) then mret (Refused 422) else
  tryE: uid ← Register (q_email q) (q_password q) (q_salt q) catch err => mret (Refused 422);
  tryE: token ← CreateSession uid (q_fresh q) catch err => mret (Refused 500);
  mret (LoggedIn uid token (redirectLocal next)).

Definition logout (q : Request) : prog D response :=
  if negb (q_admitted q) then mret (Refused 403) else
  match q_session q with
  | Some token => _d ← DestroySession token; mret (Redirect "/login")
  | None => mret (Redirect "/login")
  end.

Definition ssoSubmit (q : Request) : prog D response :=
  if negb (q_admitted q) then mret (Refused 429) else
  tryE: c ← SSOByDomain (emailDomain (q_email q)) catch err => mret (Refused 500);
  mret (match c with
        | Some c => Redirect ("/auth/oauth/" ++ ssoProviderPrefix ++ pretty (sso_OrgID c) ++ "/start")%string
        | None => Refused 422
        end).

(** ** Providers *)

Definition linked (r : result auth_error ()) : bool := match r with Ok _ | Err ErrAlreadyLinked => true | Err _ => false end.

Definition oauthProvision (name : string) (id : OAuthIdentity) (q : Request) : prog D response :=
  if String.eqb RegistrationMode "closed" then mret (Refused 403) else
  if negb (EmailVerified id) then mret (Refused 403) else
  if negb (TrustedIssuer id) then mret (Refused 403) else
  if String.eqb RegistrationMode "open" then
    tryE: uid ← CreateOAuthUser (Email id) catch err => mret (Refused 500);
    tryE: _l ← LinkIdentity uid name (Subject id) (Email id) catch err => (_d ← DeleteUser wait uid; mret (Refused 500));
    _j ← AcceptPendingInviteByEmail (Email id) uid;
    oauthLogin uid q "/"
  else
    tryE: has ← HasPendingInvite (Email id) catch err => mret (Refused 500);
    if negb has then mret (Refused 403) else
    tryE: uid ← CreateOAuthUser (Email id) catch err => mret (Refused 500);
    tryE: _l ← LinkIdentity uid name (Subject id) (Email id) catch err => (_d ← DeleteUser wait uid; mret (Refused 500));
    j ← AcceptPendingInviteByEmail (Email id) uid;
    match j with
    | Ok (Some _) => oauthLogin uid q "/"
    | _ => _d ← DeleteUser wait uid; mret (Refused 403)
    end.

(** Who is asked to be linked: the cookie and the session must agree. *)
Definition link_target (flow : oauthFlow) (q : Request) : prog D (result response Z) :=
  s ← sessionUID q;
  mret (match s with
        | None => Err (Redirect "/login")
        | Some uid => if f_UID flow =? uid then Ok uid else Err (Refused 400)
        end).

Definition ssoCallback (name : string) (id : OAuthIdentity) (m : ssoMeta) (flow : oauthFlow) (q : Request) : prog D response :=
  if negb (EmailVerified id) then mret (Refused 403) else
  if negb (String.eqb (emailDomain (Email id)) (m_Domain m)) then mret (Refused 403) else
  tryE: sessionUID ← (if f_Link flow then link_target flow q else mret (Ok 0)) catch resp => mret resp;
  i ← IdentityUser name (Subject id);
  match i with
  | Ok uid =>
      if f_Link flow && negb (uid =? sessionUID) then mret (Refused 409) else
      _u ← UpdateIdentityEmail name (Subject id) (Email id);
      tryE: _m ← EnsureMember (m_OrgID m) uid (m_DefaultRole m) catch err => mret (Refused 500);
      if f_Link flow then mret (Redirect "/profile") else oauthLogin uid q "/"
  | Err ErrNoIdentity =>
      if f_Link flow then
        l ← LinkIdentity sessionUID name (Subject id) (Email id);
        match l with
        | Err ErrIdentityTaken => mret (Refused 409)
        | _ => if linked l then
                 tryE: _m ← EnsureMember (m_OrgID m) sessionUID (m_DefaultRole m) catch err => mret (Refused 500);
                 mret (Redirect "/profile")
               else mret (Refused 500)
        end
      else
        u ← UserByEmail (Email id);
        match u with
        | Ok _ => mret (Refused 403)
        | Err ErrUserNotFound =>
            tryE: uid ← CreateOAuthUser (Email id) catch err => mret (Refused 500);
            l ← LinkIdentity uid name (Subject id) (Email id);
            if negb (linked l) then mret (Refused 500) else
            tryE: _m ← EnsureMember (m_OrgID m) uid (m_DefaultRole m) catch err => mret (Refused 500);
            oauthLogin uid q "/"
        | Err _ => mret (Refused 500)
        end
  | Err _ => mret (Refused 500)
  end.

Definition oauthCallback (name : string) (exchange : option OAuthIdentity) (q : Request) : prog D response :=
  p ← resolveProvider name;
  match p with
  | None => mret (Refused 404)
  | Some sso =>
      match q_cookie q with
      | None => mret (Refused 400)
      | Some flow =>
          if negb secret_set then mret (Refused 500) else
          if negb (flow_fresh (q_nowUnix q) flow) || negb (String.eqb (f_Provider flow) name) then mret (Refused 400) else
          if String.eqb (f_State flow) "" || negb (String.eqb (q_state q) (f_State flow)) then mret (Refused 400) else
          if String.eqb (q_code q) "" then mret (Refused 502) else
          match exchange with
          | None => mret (Refused 502)
          | Some id =>
              if String.eqb (Subject id) "" || String.eqb (Email id) "" then mret (Refused 502) else
              match sso with
              | Some m => ssoCallback name id m flow q
              | None =>
                  tryE: enforced ← enforcedSSO (emailDomain (Email id)) catch err => mret (Redirect "/sso");
                  if (enforced : bool) then mret (Redirect "/sso") else
                  i ← IdentityUser name (Subject id);
                  match i with
                  | Ok uid => _u ← UpdateIdentityEmail name (Subject id) (Email id); oauthLogin uid q "/"
                  | Err ErrNoIdentity =>
                      if f_Link flow then
                        tryE: uid ← link_target flow q catch resp => mret resp;
                        l ← LinkIdentity uid name (Subject id) (Email id);
                        mret (match l with
                              | Ok _ | Err ErrAlreadyLinked => Redirect "/profile"
                              | Err ErrIdentityTaken => Refused 409
                              | Err _ => Refused 500
                              end)
                      else
                        u ← UserByEmail (Email id);
                        match u with
                        | Ok uid =>
                            if negb (EmailVerified id) || negb (TrustedIssuer id) then mret (Refused 403) else
                            l ← LinkIdentity uid name (Subject id) (Email id);
                            if negb (linked l) then mret (Refused 500) else oauthLogin uid q "/"
                        | Err ErrUserNotFound => oauthProvision name id q
                        | Err _ => mret (Refused 500)
                        end
                  | Err _ => mret (Refused 500)
                  end
              end
          end
      end
  end.
End handlers.

(** ** Runs *)

(** A handler alone, whatever fails: what it answers and leaves. *)
Definition from {D A} (d : D) (p : prog D A) (Φ : A -> D -> Prop) : Prop :=
  forall fs a s', exec p (Sys d fs) = (a, s') -> Φ a (db s').

Lemma from_ret {D A} (d : D) (a : A) (Φ : A -> D -> Prop) : Φ a d -> from d (mret a) Φ.
Proof. intros Ha fs a' s'. cbn. intros [= <- <-]. done. Qed.

Lemma from_bind {D A B} (d : D) (p : prog D A) (k : A -> prog D B) Ψ Φ :
  from d p Ψ -> (forall a d', Ψ a d' -> from d' (k a) Φ) -> from d (mbind k p) Φ.
Proof.
  intros Hp Hk fs b s' (a & [d1 fs1] & H1 & H2)%exec_bind_inv. apply (Hk a d1 (Hp fs a _ H1) fs1 b s' H2).
Qed.

Lemma from_any {D A B} (d : D) (p : prog D A) (k : A -> prog D B) Φ :
  (forall a d', from d' (k a) Φ) -> from d (mbind k p) Φ.
Proof. intros Hk. by apply (from_bind d p k (fun _ _ => True)). Qed.

Lemma from_mono {D A} (d : D) (p : prog D A) (Ψ Φ : A -> D -> Prop) :
  from d p Ψ -> (forall a d', Ψ a d' -> Φ a d') -> from d p Φ.
Proof. intros Hp Hm fs a s' He. apply Hm, (Hp fs a s' He). Qed.

Lemma from_callE {D E A} (d : D) (e : E) (q : D -> result E A * D) (Φ : result E A -> D -> Prop) :
  (forall d', Φ (Err e) d') -> Φ (q d).1 (q d).2 -> from d (callE e q) Φ.
Proof.
  intros He Hq fs a s'. cbn. destruct (next_fault fs) as [[] fs']; intros [= <- <-]; [exact Hq|apply He..].
Qed.

(** A query: its answer or an error, and nothing changed. *)
Definition answers {D E A} (d : D) (e : E) (x : A) (r : result E A) (d' : D) : Prop := d' = d /\ (r = Ok x \/ r = Err e).

Lemma from_ask {D E A} (d : D) (e : E) (q : D -> A) : from d (ask e q) (answers d e (q d)).
Proof. intros fs a s'. cbn. destruct (next_fault fs) as [[] fs']; intros [= <- <-]; (split; [done|]); auto. Qed.

Lemma from_pgets {D A} (d : D) (f : D -> A) : from d (pgets f) (fun a d' => a = f d /\ d' = d).
Proof. intros fs a s'. cbn. destruct (next_fault fs). by intros [= <- <-]. Qed.

(** ** Who is let in *)
Section justified.
Context {UC : Unicode} {FC : Folding} {AC : Argon2} {BC : Box} {SC : SSOEnv} {WC : WebConfig}.
Context {D : Type} {HA : Has Accounts D} {HO : Has Orgs D} {HI : Has Invites D} {HS : Has SSOTable D}.
Variable wait : nat.

Inductive way := ByPassword (next : string) | ByRegistration (next : string) | ByProvider (name : string) (exchange : option OAuthIdentity).

Definition handle (w : way) (q : Request) : prog D response :=
  match w with
  | ByPassword next => loginSubmit q next
  | ByRegistration next => registerSubmit q next
  | ByProvider name exchange => oauthCallback wait name exchange q
  end.

Definition enforced_for (email : string) (t : SSOTable) : Prop :=
  let domain := normalizeDomain (emailDomain email) in
  domain <> "" /\ exists c, sso_by_domain domain t = Some c /\ Enforced c = true.

(** The invitation to this token, or one to this address. *)
Definition invited_by (token email : string) (t : Invites) : Prop :=
  exists i, i ∈ invites_where (pending (inv_now t)) t /\ i_hash i = inviteTokenHash token /\ EqualFold (i_email i) email = true.
Definition invited_to (email : string) (t : Invites) : Prop :=
  exists i, i ∈ invites_where (pending (inv_now t)) t /\ citext_eq (i_email i) email = true.

Definition by_password (email password : string) (uid : Z) (t : Accounts) : Prop :=
  exists u hash, user_by_email (normalizeEmail email) t = Some (uid, u) /\ u_hash u = Some hash /\
    VerifyPassword password hash = Some (Ok true).

Definition by_registration (next email : string) (d : D) (uid : Z) : Prop :=
  uid = next_user (get (T := Accounts) d) /\ user_by_email (normalizeEmail email) (get d) = None /\
  (RegistrationMode = "open" \/ users (get d) = ∅ \/
   RegistrationMode = "invite" /\ exists token, inviteTokenFromNext next = Some token /\ invited_by token (normalizeEmail email) (get d)).

(** The identity was linked before, or to this very account. *)
Definition by_identity (name : string) (id : OAuthIdentity) (uid : Z) (t : Accounts) : Prop :=
  id_user <$> user_identities t !! (name, Subject id) = Some uid.

Definition vouched (id : OAuthIdentity) : Prop := EmailVerified id = true /\ TrustedIssuer id = true.

Definition by_address (id : OAuthIdentity) (uid : Z) (t : Accounts) : Prop :=
  vouched id /\ exists u, user_by_email (normalizeEmail (Email id)) t = Some (uid, u).

Definition by_provision (id : OAuthIdentity) (uid : Z) (d : D) : Prop :=
  vouched id /\ uid = next_user (get (T := Accounts) d) /\ user_by_email (normalizeEmail (Email id)) (get d) = None /\
  (RegistrationMode = "open" \/ RegistrationMode <> "closed" /\ invited_to (Email id) (get d)).

Definition known_sso (name : string) (m : ssoMeta) (t : SSOTable) : Prop :=
  exists rest orgID, CutPrefix ssoProviderPrefix name = Some rest /\ parse_int (chars_of rest) = Some orgID /\
    (ssoCache_get orgID (sso_now t) t = Some m \/
     exists c, org_sso t !! orgID = Some c /\ m = mkMeta orgID (sso_Domain c) (DefaultRole c)).

Definition by_sso (name : string) (id : OAuthIdentity) (uid : Z) (d : D) (o : Orgs) : Prop :=
  exists m, known_sso name m (get d) /\ EmailVerified id = true /\ emailDomain (Email id) = m_Domain m /\
    is_Some (org_members o !! (m_OrgID m, uid)) /\
    (by_identity name id uid (get d) \/
     uid = next_user (get (T := Accounts) d) /\ user_by_email (normalizeEmail (Email id)) (get d) = None).

Definition flow_ok (name : string) (q : Request) : Prop :=
  exists flow, q_cookie q = Some flow /\ flow_fresh (q_nowUnix q) flow = true /\ f_Provider flow = name /\
    f_State flow <> "" /\ q_state q = f_State flow.

Definition justified (w : way) (q : Request) (d : D) (uid : Z) (o : Orgs) : Prop :=
  match w with
  | ByPassword _ => ~ enforced_for (q_email q) (get d) /\ by_password (q_email q) (q_password q) uid (get d)
  | ByRegistration next => ~ enforced_for (q_email q) (get d) /\ by_registration next (q_email q) d uid
  | ByProvider name exchange =>
      flow_ok name q /\ exists id, exchange = Some id /\ Subject id <> "" /\
      (by_sso name id uid d o \/
       registry name = true /\ ~ enforced_for (Email id) (get d) /\
       (by_identity name id uid (get d) \/ by_address id uid (get d) \/ by_provision id uid d))
  end.

Context {AO : Apart Accounts Orgs D} {SA : Apart SSOTable Accounts D}.

Definition opens (q : Request) (J : Z -> Orgs -> Prop) (r : response) (d : D) : Prop :=
  match r with
  | LoggedIn uid token dest =>
      J uid (get d) /\ token = q_fresh q /\ session_user token (get d) = Some uid /\ isLocalPath dest = true
  | _ => True
  end.

Lemma redirectLocal_local dest : isLocalPath (redirectLocal dest) = true.
Proof. unfold redirectLocal. by destruct (isLocalPath dest) eqn:?. Qed.

Lemma from_oauthLogin d q uid dest J :
  J uid (get d) -> isLocalPath dest = true -> from d (oauthLogin uid q dest) (opens q J).
Proof.
  intros HJ Hl. unfold oauthLogin, CreateSession. eapply from_bind with (Ψ := fun r d' =>
    match r with Ok token => token = q_fresh q /\ get d' = get (T := Orgs) d /\ session_user token (get d') = Some uid | Err _ => True end).
  - eapply from_bind; [apply from_pgets|]. intros now d' [-> ->].
    eapply from_bind with (Ψ := fun r d' => match r with Ok _ => get d' = get (T := Orgs) d /\ session_user (q_fresh q) (get d') = Some uid | Err _ => True end).
    + apply from_callE; [done|]. unfold on. destruct (insert_session _ uid _ (get d)) as [[[]|e] t] eqn:Hi; [|done]. cbn [fst snd].
      rewrite AO, get_put. split; [done|]. unfold insert_session in Hi.
      destruct (sessions (get d) !! _); [done|]. destruct (users (get d) !! uid); [|done]. injection Hi as <-.
      unfold session_user. cbn. rewrite lookup_insert_eq. unfold live_session. cbn [s_expires acc_now set_sessions s_user].
      assert (0 < SessionTTL) by done. by rewrite (proj2 (Z.ltb_lt _ _)) by lia.
    + intros [[]|e] d' Hd; by apply from_ret.
  - intros [token|e] d' Hd; apply from_ret; [|done]. destruct Hd as (-> & Ho & Hs). cbn. by rewrite Ho.
Qed.

(** ** The queries of the handlers *)

Lemma from_query {A} d (f : Accounts -> A) : from d (query f) (answers d ErrAuthSQL (f (get d))).
Proof. apply (from_ask d ErrAuthSQL (fun d : D => f (get d))). Qed.

Definition says_enforced (email : string) (d : D) (r : result sso_error bool) (d' : D) : Prop :=
  d' = d /\ (r = Ok false -> ~ enforced_for email (get d)).

Lemma from_enforcedSSO d email : from d (enforcedSSO (emailDomain email)) (says_enforced email d).
Proof.
  unfold enforcedSSO. destruct (String.eqb_spec (emailDomain email) "") as [He|He].
  - apply from_ret. split; [done|]. intros _ [Hd _]. by rewrite He in Hd.
  - unfold SSOByDomain. destruct (String.eqb_spec (normalizeDomain (emailDomain email)) "") as [Hn|Hn].
    + apply from_ret. split; [done|]. by intros _ [Hd _].
    + eapply from_bind with (Ψ := fun r d' => d' = d /\ (forall c, r = Ok c -> forall c', sso_by_domain (normalizeDomain (emailDomain email)) (get d) = Some c' ->
        exists c'', c = Some c'' /\ Enforced c'' = Enforced c')).
      * eapply from_bind; [apply from_ask|]. intros r d' [-> [->| ->]]; apply from_ret; [|done]. split; [done|].
        destruct (sso_by_domain _ _) as [c|]; [|done]. cbn. unfold decryptSSO. intros r Hr c' [= <-].
        destruct ring; [destruct (Open _ _)|destruct (IsEncrypted _)]; try done; injection Hr as <-; by eexists.
      * intros [c|e] d' [-> Hc]; apply from_ret; [|done]. split; [done|]. intros [= Hf] (_ & c' & Hc' & Hen).
        destruct (Hc c eq_refl c' Hc') as (c'' & -> & He'). congruence.
Qed.

Definition says_address (email : string) (d : D) (r : result auth_error Z) (d' : D) : Prop :=
  d' = d /\ match r with
            | Ok uid => exists u, user_by_email (normalizeEmail email) (get d) = Some (uid, u)
            | Err ErrUserNotFound => user_by_email (normalizeEmail email) (get d) = None
            | Err _ => True
            end.

Lemma from_UserByEmail d email : from d (UserByEmail email) (says_address email d).
Proof.
  unfold UserByEmail. eapply from_bind; [apply from_query|]. intros r d' [-> [->| ->]]; [|by apply from_ret].
  destruct (user_by_email _ _) as [[uid u]|] eqn:Hu; apply from_ret; (split; [done|]); [by exists u|done].
Qed.

Lemma from_Authenticate d email password : from d (Authenticate email password)
  (fun r d' => d' = d /\ match r with Ok uid => by_password email password uid (get d) | Err _ => True end).
Proof.
  unfold Authenticate. eapply from_bind; [apply from_query|]. intros r d' [-> [->| ->]]; [|by apply from_ret].
  destruct (user_by_email _ _) as [[uid u]|] eqn:Hu; [|by apply from_ret]. destruct (u_hash u) as [hash|] eqn:Hh; [|by apply from_ret].
  destruct (VerifyPassword password hash) as [[[]|]|] eqn:Hv; apply from_ret; try done. split; [done|]. by exists u, hash.
Qed.

Lemma from_IdentityUser d name id : from d (IdentityUser name (Subject id))
  (fun r d' => d' = d /\ match r with Ok uid => by_identity name id uid (get d) | Err _ => True end).
Proof.
  unfold IdentityUser. eapply from_bind; [apply from_query|]. intros r d' [-> [->| ->]]; [|by apply from_ret].
  destruct (user_identities _ !! _) as [i|] eqn:Hi; apply from_ret; (split; [done|]); [|done]. unfold by_identity. by rewrite Hi.
Qed.

Lemma from_HasPendingInvite d email : from d (HasPendingInvite email)
  (fun r d' => d' = d /\ (r = Ok true -> invited_to email (get d))).
Proof.
  eapply from_mono; [apply from_ask|]. intros r d' [-> [->| ->]]; (split; [done|]); [|done]. intros [= He].
  apply existsb_exists in He as (i & Hi & [Hc Hp]%andb_true_iff). exists i. split; [|done].
  by apply list_elem_of_In, filter_In.
Qed.

Lemma from_InviteByToken d token : from d (InviteByToken token)
  (fun r d' => d' = d /\ match r with Ok (_, _, invited, _) => forall email, EqualFold invited email = true -> invited_by token email (get d) | Err _ => True end).
Proof.
  unfold InviteByToken. eapply from_bind; [apply from_ask|]. intros r d' [-> [->| ->]]; [|by apply from_ret].
  destruct (omap _ _) as [|row rest] eqn:Ho; apply from_ret; (split; [done|]); [done|].
  assert (row ∈ row :: rest) as Hin by left. rewrite <- Ho in Hin. apply list_elem_of_omap in Hin as (i & Hi & Hrow).
  destruct (organizations _ !! _); [|done]. injection Hrow as <-. intros email He. exists i.
  apply list_elem_of_In, filter_In in Hi as [Hi [Hh%bool_decide_eq_true Hp]%andb_true_iff].
  split; [by apply list_elem_of_In, filter_In|done].
Qed.

(** A new account: the next number, for an address nobody had. *)
Definition newcomer (email : string) (d : D) (r : result auth_error Z) : Prop :=
  forall uid, r = Ok uid -> uid = next_user (get (T := Accounts) d) /\ user_by_email (normalizeEmail email) (get d) = None.

Lemma insert_user_newcomer email h a d r t :
  insert_user (normalizeEmail email) h a (get d) = (r, t) -> newcomer email d r.
Proof. unfold insert_user. destruct (user_by_email _ _) eqn:Hu; intros [= <- <-] uid [= <-]. done. Qed.

Lemma from_Register d email password salt : from d (Register email password salt) (fun r _ => newcomer email d r).
Proof.
  unfold Register. destruct (negb (ValidEmailFormat _)); [by apply from_ret|]. destruct (negb (strong _)); [by apply from_ret|].
  destruct (hash_password _ _); [|by apply from_ret]. apply from_callE; [done|]. rewrite on_val. unfold register.
  destruct (insert_user _ _ _ _) eqn:Hi. by eapply insert_user_newcomer.
Qed.

Lemma from_CreateOAuthUser d email : from d (CreateOAuthUser email) (fun r _ => newcomer email d r).
Proof.
  unfold CreateOAuthUser. destruct (negb (ValidEmailFormat _)); [by apply from_ret|]. apply from_callE; [done|].
  rewrite on_val. unfold create_oauth_user. destruct (insert_user _ _ _ _) as [[] ] eqn:Hi; by eapply insert_user_newcomer.
Qed.

Lemma from_EnsureMember d o uid role : from d (EnsureMember o uid role)
  (fun r d' => match r with Ok _ => is_Some (org_members (get d') !! (o, uid)) | Err _ => True end).
Proof.
  unfold EnsureMember. destruct (negb (validRole role)); [by apply from_ret|]. apply from_callE; [done|].
  rewrite get_on, on_val. unfold ensure_member. destruct (org_members (get d) !! (o, uid)) as [r|] eqn:Hm; [by eexists|].
  unfold insert_member. destruct (organizations _ !! _); [|done]. rewrite Hm. cbn. rewrite lookup_insert_eq. by eexists.
Qed.

Lemma from_resolveProvider d name : from d (resolveProvider name)
  (fun p d' => match p with
               | Some (Some m) => known_sso name m (get d) /\ get d' = get (T := Accounts) d
               | Some None => registry name = true /\ d' = d
               | None => True
               end).
Proof.
  unfold resolveProvider. destruct (CutPrefix _ _) as [rest|] eqn:Hc.
  - destruct (parse_int _) as [orgID|] eqn:Hp; [|by apply from_ret].
    eapply from_bind; [apply from_pgets|]. intros now d' [-> ->]. eapply from_bind; [apply from_pgets|]. intros hit d' [-> ->].
    destruct (ssoCache_get _ _ _) as [m|] eqn:Hm; [apply from_ret; split; [|done]; exists rest, orgID; auto|].
    unfold SSOByOrg. eapply from_bind with (Ψ := fun c d' => d' = d /\ match c with
      | Ok (Some c) => exists c', org_sso (get d) !! orgID = Some c' /\ sso_Domain c = sso_Domain c' /\ DefaultRole c = DefaultRole c' | _ => True end).
    + eapply from_bind; [apply from_ask|]. intros r d' [-> [->| ->]]; apply from_ret; (split; [done|]); [|done].
      destruct (org_sso _ !! _) as [c|]; [|done]. cbn. unfold decryptSSO. destruct ring; [destruct (Open _ _)|destruct (IsEncrypted _)]; try done; by exists c.
    + intros [[c|]|e] d' [-> Hs]; [|by apply from_ret..]. destruct Hs as (c' & Ho & -> & ->).
      eapply from_bind with (Ψ := fun _ d' => get d' = get (T := Accounts) d).
      * intros fs a s'. cbn. destruct (next_fault fs). intros [= <- <-]. cbn. apply SA.
      * intros _u d' Ha. apply from_ret. split; [|done]. exists rest, orgID. do 2 (split; [done|]). right. by exists c'.
  - destruct (registry name) eqn:Hr; by apply from_ret.
Qed.

(** ** The handlers *)

Lemma refused_opens d q J a : match a with LoggedIn _ _ _ => False | _ => True end -> from d (mret a) (opens q J).
Proof. intros Ha. apply from_ret. by destruct a. Qed.

Lemma from_step {A} d d0 (p : prog D A) (k : A -> prog D response) Ψ q J :
  d0 = d -> from d p Ψ -> (forall a d', Ψ a d' -> from d' (k a) (opens q J)) -> from d0 (mbind k p) (opens q J).
Proof. intros ->. apply from_bind. Qed.

Lemma loginSubmit_justified d q next : from d (handle (ByPassword next) q) (opens q (justified (ByPassword next) q d)).
Proof.
  cbn [handle]. unfold loginSubmit. destruct (negb (q_admitted q)); [by apply refused_opens|].
  eapply from_bind; [apply from_enforcedSSO|]. intros [[]|e] d' [-> Hen]; [by apply refused_opens| |by apply refused_opens].
  eapply from_bind; [apply from_Authenticate|]. intros [uid|e] d' [-> Hp]; [|by apply refused_opens].
  apply from_oauthLogin; [split; [by apply Hen|done]|apply redirectLocal_local].
Qed.

Definition admitted_by (next email : string) (d : D) : Prop :=
  RegistrationMode = "open" \/ users (get d) = ∅ \/
  RegistrationMode = "invite" /\ exists token, inviteTokenFromNext next = Some token /\ invited_by token (normalizeEmail email) (get d).

Lemma from_invitedByToken d next email : from d (invitedByToken next (normalizeEmail email))
  (fun r d' => d' = d /\ match r with Ok _ => admitted_by next email d | Err a => match a with LoggedIn _ _ _ => False | _ => True end end).
Proof.
  unfold invitedByToken. destruct (String.eqb_spec RegistrationMode "invite") as [Hm|Hm]; [|by apply from_ret].
  cbn [negb]. destruct (inviteTokenFromNext next) as [token|] eqn:Ht; [|by apply from_ret].
  eapply from_bind; [apply from_InviteByToken|]. intros [[[[o n] invited] r]|e] d' [-> Hi]; [|by destruct e; apply from_ret].
  destruct (EqualFold invited _) eqn:He; apply from_ret; (split; [done|]); [|done]. right. right. split; [done|]. exists token. auto.
Qed.

Lemma registerSubmit_justified d q next : from d (handle (ByRegistration next) q) (opens q (justified (ByRegistration next) q d)).
Proof.
  cbn [handle]. unfold registerSubmit. destruct (negb (q_admitted q)); [by apply refused_opens|].
  eapply from_bind with (Ψ := fun r d' => d' = d /\ match r with
    | Ok _ => admitted_by next (q_email q) d | Err a => match a with LoggedIn _ _ _ => False | _ => True end end).
  - destruct (String.eqb_spec RegistrationMode "open") as [Hm|Hm]; [apply from_ret; split; [done|by left]|].
    unfold UserCount. eapply from_bind; [apply from_query|]. intros r d' [-> [->| ->]]; [|by apply from_ret].
    destruct (Z.ltb_spec 0 (Z.of_nat (size (users (get d))))); [apply from_invitedByToken|]. apply from_ret.
    split; [done|]. right. left. apply map_size_empty_inv. lia.
  - intros [[]|a] d' [-> Had]; [|by apply refused_opens]. destruct (negb (String.eqb _ _)); [by apply refused_opens|].
    eapply from_bind; [apply from_enforcedSSO|]. intros [[]|e] d' [-> Hen]; [by apply refused_opens| |by apply refused_opens].
    eapply from_bind; [apply from_Register|]. intros [uid|e] d' Hnew; [|by apply refused_opens].
    destruct (Hnew uid eq_refl). apply from_oauthLogin; [|apply redirectLocal_local]. split; [by apply Hen|done].
Qed.

Lemma oauthProvision_justified d name id q J :
  (forall uid, by_provision id uid d -> forall o, J uid o) -> user_by_email (normalizeEmail (Email id)) (get d) = None ->
  from d (oauthProvision wait name id q) (opens q J).
Proof.
  intros HJ Hu. unfold oauthProvision. destruct (String.eqb_spec RegistrationMode "closed") as [|Hc]; [by apply refused_opens|].
  destruct (EmailVerified id) eqn:Hv; [|by apply refused_opens]. destruct (TrustedIssuer id) eqn:Ht; [|by apply refused_opens]. cbn [negb].
  destruct (String.eqb_spec RegistrationMode "open") as [Hm|Hm].
  - eapply from_bind; [apply from_CreateOAuthUser|]. intros [uid|e] d' Hnew; [|by apply refused_opens]. destruct (Hnew uid eq_refl) as [Hid _].
    apply from_any. intros [[]|e] d''; [|apply from_any; intros; by apply refused_opens].
    apply from_any. intros j d3. apply from_oauthLogin; [|done]. apply HJ. split_and!; try done. by left.
  - eapply from_bind; [apply from_HasPendingInvite|]. intros [[]|e] d' [-> Hi]; [|by apply refused_opens..]. cbn [negb].
    eapply from_bind; [apply from_CreateOAuthUser|]. intros [uid|e] d' Hnew; [|by apply refused_opens]. destruct (Hnew uid eq_refl) as [Hid _].
    apply from_any. intros [[]|e] d''; [|apply from_any; intros; by apply refused_opens].
    apply from_any. intros [[o|]|e] d3; [|apply from_any; intros; by apply refused_opens..].
    apply from_oauthLogin; [|done]. apply HJ. split_and!; try done. right. split; [done|]. by apply Hi.
Qed.

Lemma from_link_target d flow q k J :
  (forall uid d', from d' (k (Ok uid)) (opens q J)) ->
  (forall a d', match a with LoggedIn _ _ _ => False | _ => True end -> from d' (k (Err a)) (opens q J)) ->
  from d (mbind k (link_target flow q)) (opens q J).
Proof.
  intros Hok Herr. eapply from_bind with (Ψ := fun r _ => match r with Ok _ => True | Err a => match a with LoggedIn _ _ _ => False | _ => True end end).
  - unfold link_target. apply from_any. intros [uid|] d'; apply from_ret; [|done]. by destruct (_ =? _).
  - intros [uid|a] d' Ha; [apply Hok|by apply Herr].
Qed.

Lemma ssoCallback_justified d d1 name id m flow q J :
  get d1 = get (T := Accounts) d -> known_sso name m (get d) ->
  (forall uid o, by_sso name id uid d o -> J uid o) -> from d1 (ssoCallback name id m flow q) (opens q J).
Proof.
  intros Ha Hm HJ. unfold ssoCallback. destruct (EmailVerified id) eqn:Hv; [|by apply refused_opens].
  destruct (String.eqb_spec (emailDomain (Email id)) (m_Domain m)) as [Hd|]; [|by apply refused_opens]. cbn [negb].
  assert (forall uid o, (by_identity name id uid (get d) \/ uid = next_user (get (T := Accounts) d) /\ user_by_email (normalizeEmail (Email id)) (get d) = None) ->
    is_Some (org_members o !! (m_OrgID m, uid)) -> J uid o) as HJ'.
  { intros uid o Hby Ho. apply HJ. exists m. done. }
  destruct (f_Link flow).
  - apply from_link_target; [|intros a d' Hr; by apply refused_opens]. intros s d2. apply from_any. intros [uid|e] d3.
    + cbn [andb]. destruct (negb (uid =? s)); [by apply refused_opens|]. apply from_any. intros _u d4. apply from_any.
      intros [[]|e] d5; by apply refused_opens.
    + destruct e; try by apply refused_opens. apply from_any. intros l d4. destruct l as [[]|[]]; cbn [linked]; try (by apply refused_opens);
        (apply from_any; intros [[]|e] d5; by apply refused_opens).
  - eapply from_bind; [by apply (from_ret d1 (Ok 0) (fun r d' => r = Ok 0 /\ d' = d1))|]. intros r d' [-> ->].
    eapply from_bind; [apply from_IdentityUser|]. cbn [andb]. intros [uid|e] d' [-> Hi].
    + apply from_any. intros _u d2. eapply from_bind; [apply from_EnsureMember|]. intros [[]|e] d3 Ho; [|by apply refused_opens].
      apply from_oauthLogin; [|done]. apply HJ'; [left; by rewrite <- Ha|done].
    + destruct e; try by apply refused_opens. eapply from_bind; [apply from_UserByEmail|]. intros [uid|e] d' [-> Hu]; [by apply refused_opens|].
      destruct e; try by apply refused_opens. eapply from_bind; [apply from_CreateOAuthUser|].
      intros [uid|e] d' Hnew; [|by apply refused_opens]. destruct (Hnew uid eq_refl) as [Hid _].
      apply from_any. intros l d2. destruct (linked l); [|by apply refused_opens]. cbn [negb].
      eapply from_bind; [apply from_EnsureMember|]. intros [[]|e] d3 Ho; [|by apply refused_opens].
      apply from_oauthLogin; [|done]. apply HJ'; [right; by rewrite <- Ha|done].
Qed.

Lemma oauthCallback_justified d name exchange q :
  from d (handle (ByProvider name exchange) q) (opens q (justified (ByProvider name exchange) q d)).
Proof.
  cbn [handle]. unfold oauthCallback. eapply from_bind; [apply from_resolveProvider|]. intros [sso|] d1 Hp; [|by apply refused_opens].
  destruct (q_cookie q) as [flow|] eqn:Hq; [|by apply refused_opens]. destruct (negb secret_set); [by apply refused_opens|].
  destruct (flow_fresh _ flow) eqn:Hf; [|by apply refused_opens].
  destruct (String.eqb_spec (f_Provider flow) name) as [Hn|]; [|by apply refused_opens].
  destruct (String.eqb_spec (f_State flow) "") as [|Hs]; [by apply refused_opens|].
  destruct (String.eqb_spec (q_state q) (f_State flow)) as [Hst|]; [|by apply refused_opens]. cbn [negb orb].
  destruct (String.eqb (q_code q) ""); [by apply refused_opens|]. destruct exchange as [id|]; [|by apply refused_opens].
  destruct (String.eqb_spec (Subject id) "") as [|Hsub]; [by apply refused_opens|]. destruct (String.eqb (Email id) ""); [by apply refused_opens|]. cbn [orb].
  assert (flow_ok name q) as Hok by (exists flow; done). destruct sso as [m|].
  - destruct Hp. eapply ssoCallback_justified; [done..|]. intros uid o Hby. split; [done|]. exists id. do 2 (split; [done|]). by left.
  - destruct Hp as [Hreg ->]. eapply from_bind; [apply from_enforcedSSO|]. intros [[]|e] d' [-> Hen]; [by apply refused_opens| |by apply refused_opens].
    specialize (Hen eq_refl).
    assert (forall uid o, by_identity name id uid (get d) \/ by_address id uid (get d) \/ by_provision id uid d ->
      justified (ByProvider name (Some id)) q d uid o) as HJ.
    { intros uid o Hby. split; [done|]. exists id. do 2 (split; [done|]). by right. }
    eapply from_bind; [apply from_IdentityUser|]. intros [uid|e] d' [-> Hi].
    + apply from_any. intros _u d2. apply from_oauthLogin; [|done]. apply HJ. by left.
    + destruct e; try by apply refused_opens. destruct (f_Link flow).
      * apply from_link_target; [|intros a d' Hr; by apply refused_opens]. intros uid d2. apply from_any. intros [[]|e] d3; [by apply refused_opens|].
        destruct e; by apply refused_opens.
      * eapply from_bind; [apply from_UserByEmail|]. intros [uid|e] d' [-> Hu].
        -- destruct (EmailVerified id) eqn:Hv; [|by apply refused_opens]. destruct (TrustedIssuer id) eqn:Ht; [|by apply refused_opens]. cbn [negb orb].
           apply from_any. intros l d2. destruct (linked l); [|by apply refused_opens]. apply from_oauthLogin; [|done]. apply HJ. right. left. by split.
        -- destruct e; try by apply refused_opens. apply oauthProvision_justified; [|done]. intros uid Hpr o. apply HJ. auto.
Qed.
End justified.

(** C1: nobody gets a session the rules do not give. Whatever fails while a
    password, a registration or the return from a provider is handled: if it
    ends with a cookie, the cookie names a live session of the account, the
    redirect stays on this site, the domain of the address is not one that
    must use single sign-on elsewhere (and the answer is no when that cannot
    be known), and
    - a password was that of the account with this address;
    - a registration made a new account, in open mode, or as the first one,
      or in invite mode with a live invitation to this very address;
    - a provider's answer belongs to a fresh flow of this provider whose
      state came back, and its identity was linked to the account before; or a
      trusted issuer vouches for a verified address, of an existing account or
      of a new one that the mode allows or an invitation is pending for; or it
      is the organisation's own provider, for an address of its domain, linked
      before or new, and the account is now a member. An existing account is
      never taken over by an organisation's provider. *)
Theorem logins_justified `{UC : Unicode, FC : Folding, AC : Argon2, BC : Box, SC : SSOEnv, WC : WebConfig}
    {D} `{HA : Has Accounts D, HO : Has Orgs D, HI : Has Invites D, HS : Has SSOTable D, AO : !Apart Accounts Orgs D, SA : !Apart SSOTable Accounts D}
    wait (w : way) (q : Request) (d : D) fs uid token dest s' :
  exec (handle wait w q) (Sys d fs) = (LoggedIn uid token dest, s') ->
  justified w q d uid (get (db s')) /\ token = q_fresh q /\ session_user token (get (db s')) = Some uid /\ isLocalPath dest = true.
Proof.
  intros He. assert (from d (handle wait w q) (opens q (justified w q d))) as Hf.
  { destruct w; [by apply loginSubmit_justified|by apply registerSubmit_justified|by apply oauthCallback_justified]. }
  exact (Hf fs _ s' He).
Qed.

#[local] Existing Instances ex_folding ex_argon ex_box.
#[local] Instance ex_lower : Unicode := {| rune_lower := fun r => r; rune_upper := fun r => r; letter_or_number := fun _ => false |}.
#[local] Instance ex_sso_env : SSOEnv := {| ring := None; https_url := fun _ => true |}.
#[local] Instance ex_web : WebConfig := {| registry := String.eqb "yandex"; RegistrationMode := "invite"; secret_set := true |}.

Abbreviation Site := (Accounts * Orgs * (Invites * SSOTable))%type.
#[local] Instance ex_apart_accounts : Apart Accounts Orgs Site.
Proof. done. Defined.
#[local] Instance ex_apart_sso : Apart SSOTable Accounts Site.
Proof. done. Defined.

(** Two accounts, of which the second is linked; an invitation of bob; and an
    organisation that insists on its own sign-on. *)
Definition ex_user (email : string) : User := mkUser email (Some ex_hash) false "" "" false 0.
Definition ex_site : Site :=
  ((mkAccounts {[1 := ex_user "ann@x.io"; 2 := ex_user "eve@x.io"]} 3 {[tokenHash "s1" := mkSession 1 5000 0]} ∅ 1
      {[("yandex", "e") := mkIdentity 2 "eve@x.io" 0]} 1000 1 [] false, ex_orgs),
   (ex_invites.1, mkSSOTable {[1 := mkSSO 1 "https://idp" "c" "s" "corp.io" RoleMember true]} ∅ 0)).

Definition ex_flow (provider : string) (link : bool) (uid : Z) : oauthFlow := mkFlow provider "st" link uid 100.
Definition ex_request (flow : oauthFlow) : Request :=
  mkRequest true "" "" "" "" (Some "s1") (Some flow) "st" "code" "fresh" ex_salt 200.

(** Bob comes back from a trusted provider, and from his organisation's. *)
Lemma logins_justified_witness :
  exists s1 s2 : sys Site,
    exec (handle 2 (ByProvider "yandex" (Some (mkOAuthIdentity "b" "bob@x.io" true true))) (ex_request (ex_flow "yandex" false 0))) (Sys ex_site [])
      = (LoggedIn 3 "fresh" "/", s1) /\
    (justified (ByProvider "yandex" (Some (mkOAuthIdentity "b" "bob@x.io" true true))) (ex_request (ex_flow "yandex" false 0)) ex_site 3 (get (db s1)) /\
     "fresh" = "fresh" /\ session_user "fresh" (get (db s1)) = Some 3 /\ isLocalPath "/" = true) /\
    exec (handle 2 (ByProvider "sso-1" (Some (mkOAuthIdentity "b" "bob@corp.io" true false))) (ex_request (ex_flow "sso-1" false 0))) (Sys ex_site [])
      = (LoggedIn 3 "fresh" "/", s2) /\
    justified (ByProvider "sso-1" (Some (mkOAuthIdentity "b" "bob@corp.io" true false))) (ex_request (ex_flow "sso-1" false 0)) ex_site 3 (get (db s2)).
Proof.
  destruct (exec (handle 2 (ByProvider "yandex" (Some (mkOAuthIdentity "b" "bob@x.io" true true))) (ex_request (ex_flow "yandex" false 0))) (Sys ex_site []))
    as [r1 s1] eqn:H1.
  destruct (exec (handle 2 (ByProvider "sso-1" (Some (mkOAuthIdentity "b" "bob@corp.io" true false))) (ex_request (ex_flow "sso-1" false 0))) (Sys ex_site []))
    as [r2 s2] eqn:H2.
  assert (r1 = LoggedIn 3 "fresh" "/") as -> by (transitivity (fst (r1, s1)); [done|rewrite <- H1; by vm_compute]).
  assert (r2 = LoggedIn 3 "fresh" "/") as -> by (transitivity (fst (r2, s2)); [done|rewrite <- H2; by vm_compute]).
  exists s1, s2. split; [done|]. split; [exact (logins_justified 2 _ _ ex_site _ _ _ _ _ H1)|]. split; [done|].
  exact (proj1 (logins_justified 2 _ _ ex_site _ _ _ _ _ H2)).
Defined.

(** Ann asks to link what is eve's: the answer is a session of eve, where an
    organisation's provider would have refused. *)
Lemma oauthCallback_link_switches :
  (exec0 (handle 2 (ByProvider "yandex" (Some (mkOAuthIdentity "e" "eve@x.io" true true))) (ex_request (ex_flow "yandex" true 1))) ex_site).1
    = LoggedIn 2 "fresh" "/".
Proof. by vm_compute. Qed.
