(* ===== verification/Keys.v ===== *)
(** Keys of projects: [internal/org/key.go], the cache every replica keeps of
    them, [KeyCache] of [internal/ingest/auth.go], and what a kind of key may
    send, [internal/ingest/scope.go].

    Ghosts: [ended] is when a key stopped being one, revoked or gone with its
    project; [answers] is what every [Resolve] began at and answered. *)
From stdpp Require Import base tactics list gmap strings relations sorting.
From Stdlib Require Import ZArith Lia Ascii.
From S2P Require Import Prelude.
From S2P Require Import GoString.
From S2P Require Import Prog.
From S2P Require Import Rely.

Open Scope Z_scope.
Open Scope go_scope.

(** ** Data *)

Abbreviation KeyKind := string.
Definition KindBrowser : KeyKind := "browser".
Definition KindServer : KeyKind := "server".
Definition KindAgent : KeyKind := "agent".
Definition KindLegacy : KeyKind := "legacy".

Definition Valid (k : KeyKind) : bool := existsb (String.eqb k) [KindBrowser; KindServer; KindAgent; KindLegacy].

Inductive key_error := ErrInvalidKeyKind | ErrKeyNotFound | ErrKeySQL.

Record Key := mkKey { key_ID : Z; key_ProjectID : Z; key_OrgID : Z; PublicKey : string; Kind : KeyKind }.
Record KeyRow := mkKeyRow { k_project : Z; k_public : string; k_kind : KeyKind; k_created : Z; k_revoked : option Z }.

(** [None]: the key is not there. *)
Record keyEntry := mkEntry { e_key : option Key; e_expires : Z }.
Record answer := mkAnswer { a_start : Z; a_public : string; a_result : result key_error Key }.

Record Keys := mkKeys {
  project_keys : gmap Z KeyRow; next_key : Z;
  projects : gmap Z Z; (** the organisation of each *)
  key_caches : gmap nat (gmap string keyEntry); (** by replica *)
  keys_now : Z; ended : gmap Z Z; answers : list answer }.

Definition ttl : Z := 30 * second.
Definition negTTL : Z := 10 * second.
Definition maxKeyCacheEntries : nat := Z.to_nat 10000.

Definition set_keys (m : gmap Z KeyRow) (n : Z) (e : gmap Z Z) (t : Keys) : Keys :=
  mkKeys m n (projects t) (key_caches t) (keys_now t) e (answers t).
Definition set_entries (r : nat) (m : gmap string keyEntry) (t : Keys) : Keys :=
  mkKeys (project_keys t) (next_key t) (projects t) (<[r := m]> (key_caches t)) (keys_now t) (ended t) (answers t).
Definition note (a : answer) (t : Keys) : Keys :=
  mkKeys (project_keys t) (next_key t) (projects t) (key_caches t) (keys_now t) (ended t) (answers t ++ [a]).

Definition cache_entries (r : nat) (t : Keys) : gmap string keyEntry := default ∅ (key_caches t !! r).

(** ** The table *)

(** The row of a key that is not revoked, with its project's organisation. *)
Definition key_by_public (public : string) (t : Keys) : option Key :=
  head (omap (fun '(id, row) =>
      if String.eqb (k_public row) public && is_nil (k_revoked row)
      then (fun org => mkKey id (k_project row) org public (k_kind row)) <$> projects t !! k_project row else None)
    (map_to_list (project_keys t))).

Definition taken (public : string) (t : Keys) : bool :=
  existsb (fun '(_, row) => String.eqb (k_public row) public) (map_to_list (project_keys t)).

(** [ORDER BY id] *)
Definition by_key_id (a b : Z * KeyRow) : Prop := a.1 <= b.1.
#[export] Instance by_key_id_dec a b : Decision (by_key_id a b).
Proof. unfold by_key_id. apply _. Defined.

(** One [INSERT] of all rows: the foreign key, [UNIQUE (public_key)], and the
    keys it returns. *)
Fixpoint insert_keys (projectID : Z) (ks : list (KeyKind * string)) (t : Keys) : option (list Key * Keys) :=
  match ks with
  | [] => Some ([], t)
  | (kind, public) :: ks =>
      if is_nil (projects t !! projectID) || taken public t then None else
      let row := mkKeyRow projectID public kind (keys_now t) None in
      match insert_keys projectID ks (set_keys (<[next_key t := row]> (project_keys t)) (next_key t + 1) (ended t) t) with
      | Some (keys, t') => Some (mkKey (next_key t) projectID 0 public kind :: keys, t')
      | None => None
      end
  end.

Definition revoke (keyID : Z) (t : Keys) : result key_error () * Keys :=
  match project_keys t !! keyID with
  | Some row =>
      match k_revoked row with
      | None => let row' := mkKeyRow (k_project row) (k_public row) (k_kind row) (k_created row) (Some (keys_now t)) in
                (Ok tt, set_keys (<[keyID := row']> (project_keys t)) (next_key t) (<[keyID := keys_now t]> (ended t)) t)
      | Some _ => (Err ErrKeyNotFound, t)
      end
  | None => (Err ErrKeyNotFound, t)
  end.

(** ** The cache *)

Definition live_entry (now : Z) (e : keyEntry) : bool := now <? e_expires e.

(** One in ten goes, in the order the map is visited. *)
Fixpoint drop_until (target : nat) (visit : list string) (m : gmap string keyEntry) : gmap string keyEntry :=
  match visit with
  | [] => m
  | k :: visit => if (size m <? target)%nat then m else drop_until target visit (delete k m)
  end.

Section cache.
Variable order : list string -> list string.

Definition evict (now : Z) (m : gmap string keyEntry) : gmap string keyEntry :=
  let m := filter (fun '(_, e) => live_entry now e = true) m in
  if (size m <? maxKeyCacheEntries)%nat then m else
  let m := filter (fun '(_, e) => is_Some (e_key e)) m in
  drop_until (maxKeyCacheEntries - maxKeyCacheEntries / 10) (order (map fst (map_to_list m))) m.

Definition cache_store (r : nat) (public : string) (e : keyEntry) (t : Keys) : Keys :=
  let m := cache_entries r t in
  let m := if (maxKeyCacheEntries <=? size m)%nat then evict (keys_now t) m else m in
  set_entries r (<[public := e]> m) t.

(** ** Operations *)

Context {D : Type} `{Has Keys D}.

Definition CreateKeys (projectID : Z) (ks : list (KeyKind * string)) : prog D (result key_error (list Key)) :=
  if bool_decide (ks = []) || negb (forallb (fun k => Valid (fst k)) ks) then mret (Err ErrInvalidKeyKind) else
  callE ErrKeySQL (on (fun t => match insert_keys projectID ks t with Some (keys, t') => (Ok keys, t') | None => (Err ErrKeySQL, t) end)).

Definition RevokeKey (keyID : Z) : prog D (result key_error ()) := callE ErrKeySQL (on (revoke keyID)).

Definition KeyByPublic (publicKey : string) : prog D (result key_error Key) :=
  tryE: k ← ask ErrKeySQL (fun d => key_by_public publicKey (get d)) catch err => mret (Err err);
  match k with Some k => mret (Ok k) | None => mret (Err ErrKeyNotFound) end.

Definition KeysForProject (projectID : Z) : prog D (result key_error (list (Z * KeyRow))) :=
  ask ErrKeySQL (fun d => merge_sort by_key_id (List.filter (fun '(_, row) => k_project row =? projectID) (map_to_list (project_keys (get d))))).

Definition store_entry (r : nat) (public : string) (e : keyEntry) : prog D () :=
  pmodify (fun d => put (cache_store r public e (get d)) d).

Definition Resolve (r : nat) (publicKey : string) : prog D (result key_error Key) :=
  now ← pgets (fun d => keys_now (get d));
  hit ← pgets (fun d => match cache_entries r (get d) !! publicKey with
                        | Some e => if live_entry now e then Some e else None
                        | None => None
                        end);
  match hit with
  | Some e => mret (match e_key e with Some k => Ok k | None => Err ErrKeyNotFound end)
  | None =>
      k ← KeyByPublic publicKey;
      match k with
      | Ok k => _s ← store_entry r publicKey (mkEntry (Some k) (now + ttl)); mret (Ok k)
      | Err ErrKeyNotFound => _s ← store_entry r publicKey (mkEntry None (now + negTTL)); mret (Err ErrKeyNotFound)
      | Err err => mret (Err err)
      end
  end.
End cache.

(** ** The request *)

(** [strings.Cut(part, "=")] *)
Definition cut_at (c : ascii) (l : chars) : option (chars * chars) :=
  match index c l with Some i => Some (take i l, drop (S i) l) | None => None end.

(** [strings.Trim(v, q)] for one character *)
Definition trim_char (c : ascii) (l : chars) : chars :=
  let left := drop (span (Ascii.eqb c) l) l in
  rev (drop (span (Ascii.eqb c) (rev left)) (rev left)).

Definition sentry_key_of (part : chars) : option string :=
  match cut_at "="%char (trim_space part) with
  | Some (k, v) => if bool_decide (k = chars_of "sentry_key") then Some (text (trim_char (char_of 34) v)) else None
  | None => None
  end.

(** The header [X-Sentry-Auth] and the parameter [sentry_key] of the query. *)
Definition PublicKeyFromRequest (auth query : string) : string :=
  let auth := default auth (CutPrefix "Sentry " auth) in
  match omap sentry_key_of (split_on ","%char (chars_of auth)) with
  | v :: _ => v
  | [] => query
  end.

(** ** Scopes *)

Inductive IngestSignal := SignalEvent | SignalTransaction | SignalMetric | SignalProfile | SignalLog | SignalDeploy.
#[export] Instance IngestSignal_eq_dec : EqDecision IngestSignal.
Proof. solve_decision. Defined.
#[export] Instance IngestSignal_countable : Countable IngestSignal.
Proof.
  apply (inj_countable' (fun s => match s with SignalEvent => 0 | SignalTransaction => 1 | SignalMetric => 2 | SignalProfile => 3 | SignalLog => 4 | SignalDeploy => 5 end)
    (fun n => match n with 0 => SignalEvent | 1 => SignalTransaction | 2 => SignalMetric | 3 => SignalProfile | 4 => SignalLog | _ => SignalDeploy end)).
  by intros [].
Defined.

Definition keyScopeMatrix : gmap KeyKind (list IngestSignal) :=
  {[ KindBrowser := [SignalEvent; SignalTransaction; SignalMetric; SignalLog];
     KindServer := [SignalEvent; SignalTransaction; SignalMetric; SignalLog; SignalProfile; SignalDeploy];
     KindAgent := [SignalMetric];
     KindLegacy := [SignalEvent; SignalTransaction; SignalMetric; SignalLog; SignalProfile; SignalDeploy] ]}.

Definition keyScopeHosts : list KeyKind := [KindAgent; KindLegacy].
Definition envelopeAlsoSignals : list IngestSignal := [SignalTransaction; SignalProfile].

Definition scopeAllows (kind : KeyKind) (signal : IngestSignal) : bool :=
  bool_decide (signal ∈ default [] (keyScopeMatrix !! kind)).
(** The signals some kind of key, or none, must not send. *)
Definition allIngestSignals : list IngestSignal := [SignalEvent; SignalTransaction; SignalMetric; SignalProfile; SignalLog; SignalDeploy].
Definition keyScopeRejectionPairs : list IngestSignal :=
  List.filter (fun s => existsb (fun k => negb (scopeAllows k s)) [KindBrowser; KindServer; KindAgent; KindLegacy; ""%string]) allIngestSignals.
Definition scopeAllowsHosts (kind : KeyKind) : bool := existsb (String.eqb kind) keyScopeHosts.
Definition scopeAllowsRoute (kind : KeyKind) (signal : IngestSignal) (also : list IngestSignal) : bool :=
  scopeAllows kind signal || existsb (scopeAllows kind) also.

Example public_key_ex :
  PublicKeyFromRequest (text (chars_of "Sentry sentry_version=7, sentry_key=" ++ char_of 34 :: chars_of "abc" ++ [char_of 34])) "q" = "abc"
  /\ PublicKeyFromRequest "Bearer x" "q" = "q".
Proof. by vm_compute. Qed.

(** ** Invariant *)

(** Until [lo] at least, [k] was the key to [public], of its project and kind. *)
Record held_until (k : Key) (public : string) (lo : Z) (t : Keys) : Prop := {
  hu_public : PublicKey k = public;
  hu_next : key_ID k < next_key t;
  hu_row : forall row, project_keys t !! key_ID k = Some row ->
    k_public row = public /\ k_project row = key_ProjectID k /\ k_kind row = Kind k;
  hu_end : forall e, ended t !! key_ID k = Some e -> lo <= e }.

(** What is a key to [public] now was made at [lo] or later. *)
Definition none_before (public : string) (lo : Z) (t : Keys) : Prop :=
  forall id row, project_keys t !! id = Some row -> k_public row = public -> k_revoked row = None -> lo <= k_created row.

Definition entry_ok (t : Keys) (public : string) (e : keyEntry) : Prop :=
  match e_key e with
  | Some k => held_until k public (e_expires e - ttl) t
  | None => none_before public (e_expires e - negTTL) t
  end.

(** What [Resolve] answered was so at a moment not long before it began. *)
Definition answer_ok (t : Keys) (a : answer) : Prop :=
  match a_result a with
  | Ok k => exists lo, a_start a - ttl < lo <= keys_now t /\ held_until k (a_public a) lo t
  | Err ErrKeyNotFound => exists lo, a_start a - negTTL < lo <= keys_now t /\ none_before (a_public a) lo t
  | Err _ => True
  end.

Record keys_wf (t : Keys) : Prop := {
  kw_next : forall id row, project_keys t !! id = Some row -> id < next_key t /\ k_created row <= keys_now t;
  kw_project : forall id row, project_keys t !! id = Some row -> is_Some (projects t !! k_project row);
  kw_open : forall id row, project_keys t !! id = Some row -> k_revoked row = None -> ended t !! id = None;
  kw_ended : forall id e, ended t !! id = Some e -> id < next_key t /\ e <= keys_now t;
  kw_cache : forall r public e, cache_entries r t !! public = Some e -> entry_ok t public e;
  kw_time : forall r public e, cache_entries r t !! public = Some e ->
    e_expires e <= keys_now t + match e_key e with Some _ => ttl | None => negTTL end;
  kw_size : forall r, (size (cache_entries r t) <= maxKeyCacheEntries)%nat;
  kw_answers : Forall (answer_ok t) (answers t) }.

(** How the table moves: keys are made with a new number, keep what they are
    and end once. *)
Record keys_moves (t t' : Keys) : Prop := {
  km_now : keys_now t <= keys_now t';
  km_next : next_key t <= next_key t';
  km_row : forall id r', project_keys t' !! id = Some r' ->
    (exists r, project_keys t !! id = Some r /\ k_project r' = k_project r /\ k_public r' = k_public r /\ k_kind r' = k_kind r /\
       k_created r' = k_created r /\ (k_revoked r' = None -> k_revoked r = None)) \/
    (next_key t <= id /\ keys_now t <= k_created r');
  km_ended : forall id e, ended t' !! id = Some e -> ended t !! id = Some e \/ keys_now t <= e }.

#[export] Instance keys_moves_preorder : PreOrder keys_moves.
Proof.
  split.
  - intros t. constructor; [lia..| |by left]. intros id r' Hr. left. exists r'. done.
  - intros t1 t2 t3 [] []. constructor; [lia..| |].
    + intros id r3 [(r2 & Hr2 & ? & ? & ? & ? & Hv2)|[? ?]]%km_row1; [|right; lia].
      apply km_row0 in Hr2 as [(r1 & Hr1 & ? & ? & ? & ? & Hv1)|[? ?]]; [|right; lia].
      left. exists r1. split_and!; try congruence. auto.
    + intros id e [He|He]%km_ended1; [|right; lia]. by apply km_ended0.
Qed.

Lemma held_until_moves k public lo t t' :
  keys_moves t t' -> lo <= keys_now t -> held_until k public lo t -> held_until k public lo t'.
Proof.
  intros [] Hlo []. constructor; [done|lia| |].
  - intros row' [(row & Hrow & -> & -> & -> & _)|[? ?]]%km_row0; [by apply hu_row0|lia].
  - intros e [He|He]%km_ended0; [by apply hu_end0|lia].
Qed.

Lemma none_before_moves public lo t t' : keys_moves t t' -> lo <= keys_now t -> none_before public lo t -> none_before public lo t'.
Proof.
  intros [] Hlo Hn id row' [(row & Hrow & _ & Hp & _ & Hc & Hv)|[? ?]]%km_row0 Hpub Hrev; [|lia].
  rewrite Hc. apply (Hn id row); [done|congruence|auto].
Qed.

Lemma entry_ok_moves t t' public e :
  keys_moves t t' -> e_expires e <= keys_now t + match e_key e with Some _ => ttl | None => negTTL end ->
  entry_ok t public e -> entry_ok t' public e.
Proof.
  intros Hm He. unfold entry_ok. destruct (e_key e); [apply held_until_moves|apply none_before_moves]; try done; lia.
Qed.


Lemma answer_ok_moves t t' a : keys_moves t t' -> answer_ok t a -> answer_ok t' a.
Proof.
  intros Hm. pose proof (km_now t t' Hm). unfold answer_ok. destruct (a_result a) as [k|[]]; try done.
  - intros (lo & Hlo & Hk). exists lo. split; [lia|]. apply (held_until_moves _ _ _ t); [done|lia|done].
  - intros (lo & Hlo & Hk). exists lo. split; [lia|]. apply (none_before_moves _ _ t); [done|lia|done].
Qed.

(** A change of the tables, or of the time. *)
Lemma keys_tables_keep t m n ps now e :
  let t' := mkKeys m n ps (key_caches t) now e (answers t) in
  keys_wf t -> keys_moves t t' ->
  (forall id row, m !! id = Some row -> id < n /\ k_created row <= now) ->
  (forall id row, m !! id = Some row -> is_Some (ps !! k_project row)) ->
  (forall id row, m !! id = Some row -> k_revoked row = None -> e !! id = None) ->
  (forall id x, e !! id = Some x -> id < n /\ x <= now) -> keys_wf t' /\ keys_moves t t'.
Proof.
  intros t' [] Hm Hrow Hproj Hopen Hend. pose proof (km_now _ _ Hm) as Hnow. cbn in Hnow. split; [|done]. constructor; try done.
  - intros r public x Hx. apply (entry_ok_moves t); [done|by apply (kw_time0 r public)|by apply (kw_cache0 r)].
  - intros r public x Hx. specialize (kw_time0 r public x Hx). cbn. lia.
  - eapply Forall_impl; [exact kw_answers0|]. intros a. by apply answer_ok_moves.
Qed.

Lemma insert_key_keeps projectID kind public t :
  is_Some (projects t !! projectID) ->
  let row := mkKeyRow projectID public kind (keys_now t) None in
  let t' := set_keys (<[next_key t := row]> (project_keys t)) (next_key t + 1) (ended t) t in
  keys_wf t -> keys_wf t' /\ keys_moves t t'.
Proof.
  intros Hp row t' W. pose proof W as []. apply keys_tables_keep; [done|..].
  - constructor; cbn; [lia|lia| |by left]. intros id r' [[<- <-]|[? Hr]]%lookup_insert_Some; [right; cbn; lia|left]. by exists r'.
  - intros id r' [[<- <-]|[? Hr]]%lookup_insert_Some; cbn; [lia|]. destruct (kw_next0 id r' Hr). lia.
  - intros id r' [[<- <-]|[? Hr]]%lookup_insert_Some; [done|by apply (kw_project0 id)].
  - intros id r' [[<- <-]|[? Hr]]%lookup_insert_Some; [|by apply (kw_open0 id r')]. intros _.
    apply eq_None_not_Some. intros [x Hx]. destruct (kw_ended0 _ _ Hx). lia.
  - intros id x Hx. destruct (kw_ended0 id x Hx). lia.
Qed.

Lemma insert_keys_keeps projectID ks : forall t keys t',
  keys_wf t -> insert_keys projectID ks t = Some (keys, t') -> keys_wf t' /\ keys_moves t t'.
Proof.
  induction ks as [|[kind public] ks IH]; intros t keys t' W; cbn [insert_keys]; [by intros [= _ <-]|].
  destruct (projects t !! projectID) as [org|] eqn:Hp; [|done]. destruct (is_nil _ || _); [done|].
  destruct (insert_key_keeps projectID kind public t (mk_is_Some _ _ Hp) W) as [W1 M1].
  destruct (insert_keys _ _ _) as [[keys1 t1]|] eqn:Hi; [|done]. intros [= _ <-].
  destruct (IH _ _ _ W1 Hi) as [W2 M2]. split; [done|]. by etrans.
Qed.

Lemma revoke_keeps keyID t : keys_wf t -> keys_wf (revoke keyID t).2 /\ keys_moves t (revoke keyID t).2.
Proof.
  intros W. pose proof W as []. unfold revoke. destruct (project_keys t !! keyID) as [row|] eqn:Hr; [|done].
  destruct (k_revoked row) as [|] eqn:Hv; [done|]. destruct (kw_next0 _ _ Hr) as [Hid Hc]. apply keys_tables_keep; [done|..].
  - constructor; cbn; [lia|lia|..].
    + intros id r' [[<- <-]|[? Hr']]%lookup_insert_Some; left; [by exists row|by exists r'].
    + intros id x [[<- <-]|[? Hx]]%lookup_insert_Some; [right; lia|by left].
  - intros id r' [[<- <-]|[? Hr']]%lookup_insert_Some; [done|by apply kw_next0].
  - intros id r' [[<- <-]|[? Hr']]%lookup_insert_Some; [by apply (kw_project0 keyID row)|by apply (kw_project0 id)].
  - intros id r' [[<- <-]|[? Hr']]%lookup_insert_Some; [done|]. intros Ho. rewrite lookup_insert_ne by done. by apply (kw_open0 id r').
  - intros id x [[<- <-]|[? Hx]]%lookup_insert_Some; [lia|by apply kw_ended0].
Qed.

(** A project is deleted, and its keys with it. *)
Definition delete_project (p : Z) (t : Keys) : Keys :=
  let mine := filter (fun '(_, row) => k_project row = p) (project_keys t) in
  mkKeys (filter (fun '(_, row) => k_project row <> p) (project_keys t)) (next_key t) (delete p (projects t)) (key_caches t) (keys_now t)
    (((fun _ => keys_now t) <$> filter (fun '(_, row) => k_revoked row = None) mine) ∪ ended t) (answers t).

Lemma delete_project_keeps p t : keys_wf t -> keys_wf (delete_project p t) /\ keys_moves t (delete_project p t).
Proof.
  intros W. pose proof W as []. apply keys_tables_keep; [done|..].
  - constructor; cbn; [lia|lia|..].
    + intros id r' [Hr _]%map_lookup_filter_Some. left. by exists r'.
    + intros id x [Hx|[_ Hx]]%lookup_union_Some_raw; [right|by left]. apply lookup_fmap_Some in Hx as (row & <- & _). lia.
  - intros id r' [Hr _]%map_lookup_filter_Some. by apply kw_next0.
  - intros id r' [Hr Hp]%map_lookup_filter_Some. rewrite lookup_delete_ne by congruence. by apply (kw_project0 id).
  - intros id r' [Hr Hp]%map_lookup_filter_Some Hv. apply lookup_union_None. split; [|by apply (kw_open0 id r')].
    rewrite lookup_fmap. apply fmap_None. apply map_lookup_filter_None. right. intros row [Hrow Hp']%map_lookup_filter_Some. congruence.
  - intros id x [Hx|[_ Hx]]%lookup_union_Some_raw; [|by apply kw_ended0].
    apply lookup_fmap_Some in Hx as (row & <- & [[Hr _]%map_lookup_filter_Some _]%map_lookup_filter_Some). destruct (kw_next0 id row Hr). lia.
Qed.

Lemma clock_keeps now ps t :
  keys_now t <= now -> projects t ⊆ ps -> keys_wf t ->
  let t' := mkKeys (project_keys t) (next_key t) ps (key_caches t) now (ended t) (answers t) in keys_wf t' /\ keys_moves t t'.
Proof.
  intros Hnow Hps W t'. pose proof W as []. apply keys_tables_keep; [done|..].
  - constructor; cbn; [lia|lia| |by left]. intros id r' Hr. left. by exists r'.
  - intros id row Hr. destruct (kw_next0 id row Hr). lia.
  - intros id row Hr. destruct (kw_project0 id row Hr) as [o Ho]. exists o. by eapply lookup_weaken.
  - done.
  - intros id x Hx. destruct (kw_ended0 id x Hx). lia.
Qed.

(** ** The cache *)

Lemma drop_until_size target visit m :
  (0 < target)%nat -> (forall k, k ∈ dom m -> k ∈ visit) -> (size (drop_until target visit m) < target)%nat.
Proof.
  intros Ht. revert m. induction visit as [|k visit IH]; intros m Hk; cbn [drop_until].
  - rewrite <- size_dom. replace (dom m) with (∅ : gset string) by set_solver. by rewrite size_empty.
  - destruct (Nat.ltb_spec (size m) target); [done|]. apply IH. intros x. rewrite dom_delete_L. set_solver.
Qed.

Lemma drop_until_subseteq target visit m : drop_until target visit m ⊆ m.
Proof.
  revert m. induction visit as [|k visit IH]; intros m; cbn [drop_until]; [done|]. destruct (_ <? _)%nat; [done|].
  etrans; [apply IH|apply delete_subseteq].
Qed.

Section cache_lemmas.
Variable order : list string -> list string.
Hypothesis order_perm : forall l, order l ≡ₚ l.

Lemma evict_subseteq now m : evict order now m ⊆ m.
Proof.
  unfold evict. destruct (_ <? _)%nat; [apply map_filter_subseteq|]. etrans; [apply drop_until_subseteq|].
  etrans; [apply map_filter_subseteq|apply map_filter_subseteq].
Qed.

Lemma evict_size now m : (size (evict order now m) < maxKeyCacheEntries)%nat.
Proof.
  unfold evict. destruct (Nat.ltb_spec (size (filter (fun '(_, e) => live_entry now e = true) m)) maxKeyCacheEntries); [done|].
  eapply Nat.lt_le_trans; [apply drop_until_size|apply Nat.le_sub_l].
  - apply Nat.ltb_lt. by vm_compute.
  - intros k Hk. rewrite order_perm. apply elem_of_dom in Hk as [e He]. apply list_elem_of_fmap. exists (k, e).
    split; [done|]. by apply elem_of_map_to_list.
Qed.

Lemma cache_entries_set r r' m t : cache_entries r' (set_entries r m t) = if decide (r = r') then m else cache_entries r' t.
Proof. unfold cache_entries, set_entries. cbn. case_decide as Hr; [subst; by rewrite lookup_insert_eq|by rewrite lookup_insert_ne]. Qed.

Lemma set_entries_moves r m t : keys_moves t (set_entries r m t).
Proof. constructor; cbn; [lia..| |by left]. intros id r' Hr. left. by exists r'. Qed.

Lemma cache_store_keeps r public e t :
  keys_wf t -> entry_ok t public e -> e_expires e <= keys_now t + (match e_key e with Some _ => ttl | None => negTTL end) ->
  keys_wf (cache_store order r public e t) /\ keys_moves t (cache_store order r public e t).
Proof.
  intros [] He Hx. unfold cache_store. set (m := if (maxKeyCacheEntries <=? size (cache_entries r t))%nat then _ else _).
  assert (m ⊆ cache_entries r t) as Hsub by (subst m; destruct (_ <=? _)%nat; [apply evict_subseteq|done]).
  assert (size m < maxKeyCacheEntries)%nat as Hsize.
  { subst m. destruct (Nat.leb_spec maxKeyCacheEntries (size (cache_entries r t))); [apply evict_size|done]. }
  pose proof (set_entries_moves r (<[public := e]> m) t) as Hm. split; [|done].
  assert (forall r' public' e', cache_entries r' (set_entries r (<[public := e]> m) t) !! public' = Some e' ->
    (public' = public /\ e' = e) \/ cache_entries r' t !! public' = Some e') as Hcase.
  { intros r' public' e'. rewrite cache_entries_set. case_decide as Hr; [|by right]. subst r'.
    intros [[-> ->]|[_ Hl]]%lookup_insert_Some; [by left|]. right. by eapply lookup_weaken. }
  constructor; try done.
  - intros r' public' e' [[-> ->]|Hl]%Hcase; apply (entry_ok_moves t); auto.
    + by apply (kw_time0 r' public').
    + by apply (kw_cache0 r').
  - intros r' public' e' [[-> ->]|Hl]%Hcase; [done|by apply (kw_time0 r' public')].
  - intros r'. rewrite cache_entries_set. case_decide; [|apply kw_size0].
    rewrite map_size_insert. destruct (m !! public); cbn; lia.
  - eapply Forall_impl; [exact kw_answers0|]. intros a. by apply answer_ok_moves.
Qed.
End cache_lemmas.

Lemma note_keeps a t : keys_wf t -> answer_ok t a -> keys_wf (note a t) /\ keys_moves t (note a t).
Proof.
  intros W Ha. pose proof W as []. assert (keys_moves t (note a t)) as Hm.
  { constructor; cbn; [lia..| |by left]. intros id r' Hr. left. by exists r'. }
  split; [|done]. constructor; try done.
  - intros r public e He. apply (entry_ok_moves t); [done|by apply (kw_time0 r public)|by apply (kw_cache0 r)].
  - cbn. apply Forall_app. split; [|constructor; [|done]]; [eapply Forall_impl; [exact kw_answers0|]; intros b|]; by apply (answer_ok_moves t).
Qed.

(** ** Operations keep the invariant *)
Section safety.
Context {D : Type} `{HK : Has Keys D} (order : list string -> list string) (order_perm : forall l, order l ≡ₚ l).

Abbreviation P := (fun d : D => keys_wf (get d)).
Abbreviation R := (fun d d' : D => keys_moves (get d) (get d')).
Abbreviation keys_safe p := (rg P R (fun _ => True) p (fun _ _ => True)).

#[local] Instance keys_R_preorder : PreOrder R.
Proof. split; [intros d; reflexivity|intros d1 d2 d3 H1 H2; by etrans]. Qed.

(** A fact that is about the past stays so. *)
Lemma stable_held k public lo : stable P R (fun d : D => lo <= keys_now (get d) /\ held_until k public lo (get d)).
Proof. intros d d' _ _ Hm [Hlo Hk]. pose proof (km_now _ _ Hm). split; [lia|]. by eapply held_until_moves. Qed.
Lemma stable_none public lo : stable P R (fun d : D => lo <= keys_now (get d) /\ none_before public lo (get d)).
Proof. intros d d' _ _ Hm [Hlo Hk]. pose proof (km_now _ _ Hm). split; [lia|]. by eapply none_before_moves. Qed.
Lemma stable_since start : stable P R (fun d : D => start <= keys_now (get d)).
Proof. intros d d' _ _ Hm Hlo. pose proof (km_now _ _ Hm). lia. Qed.

(** What an answer to [public] of a run that began at [start] must be, and
    what it was found at. *)
Definition answering (start : Z) (public : string) (r : result key_error Key) (d : D) : Prop :=
  start <= keys_now (get d) /\ answer_ok (get d) (mkAnswer start public r).
Lemma stable_answering start public r : stable P R (answering start public r).
Proof. intros d d' _ _ Hm [Hs Ha]. pose proof (km_now _ _ Hm). split; [lia|]. by eapply answer_ok_moves. Qed.

Lemma key_by_public_held public t k : keys_wf t -> key_by_public public t = Some k -> held_until k public (keys_now t) t.
Proof.
  intros []. unfold key_by_public. intros Hh%head_Some_elem_of. apply list_elem_of_omap in Hh as ([id row] & Hin & Hk).
  apply elem_of_map_to_list in Hin. destruct (String.eqb_spec (k_public row) public) as [Hp|]; [|done]. cbn [andb] in Hk.
  destruct (k_revoked row) eqn:Hv; [done|]. cbn in Hk. destruct (projects t !! k_project row); [|done]. injection Hk as <-.
  destruct (kw_next0 _ _ Hin). constructor; cbn; try done.
  - intros row' Hr. by simplify_eq.
  - intros e He. by rewrite (kw_open0 _ _ Hin Hv) in He.
Qed.

Lemma key_by_public_none public t : keys_wf t -> key_by_public public t = None -> none_before public (keys_now t) t.
Proof.
  intros W Hn id row Hr Hpub Hv. exfalso. unfold key_by_public in Hn. apply head_None in Hn.
  destruct (kw_project t W id row Hr) as [org Ho].
  assert (mkKey id (k_project row) org public (k_kind row) ∈ ([] : list Key)) as []%not_elem_of_nil.
  rewrite <- Hn. apply list_elem_of_omap. exists (id, row). split; [by apply elem_of_map_to_list|].
  rewrite Hpub, String.eqb_refl, Hv, Ho. done.
Qed.

Lemma held_until_mono k public lo lo' t : lo' <= lo -> held_until k public lo t -> held_until k public lo' t.
Proof. intros Hlo []. constructor; [done..|]. intros e He. specialize (hu_end0 e He). lia. Qed.
Lemma none_before_mono public lo lo' t : lo' <= lo -> none_before public lo t -> none_before public lo' t.
Proof. intros Hlo Hn id row Hr Hp Hv. specialize (Hn id row Hr Hp Hv). lia. Qed.

Lemma rg_pmodify (S Φ : D -> Prop) (f : D -> D) :
  stable P R Φ -> (forall d, P d -> S d -> P (f d) /\ R d (f d) /\ Φ (f d)) -> rg P R S (pmodify f) (fun _ => Φ).
Proof. intros HΦ Hf x d HP HS. destruct (Hf d HP HS) as (? & ? & ?). do 2 (split; [done|]). exists Φ. do 2 (split; [done|]). by intros d' _ ?. Qed.

(** The key that was looked up, or its absence, at [now] or later. *)
Definition found (public : string) (now : Z) (o : option Key) (d : D) : Prop :=
  now <= keys_now (get d) /\ match o with Some k => held_until k public now (get d) | None => none_before public now (get d) end.
Lemma stable_found public now o : stable P R (found public now o).
Proof. unfold found. destruct o; [apply stable_held|apply stable_none]. Qed.

Lemma rg_ask_err {A E} (S : D -> Prop) (e : E) (f : D -> A) (Φ : A -> D -> Prop) :
  stable P R S -> (forall a, stable P R (Φ a)) -> (forall d, P d -> S d -> Φ (f d) d) ->
  rg P R S (ask e f) (fun r d => S d /\ match r with Ok a => Φ a d | Err e' => e' = e end).
Proof.
  intros HS HΦ Hf x d HP Hd. assert ((match x with FLost => d | _ => d end) = d) as Hx by (by destruct x). cbn. rewrite Hx.
  split; [done|]. split; [reflexivity|]. exists (fun d' => S d' /\ match x with FNone => Φ (f d) d' | _ => True end). split; [|split].
  - apply stable_and; [done|]. destruct x; [apply HΦ|apply stable_true..].
  - split; [done|]. destruct x; auto.
  - intros d' _ [? ?]. split; [done|]. by destruct x.
Qed.

Lemma rg_KeyByPublic public now :
  rg P R (fun d => now <= keys_now (get d)) (KeyByPublic public)
    (fun r d => now <= keys_now (get d) /\ match r with Ok k => found public now (Some k) d | Err ErrKeyNotFound => found public now None d | Err _ => True end).
Proof.
  unfold KeyByPublic. eapply rg_bind.
  - apply (rg_ask_err _ ErrKeySQL (fun d : D => key_by_public public (get d)) (fun o => found public now o)); [apply stable_since|apply stable_found|].
    intros d HP Hnow. split; [done|]. destruct (key_by_public public (get d)) as [k|] eqn:Hk.
    + eapply held_until_mono; [exact Hnow|]. by apply key_by_public_held.
    + eapply none_before_mono; [exact Hnow|]. by apply key_by_public_none.
  - intros [[k|]|e]; intros d HP [Hn Hf]; (split; [exact Hn|]); [exact Hf|exact Hf|by subst e].
Qed.

Lemma rg_store_entry r public now o start :
  rg P R (fun d => start <= now /\ found public now o d)
    (store_entry order r public (mkEntry o (now + match o with Some _ => ttl | None => negTTL end)))
    (fun _ => answering start public (match o with Some k => Ok k | None => Err ErrKeyNotFound end)).
Proof.
  apply rg_pmodify; [apply stable_answering|]. intros d HP (Hs & Hnow & Hf).
  assert (0 < ttl /\ 0 < negTTL) as [] by done.
  destruct (cache_store_keeps order order_perm r public (mkEntry o (now + match o with Some _ => ttl | None => negTTL end)) (get d)) as [HW HM]; [done|..].
  - unfold entry_ok. cbn. destruct o; (replace (_ + _ - _) with now by lia); done.
  - cbn. destruct o; lia.
  - cbn. rewrite get_put. split; [done|]. split; [done|]. split; [pose proof (km_now _ _ HM); rewrite get_put; lia|]. rewrite get_put.
    apply (answer_ok_moves (get d)); [done|]. unfold answer_ok. cbn. destruct o; exists now; (split; [lia|done]).
Qed.

Lemma rg_Resolve r public start :
  rg P R (fun d => start <= keys_now (get d)) (Resolve order r public) (answering start public).
Proof.
  unfold Resolve. eapply rg_bind.
  - apply (rg_pgets P R _ (fun d : D => keys_now (get d)) (fun now d => start <= now <= keys_now (get d))); [apply stable_since| |done].
    intros now d d' _ _ Hm [? ?]. pose proof (km_now _ _ Hm). lia.
  - intros now. eapply rg_bind.
    + apply (rg_pgets P R _ (fun d : D => match cache_entries r (get d) !! public with
          | Some e => if live_entry now e then Some e else None | None => None end)
        (fun hit d => (start <= now <= keys_now (get d)) /\
           match hit with Some e => answering start public (match e_key e with Some k => Ok k | None => Err ErrKeyNotFound end) d | None => True end)).
      * intros d d' _ _ Hm [? [? ?]]. pose proof (km_now _ _ Hm). lia.
      * intros hit d d' HP HP' Hm [? Hh]. split; [pose proof (km_now _ _ Hm); lia|]. destruct hit; [exact (stable_answering _ _ _ d d' HP HP' Hm Hh)|done].
      * intros d HP [_ Hs]. split; [done|]. destruct (cache_entries r (get d) !! public) as [e|] eqn:He; [|done].
        destruct (live_entry now e) eqn:Hl; [|done]. apply Z.ltb_lt in Hl. pose proof (kw_cache _ HP r public e He) as Hok.
        pose proof (kw_time _ HP r public e He) as Ht. unfold entry_ok in Hok. split; [lia|]. unfold answer_ok. cbn.
        destruct (e_key e); eexists; (split; [|exact Hok]); lia.
    + intros [e|]; [intros d HP (_ & _ & Ha); exact Ha|].
      eapply (rg_weaken P R (fun d => start <= now /\ now <= keys_now (get d))); [intros d _ (_ & [? ?] & _); done|]. apply rg_pure. intros Hs.
      eapply rg_bind; [apply (rg_KeyByPublic public now)|]. intros [k|[]].
      * eapply rg_bind; [eapply rg_weaken; [|apply (rg_store_entry r public now (Some k) start)]; intros d _ [_ Hf]; by split|]. by intros [] d _ ?.
      * intros d _ [? _]. split; [lia|done].
      * eapply rg_bind; [eapply rg_weaken; [|apply (rg_store_entry r public now None start)]; intros d _ [_ Hf]; by split|]. by intros [] d _ ?.
      * intros d _ [? _]. split; [lia|done].
Qed.

Inductive key_op :=
| OpCreateKeys (projectID : Z) (ks : list (KeyKind * string))
| OpRevokeKey (keyID : Z)
| OpResolve (r : nat) (publicKey : string).

Definition key_prog (op : key_op) : prog D () :=
  match op with
  | OpCreateKeys projectID ks => _r ← CreateKeys projectID ks; mret tt
  | OpRevokeKey keyID => _r ← RevokeKey keyID; mret tt
  | OpResolve r publicKey =>
      start ← pgets (fun d => keys_now (get d));
      a ← Resolve order r publicKey;
      pmodify (fun d => put (note (mkAnswer start publicKey a) (get d)) d)
  end.

Lemma keys_stmt_safe {A B} (q : Keys -> result key_error A * Keys) (k : result key_error A -> prog D B) :
  (forall t, keys_wf t -> keys_wf (q t).2 /\ keys_moves t (q t).2) -> (forall r, keys_safe (k r)) ->
  keys_safe (mbind k (callE ErrKeySQL (on q))).
Proof.
  intros Hq Hk. eapply rg_bind; [|intros r; eapply rg_weaken; [|apply Hk]; done].
  apply (rg_callE P R (fun _ => True) ErrKeySQL (on q) (fun _ _ => True)); [done..|].
  intros d HP _. rewrite get_on. destruct (Hq (get d) HP). split_and!; [done..|by destruct (on q d).1].
Qed.

Lemma key_prog_safe op : keys_safe (key_prog op).
Proof.
  destruct op as [projectID ks|keyID|r public]; cbn [key_prog].
  - unfold CreateKeys. destruct (_ || _); [done|]. apply keys_stmt_safe; [|done]. intros t W.
    destruct (insert_keys projectID ks t) as [[keys t']|] eqn:Hi; [|done]. by eapply insert_keys_keeps.
  - apply keys_stmt_safe; [|done]. intros t. apply revoke_keeps.
  - eapply rg_bind.
    + apply (rg_pgets P R _ (fun d : D => keys_now (get d)) (fun start d => start <= keys_now (get d))); [done|apply stable_since|done].
    + intros start. eapply rg_bind; [eapply rg_weaken; [|apply rg_Resolve]; by intros d _ [_ ?]|]. intros a.
      eapply rg_mono; [apply (rg_pmodify _ (fun _ => True)); [done|]|done]. intros d HP [_ Ha].
      destruct (note_keeps (mkAnswer start public a) (get d)) as [HW HM]; [done..|]. by rewrite !get_put.
Qed.
End safety.

(** ** Theorem *)

(** Time passes, projects come, and go with their keys. *)
Definition keys_env {D} `{Has Keys D} (d d' : D) : Prop :=
  let t := get d in
  (exists now ps, keys_now t <= now /\ projects t ⊆ ps /\
     get d' = mkKeys (project_keys t) (next_key t) ps (key_caches t) now (ended t) (answers t)) \/
  exists p, get d' = delete_project p t.

(** C7: a key that was revoked, or whose project is gone, is refused half a
    minute later, and a new one works within ten seconds. However requests,
    creations and revocations interleave on all replicas, with crashes, lost
    connections and caches that overflow: a key that [Resolve] answered is the
    key that was asked for, of its project and kind, and had not ended half a
    minute before the call; one it did not find is not a key that was made
    more than ten seconds before; and no cache holds more than its limit. *)
Theorem keys_bounded_staleness {D} `{HK : Has Keys D} (order : list string -> list string) (d0 : D) (s : pool D) :
  (forall l, order l ≡ₚ l) -> keys_wf (get d0) ->
  rtc (pool_step (fun p => exists op, p = key_prog order op) keys_env) (Pool d0 [] 0) s ->
  let t := get (shared s) in
  (forall r, (size (cache_entries r t) <= maxKeyCacheEntries)%nat) /\
  forall a, a ∈ answers t -> match a_result a with
    | Ok k => PublicKey k = a_public a /\
        (forall row, project_keys t !! key_ID k = Some row ->
           k_public row = a_public a /\ k_project row = key_ProjectID k /\ k_kind row = Kind k) /\
        (forall e, ended t !! key_ID k = Some e -> a_start a < e + ttl)
    | Err ErrKeyNotFound => forall id row, project_keys t !! id = Some row -> k_public row = a_public a ->
        k_revoked row = None -> a_start a < k_created row + negTTL
    | Err _ => True
    end.
Proof.
  intros Hp H0 Hr t. assert (keys_wf t) as [].
  { eapply (rg_pool (fun d : D => keys_wf (get d)) (fun d d' : D => keys_moves (get d) (get d'))); [| |exact H0|exact Hr].
    - intros p [op ->]. by apply key_prog_safe.
    - intros d d' [(now & ps & Hnow & Hps & ->)|(p & ->)] HP; [by apply clock_keeps|by apply delete_project_keeps]. }
  split; [done|]. intros a Ha. pose proof (proj1 (Forall_forall _ _) kw_answers0 a Ha) as Hok. unfold answer_ok in Hok.
  destruct (a_result a) as [k|[]]; try done.
  - destruct Hok as (lo & Hlo & []). split_and!; [done..|]. intros e He. specialize (hu_end0 e He). lia.
  - destruct Hok as (lo & Hlo & Hn). intros id row Hr1 Hp1 Hv. specialize (Hn id row Hr1 Hp1 Hv). lia.
Qed.

(** Key 1 of project 7, and the clock at one minute. *)
Definition ex_keys (now : Z) : Keys := mkKeys {[1 := mkKeyRow 7 "pub" KindServer 0 None]} 2 {[7 := 3]} ∅ now ∅ [].
Lemma ex_keys_wf : keys_wf (ex_keys minute).
Proof.
  constructor; cbn; try done.
  - intros id row [<- <-]%lookup_singleton_Some. cbn. split; [done|]. by vm_compute.
  - intros id row [<- <-]%lookup_singleton_Some. by eexists.
  - intros r. unfold cache_entries. cbn. rewrite lookup_empty. cbn. rewrite map_size_empty. apply Nat.le_0_l.
Qed.

Definition ex_key_op (op : key_op) : prog Keys () := key_prog (fun l => l) op.
Definition ex_later (dt : Z) (t : Keys) : Keys :=
  mkKeys (project_keys t) (next_key t) (projects t) (key_caches t) (keys_now t + dt) (ended t) (answers t).

(** The key is asked for and revoked; twenty seconds later the cache still
    answers it, forty seconds later nobody does. *)
Definition ex_key_moves : list (list (pool_move (D := Keys))) :=
  [MStart (ex_key_op (OpResolve 0 "pub")) :: replicate 6 (MStep 0 FNone) ++ MStart (ex_key_op (OpRevokeKey 1)) :: [MStep 0 FNone];
   MStart (ex_key_op (OpResolve 0 "pub")) :: replicate 4 (MStep 0 FNone);
   MStart (ex_key_op (OpResolve 0 "pub")) :: replicate 6 (MStep 0 FNone)].

Fixpoint ex_key_run (mss : list (list (pool_move (D := Keys)))) (s : pool Keys) : option (pool Keys) :=
  match mss with
  | [] => Some s
  | ms :: mss => match play ms (Pool (ex_later (20 * second) (shared s)) (procs s) (lost s)) with
                 | Some s => ex_key_run mss s
                 | None => None
                 end
  end.

Lemma ex_key_run_reach mss : forall s s', Forall (Forall (starts (fun p => exists op, p = key_prog (fun l => l) op))) mss ->
  ex_key_run mss s = Some s' -> rtc (pool_step (fun p => exists op, p = key_prog (fun l => l) op) keys_env) s s'.
Proof.
  induction mss as [|ms mss IH]; intros [d ps n] s' Hms; cbn [ex_key_run]; [intros [= <-]; apply rtc_refl|].
  apply Forall_cons in Hms as [H1 H2]. destruct (play _ _) as [s1|] eqn:Hp; [|done]. intros Hs.
  eapply rtc_l; [|etrans; [by apply (play_reach _ _ ms _ _ H1 Hp)|by apply IH]]. constructor. left.
  exists (keys_now d + 20 * second), (projects d). split; [|done]. assert (0 <= 20 * second) by done. cbn. lia.
Qed.

Lemma ex_key_moves_start : Forall (Forall (starts (fun p => exists op, p = key_prog (fun l => l) op))) ex_key_moves.
Proof. unfold ex_key_moves. repeat constructor; by eexists. Qed.

Lemma keys_bounded_staleness_witness :
  exists s : pool Keys,
    map (fun a => match a_result a with Ok k => key_ID k | Err _ => 0 end) (answers (shared s)) = [1; 1; 0] /\
    let t := get (shared s) in
    (forall r, (size (cache_entries r t) <= maxKeyCacheEntries)%nat) /\
    forall a, a ∈ answers t -> match a_result a with
      | Ok k => PublicKey k = a_public a /\
          (forall row, project_keys t !! key_ID k = Some row ->
             k_public row = a_public a /\ k_project row = key_ProjectID k /\ k_kind row = Kind k) /\
          (forall e, ended t !! key_ID k = Some e -> a_start a < e + ttl)
      | Err ErrKeyNotFound => forall id row, project_keys t !! id = Some row -> k_public row = a_public a ->
          k_revoked row = None -> a_start a < k_created row + negTTL
      | Err _ => True
      end.
Proof.
  destruct (ex_key_run ex_key_moves (Pool (ex_keys minute) [] 0)) as [s|] eqn:Hs; [|vm_compute in Hs; discriminate Hs].
  exists s. split; [by vm_compute in Hs; injection Hs as <-|].
  apply (keys_bounded_staleness (fun l => l) (ex_keys minute) s); [done|exact ex_keys_wf|].
  exact (ex_key_run_reach _ _ _ ex_key_moves_start Hs).
Defined.
