(* ===== verification/Unmarshal.v ===== *)
(** [json.Unmarshal]: the text is checked as a whole; then every member of an
    object, in order, goes to the field of its name, elements of an array to
    those of a slice, and numbers are rounded to binary64.

    A decoder is given what the field holds and the text of the value; [None]
    is an [UnmarshalTypeError].  What a slice keeps beyond its length, when a
    key given three times shrinks and grows it, is not modelled. *)
From stdpp Require Import base tactics list gmap strings.
From Stdlib Require Import ZArith Lia Ascii Floats.SpecFloat.
From S2P Require Import Prelude.
From S2P Require Import GoString.
From S2P Require Import Json.
From S2P Require Import JsonText.

Open Scope Z_scope.

(** ** Texts *)

(** [checkValid]: one value and white space. *)
Definition valid_json (l : chars) : bool :=
  match Decode l with DecodedValue _ rest => bool_decide (skip_ws rest = []) | _ => false end.

(** The value [l] begins with, as it is written, and what follows. *)
Definition raw_value (l : chars) : option (chars * chars) :=
  let l := skip_ws l in
  match json_value (2 + 2 * length l) 0 l with
  | Some (_, rest) => Some (take (length l - length rest) l, rest)
  | None => None
  end.

(** The members of an object behind its brace. *)
Fixpoint raw_members (fuel : nat) (l : chars) : option (list (string * chars)) :=
  match fuel, skip_ws l with
  | S fuel, c :: r =>
      if Ascii.eqb c "}" then Some []
      else if negb (Ascii.eqb c quote_char) then None
      else match raw_string r with
           | Some (k, rest) =>
               match skip_ws rest with
               | _ :: r =>
                   match raw_value r with
                   | Some (v, rest) =>
                       match skip_ws rest with
                       | c :: r => if Ascii.eqb c ","
                                   then match raw_members fuel r with Some ms => Some ((unquote k, v) :: ms) | None => None end
                                   else Some [(unquote k, v)]
                       | [] => None
                       end
                   | None => None
                   end
               | [] => None
               end
           | None => None
           end
  | _, _ => None
  end.

(** The elements of an array behind its bracket. *)
Fixpoint raw_elems (fuel : nat) (l : chars) : option (list chars) :=
  match fuel, skip_ws l with
  | S fuel, c :: r =>
      if Ascii.eqb c "]" then Some []
      else match raw_value (c :: r) with
           | Some (v, rest) =>
               match skip_ws rest with
               | c :: r => if Ascii.eqb c "," then match raw_elems fuel r with Some vs => Some (v :: vs) | None => None end else Some [v]
               | [] => None
               end
           | None => None
           end
  | _, _ => None
  end.

Inductive json_kind := KNull | KObject (members : list (string * chars)) | KArray (elems : list chars) | KOther.

Definition kind_of (l : chars) : json_kind :=
  match skip_ws l with
  | c :: r => if Ascii.eqb c "n" then KNull
              else if Ascii.eqb c "{" then match raw_members (length l) r with Some ms => KObject ms | None => KOther end
              else if Ascii.eqb c "[" then match raw_elems (length l) r with Some vs => KArray vs | None => KOther end
              else KOther
  | [] => KOther
  end.

(** ** Names *)

(** [foldName], as far as names of ASCII letters are compared with it: the
    long s and the sign of Kelvin fold to letters. *)
Definition fold_rune (r : Z) : Z :=
  if (65 <=? r) && (r <=? 90) then r + 32 else if r =? 383 then 115 else if r =? 8490 then 107 else r.
Definition fold_name (s : string) : list Z := map fold_rune (runes (chars_of s)).

Section fields.
Context {A : Type}.

Definition decoder : Type := A -> chars -> option A.

Definition field_of (fields : list (string * decoder)) (name : string) : option decoder :=
  match List.filter (fun f => String.eqb (fst f) name) fields with
  | f :: _ => Some (snd f)
  | [] => match List.filter (fun f => bool_decide (fold_name (fst f) = fold_name name)) fields with
          | f :: _ => Some (snd f)
          | [] => None
          end
  end.

Definition struct_dec (fields : list (string * decoder)) : decoder := fun old l =>
  match kind_of l with
  | KNull => Some old
  | KObject members =>
      foldl (fun acc kv => match acc, field_of fields (fst kv) with
                           | Some a, Some dec => dec a (snd kv)
                           | _, _ => acc
                           end) (Some old) members
  | _ => None
  end.

Definition Unmarshal (dec : decoder) (zero : A) (l : chars) : option A := if valid_json l then dec zero l else None.
End fields.
Arguments decoder : clear implicits.

(** ** Values *)

Definition string_dec : decoder string := fun old l =>
  match Decode l with DecodedValue (JStr s) _ => Some s | DecodedValue JNull _ => Some old | _ => None end.

(** [strconv.ParseInt] of a number, for an [int64]. *)
Definition int_literal (l : chars) : option Z :=
  let '(neg, ds) := match l with c :: r => if Ascii.eqb c "-" then (true, r) else (false, l) | [] => (false, []) end in
  if bool_decide (ds = []) || negb (forallb is_digit ds) then None else
  let n := foldl (fun a c => 10 * a + (byte_of c - 48)) 0 ds in
  let n := if neg : bool then - n else n in
  if (- 2 ^ 63 <=? n) && (n <? 2 ^ 63) then Some n else None.

(** A field of type [*int64]. *)
Definition int_ptr_dec : decoder (option Z) := fun old l =>
  match Decode l with
  | DecodedValue (JNum n) _ => Some <$> int_literal (chars_of n)
  | DecodedValue JNull _ => Some None
  | _ => None
  end.

(** A decoder of one field of a record. *)
Definition on_field {A B} (get : A -> B) (set : B -> A -> A) (dec : decoder B) : decoder A := fun a l =>
  match dec (get a) l with Some b => Some (set b a) | None => None end.

(** ** Other types *)

(** [json.RawMessage]: the text as it stands, null as well. *)
Definition raw_dec : decoder chars := fun _ l => Some l.

Definition bool_dec : decoder bool := fun old l =>
  match Decode l with DecodedValue (JBool b) _ => Some b | DecodedValue JNull _ => Some old | _ => None end.

Section containers.
Context {A : Type} (zero : A) (dec : decoder A).

(** A pointer is allocated when it is nil. *)
Definition ptr_dec : decoder (option A) := fun old l =>
  match kind_of l with KNull => Some None | _ => Some <$> dec (default zero old) l end.

(** An element that was there before is decoded over. *)
Fixpoint elems_dec (old : list A) (vs : list chars) : option (list A) :=
  match vs with
  | [] => Some []
  | v :: vs =>
      match dec (default zero (head old)) v, elems_dec (tail old) vs with
      | Some a, Some l => Some (a :: l)
      | _, _ => None
      end
  end.

Definition slice_dec : decoder (list A) := fun old l =>
  match kind_of l with KNull => Some [] | KArray vs => elems_dec old vs | _ => None end.

(** An array of two: what is missing is zero, what is more is skipped. *)
Definition pair_dec : decoder (A * A) := fun old l =>
  match kind_of l with
  | KNull => Some old
  | KArray vs =>
      match (match vs with v :: _ => dec old.1 v | [] => Some zero end), (match vs with _ :: v :: _ => dec old.2 v | _ => Some zero end) with
      | Some a, Some b => Some (a, b)
      | _, _ => None
      end
  | _ => None
  end.

(** [map[string]A] *)
Definition map_dec : decoder (gmap string A) := fun old l =>
  match kind_of l with
  | KNull => Some ∅
  | KObject members =>
      foldl (fun acc kv => match acc, dec zero kv.2 with Some m, Some a => Some (<[kv.1 := a]> m) | _, _ => None end) (Some old) members
  | _ => None
  end.
End containers.

(** ** Numbers *)

Definition digits_value (n : Z) (ds : chars) : Z := foldl (fun a c => 10 * a + (byte_of c - 48)) n ds.

(** The mantissa and the exponent of ten of a literal; [strconv] stops reading
    an exponent once it has five digits. *)
Definition number_parts (l : chars) : bool * Z * Z :=
  let '(neg, l) := match l with c :: r => if Ascii.eqb c "-" then (true, r) else (false, l) | [] => (false, []) end in
  let int := take (span is_digit l) l in
  let l := drop (span is_digit l) l in
  let '(frac, l) := match l with
                    | c :: r => if Ascii.eqb c "." then (take (span is_digit r) r, drop (span is_digit r) r) else ([], l)
                    | [] => ([], [])
                    end in
  let exp := match l with
             | _ :: r =>
                 let '(sign, r) := match r with
                                   | c :: r' => if Ascii.eqb c "-" then (-1, r') else if Ascii.eqb c "+" then (1, r') else (1, r)
                                   | [] => (1, [])
                                   end in
                 sign * foldl (fun e c => if e <? 10000 then 10 * e + (byte_of c - 48) else e) 0 r
             | [] => 0
             end in
  (neg, digits_value (digits_value 0 int) frac, exp - Z.of_nat (length frac)).

(** The nearest binary64, ties to even. *)
Definition decimal_float (neg : bool) (m e : Z) : spec_float :=
  if m =? 0 then S754_zero neg
  else if 0 <=? e then binary_normalize 53 1024 ((if neg then -1 else 1) * m * 10 ^ e) 0 neg
  else SFdiv 53 1024 (S754_finite neg (Z.to_pos m) 0) (S754_finite false (Z.to_pos (10 ^ (- e))) 0).

(** [strconv.ParseFloat]: beyond the largest is an error. *)
Definition parse_float (l : chars) : option spec_float :=
  let '(neg, m, e) := number_parts l in
  match decimal_float neg m e with S754_infinity _ => None | f => Some f end.

Definition float_dec : decoder spec_float := fun old l =>
  match Decode l with
  | DecodedValue (JNum n) _ => parse_float (chars_of n)
  | DecodedValue JNull _ => Some old
  | _ => None
  end.

(** Every number of a value, those of keys given again as well, is a float64. *)
Fixpoint floats_ok (fuel : nat) (l : chars) : bool :=
  match fuel with
  | O => true
  | S fuel =>
      match kind_of l with
      | KObject members => forallb (fun kv => floats_ok fuel kv.2) members
      | KArray vs => forallb (floats_ok fuel) vs
      | KNull => true
      | KOther => match Decode l with DecodedValue (JNum n) _ => negb (is_nil (parse_float (chars_of n))) | _ => true end
      end
  end.

(** Into an [any]; numbers keep their literals. *)
Definition any_dec : decoder json := fun _ l =>
  if floats_ok (length l) l then match Decode l with DecodedValue v _ => Some v | _ => None end else None.

Example parse_float_ex : map (fun s => parse_float (chars_of s)) ["1.7"; "-25e-1"; "0.0"; "1e400"; "1e-400"; "9007199254740993"]
  = [Some (S754_finite false 7656119366529843 (-52)); Some (S754_finite true 5629499534213120 (-51)); Some (S754_zero false); None;
     Some (S754_zero false); Some (S754_finite false 4503599627370496 1)].
Proof. vm_compute. reflexivity. Qed.
Example containers_ex :
  (map_to_list <$> Unmarshal (map_dec ""%string string_dec) ∅ (chars_of (q "{'a':'x','b':null,'a':'y'}")),
   Unmarshal (slice_dec (""%string, ""%string) (pair_dec ""%string string_dec)) [] (chars_of (q "[['k','v',3],['w'],[ ]]")),
   Unmarshal (slice_dec ""%string string_dec) ["old"]%string (chars_of (q "[null , 'n']")),
   Unmarshal any_dec JNull (chars_of (q "{'a':[1e999],'a':1}")))
  = (Some [("a", "y"); ("b", "")], Some [("k", "v"); ("w", ""); ("", "")], Some ["old"; "n"], None)%string.
Proof. vm_compute. reflexivity. Qed.
