(* ===== verification/Envelope.v ===== *)
(** Envelopes of the Sentry SDKs: [internal/ingest/envelope.go].

    A line of JSON, then items: a line of JSON and a payload, of the length
    the line names or up to the end of the line.  [stream] is what is left to
    read of the body and how reading it ends. *)
From stdpp Require Import base tactics list gmap strings.
From Stdlib Require Import ZArith Lia Ascii.
From S2P Require Import Prelude.
From S2P Require Import GoString.
From S2P Require Import Json.
From S2P Require Import JsonText.
From S2P Require Import Unmarshal.
From S2P Require Import Keys.

Open Scope Z_scope.

(** ** Data *)

(** What a reader of the body ends with: [limitedReader] with [ErrTooLarge],
    [http.MaxBytesReader] with [MaxBytesError]. *)
Inductive read_error := EOF | ErrTooLarge | MaxBytesError | ErrRead.
Inductive env_error := ErrMalformed | Reading (e : read_error).

Definition maxEnvelopeItems : Z := 1000.

Record stream := mkStream { unread : chars; finally : read_error }.

Record Envelope := mkEnvelope {
  env_EventID : string; Events : list chars; Transactions : list chars; Profiles : list chars;
  env_Dropped : Z; ScopeRejected : gmap IngestSignal Z }.


Definition add_item (signal : IngestSignal) (payload : chars) (e : Envelope) : Envelope :=
  match signal with
  | SignalEvent => mkEnvelope (env_EventID e) (Events e ++ [payload]) (Transactions e) (Profiles e) (env_Dropped e) (ScopeRejected e)
  | SignalTransaction => mkEnvelope (env_EventID e) (Events e) (Transactions e ++ [payload]) (Profiles e) (env_Dropped e) (ScopeRejected e)
  | _ => mkEnvelope (env_EventID e) (Events e) (Transactions e) (Profiles e ++ [payload]) (env_Dropped e) (ScopeRejected e)
  end.
Definition drop_item (e : Envelope) : Envelope :=
  mkEnvelope (env_EventID e) (Events e) (Transactions e) (Profiles e) (env_Dropped e + 1) (ScopeRejected e).
Definition reject_item (signal : IngestSignal) (e : Envelope) : Envelope :=
  mkEnvelope (env_EventID e) (Events e) (Transactions e) (Profiles e) (env_Dropped e)
    (<[signal := default 0 (ScopeRejected e !! signal) + 1]> (ScopeRejected e)).

Record itemHeader := mkItemHeader { ih_Type : string; ih_Length : option Z }.

Definition header_dec : decoder string := struct_dec [("event_id"%string, string_dec)].
Definition item_dec : decoder itemHeader :=
  struct_dec [("type"%string, on_field ih_Type (fun x h => mkItemHeader x (ih_Length h)) string_dec);
              ("length"%string, on_field ih_Length (fun n h => mkItemHeader (ih_Type h) n) int_ptr_dec)].

(** ** Reading *)

Definition newline : ascii := char_of 10.

(** [n] bytes of the line were read.  Of a line that is too long the code
    answers nil; no caller looks at the line then. *)
Fixpoint read_line (limit n : Z) (l : chars) (fin : read_error) : chars * option read_error * chars :=
  match l with
  | [] => ([], Some fin, [])
  | c :: r =>
      if Ascii.eqb c newline then ([], None, r)
      else if limit <? n + 1 then ([], Some ErrTooLarge, r)
      else let '(line, err, rest) := read_line limit (n + 1) r fin in (c :: line, err, rest)
  end.

Definition readLine (limit : Z) (s : stream) : chars * option read_error * stream :=
  let '(line, err, rest) := read_line limit 0 (unread s) (finally s) in (line, err, mkStream rest (finally s)).

(** [io.ReadFull] *)
Definition read_full (n : Z) (s : stream) : result read_error (chars * stream) :=
  if Z.of_nat (length (unread s)) <? n
  then Err (match finally s with EOF => if bool_decide (unread s = []) then EOF else ErrRead | e => e end)
  else Ok (take (Z.to_nat n) (unread s), mkStream (drop (Z.to_nat n) (unread s)) (finally s)).

(** A line break behind a payload, if there is one. *)
Definition eat_newline (s : stream) : stream :=
  match unread s with
  | c :: r => if Ascii.eqb c newline then mkStream r (finally s) else s
  | [] => s
  end.

Section parse.
Variable maxItem : Z.
(** The scope of the key, if there is one. *)
Variable allow : IngestSignal -> bool.

Definition read_payload (len : option Z) (s : stream) : result env_error (chars * stream) :=
  match len with
  | Some n =>
      if n <? 0 then Err ErrMalformed else
      if maxItem <? n then Err (Reading ErrTooLarge) else
      match read_full n s with
      | Ok (payload, s) => Ok (payload, eat_newline s)
      | Err e => Err (Reading e)
      end
  | None =>
      let '(payload, err, s) := readLine maxItem s in
      match err with
      | Some EOF | None => Ok (payload, s)
      | Some e => Err (Reading e)
      end
  end.

Definition envelopeItemSignal (type : string) : IngestSignal :=
  if String.eqb type "transaction" then SignalTransaction else if String.eqb type "profile" then SignalProfile else SignalEvent.
Definition known_type (type : string) : bool := existsb (String.eqb type) ["event"; "transaction"; "profile"]%string.

(** How many items were known, and the envelope. *)
Definition take_item (type : string) (payload : chars) (acc : Z * Envelope) : Z * Envelope :=
  let '(known, env) := acc in
  if negb (known_type type) then (known, env) else
  let known := known + 1 in
  if maxEnvelopeItems <? known then (known, drop_item env) else
  let signal := envelopeItemSignal type in
  (known, if allow signal then add_item signal payload env else reject_item signal env).

Fixpoint parse_items (fuel : nat) (s : stream) (acc : Z * Envelope) : result env_error Envelope :=
  match fuel with
  | O => Err ErrMalformed
  | S fuel =>
      let '(line, err, s) := readLine maxItem s in
      match err with
      | Some EOF | None =>
          if bool_decide (line = []) then Ok (snd acc) else
          match Unmarshal item_dec (mkItemHeader "" None) line with
          | None => Err ErrMalformed
          | Some ih =>
              match read_payload (ih_Length ih) s with
              | Err e => Err e
              | Ok (payload, s) => parse_items fuel s (take_item (ih_Type ih) payload acc)
              end
          end
      | Some e => Err (Reading e)
      end
  end.

(** Every item takes a byte at least. *)
Definition ParseEnvelope (s : stream) : result env_error Envelope :=
  let '(line, err, s') := readLine maxItem s in
  match err with
  | Some EOF | None =>
      if bool_decide (line = []) then Err ErrMalformed else
      match Unmarshal header_dec ""%string line with
      | None => Err ErrMalformed
      | Some id => parse_items (S (length (unread s'))) s' (0, mkEnvelope id [] [] [] 0 ∅)
      end
  | Some e => Err (Reading e)
  end.
End parse.

Definition lines (ls : list string) : chars := flat_map (fun l => chars_of (q l) ++ [newline]) ls.
Example parse_ex :
  match ParseEnvelope 100 (scopeAllows KindBrowser) (mkStream (lines ["{'EVENT_id':'e1','sent_at':null}"; "{'type':'event','length':3}"; "{
}"; "{'length':2,'x':[{}],'type':'profile'}"; "ab"; "{'type':'session'}"; "zz"; "{'type':'transaction'}"; "{'a':1}"]) EOF) with
  | Ok e => Some (env_EventID e, map text (Events e), map text (Transactions e), map text (Profiles e), map_to_list (ScopeRejected e))
  | Err _ => None
  end = Some ("e1", ["{
}"], [q "{'a':1}"], [], [(SignalProfile, 1)])%string.
Proof. vm_compute. reflexivity. Qed.

(** ** Lines and payloads *)

Definition no_newline (l : chars) : Prop := Forall (fun c => Ascii.eqb c newline = false) l.

Lemma read_line_exact limit n line rest fin :
  no_newline line -> n + Z.of_nat (length line) <= limit ->
  read_line limit n (line ++ newline :: rest) fin = (line, None, rest).
Proof.
  intros Hl. revert n. induction Hl as [|c line Hc _ IH]; intros n Hn; cbn [app read_line].
  - by rewrite Ascii.eqb_refl.
  - rewrite Hc. cbn [length] in Hn. destruct (Z.ltb_spec limit (n + 1)); [lia|]. by rewrite IH by lia.
Qed.

Lemma readLine_exact limit line rest fin :
  no_newline line -> Z.of_nat (length line) <= limit ->
  readLine limit (mkStream (line ++ newline :: rest) fin) = (line, None, mkStream rest fin).
Proof. intros Hl Hn. unfold readLine. cbn [unread finally]. by rewrite read_line_exact by (done || lia). Qed.

(** Nothing is read twice, and no more than the limit. *)
Lemma read_line_spec limit l fin : forall n line err rest,
  read_line limit n l fin = (line, err, rest) ->
  (length line + length rest <= length l)%nat /\
  match err with
  | None => (length line + length rest < length l)%nat
  | Some e => e = fin /\ rest = [] \/ e = ErrTooLarge
  end /\ (n <= limit -> n + Z.of_nat (length line) <= limit).
Proof.
  induction l as [|c l IH]; intros n line err rest; cbn [read_line].
  - intros [= <- <- <-]. split_and!; [cbn; lia|by left|cbn; lia].
  - destruct (Ascii.eqb c newline); [intros [= <- <- <-]; split_and!; cbn; lia|].
    destruct (Z.ltb_spec limit (n + 1)); [intros [= <- <- <-]; split_and!; [cbn; lia|by right|cbn; lia]|].
    destruct (read_line limit (n + 1) l fin) as [[line' err'] rest'] eqn:Hr. intros [= <- <- <-].
    destruct (IH _ _ _ _ Hr) as (H1 & H2 & H3). split_and!; cbn [length]; [lia| |lia]. destruct err'; [done|lia].
Qed.

Lemma readLine_spec limit s line err s' :
  readLine limit s = (line, err, s') ->
  (length line + length (unread s') <= length (unread s))%nat /\
  (err = None -> length line + length (unread s') < length (unread s))%nat /\
  (0 <= limit -> Z.of_nat (length line) <= limit).
Proof.
  unfold readLine. destruct (read_line limit 0 (unread s) (finally s)) as [[line' err'] rest'] eqn:Hr. intros [= <- <- <-].
  destruct (read_line_spec _ _ _ _ _ _ _ Hr) as (H1 & H2 & H3). cbn [unread]. split_and!; [done|by intros ->|lia].
Qed.

Lemma read_full_exact payload rest fin :
  read_full (Z.of_nat (length payload)) (mkStream (payload ++ rest) fin) = Ok (payload, mkStream rest fin).
Proof.
  unfold read_full. cbn [unread finally]. rewrite length_app. destruct (Z.ltb_spec (Z.of_nat (length payload + length rest)) (Z.of_nat (length payload))); [lia|].
  by rewrite Nat2Z.id, take_app_length, drop_app_length.
Qed.

Lemma read_full_spec n s payload s' :
  0 <= n -> read_full n s = Ok (payload, s') ->
  (length payload + length (unread s') <= length (unread s))%nat /\ Z.of_nat (length payload) = n.
Proof.
  unfold read_full. intros Hn. destruct (Z.ltb_spec (Z.of_nat (length (unread s))) n) as [|Hlen]; [done|].
  assert (length (unread s) = length (take (Z.to_nat n) (unread s)) + length (drop (Z.to_nat n) (unread s)))%nat as Hsum
    by (rewrite <- length_app, take_drop; done).
  intros [= <- <-]. cbn [unread]. rewrite length_take. rewrite length_take in Hsum. split; lia.
Qed.

Lemma eat_newline_le s : (length (unread (eat_newline s)) <= length (unread s))%nat.
Proof. unfold eat_newline. destruct (unread s) as [|c r] eqn:Hs; [by rewrite Hs|]. destruct (Ascii.eqb c newline); [cbn; lia|by rewrite Hs]. Qed.

(** ** Fuel *)
Section items.
Variables (maxItem : Z) (allow : IngestSignal -> bool).

Lemma read_payload_spec len s payload s' :
  0 <= maxItem -> read_payload maxItem len s = Ok (payload, s') ->
  (length payload + length (unread s') <= length (unread s))%nat /\ Z.of_nat (length payload) <= maxItem.
Proof.
  intros Hm. unfold read_payload. destruct len as [n|].
  - destruct (Z.ltb_spec n 0); [done|]. destruct (Z.ltb_spec maxItem n); [done|].
    destruct (read_full n s) as [[p s1]|e] eqn:Hr; [|done]. intros [= <- <-].
    apply read_full_spec in Hr as [H1 H2]; [|done]. pose proof (eat_newline_le s1). split; lia.
  - destruct (readLine maxItem s) as [[p err] s1] eqn:Hr. apply readLine_spec in Hr as (H1 & _ & H3).
    destruct err as [[]|]; intros [= <- <-]; (split; [done|lia]).
Qed.

(** More fuel than bytes changes nothing. *)
Lemma parse_items_fuel f g s acc :
  0 <= maxItem -> (length (unread s) < f)%nat -> (length (unread s) < g)%nat ->
  parse_items maxItem allow f s acc = parse_items maxItem allow g s acc.
Proof.
  intros Hm. revert g s acc. induction f as [|f IH]; intros [|g] s acc Hf Hg; [lia..|]. cbn [parse_items].
  destruct (readLine maxItem s) as [[line err] s1] eqn:Hr. apply readLine_spec in Hr as (H1 & H2 & _).
  assert (bool_decide (line = []) = false -> (length (unread s1) < length (unread s))%nat) as Hlt.
  { intros Hb%bool_decide_eq_false. destruct line; [done|]. cbn in H1. lia. }
  destruct err as [[]|]; try done; (destruct (bool_decide (line = [])) eqn:Hb; [done|]; specialize (Hlt eq_refl);
    destruct (Unmarshal item_dec _ line) as [ih|]; [|done]; destruct (read_payload maxItem _ s1) as [[payload s2]|e] eqn:Hp; [|done];
    apply read_payload_spec in Hp as [Hp _]; [|done]; apply IH; lia).
Qed.

(** ** What an envelope holds *)

Definition kept (e : Envelope) : list chars := Events e ++ Transactions e ++ Profiles e.
Definition weight (ps : list chars) : nat := sum_list_with length ps.

Record held_ok (acc : Z * Envelope) : Prop := {
  ho_known : Z.of_nat (length (kept acc.2)) + env_Dropped acc.2 <= acc.1;
  ho_count : Z.of_nat (length (kept acc.2)) <= maxEnvelopeItems;
  ho_dropped : 0 <= env_Dropped acc.2;
  ho_size : Forall (fun p => Z.of_nat (length p) <= maxItem) (kept acc.2);
  ho_events : Events acc.2 <> [] -> allow SignalEvent = true;
  ho_txs : Transactions acc.2 <> [] -> allow SignalTransaction = true;
  ho_profiles : Profiles acc.2 <> [] -> allow SignalProfile = true }.

Lemma add_item_kept type payload e :
  kept (add_item (envelopeItemSignal type) payload e) ≡ₚ payload :: kept e.
Proof.
  unfold envelopeItemSignal, kept. destruct (String.eqb type "transaction"); [|destruct (String.eqb type "profile")]; cbn;
    rewrite <- Permutation_cons_append; cbn; by rewrite <- ?Permutation_middle.
Qed.

Lemma take_item_held type payload acc :
  Z.of_nat (length payload) <= maxItem -> held_ok acc -> held_ok (take_item allow type payload acc).
Proof.
  destruct acc as [known e]. intros Hp []. cbn [fst snd] in *. unfold take_item.
  destruct (negb (known_type type)); [by constructor|]. cbv zeta.
  destruct (Z.ltb_spec maxEnvelopeItems (known + 1)); [constructor; unfold kept in *; cbn in *; auto; lia|].
  destruct (allow (envelopeItemSignal type)) eqn:Ha.
  - pose proof (add_item_kept type payload e) as Hk. assert (length (kept (add_item (envelopeItemSignal type) payload e)) = S (length (kept e))) as Hl by (by rewrite Hk).
    assert (env_Dropped (add_item (envelopeItemSignal type) payload e) = env_Dropped e) as Hd by (by destruct (envelopeItemSignal type)).
    constructor; cbn [fst snd]; rewrite ?Hl, ?Hd; try lia; [rewrite Hk; by constructor|..];
      unfold envelopeItemSignal in *; (destruct (String.eqb type "transaction"); [|destruct (String.eqb type "profile")]); cbn; auto.
  - constructor; unfold kept in *; cbn in *; auto; lia.
Qed.

Lemma take_item_weight type payload acc :
  (weight (kept (take_item allow type payload acc).2) <= weight (kept acc.2) + length payload)%nat.
Proof.
  destruct acc as [known e]. unfold take_item. destruct (negb (known_type type)); [cbn [snd]; lia|]. cbn [snd].
  cbv zeta. destruct (_ <? _); cbn [snd]; [change (kept (drop_item e)) with (kept e); lia|].
  destruct (allow _); [|change (kept (reject_item (envelopeItemSignal type) e)) with (kept e); lia].
  unfold weight. rewrite (add_item_kept type payload e). cbn. lia.
Qed.

Lemma parse_items_held fuel s acc env :
  0 <= maxItem -> held_ok acc -> parse_items maxItem allow fuel s acc = Ok env ->
  exists known, held_ok (known, env) /\ (weight (kept env) <= weight (kept acc.2) + length (unread s))%nat.
Proof.
  intros Hm. revert s acc. induction fuel as [|fuel IH]; intros s acc Hacc; cbn [parse_items]; [done|].
  destruct (readLine maxItem s) as [[line err] s1] eqn:Hr. apply readLine_spec in Hr as (H1 & _ & _).
  destruct err as [[]|]; try done; (destruct (bool_decide (line = []));
    [intros [= <-]; exists acc.1; destruct acc; split; [done|cbn; lia]|]);
    (destruct (Unmarshal item_dec _ line) as [ih|]; [|done]; destruct (read_payload maxItem _ s1) as [[payload s2]|e] eqn:Hp; [|done];
     apply read_payload_spec in Hp as [Hlen Hmax]; [|done]; intros Hi;
     destruct (IH _ _ (take_item_held (ih_Type ih) payload acc Hmax Hacc) Hi) as (known & Hk & Hw); exists known; split; [done|];
     etrans; [exact Hw|]; pose proof (take_item_weight (ih_Type ih) payload acc); lia).
Qed.
End items.

(** ** What is written is what is read *)

(** An item on the wire, its length in its line. *)
Record wire := mkWire { w_line : chars; w_type : string; w_payload : chars }.

Section print.
Variables (maxItem : Z) (allow : IngestSignal -> bool).

Record wire_ok (w : wire) : Prop := {
  wo_line : no_newline (w_line w) /\ w_line w <> [] /\ Z.of_nat (length (w_line w)) <= maxItem;
  wo_payload : Z.of_nat (length (w_payload w)) <= maxItem;
  wo_header : Unmarshal item_dec (mkItemHeader "" None) (w_line w) = Some (mkItemHeader (w_type w) (Some (Z.of_nat (length (w_payload w))))) }.

Definition print_item (w : wire) : chars := w_line w ++ newline :: w_payload w ++ [newline].
Definition print_items (ws : list wire) : chars := flat_map print_item ws.
Definition take_wire (acc : Z * Envelope) (w : wire) : Z * Envelope := take_item allow (w_type w) (w_payload w) acc.

Lemma parse_items_print fuel ws acc :
  Forall wire_ok ws -> (length (print_items ws) < fuel)%nat ->
  parse_items maxItem allow fuel (mkStream (print_items ws) EOF) acc = Ok (foldl take_wire acc ws).2.
Proof.
  intros Hws. revert fuel acc. induction Hws as [|w ws [(Hl & Hne & Hm) Hp Hh] _ IH]; intros fuel acc Hf; (destruct fuel as [|fuel]; [lia|]); [done|].
  change (print_items (w :: ws)) with (print_item w ++ print_items ws) in *. rewrite length_app in Hf.
  assert (0 < length (print_item w))%nat by (unfold print_item; rewrite length_app; cbn; lia).
  cbn [parse_items]. unfold print_item. rewrite <- !app_assoc. cbn [app].
  rewrite readLine_exact by done. rewrite bool_decide_eq_false_2 by done. rewrite Hh. cbn [ih_Length ih_Type read_payload].
  destruct (Z.ltb_spec (Z.of_nat (length (w_payload w))) 0); [lia|]. destruct (Z.ltb_spec maxItem (Z.of_nat (length (w_payload w)))); [lia|].
  rewrite <- app_assoc. rewrite read_full_exact. unfold eat_newline. cbn [unread finally app]. rewrite Ascii.eqb_refl.
  apply IH. lia.
Qed.

(** The first thousand items of a known type count. *)
Definition known_items (ws : list wire) : list wire := List.filter (fun w => known_type (w_type w)) ws.
Definition sent (signal : IngestSignal) (ws : list wire) : list chars :=
  map w_payload (List.filter (fun w => bool_decide (envelopeItemSignal (w_type w) = signal)) (take (Z.to_nat maxEnvelopeItems) (known_items ws))).
Definition let_through (signal : IngestSignal) (ws : list wire) : list chars := if allow signal then sent signal ws else [].

Lemma known_items_snoc ws w : known_items (ws ++ [w]) = known_items ws ++ (if known_type (w_type w) then [w] else []).
Proof. unfold known_items. rewrite List.filter_app. cbn. by destruct (known_type (w_type w)). Qed.

Lemma sent_snoc signal ws w :
  sent signal (ws ++ [w]) =
    sent signal ws ++ (if known_type (w_type w) && (Z.of_nat (length (known_items ws)) <? maxEnvelopeItems) && bool_decide (envelopeItemSignal (w_type w) = signal)
                       then [w_payload w] else []).
Proof.
  unfold sent. rewrite known_items_snoc. destruct (known_type (w_type w)); cbn [andb]; [|by rewrite !app_nil_r].
  rewrite take_app, List.filter_app, map_app. f_equal. destruct (Z.ltb_spec (Z.of_nat (length (known_items ws))) maxEnvelopeItems) as [Hlt|Hge].
  - destruct (Z.to_nat maxEnvelopeItems - length (known_items ws))%nat eqn:Hn; [lia|]. cbn [take]. rewrite take_nil. cbn. by destruct (bool_decide _).
  - replace (Z.to_nat maxEnvelopeItems - length (known_items ws))%nat with 0%nat by lia. done.
Qed.

Record reads (id : string) (ws : list wire) (acc : Z * Envelope) : Prop := {
  rd_known : acc.1 = Z.of_nat (length (known_items ws));
  rd_id : env_EventID acc.2 = id;
  rd_events : Events acc.2 = let_through SignalEvent ws;
  rd_txs : Transactions acc.2 = let_through SignalTransaction ws;
  rd_profiles : Profiles acc.2 = let_through SignalProfile ws;
  rd_dropped : env_Dropped acc.2 = Z.max 0 (Z.of_nat (length (known_items ws)) - maxEnvelopeItems);
  rd_rejected : forall s, default 0 (ScopeRejected acc.2 !! s) = if allow s then 0 else Z.of_nat (length (sent s ws)) }.

Lemma take_wires_read id ws : reads id ws (foldl take_wire (0, mkEnvelope id [] [] [] 0 ∅) ws).
Proof.
  induction ws as [|w ws IH] using rev_ind.
  - constructor; cbn; unfold let_through; try (by destruct (allow _)); try done. intros s. rewrite lookup_empty. by destruct (allow s).
  - rewrite foldl_app. cbn [foldl]. destruct IH as []. destruct (foldl take_wire _ ws) as [known e]. cbn [fst snd] in *.
    unfold take_wire, take_item. pose proof (known_items_snoc ws w) as Hk.
    destruct (known_type (w_type w)) eqn:Ht; cbn [negb].
    + cbv zeta. subst known. assert (length (known_items (ws ++ [w])) = S (length (known_items ws))) as Hl by (rewrite Hk, length_app; cbn; lia).
      assert (forall s, sent s (ws ++ [w]) = sent s ws ++ if (Z.of_nat (length (known_items ws)) <? maxEnvelopeItems) && bool_decide (envelopeItemSignal (w_type w) = s)
        then [w_payload w] else []) as Hs by (intros s; rewrite sent_snoc, Ht; done).
      destruct (Z.ltb_spec maxEnvelopeItems (Z.of_nat (length (known_items ws)) + 1)) as [Hge|Hlt].
      * destruct (Z.ltb_spec (Z.of_nat (length (known_items ws))) maxEnvelopeItems); [lia|]. cbn [andb] in Hs.
        assert (forall s, let_through s (ws ++ [w]) = let_through s ws) as Hlt by (intros s; unfold let_through; rewrite Hs, app_nil_r; done).
        constructor; cbn; rewrite ?Hlt; try done; [lia|lia|]. intros s. by rewrite Hs, app_nil_r.
      * destruct (Z.ltb_spec (Z.of_nat (length (known_items ws))) maxEnvelopeItems); [|lia]. cbn [andb] in Hs.
        set (sg := envelopeItemSignal (w_type w)) in *.
        assert (forall s, let_through s (ws ++ [w]) = let_through s ws ++ if allow sg && bool_decide (sg = s) then [w_payload w] else []) as Hlet.
        { intros s. unfold let_through. rewrite Hs. case_bool_decide as He; [subst s|by rewrite andb_false_r, !app_nil_r; destruct (allow s)].
          rewrite andb_true_r. by destruct (allow sg). }
        assert (sg = SignalEvent \/ sg = SignalTransaction \/ sg = SignalProfile) as Hsg.
        { subst sg. unfold envelopeItemSignal. destruct (String.eqb _ _); [auto|]. destruct (String.eqb _ _); auto. }
        assert (forall s, length (sent s (ws ++ [w])) = length (sent s ws) + if bool_decide (sg = s) then 1 else 0)%nat as Hlen
          by (intros s; rewrite Hs, length_app; by case_bool_decide).
        assert (forall s, default 0 (ScopeRejected (if allow sg then add_item sg (w_payload w) e else reject_item sg e) !! s) =
                  if allow s then 0 else Z.of_nat (length (sent s (ws ++ [w])))) as Hrej.
        { intros s. rewrite Hlen. specialize (rd_rejected0 s). destruct (allow sg) eqn:Ha.
          - replace (ScopeRejected (add_item sg (w_payload w) e)) with (ScopeRejected e) by (by destruct sg). rewrite rd_rejected0.
            destruct (allow s) eqn:Has; [done|]. rewrite bool_decide_eq_false_2 by congruence. lia.
          - unfold reject_item. cbn [ScopeRejected]. destruct (decide (sg = s)) as [<-|Hne].
            + rewrite lookup_insert_eq, bool_decide_eq_true_2 by done. cbn. rewrite Ha in *. lia.
            + rewrite lookup_insert_ne, bool_decide_eq_false_2 by done. by rewrite Nat.add_0_r. }
        clearbody sg.
        constructor; [cbn; lia|by destruct (allow sg), Hsg as [->|[->| ->]]|..|exact Hrej]; cbn [fst snd]; rewrite ?Hlet;
          (destruct (allow sg); cbn [andb]; destruct Hsg as [->|[->| ->]]; cbn [Events Transactions Profiles env_Dropped add_item reject_item];
           rewrite ?app_nil_r; try congruence; try lia; rewrite ?bool_decide_eq_true_2 by done; rewrite ?bool_decide_eq_false_2, ?app_nil_r by done; congruence).
    + rewrite app_nil_r in Hk. assert (forall s, sent s (ws ++ [w]) = sent s ws) as Hs by (intros s; rewrite sent_snoc, Ht; cbn [andb]; by rewrite app_nil_r).
      constructor; cbn; unfold let_through; rewrite ?Hk, ?Hs; try done. intros s. rewrite Hs. apply rd_rejected0.
Qed.
End print.

(** C8: An envelope written with the lengths of its payloads is read back:
    whatever bytes the payloads have, line breaks among them, the parser
    answers the envelope's id, and for each signal the payloads sent of it, in
    their order, if the key's scope lets the signal through, and none of them
    if it does not - they are counted as rejected.  Items of other types are
    skipped, and those beyond the first thousand known ones are counted as
    dropped. *)
Theorem ParseEnvelope_print (maxItem : Z) (allow : IngestSignal -> bool) (id : string) (header : chars) (ws : list wire)
  (Hnl : no_newline header) (Hne : header <> []) (Hlen : Z.of_nat (length header) <= maxItem)
  (Hid : Unmarshal header_dec ""%string header = Some id) (Hws : Forall (wire_ok maxItem) ws) :
  exists env, ParseEnvelope maxItem allow (mkStream (header ++ newline :: print_items ws) EOF) = Ok env /\
    env_EventID env = id /\
    Events env = let_through allow SignalEvent ws /\
    Transactions env = let_through allow SignalTransaction ws /\
    Profiles env = let_through allow SignalProfile ws /\
    env_Dropped env = Z.max 0 (Z.of_nat (length (known_items ws)) - maxEnvelopeItems) /\
    forall signal, default 0 (ScopeRejected env !! signal) = if allow signal then 0 else Z.of_nat (length (sent signal ws)).
Proof.
  destruct (take_wires_read allow id ws). eexists. split.
  - unfold ParseEnvelope. rewrite readLine_exact by done. rewrite bool_decide_eq_false_2 by done. rewrite Hid.
    apply parse_items_print; [done|]. cbn [unread]. lia.
  - by split_and!.
Qed.

Definition a_wire (line type payload : string) : wire := mkWire (chars_of (q line)) type (chars_of payload).
Definition some_wires : list wire :=
  [a_wire "{'type':'event','length':3}" "event" "a
b"; a_wire "{'length':2,'type':'transaction'}" "transaction" "{}"; a_wire "{'type':'session','length':0}" "session" "";
   a_wire "{'type':'profile','length':1}" "profile" "p"].

Lemma ParseEnvelope_print_witness :
  exists env, ParseEnvelope 100 (scopeAllows KindBrowser) (mkStream (chars_of (q "{'event_id':'e1'}") ++ newline :: print_items some_wires) EOF) = Ok env /\
    map text (Events env) = ["a
b"%string] /\ map text (Transactions env) = ["{}"%string] /\ Profiles env = [] /\ default 0 (ScopeRejected env !! SignalProfile) = 1 /\ env_Dropped env = 0.
Proof.
  destruct (ParseEnvelope_print 100 (scopeAllows KindBrowser) "e1" (chars_of (q "{'event_id':'e1'}")) some_wires) as (env & He & _ & H1 & H2 & H3 & H4 & H5).
  - unfold no_newline. apply Forall_forall. intros c Hc. cbn in Hc. repeat (apply elem_of_cons in Hc as [->|Hc]; [reflexivity|]). by apply elem_of_nil in Hc.
  - done.
  - cbn. lia.
  - reflexivity.
  - repeat constructor; try reflexivity; try done; cbn; lia.
  - exists env. rewrite H1, H2, H3, H4. split; [exact He|]. split_and!; try reflexivity.
    exact (H5 SignalProfile).
Defined.

Lemma empty_held maxItem allow id : held_ok maxItem allow (0, mkEnvelope id [] [] [] 0 ∅).
Proof. by constructor. Qed.

Lemma ParseEnvelope_held maxItem allow s env : 0 <= maxItem -> ParseEnvelope maxItem allow s = Ok env ->
  exists known, held_ok maxItem allow (known, env) /\ (weight (kept env) <= length (unread s))%nat.
Proof.
  intros Hmax He. unfold ParseEnvelope in He. destruct (readLine maxItem s) as [[line err] s1] eqn:Hr. apply readLine_spec in Hr as (H1 & _ & _).
  assert (exists id, parse_items maxItem allow (S (length (unread s1))) s1 (0, mkEnvelope id [] [] [] 0 ∅) = Ok env) as [id Hi].
  { destruct err as [[]|]; try done; (destruct (bool_decide _); [done|]; destruct (Unmarshal _ _ _) as [id|]; [by exists id|done]). }
  apply parse_items_held in Hi as (known & Hk & Hw); [|done|apply empty_held]. exists known. split; [done|].
  assert (weight (kept (mkEnvelope id [] [] [] 0 ∅)) = 0%nat) as Hz by reflexivity. cbn [snd] in Hw. lia.
Qed.

(** C22: Whatever the bytes of the body and however reading them ends, an
    envelope that is accepted holds a thousand payloads at most, none longer
    than an item may be and together no longer than the body, only of
    signals the key's scope lets through, and its counter of dropped items is
    not negative; and the parser does not run out of fuel: with any more of it
    the answer is the same. *)
Theorem ParseEnvelope_bounded (maxItem : Z) (allow : IngestSignal -> bool) (s : stream) (Hmax : 0 <= maxItem) :
  (forall env, ParseEnvelope maxItem allow s = Ok env ->
     Z.of_nat (length (kept env)) <= maxEnvelopeItems /\
     Forall (fun p => Z.of_nat (length p) <= maxItem) (kept env) /\
     (weight (kept env) <= length (unread s))%nat /\
     0 <= env_Dropped env /\
     (Events env <> [] -> allow SignalEvent = true) /\
     (Transactions env <> [] -> allow SignalTransaction = true) /\
     (Profiles env <> [] -> allow SignalProfile = true)) /\
  (forall more line err s' id, readLine maxItem s = (line, err, s') ->
     let acc := (0, mkEnvelope id [] [] [] 0 ∅) in
     parse_items maxItem allow (S (length (unread s')) + more) s' acc = parse_items maxItem allow (S (length (unread s'))) s' acc).
Proof.
  split; [|intros; apply parse_items_fuel; lia]. intros env (known & [] & Hw)%ParseEnvelope_held; [|done]. cbn [fst snd] in *. by split_and!.
Qed.

Lemma ParseEnvelope_bounded_witness :
  (0 <= 100) /\ exists env, ParseEnvelope 100 (scopeAllows KindBrowser) (mkStream (chars_of (q "{}") ++ newline :: print_items some_wires) EOF) = Ok env /\
    (length (kept env) = 2)%nat /\ (weight (kept env) <= 138)%nat.
Proof.
  destruct (ParseEnvelope_bounded 100 (scopeAllows KindBrowser) (mkStream (chars_of (q "{}") ++ newline :: print_items some_wires) EOF) ltac:(lia)) as [Hb _].
  split; [lia|]. destruct (ParseEnvelope 100 _ _) as [env|e] eqn:He; [|vm_compute in He; discriminate].
  exists env. split; [reflexivity|]. specialize (Hb env eq_refl) as (_ & _ & Hw & _).
  split; [vm_compute in He; injection He as <-; reflexivity|].
  etrans; [exact Hw|]. apply Nat.leb_le. vm_compute. reflexivity.
Defined.
