(* ===== verification/Sentry.v ===== *)
(** Events and transactions of the Sentry SDKs: [internal/ingest/sentry.go],
    transaction.go and timestamp.go.

    Parameters: the parsers of [google/uuid] and of [time.Parse], what the
    machine makes of a float64 beyond an [int64], the order in which a map is
    visited.  [now] is the clock, [fresh] a new UUID. *)
From stdpp Require Import base tactics list gmap strings sorting.
From Stdlib Require Import ZArith Lia Ascii Floats.SpecFloat.
From coqutil Require Import Datatypes.RecordSetters.
From S2P Require Import Prelude.
From S2P Require Import GoString.
From S2P Require Import Runes.
From S2P Require Import Json.
From S2P Require Import JsonText.
From S2P Require Import Unmarshal.
From S2P Require Import Trace.
From S2P Require Import Fingerprint.
From S2P Require Import Issue.
From S2P Require Import Ingest.

Import RecordSetters.TriangleBracketNotations.
Open Scope Z_scope.

(** ** Limits *)

Definition maxJSONBlock : Z := Z.shiftl 256 10.
Definition maxExceptions : nat := 32.
Definition maxFramesPerExc : nat := 1024.
Definition maxExceptionField : nat := 1024.
Definition maxFrameFieldRunes : nat := 512.
Definition maxTitleRunes : nat := 1024.
Definition maxFingerprintParts : nat := 32.
Definition maxFingerprintPart : nat := 256.
Definition maxTransactionName : nat := 200.
Definition maxSpanDescription : nat := 2000.
Definition maxOp : nat := 100.
Definition maxStatus : nat := 50.
Definition maxTraceID : nat := 32.
Definition maxSpanID : nat := 16.
Definition maxSpans : nat := 1000.
Definition maxMeasurements : nat := 40.
Definition maxMeasurementKey : nat := 100.
Definition maxDataKeys : nat := 64.
Definition maxDataValue : nat := maxSpanDescription.

Definition capJSONBlock (raw : chars) : string := if Z.of_nat (length raw) <=? maxJSONBlock then text raw else "".

(** Without the bytes PostgreSQL does not take. *)
Definition strip_zero (l : chars) : chars := List.filter (fun c => negb (byte_of c =? 0)) l.

Definition capRunes (s : string) (n : nat) : string :=
  let l := strip_zero (chars_of s) in
  if (length l <=? n)%nat then text l
  else if (RuneCount l <=? n)%nat then text l else text (of_runes (take n (runes l))).

(** [utf8.RuneStart] *)
Definition rune_start (c : ascii) : bool := negb (Z.land (byte_of c) 192 =? 128).

Fixpoint back_to_start (l : chars) (n : nat) : nat :=
  match n with
  | O => O
  | S n' => match l !! n with Some c => if rune_start c then n else back_to_start l n' | None => n end
  end.

Definition capBytes (s : string) (n : nat) : string :=
  let l := strip_zero (chars_of s) in
  if (length l <=? n)%nat then text l else text (take (back_to_start l n) l).

Definition capFingerprint (fp : list string) : list string :=
  map (fun p => capRunes p maxFingerprintPart) (take maxFingerprintParts fp).

Definition str_le (a b : string) : Prop := go_string_lt b a = false.
#[export] Instance str_le_dec a b : Decision (str_le a b).
Proof. unfold str_le. apply _. Defined.

(** ** Parameters *)

Class Formats := {
  parse_uuid : string -> option string;
  parse_RFC3339Nano : string -> option Z;
  int64_beyond : spec_float -> Z }.

(** The entries of a map in the order [range] visits them. *)
Class MapRange := {
  map_range : forall A, gmap string A -> list (string * A);
  map_range_perm : forall A (m : gmap string A), map_range A m ≡ₚ map_to_list m }.
Arguments map_range {_ _} _.

(** ** Time stamps *)

Definition maxTimestampAge : Z := 90 * 24 * hour.
Definition maxTimestampFuture : Z := 24 * hour.

Definition inRetentionWindow (ts now : Z) : bool := (now - maxTimestampAge <=? ts) && (ts <=? now + maxTimestampFuture).

Definition clampToRetentionWindow (ts now : Z) : Z :=
  if ts <? now - maxTimestampAge then now - maxTimestampAge
  else if now + maxTimestampFuture <? ts then now + maxTimestampFuture else ts.

Section parse.
Context `{Unicode} `{Formats} `{MapRange}.

(** [int64(f)]: towards zero. *)
Definition int64_of (f : spec_float) : Z :=
  let n := match f with
           | S754_finite s m e => (if s then -1 else 1) * (if 0 <=? e then Zpos m * 2 ^ e else Zpos m / 2 ^ (- e))
           | _ => 0
           end in
  if (- 2 ^ 63 <=? n) && (n <? 2 ^ 63) then n else int64_beyond f.

Definition float_of_Z (n : Z) : spec_float := binary_normalize 53 1024 n 0 false.

(** [time.Unix]; a [time.Time] counts seconds from the year one, on 64 bits. *)
Definition unixToInternal : Z := 62135596800.
Definition unix_time (sec nsec : Z) : Z :=
  (wrap64 (wrap64 (sec + nsec / second) + unixToInternal) - unixToInternal) * second + nsec mod second.

Definition float_time (f : spec_float) : Z :=
  let sec := int64_of f in
  unix_time sec (int64_of (SFmul 53 1024 (SFsub 53 1024 f (float_of_Z sec)) (float_of_Z second))).

Definition positive (f : spec_float) : bool := match f with S754_finite false _ _ => true | _ => false end.

(** A time written as a number, else as a string. *)
Definition read_time (number : spec_float -> Z) (raw : chars) : option Z :=
  let text_time := match Unmarshal string_dec ""%string raw with Some s => parse_RFC3339Nano s | None => None end in
  match Unmarshal float_dec (S754_zero false) raw with
  | Some f => if positive f then Some (number f) else text_time
  | None => text_time
  end.

Definition parseTimestamp (now : Z) (raw : chars) : Z :=
  match read_time float_time raw with Some ts => clampToRetentionWindow ts now | None => now end.

(** [Round(time.Microsecond)] *)
Definition round_us (t : Z) : Z := (t + 500) / 1000 * 1000.

Definition raw_present (raw : chars) : bool := negb (bool_decide (raw = [])) && negb (bool_decide (raw = chars_of "null")).

Definition parseTraceTime (raw : chars) : option Z :=
  if raw_present raw then read_time (fun f => round_us (float_time f)) raw else None.

Definition normalizeID (s : string) (n : nat) : string := capRunes (ToLower (TrimSpace s)) n.

(** ** Events *)

Record sentryFrame := mkSentryFrame { sf_Function : string; sf_Module : string; sf_Filename : string; sf_InApp : option bool }.
Record sentryException := mkSentryException { se_Type : string; se_Value : string; se_Stacktrace : option (list sentryFrame) }.
Record sentryUser := mkSentryUser { su_ID : string; su_IP : string; su_Email : string }.
Record sentryEvent := mkSentryEvent {
  ev_EventID : string; ev_Timestamp : chars; ev_Level : string; ev_Message : chars; ev_Logentry : chars; ev_Exception : chars;
  ev_Environment : string; ev_Release : string; ev_ServerName : string; ev_Transaction : string; ev_Logger : string;
  ev_SDK : option (string * string); ev_User : option sentryUser; ev_Tags : chars; ev_Contexts : chars;
  ev_Breadcrumbs : chars; ev_Request : chars; ev_Fingerprint : list string }.

Definition no_frame : sentryFrame := mkSentryFrame "" "" "" None.
Definition frame_dec : decoder sentryFrame := struct_dec
  [("function", on_field sf_Function (fun v r => r <| sf_Function := v |>) string_dec);
   ("module", on_field sf_Module (fun v r => r <| sf_Module := v |>) string_dec);
   ("filename", on_field sf_Filename (fun v r => r <| sf_Filename := v |>) string_dec);
   ("in_app", on_field sf_InApp (fun v r => r <| sf_InApp := v |>) (ptr_dec false bool_dec))]%string.

Definition no_exception : sentryException := mkSentryException "" "" None.
Definition exception_dec : decoder sentryException := struct_dec
  [("type", on_field se_Type (fun v r => r <| se_Type := v |>) string_dec);
   ("value", on_field se_Value (fun v r => r <| se_Value := v |>) string_dec);
   ("stacktrace", on_field se_Stacktrace (fun v r => r <| se_Stacktrace := v |>)
      (ptr_dec [] (struct_dec [("frames", slice_dec no_frame frame_dec)])))]%string.

Definition two_strings_dec (a b : string) : decoder (string * string) := struct_dec
  [(a, on_field fst (fun v p => (v, snd p)) string_dec); (b, on_field snd (fun v p => (fst p, v)) string_dec)].

Definition user_dec : decoder sentryUser := struct_dec
  [("id", on_field su_ID (fun v r => r <| su_ID := v |>) string_dec);
   ("ip_address", on_field su_IP (fun v r => r <| su_IP := v |>) string_dec);
   ("email", on_field su_Email (fun v r => r <| su_Email := v |>) string_dec)]%string.

Definition no_event : sentryEvent := mkSentryEvent "" [] "" [] [] [] "" "" "" "" "" None None [] [] [] [] [].
Definition event_dec : decoder sentryEvent := struct_dec
  [("event_id", on_field ev_EventID (fun v r => r <| ev_EventID := v |>) string_dec);
   ("timestamp", on_field ev_Timestamp (fun v r => r <| ev_Timestamp := v |>) raw_dec);
   ("level", on_field ev_Level (fun v r => r <| ev_Level := v |>) string_dec);
   ("message", on_field ev_Message (fun v r => r <| ev_Message := v |>) raw_dec);
   ("logentry", on_field ev_Logentry (fun v r => r <| ev_Logentry := v |>) raw_dec);
   ("exception", on_field ev_Exception (fun v r => r <| ev_Exception := v |>) raw_dec);
   ("environment", on_field ev_Environment (fun v r => r <| ev_Environment := v |>) string_dec);
   ("release", on_field ev_Release (fun v r => r <| ev_Release := v |>) string_dec);
   ("server_name", on_field ev_ServerName (fun v r => r <| ev_ServerName := v |>) string_dec);
   ("transaction", on_field ev_Transaction (fun v r => r <| ev_Transaction := v |>) string_dec);
   ("logger", on_field ev_Logger (fun v r => r <| ev_Logger := v |>) string_dec);
   ("sdk", on_field ev_SDK (fun v r => r <| ev_SDK := v |>) (ptr_dec ("", "") (two_strings_dec "name" "version")));
   ("user", on_field ev_User (fun v r => r <| ev_User := v |>) (ptr_dec (mkSentryUser "" "" "") user_dec));
   ("tags", on_field ev_Tags (fun v r => r <| ev_Tags := v |>) raw_dec);
   ("contexts", on_field ev_Contexts (fun v r => r <| ev_Contexts := v |>) raw_dec);
   ("breadcrumbs", on_field ev_Breadcrumbs (fun v r => r <| ev_Breadcrumbs := v |>) raw_dec);
   ("request", on_field ev_Request (fun v r => r <| ev_Request := v |>) raw_dec);
   ("fingerprint", on_field ev_Fingerprint (fun v r => r <| ev_Fingerprint := v |>) (slice_dec "" string_dec))]%string.

(** The text, else the text of an object. *)
Definition parseMessage (raw : chars) : string :=
  if bool_decide (raw = []) then "" else
  match Unmarshal string_dec ""%string raw with
  | Some s => s
  | None =>
      match Unmarshal (two_strings_dec "formatted" "message") ("", "")%string raw with
      | Some (formatted, message) => if String.eqb formatted "" then message else formatted
      | None => ""
      end
  end.

(** An object, or a list of pairs. *)
Definition parseTags (raw : chars) (out : gmap string string) : gmap string string :=
  if bool_decide (raw = []) then out else
  match Unmarshal (map_dec ""%string string_dec) ∅ raw with
  | Some m => m ∪ out
  | None =>
      match Unmarshal (slice_dec (""%string, ""%string) (pair_dec ""%string string_dec)) [] raw with
      | Some pairs => foldl (fun out kv => <[kv.1 := kv.2]> out) out pairs
      | None => out
      end
  end.

(** Later entries replace earlier ones when their keys are cut to the same. *)
Definition put_capped {A} (cap : A -> A) (out : gmap string A) (kv : string * A) : gmap string A := <[capRunes kv.1 64 := cap kv.2]> out.

Definition by_name {A} (a b : string * A) : Prop := str_le a.1 b.1.
#[export] Instance by_name_dec {A} (a b : string * A) : Decision (by_name a b).
Proof. unfold by_name. apply _. Defined.

(** The first [n] in the order of their names. *)
Definition first_names {A} (n : nat) (m : gmap string A) : list (string * A) := take n (merge_sort by_name (map_to_list m)).

Definition capTags (tags : gmap string string) : gmap string string :=
  foldl (put_capped (fun v => capRunes v 256)) ∅ (if (size tags <=? 64)%nat then map_range tags else first_names 64 tags).

Definition trace_ids_dec : decoder (option (string * string)) := struct_dec
  [("trace"%string, ptr_dec (""%string, ""%string) (two_strings_dec "trace_id" "span_id"))].

Definition parseTraceIDs (contexts : chars) : string * string :=
  match Unmarshal trace_ids_dec None contexts with
  | Some (Some (t, s)) => (normalizeID t maxTraceID, normalizeID s maxSpanID)
  | _ => ("", "")%string
  end.

Definition exception_list (raw : chars) : list sentryException :=
  let slice := slice_dec no_exception exception_dec in
  match Unmarshal (struct_dec [("values"%string, slice)]) [] raw with
  | Some (e :: l) => e :: l
  | _ => default [] (Unmarshal slice [] raw)
  end.

Definition parse_frame (f : sentryFrame) : Frame :=
  let module := if String.eqb (sf_Module f) "" then sf_Filename f else sf_Module f in
  mkFrame (capRunes module maxFrameFieldRunes) (capRunes (sf_Function f) maxFrameFieldRunes) (bool_decide (sf_InApp f = Some true)).

Definition parse_exception (e : sentryException) : Exception :=
  mkException (capRunes (se_Type e) maxExceptionField) (capRunes (se_Value e) maxExceptionField)
    match se_Stacktrace e with Some frames => map parse_frame (take maxFramesPerExc frames) | None => [] end.

Definition parseExceptions (raw : chars) : list Exception :=
  if raw_present raw then map parse_exception (take maxExceptions (exception_list raw)) else [].

(** [culprit]: the last frame of the application, else the last. *)
Definition frame_name (f : Frame) : string := fr_Module f +:+ "." +:+ fr_Function f.
Definition culprit_of (frames : list Frame) : string :=
  match List.filter InApp (rev frames), rev frames with
  | f :: _, _ => frame_name f
  | [], f :: _ => frame_name f
  | [], [] => ""
  end.

Definition first_line (s : string) : string := text (take (default (String.length s) (index (char_of 10) (chars_of s))) (chars_of s)).

Definition or_else (a b : string) : string := if String.eqb a "" then b else a.

Definition titleAndCulprit (exceptions : list Exception) (message transaction logger : string) : string * string :=
  let '(title, culprit) := match last exceptions with
                           | Some ex => (if String.eqb (ex_Value ex) "" then ex_Type ex else ex_Type ex +:+ ": " +:+ ex_Value ex, culprit_of (Frames ex))
                           | None => ("", "")%string
                           end in
  let title := or_else (or_else (or_else title (first_line message)) transaction) logger in
  (if (200 <? RuneCount (chars_of title))%nat then text (of_runes (take 200 (runes (chars_of title)))) else title, culprit).

Definition block (raw : chars) : string := if raw_present raw then capJSONBlock raw else "".

Definition ParseEvent (now : Z) (fresh : string) (raw : chars) : option ParsedEvent :=
  match Unmarshal event_dec no_event raw with
  | None => None
  | Some se =>
      let message := parseMessage (ev_Message se) in
      let message := capRunes (if String.eqb message "" then parseMessage (ev_Logentry se) else message) (Z.to_nat 8192) in
      let '(traceID, spanID) := if raw_present (ev_Contexts se) then parseTraceIDs (ev_Contexts se) else ("", "")%string in
      let exceptions := parseExceptions (ev_Exception se) in
      let '(title, culprit) := titleAndCulprit exceptions message (capRunes (ev_Transaction se) 200) (capRunes (ev_Logger se) 200) in
      let user := default (mkSentryUser "" "" "") (ev_User se) in
      Some {| EventID := default fresh (parse_uuid (ev_EventID se));
              pe_Timestamp := parseTimestamp now (ev_Timestamp se);
              pe_Level := if IsValidLevel (ev_Level se) then ev_Level se else "error";
              pe_Message := message;
              pe_Exceptions := exceptions;
              StacktraceJSON := block (ev_Exception se);
              pe_Environment := capRunes (ev_Environment se) 200;
              pe_Release := capRunes (ev_Release se) 200;
              pe_ServerName := capRunes (ev_ServerName se) 200;
              pe_SDK := match ev_SDK se with Some (name, version) => capRunes (name +:+ "/" +:+ version) 200 | None => "" end;
              pe_UserID := capRunes (su_ID user) 200; pe_UserIP := capRunes (su_IP user) 200; pe_UserEmail := capRunes (su_Email user) 200;
              pe_Tags := capTags (parseTags (ev_Tags se) ∅);
              ContextsJSON := block (ev_Contexts se); BreadcrumbsJSON := block (ev_Breadcrumbs se); RequestJSON := block (ev_Request se);
              pe_Fingerprint := capFingerprint (ev_Fingerprint se);
              pe_Title := capRunes title maxTitleRunes; pe_Culprit := capRunes culprit 200;
              pe_TraceID := traceID; pe_SpanID := spanID |}
  end.

(** ** Transactions *)

Inductive tx_error := ErrTxJSON | ErrNoTraceContext | ErrTimestampOutOfWindow.

Record sentryTraceContext := mkTraceContext { tc_TraceID : string; tc_SpanID : string; tc_Op : string; tc_Status : string }.
Record sentrySpan := mkSentrySpan {
  sn_SpanID : string; sn_ParentSpanID : string; sn_Op : string; sn_Description : string; sn_Start : chars; sn_End : chars;
  sn_Status : string; sn_Data : gmap string json }.
Record sentryMeasurement := mkMeasurement { sm_Value : spec_float; sm_Unit : string }.
Record sentryTransaction := mkSentryTransaction {
  st_Transaction : string; st_Start : chars; st_End : chars; st_Trace : option sentryTraceContext; st_Spans : list sentrySpan;
  st_Environment : string; st_Release : string; st_ServerName : string; st_User : option string; st_Tags : chars;
  st_Measurements : gmap string sentryMeasurement }.

Definition no_context : sentryTraceContext := mkTraceContext "" "" "" "".
Definition context_dec : decoder sentryTraceContext := struct_dec
  [("trace_id", on_field tc_TraceID (fun v r => r <| tc_TraceID := v |>) string_dec);
   ("span_id", on_field tc_SpanID (fun v r => r <| tc_SpanID := v |>) string_dec);
   ("op", on_field tc_Op (fun v r => r <| tc_Op := v |>) string_dec);
   ("status", on_field tc_Status (fun v r => r <| tc_Status := v |>) string_dec)]%string.

Definition no_span : sentrySpan := mkSentrySpan "" "" "" "" [] [] "" ∅.
Definition span_dec : decoder sentrySpan := struct_dec
  [("span_id", on_field sn_SpanID (fun v r => r <| sn_SpanID := v |>) string_dec);
   ("parent_span_id", on_field sn_ParentSpanID (fun v r => r <| sn_ParentSpanID := v |>) string_dec);
   ("op", on_field sn_Op (fun v r => r <| sn_Op := v |>) string_dec);
   ("description", on_field sn_Description (fun v r => r <| sn_Description := v |>) string_dec);
   ("start_timestamp", on_field sn_Start (fun v r => r <| sn_Start := v |>) raw_dec);
   ("timestamp", on_field sn_End (fun v r => r <| sn_End := v |>) raw_dec);
   ("status", on_field sn_Status (fun v r => r <| sn_Status := v |>) string_dec);
   ("data", on_field sn_Data (fun v r => r <| sn_Data := v |>) (map_dec JNull any_dec))]%string.

Definition no_measurement : sentryMeasurement := mkMeasurement (S754_zero false) "".
Definition measurement_dec : decoder sentryMeasurement := struct_dec
  [("value", on_field sm_Value (fun v r => r <| sm_Value := v |>) float_dec);
   ("unit", on_field sm_Unit (fun v r => r <| sm_Unit := v |>) string_dec)]%string.

Definition no_transaction : sentryTransaction := mkSentryTransaction "" [] [] None [] "" "" "" None [] ∅.
Definition transaction_dec : decoder sentryTransaction := struct_dec
  [("transaction", on_field st_Transaction (fun v r => r <| st_Transaction := v |>) string_dec);
   ("start_timestamp", on_field st_Start (fun v r => r <| st_Start := v |>) raw_dec);
   ("timestamp", on_field st_End (fun v r => r <| st_End := v |>) raw_dec);
   ("contexts", on_field st_Trace (fun v r => r <| st_Trace := v |>) (struct_dec [("trace", ptr_dec no_context context_dec)]));
   ("spans", on_field st_Spans (fun v r => r <| st_Spans := v |>) (slice_dec no_span span_dec));
   ("environment", on_field st_Environment (fun v r => r <| st_Environment := v |>) string_dec);
   ("release", on_field st_Release (fun v r => r <| st_Release := v |>) string_dec);
   ("server_name", on_field st_ServerName (fun v r => r <| st_ServerName := v |>) string_dec);
   ("user", on_field st_User (fun v r => r <| st_User := v |>) (ptr_dec "" (struct_dec [("id", string_dec)])));
   ("tags", on_field st_Tags (fun v r => r <| st_Tags := v |>) raw_dec);
   ("measurements", on_field st_Measurements (fun v r => r <| st_Measurements := v |>) (map_dec no_measurement measurement_dec))]%string.

Definition transactionStatus (status : string) : string := if String.eqb status "" then "ok" else capRunes status maxStatus.

Definition float_negative (f : spec_float) : bool := match f with S754_finite true _ _ => true | _ => false end.

Definition capMeasurements (m : gmap string spec_float) : gmap string spec_float :=
  if (size m <=? maxMeasurements)%nat then m else list_to_map (first_names maxMeasurements m).

(** Seconds become milliseconds; a decoded number is finite. *)
Definition put_measurement (out : gmap string spec_float) (km : string * sentryMeasurement) : gmap string spec_float :=
  let v := sm_Value km.2 in
  if float_negative v then out else
  <[capRunes km.1 maxMeasurementKey := if String.eqb (sm_Unit km.2) "second" then SFmul 53 1024 v (float_of_Z 1000) else v]> out.

Definition parseMeasurements (raw : gmap string sentryMeasurement) : gmap string spec_float :=
  capMeasurements (foldl put_measurement ∅ (map_range raw)).

Definition cap_value (v : json) : json := match v with JStr s => JStr (capRunes s maxDataValue) | _ => v end.

Definition capDataMap (m : gmap string json) : gmap string json :=
  foldl (put_capped cap_value) ∅ (if (size m <=? maxDataKeys)%nat then map_range m else first_names maxDataKeys m).

(** [None]: a span from outside the window. *)
Definition parse_span (now end_ : Z) (ss : sentrySpan) : option Span :=
  let sEnd := default end_ (parseTraceTime (sn_End ss)) in
  let sStart := default sEnd (parseTraceTime (sn_Start ss)) in
  if inRetentionWindow sStart now then
    Some {| s_SpanID := normalizeID (sn_SpanID ss) maxSpanID; ParentSpanID := normalizeID (sn_ParentSpanID ss) maxSpanID;
            s_Op := capRunes (sn_Op ss) maxOp; s_Description := capBytes (sn_Description ss) maxSpanDescription;
            s_Start := sStart; s_End := sEnd; s_Status := transactionStatus (sn_Status ss); Data := capDataMap (sn_Data ss) |}
  else None.

(** The transaction and its measurements. *)
Definition ParseTransaction (now : Z) (raw : chars) : result tx_error (Transaction * gmap string spec_float) :=
  match Unmarshal transaction_dec no_transaction raw with
  | None => Err ErrTxJSON
  | Some st =>
      match st_Trace st with
      | None => Err ErrNoTraceContext
      | Some tc =>
          let traceID := normalizeID (tc_TraceID tc) maxTraceID in
          if String.eqb traceID "" then Err ErrNoTraceContext else
          let end_ := default now (parseTraceTime (st_End st)) in
          let start := default end_ (parseTraceTime (st_Start st)) in
          if negb (inRetentionWindow start now) then Err ErrTimestampOutOfWindow else
          Ok ({| t_TraceID := traceID; t_SpanID := normalizeID (tc_SpanID tc) maxSpanID;
                 t_Name := capRunes (st_Transaction st) maxTransactionName; t_Op := capRunes (tc_Op tc) maxOp;
                 t_Status := transactionStatus (tc_Status tc); t_Start := start; t_End := end_;
                 t_Environment := capRunes (st_Environment st) 200; t_Release := capRunes (st_Release st) 200;
                 t_ServerName := capRunes (st_ServerName st) 200;
                 t_UserID := match st_User st with Some id => capRunes id 200 | None => "" end;
                 t_Tags := capTags (parseTags (st_Tags st) ∅);
                 t_Spans := omap (parse_span now end_) (take maxSpans (st_Spans st)); t_Source := "sentry" |},
              parseMeasurements (st_Measurements st))
      end
  end.
End parse.

(** ** Examples *)
#[local] Instance ex_ascii : Unicode := {| rune_lower r := r; rune_upper r := r; letter_or_number _ := false |}.
#[local] Instance ex_formats : Formats := {|
  parse_uuid s := if String.eqb s "u1" then Some "0-1"%string else None;
  parse_RFC3339Nano s := if String.eqb s "2026-07-22T10:00:00Z" then Some (1784714400 * second) else None;
  int64_beyond _ := - 2 ^ 63 |}.
#[local] Program Instance ex_range : MapRange := {| map_range A m := map_to_list m |}.

Definition a_body : chars := chars_of (q "{'event_id':'u1','timestamp':1784714400.25,'level':'loud','message':{'formatted':'first\nsecond'},'user':{'id':'7','EMAIL':'a@b'},'tags':[['k','v']],'sdk':{'name':'js','version':'1'},'exception':{'values':[{'type':'E','value':'x\u0000y','stacktrace':{'frames':[{'function':'f','filename':'m.js','in_app':true},{'function':'g','module':'lib'}]}}]},'contexts':{'trace':{'trace_id':' ABC ','span_id':'D'}}}").
Definition a_transaction_body : chars := chars_of (q "{'transaction':'GET /','start_timestamp':1784714400.5,'timestamp':'2026-07-22T10:00:00Z','contexts':{'trace':{'trace_id':'T','op':'http'}},'spans':[{'span_id':'a','description':'SELECT','data':{'n':1,'s':'x'}},{'span_id':'b','start_timestamp':1}],'measurements':{'lcp':{'value':1.5,'unit':'second'},'cls':{'value':-1}}}").

Example ParseEvent_ex :
  (pe ← ParseEvent (1784714400 * second) "fresh" a_body;
   Some (EventID pe, pe_Timestamp pe - 1784714400 * second, pe_Level pe, (pe_Title pe, pe_Culprit pe), pe_Message pe, pe_UserEmail pe, (pe_TraceID pe, pe_SpanID pe)))
  = Some ("0-1", 250000000, "error", ("E: xy", "m.js.f"), "first
second", "a@b", ("abc", "d"))%string.
Proof. vm_compute. reflexivity. Qed.
Example ParseTransaction_ex :
  match ParseTransaction (1784714401 * second) a_transaction_body with
  | Ok (tx, m) => Some (t_Name tx, t_Start tx - t_End tx, map (fun s => (s_SpanID s, s_Start s - t_End tx, size (Data s))) (t_Spans tx), map_to_list m)
  | Err _ => None
  end = Some ("GET /"%string, 500000000, [("a"%string, 0, 2%nat)], [("lcp"%string, float_of_Z 1500)]).
Proof. vm_compute. reflexivity. Qed.

(** ** What a limit means *)

Lemma RuneCount_le l : (RuneCount l <= length l)%nat.
Proof.
  unfold RuneCount. assert (forall skip l, (length (rune_spans skip l) <= length l)%nat) as H; [|apply H].
  clear. intros skip l. revert skip. induction l as [|c l IH]; intros skip; cbn [rune_spans]; [done|].
  destruct skip as [|skip]; [|cbn [length]; specialize (IH skip); lia]. destruct (decode_rune (c :: l)) as [x n].
  cbn [length]. specialize (IH (n - 1)%nat). lia.
Qed.

(** At most [n] runes, and nothing PostgreSQL refuses. *)
Record capped (n : nat) (s : string) : Prop := {
  cp_runes : (RuneCount (chars_of s) <= n)%nat;
  cp_zero : no_zero (chars_of s) }.

Lemma strip_zero_no_zero l : no_zero (strip_zero l).
Proof.
  apply Forall_forall. intros c Hc. unfold strip_zero in Hc. apply list_elem_of_In, filter_In in Hc as [_ Hc].
  apply negb_true_iff, Z.eqb_neq in Hc. done.
Qed.

Lemma capped_take n rs : Forall (fun r => r <> 0) rs -> capped n (text (of_runes (take n rs))).
Proof.
  intros Hrs. constructor; rewrite chars_text; [rewrite RuneCount_of_runes, length_take; lia|].
  by apply of_runes_no_zero, Forall_take.
Qed.

Lemma capRunes_capped s n : capped n (capRunes s n).
Proof.
  unfold capRunes. pose proof (strip_zero_no_zero (chars_of s)) as Hz. set (l := strip_zero (chars_of s)) in *.
  destruct (Nat.leb_spec (length l) n) as [Hl|_].
  - constructor; rewrite chars_text; [|done]. pose proof (RuneCount_le l). lia.
  - destruct (Nat.leb_spec (RuneCount l) n); [constructor; by rewrite chars_text|]. by apply capped_take, runes_no_zero.
Qed.
Create HintDb capped.
#[export] Hint Resolve capRunes_capped : capped.

Lemma capped_empty n : capped n "".
Proof. constructor; [cbn; lia|constructor]. Qed.
#[export] Hint Resolve capped_empty : capped.

Lemma capBytes_ok s n : (length (chars_of (capBytes s n)) <= n)%nat /\ no_zero (chars_of (capBytes s n)).
Proof.
  unfold capBytes. pose proof (strip_zero_no_zero (chars_of s)) as Hz. set (l := strip_zero (chars_of s)) in *.
  destruct (Nat.leb_spec (length l) n); rewrite chars_text; [done|].
  assert (forall k, back_to_start l k <= k)%nat as Hb.
  { induction k as [|k IH]; [done|]. cbn [back_to_start]. destruct (l !! S k); [|done]. destruct (rune_start _); lia. }
  split; [rewrite length_take; specialize (Hb n); lia|by apply Forall_take].
Qed.

Lemma capFingerprint_ok fp : (length (capFingerprint fp) <= maxFingerprintParts)%nat /\ Forall (capped maxFingerprintPart) (capFingerprint fp).
Proof.
  unfold capFingerprint. rewrite length_map, length_take. split; [lia|]. apply Forall_map, Forall_true. intros p. apply capRunes_capped.
Qed.

(** Maps of capped keys. *)
Lemma fold_capped {A} (P : A -> Prop) (cap : A -> A) (l : list (string * A)) :
  (forall v, P (cap v)) ->
  let m := foldl (put_capped cap) ∅ l in (size m <= length l)%nat /\ map_Forall (fun k v => capped 64 k /\ P v) m.
Proof.
  intros Hcap m. subst m. induction l as [|[k v] l [IH1 IH2]] using rev_ind; [split; [done|apply map_Forall_empty]|].
  rewrite foldl_app. cbn [foldl]. unfold put_capped at 1 3. cbn [fst snd]. rewrite length_app. split.
  - cbn [length]. set (m := foldl _ _ _) in *. destruct (m !! capRunes k 64) eqn:Hk; [rewrite map_size_insert_Some by eauto|rewrite map_size_insert_None by done]; lia.
  - apply map_Forall_insert_2; [split; [auto with capped|done]|done].
Qed.

Section bounded.
Context `{Unicode} `{Formats} `{MapRange}.

Lemma range_length {A} (m : gmap string A) : length (map_range m) = size m.
Proof. rewrite (Permutation_length (map_range_perm A m)). apply length_map_to_list. Qed.

Lemma first_names_length {A} n (m : gmap string A) : (length (first_names n m) <= n)%nat.
Proof. unfold first_names. rewrite length_take. lia. Qed.

Definition tags_ok (tags : gmap string string) : Prop := (size tags <= 64)%nat /\ map_Forall (fun k v => capped 64 k /\ capped 256 v) tags.

Lemma capTags_ok tags : tags_ok (capTags tags).
Proof.
  unfold tags_ok, capTags. destruct (fold_capped (capped 256) (fun v => capRunes v 256)
    (if (size tags <=? 64)%nat then map_range tags else first_names 64 tags) (fun v => capRunes_capped v 256)) as [Hs Hm].
  split; [|exact Hm]. etrans; [exact Hs|]. destruct (Nat.leb_spec (size tags) 64); [by rewrite range_length|apply first_names_length].
Qed.

Definition data_ok (m : gmap string json) : Prop :=
  (size m <= maxDataKeys)%nat /\ map_Forall (fun k v => capped 64 k /\ match v with JStr s => capped maxDataValue s | _ => True end) m.

Lemma capDataMap_ok m : data_ok (capDataMap m).
Proof.
  unfold data_ok, capDataMap.
  destruct (fold_capped (fun v => match v with JStr s => capped maxDataValue s | _ => True end) cap_value
    (if (size m <=? maxDataKeys)%nat then map_range m else first_names maxDataKeys m)) as [Hs Hm].
  { intros []; cbn; auto with capped. }
  split; [|exact Hm]. etrans; [exact Hs|]. destruct (Nat.leb_spec (size m) maxDataKeys); [by rewrite range_length|apply first_names_length].
Qed.

(** ** Events *)

Definition frame_ok (f : Frame) : Prop := capped maxFrameFieldRunes (fr_Module f) /\ capped maxFrameFieldRunes (fr_Function f).
Record exception_ok (e : Exception) : Prop := {
  xo_type : capped maxExceptionField (ex_Type e);
  xo_value : capped maxExceptionField (ex_Value e);
  xo_count : (length (Frames e) <= maxFramesPerExc)%nat;
  xo_frames : Forall frame_ok (Frames e) }.

Lemma parseExceptions_ok raw : (length (parseExceptions raw) <= maxExceptions)%nat /\ Forall exception_ok (parseExceptions raw).
Proof.
  unfold parseExceptions. destruct (raw_present raw); [|split; [cbn; lia|constructor]].
  rewrite length_map, length_take. split; [lia|]. apply Forall_map, Forall_true. intros e.
  constructor; cbn [ex_Type ex_Value Frames parse_exception]; [auto with capped..| |];
    destruct (se_Stacktrace e); [|apply Nat.le_0_l| |constructor].
  - rewrite length_map, length_take. lia.
  - apply Forall_map, Forall_true. intros f. split; apply capRunes_capped.
Qed.

Lemma block_bound raw : Z.of_nat (length (chars_of (block raw))) <= maxJSONBlock.
Proof.
  unfold block, capJSONBlock. destruct (raw_present raw); [|done].
  destruct (Z.leb_spec (Z.of_nat (length raw)) maxJSONBlock); [by rewrite chars_text|done].
Qed.

Lemma clamp_window ts now : inRetentionWindow (clampToRetentionWindow ts now) now = true.
Proof.
  unfold inRetentionWindow, clampToRetentionWindow. rewrite andb_true_iff, !Z.leb_le.
  assert (0 <= maxTimestampAge /\ 0 <= maxTimestampFuture) by (by vm_compute).
  destruct (Z.ltb_spec ts (now - maxTimestampAge)); [lia|]. destruct (Z.ltb_spec (now + maxTimestampFuture) ts); lia.
Qed.

Lemma parseTimestamp_window now raw : inRetentionWindow (parseTimestamp now raw) now = true.
Proof.
  unfold parseTimestamp. destruct (read_time _ _); [apply clamp_window|]. unfold inRetentionWindow. rewrite andb_true_iff, !Z.leb_le.
  assert (0 <= maxTimestampAge /\ 0 <= maxTimestampFuture) by (by vm_compute). lia.
Qed.

Lemma normalizeID_capped s n : capped n (normalizeID s n).
Proof. apply capRunes_capped. Qed.
#[local] Hint Resolve normalizeID_capped : capped.

Record event_ok (now : Z) (pe : ParsedEvent) : Prop := {
  eo_time : inRetentionWindow (pe_Timestamp pe) now = true;
  eo_level : pe_Level pe ∈ Levels;
  eo_message : capped (Z.to_nat 8192) (pe_Message pe);
  eo_labels : Forall (capped 200) [pe_Environment pe; pe_Release pe; pe_ServerName pe; pe_SDK pe; pe_UserID pe; pe_UserIP pe; pe_UserEmail pe; pe_Culprit pe];
  eo_title : capped maxTitleRunes (pe_Title pe);
  eo_trace : capped maxTraceID (pe_TraceID pe) /\ capped maxSpanID (pe_SpanID pe);
  eo_tags : tags_ok (pe_Tags pe);
  eo_exceptions : (length (pe_Exceptions pe) <= maxExceptions)%nat /\ Forall exception_ok (pe_Exceptions pe);
  eo_fingerprint : (length (pe_Fingerprint pe) <= maxFingerprintParts)%nat /\ Forall (capped maxFingerprintPart) (pe_Fingerprint pe);
  eo_blocks : Forall (fun s => Z.of_nat (length (chars_of s)) <= maxJSONBlock) [StacktraceJSON pe; ContextsJSON pe; BreadcrumbsJSON pe; RequestJSON pe] }.

Lemma parseTraceIDs_capped raw : capped maxTraceID (parseTraceIDs raw).1 /\ capped maxSpanID (parseTraceIDs raw).2.
Proof. unfold parseTraceIDs. destruct (Unmarshal _ _ _) as [[[t s]|]|]; cbn [fst snd]; auto with capped. Qed.

Lemma level_ok level : (if IsValidLevel level then level else "error"%string) ∈ Levels.
Proof.
  destruct (IsValidLevel level) eqn:Hl; [|set_solver]. unfold IsValidLevel in Hl. apply existsb_exists in Hl as (v & Hv & ->%String.eqb_eq).
  by apply list_elem_of_In.
Qed.

(** C9: Whatever the body, an event that is accepted fits the columns it is
    stored in: its time is inside the window of retention, its level is one of
    the five, no text but its identifier is longer in runes than its limit or
    carries a byte of value zero, it has no more than 64 tags, 32 exceptions of 1024 frames and
    32 parts of a fingerprint, and no block of JSON is longer than 256 KiB. *)
Theorem ParseEvent_bounded (now : Z) (fresh : string) (raw : chars) (pe : ParsedEvent)
  (Hp : ParseEvent now fresh raw = Some pe) : event_ok now pe.
Proof.
  unfold ParseEvent in Hp. destruct (Unmarshal event_dec no_event raw) as [se|]; [|done].
  pose proof (parseTraceIDs_capped (ev_Contexts se)) as [Ht Hs].
  destruct (if raw_present (ev_Contexts se) then parseTraceIDs (ev_Contexts se) else _) as [traceID spanID] eqn:Hids.
  destruct (titleAndCulprit _ _ _ _) as [title culprit]. injection Hp as <-. constructor; cbn.
  - apply parseTimestamp_window.
  - apply level_ok.
  - auto with capped.
  - repeat (apply Forall_cons; split); auto with capped. destruct (ev_SDK se) as [[]|]; auto with capped.
  - auto with capped.
  - destruct (raw_present _); [rewrite Hids in Ht, Hs; done|]. injection Hids as <- <-. auto with capped.
  - apply capTags_ok.
  - apply parseExceptions_ok.
  - apply capFingerprint_ok.
  - repeat (apply Forall_cons; split); auto using block_bound.
Qed.

(** ** Transactions *)

Record span_ok (now : Z) (s : Span) : Prop := {
  so_start : inRetentionWindow (s_Start s) now = true;
  so_ids : capped maxSpanID (s_SpanID s) /\ capped maxSpanID (ParentSpanID s);
  so_op : capped maxOp (s_Op s);
  so_status : capped maxStatus (s_Status s);
  so_description : (length (chars_of (s_Description s)) <= maxSpanDescription)%nat /\ no_zero (chars_of (s_Description s));
  so_data : data_ok (Data s) }.

Record transaction_ok (now : Z) (tx : Transaction) : Prop := {
  to_trace : t_TraceID tx <> ""%string /\ capped maxTraceID (t_TraceID tx) /\ capped maxSpanID (t_SpanID tx);
  to_start : inRetentionWindow (t_Start tx) now = true;
  to_labels : Forall (capped 200) [t_Name tx; t_Environment tx; t_Release tx; t_ServerName tx; t_UserID tx];
  to_op : capped maxOp (t_Op tx);
  to_status : capped maxStatus (t_Status tx);
  to_tags : tags_ok (t_Tags tx);
  to_spans : (length (t_Spans tx) <= maxSpans)%nat /\ Forall (span_ok now) (t_Spans tx) }.

Lemma transactionStatus_capped s : capped maxStatus (transactionStatus s).
Proof.
  unfold transactionStatus. destruct (String.eqb s ""); [|apply capRunes_capped].
  constructor; [by apply Nat.leb_le|]. repeat constructor; done.
Qed.
#[local] Hint Resolve transactionStatus_capped : capped.

Lemma parse_span_ok now end_ ss s : parse_span now end_ ss = Some s -> span_ok now s.
Proof.
  unfold parse_span. destruct (inRetentionWindow _ now) eqn:Hw; [|done]. intros [= <-]. constructor; cbn; auto with capped.
  - apply capBytes_ok.
  - apply capDataMap_ok.
Qed.

Lemma parse_spans_ok now end_ l : (length (omap (parse_span now end_) l) <= length l)%nat /\ Forall (span_ok now) (omap (parse_span now end_) l).
Proof.
  induction l as [|ss l [IH1 IH2]]; [done|]. cbn. destruct (parse_span now end_ ss) eqn:Hs; cbn [length]; split; [lia| |lia|done].
  constructor; [by eapply parse_span_ok|done].
Qed.

Definition measurements_ok (m : gmap string spec_float) : Prop :=
  (size m <= maxMeasurements)%nat /\ map_Forall (fun k v => capped maxMeasurementKey k /\ float_negative v = false) m.

Lemma first_names_sub {A} n (m : gmap string A) k v : (k, v) ∈ first_names n m -> m !! k = Some v.
Proof.
  unfold first_names. intros Hin. apply elem_of_map_to_list. rewrite <- (merge_sort_Permutation by_name).
  rewrite <- (take_drop n (merge_sort by_name (map_to_list m))). apply elem_of_app. by left.
Qed.

Lemma times_positive v : float_negative v = false -> float_negative (SFmul 53 1024 v (float_of_Z 1000)) = false.
Proof.
  change (float_of_Z 1000) with (S754_finite false 8796093022208000 (-43)). destruct v as [[]|[]| |[] m e]; try done. intros _.
  cbn [SFmul xorb]. unfold binary_round_aux. destruct (shr_fexp _ _ _ _ _) as [mrs e']. destruct (shr_fexp _ _ _ _ _) as [mrs' e''].
  destruct (shr_m mrs'); try done. by destruct (Z.leb _ _).
Qed.

Lemma put_measurements_ok l :
  map_Forall (fun k v => capped maxMeasurementKey k /\ float_negative v = false) (foldl put_measurement ∅ l).
Proof.
  induction l as [|[k m] l IH] using rev_ind; [apply map_Forall_empty|]. rewrite foldl_app. cbn [foldl]. unfold put_measurement at 1. cbn [fst snd].
  destruct (float_negative (sm_Value m)) eqn:Hn; [done|]. apply map_Forall_insert_2; [|done]. split; [auto with capped|].
  destruct (String.eqb _ _); [by apply times_positive|done].
Qed.

Lemma size_list_to_map {A} (l : list (string * A)) : (size (list_to_map l : gmap string A) <= length l)%nat.
Proof.
  induction l as [|[k v] l IH]; [done|]. cbn [list_to_map foldr length]. change (size (<[k:=v]> (list_to_map l : gmap string A)) <= S (length l))%nat.
  destruct ((list_to_map l : gmap string A) !! k) eqn:Hk; [rewrite map_size_insert_Some by eauto|rewrite map_size_insert_None by done]; lia.
Qed.

Lemma parseMeasurements_ok raw : measurements_ok (parseMeasurements raw).
Proof.
  unfold parseMeasurements, capMeasurements, measurements_ok. pose proof (put_measurements_ok (map_range raw)) as HP.
  set (m := foldl _ _ _) in *. clearbody m. destruct (Nat.leb_spec (size m) maxMeasurements); [done|]. split.
  - etrans; [apply size_list_to_map|apply first_names_length].
  - intros k v Hk. apply elem_of_list_to_map_2, first_names_sub in Hk. by apply HP.
Qed.

End bounded.

(** A value in seconds that is finite may not be in milliseconds. *)
Lemma parseMeasurements_infinite `{MapRange} :
  exists v, put_measurement ∅ ("lcp"%string, mkMeasurement v "second") !! "lcp"%string = Some (S754_infinity false)
    /\ parse_float (chars_of "1e308") = Some v.
Proof. exists (default S754_nan (parse_float (chars_of "1e308"))). by vm_compute. Qed.

(** A state of nothing but zero bytes becomes empty, not ["ok"]. *)
Lemma transactionStatus_empty : transactionStatus (text [char_of 0]) = ""%string.
Proof. by vm_compute. Qed.

Lemma ParseEvent_bounded_witness :
  exists pe, ParseEvent (1784714400 * second) "fresh" a_body = Some pe /\ event_ok (1784714400 * second) pe /\ length (pe_Exceptions pe) = 1%nat.
Proof.
  destruct (ParseEvent (1784714400 * second) "fresh" a_body) as [pe|] eqn:Hp; [|vm_compute in Hp; discriminate].
  exists pe. split; [reflexivity|]. split; [exact (ParseEvent_bounded _ _ _ _ Hp)|]. vm_compute in Hp. injection Hp as <-. reflexivity.
Defined.

