(* ===== verification/Handler.v ===== *)
(** The endpoints of the Sentry SDKs: [envelope] and [store] of
    [internal/ingest/handler.go], with what they share - authentication, the
    gates in front of it, quotas, refunds, counters - and profile_trunc.go,
    reject.go, deprecated.go.

    What a handler calls is a record [Services] of programs over the shared
    state: keys, limiters, quotas, the pipeline, sinks.  A handler runs between
    the steps of everybody else; the list it returns with its reply says what
    it did, in order, and is read by theorems only. *)
From stdpp Require Import base tactics list gmap strings.
From Stdlib Require Import ZArith Lia Ascii QArith Floats.SpecFloat.
From coqutil Require Import Datatypes.RecordSetters.
From S2P Require Import Prelude.
From S2P Require Import GoString.
From S2P Require Import JsonText.
From S2P Require Import Unmarshal.
From S2P Require Import Prog.
From S2P Require Import Environment.
From S2P Require Quota.
From S2P Require Import Trace.
From S2P Require Scrub.
From S2P Require Alert.
From S2P Require Import Ingest.
From S2P Require Import Keys.
From S2P Require Import Envelope.
From S2P Require Import Sentry.

Import RecordSetters.TriangleBracketNotations.
Open Scope Z_scope.
Open Scope go_scope.

(** ** Reasons and counters *)

Inductive KeyRejectReason :=
| KeyRejectMissingKey | KeyRejectInvalidKey | KeyRejectProjectMismatch | KeyRejectMissingBearer | KeyRejectInvalidDSNKey | KeyRejectScope.
#[export] Instance KeyRejectReason_eq_dec : EqDecision KeyRejectReason.
Proof. solve_decision. Defined.

Inductive IngestRejectReason :=
| RejectKeyUnknown | RejectKeyRevoked | RejectKeyScope | RejectRateLimit | RejectQuota | RejectTooLarge | RejectMalformed
| RejectOverloaded | RejectProfileDecodeBudget.
#[export] Instance IngestRejectReason_eq_dec : EqDecision IngestRejectReason.
Proof. solve_decision. Defined.

Inductive DeprecatedPath := DeprecatedLogs | DeprecatedProfilePprof | DeprecatedDeployments.
#[export] Instance DeprecatedPath_eq_dec : EqDecision DeprecatedPath.
Proof. solve_decision. Defined.

(** Signals a project is shown. *)
Inductive SignalKind := KindKeyInvalid | KindKeyScope | KindKeyProjectMismatch | KindDeprecated (p : DeprecatedPath).

Inductive ProfileParser := ParserPprof | ParserSentry.
#[export] Instance ProfileParser_eq_dec : EqDecision ProfileParser.
Proof. solve_decision. Defined.

(** The pairs that have a counter. *)
Definition data_signals : list IngestSignal := [SignalEvent; SignalTransaction; SignalMetric; SignalProfile; SignalLog].
Definition ingestRejectionPairs : list (IngestRejectReason * IngestSignal) :=
  flat_map (fun r => map (pair r) allIngestSignals) [RejectKeyUnknown; RejectRateLimit; RejectTooLarge; RejectMalformed] ++
  flat_map (fun r => map (pair r) data_signals) [RejectQuota; RejectOverloaded] ++
  [(RejectProfileDecodeBudget, SignalProfile)] ++ map (pair RejectKeyScope) keyScopeRejectionPairs.

Record Counters := mkCounters {
  keyRejected : KeyRejectReason -> Z;
  rejected : IngestRejectReason * IngestSignal -> Z;
  deprecated : DeprecatedPath -> Z;
  profileTruncated : ProfileParser -> Z;
  budget_total : Z; inFlight : Z }.

Definition dropMetric : Z := 2.
Definition dropProfile : Z := 3.
Definition dropLog : Z := 4.

Inductive quota_kind := QEvent | QTransaction | QProfile.
#[export] Instance quota_kind_eq_dec : EqDecision quota_kind.
Proof. solve_decision. Defined.

(** ** Requests and replies *)

Inductive encoding := Identity | Gzip | Zstd.

Record Request := mkRequest {
  rq_project : string; rq_auth : string; rq_query : string; rq_ip : string;
  rq_deprecated : option DeprecatedPath; rq_encoding : encoding; rq_body : stream }.

Record Reply := mkReply { rp_status : Z; rp_retry : option Z; rp_text : string }.
Definition refusal (status : Z) (detail : string) : Reply := mkReply status None detail.

(** [http.MaxBytesReader], and [limitedReader]. *)
Definition max_bytes (limit : Z) (s : stream) : stream :=
  if limit <? Z.of_nat (length (unread s)) then mkStream (take (Z.to_nat limit) (unread s)) MaxBytesError else s.
Definition limited (limit : Z) (s : stream) : stream :=
  if limit <? Z.of_nat (length (unread s)) then mkStream (take (Z.to_nat (limit + 1)) (unread s)) ErrTooLarge else s.

(** [io.ReadAll] *)
Definition read_all (s : stream) : result read_error chars :=
  match finally s with EOF => Ok (unread s) | e => Err e end.

Definition is_too_large (e : read_error) : bool := match e with ErrTooLarge | MaxBytesError => true | _ => false end.

(** What the profile of an item holds beside its samples. *)
Record Profile := mkProfile { pf_Transaction : string; pf_Service : string; pf_Environment : string; pf_Truncated : bool; pf_Samples : chars }.

(** ** What a handler did *)

Inductive happening :=
| Accepted (key : Key)
| Refused (reason : IngestRejectReason) (signal : IngestSignal)
| Granted (q : quota_kind) (orgID want n at_ : Z) (charged : bool)
| Returned (q : quota_kind) (orgID n at_ : Z)
| Selected (txs : list Transaction)
| Offered (projectID orgID : Z) (w : payload) (taken : bool)
| Stored (projectID : Z) (p : Profile)
| Unreadable (signal : IngestSignal)
| Lost (kind orgID n : Z).

(** A program, and what it did. *)
Definition W (D A : Type) : Type := prog D (A * list happening).
#[export] Instance W_ret {D} : MRet (W D) := fun A a => Ret (a, []).
#[export] Instance W_bind {D} : MBind (W D) := fun A B k m =>
  prog_bind (fun al => prog_bind (fun bl => Ret (bl.1, al.2 ++ bl.2)) (k al.1)) m.
Definition lift {D A} (p : prog D A) : W D A := prog_bind (fun a => Ret (a, [])) p.
Definition tell {D} (h : happening) : W D () := Ret (tt, [h]).

Fixpoint each {D A} (f : A -> W D ()) (l : list A) : W D () :=
  match l with [] => mret tt | a :: l => _u ← f a; each f l end.

(** ** What a handler calls *)

(** A quota or the settings of projects may be absent; a quota answers how
    many units it gave and the month they count for. *)
Record Services (D : Type) := mkServices {
  sv_now : D -> Z;
  sv_uuid : prog D string;
  sv_preAuth : string -> prog D bool;
  sv_signalTouch : string -> prog D bool;
  sv_rate : Z -> prog D bool;
  sv_Resolve : string -> prog D (result key_error Key);
  sv_Touch : Z -> SignalKind -> prog D ();
  sv_quota : quota_kind -> option (Z -> Z -> prog D (result () (Z * Z)));
  sv_Refund : quota_kind -> Z -> Z -> Z -> prog D (result () ());
  sv_IncDropped : Z -> Z -> Z -> Z -> prog D (result () ());
  sv_saturation : IngestSignal -> D -> spec_float;
  sv_Enqueue : Z -> Z -> ParsedEvent -> prog D bool;
  sv_EnqueueTransaction : Z -> Z -> Transaction -> prog D bool;
  sv_Tracing : bool;
  sv_sampleRate : option (Z -> prog D (result () (option Q)));
  sv_profiles : option (Z -> Profile -> prog D ());
  sv_Value : Z -> string -> string -> prog D string;
  sv_scrubber : option Scrub.Scrubber;
  sv_ctx_done : D -> bool }.
Arguments sv_now {_} _. Arguments sv_uuid {_} _. Arguments sv_preAuth {_} _. Arguments sv_signalTouch {_} _.
Arguments sv_rate {_} _. Arguments sv_Resolve {_} _. Arguments sv_Touch {_} _. Arguments sv_quota {_} _.
Arguments sv_Refund {_} _. Arguments sv_IncDropped {_} _. Arguments sv_saturation {_} _. Arguments sv_Enqueue {_} _.
Arguments sv_EnqueueTransaction {_} _. Arguments sv_Tracing {_} _. Arguments sv_sampleRate {_} _. Arguments sv_profiles {_} _.
Arguments sv_Value {_} _. Arguments sv_scrubber {_} _. Arguments sv_ctx_done {_} _.

(** Code of packages that are not modelled: the decompressors, of gzip and
    zstd, and the parser of profiles. *)
Class Codecs := {
  decompress : encoding -> stream -> option stream;
  ParseSentryProfile : Z -> chars -> option Profile }.

Section handler.
Context `{Unicode} `{Formats} `{MapRange} `{Codecs} {D : Type} `{Has Counters D} (sv : Services D).
Context (maxBytes : Z) (polls : nat).

(** ** Counting *)

Definition count (f : Counters -> Counters) : W D () := lift (pmodify (fun d => put (f (get d)) d)).

Definition countKeyReject (reason : KeyRejectReason) : W D () :=
  count (fun c => c <| keyRejected := bump reason 1 (keyRejected c) |>).

Definition countRejected (reason : IngestRejectReason) (signal : IngestSignal) : W D () :=
  _u ← (if bool_decide ((reason, signal) ∈ ingestRejectionPairs)
        then count (fun c => c <| rejected := bump (reason, signal) 1 (rejected c) |>) else mret tt);
  tell (Refused reason signal).

Definition countProfileTruncated (parser : ProfileParser) : W D () :=
  count (fun c => c <| profileTruncated := bump parser 1 (profileTruncated c) |>).

Definition countDrop (kind orgID n : Z) : W D () :=
  if n <=? 0 then mret tt else
  month ← lift (pgets (sv_now sv));
  _u ← lift (sv_IncDropped sv kind orgID month n);
  tell (Lost kind orgID n).

Definition touchSignal (projectID : Z) (kind : SignalKind) : W D () := lift (sv_Touch sv projectID kind).
Definition touchUnverifiedSignal (rq : Request) (projectID : Z) (kind : SignalKind) : W D () :=
  ok ← lift (sv_signalTouch sv (rq_ip rq));
  if ok : bool then touchSignal projectID kind else mret tt.
Definition touchDeprecatedSignal (rq : Request) (projectID : Z) : W D () :=
  match rq_deprecated rq with Some p => touchSignal projectID (KindDeprecated p) | None => mret tt end.

(** ** Gates *)

Definition deprecatedAlias (p : DeprecatedPath) (next : Request -> W D Reply) (rq : Request) : W D Reply :=
  _u ← count (fun c => c <| deprecated := bump p 1 (deprecated c) |>);
  next (mkRequest (rq_project rq) (rq_auth rq) (rq_query rq) (rq_ip rq) (Some p) (rq_encoding rq) (rq_body rq)).

Definition preAuthGate (next : Request -> W D Reply) (rq : Request) : W D Reply :=
  ok ← lift (sv_preAuth sv (rq_ip rq));
  if ok : bool then next rq else mret (mkReply 429 (Some 1) "rate limit exceeded").

(** A reply ends the request. *)
Definition rateLimited (projectID : Z) (signal : IngestSignal) : W D (option Reply) :=
  ok ← lift (sv_rate sv projectID);
  if ok : bool then mret None else
  _u ← countRejected RejectRateLimit signal;
  mret (Some (mkReply 429 (Some 1) "rate limit exceeded")).

Definition overloadThreshold : spec_float := decimal_float false 95 (-2).
Definition saturated (f : spec_float) : bool := negb (SFltb f overloadThreshold).
Definition full_float : spec_float := float_of_Z 1.

Definition overloaded (signal : IngestSignal) (saturation : spec_float) : W D (option Reply) :=
  if negb (saturated saturation) then mret None else
  _u ← countRejected RejectOverloaded signal;
  mret (Some (mkReply 503 (Some 5) "ingest overloaded")).

Definition scopeReject (signal : IngestSignal) (projectID : Z) : W D Reply :=
  _u ← countKeyReject KeyRejectScope;
  _u ← countRejected RejectKeyScope signal;
  _u ← touchSignal projectID KindKeyScope;
  mret (refusal 403 "key type not allowed for this endpoint").

Definition authenticate (rq : Request) (signal : IngestSignal) (also : list IngestSignal) : W D (result Reply Key) :=
  match Alert.ParseInt (rq_project rq) with
  | None => mret (Err (refusal 404 "unknown project"))
  | Some projectID =>
      let pub := PublicKeyFromRequest (rq_auth rq) (rq_query rq) in
      if String.eqb pub "" then
        _u ← countKeyReject KeyRejectMissingKey;
        _u ← countRejected RejectKeyUnknown signal;
        _u ← touchUnverifiedSignal rq projectID KindKeyInvalid;
        mret (Err (refusal 401 "missing sentry_key"))
      else
      key ← lift (sv_Resolve sv pub);
      match key with
      | Err ErrKeyNotFound =>
          _u ← countKeyReject KeyRejectInvalidKey;
          _u ← countRejected RejectKeyUnknown signal;
          _u ← touchUnverifiedSignal rq projectID KindKeyInvalid;
          mret (Err (refusal 403 "invalid sentry_key"))
      | Err _ => mret (Err (refusal 503 "key lookup failed"))
      | Ok key =>
          if negb (key_ProjectID key =? projectID) then
            _u ← countKeyReject KeyRejectProjectMismatch;
            _u ← countRejected RejectKeyUnknown signal;
            _u ← touchSignal (key_ProjectID key) KindKeyProjectMismatch;
            mret (Err (refusal 403 "sentry_key does not match project"))
          else if negb (scopeAllowsRoute (Kind key) signal also) then
            reply ← scopeReject signal (key_ProjectID key);
            mret (Err reply)
          else
            _u ← touchDeprecatedSignal rq (key_ProjectID key);
            _u ← tell (Accepted key);
            mret (Ok key)
      end
  end.

(** ** Quotas *)

(** [grant]: a quota that is absent or cannot be asked lets everything in. *)
Definition grant (q : quota_kind) (orgID want : Z) : W D (Z * Z) :=
  if want <=? 0 then mret (0, Quota.zero_time) else
  match sv_quota sv q with
  | None => _u ← tell (Granted q orgID want want Quota.zero_time false); mret (want, Quota.zero_time)
  | Some check =>
      r ← lift (check orgID want);
      match r with
      | Ok (n, chargedAt) => _u ← tell (Granted q orgID want n chargedAt true); mret (n, chargedAt)
      | Err _ => _u ← tell (Granted q orgID want want Quota.zero_time false); mret (want, Quota.zero_time)
      end
  end.

Definition refund (q : quota_kind) (orgID n chargedAt : Z) : W D () :=
  if is_nil (sv_quota sv q) || (n <=? 0) then mret tt else
  _u ← lift (sv_Refund sv q orgID n chargedAt);
  tell (Returned q orgID n chargedAt).

(** Thirty-one days after the first of a month it is another month. *)
Definition secondsUntilNextMonth (now : Z) : Z :=
  let next := Quota.monthStart (Quota.monthStart now + 31 * 24 * hour) in
  Z.max 1 ((next - now) / second).

Definition writeQuotaExceeded (signal : IngestSignal) (detail : string) : W D Reply :=
  _u ← countRejected RejectQuota signal;
  now ← lift (pgets (sv_now sv));
  mret (mkReply 429 (Some (secondsUntilNextMonth now)) detail).

(** [body]: [None] when the decompressor refuses the beginning. *)
Definition body (rq : Request) : option stream :=
  let raw := max_bytes maxBytes (rq_body rq) in
  match rq_encoding rq with
  | Identity => Some raw
  | enc => limited (maxBytes * 10) <$> decompress enc raw
  end.

(** ** Profiles *)

Definition estimatedPprofAmplification : Z := 35.

Definition setLimit (total : Z) (c : Counters) : Counters := c <| budget_total := total |>.

Definition try_acquire (weight : Z) (c : Counters) : bool * Counters :=
  if inFlight c + weight <=? budget_total c then (true, c <| inFlight := inFlight c + weight |>) else (false, c).

Fixpoint acquire_polls (n : nat) (weight : Z) : prog D bool :=
  match n with
  | O => mret false
  | S n =>
      ok ← locked (on (try_acquire weight));
      if ok : bool then mret true else
      stop ← pgets (sv_ctx_done sv);
      if stop : bool then mret false else acquire_polls n weight
  end.

(** [acquire]: the context of the request ends the waiting at the latest after
    [polls] polls. *)
Definition acquire (weight : Z) : prog D bool :=
  total ← pgets (fun d => budget_total (get d));
  if total <=? 0 then mret true else
  if total <? weight then mret false else acquire_polls polls weight.

Definition acquireProfileDecode (rawBytes : Z) : W D bool := lift (acquire (rawBytes * estimatedPprofAmplification)).
Definition release_budget (weight : Z) (c : Counters) : Counters := if 0 <? budget_total c then c <| inFlight := inFlight c - weight |> else c.
Definition releaseProfileDecode (rawBytes : Z) : W D () := count (release_budget (rawBytes * estimatedPprofAmplification)).

Definition scrubProfile (p : Profile) : Profile :=
  let clean := Scrub.op_ScrubMessage (sv_scrubber sv) in
  mkProfile (clean (pf_Transaction p)) (clean (pf_Service p)) (clean (pf_Environment p)) (pf_Truncated p) (pf_Samples p).

Definition limitProfileCardinality (projectID : Z) (p : Profile) : W D Profile :=
  tx ← lift (sv_Value sv projectID "transaction" (pf_Transaction p));
  service ← lift (sv_Value sv projectID "service" (pf_Service p));
  environment ← lift (sv_Value sv projectID "environment" (pf_Environment p));
  mret (mkProfile tx service environment (pf_Truncated p) (pf_Samples p)).

(** One profile of an envelope. *)
Definition store_profile (add : Z -> Profile -> prog D ()) (key : Key) (raw : chars) : W D () :=
  let size := Z.of_nat (length raw) in
  ok ← acquireProfileDecode size;
  if negb ok then countDrop dropProfile (key_OrgID key) 1 else
  now ← lift (pgets (sv_now sv));
  let parsed := ParseSentryProfile now raw in
  _u ← releaseProfileDecode size;
  match parsed with
  | None => tell (Unreadable SignalProfile)
  | Some prof =>
      _u ← (if pf_Truncated prof then countProfileTruncated ParserSentry else mret tt);
      prof ← limitProfileCardinality (key_ProjectID key) (scrubProfile prof);
      _u ← lift (add (key_ProjectID key) prof);
      tell (Stored (key_ProjectID key) prof)
  end.

(** ** Transactions *)

Definition parse_transaction (now : Z) (raw : chars) : option Transaction :=
  match ParseTransaction now raw with Ok (tx, _) => Some tx | Err _ => None end.

(** A broken item is left out; every parse reads the clock. *)
Fixpoint parseTransactions (items : list chars) : W D (list Transaction) :=
  match items with
  | [] => mret []
  | raw :: items =>
      now ← lift (pgets (sv_now sv));
      let tx := parse_transaction now raw in
      _u ← (if is_nil tx then tell (Unreadable SignalTransaction) else mret tt);
      txs ← parseTransactions items;
      mret (match tx with Some tx => tx :: txs | None => txs end)
  end.

(** A rate of sampling is [None] for NaN. *)
Definition sampleRate (projectID : Z) : W D (option Q) :=
  match sv_sampleRate sv with
  | None => mret (Some 1%Q)
  | Some resolve => r ← lift (resolve projectID); mret (match r with Ok rate => rate | Err _ => Some 1%Q end)
  end.

Definition sampleTransactions (projectID : Z) (txs : list Transaction) : W D (list Transaction) :=
  match txs with
  | [] => mret []
  | _ => rate ← sampleRate projectID; mret (List.filter (fun tx => Keep (t_TraceID tx) rate) txs)
  end.

Fixpoint limit_spans (projectID : Z) (spans : list Span) : W D (list Span) :=
  match spans with
  | [] => mret []
  | s :: spans =>
      op ← lift (sv_Value sv projectID "op" (s_Op s));
      rest ← limit_spans projectID spans;
      mret (mkSpan (s_SpanID s) (ParentSpanID s) op (s_Description s) (s_Start s) (s_End s) (s_Status s) (Data s) :: rest)
  end.

Definition limitCardinality (projectID : Z) (tx : Transaction) : W D Transaction :=
  name ← lift (sv_Value sv projectID "transaction" (t_Name tx));
  environment ← lift (sv_Value sv projectID "environment" (t_Environment tx));
  op ← lift (sv_Value sv projectID "op" (t_Op tx));
  spans ← limit_spans projectID (t_Spans tx);
  mret (mkTransaction (t_TraceID tx) (t_SpanID tx) name op (t_Status tx) (t_Start tx) (t_End tx) environment (t_Release tx)
    (t_ServerName tx) (t_UserID tx) (t_Tags tx) spans (t_Source tx)).

(** How many were taken, and how many turned away. *)
Fixpoint enqueueTransactions (projectID orgID : Z) (txs : list Transaction) : W D (Z * Z) :=
  match txs with
  | [] => mret (0, 0)
  | tx :: txs =>
      tx ← limitCardinality projectID tx;
      ok ← lift (sv_EnqueueTransaction sv projectID orgID tx);
      _u ← tell (Offered projectID orgID (TaskTransaction tx) ok);
      '(enqueued, dropped) ← enqueueTransactions projectID orgID txs;
      mret (if ok : bool then (enqueued + 1, dropped) else (enqueued, dropped + 1))
  end.

(** ** Events *)

Definition with_environment (environment : string) (pe : ParsedEvent) : ParsedEvent :=
  mkParsed (EventID pe) (pe_Timestamp pe) (pe_Level pe) (pe_Message pe) (pe_Exceptions pe) (StacktraceJSON pe) environment
    (pe_Release pe) (pe_ServerName pe) (pe_SDK pe) (pe_UserID pe) (pe_UserIP pe) (pe_UserEmail pe) (pe_Tags pe)
    (ContextsJSON pe) (BreadcrumbsJSON pe) (RequestJSON pe) (pe_Fingerprint pe) (pe_Title pe) (pe_Culprit pe) (pe_TraceID pe) (pe_SpanID pe).

Definition parse_event (raw : chars) : W D (option ParsedEvent) :=
  now ← lift (pgets (sv_now sv));
  fresh ← lift (sv_uuid sv);
  mret (ParseEvent now fresh raw).

(** The identifier to answer with, how many events were taken and how many
    turned away. *)
Fixpoint enqueue_events (key : Key) (id : string) (items : list chars) : W D (string * Z * Z) :=
  match items with
  | [] => mret (id, 0, 0)
  | raw :: items =>
      pe ← parse_event raw;
      match pe with
      | None => _u ← tell (Unreadable SignalEvent); enqueue_events key id items
      | Some pe =>
          let id := if String.eqb id "" then EventID pe else id in
          environment ← lift (sv_Value sv (key_ProjectID key) "environment" (pe_Environment pe));
          let pe := with_environment environment pe in
          ok ← lift (sv_Enqueue sv (key_ProjectID key) (key_OrgID key) pe);
          _u ← tell (Offered (key_ProjectID key) (key_OrgID key) (TaskEvent pe) ok);
          '(id, enqueued, dropped) ← enqueue_events key id items;
          mret (if ok : bool then (id, enqueued + 1, dropped) else (id, enqueued, dropped + 1))
      end
  end.

(** ** Envelopes *)

(** A handler that returns without having written answers 200. *)
Definition answer_overloaded (signal : IngestSignal) (saturation : spec_float) : W D Reply :=
  r ← overloaded signal saturation;
  mret (default (refusal 200 "") r).

Definition len {A} (l : list A) : Z := Z.of_nat (length l).
Definition present {A} (l : list A) : bool := 0 <? len l.

(** Profiles have a quota and a buffer of their own. *)
Definition store_profiles (key : Key) (profiles : list chars) (profOverloaded : bool) (profGranted : Z) : W D () :=
  match profiles, sv_profiles sv with
  | [], _ => mret tt
  | _, None => countDrop dropProfile (key_OrgID key) (len profiles)
  | _, Some add =>
      if profOverloaded then countDrop dropProfile (key_OrgID key) (len profiles) else
      _u ← countDrop dropProfile (key_OrgID key) (len profiles - profGranted);
      each (store_profile add key) (take (Z.to_nat profGranted) profiles)
  end.

(** The transactions of an envelope that are worth their quota. *)
Definition select_transactions (key : Key) (items : list chars) : W D (list Transaction) :=
  if present items && sv_Tracing sv then
    txs ← parseTransactions items;
    sampleTransactions (key_ProjectID key) txs
  else mret [].

(** Events and transactions go to the pipeline, and what it has no room for
    is paid back. *)
Definition enqueue_granted (key : Key) (id : string) (events : list chars) (txs : list Transaction)
    (eventsChargedAt txChargedAt : Z) : W D Reply :=
  '(id, eventsEnqueued, eventsCapacityDropped) ← enqueue_events key id events;
  '(txEnqueued, txCapacityDropped) ← enqueueTransactions (key_ProjectID key) (key_OrgID key) txs;
  _u ← refund QEvent (key_OrgID key) eventsCapacityDropped eventsChargedAt;
  _u ← refund QTransaction (key_OrgID key) txCapacityDropped txChargedAt;
  if (eventsEnqueued =? 0) && (txEnqueued =? 0) && ((0 <? eventsCapacityDropped) || (0 <? txCapacityDropped)) then
    answer_overloaded (if 0 <? eventsCapacityDropped then SignalEvent else SignalTransaction) full_float
  else mret (mkReply 200 None id).

(** What was not granted is lost; the rest is stored, or goes to the
    pipeline. *)
Definition spend_grants (key : Key) (env : Envelope) (txSelected : list Transaction)
    (profOverloaded relevant eventQuotaRelevant txQuotaRelevant : bool)
    (eventsGranted txGranted profGranted eventsChargedAt txChargedAt : Z) : W D Reply :=
  let org := key_OrgID key in
  _u ← (if present (Events env) then countDrop dropEvent org (len (Events env) - eventsGranted) else mret tt);
  _u ← countDrop dropTransaction org (len txSelected - txGranted);
  _u ← store_profiles key (Profiles env) profOverloaded profGranted;
  if relevant && (negb (0 <? eventsGranted) && negb (0 <? txGranted) && negb (0 <? profGranted)) then
    if eventQuotaRelevant then writeQuotaExceeded SignalEvent "event quota exceeded"
    else if txQuotaRelevant then writeQuotaExceeded SignalTransaction "transaction quota exceeded"
    else writeQuotaExceeded SignalProfile "profile quota exceeded"
  else
  enqueue_granted key (env_EventID env) (take (Z.to_nat eventsGranted) (Events env))
    (take (Z.to_nat txGranted) txSelected) eventsChargedAt txChargedAt.

(** Which of the three classes are refused for want of room, granted, lost
    and taken. *)
Definition settle_envelope (key : Key) (env : Envelope) (txSelected : list Transaction) : W D Reply :=
  let org := key_OrgID key in
  eventSat ← lift (pgets (sv_saturation sv SignalEvent));
  txSat ← lift (pgets (sv_saturation sv SignalTransaction));
  profSat ← lift (pgets (sv_saturation sv SignalProfile));
  let hasEvents := present (Events env) in
  let hasTx := present txSelected in
  let hasProfiles := present (Profiles env) in
  let eventOverloaded := hasEvents && saturated eventSat in
  let txOverloaded := hasTx && saturated txSat in
  let profOverloaded := hasProfiles && saturated profSat in
  if (hasEvents || hasTx || hasProfiles) &&
     (negb hasEvents || eventOverloaded) && (negb hasTx || txOverloaded) && (negb hasProfiles || profOverloaded) then
    if hasEvents then answer_overloaded SignalEvent eventSat
    else if hasTx then answer_overloaded SignalTransaction txSat
    else answer_overloaded SignalProfile profSat
  else
  let eventQuotaRelevant := hasEvents && negb eventOverloaded in
  let txQuotaRelevant := hasTx && negb txOverloaded in
  let profQuotaRelevant := hasProfiles && negb (is_nil (sv_profiles sv)) && negb profOverloaded in
  '(eventsGranted, eventsChargedAt) ←
    (if eventQuotaRelevant then grant QEvent org (len (Events env)) else mret (0, Quota.zero_time));
  '(txGranted, txChargedAt) ←
    (if txQuotaRelevant then grant QTransaction org (len txSelected) else mret (0, Quota.zero_time));
  '(profGranted, _) ←
    (if profQuotaRelevant then grant QProfile org (len (Profiles env)) else mret (0, Quota.zero_time));
  let nothing := negb (0 <? eventsGranted) && negb (0 <? txGranted) && negb (0 <? profGranted) in
  let relevant := eventQuotaRelevant || txQuotaRelevant || profQuotaRelevant in
  if relevant && nothing && (eventOverloaded || txOverloaded || profOverloaded) then
    if eventOverloaded then answer_overloaded SignalEvent eventSat
    else if txOverloaded then answer_overloaded SignalTransaction txSat
    else answer_overloaded SignalProfile profSat
  else
  spend_grants key env txSelected profOverloaded relevant eventQuotaRelevant txQuotaRelevant
    eventsGranted txGranted profGranted eventsChargedAt txChargedAt.

Definition accept_envelope (key : Key) (env : Envelope) : W D Reply :=
  _u ← countDrop dropEvent (key_OrgID key) (env_Dropped env);
  _u ← each (countRejected RejectKeyScope) (map fst (map_to_list (ScopeRejected env)));
  txSelected ← select_transactions key (Transactions env);
  _u ← tell (Selected txSelected);
  settle_envelope key env txSelected.

Definition envelope (rq : Request) : W D Reply :=
  key ← authenticate rq SignalEvent envelopeAlsoSignals;
  match key with
  | Err reply => mret reply
  | Ok key =>
      stopped ← rateLimited (key_ProjectID key) SignalEvent;
      match stopped, body rq with
      | Some reply, _ => mret reply
      | None, None => _u ← countRejected RejectMalformed SignalEvent; mret (refusal 400 "bad body encoding")
      | None, Some body =>
          match ParseEnvelope maxBytes (scopeAllows (Kind key)) body with
          | Ok env => accept_envelope key env
          | Err err =>
              let big := match err with Reading e => is_too_large e | ErrMalformed => false end in
              _u ← countRejected (if big then RejectTooLarge else RejectMalformed) SignalEvent;
              mret (refusal (if big then 413 else 400) "malformed envelope")
          end
      end
  end.

(** ** One event *)

Definition store_event (key : Key) (pe : ParsedEvent) : W D Reply :=
  '(granted, chargedAt) ← grant QEvent (key_OrgID key) 1;
  if granted =? 0 then
    _u ← countDrop dropEvent (key_OrgID key) 1;
    writeQuotaExceeded SignalEvent "event quota exceeded"
  else
  ok ← lift (sv_Enqueue sv (key_ProjectID key) (key_OrgID key) pe);
  _u ← tell (Offered (key_ProjectID key) (key_OrgID key) (TaskEvent pe) ok);
  if negb ok then
    _u ← refund QEvent (key_OrgID key) 1 chargedAt;
    answer_overloaded SignalEvent full_float
  else mret (mkReply 200 None (EventID pe)).

Definition store (rq : Request) : W D Reply :=
  key ← authenticate rq SignalEvent [];
  match key with
  | Err reply => mret reply
  | Ok key =>
      stopped ← rateLimited (key_ProjectID key) SignalEvent;
      match stopped with
      | Some reply => mret reply
      | None =>
          saturation ← lift (pgets (sv_saturation sv SignalEvent));
          stopped ← overloaded SignalEvent saturation;
          match stopped, body rq with
          | Some reply, _ => mret reply
          | None, None => _u ← countRejected RejectMalformed SignalEvent; mret (refusal 400 "bad body encoding")
          | None, Some body =>
              match read_all body with
              | Err e =>
                  let big := is_too_large e in
                  _u ← countRejected (if big then RejectTooLarge else RejectMalformed) SignalEvent;
                  mret (refusal (if big then 413 else 400) (if big then "event too large" else "bad body"))
              | Ok raw =>
                  pe ← parse_event raw;
                  match pe with
                  | None => _u ← countRejected RejectMalformed SignalEvent; mret (refusal 400 "malformed event")
                  | Some pe => store_event key pe
                  end
              end
          end
      end
  end.

(** ** Routes *)

Definition post_envelope (rq : Request) : W D Reply := preAuthGate envelope rq.
Definition post_store (rq : Request) : W D Reply := preAuthGate store rq.
End handler.

(** ** Reasoning about what was done *)

Section logic.
Context {D : Type}.

(** Whatever state each statement of [m] finds, and whatever it meets, [Q]
    holds of what [m] returns and did. *)
Definition does {A} (m : W D A) (Q : A -> list happening -> Prop) : Prop := always (fun _ => True) m (fun al => Q al.1 al.2).

Lemma always_any {A} (p : prog D A) : always (fun _ => True) p (fun _ => True).
Proof. by induction p; cbn; auto. Qed.

Lemma does_ret {A} (a : A) (Q : A -> list happening -> Prop) : Q a [] -> does (mret a) Q.
Proof. done. Qed.
Lemma does_tell h (Q : () -> list happening -> Prop) : Q tt [h] -> does (tell h) Q.
Proof. done. Qed.
Lemma does_lift_post {A} (p : prog D A) (P : A -> Prop) (Q : A -> list happening -> Prop) :
  always (fun _ => True) p P -> (forall a, P a -> Q a []) -> does (lift p) Q.
Proof. intros Hp HQ. eapply (always_bind _ p _ P); [done|]. intros a Ha. by apply HQ. Qed.
Lemma does_lift {A} (p : prog D A) (Q : A -> list happening -> Prop) : (forall a, Q a []) -> does (lift p) Q.
Proof. intros HQ. by apply (does_lift_post p (fun _ => True)); [apply always_any|auto]. Qed.
Lemma does_bind {A B} (m : W D A) (k : A -> W D B) (Q : B -> list happening -> Prop) :
  does m (fun a l => does (k a) (fun b l' => Q b (l ++ l'))) -> does (mbind k m) Q.
Proof.
  intros Hm. eapply (always_bind _ m _ (fun al => does (k al.1) (fun b l' => Q b (al.2 ++ l')))); [exact Hm|].
  intros [a l] Hk. eapply (always_bind _ (k a) _ _ _ Hk). intros [b l'] HQ. exact HQ.
Qed.
Lemma does_mono {A} (m : W D A) (Q R : A -> list happening -> Prop) :
  does m Q -> (forall a l, Q a l -> R a l) -> does m R.
Proof. intros Hm HQ. eapply always_mono; [exact Hm|]. intros [a l]. apply HQ. Qed.
End logic.

(** What is counted of a happening. *)
Inductive item := IGranted (q : quota_kind) | IReturned (q : quota_kind) | ITaken (q : quota_kind) | ITurned (q : quota_kind)
  | IUnreadable (s : IngestSignal) | ILost (kind : Z) | IStored.
#[export] Instance item_eq_dec : EqDecision item.
Proof. solve_decision. Defined.

Definition payload_kind (w : payload) : quota_kind := match w with TaskEvent _ => QEvent | TaskTransaction _ => QTransaction end.

Definition worth (h : happening) : option (item * Z) :=
  match h with
  | Granted q _ _ n _ _ => Some (IGranted q, n)
  | Returned q _ n _ => Some (IReturned q, n)
  | Offered _ _ w true => Some (ITaken (payload_kind w), 1)
  | Offered _ _ w false => Some (ITurned (payload_kind w), 1)
  | Unreadable s => Some (IUnreadable s, 1)
  | Lost kind _ n => Some (ILost kind, n)
  | Stored _ _ => Some (IStored, 1)
  | _ => None
  end.
Definition units (i : item) (h : happening) : Z := match worth h with Some (j, n) => if decide (i = j) then n else 0 | None => 0 end.
Definition tally (l : list happening) (i : item) : Z := total (units i) l.

Lemma tally_app l l' i : tally (l ++ l') i = tally l i + tally l' i.
Proof. apply total_app. Qed.
Lemma tally_nil i : tally [] i = 0.
Proof. done. Qed.
Lemma tally_one h i : tally [h] i = units i h.
Proof. unfold tally, total. cbn. lia. Qed.

(** Nothing that is counted. *)
Definition quiet (h : happening) : Prop := match h with Accepted _ | Refused _ _ => True | _ => False end.
Lemma tally_quiet l i : Forall quiet l -> tally l i = 0.
Proof. induction 1 as [|h l Hh _ IH]; [done|]. change (h :: l) with ([h] ++ l). rewrite tally_app, IH, tally_one. by destruct h. Qed.

Definition if_item (i j : item) (n : Z) : Z := if decide (i = j) then n else 0.

(** ** What the parts of a handler do *)

Section parts.
Context `{Unicode} `{Formats} `{MapRange} `{Codecs} {D : Type} `{Has Counters D} (sv : Services D) (maxBytes : Z) (polls : nat).

(** A quota gives no more than it is asked for. *)
Definition quota_law : Prop := forall q check orgID want, sv_quota sv q = Some check -> 0 < want ->
  always (fun _ => True) (check orgID want) (fun r => match r with Ok (n, _) => 0 <= n <= want | Err _ => True end).

(** A happening of the request of [key]; [ce] and [ct] are the months its
    events and transactions were charged to. *)
Definition about (key : Key) (ce ct : Z) (h : happening) : Prop :=
  match h with
  | Accepted k => k = key
  | Refused _ _ | Selected _ | Unreadable _ => True
  | Granted q org want n at_ _ => org = key_OrgID key /\ 0 <= n <= want /\ (q = QEvent -> at_ = ce) /\ (q = QTransaction -> at_ = ct)
  | Returned q org n at_ => org = key_OrgID key /\ 0 < n /\ q <> QProfile /\ (q = QEvent -> at_ = ce) /\ (q = QTransaction -> at_ = ct)
  | Offered p org w _ => p = key_ProjectID key /\ org = key_OrgID key /\
      scopeAllows (Kind key) (match w with TaskEvent _ => SignalEvent | TaskTransaction _ => SignalTransaction end) = true
  | Stored p _ => p = key_ProjectID key /\ scopeAllows (Kind key) SignalProfile = true
  | Lost _ org n => org = key_OrgID key /\ 0 < n
  end.

(** [l] is about the request and counts what [f] says. *)
Definition records (key : Key) (ce ct : Z) (f : item -> Z) (l : list happening) : Prop :=
  Forall (about key ce ct) l /\ forall i, tally l i = f i.

Lemma records_nil key ce ct : records key ce ct (fun _ => 0) [].
Proof. split; [constructor|done]. Qed.
Lemma records_app key ce ct f g l l' : records key ce ct f l -> records key ce ct g l' -> records key ce ct (fun i => f i + g i) (l ++ l').
Proof. intros [Ha Hf] [Hb Hg]. split; [by apply Forall_app|]. intros i. by rewrite tally_app, Hf, Hg. Qed.
Lemma records_ext key ce ct f g l : records key ce ct f l -> (forall i, f i = g i) -> records key ce ct g l.
Proof. intros [Ha Hf] Hfg. split; [done|]. intros i. by rewrite Hf. Qed.
Lemma records_one key ce ct h : about key ce ct h -> records key ce ct (fun i => units i h) [h].
Proof. intros Hh. split; [by constructor|]. intros i. apply tally_one. Qed.
Lemma records_quiet key ce ct l : Forall (fun h => quiet h /\ about key ce ct h) l -> records key ce ct (fun _ => 0) l.
Proof. intros Hl. split; [by eapply Forall_impl; [exact Hl|intros h []]|]. intros i. apply tally_quiet. by eapply Forall_impl; [exact Hl|intros h []]. Qed.

Lemma does_count f (Q : () -> list happening -> Prop) : Q tt [] -> does (count f) Q.
Proof. intros HQ. apply does_lift. by intros []. Qed.

Lemma does_countRejected reason signal (Q : () -> list happening -> Prop) : Q tt [Refused reason signal] -> does (countRejected reason signal) Q.
Proof. intros HQ. unfold countRejected. apply does_bind. case_bool_decide; [apply does_count|]; by apply does_tell. Qed.

Lemma does_countDrop key kind n (Q : () -> list happening -> Prop) :
  (forall l, (forall ce ct, records key ce ct (fun i => if_item i (ILost kind) (Z.max 0 n)) l) -> Q tt l) -> does (countDrop sv kind (key_OrgID key) n) Q.
Proof.
  intros HQ. unfold countDrop. destruct (Z.leb_spec n 0).
  - apply does_ret, HQ. intros ce ct. eapply records_ext; [apply records_nil|]. intros i. unfold if_item. destruct (decide _); lia.
  - apply does_bind, does_lift. intros now. apply does_bind, does_lift. intros r. apply does_tell, HQ.
    intros ce ct. eapply records_ext; [apply records_one; by split|]. intros i. unfold units, if_item. cbn [worth]. destruct (decide _); lia.
Qed.

Lemma does_grant key q want (Q : Z * Z -> list happening -> Prop) :
  quota_law ->
  (forall n at_ l, 0 <= n <= Z.max 0 want ->
     (forall ce ct, (q = QEvent -> at_ = ce) -> (q = QTransaction -> at_ = ct) -> records key ce ct (fun i => if_item i (IGranted q) n) l) ->
     Q (n, at_) l) ->
  does (grant sv q (key_OrgID key) want) Q.
Proof.
  intros Hlaw HQ. unfold grant. destruct (Z.leb_spec want 0).
  - apply does_ret, HQ; [lia|]. intros. eapply records_ext; [apply records_nil|]. intros i. unfold if_item. by destruct (decide _).
  - assert (forall n at_ b, 0 <= n <= want -> Q (n, at_) [Granted q (key_OrgID key) want n at_ b]) as HQ'.
    { intros n at_ b Hn. apply HQ; [lia|]. intros. eapply records_ext; [by apply records_one|done]. }
    destruct (sv_quota sv q) as [check|] eqn:Hc.
    + apply does_bind. eapply does_lift_post; [by apply (Hlaw q check)|]. intros [[n at_]|] Hn; apply does_bind, does_tell, HQ'; lia.
    + apply does_bind, does_tell, HQ'. lia.
Qed.

Lemma does_refund key (ce ct : Z) q n at_ (Q : () -> list happening -> Prop) :
  q <> QProfile -> (q = QEvent -> at_ = ce) -> (q = QTransaction -> at_ = ct) -> 0 <= n ->
  (forall l, records key ce ct (fun i => if_item i (IReturned q) (if is_nil (sv_quota sv q) then 0 else n)) l -> Q tt l) ->
  does (refund sv q (key_OrgID key) n at_) Q.
Proof.
  intros Hq H1' H2' Hn HQ. unfold refund. destruct (is_nil (sv_quota sv q)) eqn:Hnil; cbn [orb].
  - apply does_ret, HQ. eapply records_ext; [apply records_nil|]. intros i. unfold if_item. by destruct (decide _).
  - destruct (Z.leb_spec n 0).
    + apply does_ret, HQ. eapply records_ext; [apply records_nil|]. intros i. unfold if_item. destruct (decide _); lia.
    + apply does_bind, does_lift. intros r. apply does_tell, HQ. eapply records_ext; [by apply records_one|]. done.
Qed.

Ltac items := let i := fresh "i" in intros i; unfold units, if_item; cbn [worth payload_kind]; repeat (destruct (decide _); simplify_eq); lia.

Lemma does_touch rest (Q : () -> list happening -> Prop) : Q tt [] -> does (lift (D := D) rest) Q.
Proof. intros HQ. apply does_lift. by intros []. Qed.

Lemma does_each {A} key ce ct (f : A -> W D ()) (g : item -> Z -> Z -> Z -> Z) (l : list A) (Q : () -> list happening -> Prop) :
  (forall i, g i 0 0 0 = 0) -> (forall i s u d s' u' d', g i s u d + g i s' u' d' = g i (s + s') (u + u') (d + d')) ->
  (forall a, a ∈ l -> does (f a) (fun _ l => exists s u d, 0 <= s /\ 0 <= u /\ 0 <= d /\ s + u + d = 1 /\ records key ce ct (fun i => g i s u d) l)) ->
  (forall l' s u d, 0 <= s -> 0 <= u -> 0 <= d -> s + u + d = len l -> records key ce ct (fun i => g i s u d) l' -> Q tt l') ->
  does (each f l) Q.
Proof.
  intros H0' Hadd. revert Q. induction l as [|a l IH]; intros Q Hf HQ; cbn [each].
  - apply does_ret, (HQ _ 0 0 0); [done..|]. eapply records_ext; [apply records_nil|]. done.
  - apply does_bind. eapply does_mono; [apply Hf; by left|]. intros [] l1 (s & u & d & Hs & Hu & Hd & Hsum & Hr1).
    apply IH; [intros; apply Hf; by right|]. intros l2 s' u' d' Hs' Hu' Hd' Hsum' Hr2. apply (HQ _ (s + s') (u + u') (d + d')); [lia..| |].
    + unfold len in *. cbn [length]. lia.
    + eapply records_ext; [by apply records_app|]. intros i. apply Hadd.
Qed.

(** ** Profiles *)

Definition profile_items (i : item) (s u d : Z) : Z :=
  if_item i IStored s + if_item i (IUnreadable SignalProfile) u + if_item i (ILost dropProfile) d.

Lemma does_store_profile add key ce ct raw : scopeAllows (Kind key) SignalProfile = true ->
  does (store_profile sv polls add key raw)
    (fun _ l => exists s u d, 0 <= s /\ 0 <= u /\ 0 <= d /\ s + u + d = 1 /\ records key ce ct (fun i => profile_items i s u d) l).
Proof.
  intros Ha. unfold store_profile, profile_items. cbv zeta. apply does_bind, does_lift. intros [|]; cbn [negb].
  - apply does_bind, does_lift. intros now. apply does_bind, does_count. destruct (ParseSentryProfile now raw) as [prof|].
    + apply does_bind. assert (forall Q : () -> list happening -> Prop, Q tt [] -> does (if pf_Truncated prof then countProfileTruncated ParserSentry else mret tt) Q) as Htr
        by (intros Q HQ; destruct (pf_Truncated prof); [by apply does_count|done]).
      apply Htr. apply does_bind. unfold limitProfileCardinality. do 3 (apply does_bind, does_lift; intros ?). apply does_ret.
      apply does_bind, does_lift. intros []. apply does_tell. exists 1, 0, 0. split_and!; [lia..|].
      eapply records_ext; [by apply records_one|]. items.
    + apply does_tell. exists 0, 1, 0. split_and!; [lia..|]. eapply records_ext; [by apply records_one|]. items.
  - apply does_countDrop. intros l Hl. exists 0, 0, 1. split_and!; [lia..|]. eapply records_ext; [apply Hl|]. items.
Qed.

Lemma does_store_profiles key ce ct profiles over granted (Q : () -> list happening -> Prop) :
  (profiles <> [] -> scopeAllows (Kind key) SignalProfile = true) -> 0 <= granted <= len profiles ->
  (forall l s u d, 0 <= s -> 0 <= u -> 0 <= d -> s + u + d = len profiles -> s + u <= granted \/ granted = 0 /\ s = 0 /\ u = 0 ->
     records key ce ct (fun i => profile_items i s u d) l -> Q tt l) ->
  does (store_profiles sv polls key profiles over granted) Q.
Proof.
  intros Ha Hg HQ. unfold store_profiles. destruct profiles as [|p ps].
  - apply does_ret, (HQ _ 0 0 0); [done..|lia|]. eapply records_ext; [apply records_nil|]. unfold profile_items. items.
  - specialize (Ha ltac:(done)). set (l := p :: ps) in *.
    assert (forall Q' : () -> list happening -> Prop, (forall l', records key ce ct (fun i => profile_items i 0 0 (len l)) l' -> Q' tt l') ->
      does (countDrop sv dropProfile (key_OrgID key) (len l)) Q') as Hall.
    { intros Q' HQ'. apply does_countDrop. intros l' Hl'. apply HQ'. eapply records_ext; [apply Hl'|].
      unfold profile_items. assert (0 <= len l) by (unfold len; lia). items. }
    destruct (sv_profiles sv) as [add|]; [destruct over|].
    1, 3: apply Hall; intros l' Hl'; apply (HQ _ 0 0 (len l)); [lia|lia|unfold len; lia|lia|lia|exact Hl'].
    apply does_bind, does_countDrop. intros l1 Hl1. specialize (Hl1 ce ct). apply (does_each key ce ct _ profile_items).
    + unfold profile_items. items.
    + unfold profile_items. items.
    + intros raw _. by apply does_store_profile.
    + intros l2 s u d Hs Hu Hd Hsum Hl2. unfold len in Hsum. rewrite length_take in Hsum. unfold len in *.
      apply (HQ _ s u (d + (Z.of_nat (length l) - granted))); [lia..|].
      eapply records_ext; [by apply records_app|]. unfold profile_items. items.
Qed.

(** ** Transactions *)

Definition unreadable_txs (i : item) (u : Z) : Z := if_item i (IUnreadable SignalTransaction) u.

Lemma does_parseTransactions key items' :
  does (parseTransactions sv items') (fun txs l => len txs <= len items' /\ exists u, forall ce ct, records key ce ct (fun i => unreadable_txs i u) l).
Proof.
  induction items' as [|raw items' IH]; cbn [parseTransactions].
  - apply does_ret. split; [done|]. exists 0. intros ce ct. eapply records_ext; [apply records_nil|]. unfold unreadable_txs. items.
  - apply does_bind, does_lift. intros now. destruct (parse_transaction now raw) as [tx|]; cbn [is_nil].
    + change (is_nil (Some tx)) with false. cbn iota. apply does_bind, does_ret, does_bind. eapply does_mono; [exact IH|].
      intros txs l [Hlen [u Hl]]. apply does_ret. unfold len in *. cbn [length app]. rewrite app_nil_r. split; [lia|]. by exists u.
    + change (is_nil (@None Transaction)) with true. cbn iota. apply does_bind, does_tell, does_bind. eapply does_mono; [exact IH|].
      intros txs l [Hlen [u Hl]]. apply does_ret. unfold len in *. cbn [length]. rewrite app_nil_r. split; [lia|]. exists (1 + u).
      change ([] ++ [Unreadable SignalTransaction] ++ l) with ([Unreadable SignalTransaction] ++ l).
      intros ce ct. eapply records_ext; [apply records_app; [by apply records_one|apply Hl]|]. unfold unreadable_txs. items.
Qed.

Lemma does_select key items' :
  does (select_transactions sv key items') (fun sel l =>
    len sel <= len items' /\ exists u, forall ce ct, records key ce ct (fun i => unreadable_txs i u) l).
Proof.
  assert (does (mret [] : W D (list Transaction)) (fun sel l => len sel <= len items' /\ exists u, forall ce ct, records key ce ct (fun i => unreadable_txs i u) l)) as Hnone.
  { apply does_ret. split; [unfold len; cbn; lia|]. exists 0. intros ce ct. eapply records_ext; [apply records_nil|]. unfold unreadable_txs. items. }
  unfold select_transactions. destruct (_ && _); [|exact Hnone]. apply does_bind. eapply does_mono; [apply (does_parseTransactions key)|].
  intros txs l [Hlen [u Hl]].
  assert (forall rate, len (List.filter (fun tx => Keep (t_TraceID tx) rate) txs) <= len items') as Hfilter.
  { intros rate. pose proof (List.filter_length_le (fun tx => Keep (t_TraceID tx) rate) txs). unfold len in *. lia. }
  unfold sampleTransactions. destruct txs as [|tx txs]; [apply does_ret; rewrite app_nil_r; split; [done|by exists u]|].
  apply does_bind. unfold sampleRate. destruct (sv_sampleRate sv) as [resolve|]; [apply does_bind, does_lift; intros r|]; repeat apply does_ret;
    rewrite !app_nil_r; (split; [apply Hfilter|by exists u]).
Qed.

Lemma does_limit_spans projectID spans (Q : list Span -> list happening -> Prop) : (forall s, Q s []) -> does (limit_spans sv projectID spans) Q.
Proof.
  revert Q. induction spans as [|s spans IH]; intros Q HQ; cbn [limit_spans]; [apply does_ret, HQ|].
  apply does_bind, does_lift. intros op. apply does_bind, IH. intros rest. apply does_ret, HQ.
Qed.

Lemma does_limitCardinality projectID tx (Q : Transaction -> list happening -> Prop) :
  (forall tx', Q tx' []) -> does (limitCardinality sv projectID tx) Q.
Proof.
  intros HQ. unfold limitCardinality. do 3 (apply does_bind, does_lift; intros ?). apply does_bind, does_limit_spans. intros s. apply does_ret, HQ.
Qed.

Definition queued (q : quota_kind) (i : item) (e d : Z) : Z := if_item i (ITaken q) e + if_item i (ITurned q) d.

Lemma does_enqueueTransactions key ce ct txs : (txs <> [] -> scopeAllows (Kind key) SignalTransaction = true) ->
  does (enqueueTransactions sv (key_ProjectID key) (key_OrgID key) txs) (fun ed l =>
    0 <= ed.1 /\ 0 <= ed.2 /\ ed.1 + ed.2 = len txs /\ records key ce ct (fun i => queued QTransaction i ed.1 ed.2) l).
Proof.
  intros Ha. induction txs as [|tx txs IH]; cbn [enqueueTransactions].
  - apply does_ret. split_and!; [done..|]. eapply records_ext; [apply records_nil|]. unfold queued. cbn [fst snd]. items.
  - specialize (Ha ltac:(done)). apply does_bind, does_limitCardinality. intros tx'. apply does_bind, does_lift. intros ok.
    apply does_bind, does_tell, does_bind. eapply does_mono; [by apply IH|]. intros [e d] l (He & Hd & Hsum & Hl). cbn [fst snd] in *.
    apply does_ret. cbn [app]. rewrite ?app_nil_r. change (?h :: l) with ([h] ++ l).
    destruct ok; cbn [fst snd]; (split_and!; [lia|lia|unfold len in *; cbn [length]; lia|]);
      (eapply records_ext; [apply records_app; [apply records_one; by split_and!|exact Hl]|]); unfold queued; items.
Qed.

(** ** Events *)

Definition event_items (i : item) (e d u : Z) : Z := queued QEvent i e d + if_item i (IUnreadable SignalEvent) u.

Lemma does_enqueue_events key ce ct id events : (events <> [] -> scopeAllows (Kind key) SignalEvent = true) ->
  does (enqueue_events sv key id events) (fun r l => let '(_, e, d) := r in exists u,
    0 <= e /\ 0 <= d /\ 0 <= u /\ e + d + u = len events /\ records key ce ct (fun i => event_items i e d u) l).
Proof.
  intros Ha. revert id. induction events as [|raw events IH]; intros id; cbn [enqueue_events].
  - apply does_ret. exists 0. split_and!; [done..|]. eapply records_ext; [apply records_nil|]. unfold event_items, queued. items.
  - specialize (Ha ltac:(done)). apply does_bind. unfold parse_event. apply does_bind, does_lift. intros now. apply does_bind, does_lift. intros fresh.
    apply does_ret. destruct (ParseEvent now fresh raw) as [pe|].
    + apply does_bind, does_lift. intros env. apply does_bind, does_lift. intros ok. apply does_bind, does_tell, does_bind.
      eapply does_mono; [by apply IH|]. intros [[id' e] d] l (u & He & Hd & Hu & Hsum & Hl).
      apply does_ret. cbn [app]. rewrite ?app_nil_r. change (?h :: l) with ([h] ++ l).
      destruct ok; exists u; (split_and!; [lia|lia|lia|unfold len in *; cbn [length]; lia|]);
        (eapply records_ext; [apply records_app; [apply records_one; by split_and!|exact Hl]|]); unfold event_items, queued; items.
    + apply does_bind, does_tell. eapply does_mono; [by apply IH|]. intros [[id' e] d] l (u & He & Hd & Hu & Hsum & Hl).
      exists (1 + u). cbn [app]. change (?h :: l) with ([h] ++ l). split_and!; [lia|lia|lia|unfold len in *; cbn [length]; lia|].
      eapply records_ext; [apply records_app; [by apply records_one|exact Hl]|]. unfold event_items, queued. items.
Qed.

(** ** Envelopes *)

Lemma if_item_same i n : if_item i i n = n.
Proof. unfold if_item. by rewrite decide_True. Qed.
Lemma if_item_diff i j n : i <> j -> if_item i j n = 0.
Proof. intros Hij. unfold if_item. by rewrite decide_False. Qed.

Lemma does_answer signal f key (Q : Reply -> list happening -> Prop) : saturated f = true ->
  (forall r l, rp_status r = 503 -> (forall ce ct, records key ce ct (fun _ => 0) l) -> Q r l) ->
  does (answer_overloaded signal f) Q.
Proof.
  intros Hf HQ. unfold answer_overloaded, overloaded. rewrite Hf. cbn [negb]. apply does_bind, does_bind, does_countRejected, does_ret, does_ret, HQ; [done|].
  intros ce ct. apply records_quiet. by repeat constructor.
Qed.

Lemma does_writeQuotaExceeded signal detail key (Q : Reply -> list happening -> Prop) :
  (forall r l, rp_status r = 429 -> (forall ce ct, records key ce ct (fun _ => 0) l) -> Q r l) -> does (writeQuotaExceeded sv signal detail) Q.
Proof.
  intros HQ. unfold writeQuotaExceeded. apply does_bind, does_countRejected, does_bind, does_lift. intros now. apply does_ret, HQ; [done|].
  intros ce ct. apply records_quiet. by repeat constructor.
Qed.

Lemma does_refuse_each key (ss : list IngestSignal) reason (Q : () -> list happening -> Prop) :
  (forall l, (forall ce ct, records key ce ct (fun _ => 0) l) -> Q tt l) -> does (each (countRejected reason) ss) Q.
Proof.
  revert Q. induction ss as [|s ss IH]; intros Q HQ; cbn [each]; [apply does_ret, HQ; intros; apply records_nil|].
  apply does_bind, does_countRejected, IH. intros l Hl. apply HQ. intros ce ct.
  eapply records_ext; [apply records_app; [apply records_quiet; by repeat constructor|apply Hl]|]. done.
Qed.

(** What becomes of the items of an envelope that was accepted. *)
Record settled (key : Key) (env : Envelope) (sel : list Transaction) (l : list happening) (r : Reply) : Prop := {
  sd_status : rp_status r = 200 \/ rp_status r = 429 \/ rp_status r = 503;
  sd_about : exists ce ct, Forall (about key ce ct) l;
  sd_events : tally l (IGranted QEvent) = tally l (ITaken QEvent) + tally l (ITurned QEvent) + tally l (IUnreadable SignalEvent);
  sd_txs : tally l (IGranted QTransaction) = tally l (ITaken QTransaction) + tally l (ITurned QTransaction);
  sd_profiles : tally l IStored + tally l (IUnreadable SignalProfile) <= tally l (IGranted QProfile);
  sd_limits : tally l (IGranted QEvent) <= len (Events env) /\ tally l (IGranted QTransaction) <= len sel /\
    tally l (IGranted QProfile) <= len (Profiles env);
  sd_returned : forall q, q <> QProfile -> tally l (IReturned q) = if is_nil (sv_quota sv q) then 0 else tally l (ITurned q);
  sd_lost : rp_status r <> 503 ->
    tally l (ILost dropEvent) = env_Dropped env + (len (Events env) - tally l (IGranted QEvent)) /\
    tally l (ILost dropTransaction) = len sel - tally l (IGranted QTransaction) /\
    tally l IStored + tally l (IUnreadable SignalProfile) + tally l (ILost dropProfile) = len (Profiles env);
  sd_429 : rp_status r = 429 -> tally l IStored = 0 /\ forall q, tally l (IGranted q) = 0;
  sd_503 : rp_status r = 503 -> tally l (ITaken QEvent) = 0 /\ tally l (ITaken QTransaction) = 0 }.

(** The sums an envelope may end with: granted, lost, stored, taken, turned
    away and unreadable. *)
Record ending := mkEnding {
  n_ge : Z; n_gt : Z; n_gp : Z; n_le : Z; n_lt : Z; n_lp : Z; n_s : Z; n_up : Z; n_e : Z; n_d : Z; n_u : Z; n_te : Z; n_td : Z; n_re : Z; n_rt : Z }.
Definition ending_items (n : ending) (i : item) : Z :=
  if_item i (IGranted QEvent) (n_ge n) + if_item i (IGranted QTransaction) (n_gt n) + if_item i (IGranted QProfile) (n_gp n) +
  if_item i (ILost dropEvent) (n_le n) + if_item i (ILost dropTransaction) (n_lt n) + profile_items i (n_s n) (n_up n) (n_lp n) +
  event_items i (n_e n) (n_d n) (n_u n) + queued QTransaction i (n_te n) (n_td n) +
  if_item i (IReturned QEvent) (n_re n) + if_item i (IReturned QTransaction) (n_rt n).

Ltac sums Hl := rewrite ?Hl; unfold ending_items, profile_items, event_items, queued, unreadable_txs;
  rewrite ?if_item_same, ?if_item_diff by done.

(** The accounts of the three classes; what the envelope had lost on the way
    and what could not be read of its transactions are counted apart. *)
Record balanced (env : Envelope) (sel : list Transaction) (status : Z) (n : ending) : Prop := {
  ba_status : status = 200 \/ status = 429 \/ status = 503;
  ba_ge : n_ge n = n_e n + n_d n + n_u n;
  ba_gt : n_gt n = n_te n + n_td n;
  ba_gp : n_s n + n_up n <= n_gp n;
  ba_le : n_ge n <= len (Events env) /\ n_gt n <= len sel /\ n_gp n <= len (Profiles env);
  ba_re : n_re n = if is_nil (sv_quota sv QEvent) then 0 else n_d n;
  ba_rt : n_rt n = if is_nil (sv_quota sv QTransaction) then 0 else n_td n;
  ba_lost : status <> 503 -> n_le n = len (Events env) - n_ge n /\ n_lt n = len sel - n_gt n /\ n_s n + n_up n + n_lp n = len (Profiles env);
  ba_429 : status = 429 -> n_s n = 0 /\ n_ge n = 0 /\ n_gt n = 0 /\ n_gp n = 0;
  ba_503 : status = 503 -> n_e n = 0 /\ n_te n = 0 }.

Lemma settled_ending key env sel l r n ce ct dropped ut :
  records key ce ct (fun i => if_item i (ILost dropEvent) dropped + unreadable_txs i ut + ending_items n i) l ->
  balanced env sel (rp_status r) n -> dropped = env_Dropped env -> settled key env sel l r.
Proof.
  intros [Ha Hl] [Hst Hge Hgt Hgp Hle Hre Hrt Hlost H429 H503] ->. constructor; [done|by exists ce, ct|..].
  1-4: sums Hl; lia.
  - intros [] Hq; [| |done]; sums Hl; [rewrite Hre; destruct (is_nil (sv_quota sv QEvent))|rewrite Hrt; destruct (is_nil (sv_quota sv QTransaction))]; lia.
  - intros Hs. specialize (Hlost Hs). sums Hl. lia.
  - intros Hs. specialize (H429 Hs). split; [sums Hl; lia|]. intros []; sums Hl; lia.
  - intros Hs. specialize (H503 Hs). sums Hl. lia.
Qed.


Definition pipeline_items (i : item) (e d u te td : Z) : Z :=
  event_items i e d u + queued QTransaction i te td +
  if_item i (IReturned QEvent) (if is_nil (sv_quota sv QEvent) then 0 else d) +
  if_item i (IReturned QTransaction) (if is_nil (sv_quota sv QTransaction) then 0 else td).

Lemma does_enqueue_granted key ce ct id events txs :
  (events <> [] -> scopeAllows (Kind key) SignalEvent = true) -> (txs <> [] -> scopeAllows (Kind key) SignalTransaction = true) ->
  does (enqueue_granted sv key id events txs ce ct) (fun r l => exists e d u te td,
    e + d + u = len events /\ te + td = len txs /\ (rp_status r = 200 \/ rp_status r = 503 /\ e = 0 /\ te = 0) /\
    records key ce ct (fun i => pipeline_items i e d u te td) l).
Proof.
  intros He Ht. unfold enqueue_granted. apply does_bind. eapply does_mono; [by apply (does_enqueue_events key ce ct)|].
  intros [[id' e] d] l1 (u & He0 & Hd0 & Hu0 & Hsum & Hl1). apply does_bind. eapply does_mono; [by apply (does_enqueueTransactions key ce ct)|].
  intros [te td] l2 (Hte & Htd & Hsum2 & Hl2). cbn [fst snd] in *.
  apply does_bind, (does_refund key ce ct); [done..|]. intros l3 Hl3. apply does_bind, (does_refund key ce ct); [done..|]. intros l4 Hl4.
  assert (forall l', records key ce ct (fun _ => 0) l' -> records key ce ct (fun i => pipeline_items i e d u te td) (l1 ++ l2 ++ l3 ++ l4 ++ l')) as Hall.
  { intros l' Hl'. eapply records_ext; [do 4 (apply records_app; [eassumption|]); exact Hl'|]. intros i. unfold pipeline_items. cbn. lia. }
  destruct ((e =? 0) && (te =? 0) && ((0 <? d) || (0 <? td))) eqn:Hnone.
  - rewrite !andb_true_iff, !Z.eqb_eq in Hnone. apply (does_answer _ _ key); [by vm_compute|]. intros r l' Hr Hl'.
    exists e, d, u, te, td. split_and!; [done|done|right; naive_solver|]. by apply Hall.
  - apply does_ret. exists e, d, u, te, td. split_and!; [done|done|by left|]. apply Hall, records_nil.
Qed.

Record env_ok (key : Key) (env : Envelope) : Prop := {
  en_dropped : 0 <= env_Dropped env;
  en_events : Events env <> [] -> scopeAllows (Kind key) SignalEvent = true;
  en_txs : Transactions env <> [] -> scopeAllows (Kind key) SignalTransaction = true;
  en_profiles : Profiles env <> [] -> scopeAllows (Kind key) SignalProfile = true }.

Lemma present_false {A} (l : list A) : present l = false -> l = [].
Proof. destruct l; [done|]. unfold present, len. cbn [length]. intros Hl%Z.ltb_ge. lia. Qed.
Lemma len_nonneg_list {A} (l : list A) : 0 <= len l.
Proof. unfold len. lia. Qed.

(** A class that takes no part is granted nothing. *)
Lemma does_grant_if (b : bool) key q want (Q : Z * Z -> list happening -> Prop) : quota_law -> 0 <= want ->
  (forall n at_ l, 0 <= n <= want -> (b = false -> n = 0) ->
     (forall ce ct, (q = QEvent -> at_ = ce) -> (q = QTransaction -> at_ = ct) -> records key ce ct (fun i => if_item i (IGranted q) n) l) ->
     Q (n, at_) l) ->
  does (if b then grant sv q (key_OrgID key) want else mret (0, Quota.zero_time)) Q.
Proof.
  intros Hlaw Hw HQ. destruct b.
  - apply does_grant; [done|]. intros n at_ l Hn Hl. apply HQ; [lia|done|done].
  - apply does_ret, HQ; [lia|done|]. intros. eapply records_ext; [apply records_nil|]. items.
Qed.

Definition all_lost : ending := mkEnding 0 0 0 0 0 0 0 0 0 0 0 0 0 0 0.

Lemma if_item_zero i j : if_item i j 0 = 0.
Proof. unfold if_item. by destruct (decide _). Qed.

(** A reply that ends with nothing done. *)
Lemma records_all_lost key ce ct l : records key ce ct (fun _ => 0) l -> records key ce ct (ending_items all_lost) l.
Proof. intros Hl. eapply records_ext; [exact Hl|]. intros i. unfold ending_items, profile_items, event_items, queued. cbn. by rewrite !if_item_zero. Qed.

Lemma balanced_overloaded env sel status : status = 503 -> balanced env sel status all_lost.
Proof.
  pose proof (len_nonneg_list (Events env)). pose proof (len_nonneg_list sel). pose proof (len_nonneg_list (Profiles env)).
  intros ->. constructor; cbn; try done; try by destruct (is_nil _). by right; right.
Qed.

Lemma take_some {A} n (l : list A) : take n l <> [] -> l <> [].
Proof. intros Hl ->. apply Hl, take_nil. Qed.

Lemma len_some {A B} (l : list A) (l' : list B) : len l <= len l' -> l <> [] -> l' <> [].
Proof. intros Hl Hne ->. destruct l; [done|]. unfold len in Hl. cbn [length] in Hl. lia. Qed.

Lemma does_drop_events key ce ct (events : list chars) n (Q : () -> list happening -> Prop) : 0 <= n <= len events ->
  (forall l, records key ce ct (fun i => if_item i (ILost dropEvent) (len events - n)) l -> Q tt l) ->
  does (if present events then countDrop sv dropEvent (key_OrgID key) (len events - n) else mret tt) Q.
Proof.
  intros Hn HQ. destruct (present events) eqn:HE.
  - apply does_countDrop. intros l Hl. apply HQ. specialize (Hl ce ct). by rewrite Z.max_r in Hl by lia.
  - apply does_ret, HQ. apply present_false in HE. subst events. unfold len in *. cbn [length] in *.
    eapply records_ext; [apply records_nil|]. intros i. replace (Z.of_nat 0 - n) with 0 by lia. by rewrite if_item_zero.
Qed.

Lemma does_shift {A} pre (m : W D A) (Q R : A -> list happening -> Prop) :
  (forall a l, Q a (pre ++ l) -> R a l) -> does m (fun a l => Q a (pre ++ l)) -> does m R.
Proof. intros HR Hm. eapply does_mono; [exact Hm|exact HR]. Qed.

(** What was lost of the three classes is what was not granted of them, and
    what became of the profiles. *)
Definition spent_items (env : Envelope) (sel : list Transaction) (nE nT s u d : Z) (i : item) : Z :=
  if_item i (ILost dropEvent) (len (Events env) - nE) + if_item i (ILost dropTransaction) (len sel - nT) + profile_items i s u d.

Lemma does_spend_grants key env sel over relevant relE relT nE nT nP ce ct : env_ok key env -> len sel <= len (Transactions env) ->
  0 <= nE <= len (Events env) -> 0 <= nT <= len sel -> 0 <= nP <= len (Profiles env) ->
  does (spend_grants sv polls key env sel over relevant relE relT nE nT nP ce ct) (fun r l => exists n,
    records key ce ct (fun i => ending_items n i - (if_item i (IGranted QEvent) nE + if_item i (IGranted QTransaction) nT + if_item i (IGranted QProfile) nP)) l /\
    balanced env sel (rp_status r) n).
Proof.
  intros [] Hsel HnE HnT HnP. unfold spend_grants. cbv zeta. apply does_bind.
  apply (does_drop_events key ce ct); [lia|]. intros l1 Hl1. apply does_bind, does_countDrop. intros l2 Hl2. specialize (Hl2 ce ct). rewrite Z.max_r in Hl2 by lia.
  apply does_bind, (does_store_profiles key ce ct); [done..|]. intros l3 s u d Hs Hu Hd Hsum Hle Hl3.
  assert (forall f l, records key ce ct f l -> records key ce ct (fun i => spent_items env sel nE nT s u d i + f i) (l1 ++ l2 ++ l3 ++ l)) as Hall.
  { intros f l Hl. eapply records_ext; [do 3 (apply records_app; [eassumption|]); exact Hl|]. intros i. unfold spent_items. cbn. lia. }
  clear Hl1 Hl2 Hl3. destruct (relevant && _) eqn:Hno.
  - apply andb_true_iff in Hno as [_ Hno]. rewrite !andb_true_iff, !negb_true_iff, !Z.ltb_ge in Hno.
    assert (forall signal detail, does (writeQuotaExceeded sv signal detail) (fun r l => exists n,
      records key ce ct (fun i => ending_items n i - (if_item i (IGranted QEvent) nE + if_item i (IGranted QTransaction) nT + if_item i (IGranted QProfile) nP)) (l1 ++ l2 ++ l3 ++ l) /\
      balanced env sel (rp_status r) n)) as H429.
    { intros signal detail. apply (does_writeQuotaExceeded _ _ key). intros r l Hr Hl. specialize (Hl ce ct).
      exists (mkEnding 0 0 0 (len (Events env)) (len sel) (len (Profiles env)) 0 0 0 0 0 0 0 0 0). split.
      - eapply records_ext; [by apply Hall|]. intros i. unfold spent_items, ending_items, profile_items, event_items, queued. cbn.
        replace nE with 0 by lia. replace nT with 0 by lia. replace nP with 0 by lia. replace s with 0 by lia. replace u with 0 by lia.
        replace d with (len (Profiles env)) by lia. rewrite !if_item_zero, !Z.sub_0_r. lia.
      - rewrite Hr. constructor; cbn; try done; try lia; try (by destruct (is_nil _)). }
    destruct relE; [apply H429|destruct relT; apply H429].
  - eapply does_mono; [apply (does_enqueue_granted key)|].
    { intros Ht%take_some. auto. }
    { intros Ht%take_some. by apply en_txs0, (len_some sel). }
    intros r l (e & d' & u' & te & td & Hsum1 & Hsum2 & Hst & Hl).
    exists (mkEnding nE nT nP (len (Events env) - nE) (len sel - nT) d s u e d' u' te td
      (if is_nil (sv_quota sv QEvent) then 0 else d') (if is_nil (sv_quota sv QTransaction) then 0 else td)).
    unfold len in Hsum1, Hsum2. rewrite length_take in Hsum1. rewrite length_take in Hsum2. unfold len in *. split.
    + eapply records_ext; [apply Hall, Hl|]. intros i. unfold spent_items, ending_items, pipeline_items, len. cbn. lia.
    + constructor; cbn; unfold len; try done; try lia. 
Qed.

Definition settling key env sel (r : Reply) (l : list happening) : Prop :=
  exists n ce ct, records key ce ct (ending_items n) l /\ balanced env sel (rp_status r) n.

Lemma does_settle_envelope key env sel : quota_law -> env_ok key env -> len sel <= len (Transactions env) ->
  does (settle_envelope sv polls key env sel) (settling key env sel).
Proof.
  intros Hlaw Henv Hsel. unfold settle_envelope. cbv zeta. do 3 (apply does_bind, does_lift; intros ?).
  set (hE := present (Events env)). set (hT := present sel). set (hP := present (Profiles env)).
  assert (forall signal f pre, saturated f = true -> (exists ce ct, records key ce ct (fun _ => 0) pre) ->
    does (answer_overloaded signal f) (fun r l => settling key env sel r (pre ++ l))) as Hover.
  { intros signal f pre Hf (ce & ct & Hpre). apply (does_answer _ _ key); [done|]. intros r l Hr Hl. exists all_lost, ce, ct.
    split; [|by apply balanced_overloaded]. apply records_all_lost. eapply records_ext; [by apply records_app|done]. }
  destruct (_ && (negb hE || _) && _ && _) eqn:H1st.
  { assert (exists ce ct, records key ce ct (fun _ => 0) []) as Hnil by (exists 0, 0; apply records_nil).
    destruct hE, hT, hP, (saturated a) eqn:?, (saturated a0) eqn:?, (saturated a1) eqn:?; try discriminate H1st; cbn iota; by apply (Hover _ _ []). }
  apply does_bind, does_grant_if; [done|apply len_nonneg_list|]. intros nE ce l1 HnE _ Hl1.
  apply does_bind, does_grant_if; [done|apply len_nonneg_list|]. intros nT ct l2 HnT _ Hl2.
  apply does_bind, does_grant_if; [done|apply len_nonneg_list|]. intros nP cp l3 HnP _ Hl3.
  specialize (Hl1 ce ct ltac:(done) ltac:(done)). specialize (Hl2 ce ct ltac:(done) ltac:(done)). specialize (Hl3 ce ct ltac:(done) ltac:(done)).
  assert (records key ce ct (fun i => if_item i (IGranted QEvent) nE + if_item i (IGranted QTransaction) nT + if_item i (IGranted QProfile) nP) (l1 ++ l2 ++ l3)) as Hg.
  { eapply records_ext; [apply records_app; [exact Hl1|by apply records_app]|]. intros i. cbn. lia. }
  clear Hl1 Hl2 Hl3. apply (does_shift (l1 ++ l2 ++ l3) _ (settling key env sel)); [by intros r l; rewrite <- !app_assoc|].
  destruct (_ && (hE && saturated a || hT && saturated a0 || hP && saturated a1)) eqn:H2nd.
  - apply andb_true_iff in H2nd as [[_ Hno]%andb_true_iff Hsat]. rewrite !andb_true_iff, !negb_true_iff, !Z.ltb_ge in Hno.
    assert (exists ce ct, records key ce ct (fun _ => 0) (l1 ++ l2 ++ l3)) as Hnone.
    { exists ce, ct. eapply records_ext; [exact Hg|]. intros i. cbn. replace nE with 0 by lia. replace nT with 0 by lia. replace nP with 0 by lia. by rewrite !if_item_zero. }
    clear Hg Hno H1st. destruct hE, hT, hP, (saturated a) eqn:?, (saturated a0) eqn:?, (saturated a1) eqn:?; try discriminate Hsat; cbn [andb]; by apply Hover.
  - eapply does_mono; [by apply (does_spend_grants _ _ _ _ _ _ _ nE nT nP ce ct)|]. intros r l (n & Hl & Hb). exists n, ce, ct. split; [|done].
    eapply records_ext; [by apply records_app|]. intros i. cbn. lia.
Qed.

(** ** Requests *)

Definition accounted key env (r : Reply) (l : list happening) : Prop :=
  exists sel, Selected sel ∈ l /\ len sel <= len (Transactions env) /\ settled key env sel l r.

Lemma does_accept_envelope key env : quota_law -> env_ok key env ->
  does (accept_envelope sv polls key env) (fun r l => accounted key env r (Accepted key :: l)).
Proof.
  intros Hlaw Henv. unfold accept_envelope. apply does_bind, does_countDrop. intros l0 Hl0.
  apply does_bind, (does_refuse_each key). intros l1 Hl1. apply does_bind. eapply does_mono; [apply (does_select key)|]. intros sel l2 [Hsel [ut Hl2]].
  apply does_bind, does_tell. eapply does_mono; [by apply does_settle_envelope|]. intros r l (n & ce & ct & Hl & Hb).
  exists sel. split; [set_solver|]. split; [done|].
  apply (settled_ending key env sel _ _ n ce ct (env_Dropped env) ut); [|done|done].
  change (?h :: ?l) with ([h] ++ l). eapply records_ext;
    [apply records_app; [by apply records_one|do 3 (apply records_app; [eauto|]); apply records_app; [by apply records_one|exact Hl]]|].
  intros i. destruct Henv. cbn. rewrite Z.max_r by done. unfold units. cbn. lia.
Qed.

Definition refusing (r : Reply) (l : list happening) : Prop :=
  Forall quiet l /\ rp_status r ∈ [400; 401; 403; 404; 413; 429; 503].

Lemma does_authenticate rq signal also :
  does (authenticate sv rq signal also) (fun r l => match r with
    | Err reply => refusing reply l /\ forall key, Accepted key ∉ l
    | Ok key => l = [Accepted key] /\ Alert.ParseInt (rq_project rq) = Some (key_ProjectID key) /\ scopeAllowsRoute (Kind key) signal also = true
    end).
Proof.
  assert (forall p k (Q : () -> list happening -> Prop), Q tt [] -> does (touchUnverifiedSignal sv rq p k) Q) as Hsig.
  { intros p k Q HQ. apply does_bind, does_lift. intros [|]; [by apply does_touch|by apply does_ret]. }
  assert (forall status text l, status ∈ [400; 401; 403; 404; 413; 429; 503] ->
    Forall (fun h => match h with Refused _ _ => True | _ => False end) l -> refusing (refusal status text) l /\ forall key, Accepted key ∉ l) as Href.
  { intros status text l Hs Hl. split; [split; [|done]|].
    - eapply Forall_impl; [exact Hl|]. by intros [].
    - rewrite Forall_forall in Hl. intros key Hk. exact (Hl _ Hk). }
  unfold authenticate. destruct (Alert.ParseInt (rq_project rq)) as [p|] eqn:Hp; [|apply does_ret, Href; [set_solver|done]].
  cbv zeta. destruct (String.eqb _ _).
  { apply does_bind, does_count, does_bind, does_countRejected, does_bind, Hsig, does_ret, Href; [set_solver|by repeat constructor]. }
  apply does_bind, does_lift. intros [key|[]].
  - destruct (Z.eqb_spec (key_ProjectID key) p) as [<-|]; cbn [negb].
    + destruct (scopeAllowsRoute _ _ _) eqn:Hs; cbn [negb].
      * apply does_bind. unfold touchDeprecatedSignal.
        assert (forall Q : () -> list happening -> Prop, Q tt [] -> does (match rq_deprecated rq with Some d => touchSignal sv (key_ProjectID key) (KindDeprecated d) | None => mret tt end) Q) as Hdep.
        { intros Q HQ. destruct (rq_deprecated rq); [by apply does_touch|by apply does_ret]. }
        apply Hdep, does_bind, does_tell, does_ret. done.
      * apply does_bind, does_bind, does_count, does_bind, does_countRejected, does_bind, does_touch, does_ret, does_ret, Href; [set_solver|by repeat constructor].
    + apply does_bind, does_count, does_bind, does_countRejected, does_bind, does_touch, does_ret, Href; [set_solver|by repeat constructor].
  - apply does_ret, Href; [set_solver|done].
  - apply does_bind, does_count, does_bind, does_countRejected, does_bind, Hsig, does_ret, Href; [set_solver|by repeat constructor].
  - apply does_ret, Href; [set_solver|done].
Qed.

Lemma does_rateLimited projectID signal :
  does (rateLimited sv projectID signal) (fun r l => match r with
    | Some reply => rp_status reply = 429 /\ l = [Refused RejectRateLimit signal]
    | None => l = []
    end).
Proof.
  apply does_bind, does_lift. intros [|]; [by apply does_ret|]. by apply does_bind, does_countRejected, does_ret.
Qed.
(** An event of /store/ is taken, lost to the quota, or turned away. *)
Inductive event_outcome (key : Key) (pe : ParsedEvent) (r : Reply) (l : list happening) : Prop :=
| event_taken : rp_status r = 200 -> rp_text r = EventID pe -> Offered (key_ProjectID key) (key_OrgID key) (TaskEvent pe) true ∈ l ->
    (forall i, tally l i = if_item i (IGranted QEvent) 1 + if_item i (ITaken QEvent) 1) -> event_outcome key pe r l
| event_over_quota : rp_status r = 429 ->
    (forall i, tally l i = if_item i (ILost dropEvent) 1) -> event_outcome key pe r l
| event_turned_away : rp_status r = 503 ->
    (forall i, tally l i = if_item i (IGranted QEvent) 1 + if_item i (ITurned QEvent) 1 +
       if_item i (IReturned QEvent) (if is_nil (sv_quota sv QEvent) then 0 else 1)) -> event_outcome key pe r l.

Lemma does_store_event key pe : quota_law -> scopeAllows (Kind key) SignalEvent = true ->
  does (store_event sv key pe) (fun r l => (exists ce ct, Forall (about key ce ct) (Accepted key :: l)) /\ event_outcome key pe r (Accepted key :: l)).
Proof.
  intros Hlaw Hs. assert (forall ce ct, records key ce ct (fun _ => 0) [Accepted key]) as Hacc by (intros; by apply (records_one key ce ct (Accepted key))).
  unfold store_event. apply does_bind, does_grant; [done|]. intros n at_ l Hn Hl. specialize (Hl at_ 0 ltac:(done) ltac:(done)).
  destruct (Z.eqb_spec n 0) as [->|Hn0].
  - apply does_bind, does_countDrop. intros l1 Hl1. specialize (Hl1 at_ 0). apply (does_writeQuotaExceeded _ _ key). intros r l2 Hr Hl2. specialize (Hl2 at_ 0).
    destruct (records_app _ _ _ _ _ _ _ (Hacc at_ 0) (records_app _ _ _ _ _ _ _ Hl (records_app _ _ _ _ _ _ _ Hl1 Hl2))) as [Ha Hsum].
    split; [by exists at_, 0|]. apply event_over_quota; [done|]. intros i. etrans; [apply Hsum|]. cbn beta. rewrite if_item_zero. change (Z.max 0 1) with 1. lia.
  - assert (n = 1) as -> by lia. apply does_bind, does_lift. intros ok. apply does_bind, does_tell.
    assert (records key at_ 0 (fun i => units i (Offered (key_ProjectID key) (key_OrgID key) (TaskEvent pe) ok)) [Offered (key_ProjectID key) (key_OrgID key) (TaskEvent pe) ok]) as Ho by by apply records_one.
    destruct ok; cbn [negb].
    + apply does_ret. destruct (records_app _ _ _ _ _ _ _ (Hacc at_ 0) (records_app _ _ _ _ _ _ _ Hl Ho)) as [Ha Hsum].
      split; [exists at_, 0; exact Ha|]. apply event_taken; [done|done|set_solver|]. intros i. etrans; [apply Hsum|]. cbn beta. change (units i _) with (if_item i (ITaken QEvent) 1). lia.
    + apply does_bind, (does_refund key at_ 0); [done..|]. intros l1 Hl1. apply (does_answer _ _ key); [by vm_compute|]. intros r l2 Hr Hl2. specialize (Hl2 at_ 0).
      destruct (records_app _ _ _ _ _ _ _ (Hacc at_ 0) (records_app _ _ _ _ _ _ _ Hl (records_app _ _ _ _ _ _ _ Ho (records_app _ _ _ _ _ _ _ Hl1 Hl2)))) as [Ha Hsum].
      split; [exists at_, 0; exact Ha|]. apply event_turned_away; [done|]. intros i. etrans; [apply Hsum|]. cbn beta. change (units i _) with (if_item i (ITurned QEvent) 1). lia.
Qed.
End parts.



(** ** A handler at work *)

(** The quotas of a replica are quotas. *)
Lemma CheckAndCount_bounded {D} `{Has Quota.QuotaTables D} order clock r orgID want : 0 < want ->
  always (D := D) (fun _ => True) (Quota.CheckAndCount order clock r orgID want) (fun g => match g with Ok (n, _) => 0 <= n <= want | Err _ => True end).
Proof.
  intros Hw. unfold Quota.CheckAndCount. destruct (Z.leb_spec want 0); [lia|].
  eapply always_bind; [apply always_any|]. intros [|] _; [cbn; lia|]. eapply always_bind; [apply always_any|]. intros [limit|e] _; [|done].
  eapply always_bind; [apply always_any|]. intros at_ _.
  eapply (always_bind _ _ _ (fun g => match g with Ok g => 0 <= g <= want | Err _ => True end)).
  - unfold Quota.checkCount. destruct (Z.leb_spec want 0); [lia|]. intros f d _. split; [done|]. destruct f; cbn; try done.
    unfold Quota.charge_row, Quota.charge. destruct (Quota.usage (get d) !! _) as [n|]; cbn;
      repeat case_match; simplify_eq/=; repeat match goal with Hb : _ || _ = _ |- _ => apply orb_false_iff in Hb as [? ?] end;
      rewrite ?Z.leb_le, ?Z.leb_gt, ?Z.ltb_lt in *; lia.
  - intros [g|e] Hg; [|done]. eapply always_bind; [apply always_any|]. intros _u _. exact Hg.
Qed.

#[local] Existing Instance Sentry.ex_ascii.
#[local] Existing Instance Sentry.ex_formats.
#[local] Existing Instance Sentry.ex_range.
#[local] Instance ex_codecs : Codecs := {|
  decompress _ s := Some s; ParseSentryProfile _ raw := Some (mkProfile "tx" "web" "" false raw) |}.

Definition ex_counters : Counters := mkCounters (fun _ => 0) (fun _ => 0) (fun _ => 0) (fun _ => 0) 0 0.
Definition ex_state (limit : Z) : Counters * Quota.QuotaTables := (ex_counters, Quota.mkQuotaTables {[3 := limit]} ∅ ∅ ∅ ∅).

(** A quota on events only; a pipeline that has no room for an event whose
    message is [full]. *)
Definition ex_check (orgID want : Z) : prog (Counters * Quota.QuotaTables) (result () (Z * Z)) :=
  prog_bind (fun g => Ret (match g with Ok n => Ok n | Err _ => Err tt end)) (Quota.CheckAndCount Quota.ex_order (fun _ _ => Quota.ex_now) 0 orgID want).

Definition ex_services : Services (Counters * Quota.QuotaTables) := {|
  sv_now _ := Quota.ex_now; sv_uuid := Ret "u9"%string; sv_preAuth _ := Ret true; sv_signalTouch _ := Ret true; sv_rate _ := Ret true;
  sv_Resolve pub := Ret (if String.eqb pub "pub" then Ok (mkKey 1 7 3 "pub" KindServer) else Err ErrKeyNotFound); sv_Touch _ _ := Ret tt;
  sv_quota k := match k with QEvent => Some ex_check | _ => None end;
  sv_Refund k orgID n at_ := prog_bind (fun _ => Ret (Ok tt)) (Quota.Refund orgID n at_);
  sv_IncDropped _ _ _ _ := Ret (Ok tt); sv_saturation _ _ := float_of_Z 0;
  sv_Enqueue _ _ pe := Ret (negb (String.eqb (pe_Message pe) "full")); sv_EnqueueTransaction _ _ _ := Ret true; sv_Tracing := true;
  sv_sampleRate := None; sv_profiles := Some (fun _ _ => Ret tt); sv_Value _ _ v := Ret v; sv_scrubber := None; sv_ctx_done _ := false |}.

Lemma ex_services_law : quota_law ex_services.
Proof.
  intros [] check orgID want; cbn; [|done..]. intros [= <-] Hw. eapply always_bind; [by apply CheckAndCount_bounded|]. intros [[n t]|e] Hn; exact Hn.
Qed.

(** An item on the wire, without its length. *)
Definition ex_item (type payload : string) : chars :=
  let p := chars_of (q payload) in chars_of (q ("{'type':'" ++ type ++ "'}")) ++ newline :: p ++ [newline].
Definition ex_event (message : string) : chars := ex_item "event" ("{'message':'" ++ message ++ "'}").
Definition ex_request (items : list chars) : Request :=
  mkRequest "7" "Sentry sentry_key=pub" "" "" None Identity (mkStream (chars_of (q "{'event_id':'e1'}") ++ newline :: concat items) EOF).

Definition ex_run (limit : Z) (items : list chars) : Reply * list happening := (exec (envelope ex_services 1000 1 (ex_request items)) (Sys (ex_state limit) [])).1.
Example ex_run_sums :
  let l := (ex_run 2 [ex_event "open"; ex_event "full"; ex_item "profile" "ab"; ex_event "last"]) in
  (rp_status l.1, map (tally l.2) [IGranted QEvent; ITaken QEvent; ITurned QEvent; IReturned QEvent; ILost dropEvent; IStored]) = (200, [2; 1; 1; 1; 1; 1]).
Proof. vm_compute. reflexivity. Qed.

Definition ex_items : list chars := [ex_event "open"; ex_event "full"; ex_item "profile" "ab"; ex_event "last"].


(** Of an event and a profile, when the pipeline has no room for the event,
    the profile is stored and the answer is still 503: the client sends both
    again, and the profile is stored twice. *)
Lemma retry_stores_again :
  rp_status (ex_run 2 [ex_event "full"; ex_item "profile" "ab"]).1 = 503 /\
  tally (ex_run 2 [ex_event "full"; ex_item "profile" "ab"]).2 IStored = 1.
Proof. by vm_compute. Qed.

Definition ex_store (limit : Z) (message : string) : Reply * list happening :=
  (exec (store ex_services 1000 (mkRequest "7" "" "pub" "" None Identity (mkStream (chars_of (q ("{'message':'" ++ message ++ "'}"))) EOF)))
    (Sys (ex_state limit) [])).1.
Example ex_store_outcomes :
  map (fun r : Reply * list happening => (rp_status r.1, map (tally r.2) [IGranted QEvent; ITaken QEvent; IReturned QEvent; ILost dropEvent]))
    [ex_store 5 "open"; ex_store 5 "full"] = [(200, [1; 1; 0; 0]); (503, [1; 0; 1; 0])].
Proof. vm_compute. reflexivity. Qed.

